(* ===== verification/_CoqProject ===== *)
-Q . S2P
Prelude.v
ExitStack.v
PyStr.v
Asgi.v
DataStructures.v
Multipart.v
Requests.v
Base64.v
Security.v
MutableHeaders.v
Responses.v
Background.v
StaticFiles.v
ExceptionHandler.v
Convertors.v
Routing.v
RoutingFacts.v
RoutingThms.v
Encoders.v
Middleware.v
WebSocketConn.v
MultiWorker.v
ServerCore.v
HttpWire.v
HttpProtocol.v
HttpProtocolFacts.v
HttpServer.v
HttpHandlers.v
CppWs.v
WsEndpoint.v
Annotations.v
Dependants.v
DependantFacts.v
Params.v
ParamArgs.v
CoreQuery.v
ParamFacts.v
Solve.v
SolveFacts.v
FastDeps.v
FastDepsFacts.v
DepResolve.v
DepResolveFacts.v
ParamValidator.v
ParamValidatorFacts.v
ParamShims.v
ResponseShim.v
ResponseShimFacts.v
FormShim.v
Handler.v
HandlerFacts.v
RequestApp.v
ApiRouting.v
ApiRoutingThms.v
OpenApi.v
OpenApiFacts.v
Applications.v
Docs.v
DocsServer.v
SyncRoutes.v
ServerStart.v
