(* ===== verification/Prelude.v ===== *)
(** * AstraAPI: a verification development

    AstraAPI is an ASGI web framework: a Python package ([src/astraapi]) with a
    compiled core.  This development models the Python code that routes a
    request, finds the arguments of its handler, runs middleware and sends the
    answer, and proves what each part promises to the others.

    ** How the program is put together

    A connection arrives as an ASGI scope.  Middleware ([_middleware_impl.py])
    wraps the application; the router ([_routing_base.py]) compares the path
    with compiled templates, whose parameters are read by convertors, and calls
    the first route that fits, possibly through mounts.  A route's handler has a
    tree of dependants ([dependencies/models.py]), built once from the
    signatures of user functions by [get_dependant] ([dependencies/utils.py]);
    per request [solve_dependencies] runs the tree.  Answers are response
    objects ([_response.py]) that send ASGI events; exceptions are turned into
    answers by registered handlers ([_exception_handler.py]).  WebSocket
    connections are served by [_websocket.py] or, on the framework's own server,
    by the classes of [_cpp_server.py] and the groups of [_ws_groups.py].

    On that server the compiled core parses requests, matches routes and answers
    what it can.  [CppHttpProtocol] owns a connection: it feeds received bytes to
    the core, starts a task for every request the core leaves to Python, and
    those tasks finish the request.  [applications.py] and [routing.py] build
    what both servers use: the application object, [APIRouter] with its routes,
    the handler of each route, and the OpenAPI document of all of them.

    ** Files

    - [Prelude]: text, exceptions and outcomes ([result], [let!]), loops that
      can raise ([rfold], [rmapM]), insertion-ordered dictionaries, tactics and
      the hint database [astra].
    - [PyStr]: the [str] and [bytes] methods, codecs and numerals used.
    - [Asgi]: scopes, events, and [run], what a call of an application sent.
    - [DataStructures]: [State], [Address], [Headers], [QueryParams],
      [UploadFile] and [FormData] of [_datastructures_impl.py] and
      [_request.py], with their lazily filled caches; a store of files where
      objects are shared.
    - [Multipart]: the incremental multipart parser of [routing.py].
    - [Requests]: [Request] of [_request.py], with body, form and disconnect.
    - [Base64], [Security]: the schemes of [security/].
    - [MutableHeaders] (module [MH]) and [Responses]: [_response.py].
    - [Background]: [_background.py] and [_concurrency.py].
    - [StaticFiles]: [_staticfiles.py], on the joining and normalising of paths.
    - [ExceptionHandler]: [_exception_handler.py], [exception_handlers.py], the
      validation exceptions of [exceptions.py].
    - [Convertors], [Routing], [RoutingFacts], [RoutingThms]:
      [_routing_base.py].  Regular expressions are syntax trees with the greedy
      backtracking matcher [splits]; [LawfulConvertor] states what routing needs
      of a convertor.
    - [Encoders]: [jsonable_encoder] of [encoders.py].
    - [Annotations], [Dependants], [DependantFacts]: the annotation predicates of
      [_compat/shared.py], callables, [analyze_param], [get_dependant], cache
      keys and flattening.
    - [Params]: the parameter classes of [params.py] and the functions of
      [param_functions.py] with all their arguments.
    - [ParamArgs], [ParamFacts]: lookup and validation of parameters;
      [Mapping] is the interface of the containers they are looked up in;
      [CoreQuery]: the query-string parser and the coercion of scalars of the
      compiled core ([cpp_core/src/utils.cpp]), which they are compared with.
    - [Solve], [SolveFacts]: request bodies and [solve_dependencies], in a state
      and exception monad over the shared cache.
    - [FastDeps], [FastDepsFacts]: the solvers compiled for small dependency
      trees ([routing.py]); [DepResolve], [DepResolveFacts]: the resolvers for
      all other trees, with native credentials, generators and overrides.
    - [ParamValidator], [ParamValidatorFacts]: the specifications of the fields
      of a route and the validators of what the core extracted.
    - [ParamShims], [ResponseShim], [ResponseShimFacts], [FormShim]: the wrappers
      that [applications.py] puts around endpoints for the core, with shared
      responses, background tasks and files in stores.
    - [SyncRoutes]: the registration of all routes with the core, the choice of
      wrappers and the dispatch of routes that share a path.
    - [ServerStart]: the two starts of the compiled server, [_create_server] and
      [run_server], and what each tells the core about an application.
    - [WsEndpoint]: finding and running a WebSocket endpoint ([_cpp_server.py]).
    - [ExitStack]: closing an [AsyncExitStack].
    - [Handler], [HandlerFacts]: the handler of a route, [get_request_handler],
      with its body decoding, serialisation and endpoint contexts.
    - [RequestApp]: [request_response] and [websocket_session].
    - [ApiRouting], [ApiRoutingThms]: [APIRoute], [APIRouter] and
      [include_router]; [Applications]: [AstraAPI] and mounted applications.
    - [OpenApi], [OpenApiFacts]: [openapi/utils.py]; [Docs]: the pages of
      [openapi/docs.py]; [DocsServer]: the endpoints of the document and of the
      pages, with the cached document.
    - [Middleware] (modules [Cors], [GZip], [TrustedHost], [Wsgi]):
      [_middleware_impl.py]; [Gzip]/[GzipLaws] is the interface of the
      compressor.
    - [WebSocketConn]: the class of [_websocket.py] as a transition system.
    - [ServerCore] (modules [Lru], [Channel]) and [CppWs] (modules [Cpp],
      [CppReceive], [Groups]): the route cache, the frame channel, the native
      WebSocket connection and the connection groups; [WsCore]/[WsCoreLaws] is
      the interface of the core's frame builder.
    - [MultiWorker]: the supervisors of [_multiworker.py] and [_reloader.py].
    - [HttpWire]: what [_cpp_server.py] reads from received segments and writes
      besides the core: the request kept in context variables, added headers,
      chunked streams; and the driving of coroutines.
    - [HttpProtocol], [HttpProtocolFacts], [HttpServer]: connections.  The state
      is the protocol object at work ([me]) and what all connections share
      ([env]: counters, pools, timers, the log); [HttpServer] is the transition
      system of connecting, receiving, sweeping, signals and disconnecting.
    - [HttpHandlers]: the coroutines that finish requests, in a monad over the
      transport and a log of what was written and awaited.

    ** What the theorems show

    - Routing: a compiled template is the reading of its text and matches exactly
      the paths this describes; URLs
      generated for a route lead back to it with the same parameters; the router
      serves the first full, else the first partial match; mounts keep the
      request path equal to root path plus remainder; outside mounts, slash
      redirects lead to the path with or without its slash, and to a route; what
      a lifespan awaits, calls and sends, in order.
    - Dependencies: the tree of a route gives every parameter of every callable
      one role; flattening loses none; extraction gives each field its value or
      its errors; the query parser of the core agrees with the one in Python, and
      the accelerated query extraction with the generic one, where names and
      aliases do not cross and no scalar is repeated; a cached dependency runs at most once per request, an overridden one
      never, and for callables that are functions of their arguments the cache
      is not observable: solving is the cache-free reading [ref_solve].  The
      solvers of the compiled server compute what the tree stands for; their
      resolvers agree with each other, leave every generator they entered, and
      read the credentials the security schemes read.
    - Responses: header population, redirects, streaming, server-sent events and
      files; at most one response start however an application ends.
    - Middleware: CORS headers only for allowed origins; compression keeps the
      response (and where it does not); host lookup tables; the WSGI bridge.
    - WebSockets: in every reachable state the events sent follow the protocol, as
      long as the application does not accept twice; the frame channel hands out
      all frames in order under every interleaving, and loses one only when the
      endpoint is cancelled with a frame in its hands; frames read back; corked and direct sends keep their order;
      groups are the membership relation.
    - Requests: the multipart parser gives the same parts however the body is
      cut; the body is read first, the endpoint runs last and only on validated
      arguments; exit stacks
      are left in order before the response is complete; encoding terminates and
      is the encoding of the value; credentials and parameter classes.
    - API routers: inclusion is declaration with the prefix, terminates, and
      keeps matching; what happens to event handlers.
    - The compiled server: the table of the core leads every path and method to
      the first declared route; wrappers call the endpoint on validated
      arguments, and leave generator dependencies and files however it ends; what
      either start makes of middleware, handlers and limits, and what it leaves out.
    - OpenAPI: every documented operation is there, parameters are unique, every
      schema referred to is defined; the document the
      endpoint answers with has the present servers, and the routes of the time it
      was generated; titles and addresses cannot change the pages they are written in.
    - Static files: what is served lies under a directory as text.
    - The server: the counters, flags, pools and timers agree with the live
      connections in every reachable state, also between the parts of a sweep; the
      request kept for the handlers is the request sent, unless a piece of its
      body looks like another one; streams decode; the heartbeat finds silent peers; the
      sweep and WebSockets; each handler writes exactly one response, and the
      cases in which it writes none or two.
    - Containers: headers, query strings and the indexed header view agree with
      the raw lists they cache.

    ** Conventions and bounds

    Text is a list of code points; case mapping is exact on Latin-1 and the
    identity above it; decimal digits outside ASCII are not read by [int] and
    [float].  Raw headers are pairs of byte strings (the tolerance for [str]
    pairs is not modelled); an absent [more_body] is [false].  Sets of methods
    are lists in iteration order.  Fuel is the length of the text for
    [finditer], [replace] and the decoders, one unit per message for loops over
    received events; in [get_dependant] it is the stack, and enough for every
    well-founded dependency graph ([get_dependant_correct]); in
    [solve_dependencies] it is the code's own depth limit, 101 levels, and in
    [jsonable_encoder] the recursion limit of the interpreter.  In
    [include_router] and the dispatch loop of the server it counts iterations,
    with theorems that enough of it gives the result ([include_router_terminates],
    [dispatch_terminates]); header lines, chunks and the core's query strings are read with
    the length of the text, callbacks of the OpenAPI document and dependencies of overrides
    ([_collect_required]) with their depth.  Records with
    many fields are updated with coqutil's setters.
    Integers are unbounded in Python; the places with a width (frame lengths,
    binary64 path parameters, the 4300-digit limit of [int]) write it out.

    Parameters of the model, with hypotheses only where a theorem needs them:
    Pydantic validation and core schemas, the functions of the compiled core but
    those of [CoreQuery], zlib, the JSON encoder, the origin regular expression,
    the file system, WSGI applications, and user code.

    ** Not modelled

    The compiled core but for [CoreQuery] (its functions are parameters); the
    writes of [analyze_param] into an object that declares more than one parameter
    ([build_field_again] says why others need none); the set-up of
    sockets and processes in [run_server] and the file watcher, which are calls of
    the operating system; the test client, a client of the server rather than a
    part of it; templating, a binding to Jinja2; the Pydantic models of
    [openapi/models.py], which only declare fields; documentation strings,
    deprecated decorators, and Pydantic default factories. *)

(** This file: text, outcomes, dictionaries, shared lemmas and automation. *)

From Stdlib Require Export Ascii String.
#[export] Set Warnings "-clear-no-such-hyp".
From stdpp Require Export base tactics list numbers option gmap strings.
#[global] Open Scope Z_scope.
#[global] Open Scope list_scope.

(** ** Text

    A Python [str] is a list of code points and a Python [bytes] a list of
    byte values; both are carried by [list N].  Literals are written as Rocq
    strings and coerced. *)
Abbreviation str := (list N).
Abbreviation bytes := (list N).

Definition lit (s : string) : str := N_of_ascii <$> list_ascii_of_string s.
Coercion lit : string >-> list.
Arguments lit s%_string : simpl never.

Declare Scope py_scope.
Delimit Scope py_scope with py.
Notation "$ s" := (lit s%string) (at level 1, format "$ s") : py_scope.
#[global] Open Scope py_scope.

(** ** Outcomes of Python code *)

(** The exceptions the modelled code raises or catches.  An exception of the
    user's own has the names of its classes and a number that tells it apart; for
    a subclass of [HTTPException] the number is its [status_code]. *)
Inductive exn : Type :=
  | KeyError (key : str)
  | IndexError
  | ValueError (msg : str)
  | TypeError (msg : str)
  | AssertionError (msg : str)
  | AttributeError (msg : str)
  | RuntimeError (msg : str)
  | UnicodeEncodeError
  | UnicodeDecodeError
  | CookieError (msg : str)
  | OverflowError
  | NotImplementedError
  | HTTPException (status_code : Z) (detail : option str) (headers : option (list (str * str)))
  | WebSocketException (code : Z) (reason : str)
  | WebSocketDisconnect (code : Z) (reason : str)
  | NoMatchFound (name : str) (params : list str)
  | DependencyScopeError (msg : str)
  | RecursionError
  | AstraAPIError (msg : str)
  | PydanticV1NotSupportedError (msg : str)
  | UserException (mro : list str) (tag : Z).

#[global] Instance exn_eq_dec : EqDecision exn.
Proof. solve_decision. Defined.

Inductive result (A : Type) : Type :=
  | Ok (a : A)
  | Raise (e : exn).
Arguments Ok {A} a.
Arguments Raise {A} e.

#[global] Instance result_eq_dec `{EqDecision A} : EqDecision (result A).
Proof. solve_decision. Defined.

#[global] Instance Ok_inj {A} : Inj (=) (=) (@Ok A).
Proof. by intros a b [= ->]. Qed.

Definition rbind {A B} (m : result A) (f : A -> result B) : result B :=
  match m with
  | Ok a => f a
  | Raise e => Raise e
  end.

Definition rmap {A B} (f : A -> B) (m : result A) : result B :=
  rbind m (fun a => Ok (f a)).

Notation "'let!' x := m 'in' k" := (rbind m (fun x => k))
  (at level 10, x pattern, m at level 100, k at level 200) : py_scope.

Definition is_ok {A} (m : result A) : bool :=
  match m with Ok _ => true | Raise _ => false end.

(** [assert c, msg] *)
Definition py_assert (c : bool) (msg : str) : result unit :=
  if c then Ok tt else Raise (AssertionError msg).

(** A left fold whose steps can raise: a Python [for] loop over a list. *)
Fixpoint rfold {A S} (f : S -> A -> result S) (s : S) (l : list A) : result S :=
  match l with
  | [] => Ok s
  | a :: l' => let! s' := f s a in rfold f s' l'
  end.

Fixpoint rmapM {A B} (f : A -> result B) (l : list A) : result (list B) :=
  match l with
  | [] => Ok []
  | a :: l' => let! b := f a in let! bs := rmapM f l' in Ok (b :: bs)
  end.

(** ** Lists *)
Lemma filter_all {A} (P : A -> Prop) `{∀ x, Decision (P x)} (l : list A) :
  (∀ x, x ∈ l -> P x) -> filter P l = l.
Proof.
  induction l as [|a l IH]; intros Hl; [done|].
  rewrite filter_cons_True by (apply Hl; set_solver). f_equal. apply IH. set_solver.
Qed.

Lemma filter_ext_in {A} (P Q : A -> Prop) `{∀ x, Decision (P x)} `{∀ x, Decision (Q x)} (l : list A) :
  (∀ x, x ∈ l -> P x ↔ Q x) -> filter P l = filter Q l.
Proof.
  induction l as [|a l IH]; intros Hl; [done|]. rewrite !filter_cons. rewrite IH by set_solver.
  destruct (decide (P a)), (decide (Q a)); try done; exfalso; specialize (Hl a); set_solver.
Qed.

Lemma exists_cons {A} (P : A -> Prop) a l : (∃ x, x ∈ a :: l ∧ P x) ↔ P a ∨ ∃ x, x ∈ l ∧ P x.
Proof. setoid_rewrite elem_of_cons. naive_solver. Qed.

Lemma elem_of_concat {A} (x : A) ls : x ∈ concat ls ↔ ∃ l, x ∈ l ∧ l ∈ ls.
Proof. induction ls as [|l ls IH]; simpl; set_solver. Qed.

Lemma concat_nil_elem {A} (ls : list (list A)) l : concat ls = [] -> l ∈ ls -> l = [].
Proof. induction ls as [|l' ls IH]; simpl; [set_solver|]. intros [-> ?]%app_nil. set_solver. Qed.

Lemma concat_nil_intro {A} (ls : list (list A)) : (∀ l, l ∈ ls -> l = []) -> concat ls = [].
Proof. induction ls as [|l ls IH]; intros H; simpl; [done|].
  rewrite (H l) by set_solver. apply IH. set_solver.
Qed.

Lemma NoDup_fmap_elem {A B} (f : A -> B) l x y :
  NoDup (f <$> l) -> x ∈ l -> y ∈ l -> f x = f y -> x = y.
Proof.
  intros Hnd [i Hi]%list_elem_of_lookup [j Hj]%list_elem_of_lookup He.
  assert (i = j) as ->; [|congruence].
  apply (NoDup_lookup _ i j (f x) Hnd); rewrite list_lookup_fmap; [by rewrite Hi|by rewrite Hj, He].
Qed.

Lemma NoDup_reverse {A} (l : list A) : NoDup (reverse l) -> NoDup l.
Proof. by rewrite reverse_Permutation. Qed.

Lemma forallb_Forall {A} (f : A -> bool) l : forallb f l = true ↔ Forall (fun x => f x = true) l.
Proof.
  induction l as [|a l IH]; simpl; [by split|].
  rewrite andb_true_iff, Forall_cons, IH. done.
Qed.

Lemma subseteq_take_elem {A} (x : A) n l : x ∈ take n l -> x ∈ l.
Proof. intros H. rewrite <-(take_drop n l). set_solver. Qed.

Lemma subseteq_drop_elem {A} (x : A) n l : x ∈ drop n l -> x ∈ l.
Proof. intros H. rewrite <-(take_drop n l). set_solver. Qed.

Lemma fmap_filter_snoc {A B} (P : A -> Prop) `{∀ x, Decision (P x)} (f : A -> B) l a :
  f <$> filter P (l ++ [a]) = (f <$> filter P l) ++ (if decide (P a) then [f a] else []).
Proof.
  rewrite filter_app, fmap_app. f_equal. rewrite filter_cons, filter_nil. by case_decide.
Qed.

(** ** Insertion-ordered dictionaries

    A Python [dict] keeps its keys in insertion order and the modelled code
    iterates over dictionaries, so a dictionary is an association list with
    distinct keys ([dict_wf]); assignment replaces in place or appends. *)
Section dict.
Context {K V : Type} `{EqDecision K}.
Implicit Types (d : list (K * V)) (k : K) (v : V).

Fixpoint dict_get (d : list (K * V)) (k : K) : option V :=
  match d with
  | [] => None
  | (k', v) :: d' => if decide (k = k') then Some v else dict_get d' k
  end.

Fixpoint dict_set (d : list (K * V)) (k : K) (v : V) : list (K * V) :=
  match d with
  | [] => [(k, v)]
  | (k', v') :: d' => if decide (k = k') then (k', v) :: d' else (k', v') :: dict_set d' k v
  end.

Fixpoint dict_del (d : list (K * V)) (k : K) : list (K * V) :=
  match d with
  | [] => []
  | (k', v') :: d' => if decide (k = k') then d' else (k', v') :: dict_del d' k
  end.

Definition dict_mem (d : list (K * V)) (k : K) : bool :=
  match dict_get d k with Some _ => true | None => false end.

Definition dict_getdefault (d : list (K * V)) (k : K) (dflt : V) : V :=
  match dict_get d k with Some v => v | None => dflt end.

Definition dict_setdefault (d : list (K * V)) (k : K) (v : V) : list (K * V) :=
  if dict_mem d k then d else dict_set d k v.

(** [d.update(other)] *)
Definition dict_update (d other : list (K * V)) : list (K * V) :=
  foldl (fun acc '(k, v) => dict_set acc k v) d other.

Definition dict_keys (d : list (K * V)) : list K := d.*1.
Definition dict_values (d : list (K * V)) : list V := d.*2.
Definition dict_wf (d : list (K * V)) : Prop := NoDup (d.*1).

Lemma dict_get_set_eq d k v : dict_get (dict_set d k v) k = Some v.
Proof. induction d as [|[k' v'] d IH]; simpl; repeat (case_decide; simpl); congruence. Qed.

Lemma dict_get_set_ne d k k' v : k ≠ k' -> dict_get (dict_set d k v) k' = dict_get d k'.
Proof.
  intros Hne. induction d as [|[k0 v0] d IH]; simpl; repeat (case_decide; simpl); congruence.
Qed.

Lemma dict_get_set d k k' v :
  dict_get (dict_set d k v) k' = if decide (k = k') then Some v else dict_get d k'.
Proof.
  case_decide; subst; [apply dict_get_set_eq | by apply dict_get_set_ne].
Qed.

Lemma dict_get_app d d' k :
  dict_get (d ++ d') k = match dict_get d k with Some v => Some v | None => dict_get d' k end.
Proof. induction d as [|[k' v'] d IH]; simpl; [done|]. by case_decide. Qed.

Lemma dict_keys_set d k v :
  (dict_set d k v).*1 = if dict_mem d k then d.*1 else d.*1 ++ [k].
Proof.
  induction d as [|[k' v'] d IH]; [done|].
  unfold dict_mem in *. csimpl. case_decide; csimpl; [done|].
  rewrite IH. by destruct (dict_get d k).
Qed.

Lemma dict_get_None d k : dict_get d k = None ↔ k ∉ d.*1.
Proof.
  induction d as [|[k' v'] d IH]; simpl; [set_solver|].
  case_decide; subst; set_solver.
Qed.

Lemma dict_mem_true d k : dict_mem d k = true ↔ k ∈ d.*1.
Proof.
  unfold dict_mem. destruct (dict_get d k) eqn:E.
  - split; [|done]. intros _. destruct (decide (k ∈ d.*1)) as [|n]; [done|].
    apply dict_get_None in n. congruence.
  - apply dict_get_None in E. split; [done|]. by intros.
Qed.

Lemma dict_mem_false d k : dict_mem d k = false ↔ k ∉ d.*1.
Proof. rewrite <-not_true_iff_false, dict_mem_true. done. Qed.

Lemma dict_get_elem d k v : dict_get d k = Some v -> (k, v) ∈ d.
Proof.
  induction d as [|[k' v'] d IH]; simpl; [done|].
  case_decide; intros; simplify_eq; set_solver.
Qed.

Lemma dict_elem_get d k v : dict_wf d -> (k, v) ∈ d -> dict_get d k = Some v.
Proof.
  unfold dict_wf. induction d as [|[k' v'] d IH]; simpl; [set_solver|].
  intros Hnd Hin. inversion Hnd as [|?? Hni Hnd']; subst.
  apply elem_of_cons in Hin as [?|Hin]; [simplify_eq; by case_decide|].
  case_decide; subst; [|by apply IH].
  exfalso. apply Hni. apply list_elem_of_fmap. by exists (k', v).
Qed.

Lemma dict_set_wf d k v : dict_wf d -> dict_wf (dict_set d k v).
Proof.
  unfold dict_wf. intros H. rewrite dict_keys_set.
  destruct (dict_mem d k) eqn:E; [done|].
  apply dict_mem_false in E. apply NoDup_app. split_and!; [done| |by apply NoDup_singleton].
  set_solver.
Qed.

Lemma dict_setdefault_wf d k v : dict_wf d -> dict_wf (dict_setdefault d k v).
Proof. unfold dict_setdefault. destruct (dict_mem d k); auto using dict_set_wf. Qed.

Lemma dict_get_setdefault d k k' v :
  dict_get (dict_setdefault d k v) k'
  = if decide (k = k') then Some (dict_getdefault d k v) else dict_get d k'.
Proof.
  unfold dict_setdefault, dict_mem, dict_getdefault. destruct (dict_get d k) eqn:E.
  - case_decide; subst; congruence.
  - apply dict_get_set.
Qed.

Lemma dict_keys_del d k : dict_wf d -> (dict_del d k).*1 = filter (fun k' => k' ≠ k) (d.*1).
Proof.
  unfold dict_wf. induction d as [|[k' v'] d IH]; [done|]. csimpl.
  intros Hnd. inversion Hnd as [|?? Hni Hnd']; subst.
  rewrite filter_cons. repeat case_decide; subst; simplify_eq; csimpl.
  - symmetry. apply filter_all. by intros x Hx ->.
  - by rewrite IH.
Qed.

Lemma dict_del_wf d k : dict_wf d -> dict_wf (dict_del d k).
Proof.
  intros H. unfold dict_wf. rewrite dict_keys_del by done. by apply NoDup_filter.
Qed.

Lemma dict_get_del d k k' :
  dict_wf d -> dict_get (dict_del d k) k' = if decide (k = k') then None else dict_get d k'.
Proof.
  unfold dict_wf. induction d as [|[k0 v0] d IH]; simpl; [by case_decide|].
  intros Hnd. inversion Hnd as [|?? Hni Hnd']; subst.
  destruct (decide (k = k0)); subst.
  - case_decide; subst; [|by rewrite decide_False by congruence].
    by apply dict_get_None.
  - simpl. rewrite IH by done. repeat case_decide; congruence.
Qed.

Lemma dict_update_wf d o : dict_wf d -> dict_wf (dict_update d o).
Proof.
  unfold dict_update. revert d. induction o as [|[k v] o IH]; simpl; auto using dict_set_wf.
Qed.

Lemma dict_get_update d o k :
  dict_wf o ->
  dict_get (dict_update d o) k = match dict_get o k with Some v => Some v | None => dict_get d k end.
Proof.
  unfold dict_update, dict_wf. revert d.
  induction o as [|[k0 v0] o IH]; intros d; simpl; [done|].
  intros Hnd. inversion Hnd as [|?? Hni Hnd']; subst. rewrite IH by done.
  rewrite dict_get_set. destruct (decide (k = k0)) as [->|].
  - rewrite decide_True by done. by rewrite (proj2 (dict_get_None o k0)) by done.
  - by rewrite (decide_False (P := k0 = k)) by congruence.
Qed.

Lemma dict_get_foldl_setdefault d (items : list (K * V)) k :
  dict_get (foldl (fun d '(k, v) => dict_setdefault d k v) d items) k
  = match dict_get d k with
    | Some v => Some v
    | None => head (filter (fun kv => kv.1 = k) items).*2
    end.
Proof.
  revert d. induction items as [|[k0 v0] items IH]; intros d; simpl.
  - by destruct (dict_get d k).
  - rewrite IH, dict_get_setdefault, filter_cons. unfold dict_getdefault. simpl.
    repeat case_decide; subst; simplify_eq; try done. by destruct (dict_get d k).
Qed.

Lemma dict_foldl_setdefault_wf d (items : list (K * V)) :
  dict_wf d -> dict_wf (foldl (fun d '(k, v) => dict_setdefault d k v) d items).
Proof. revert d. induction items as [|[k v] items IH]; simpl; auto using dict_setdefault_wf. Qed.
End dict.

(** Mapping a function over the values of a dictionary. *)
Lemma dict_get_fmap {K V W} `{EqDecision K} (f : V -> W) (d : list (K * V)) k :
  dict_get ((fun kv => (kv.1, f kv.2)) <$> d) k = f <$> dict_get d k.
Proof. induction d as [|[k' v'] d IH]; [done|]. csimpl. by case_decide. Qed.

Lemma dict_keys_fmap {K V W} (f : V -> W) (d : list (K * V)) :
  ((fun kv => (kv.1, f kv.2)) <$> d).*1 = d.*1.
Proof. rewrite <-list_fmap_compose. done. Qed.

(** ** Shared lemmas *)
Lemma rbind_Ok {A B} (m : result A) (f : A -> result B) b :
  rbind m f = Ok b ↔ ∃ a, m = Ok a ∧ f a = Ok b.
Proof. destruct m; simpl; naive_solver. Qed.

Lemma py_assert_Ok c msg u : py_assert c msg = Ok u ↔ c = true.
Proof. destruct u, c; simpl; naive_solver. Qed.

Lemma rmapM_Ok {A B} (f : A -> result B) l bs :
  rmapM f l = Ok bs ↔ Forall2 (fun a b => f a = Ok b) l bs.
Proof.
  revert bs. induction l as [|a l IH]; intros bs; simpl.
  - split; [intros [= <-]; constructor | by inversion 1].
  - rewrite rbind_Ok. setoid_rewrite rbind_Ok. setoid_rewrite IH. split.
    + intros (b & ? & bs' & ? & [= <-]). by constructor.
    + inversion 1; subst. naive_solver.
Qed.

Lemma rfold_ext {A S} (f g : S -> A -> result S) s l :
  (∀ s a, a ∈ l -> f s a = g s a) -> rfold f s l = rfold g s l.
Proof.
  revert s. induction l as [|a l IH]; intros s Hl; simpl; [done|].
  rewrite Hl by set_solver. destruct (g s a); simpl; [|done]. apply IH. set_solver.
Qed.

Lemma rmapM_ext {A B} (f g : A -> result B) l :
  (∀ a, a ∈ l -> f a = g a) -> rmapM f l = rmapM g l.
Proof.
  induction l as [|a l IH]; intros Hl; simpl; [done|].
  rewrite Hl, IH by set_solver. done.
Qed.

Lemma rfold_total {A S} (f : S -> A -> result S) s l :
  (∀ s a, a ∈ l -> ∃ s', f s a = Ok s') -> ∃ s', rfold f s l = Ok s'.
Proof.
  revert s. induction l as [|a l IH]; intros s Hl; simpl; [by eexists|].
  destruct (Hl s a) as [s' ->]; [set_solver|]. simpl. apply IH. set_solver.
Qed.

(** Exceptions a loop can end with. *)
Lemma rfold_raises {A S} (P : exn -> Prop) (f : S -> A -> result S) s l e :
  (∀ s a e, a ∈ l -> f s a = Raise e -> P e) -> rfold f s l = Raise e -> P e.
Proof.
  revert s. induction l as [|a l IH]; intros s Hl; simpl; [done|].
  destruct (f s a) eqn:E; simpl; [apply IH; set_solver|].
  intros [= <-]. eapply Hl; [|exact E]. set_solver.
Qed.

(** Invariants of a loop, over the elements it has processed. *)
Lemma rfold_invariant {A S} (P : list A -> S -> Prop) (f : S -> A -> result S) s0 l s :
  P [] s0 ->
  (∀ seen s1 a s2, a ∈ l -> P seen s1 -> f s1 a = Ok s2 -> P (seen ++ [a]) s2) ->
  rfold f s0 l = Ok s -> P l s.
Proof.
  intros H0 Hstep. cut (∀ seen l' s1, (∀ a, a ∈ l' -> a ∈ l) -> P seen s1 ->
    rfold f s1 l' = Ok s -> P (seen ++ l') s).
  { intros H Hf. by apply (H [] l s0). }
  intros seen l'. revert seen. induction l' as [|a l' IH]; intros seen s1 Hl Hs; simpl.
  - intros [= <-]. by rewrite app_nil_r.
  - intros (s2 & Ha & Hr)%rbind_Ok. rewrite cons_middle, app_assoc.
    eapply IH; [set_solver| |done]. eapply Hstep; [set_solver|done..].
Qed.

(** ** Automation *)
Create HintDb astra.
#[export] Hint Resolve dict_set_wf dict_del_wf dict_setdefault_wf dict_update_wf : astra.
#[export] Hint Resolve NoDup_nil_2 : astra.

(** Splits the matches and conditionals of a model, keeping the equations. *)
Ltac split_code :=
  repeat (case_match; simplify_eq/=; try done).

(** Opens a [result] that is known to have returned. *)
Ltac inv_ok :=
  repeat match goal with
  | H : rbind _ _ = Ok _ |- _ => apply rbind_Ok in H as (? & ? & H)
  | H : py_assert _ _ = Ok _ |- _ => apply py_assert_Ok in H
  | H : Ok _ = Ok _ |- _ => injection H as H; subst
  | H : Raise _ = Ok _ |- _ => discriminate H
  end.
