(* ===== verification/ExitStack.v ===== *)
(** * ExitStack: leaving context managers

    What [AsyncExitStack] does when it is closed: the managers that were entered
    are left in reverse order, each is told the exception that is pending and
    can suppress it or replace it.  Shared by the request applications and the
    dependency resolvers of [routing.py]. *)

From S2P Require Import Prelude.

(** What leaving a context manager does: it returns, saying whether it
    suppresses the exception, or raises. *)
Inductive exit_result (X : Type) : Type := ExitReturns (suppress : bool) | ExitRaises (x : X).
Arguments ExitReturns {X}. Arguments ExitRaises {X}.

Section stacks.
(** Managers and exceptions. *)
Context {E X : Type} (exit_gen : E -> option X -> exit_result X).

(** The exception that is pending after one callback. *)
Definition after_exit (e : E) (pending : option X) : option X :=
  match exit_gen e pending with
  | ExitReturns suppress => if suppress then None else pending
  | ExitRaises x => Some x
  end.

(** Callbacks in the order given, which is the reverse of the order of entry. *)
Fixpoint unwind (entries : list E) (pending : option X) : list E * option X :=
  match entries with
  | [] => ([], pending)
  | e :: entries' =>
      let '(exited, p) := unwind entries' (after_exit e pending) in (e :: exited, p)
  end.

Definition aexit (entered : list E) (pending : option X) : list E * option X :=
  unwind (reverse entered) pending.

(** Whatever the managers do, all of them are left. *)
Lemma unwind_all entries pending : (unwind entries pending).1 = entries.
Proof.
  revert pending. induction entries as [|e entries IH]; intros pending; simpl; [done|].
  specialize (IH (after_exit e pending)). destruct (unwind _ _). simpl in *. by subst.
Qed.
End stacks.
