(* ===== verification/PyStr.v ===== *)
(** * PyStr: the Python text operations the code uses

    [str] methods ([lower], [split], [partition], [strip], [replace], ...),
    the Latin-1 and UTF-8 codecs, decimal and hexadecimal numerals,
    [urllib.parse.unquote] and [quote].  Case mapping is exact on the Latin-1
    range (code points below 256), the range in which ASGI hands header text
    to the application; code points from 256 on are treated as caseless. *)

From Stdlib Require Import DecimalN.
From S2P Require Import Prelude.

(** ** Characters *)
Definition in_range (lo hi c : N) : bool := (lo <=? c)%N && (c <=? hi)%N.

Definition ascii_upper_letter (c : N) : bool := in_range 65 90 c.
Definition ascii_lower_letter (c : N) : bool := in_range 97 122 c.
Definition is_digit (c : N) : bool := in_range 48 57 c.
Definition is_hex (c : N) : bool := is_digit c || in_range 65 70 c || in_range 97 102 c.

(** [bytes.lower] changes the ASCII letters only. *)
Definition ascii_lower_char (c : N) : N := if ascii_upper_letter c then (c + 32)%N else c.
Definition ascii_upper_char (c : N) : N := if ascii_lower_letter c then (c - 32)%N else c.

(** [str.lower] on Latin-1 also maps U+00C0..U+00DE except U+00D7. *)
Definition lower_char (c : N) : N :=
  if ascii_upper_letter c || (in_range 192 222 c && negb (c =? 215)%N) then (c + 32)%N else c.

(** [str.upper] on Latin-1: the sharp s becomes two letters, the micro sign
    and y-diaeresis leave Latin-1. *)
Definition upper_char (c : N) : str :=
  if ascii_lower_letter c then [(c - 32)%N]
  else if (c =? 223)%N then [83%N; 83%N]
  else if (c =? 181)%N then [924%N]
  else if (c =? 255)%N then [376%N]
  else if in_range 224 254 c && negb (c =? 247)%N then [(c - 32)%N]
  else [c].

Definition bytes_lower (b : bytes) : bytes := ascii_lower_char <$> b.
Definition str_lower (s : str) : str := lower_char <$> s.
Definition str_upper (s : str) : str := s ≫= upper_char.

(** White space of [str.split()] and [str.strip()], in the Latin-1 range. *)
Definition is_space (c : N) : bool :=
  in_range 9 13 c || in_range 28 32 c || (c =? 133)%N || (c =? 160)%N.

(** ** Searching *)
Fixpoint startswith (s p : str) : bool :=
  match p, s with
  | [], _ => true
  | _, [] => false
  | c :: p', d :: s' => (c =? d)%N && startswith s' p'
  end.

Definition endswith (s p : str) : bool := startswith (reverse s) (reverse p).

(** [sub in s] *)
Fixpoint contains (sub s : str) : bool :=
  startswith s sub || match s with [] => false | _ :: s' => contains sub s' end.

Definition contains_char (c : N) (s : str) : bool := existsb (N.eqb c) s.

(** ** Splitting and joining *)

(** [s.partition(c)] for a one-character separator: the text before the first
    separator, whether there was one, and the text after it. *)
Fixpoint partition (c : N) (s : str) : str * bool * str :=
  match s with
  | [] => ([], false, [])
  | d :: s' =>
      if (d =? c)%N then ([], true, s')
      else let '(a, f, b) := partition c s' in (d :: a, f, b)
  end.

(** [s.split(c)]: never empty. *)
Fixpoint split_on (c : N) (s : str) : list str :=
  match s with
  | [] => [[]]
  | d :: s' =>
      if (d =? c)%N then [] :: split_on c s'
      else match split_on c s' with
           | [] => [[d]]
           | w :: ws => (d :: w) :: ws
           end
  end.

(** [s.split(c)[0]] *)
Definition split_head (c : N) (s : str) : str := fst (fst (partition c s)).

Definition push_word (w : str) (ws : list str) : list str :=
  match w with [] => ws | _ => w :: ws end.

(** [s.split()]: the maximal runs of non-space characters. *)
Fixpoint split_words_aux (s w : str) : list str :=
  match s with
  | [] => push_word w []
  | c :: s' =>
      if is_space c then push_word w (split_words_aux s' []) else split_words_aux s' (w ++ [c])
  end.
Definition split_words (s : str) : list str := split_words_aux s [].

(** [sep.join(l)] *)
Fixpoint join (sep : str) (l : list str) : str :=
  match l with
  | [] => []
  | [w] => w
  | w :: l' => w ++ sep ++ join sep l'
  end.

Fixpoint lstrip_by (p : N -> bool) (s : str) : str :=
  match s with
  | [] => []
  | c :: s' => if p c then lstrip_by p s' else s
  end.
Definition rstrip_by (p : N -> bool) (s : str) : str := reverse (lstrip_by p (reverse s)).
Definition lstrip (c : N) (s : str) : str := lstrip_by (N.eqb c) s.
Definition rstrip (c : N) (s : str) : str := rstrip_by (N.eqb c) s.
Definition strip (s : str) : str := rstrip_by is_space (lstrip_by is_space s).

(** [s.replace(c, d)] for single characters. *)
Definition replace_char (c d : N) (s : str) : str := (fun x => if (x =? c)%N then d else x) <$> s.

(** [s.replace(old, new)] for a non-empty [old]; the fuel is the length. *)
Fixpoint replace_fuel (fuel : nat) (old new s : str) : str :=
  match fuel with
  | O => s
  | S fuel' =>
      match s with
      | [] => []
      | c :: s' =>
          if startswith s old then new ++ replace_fuel fuel' old new (drop (length old) s)
          else c :: replace_fuel fuel' old new s'
      end
  end.
Definition replace (old new s : str) : str := replace_fuel (S (length s)) old new s.

(** ** Codecs *)
Definition encode_latin1 (s : str) : result bytes :=
  if forallb (fun c => (c <? 256)%N) s then Ok s else Raise UnicodeEncodeError.
Definition decode_latin1 (b : bytes) : str := b.

Definition utf8_encode_char (c : N) : bytes :=
  if (c <? 128)%N then [c]
  else if (c <? 2048)%N then [(192 + c / 64)%N; (128 + c mod 64)%N]
  else if (c <? 65536)%N then [(224 + c / 4096)%N; (128 + (c / 64) mod 64)%N; (128 + c mod 64)%N]
  else [(240 + c / 262144)%N; (128 + (c / 4096) mod 64)%N;
        (128 + (c / 64) mod 64)%N; (128 + c mod 64)%N].

Definition is_surrogate (c : N) : bool := in_range 55296 57343 c.

(** [s.encode("utf-8")]: lone surrogates cannot be encoded. *)
Definition utf8_encode (s : str) : result bytes :=
  if existsb is_surrogate s then Raise UnicodeEncodeError else Ok (s ≫= utf8_encode_char).

Definition is_cont (b : N) : bool := in_range 128 191 b.

(** The permitted range of the second byte after the lead byte [b]. *)
Definition second_ok (b c : N) : bool :=
  if (b =? 224)%N then in_range 160 191 c
  else if (b =? 237)%N then in_range 128 159 c
  else if (b =? 240)%N then in_range 144 191 c
  else if (b =? 244)%N then in_range 128 143 c
  else is_cont c.

(** [b.decode("utf-8", "replace")]: every maximal ill-formed part becomes
    U+FFFD. *)
Fixpoint utf8_decode_replace (fuel : nat) (b : bytes) : str :=
  match fuel, b with
  | O, _ => []
  | _, [] => []
  | S f, b0 :: r =>
      if (b0 <? 128)%N then b0 :: utf8_decode_replace f r
      else if in_range 194 223 b0 then
        match r with
        | b1 :: r1 =>
            if is_cont b1 then ((b0 - 192) * 64 + (b1 - 128))%N :: utf8_decode_replace f r1
            else 65533%N :: utf8_decode_replace f r
        | [] => [65533%N]
        end
      else if in_range 224 239 b0 then
        match r with
        | b1 :: r1 =>
            if second_ok b0 b1 then
              match r1 with
              | b2 :: r2 =>
                  if is_cont b2 then
                    ((b0 - 224) * 4096 + (b1 - 128) * 64 + (b2 - 128))%N
                      :: utf8_decode_replace f r2
                  else 65533%N :: utf8_decode_replace f r1
              | [] => [65533%N]
              end
            else 65533%N :: utf8_decode_replace f r
        | [] => [65533%N]
        end
      else if in_range 240 244 b0 then
        match r with
        | b1 :: r1 =>
            if second_ok b0 b1 then
              match r1 with
              | b2 :: r2 =>
                  if is_cont b2 then
                    match r2 with
                    | b3 :: r3 =>
                        if is_cont b3 then
                          ((b0 - 240) * 262144 + (b1 - 128) * 4096 + (b2 - 128) * 64
                           + (b3 - 128))%N :: utf8_decode_replace f r3
                        else 65533%N :: utf8_decode_replace f r2
                    | [] => [65533%N]
                    end
                  else 65533%N :: utf8_decode_replace f r1
              | [] => [65533%N]
              end
            else 65533%N :: utf8_decode_replace f r
        | [] => [65533%N]
        end
      else 65533%N :: utf8_decode_replace f r
  end.
Definition utf8_decode (b : bytes) : str := utf8_decode_replace (length b) b.

(** ** Numerals *)
Definition hex_value (c : N) : N :=
  if is_digit c then (c - 48)%N else if in_range 65 70 c then (c - 55)%N else (c - 87)%N.
Definition hex_digit_upper (n : N) : N := if (n <? 10)%N then (48 + n)%N else (55 + n)%N.
Definition hex_digit_lower (n : N) : N := if (n <? 10)%N then (48 + n)%N else (87 + n)%N.

Definition digits_value (s : str) : N := foldl (fun acc c => (acc * 10 + (c - 48))%N) 0%N s.
Definition hexdigits_value (s : str) : N := foldl (fun acc c => (acc * 16 + hex_value c)%N) 0%N s.

Fixpoint uint_digits (u : Decimal.uint) : str :=
  match u with
  | Decimal.Nil => []
  | Decimal.D0 u => 48%N :: uint_digits u
  | Decimal.D1 u => 49%N :: uint_digits u
  | Decimal.D2 u => 50%N :: uint_digits u
  | Decimal.D3 u => 51%N :: uint_digits u
  | Decimal.D4 u => 52%N :: uint_digits u
  | Decimal.D5 u => 53%N :: uint_digits u
  | Decimal.D6 u => 54%N :: uint_digits u
  | Decimal.D7 u => 55%N :: uint_digits u
  | Decimal.D8 u => 56%N :: uint_digits u
  | Decimal.D9 u => 57%N :: uint_digits u
  end.

(** The decimal text of a natural number and of an integer ([str(n)]). *)
Definition N_to_str (n : N) : str := uint_digits (N.to_uint n).
Definition Z_to_str (z : Z) : str :=
  match z with
  | Zneg p => 45%N :: N_to_str (Npos p)
  | _ => N_to_str (Z.to_N z)
  end.

(** The text of [n] in base 16 on exactly [k] lower-case digits. *)
Fixpoint hex_fixed (k : nat) (n : N) : str :=
  match k with
  | O => []
  | S k' => hex_fixed k' (n / 16) ++ [hex_digit_lower (n mod 16)]
  end.

(** ** Percent encoding *)

(** [urllib.parse.unquote_to_bytes] on text without non-ASCII characters. *)
Fixpoint unquote_to_bytes (s : str) : bytes :=
  match s with
  | [] => []
  | c :: s' =>
      if (c =? 37)%N then
        match s' with
        | h :: l :: s'' =>
            if is_hex h && is_hex l then (hex_value h * 16 + hex_value l)%N :: unquote_to_bytes s''
            else 37%N :: unquote_to_bytes s'
        | _ => 37%N :: unquote_to_bytes s'
        end
      else c :: unquote_to_bytes s'
  end.

(** [urllib.parse.unquote]: the maximal ASCII runs are decoded, other
    characters are kept.  [run] accumulates the current ASCII run. *)
Fixpoint unquote_runs (s run : str) : str :=
  match s with
  | [] => utf8_decode (unquote_to_bytes run)
  | c :: s' =>
      if (c <? 128)%N then unquote_runs s' (run ++ [c])
      else utf8_decode (unquote_to_bytes run) ++ c :: unquote_runs s' []
  end.
Definition unquote (s : str) : str := if contains_char 37 s then unquote_runs s [] else s.

(** The characters [quote] never escapes. *)
Definition always_safe (c : N) : bool :=
  ascii_upper_letter c || ascii_lower_letter c || is_digit c
  || existsb (N.eqb c) [95; 46; 45; 126]%N.

Definition quote_byte (safe : str) (b : N) : str :=
  if always_safe b || (contains_char b safe && (b <? 128)%N) then [b]
  else [37%N; hex_digit_upper (b / 16); hex_digit_upper (b mod 16)].

(** [urllib.parse.quote(s, safe=...)] *)
Definition quote (safe s : str) : result str :=
  let! b := utf8_encode s in Ok (b ≫= quote_byte safe).

(** ** Facts *)
Lemma startswith_spec s p : startswith s p = true ↔ p `prefix_of` s.
Proof.
  revert s. induction p as [|c p IH]; intros s; simpl.
  - destruct s; split; intros; (done || apply prefix_nil).
  - destruct s as [|d s]; simpl; [split; [done|intros ?%prefix_nil_inv; done]|].
    rewrite andb_true_iff, N.eqb_eq, IH. split.
    + intros [-> ?]. by apply prefix_cons.
    + intros H. split; [by eapply prefix_cons_inv_1 | by eapply prefix_cons_inv_2].
Qed.

Lemma startswith_cons d s c p : startswith (d :: s) (c :: p) = (c =? d)%N && startswith s p.
Proof. done. Qed.

Lemma startswith_nil s : startswith s [] = true.
Proof. by destruct s. Qed.

Lemma startswith_app p t : startswith (p ++ t) p = true.
Proof. apply startswith_spec. by exists t. Qed.

Lemma startswith_drop s p : startswith s p = true -> s = p ++ drop (length p) s.
Proof. rewrite startswith_spec. intros [t ->]. by rewrite drop_app_length. Qed.

Lemma endswith_spec s p : endswith s p = true ↔ p `suffix_of` s.
Proof. unfold endswith. by rewrite startswith_spec, <-suffix_prefix_reverse. Qed.

Lemma contains_char_spec c s : contains_char c s = true ↔ c ∈ s.
Proof.
  unfold contains_char. rewrite existsb_exists. split.
  - intros (x & Hx & ->%N.eqb_eq). by apply list_elem_of_In.
  - intros H. exists c. rewrite N.eqb_refl. split; [by apply list_elem_of_In | done].
Qed.

Lemma contains_char_false c s : contains_char c s = false ↔ c ∉ s.
Proof. by rewrite <-contains_char_spec, not_true_iff_false. Qed.

Lemma partition_spec c s a f b :
  partition c s = (a, f, b) ->
  c ∉ a ∧ (if f then s = a ++ c :: b else s = a ∧ b = []).
Proof.
  revert a f b. induction s as [|d s IH]; intros a f b; simpl.
  - intros [= <- <- <-]. split; [set_solver | done].
  - destruct (N.eqb_spec d c) as [->|Hne].
    + intros [= <- <- <-]. split; [set_solver | done].
    + destruct (partition c s) as [[a' f'] b'] eqn:E. intros [= <- <- <-].
      destruct (IH _ _ _ eq_refl) as [Hni H]. split; [set_solver|].
      destruct f'; [by rewrite H | by destruct H as [-> ->]].
Qed.

Lemma partition_app c a b : c ∉ a -> partition c (a ++ c :: b) = (a, true, b).
Proof.
  induction a as [|d a IH]; intros H; simpl.
  - by rewrite N.eqb_refl.
  - rewrite (proj2 (N.eqb_neq d c)) by set_solver. rewrite IH by set_solver. done.
Qed.

Lemma partition_none c a : c ∉ a -> partition c a = (a, false, []).
Proof.
  induction a as [|d a IH]; intros H; simpl; [done|].
  rewrite (proj2 (N.eqb_neq d c)) by set_solver. rewrite IH by set_solver. done.
Qed.

Lemma split_on_nonempty c s : split_on c s ≠ [].
Proof. destruct s as [|d s]; simpl; [done|]. by repeat case_match. Qed.

Lemma split_on_app c a b : c ∉ a -> split_on c (a ++ c :: b) = a :: split_on c b.
Proof.
  induction a as [|d a IH]; intros H; simpl.
  - by rewrite N.eqb_refl.
  - rewrite (proj2 (N.eqb_neq d c)) by set_solver. rewrite IH by set_solver. done.
Qed.

Lemma split_on_none c a : c ∉ a -> split_on c a = [a].
Proof.
  induction a as [|d a IH]; intros H; simpl; [done|].
  rewrite (proj2 (N.eqb_neq d c)) by set_solver. rewrite IH by set_solver. done.
Qed.

Lemma join_split_on c s : join [c] (split_on c s) = s.
Proof.
  induction s as [|d s IH]; simpl; [done|].
  pose proof (split_on_nonempty c s). destruct (split_on c s) as [|w ws]; [done|].
  destruct (N.eqb_spec d c) as [->|]; simpl in *; [by rewrite IH|].
  destruct ws; simpl in *; by rewrite <-IH.
Qed.

Lemma split_on_join c l : l ≠ [] -> Forall (fun w => c ∉ w) l -> split_on c (join [c] l) = l.
Proof.
  induction l as [|w l IH]; [done|]. intros _ Hl. inversion Hl as [|?? Hw Hl']; subst.
  destruct l as [|w' l']; [by apply split_on_none|].
  change (join [c] (w :: w' :: l')) with (w ++ c :: join [c] (w' :: l')).
  rewrite split_on_app by done. f_equal. by apply IH.
Qed.

Lemma split_on_clean c s : Forall (fun w => c ∉ w) (split_on c s).
Proof.
  induction s as [|d s IH]; simpl; [repeat constructor; set_solver|].
  destruct (N.eqb_spec d c); [constructor; [set_solver|done]|].
  destruct (split_on c s) as [|w ws]; [constructor; [set_solver|done]|].
  inversion IH; subst. constructor; [set_solver|done].
Qed.

Lemma join_cons sep w l : l ≠ [] -> join sep (w :: l) = w ++ sep ++ join sep l.
Proof. by destruct l. Qed.

Lemma join_snoc sep l w : l ≠ [] -> join sep (l ++ [w]) = join sep l ++ sep ++ w.
Proof.
  induction l as [|v l IH]; [done|]. intros _. destruct l as [|v' l]; [done|].
  rewrite (join_cons sep v (v' :: l)) by done.
  rewrite <-app_comm_cons, join_cons by (intros [? _]%app_nil; done).
  rewrite IH by done. by rewrite !app_assoc.
Qed.

Lemma in_range_spec lo hi c : in_range lo hi c = true ↔ (lo <= c <= hi)%N.
Proof. unfold in_range. rewrite andb_true_iff, !N.leb_le. lia. Qed.

Lemma in_range_false lo hi c : in_range lo hi c = false ↔ ¬ (lo <= c <= hi)%N.
Proof. by rewrite <-in_range_spec, not_true_iff_false. Qed.

(** Decides a goal about characters by case analysis on their classes. *)
Ltac char_cases :=
  repeat match goal with
  | |- context [in_range ?a ?b ?c] =>
      let E := fresh "E" in destruct (in_range a b c) eqn:E;
      [apply in_range_spec in E | apply in_range_false in E]
  | |- context [(?a =? ?b)%N] =>
      let E := fresh "E" in destruct (N.eqb_spec a b) as [E|E]
  end; simpl in *; try lia; try done.

Lemma lower_char_idemp c : lower_char (lower_char c) = lower_char c.
Proof. unfold lower_char, ascii_upper_letter. char_cases. Qed.

Lemma str_lower_idemp s : str_lower (str_lower s) = str_lower s.
Proof.
  unfold str_lower. rewrite <-list_fmap_compose. apply list_fmap_ext.
  intros i c _. apply lower_char_idemp.
Qed.

Lemma ascii_lower_char_idemp c : ascii_lower_char (ascii_lower_char c) = ascii_lower_char c.
Proof. unfold ascii_lower_char, ascii_upper_letter. char_cases. Qed.

Lemma bytes_lower_idemp s : bytes_lower (bytes_lower s) = bytes_lower s.
Proof.
  unfold bytes_lower. rewrite <-list_fmap_compose. apply list_fmap_ext.
  intros i c _. apply ascii_lower_char_idemp.
Qed.

Lemma str_lower_app a b : str_lower (a ++ b) = str_lower a ++ str_lower b.
Proof. apply fmap_app. Qed.

Lemma encode_latin1_Ok s b : encode_latin1 s = Ok b -> b = s ∧ Forall (fun c => (c < 256)%N) s.
Proof.
  unfold encode_latin1. destruct (forallb _ s) eqn:E; [|done]. intros [= <-]. split; [done|].
  apply Forall_forall. intros c Hc. rewrite forallb_forall in E.
  apply N.ltb_lt, E, list_elem_of_In, Hc.
Qed.

Lemma encode_latin1_intro s : Forall (fun c => (c < 256)%N) s -> encode_latin1 s = Ok s.
Proof.
  intros H. unfold encode_latin1. rewrite (proj2 (forallb_forall _ s)); [done|].
  intros c Hc. apply N.ltb_lt. rewrite Forall_forall in H. by apply H, list_elem_of_In.
Qed.

(** *** Numerals *)
Lemma foldl_digits_acc (f : N -> N) b s acc :
  foldl (fun acc c => (acc * b + f c)%N) acc s
  = (acc * b ^ N.of_nat (length s) + foldl (fun acc c => (acc * b + f c)%N) 0%N s)%N.
Proof.
  revert acc. induction s as [|c s IH]; intros acc; cbn [foldl length].
  - simpl. lia.
  - rewrite IH. rewrite (IH (0 * b + f c)%N).
    rewrite Nat2N.inj_succ, N.pow_succ_r'. lia.
Qed.

Lemma foldl_digits_snoc (f : N -> N) b s c :
  foldl (fun acc c => (acc * b + f c)%N) 0%N (s ++ [c])
  = (foldl (fun acc c => (acc * b + f c)%N) 0%N s * b + f c)%N.
Proof. by rewrite foldl_app. Qed.

Lemma uint_digits_are_digits u : Forall (fun c => is_digit c = true) (uint_digits u).
Proof. induction u; simpl; constructor; done. Qed.

Lemma of_uint_acc_digits u acc :
  Npos (Pos.of_uint_acc u acc)
  = foldl (fun acc c => (acc * 10 + (c - 48))%N) (Npos acc) (uint_digits u).
Proof.
  revert acc. induction u; intros acc; simpl uint_digits; simpl foldl; simpl Pos.of_uint_acc;
    try done; rewrite IHu; f_equal; lia.
Qed.

Lemma digits_value_uint u : digits_value (uint_digits u) = N.of_uint u.
Proof.
  unfold digits_value, N.of_uint.
  induction u; simpl uint_digits; simpl foldl; simpl Pos.of_uint; try done;
    rewrite of_uint_acc_digits; done.
Qed.

Lemma digits_value_N_to_str n : digits_value (N_to_str n) = n.
Proof. unfold N_to_str. rewrite digits_value_uint. apply DecimalN.Unsigned.of_to. Qed.

Lemma N_to_str_digits n : Forall (fun c => is_digit c = true) (N_to_str n).
Proof. apply uint_digits_are_digits. Qed.

Lemma N_to_str_nonempty n : N_to_str n ≠ [].
Proof.
  intros H. pose proof (digits_value_N_to_str n) as Hv. rewrite H in Hv. simpl in Hv.
  subst n. by vm_compute in H.
Qed.

Lemma N_to_str_inj n m : N_to_str n = N_to_str m -> n = m.
Proof. intros H. by rewrite <-(digits_value_N_to_str n), H, digits_value_N_to_str. Qed.

Lemma hex_fixed_length k n : length (hex_fixed k n) = k.
Proof.
  revert n. induction k as [|k IH]; intros n; simpl; [done|]. rewrite length_app, IH. simpl. lia.
Qed.

Lemma hex_value_digit_lower n : (n < 16)%N -> hex_value (hex_digit_lower n) = n.
Proof.
  intros. unfold hex_value, hex_digit_lower, is_digit.
  destruct (N.ltb_spec n 10); char_cases.
Qed.

Lemma is_hex_digit_lower n : (n < 16)%N -> is_hex (hex_digit_lower n) = true.
Proof.
  intros. unfold is_hex, hex_digit_lower, is_digit.
  destruct (N.ltb_spec n 10); char_cases.
Qed.

Lemma hex_fixed_hex k n : Forall (fun c => is_hex c = true) (hex_fixed k n).
Proof.
  revert n. induction k as [|k IH]; intros n; simpl; [constructor|].
  apply Forall_app_2; [apply IH|]. repeat constructor. apply is_hex_digit_lower.
  apply N.mod_lt. lia.
Qed.

Lemma hexdigits_value_fixed k n : (n < 16 ^ N.of_nat k)%N -> hexdigits_value (hex_fixed k n) = n.
Proof.
  unfold hexdigits_value. revert n. induction k as [|k IH]; intros n Hn; simpl hex_fixed.
  - simpl in *. lia.
  - rewrite foldl_digits_snoc, IH.
    + rewrite hex_value_digit_lower by (apply N.mod_lt; lia).
      pose proof (N.div_mod n 16). lia.
    + apply N.Div0.div_lt_upper_bound.
      rewrite <-N.pow_succ_r'. by rewrite <-Nat2N.inj_succ.
Qed.

Lemma bytes_lower_str_lower s : bytes_lower (str_lower s) = str_lower s.
Proof.
  unfold bytes_lower, str_lower. rewrite <-list_fmap_compose. apply list_fmap_ext.
  intros i c _. unfold compose, ascii_lower_char, lower_char, ascii_upper_letter. char_cases.
Qed.

(** [b.decode("utf-8")]: well-formed input is what encodes back to itself. *)
Definition utf8_decode_strict (b : bytes) : result str :=
  let s := utf8_decode b in
  if bool_decide (utf8_encode s = Ok b) then Ok s else Raise UnicodeDecodeError.

Lemma Z_to_str_of_N n : Z_to_str (Z.of_N n) = N_to_str n.
Proof. by destruct n. Qed.

(** ** [int(s)] of a text: surrounding whitespace, a sign, and decimal digits
    in which single underscores may separate groups; more than 4300 digits are
    refused.  Digits outside ASCII are not modelled. *)
Definition max_str_digits : nat := 4300.

Definition int_error (s : str) : exn :=
  ValueError ($"invalid literal for int() with base 10: '" ++ s ++ $"'").
Definition int_limit_error : exn :=
  ValueError $"Exceeds the limit (4300 digits) for integer string conversion".

Definition int_sign (t : str) : bool * str :=
  match t with
  | 45%N :: u => (true, u)
  | 43%N :: u => (false, u)
  | _ => (false, t)
  end.

Definition py_int (s : str) : result Z :=
  let '(neg, u) := int_sign (strip s) in
  let groups := split_on 95 u in
  if forallb (fun g => bool_decide (g ≠ []) && forallb is_digit g) groups then
    let ds := concat groups in
    if (max_str_digits <? length ds)%nat then Raise int_limit_error
    else let v := Z.of_N (digits_value ds) in Ok (if neg then - v else v)
  else Raise (int_error s).

(** [str(z)] with the same limit. *)
Definition py_str_int (z : Z) : result str :=
  if (max_str_digits <? length (N_to_str (Z.abs_N z)))%nat then Raise int_limit_error
  else Ok (Z_to_str z).

(** A text that neither starts nor ends with a space is its own [strip]. *)
Lemma lstrip_by_none (p : N -> bool) s :
  Forall (fun c => p c = false) s -> lstrip_by p s = s.
Proof. intros [|c s' H _]; [done|]. simpl. by rewrite H. Qed.

Lemma rstrip_by_none (p : N -> bool) s :
  Forall (fun c => p c = false) s -> rstrip_by p s = s.
Proof.
  intros H. unfold rstrip_by. rewrite lstrip_by_none; [apply reverse_involutive|].
  by apply Forall_reverse.
Qed.

Lemma digit_not_space c : is_digit c = true -> is_space c = false.
Proof. unfold is_digit, is_space. intros H%in_range_spec. char_cases. Qed.

Lemma py_int_digits s :
  s ≠ [] -> Forall (fun c => is_digit c = true) s -> (length s <= max_str_digits)%nat ->
  py_int s = Ok (Z.of_N (digits_value s)).
Proof.
  intros Hne Hd Hl. unfold py_int, strip.
  assert (Hs : Forall (fun c => is_space c = false) s).
  { eapply Forall_impl; [done|]. apply digit_not_space. }
  rewrite lstrip_by_none, rstrip_by_none by done.
  assert (int_sign s = (false, s)) as ->.
  { destruct s as [|c s]; [done|]. apply Forall_cons in Hd as [Hc%in_range_spec _].
    unfold int_sign. destruct c as [|p]; [done|].
    do 6 (destruct p as [p|p|]; try done); simpl in Hc; lia. }
  rewrite split_on_none.
  2: { intros Hin. rewrite Forall_forall in Hd. by apply Hd in Hin. }
  cbn [forallb concat]. rewrite bool_decide_true by done.
  rewrite (proj2 (forallb_Forall is_digit s)) by done.
  cbn [andb]. rewrite app_nil_r. destruct (Nat.ltb_spec max_str_digits (length s)); [lia|done].
Qed.

(** ** [replace] without its fuel *)
Lemma replace_fuel_enough old new f1 f2 s :
  old ≠ [] -> (length s < f1)%nat -> (length s < f2)%nat ->
  replace_fuel f1 old new s = replace_fuel f2 old new s.
Proof.
  intros Hold. revert f2 s. induction f1 as [|f1 IH]; intros [|f2] s H1 H2; try lia. cbn [replace_fuel].
  destruct s as [|c s]; [done|]. cbn [length] in *. destruct (startswith (c :: s) old) eqn:E.
  - f_equal. destruct old as [|o old]; [done|]. cbn [length drop]. apply IH; rewrite length_drop; lia.
  - f_equal. apply IH; lia.
Qed.

Lemma replace_cons old new c s :
  old ≠ [] ->
  replace old new (c :: s) =
    if startswith (c :: s) old then new ++ replace old new (drop (length old) (c :: s))
    else c :: replace old new s.
Proof.
  intros Hold. unfold replace. cbn [length]. set (f := S (length s)) in |- * at 2.
  change (replace_fuel (S (S (length s))) old new (c :: s)) with
    (if startswith (c :: s) old then new ++ replace_fuel f old new (drop (length old) (c :: s))
     else c :: replace_fuel f old new s).
  destruct (startswith (c :: s) old); [|done]. f_equal. apply replace_fuel_enough; [done| |lia].
  destruct old as [|o old]; [done|]. cbn [length drop]. rewrite length_drop. subst f. lia.
Qed.

Lemma startswith_head_ne c s o old : c ≠ o -> startswith (c :: s) (o :: old) = false.
Proof. intros H. simpl. by rewrite (proj2 (N.eqb_neq _ _)) by done. Qed.

(** Text without the first character of the pattern is copied. *)
Lemma replace_app_absent o old new a s :
  o ∉ a -> replace (o :: old) new (a ++ s) = a ++ replace (o :: old) new s.
Proof.
  intros Ha. induction a as [|c a IH]; [done|]. cbn [app].
  rewrite replace_cons, startswith_head_ne by set_solver. f_equal. apply IH. set_solver.
Qed.

Lemma replace_absent o old new s : o ∉ s -> replace (o :: old) new s = s.
Proof. intros H. rewrite <-(app_nil_r s) at 1. rewrite replace_app_absent by done. apply app_nil_r. Qed.

Lemma replace_app_found old new s :
  old ≠ [] -> replace old new (old ++ s) = new ++ replace old new s.
Proof.
  intros Hold. destruct old as [|o old]; [done|]. cbn [app].
  rewrite replace_cons by done. change (o :: old ++ s) with ((o :: old) ++ s).
  by rewrite startswith_app, drop_app_length.
Qed.

(** Deleting a character. *)
Lemma replace_delete c s : replace [c] [] s = filter (fun x => x ≠ c) s.
Proof.
  induction s as [|x s IH]; [done|]. rewrite replace_cons, filter_cons by done.
  destruct (decide (x = c)) as [->|Hx].
  - change (c :: s) with ([c] ++ s). rewrite startswith_app. simpl.
    rewrite drop_0, decide_False by naive_solver. exact IH.
  - rewrite startswith_head_ne, decide_True by done. by rewrite IH.
Qed.
