(* ===== verification/Asgi.v ===== *)
(** * Asgi: the vocabulary shared by the components

    The ASGI connection scope, the events an application sends and receives,
    and what running an application produces. *)

From S2P Require Import Prelude.

(** Raw headers are the (name, value) byte pairs of the ASGI specification. *)
Abbreviation raw_headers := (list (bytes * bytes)).

(** Binary64 values; [Finite neg mant expo] is [(-1)^neg * mant * 2 ^ expo]
    with a mantissa below [2 ^ 53] that is at least [2 ^ 52] unless the exponent
    is the least one, [-1074]. *)
Inductive float64 : Type :=
  | Finite (neg : bool) (mant : N) (expo : Z)
  | Infinite (neg : bool)
  | NaN.

#[global] Instance float64_eq_dec : EqDecision float64.
Proof. solve_decision. Defined.

(** Values of path parameters. *)
Inductive pval : Type :=
  | PStr (s : str)
  | PInt (z : Z)
  | PFloat (f : float64)
  | PUuid (u : N).

#[global] Instance pval_eq_dec : EqDecision pval.
Proof. solve_decision. Defined.

Inductive scope_type : Type := Http | Websocket | Lifespan.

#[global] Instance scope_type_eq_dec : EqDecision scope_type.
Proof. solve_decision. Defined.

(** The scope dictionary: [path] is always present for the connection types
    that are routed, the other keys may be absent ([None]).  [sc_app] and
    [sc_router] record whether the keys ["app"] and ["router"] are present. *)
Record Scope : Type := mkScope {
  sc_type : scope_type;
  sc_path : str;
  sc_root_path : option str;
  sc_app_root_path : option str;
  sc_method : option str;
  sc_scheme : option str;
  sc_server : option (str * Z);
  sc_client : option (str * Z);
  sc_query_string : option bytes;
  sc_headers : option raw_headers;
  sc_path_params : option (list (str * pval));
  sc_endpoint : option Z;
  sc_app : bool;
  sc_router : bool
}.

Definition get_or {A} (o : option A) (d : A) : A := match o with Some a => a | None => d end.

(** The entries a routing step adds to the scope ([scope.update(child)]). *)
Record ChildScope : Type := mkChild {
  ch_endpoint : option Z;
  ch_path_params : option (list (str * pval));
  ch_app_root_path : option str;
  ch_root_path : option str
}.

Definition empty_child : ChildScope := mkChild None None None None.

Definition override {A} (new old : option A) : option A :=
  match new with Some a => Some a | None => old end.

Definition scope_update (sc : Scope) (c : ChildScope) : Scope :=
  mkScope (sc_type sc) (sc_path sc) (override (ch_root_path c) (sc_root_path sc))
    (override (ch_app_root_path c) (sc_app_root_path sc)) (sc_method sc) (sc_scheme sc)
    (sc_server sc) (sc_client sc) (sc_query_string sc) (sc_headers sc)
    (override (ch_path_params c) (sc_path_params sc))
    (override (ch_endpoint c) (sc_endpoint sc)) (sc_app sc) (sc_router sc).

Definition scope_with_path (sc : Scope) (p : str) : Scope :=
  mkScope (sc_type sc) p (sc_root_path sc) (sc_app_root_path sc) (sc_method sc) (sc_scheme sc)
    (sc_server sc) (sc_client sc) (sc_query_string sc) (sc_headers sc) (sc_path_params sc)
    (sc_endpoint sc) (sc_app sc) (sc_router sc).

Definition scope_with_router (sc : Scope) : Scope :=
  mkScope (sc_type sc) (sc_path sc) (sc_root_path sc) (sc_app_root_path sc) (sc_method sc)
    (sc_scheme sc) (sc_server sc) (sc_client sc) (sc_query_string sc) (sc_headers sc)
    (sc_path_params sc) (sc_endpoint sc) (sc_app sc) true.

(** Events sent by an application; an absent ["more_body"] is [false], the
    default of the ASGI specification. *)
Inductive message : Type :=
  | ResponseStart (status : Z) (headers : raw_headers)
  | ResponseBody (body : bytes) (more_body : bool)
  | WsAccept (subprotocol : option str) (headers : option raw_headers)
  | WsSendText (text : str)
  | WsSendBytes (data : bytes)
  | WsClose (code : Z) (reason : option str)
  | StartupComplete
  | StartupFailed (msg : str)
  | ShutdownComplete
  | ShutdownFailed (msg : str).

#[global] Instance message_eq_dec : EqDecision message.
Proof. solve_decision. Defined.

(** Events received; an absent key is [None]. *)
Inductive event : Type :=
  | HttpRequest (body : option bytes) (more_body : option bool)
  | HttpDisconnect
  | WsConnect
  | WsReceive (text : option str) (data : option bytes)
  | WsDisconnect (code : option Z) (reason : option str)
  | LifespanStartup
  | LifespanShutdown.

#[global] Instance event_eq_dec : EqDecision event.
Proof. solve_decision. Defined.

(** What a call of an ASGI application did: the events it sent, in order,
    and how it ended. *)
Record run : Type := mkRun { sent : list message; ended : result unit }.

#[global] Instance run_eq_dec : EqDecision run.
Proof. solve_decision. Defined.

Definition run_ok (ms : list message) : run := mkRun ms (Ok tt).
Definition run_raise (ms : list message) (e : exn) : run := mkRun ms (Raise e).

(** [a; b]: [b] runs only if [a] did not raise. *)
Definition run_seq (a b : run) : run :=
  match ended a with
  | Ok _ => mkRun (sent a ++ sent b) (ended b)
  | Raise _ => a
  end.

Definition asgi_app : Type := Scope -> run.

(** ** The shape of a complete HTTP response *)
Fixpoint body_complete (ms : list message) : bool :=
  match ms with
  | [ResponseBody _ false] => true
  | ResponseBody _ true :: ms' => body_complete ms'
  | _ => false
  end.

(** One start event, body events that announce more, and a last one that does
    not: what the ASGI specification asks of an HTTP response. *)
Definition response_complete (ms : list message) : bool :=
  match ms with
  | ResponseStart _ _ :: ms' => body_complete ms'
  | _ => false
  end.

Fixpoint body_bytes (ms : list message) : bytes :=
  match ms with
  | [] => []
  | ResponseBody b _ :: ms' => b ++ body_bytes ms'
  | _ :: ms' => body_bytes ms'
  end.

Lemma body_bytes_app ms ms' : body_bytes (ms ++ ms') = body_bytes ms ++ body_bytes ms'.
Proof. induction ms as [|[] ms IH]; simpl; try done. by rewrite IH, app_assoc. Qed.

Lemma body_complete_chunks bs ms :
  body_complete ms = true ->
  body_complete (((fun b => ResponseBody b true) <$> bs) ++ ms) = true.
Proof. intros H. induction bs as [|b bs IH]; [done|]. exact IH. Qed.

Lemma body_bytes_chunks bs : body_bytes ((fun b => ResponseBody b true) <$> bs) = concat bs.
Proof. induction bs as [|b bs IH]; csimpl; [done|]. by rewrite IH. Qed.

Lemma run_seq_ok ms r : run_seq (run_ok ms) r = mkRun (ms ++ sent r) (ended r).
Proof. done. Qed.
