(* ===== verification/DataStructures.v ===== *)
(** * DataStructures: [_datastructures_impl.py] and the containers of [_request.py]

    The attribute container [State], the lazily parsed [Headers] and
    [QueryParams] of both modules, [FormData] and [UploadFile].  Each lazily
    parsed object keeps its raw input and its cache; [_ensure_parsed] fills
    the cache and every accessor reads it. *)

From S2P Require Import Prelude PyStr Asgi.

(** ** State *)
Module PyState.
Section state.
Context {V : Type}.

(** The only attribute is the dictionary [_state]. *)
Record State : Type := mkState { _state : list (str * V) }.

Definition init (state : option (list (str * V))) : State := mkState (get_or state []).
Definition setattr (st : State) (name : str) (value : V) : State :=
  mkState (dict_set (_state st) name value).

Definition no_attribute (name : str) : exn :=
  AttributeError ($"'State' object has no attribute '" ++ name ++ $"'").

Definition getattr (st : State) (name : str) : result V :=
  match dict_get (_state st) name with
  | Some v => Ok v
  | None => Raise (no_attribute name)
  end.

Definition delattr (st : State) (name : str) : result State :=
  if dict_mem (_state st) name then Ok (mkState (dict_del (_state st) name))
  else Raise (no_attribute name).

Definition contains (st : State) (key : str) : bool := dict_mem (_state st) key.
Definition copy (st : State) : State := mkState (_state st).
End state.
Arguments State V : clear implicits.
End PyState.

(** ** Address *)
Module PyAddress.
Record Address : Type := mkAddress { host : str; port : Z }.

Inductive item : Type := Host (h : str) | Port (p : Z).

Definition iter (a : Address) : list item := [Host (host a); Port (port a)].

(** [(self.host, self.port)[index]] with Python's negative indices. *)
Definition getitem (a : Address) (index : Z) : result item :=
  if bool_decide (index = 0 ∨ index = -2) then Ok (Host (host a))
  else if bool_decide (index = 1 ∨ index = -1) then Ok (Port (port a))
  else Raise IndexError.

Definition eqb (a b : Address) : bool :=
  bool_decide (host a = host b) && bool_decide (port a = port b).
End PyAddress.

(** ** Headers of [_datastructures_impl.py]: the first value wins *)
Module DsHeaders.
Record Headers : Type := mkHeaders {
  _raw : raw_headers;
  _dict : option (list (str * str));
  _list : list (str * str)
}.

(** The three ways of building the object, in the order they are tried. *)
Definition init (raw : option raw_headers) (scope : option Scope)
    (headers : option (list (str * str))) : result Headers :=
  match raw, scope, headers with
  | Some r, _, _ => Ok (mkHeaders r None [])
  | None, Some sc, _ => Ok (mkHeaders (get_or (sc_headers sc) []) None [])
  | None, None, Some hs =>
      let! r := rmapM (fun '(k, v) =>
                  let! kb := encode_latin1 (str_lower k) in
                  let! vb := encode_latin1 v in Ok (kb, vb)) hs in
      Ok (mkHeaders r None [])
  | None, None, None => Ok (mkHeaders [] None [])
  end.

Definition parse_step (acc : list (str * str) * list (str * str)) (h : bytes * bytes)
    : list (str * str) * list (str * str) :=
  let name := str_lower (decode_latin1 h.1) in
  let value := decode_latin1 h.2 in
  (dict_setdefault acc.1 name value, acc.2 ++ [(name, value)]).

Definition _ensure_parsed (h : Headers) : Headers :=
  match _dict h with
  | Some _ => h
  | None =>
      let '(d, items) := foldl parse_step ([], []) (_raw h) in
      mkHeaders (_raw h) (Some d) items
  end.

(** The cached dictionary after [_ensure_parsed]. *)
Definition the_dict (h : Headers) : list (str * str) := get_or (_dict (_ensure_parsed h)) [].
Definition the_list (h : Headers) : list (str * str) := _list (_ensure_parsed h).

Definition get (h : Headers) (key : str) (default : option str) : option str :=
  match dict_get (the_dict h) (str_lower key) with Some v => Some v | None => default end.

Definition getlist (h : Headers) (key : str) : list str :=
  let key_lower := str_lower key in
  (filter (fun kv => kv.1 = key_lower) (the_list h)).*2.

Definition keys (h : Headers) : list str := dict_keys (the_dict h).
Definition values (h : Headers) : list str := dict_values (the_dict h).
Definition items (h : Headers) : list (str * str) := the_dict h.
Definition multi_items (h : Headers) : list (str * str) := the_list h.

Definition getitem (h : Headers) (key : str) : result str :=
  match dict_get (the_dict h) (str_lower key) with
  | Some v => Ok v
  | None => Raise (KeyError key)
  end.

Definition contains (h : Headers) (key : str) : bool := dict_mem (the_dict h) (str_lower key).
Definition len (h : Headers) : nat := length (the_dict h).
End DsHeaders.

(** ** Headers of [_request.py]: repeated values are joined *)
Module ReqHeaders.
Record Headers : Type := mkHeaders {
  _raw : raw_headers;
  _dict : option (list (str * str));
  _list : list (str * str)
}.

Definition init (raw : option raw_headers) (scope : option Scope) : Headers :=
  match raw, scope with
  | Some r, _ => mkHeaders r None []
  | None, Some sc => mkHeaders (get_or (sc_headers sc) []) None []
  | None, None => mkHeaders [] None []
  end.

Definition parse_step (acc : list (str * str) * list (str * str)) (h : bytes * bytes)
    : list (str * str) * list (str * str) :=
  let name := str_lower (decode_latin1 h.1) in
  let value := decode_latin1 h.2 in
  let d :=
    match dict_get acc.1 name with
    | Some old => dict_set acc.1 name (old ++ $", " ++ value)
    | None => dict_set acc.1 name value
    end in
  (d, acc.2 ++ [(name, value)]).

Definition _ensure_parsed (h : Headers) : Headers :=
  match _dict h with
  | None =>
      let '(d, items) := foldl parse_step ([], []) (_raw h) in
      mkHeaders (_raw h) (Some d) items
  | Some _ => h
  end.

Definition the_dict (h : Headers) : list (str * str) := get_or (_dict (_ensure_parsed h)) [].
Definition the_list (h : Headers) : list (str * str) := _list (_ensure_parsed h).

Definition get (h : Headers) (key : str) (default : option str) : option str :=
  match dict_get (the_dict h) (str_lower key) with Some v => Some v | None => default end.

Definition getlist (h : Headers) (key : str) : list str :=
  let key_lower := str_lower key in
  (filter (fun kv => kv.1 = key_lower) (the_list h)).*2.

Definition keys (h : Headers) : list str := dict_keys (the_dict h).
Definition values (h : Headers) : list str := dict_values (the_dict h).
Definition items (h : Headers) : list (str * str) := the_dict h.

Definition getitem (h : Headers) (key : str) : result str :=
  match dict_get (the_dict h) (str_lower key) with
  | Some v => Ok v
  | None => Raise (KeyError (str_lower key))
  end.

Definition contains (h : Headers) (key : str) : bool := dict_mem (the_dict h) (str_lower key).
Definition len (h : Headers) : nat := length (the_dict h).
End ReqHeaders.

(** ** Query strings *)

(** One ["&"]-separated part: [None] when it is empty and skipped. *)
Definition qs_part (part : str) : option (str * str) :=
  match part with
  | [] => None
  | _ =>
      let '(k, v) :=
        if contains_char 61 part then
          let '(k, _, v) := partition 61 part in (k, v)
        else (part, []) in
      Some (unquote (replace_char 43 32 k), unquote (replace_char 43 32 v))
  end.

(** [multi.setdefault(k, []).append(v)] *)
Definition multi_append (m : list (str * list str)) (k v : str) : list (str * list str) :=
  dict_set m k (dict_getdefault m k [] ++ [v]).

Definition qs_step (m : list (str * list str)) (part : str) : list (str * list str) :=
  match qs_part part with
  | None => m
  | Some (k, v) => multi_append m k v
  end.

Definition _parse_qs_python (qs : str) : list (str * list str) :=
  match qs with
  | [] => []
  | _ => foldl qs_step [] (split_on 38 qs)
  end.

(** [{k: v[-1] for k, v in multi.items() if v}] *)
Definition last_values (m : list (str * list str)) : list (str * str) :=
  foldl (fun d '(k, vs) => match last vs with Some v => dict_set d k v | None => d end) [] m.

(** [multi_items]: the two nested loops. *)
Definition flatten_multi (m : list (str * list str)) : list (str * str) :=
  m ≫= fun '(k, vs) => (fun v => (k, v)) <$> vs.

Module DsQueryParams.
Record QueryParams : Type := mkQP {
  _raw : str;
  _dict : option (list (str * str));
  _multi : list (str * list str)
}.

Definition init (query_string : str) : QueryParams := mkQP query_string None [].

Definition _ensure_parsed (q : QueryParams) : QueryParams :=
  match _dict q with
  | Some _ => q
  | None =>
      let multi :=
        match _raw q with
        | [] => []
        | raw => foldl qs_step [] (split_on 38 raw)
        end in
      mkQP (_raw q) (Some (last_values multi)) multi
  end.

Definition the_dict (q : QueryParams) : list (str * str) := get_or (_dict (_ensure_parsed q)) [].
Definition the_multi (q : QueryParams) : list (str * list str) := _multi (_ensure_parsed q).

Definition get (q : QueryParams) (key : str) (default : option str) : option str :=
  match dict_get (the_dict q) key with Some v => Some v | None => default end.
Definition getlist (q : QueryParams) (key : str) : list str := dict_getdefault (the_multi q) key [].
Definition multi_items (q : QueryParams) : list (str * str) := flatten_multi (the_multi q).
Definition keys (q : QueryParams) : list str := dict_keys (the_dict q).
Definition values (q : QueryParams) : list str := dict_values (the_dict q).
Definition items (q : QueryParams) : list (str * str) := the_dict q.
Definition getitem (q : QueryParams) (key : str) : result str :=
  match dict_get (the_dict q) key with Some v => Ok v | None => Raise (KeyError key) end.
Definition contains (q : QueryParams) (key : str) : bool := dict_mem (the_dict q) key.
Definition len (q : QueryParams) : nat := length (the_dict q).
Definition to_bool (q : QueryParams) : bool := bool_decide (the_dict q ≠ []).
End DsQueryParams.

(** [QueryParams] of [_request.py]: a non-empty query string goes through the
    compiled parser [core_parse_qs] when the extension module is loaded. *)
Module ReqQueryParams.
Record QueryParams : Type := mkQP {
  _raw : str;
  _dict : option (list (str * str));
  _multi : list (str * list str)
}.

Definition init (raw : option str) (scope : option Scope) : QueryParams :=
  match raw, scope with
  | Some r, _ => mkQP r None []
  | None, Some sc => mkQP (decode_latin1 (get_or (sc_query_string sc) [])) None []
  | None, None => mkQP [] None []
  end.

Section parse.
Context (core_parse_qs : option (str -> list (str * list str))).

Definition _ensure_parsed (q : QueryParams) : QueryParams :=
  match _dict q with
  | Some _ => q
  | None =>
      let multi :=
        match core_parse_qs, _raw q with
        | Some parse, _ :: _ => parse (_raw q)
        | _, _ => _parse_qs_python (_raw q)
        end in
      mkQP (_raw q) (Some (last_values multi)) multi
  end.

Definition the_dict (q : QueryParams) : list (str * str) := get_or (_dict (_ensure_parsed q)) [].
Definition the_multi (q : QueryParams) : list (str * list str) := _multi (_ensure_parsed q).

Definition get (q : QueryParams) (key : str) (default : option str) : option str :=
  match dict_get (the_dict q) key with Some v => Some v | None => default end.
Definition getlist (q : QueryParams) (key : str) : list str := dict_getdefault (the_multi q) key [].
Definition multi_items (q : QueryParams) : list (str * str) := flatten_multi (the_multi q).
Definition keys (q : QueryParams) : list str := dict_keys (the_dict q).
Definition getitem (q : QueryParams) (key : str) : result str :=
  match dict_get (the_dict q) key with Some v => Ok v | None => Raise (KeyError key) end.
Definition contains (q : QueryParams) (key : str) : bool := dict_mem (the_dict q) key.
Definition len (q : QueryParams) : nat := length (the_dict q).
End parse.
End ReqQueryParams.

(** ** UploadFile

    The file object is in-memory: contents, position and whether it has been
    closed, with the behaviour of [io.BytesIO]. *)
Module Upload.
Record file : Type := mkFile { data : bytes; pos : nat; closed : bool }.

Record UploadFile : Type := mkUpload {
  filename : option str;
  content_type : str;
  size : option Z;
  the_file : file
}.

Definition closed_error : exn := ValueError $"I/O operation on closed file.".

(** [UploadFile(...)]: without a file object an empty one is created. *)
Definition init (fn : option str) (f : option file) (ct : str) (sz : option Z) : UploadFile :=
  mkUpload fn ct sz (get_or f (mkFile [] 0 false)).

Definition with_file (u : UploadFile) (f : file) : UploadFile :=
  mkUpload (filename u) (content_type u) (size u) f.

(** [read(size)]: a negative size reads to the end. *)
Definition read (u : UploadFile) (n : Z) : result (bytes * UploadFile) :=
  let f := the_file u in
  if closed f then Raise closed_error
  else
    let rest := drop (pos f) (data f) in
    let chunk := if n <? 0 then rest else take (Z.to_nat n) rest in
    Ok (chunk, with_file u (mkFile (data f) (pos f + length chunk)%nat false)).

(** Overwriting at the position, padding a gap with zero bytes. *)
Definition splice (d : bytes) (p : nat) (b : bytes) : bytes :=
  match b with
  | [] => d
  | _ => take p d ++ replicate (p - length d) 0%N ++ b ++ drop (p + length b) d
  end.

(** [write]: the recorded size grows by the length of the data, then the file
    is written. *)
Definition write (u : UploadFile) (b : bytes) : UploadFile * result unit :=
  let sz := match size u with Some n => Some (n + Z.of_nat (length b)) | None => None end in
  let f := the_file u in
  if closed f then (mkUpload (filename u) (content_type u) sz f, Raise closed_error)
  else (mkUpload (filename u) (content_type u) sz
          (mkFile (splice (data f) (pos f) b) (pos f + length b)%nat false), Ok tt).

Definition seek (u : UploadFile) (offset : Z) : result UploadFile :=
  let f := the_file u in
  if closed f then Raise closed_error
  else if offset <? 0 then Raise (ValueError ($"negative seek value " ++ Z_to_str offset))
  else Ok (with_file u (mkFile (data f) (Z.to_nat offset) false)).

Definition close (u : UploadFile) : UploadFile :=
  with_file u (mkFile (data (the_file u)) (pos (the_file u)) true).
End Upload.

(** ** FormData

    The uploaded files a form refers to live in a store, since the same
    object may be held by the form and by the endpoint. *)
Module Form.
Inductive fvalue : Type := FText (s : str) | FBytes (b : bytes) | FFile (id : nat).

#[global] Instance fvalue_eq_dec : EqDecision fvalue.
Proof. solve_decision. Defined.

Abbreviation store := (gmap nat Upload.UploadFile).

Record FormData : Type := mkForm {
  _list : list (str * fvalue);
  _dict : list (str * fvalue)
}.

(** [FormData(data, **kwargs)], the positional argument read as pairs. *)
Definition init (data kwargs : list (str * fvalue)) : FormData :=
  let items := data ++ kwargs in
  mkForm items (foldl (fun d '(k, v) => dict_setdefault d k v) [] items).

Definition get (f : FormData) (key : str) : option fvalue := dict_get (_dict f) key.
Definition getlist (f : FormData) (key : str) : list fvalue :=
  (filter (fun kv => kv.1 = key) (_list f)).*2.
Definition multi_items (f : FormData) : list (str * fvalue) := _list f.
Definition keys (f : FormData) : list str := dict_keys (_dict f).
Definition values (f : FormData) : list fvalue := dict_values (_dict f).
Definition getitem (f : FormData) (key : str) : result fvalue :=
  match dict_get (_dict f) key with Some v => Ok v | None => Raise (KeyError key) end.
Definition contains (f : FormData) (key : str) : bool := dict_mem (_dict f) key.
Definition len (f : FormData) : nat := length (_dict f).
Definition to_bool (f : FormData) : bool := bool_decide (_list f ≠ []).

(** [close]: every uploaded file of the form is closed, in order. *)
Definition close_step (s : store) (kv : str * fvalue) : store :=
  match kv.2 with FFile i => alter Upload.close i s | _ => s end.
Definition close (f : FormData) (s : store) : store := foldl close_step s (_list f).
End Form.

(** ** Properties of the header containers *)

(** The headers as the parsers see them: lower-cased name, value. *)
Definition norm_header (h : bytes * bytes) : str * str :=
  (str_lower (decode_latin1 h.1), decode_latin1 h.2).

(** The reference reading of a header list: all values sent under a name,
    in the order they were sent. *)
Definition header_values (raw : raw_headers) (key : str) : list str :=
  (filter (fun kv => kv.1 = str_lower key) (norm_header <$> raw)).*2.

Module DsHeadersFacts.
Import DsHeaders.

Lemma parse_fold d l raw :
  foldl parse_step (d, l) raw
  = (foldl (fun d '(k, v) => dict_setdefault d k v) d (norm_header <$> raw),
     l ++ (norm_header <$> raw)).
Proof.
  revert d l. induction raw as [|h raw IH]; intros d l; simpl; [by rewrite app_nil_r|].
  unfold parse_step at 2. rewrite IH. simpl. by rewrite <-app_assoc.
Qed.

(** The cache, when filled, holds what parsing the raw headers gives. *)
Definition cache_ok (h : Headers) : Prop :=
  match _dict h with
  | None => True
  | Some d => (d, _list h) = foldl parse_step ([], []) (_raw h)
  end.

Lemma ensure_parsed_ok h : cache_ok h -> cache_ok (_ensure_parsed h).
Proof.
  unfold cache_ok, _ensure_parsed. destruct (_dict h) eqn:E; [by rewrite E|].
  destruct (foldl _ _ _) eqn:F. simpl. done.
Qed.

Lemma the_parsed h :
  cache_ok h -> (the_dict h, the_list h) = foldl parse_step ([], []) (_raw h).
Proof.
  unfold cache_ok, the_dict, the_list, _ensure_parsed. destruct (_dict h) eqn:E.
  - rewrite E. done.
  - destruct (foldl _ _ _). done.
Qed.

Lemma the_list_raw h : cache_ok h -> the_list h = norm_header <$> _raw h.
Proof. intros H%the_parsed. rewrite parse_fold in H. by injection H. Qed.

Lemma the_dict_get h k :
  cache_ok h -> dict_get (the_dict h) k = head (filter (fun kv => kv.1 = k) (norm_header <$> _raw h)).*2.
Proof.
  intros H%the_parsed. rewrite parse_fold in H. injection H as -> _.
  by rewrite dict_get_foldl_setdefault.
Qed.

Lemma the_dict_wf h : cache_ok h -> dict_wf (the_dict h).
Proof.
  intros H%the_parsed. rewrite parse_fold in H. injection H as -> _.
  apply dict_foldl_setdefault_wf. constructor.
Qed.

Lemma getlist_values h key : cache_ok h -> getlist h key = header_values (_raw h) key.
Proof. intros H. unfold getlist. by rewrite the_list_raw. Qed.
End DsHeadersFacts.

Module ReqHeadersFacts.
Import ReqHeaders.

(** What the dictionary holds after a list of normalised headers. *)
Definition joined (items : list (str * str)) (k : str) : option str :=
  match (filter (fun kv => kv.1 = k) items).*2 with
  | [] => None
  | l => Some (join $", " l)
  end.

Lemma joined_snoc items name value k :
  joined (items ++ [(name, value)]) k
  = if decide (name = k) then
      match joined items k with
      | Some old => Some (old ++ $", " ++ value)
      | None => Some value
      end
    else joined items k.
Proof.
  unfold joined. rewrite fmap_filter_snoc. cbn [fst snd].
  destruct (decide (name = k)); [|by rewrite app_nil_r].
  destruct (filter _ items).*2 as [|w l]; [done|].
  by rewrite <-join_snoc.
Qed.

Lemma req_parse_fold raw d l :
  foldl parse_step ([], []) raw = (d, l) ->
  l = norm_header <$> raw ∧ ∀ k, dict_get d k = joined (norm_header <$> raw) k.
Proof.
  revert d l. induction raw as [|h raw IH] using rev_ind; intros d l; simpl.
  - intros [= <- <-]. split; [done | by intros k].
  - rewrite foldl_app. destruct (foldl parse_step ([], []) raw) as [d0 l0] eqn:E.
    destruct (IH _ _ eq_refl) as [-> Hd]. simpl. unfold parse_step. simpl.
    intros [= <- <-]. rewrite fmap_app. split; [done|]. intros k.
    change (norm_header <$> [h])
      with [(str_lower (decode_latin1 h.1), decode_latin1 h.2)].
    rewrite joined_snoc, <-!Hd.
    destruct (dict_get d0 (str_lower (decode_latin1 h.1))) eqn:G; rewrite dict_get_set;
      case_decide; subst; rewrite ?G; done.
Qed.

Definition cache_ok (h : Headers) : Prop :=
  match _dict h with
  | None => True
  | Some d => (d, _list h) = foldl parse_step ([], []) (_raw h)
  end.

Lemma req_the_parsed h :
  cache_ok h -> foldl parse_step ([], []) (_raw h) = (the_dict h, the_list h).
Proof.
  unfold cache_ok, the_dict, the_list, _ensure_parsed. destruct (_dict h) eqn:E.
  - rewrite E. done.
  - destruct (foldl _ _ _). done.
Qed.

Lemma req_getlist_values h key : cache_ok h -> getlist h key = header_values (_raw h) key.
Proof. intros H%req_the_parsed%req_parse_fold. unfold getlist. by rewrite (proj1 H). Qed.

Lemma get_joined h key :
  cache_ok h -> dict_get (the_dict h) (str_lower key) = joined (norm_header <$> _raw h) (str_lower key).
Proof. intros H%req_the_parsed%req_parse_fold. apply H. Qed.
End ReqHeadersFacts.

(** ** Properties of query strings *)

(** The reference reading of a query string: its key/value pairs in order. *)
Definition qs_pairs (raw : str) : list (str * str) := omap qs_part (split_on 38 raw).

Definition values_of {A} (k : str) (l : list (str * A)) : list A :=
  (filter (fun kv => kv.1 = k) l).*2.

Definition group (l : list (str * str)) : list (str * list str) :=
  foldl (fun m '(k, v) => multi_append m k v) [] l.

Lemma qs_fold_group parts m :
  foldl qs_step m parts = foldl (fun m '(k, v) => multi_append m k v) m (omap qs_part parts).
Proof.
  revert m. induction parts as [|p parts IH]; intros m; simpl; [done|].
  rewrite IH. unfold qs_step. destruct (qs_part p) as [[k v]|]; done.
Qed.

Lemma parse_qs_group qs : _parse_qs_python qs = group (qs_pairs qs).
Proof. destruct qs; [done|]. apply qs_fold_group. Qed.

Lemma values_of_snoc {A} k (l : list (str * A)) k' v :
  values_of k (l ++ [(k', v)]) = values_of k l ++ (if decide (k' = k) then [v] else []).
Proof. unfold values_of. by rewrite fmap_filter_snoc. Qed.

Lemma group_snoc l k v : group (l ++ [(k, v)]) = multi_append (group l) k v.
Proof. unfold group. by rewrite foldl_app. Qed.

Lemma group_wf l : dict_wf (group l).
Proof.
  induction l as [|[k v] l IH] using rev_ind; [constructor|].
  rewrite group_snoc. by apply dict_set_wf.
Qed.

Lemma group_get l k :
  dict_get (group l) k = match values_of k l with [] => None | vs => Some vs end.
Proof.
  induction l as [|[k' v'] l IH] using rev_ind; [done|].
  rewrite group_snoc, values_of_snoc. unfold multi_append.
  rewrite dict_get_set. unfold dict_getdefault.
  case_decide as D; [subst k'; rewrite IH; by destruct (values_of k l)|].
  by rewrite app_nil_r.
Qed.

Lemma last_values_get m k :
  dict_wf m -> dict_get (last_values m) k = dict_get m k ≫= last.
Proof.
  unfold last_values, dict_wf. intros Hnd.
  enough (∀ d, (∀ k, k ∈ m.*1 -> dict_get d k = None) ->
            dict_get (foldl (fun d '(k, vs) =>
              match last vs with Some v => dict_set d k v | None => d end) d m) k
            = match dict_get m k with Some vs => last vs | None => dict_get d k end) as H.
  { rewrite H; [|done]. by destruct (dict_get m k). }
  induction m as [|[k0 vs0] m IH]; intros d Hd; [done|].
  inversion Hnd as [|?? Hni Hnd']; subst. cbn [foldl]. rewrite IH; [|done|].
  - cbn [dict_get]. case_decide as D.
    + subst k0. rewrite (proj2 (dict_get_None m k)) by done.
      destruct (last vs0); [apply dict_get_set_eq | apply Hd; set_solver].
    + destruct (dict_get m k); [done|]. destruct (last vs0); [|done]. by rewrite dict_get_set_ne.
  - intros k' Hk'. destruct (last vs0); [|apply Hd; set_solver].
    rewrite dict_get_set_ne by set_solver. apply Hd. set_solver.
Qed.

Lemma flatten_snoc_new m k v :
  k ∉ m.*1 -> flatten_multi (dict_set m k [v]) = flatten_multi m ++ [(k, v)].
Proof.
  induction m as [|[k0 vs0] m IH]; intros Hni; [done|]. cbn [dict_set].
  rewrite decide_False by set_solver. unfold flatten_multi in *. cbn [mbind list_bind].
  csimpl. rewrite IH by set_solver. by rewrite app_assoc.
Qed.

Lemma flatten_append m k v :
  dict_wf m -> flatten_multi (multi_append m k v) ≡ₚ flatten_multi m ++ [(k, v)].
Proof.
  unfold multi_append, dict_wf. induction m as [|[k0 vs0] m IH]; intros Hnd; [done|].
  inversion Hnd as [|?? Hni Hnd']; subst. unfold dict_getdefault in *. cbn [dict_get dict_set].
  case_decide as D.
  - subst k0. unfold flatten_multi. csimpl. rewrite fmap_app, <-!app_assoc. csimpl.
    apply Permutation_app_head. by rewrite Permutation_app_comm.
  - unfold flatten_multi in *. csimpl. rewrite <-app_assoc. apply Permutation_app_head.
    by apply IH.
Qed.

Lemma flatten_group l : flatten_multi (group l) ≡ₚ l.
Proof.
  induction l as [|[k v] l IH] using rev_ind; [done|].
  rewrite group_snoc, flatten_append by apply group_wf. by rewrite IH.
Qed.

Module DsQueryFacts.
Import DsQueryParams.

Definition cache_ok (q : QueryParams) : Prop :=
  match _dict q with
  | None => True
  | Some d => _multi q = group (qs_pairs (_raw q)) ∧ d = last_values (_multi q)
  end.

Lemma query_the_parsed q :
  cache_ok q ->
  the_multi q = group (qs_pairs (_raw q)) ∧ the_dict q = last_values (group (qs_pairs (_raw q))).
Proof.
  unfold cache_ok, the_multi, the_dict, _ensure_parsed. destruct (_dict q) eqn:E.
  - rewrite E. intros [Hm ->]. by rewrite Hm.
  - intros _. cbn [_multi _dict get_or]. rewrite <-parse_qs_group.
    unfold _parse_qs_python. by destruct (_raw q).
Qed.
End DsQueryFacts.

(** ** Main theorems *)

(** [Headers] of [_datastructures_impl.py] agree with the raw header list:
    [getlist] returns every value sent under the name (whatever its case), in
    order; [get] and [__getitem__] return the first of them, and otherwise the
    default and a [KeyError]; [in] tells whether there is one; no name is
    listed twice by [keys]. *)
Theorem ds_headers_correct h key default :
  DsHeadersFacts.cache_ok h ->
  let vs := header_values (DsHeaders._raw h) key in
  DsHeaders.getlist h key = vs
  ∧ DsHeaders.get h key default = match head vs with Some v => Some v | None => default end
  ∧ DsHeaders.getitem h key = match head vs with Some v => Ok v | None => Raise (KeyError key) end
  ∧ (DsHeaders.contains h key = true ↔ vs ≠ [])
  ∧ NoDup (DsHeaders.keys h)
  ∧ DsHeadersFacts.cache_ok (DsHeaders._ensure_parsed h).
Proof.
  intros H vs. unfold vs. split_and!.
  - by apply DsHeadersFacts.getlist_values.
  - unfold DsHeaders.get. by rewrite DsHeadersFacts.the_dict_get.
  - unfold DsHeaders.getitem. by rewrite DsHeadersFacts.the_dict_get.
  - unfold DsHeaders.contains, dict_mem. rewrite DsHeadersFacts.the_dict_get by done.
    unfold header_values. by destruct (filter _ _).*2.
  - by apply DsHeadersFacts.the_dict_wf.
  - by apply DsHeadersFacts.ensure_parsed_ok.
Qed.

Definition sample_headers : raw_headers :=
  [($"X-Tag", $"one"); ($"Accept", $"*/*"); ($"x-tag", $"two")].

Lemma ds_headers_correct_witness :
  DsHeaders.get (DsHeaders.mkHeaders sample_headers None []) $"X-TAG" None = Some $"one"
  ∧ DsHeaders.getlist (DsHeaders.mkHeaders sample_headers None []) $"X-TAG" = [$"one"; $"two"].
Proof.
  destruct (ds_headers_correct (DsHeaders.mkHeaders sample_headers None []) $"X-TAG" None I)
    as (Hl & Hg & _).
  rewrite Hl, Hg. split; vm_compute; reflexivity.
Defined.

(** [Headers] of [_request.py] agree with the raw header list: [getlist]
    returns every value sent under the name, in order, and [get] and
    [__getitem__] return all of them joined by a comma and a space, so no
    value is dropped; with no value, [get] gives the default and
    [__getitem__] raises [KeyError] on the lower-cased name. *)
Theorem req_headers_correct h key default :
  ReqHeadersFacts.cache_ok h ->
  let vs := header_values (ReqHeaders._raw h) key in
  ReqHeaders.getlist h key = vs
  ∧ ReqHeaders.get h key default
    = match vs with [] => default | _ => Some (join $", " vs) end
  ∧ ReqHeaders.getitem h key
    = match vs with [] => Raise (KeyError (str_lower key)) | _ => Ok (join $", " vs) end
  ∧ (ReqHeaders.contains h key = true ↔ vs ≠ []).
Proof.
  intros H vs. unfold vs. pose proof (ReqHeadersFacts.get_joined h key H) as Hj.
  unfold ReqHeadersFacts.joined in Hj. fold (header_values (ReqHeaders._raw h) key) in Hj.
  split_and!.
  - by apply ReqHeadersFacts.req_getlist_values.
  - unfold ReqHeaders.get. rewrite Hj. by destruct (header_values _ _).
  - unfold ReqHeaders.getitem. rewrite Hj. by destruct (header_values _ _).
  - unfold ReqHeaders.contains, dict_mem. rewrite Hj. by destruct (header_values _ _).
Qed.

Lemma req_headers_correct_witness :
  ReqHeaders.get (ReqHeaders.mkHeaders sample_headers None []) $"X-TAG" None = Some $"one, two".
Proof.
  destruct (req_headers_correct (ReqHeaders.mkHeaders sample_headers None []) $"X-TAG" None I)
    as (_ & Hg & _).
  rewrite Hg. vm_compute. reflexivity.
Defined.

(** C39: [QueryParams] agree with the key/value pairs of the query string (in
    order, empty parts skipped, [+] and percent escapes decoded): [getlist]
    gives all values of a key, [get] the last one, and [multi_items] lists
    exactly the pairs, grouped by key. *)
Theorem query_params_correct q key default :
  DsQueryFacts.cache_ok q ->
  let vs := values_of key (qs_pairs (DsQueryParams._raw q)) in
  DsQueryParams.getlist q key = vs
  ∧ DsQueryParams.get q key default = match last vs with Some v => Some v | None => default end
  ∧ (DsQueryParams.contains q key = true ↔ vs ≠ [])
  ∧ DsQueryParams.multi_items q ≡ₚ qs_pairs (DsQueryParams._raw q).
Proof.
  intros [Hm Hd]%DsQueryFacts.query_the_parsed vs. unfold vs.
  assert (Hg : dict_get (DsQueryParams.the_dict q) key
               = last (values_of key (qs_pairs (DsQueryParams._raw q)))).
  { rewrite Hd, last_values_get, group_get by apply group_wf. by destruct (values_of _ _). }
  split_and!.
  - unfold DsQueryParams.getlist, dict_getdefault. rewrite Hm, group_get.
    by destruct (values_of _ _).
  - unfold DsQueryParams.get. by rewrite Hg.
  - unfold DsQueryParams.contains, dict_mem. rewrite Hg.
    destruct (values_of _ _) as [|v vs'] eqn:E; [done|].
    destruct (last (v :: vs')) eqn:L; [done|]. by apply last_None in L.
  - unfold DsQueryParams.multi_items. rewrite Hm. apply flatten_group.
Qed.

Lemma query_params_correct_witness :
  DsQueryParams.get (DsQueryParams.init $"a=1&b=x+y%21&&a=2") $"a" None = Some $"2"
  ∧ DsQueryParams.get (DsQueryParams.init $"a=1&b=x+y%21&&a=2") $"b" None = Some $"x y!".
Proof.
  destruct (query_params_correct (DsQueryParams.init $"a=1&b=x+y%21&&a=2") $"a" None I)
    as (_ & Ha & _).
  destruct (query_params_correct (DsQueryParams.init $"a=1&b=x+y%21&&a=2") $"b" None I)
    as (_ & Hb & _).
  rewrite Ha, Hb. split; vm_compute; reflexivity.
Defined.

Lemma splice_read d p b : take (length b) (drop p (Upload.splice d p b)) = b.
Proof.
  unfold Upload.splice. destruct b as [|c b]; [by rewrite take_0|].
  rewrite !app_assoc, <-(app_assoc (take p d ++ _)).
  rewrite drop_app_length'; [by rewrite take_app_length|].
  rewrite length_app, length_take, length_replicate. lia.
Qed.

Lemma splice_length d p b :
  b ≠ [] -> length (Upload.splice d p b) = Nat.max (length d) (p + length b).
Proof.
  intros Hb. unfold Upload.splice. destruct b as [|c b]; [done|].
  rewrite !length_app, length_take, length_replicate, length_drop. lia.
Qed.

(** What is written to an open [UploadFile] can be read back: after
    [write(data)] and [seek] to the position of the write, [read(len(data))]
    returns [data]; the recorded size grew by the length of the data, and the
    file holds at least that much. *)
Theorem upload_write_seek_read u b :
  Upload.closed (Upload.the_file u) = false ->
  ∃ u1 u2 u3,
    Upload.write u b = (u1, Ok tt)
    ∧ Upload.seek u1 (Z.of_nat (Upload.pos (Upload.the_file u))) = Ok u2
    ∧ Upload.read u2 (Z.of_nat (length b)) = Ok (b, u3)
    ∧ Upload.size u3 = (fun n => n + Z.of_nat (length b)) <$> Upload.size u
    ∧ Upload.pos (Upload.the_file u3) = Upload.pos (Upload.the_file u1).
Proof.
  intros Hc. unfold Upload.write. rewrite Hc. do 3 eexists. split; [done|].
  unfold Upload.seek. cbn [Upload.the_file Upload.closed].
  rewrite (proj2 (Z.ltb_ge (Z.of_nat _) 0)) by lia. split; [done|].
  unfold Upload.read. cbn [Upload.the_file Upload.closed Upload.with_file Upload.data Upload.pos].
  rewrite (proj2 (Z.ltb_ge (Z.of_nat (length b)) 0)), !Nat2Z.id by lia.
  rewrite splice_read. split; [done|]. by destruct (Upload.size u).
Qed.

Lemma upload_write_seek_read_witness :
  ∃ u1 u2 u3,
    Upload.write (Upload.init None None $"text/plain" (Some 0)) $"abc" = (u1, Ok tt)
    ∧ Upload.seek u1 0 = Ok u2 ∧ Upload.read u2 3 = Ok ($"abc", u3) ∧ Upload.size u3 = Some 3.
Proof.
  destruct (upload_write_seek_read (Upload.init None None $"text/plain" (Some 0)) $"abc" eq_refl)
    as (u1 & u2 & u3 & H1 & H2 & H3 & H4 & _).
  by exists u1, u2, u3.
Defined.

Definition file_closed (s : Form.store) (i : nat) : Prop :=
  ∀ u, s !! i = Some u -> Upload.closed (Upload.the_file u) = true.

Lemma close_step_keeps s kv i : file_closed s i -> file_closed (Form.close_step s kv) i.
Proof.
  unfold file_closed, Form.close_step. intros Hs u. destruct kv.2 as [t|b|j]; [apply Hs|apply Hs|].
  rewrite lookup_alter. case_decide; subst; [|apply Hs].
  destruct (s !! i); intros; simplify_eq/=. done.
Qed.

Lemma close_fold_keeps l s i : file_closed s i -> file_closed (foldl Form.close_step s l) i.
Proof. revert s. induction l; simpl; auto using close_step_keeps. Qed.

Lemma close_fold_closed l s u i k :
  (k, Form.FFile i) ∈ l -> foldl Form.close_step s l !! i = Some u ->
  Upload.closed (Upload.the_file u) = true.
Proof.
  revert s. induction l as [|kv l IH]; intros s Hk; [set_solver|]. cbn [foldl].
  apply elem_of_cons in Hk as [<-|Hk]; [|by apply IH].
  apply close_fold_keeps. intros u' Hu'. unfold Form.close_step in Hu'. simpl in Hu'.
  rewrite lookup_alter_eq in Hu'. destruct (s !! i); simplify_eq/=. done.
Qed.

Lemma close_fold_other l s i :
  (∀ k, (k, Form.FFile i) ∉ l) -> foldl Form.close_step s l !! i = s !! i.
Proof.
  revert s. induction l as [|[k' v'] l IH]; intros s Hni; [done|]. cbn [foldl].
  rewrite IH by set_solver. destruct v' as [t|b|j]; [done|done|]. unfold Form.close_step. simpl.
  rewrite lookup_alter_ne; [done|]. intros ->. apply (Hni k'). set_solver.
Qed.

(** The first value of a form field is what [get] and [[]] return, [keys]
    has no repetitions and lists the fields of the form, and [close] closes
    every uploaded file the form refers to while leaving the files it does
    not refer to untouched. *)
Theorem form_data_correct data kwargs key (s : Form.store) :
  let f := Form.init data kwargs in
  Form.get f key = head (Form.getlist f key)
  ∧ Form.getlist f key = values_of key (data ++ kwargs)
  ∧ NoDup (Form.keys f)
  ∧ (∀ i u, (∃ k, (k, Form.FFile i) ∈ data ++ kwargs) -> Form.close f s !! i = Some u ->
       Upload.closed (Upload.the_file u) = true)
  ∧ (∀ i, (∀ k, (k, Form.FFile i) ∉ data ++ kwargs) -> Form.close f s !! i = s !! i).
Proof.
  intros f. unfold f, Form.get, Form.getlist, Form.keys, Form.close, Form.init.
  cbn [Form._list Form._dict]. split_and!.
  - by rewrite dict_get_foldl_setdefault.
  - done.
  - apply dict_foldl_setdefault_wf. constructor.
  - intros i u [k Hk]. by apply (close_fold_closed _ _ _ i k).
  - intros i Hni. by apply close_fold_other.
Qed.
