(* ===== verification/Multipart.v ===== *)
(** * Multipart: form bodies in parts

    [_extract_boundary] and [_parse_multipart_streaming] of [routing.py].  The tokenizer of python-multipart is not part of the
    repository: what the code sees of it is the sequence of callbacks it makes,
    and it may hand out names, values and data in pieces of any size. *)

From S2P Require Import Prelude PyStr Asgi DataStructures.

(** ** The boundary *)
Definition is_dq (c : N) : bool := (c =? 34)%N.

(** [value[1:-1]] of a quoted value. *)
Definition unquoted (v : str) : str :=
  match v with
  | c :: ((_ :: _) as rest) =>
      if is_dq c && match last rest with Some d => is_dq d | None => false end
      then take (length rest - 1) rest else v
  | _ => v
  end.

Fixpoint first_boundary (parts : list str) : option str :=
  match parts with
  | [] => None
  | part :: parts' =>
      let p := strip part in
      if startswith (str_lower p) $"boundary=" then Some (unquoted (drop 9 p)) else first_boundary parts'
  end.

Definition _extract_boundary (content_type : str) : option str := first_boundary (split_on 59 content_type).

(** ** The callbacks *)
Inductive mp_event : Type :=
  | PartBegin
  | HeaderField (b : bytes)
  | HeaderValue (b : bytes)
  | HeaderEnd
  | HeadersFinished
  | PartData (b : bytes)
  | PartEnd.

(** [_cur]; [c_headers] is [None] for the empty dictionary there is before the
    first part, and [c_hname], [c_hval] and [c_data] for absent keys. *)
Record current : Type := mkCur {
  c_name : str;
  c_filename : option str;
  c_content_type : str;
  c_headers : option (list (str * str));
  c_hname : option bytes;
  c_hval : option bytes;
  c_data : option bytes
}.

Definition octet_stream : str := $"application/octet-stream".

(** A file of the form: name, media type, headers and the temporary file. *)
Record mp_file : Type := mkMpFile {
  f_filename : str;
  f_content_type : str;
  f_headers : raw_headers;
  f_file : Upload.file
}.

Inductive mp_item : Type := MText (s : str) | MBytes (b : bytes) | MFile (f : mp_file).

Record parser : Type := mkParser {
  items : list (str * mp_item);
  _cur : current;
  _spooled : option Upload.file
}.

Definition no_part : current := mkCur [] None octet_stream None None None None.
Definition start : parser := mkParser [] no_part None.

Definition is_quote (c : N) : bool := (c =? 34)%N || (c =? 39)%N.
Definition strip_quotes (s : str) : str := rstrip_by is_quote (lstrip_by is_quote s).

(** One segment of a [Content-Disposition] header. *)
Definition disposition_segment (c : current) (seg : str) : current :=
  let seg := strip seg in
  if startswith seg $"name=" then
    mkCur (strip_quotes (drop 5 seg)) (c_filename c) (c_content_type c) (c_headers c) (c_hname c) (c_hval c) (c_data c)
  else if startswith seg $"filename=" then
    mkCur (c_name c) (Some (strip_quotes (drop 9 seg))) (c_content_type c) (c_headers c) (c_hname c) (c_hval c)
      (c_data c)
  else c.

Definition on_part_begin (p : parser) : parser :=
  mkParser (items p) (mkCur [] None octet_stream (Some []) None None None) None.

Definition with_cur (p : parser) (c : current) : parser := mkParser (items p) c (_spooled p).

Definition on_header_field (b : bytes) (p : parser) : parser :=
  let c := _cur p in
  with_cur p (mkCur (c_name c) (c_filename c) (c_content_type c) (c_headers c) (Some (get_or (c_hname c) [] ++ b))
                (c_hval c) (c_data c)).

Definition on_header_value (b : bytes) (p : parser) : parser :=
  let c := _cur p in
  with_cur p (mkCur (c_name c) (c_filename c) (c_content_type c) (c_headers c) (c_hname c)
                (Some (get_or (c_hval c) [] ++ b)) (c_data c)).

(** What a header does to the part. *)
Definition record_header (c : current) (hname hval : str) : current :=
  if bool_decide (hname = $"content-disposition") then foldl disposition_segment c (split_on 59 hval)
  else if bool_decide (hname = $"content-type") then
    mkCur (c_name c) (c_filename c) hval (c_headers c) (c_hname c) (c_hval c) (c_data c)
  else c.

Definition on_header_end (p : parser) : result parser :=
  let c := _cur p in
  let hname := decode_latin1 (bytes_lower (get_or (c_hname c) [])) in
  let hval := decode_latin1 (get_or (c_hval c) []) in
  match c_headers c with
  | None => Raise (KeyError $"headers")
  | Some hs =>
      Ok (with_cur p (record_header
            (mkCur (c_name c) (c_filename c) (c_content_type c) (Some (dict_set hs hname hval)) None None (c_data c))
            hname hval))
  end.

Definition on_headers_finished (p : parser) : parser :=
  match c_filename (_cur p) with
  | Some _ => mkParser (items p) (_cur p) (Some (Upload.mkFile [] 0 false))
  | None => p
  end.

(** Writing at the position of the file, which moves behind what was written;
    [seek(0)]. *)
Definition spool_write (f : Upload.file) (b : bytes) : Upload.file :=
  Upload.mkFile (Upload.splice (Upload.data f) (Upload.pos f) b) (Upload.pos f + length b)%nat (Upload.closed f).
Definition seek0 (f : Upload.file) : Upload.file := Upload.mkFile (Upload.data f) 0 (Upload.closed f).

Definition on_part_data (b : bytes) (p : parser) : parser :=
  match _spooled p with
  | Some f => mkParser (items p) (_cur p) (Some (spool_write f b))
  | None =>
      let c := _cur p in
      with_cur p (mkCur (c_name c) (c_filename c) (c_content_type c) (c_headers c) (c_hname c) (c_hval c)
                    (Some (get_or (c_data c) [] ++ b)))
  end.

(** Text that is not UTF-8 stays bytes. *)
Definition text_item (raw : bytes) : mp_item :=
  match utf8_decode_strict raw with Ok s => MText s | Raise _ => MBytes raw end.

(** [k.encode("latin-1")] of what was decoded so: the bytes again. *)
Definition raw_of_headers (hs : list (str * str)) : raw_headers := hs.

Definition on_part_end (p : parser) : parser :=
  let c := _cur p in
  match c_filename c, _spooled p with
  | Some fn, Some f =>
      let f := seek0 f in
      let item := MFile (mkMpFile fn (c_content_type c) (raw_of_headers (get_or (c_headers c) [])) f) in
      mkParser (items p ++ [(c_name c, item)]) c (Some f)
  | _, _ => mkParser (items p ++ [(c_name c, text_item (get_or (c_data c) []))]) c (_spooled p)
  end.

Definition on_event (p : parser) (e : mp_event) : result parser :=
  match e with
  | PartBegin => Ok (on_part_begin p)
  | HeaderField b => Ok (on_header_field b p)
  | HeaderValue b => Ok (on_header_value b p)
  | HeaderEnd => on_header_end p
  | HeadersFinished => Ok (on_headers_finished p)
  | PartData b => Ok (on_part_data b p)
  | PartEnd => Ok (on_part_end p)
  end.

Definition run_callbacks (evs : list mp_event) : result (list (str * mp_item)) :=
  let! p := rfold on_event start evs in Ok (items p).

(** ** The form *)

(** The [FormData] of the items, and the files it refers to. *)
Definition upload_of (f : mp_file) : Upload.UploadFile :=
  Upload.init (Some (f_filename f)) (Some (f_file f)) (f_content_type f) None.

Fixpoint form_items (next : nat) (l : list (str * mp_item))
    : list (str * Form.fvalue) * Form.store :=
  match l with
  | [] => ([], ∅)
  | (n, it) :: l' =>
      match it with
      | MText s => let '(fs, st) := form_items next l' in ((n, Form.FText s) :: fs, st)
      | MBytes b => let '(fs, st) := form_items next l' in ((n, Form.FBytes b) :: fs, st)
      | MFile f =>
          let '(fs, st) := form_items (S next) l' in
          ((n, Form.FFile next) :: fs, <[next := upload_of f]> st)
      end
  end.

Definition form_of (l : list (str * mp_item)) : Form.FormData * Form.store :=
  let '(fs, st) := form_items 0 l in (Form.init fs [], st).

(** [tokenize] is the [MultipartParser] run on a body with a boundary. *)
Definition _parse_multipart_streaming (tokenize : bytes -> bytes -> result (list mp_event)) (body boundary : bytes)
    : result (Form.FormData * Form.store) :=
  let! evs := tokenize body boundary in
  let! l := run_callbacks evs in
  Ok (form_of l).

(** ** Properties *)

(** A part of a body: its headers and its data. *)
Record part : Type := mkPart { p_headers : list (bytes * bytes); p_data : bytes }.

(** A part the way the tokenizer may hand it out, in pieces. *)
Record pieces : Type := mkPieces {
  pc_headers : list (list bytes * list bytes);
  pc_data : list bytes
}.

Definition assembled (pc : pieces) : part :=
  mkPart ((fun '(n, v) => (concat n, concat v)) <$> pc_headers pc) (concat (pc_data pc)).

Definition header_events (nv : list bytes * list bytes) : list mp_event :=
  (HeaderField <$> nv.1) ++ (HeaderValue <$> nv.2) ++ [HeaderEnd].

Definition part_events (pc : pieces) : list mp_event :=
  PartBegin :: concat (header_events <$> pc_headers pc)
  ++ HeadersFinished :: (PartData <$> pc_data pc) ++ [PartEnd].

(** The reference: a header seen as a whole, and a part seen as a whole. *)
Definition header_step (c : current) (nv : bytes * bytes) : current :=
  let hname := decode_latin1 (bytes_lower nv.1) in
  let hval := decode_latin1 nv.2 in
  record_header (mkCur (c_name c) (c_filename c) (c_content_type c) (Some (dict_set (get_or (c_headers c) []) hname hval))
                   None None None) hname hval.

Definition part_header (p : part) : current :=
  foldl header_step (mkCur [] None octet_stream (Some []) None None None) (p_headers p).

Definition part_item (p : part) : str * mp_item :=
  let c := part_header p in
  (c_name c,
   match c_filename c with
   | Some fn => MFile (mkMpFile fn (c_content_type c) (get_or (c_headers c) []) (Upload.mkFile (p_data p) 0 false))
   | None => text_item (p_data p)
   end).

Lemma rfold_app {A S} (f : S -> A -> result S) s l k :
  rfold f s (l ++ k) = let! s' := rfold f s l in rfold f s' k.
Proof. revert s. induction l as [|a l IH]; intros s; simpl; [done|]. destruct (f s a); simpl; auto. Qed.

(** The headers of a part are being read: no piece is pending. *)
Definition settled (c : current) : Prop :=
  is_Some (c_headers c) ∧ c_hname c = None ∧ c_hval c = None ∧ c_data c = None.

Lemma disposition_segment_settled c seg : settled c -> settled (disposition_segment c seg).
Proof. unfold disposition_segment. intros H. repeat case_match; done. Qed.

Lemma foldl_disposition_settled segs c : settled c -> settled (foldl disposition_segment c segs).
Proof. revert c. induction segs; simpl; auto using disposition_segment_settled. Qed.

Lemma record_header_settled c n v : settled c -> settled (record_header c n v).
Proof.
  unfold record_header. intros H. repeat case_match; auto using foldl_disposition_settled.
Qed.

Lemma header_step_settled c nv : settled (header_step c nv).
Proof. apply record_header_settled. repeat split; simpl. by eexists. Qed.

Definition pending (c : current) (n v : option bytes) : current :=
  mkCur (c_name c) (c_filename c) (c_content_type c) (c_headers c) n v (c_data c).

Lemma header_fields_run p n ns :
  c_hname (_cur p) = n ->
  rfold on_event p (HeaderField <$> ns)
  = Ok (with_cur p (pending (_cur p) (match ns with [] => n | _ => Some (get_or n [] ++ concat ns) end)
                      (c_hval (_cur p)))).
Proof.
  revert p n. induction ns as [|b ns IH]; intros [it c sp] n Hn; simpl in Hn.
  - destruct c; simpl in *; by subst.
  - rewrite fmap_cons. cbn [rfold on_event rbind]. erewrite IH by done. simpl. unfold with_cur, pending. simpl.
    rewrite Hn. destruct ns; simpl; by rewrite ?app_nil_r, <-?app_assoc.
Qed.

Lemma header_values_run p v vs :
  c_hval (_cur p) = v ->
  rfold on_event p (HeaderValue <$> vs)
  = Ok (with_cur p (pending (_cur p) (c_hname (_cur p))
                      (match vs with [] => v | _ => Some (get_or v [] ++ concat vs) end))).
Proof.
  revert p v. induction vs as [|b vs IH]; intros [it c sp] v Hv; simpl in Hv.
  - destruct c; simpl in *; by subst.
  - rewrite fmap_cons. cbn [rfold on_event rbind]. erewrite IH by done. simpl. unfold with_cur, pending. simpl.
    rewrite Hv. destruct vs; simpl; by rewrite ?app_nil_r, <-?app_assoc.
Qed.

Lemma header_run p nv :
  settled (_cur p) ->
  rfold on_event p (header_events nv) = Ok (with_cur p (header_step (_cur p) (concat nv.1, concat nv.2))).
Proof.
  intros ([hs Hh] & Hn & Hv & Hd). destruct nv as [n v]. unfold header_events. cbn [fst snd].
  rewrite rfold_app, (header_fields_run p None) by done. cbn [rbind].
  rewrite rfold_app, (header_values_run _ None) by done. cbn [rbind rfold on_event].
  unfold on_header_end, with_cur, pending. simpl. rewrite Hh. simpl. unfold header_step. rewrite Hh. simpl.
  rewrite Hd. by destruct n, v.
Qed.

Lemma headers_run nvs p :
  settled (_cur p) ->
  rfold on_event p (concat (header_events <$> nvs))
  = Ok (with_cur p (foldl header_step (_cur p) ((fun '(n, v) => (concat n, concat v)) <$> nvs)))
  ∧ settled (foldl header_step (_cur p) ((fun '(n, v) => (concat n, concat v)) <$> nvs)).
Proof.
  revert p. induction nvs as [|[n v] nvs IH]; intros p Hp; [by destruct p|].
  rewrite !fmap_cons. cbn [concat foldl]. rewrite rfold_app, header_run by done. cbn [rbind fst snd].
  destruct (IH (with_cur p (header_step (_cur p) (concat n, concat v)))) as [-> Hs]; [apply header_step_settled|].
  done.
Qed.

Lemma data_run bs p :
  rfold on_event p (PartData <$> bs)
  = Ok (match _spooled p with
        | Some f => mkParser (items p) (_cur p) (Some (foldl spool_write f bs))
        | None =>
            let c := _cur p in
            with_cur p (mkCur (c_name c) (c_filename c) (c_content_type c) (c_headers c) (c_hname c) (c_hval c)
                          (match bs with [] => c_data c | _ => Some (get_or (c_data c) [] ++ concat bs) end))
        end).
Proof.
  revert p. induction bs as [|b bs IH]; intros [it c sp].
  - simpl. destruct sp; [done|]. by destruct c.
  - rewrite fmap_cons. cbn [rfold on_event rbind]. rewrite IH. unfold on_part_data. simpl.
    destruct sp; simpl; [done|]. unfold with_cur. simpl.
    destruct bs; simpl; by rewrite ?app_nil_r, <-?app_assoc.
Qed.

(** Writing at the end appends. *)
Lemma spool_appends bs d :
  foldl spool_write (Upload.mkFile d (length d) false) bs
  = Upload.mkFile (d ++ concat bs) (length (d ++ concat bs)) false.
Proof.
  revert d. induction bs as [|b bs IH]; intros d; cbn [foldl concat]; [by rewrite app_nil_r|].
  assert (Hw : spool_write (Upload.mkFile d (length d) false) b = Upload.mkFile (d ++ b) (length (d ++ b)) false).
  { unfold spool_write, Upload.splice. cbn. rewrite length_app. destruct b as [|x b]; [by rewrite app_nil_r|].
    rewrite take_ge, Nat.sub_diag, drop_ge, app_nil_r by lia. done. }
  rewrite Hw, IH. by rewrite <-app_assoc.
Qed.

Lemma part_run pc p :
  ∃ p', rfold on_event p (part_events pc) = Ok p' ∧ items p' = items p ++ [part_item (assembled pc)].
Proof.
  unfold part_events. cbn [rfold on_event rbind]. rewrite rfold_app.
  destruct (headers_run (pc_headers pc) (on_part_begin p)) as [-> Hs]; [repeat split; by eexists|].
  cbn [rbind]. change (foldl header_step (_cur (on_part_begin p)) _) with (part_header (assembled pc)) in *.
  destruct Hs as (_ & _ & _ & Hd). cbn [rfold on_event rbind]. rewrite rfold_app, data_run. cbn [rbind rfold on_event].
  eexists. split; [done|]. unfold part_item, on_headers_finished. simpl.
  destruct (c_filename (part_header (assembled pc))) as [fn|] eqn:Hf; simpl.
  - unfold on_part_end. cbn [_cur _spooled with_cur]. rewrite Hf.
    change (Upload.mkFile [] 0 false) with (Upload.mkFile [] (length (@nil N)) false).
    rewrite spool_appends. done.
  - unfold on_part_end. simpl. rewrite Hf, Hd. simpl. by destruct (pc_data pc).
Qed.

(** The entry of a form for an item, in a store of files. *)
Definition stored (st : Form.store) (ni : str * mp_item) (nv : str * Form.fvalue) : Prop :=
  ni.1 = nv.1 ∧
  match ni.2, nv.2 with
  | MText s, Form.FText t => s = t
  | MBytes b, Form.FBytes c => b = c
  | MFile f, Form.FFile i => st !! i = Some (upload_of f)
  | _, _ => False
  end.

Lemma form_items_fresh l next i : (i < next)%nat -> (form_items next l).2 !! i = None.
Proof.
  revert next. induction l as [|[n []] l IH]; intros next Hi; simpl; [apply lookup_empty|..].
  - specialize (IH next Hi). by destruct (form_items next l).
  - specialize (IH next Hi). by destruct (form_items next l).
  - specialize (IH (S next)). destruct (form_items (S next) l). simpl in *.
    rewrite lookup_insert_ne by lia. apply IH. lia.
Qed.

Lemma form_items_stored l next : Forall2 (stored (form_items next l).2) l (form_items next l).1.
Proof.
  revert next. induction l as [|[n it] l IH]; intros next; [constructor|]. cbn [form_items]. destruct it as [s|b|f].
  1,2: specialize (IH next); destruct (form_items next l); by constructor.
  specialize (IH (S next)). pose proof (form_items_fresh l (S next) next ltac:(lia)) as Hf.
  destruct (form_items (S next) l) as [fs st]. simpl in *. constructor.
  - split; [done|]. simpl. by rewrite lookup_insert_eq.
  - eapply Forall2_impl; [exact IH|]. intros [n' it'] [n'' v] [? H]. split; [done|].
    destruct it', v; try done. simpl in *. rewrite lookup_insert_ne; [done|]. intros ->. congruence.
Qed.

(** C26: the form read from a multipart body does not depend on how the
    tokenizer cuts it.  Whatever the pieces in which the names and values of
    the headers and the data of the parts are handed out, the callbacks raise
    no exception and build one form entry per part, in order: the field name,
    and either the text of the part, or its bytes when they are not UTF-8, or
    a file with the announced name and media type whose contents are exactly
    the data of the part, ready to be read from the start. *)
Theorem multipart_pieces_irrelevant (tokenize : bytes -> bytes -> result (list mp_event)) (body boundary : bytes)
    (pcs : list pieces)
    (Htok : tokenize body boundary = Ok (concat (part_events <$> pcs))) :
  ∃ entries st, _parse_multipart_streaming tokenize body boundary = Ok (Form.init entries [], st) ∧
    Forall2 (stored st) (part_item <$> (assembled <$> pcs)) entries.
Proof.
  assert (∀ p, ∃ p', rfold on_event p (concat (part_events <$> pcs)) = Ok p' ∧
                     items p' = items p ++ (part_item <$> (assembled <$> pcs))) as Hrun.
  { clear Htok. induction pcs as [|pc pcs IH]; intros p; [exists p; by rewrite app_nil_r|].
    rewrite !fmap_cons. cbn [concat]. rewrite rfold_app. destruct (part_run pc p) as (p1 & -> & H1). cbn [rbind].
    destruct (IH p1) as (p2 & -> & H2). exists p2. split; [done|]. by rewrite H2, H1, <-app_assoc. }
  destruct (Hrun start) as (p' & Hp & Hi). unfold _parse_multipart_streaming, run_callbacks.
  rewrite Htok. cbn [rbind]. rewrite Hp. cbn [rbind]. rewrite Hi. cbn [start items app].
  unfold form_of. pose proof (form_items_stored (part_item <$> (assembled <$> pcs)) 0) as Hs.
  destruct (form_items 0 _) as [fs st]. by exists fs, st.
Qed.

(** A text field and a file, cut at unusual places. *)
Definition sample_pieces : list pieces :=
  [mkPieces [([$"Content-Dispo"; $"sition"], [$"form-data; name="; [34%N] ++ $"a" ++ [34%N]])] [$"he"; []; $"llo"];
   mkPieces [([$"content-disposition"], [$"form-data; name=f; filename=x.txt"]); ([$"Content-Type"], [$"text/"; $"plain"])]
     [$"data"]].

Lemma multipart_pieces_irrelevant_witness :
  ∃ entries st, _parse_multipart_streaming (fun _ _ => Ok (concat (part_events <$> sample_pieces))) [] $"b"
    = Ok (Form.init entries [], st) ∧
    Forall2 (stored st) [($"a", MText $"hello");
      ($"f", MFile (mkMpFile $"x.txt" $"text/plain"
         [($"content-disposition", $"form-data; name=f; filename=x.txt"); ($"content-type", $"text/plain")] (Upload.mkFile $"data" 0 false)))]
      entries.
Proof. exact (multipart_pieces_irrelevant _ [] $"b" sample_pieces eq_refl). Defined.

(** A semicolon inside a quoted file name ends the name. *)
Lemma quoted_semicolon_cuts_filename :
  (part_item (mkPart [($"content-disposition",
     $"form-data; name=f; filename=" ++ [34%N] ++ $"a;b.txt" ++ [34%N])] [])).2
  = MFile (mkMpFile $"a" octet_stream
      [($"content-disposition", $"form-data; name=f; filename=" ++ [34%N] ++ $"a;b.txt" ++ [34%N])] (Upload.mkFile [] 0 false)).
Proof. reflexivity. Qed.
