(* ===== verification/Requests.v ===== *)
(** * Requests: the body of a request

    [Request] of [_request.py]: [stream], [body], [json], [form], [close] and
    [is_disconnected] over the ASGI receive channel, with the attributes they
    cache their results in.  JSON decoding, the form parsers of the core and of
    python-multipart are parameters. *)

From S2P Require Import Prelude PyStr Asgi DataStructures.

(** ** The connection

    [HTTPConnection]: the views of the scope it creates on first use and
    keeps.  [core] is the parser of the compiled core for cookie headers and
    query strings. *)
Module HTTPConn.
Record HTTPConnection : Type := mkConn {
  _scope : Scope;
  _headers : option ReqHeaders.Headers;
  _query_params : option ReqQueryParams.QueryParams;
  _cookies : option (list (str * str))
}.

Definition init (sc : Scope) : result HTTPConnection :=
  match sc_type sc with
  | Lifespan => Raise (AssertionError [])
  | _ => Ok (mkConn sc None None None)
  end.

Definition headers (c : HTTPConnection) : HTTPConnection * ReqHeaders.Headers :=
  match _headers c with
  | Some h => (c, h)
  | None =>
      let h := ReqHeaders.init None (Some (_scope c)) in
      (mkConn (_scope c) (Some h) (_query_params c) (_cookies c), h)
  end.

Definition query_params (c : HTTPConnection) : HTTPConnection * ReqQueryParams.QueryParams :=
  match _query_params c with
  | Some q => (c, q)
  | None =>
      let q := ReqQueryParams.init None (Some (_scope c)) in
      (mkConn (_scope c) (_headers c) (Some q) (_cookies c), q)
  end.

Definition cookies (parse_cookie_header : str -> list (str * str)) (c : HTTPConnection)
    : HTTPConnection * list (str * str) :=
  match _cookies c with
  | Some d => (c, d)
  | None =>
      let '(c, h) := headers c in
      let d :=
        match get_or (ReqHeaders.get h $"cookie" (Some [])) [] with
        | [] => []
        | header => parse_cookie_header header
        end in
      (mkConn (_scope c) (_headers c) (_query_params c) (Some d), d)
  end.

Definition method (c : HTTPConnection) : str := get_or (sc_method (_scope c)) [].
Definition path_params (c : HTTPConnection) : list (str * pval) :=
  get_or (sc_path_params (_scope c)) [].
Definition client (c : HTTPConnection) : option PyAddress.Address :=
  '(h, p) ← sc_client (_scope c); Some (PyAddress.mkAddress h p).
End HTTPConn.

(** ** State *)

(** What awaiting can do: finish, raise, or wait for an event that has not
    been sent. *)
Inductive awaited (A : Type) : Type :=
  | Done (a : A)
  | Raised (e : exn)
  | Waits.
Arguments Done {A} a.
Arguments Raised {A} e.
Arguments Waits {A}.

Section request.
Context {J F : Type}.

(** The attributes of a [Request] and the events its channel still holds; an
    attribute that is not set is [None]. [r_receive] says whether the request
    was given a receive channel. *)
Record Request : Type := mkRequest {
  r_scope : Scope;
  r_scope_body : option bytes;
  r_receive : bool;
  r_channel : list event;
  _body : option bytes;
  _json : option J;
  _json_loaded : bool;
  _form : option F;
  _disconnected : bool;
  _stream_consumed : bool;
  _buffered_messages : list event
}.

Definition init (sc : Scope) (scope_body : option bytes) (receive : bool) (channel : list event)
    : Request :=
  mkRequest sc scope_body receive channel None None false None false false [].

Definition with_channel (r : Request) (ch : list event) : Request :=
  mkRequest (r_scope r) (r_scope_body r) (r_receive r) ch (_body r) (_json r) (_json_loaded r)
    (_form r) (_disconnected r) (_stream_consumed r) (_buffered_messages r).
Definition with_body (r : Request) (b : bytes) : Request :=
  mkRequest (r_scope r) (r_scope_body r) (r_receive r) (r_channel r) (Some b) (_json r)
    (_json_loaded r) (_form r) (_disconnected r) (_stream_consumed r) (_buffered_messages r).
Definition with_json (r : Request) (j : J) : Request :=
  mkRequest (r_scope r) (r_scope_body r) (r_receive r) (r_channel r) (_body r) (Some j) true
    (_form r) (_disconnected r) (_stream_consumed r) (_buffered_messages r).
Definition with_form (r : Request) (f : F) : Request :=
  mkRequest (r_scope r) (r_scope_body r) (r_receive r) (r_channel r) (_body r) (_json r)
    (_json_loaded r) (Some f) (_disconnected r) (_stream_consumed r) (_buffered_messages r).
Definition with_consumed (r : Request) : Request :=
  mkRequest (r_scope r) (r_scope_body r) (r_receive r) (r_channel r) (_body r) (_json r)
    (_json_loaded r) (_form r) (_disconnected r) true (_buffered_messages r).
Definition with_disconnected (r : Request) : Request :=
  mkRequest (r_scope r) (r_scope_body r) (r_receive r) (r_channel r) (_body r) (_json r)
    (_json_loaded r) (_form r) true (_stream_consumed r) (_buffered_messages r).
Definition with_buffered (r : Request) (e : event) : Request :=
  mkRequest (r_scope r) (r_scope_body r) (r_receive r) (r_channel r) (_body r) (_json r)
    (_json_loaded r) (_form r) (_disconnected r) (_stream_consumed r) (_buffered_messages r ++ [e]).

(** ** Reading the body *)

(** [message.get("body", b"")] and [message.get("more_body", False)]; only
    body events have these keys. *)
Definition event_body (e : event) : bytes :=
  match e with HttpRequest b _ => get_or b [] | _ => [] end.
Definition event_more (e : event) : bool :=
  match e with HttpRequest _ m => get_or m false | _ => false end.

(** The loop of [stream]: the chunks it yields, the events it leaves, and
    whether it ended. *)
Fixpoint read_events (ch : list event) : list bytes * list event * bool :=
  match ch with
  | [] => ([], [], false)
  | e :: ch' =>
      let chunk := match event_body e with [] => [] | b => [b] end in
      if event_more e then
        let '(chunks, rest, ended) := read_events ch' in (chunk ++ chunks, rest, ended)
      else (chunk, ch', true)
  end.

Definition no_channel : exn := AssertionError $"No receive channel available".
Definition consumed_error : exn := RuntimeError $"Stream already consumed".

(** [stream] iterated to its end. *)
Definition stream (r : Request) : Request * awaited (list bytes) :=
  match _body r with
  | Some b => (r, Done [b; []])
  | None =>
      if _stream_consumed r then (r, Raised consumed_error)
      else if negb (r_receive r) then (with_consumed r, Raised no_channel)
      else
        let '(chunks, rest, ended) := read_events (r_channel r) in
        (with_channel (with_consumed r) rest, if ended then Done chunks else Waits)
  end.

Definition body (r : Request) : Request * awaited bytes :=
  match _body r with
  | Some b => (r, Done b)
  | None =>
      match r_receive r, r_scope_body r with
      | false, Some b => (with_body r b, Done b)
      | _, _ =>
          let '(r', o) := stream r in
          match o with
          | Done chunks => let b := concat chunks in (with_body r' b, Done b)
          | Raised e => (r', Raised e)
          | Waits => (r', Waits)
          end
      end
  end.

(** ** JSON and forms *)
Context (json_loads : bytes -> result J).

Definition json (r : Request) : Request * awaited J :=
  match _json_loaded r, _json r with
  | true, Some j => (r, Done j)
  | _, _ =>
      let '(r', o) := body r in
      match o with
      | Done b =>
          match json_loads b with
          | Ok j => (with_json r' j, Done j)
          | Raise e => (r', Raised e)
          end
      | Raised e => (r', Raised e)
      | Waits => (r', Waits)
      end
  end.

(** The parsers: of the core, [_parse_multipart_fallback], the value of
    [dict(_parse_qs_python(...))], and the empty form. *)
Context (parse_multipart_body : bytes -> str -> result F).
Context (parse_multipart_fallback : bytes -> str -> result F).
Context (parse_urlencoded_body : bytes -> result F).
Context (dict_form : list (str * list str) -> F).

Definition content_type (r : Request) : str :=
  get_or (ReqHeaders.get (ReqHeaders.init None (Some (r_scope r))) $"content-type" (Some [])) [].

(** [try: a except Exception: b] *)
Definition or_else {A} (a b : result A) : result A := match a with Ok x => Ok x | Raise _ => b end.

Definition parse_form (ct : str) (b : bytes) : result F :=
  if contains $"multipart/form-data" ct then
    or_else (parse_multipart_body b ct) (parse_multipart_fallback b ct)
  else if contains $"application/x-www-form-urlencoded" ct then
    or_else (parse_urlencoded_body b) (Ok (dict_form (_parse_qs_python (decode_latin1 b))))
  else Ok (dict_form []).

Definition form (r : Request) : Request * awaited F :=
  match _form r with
  | Some f => (r, Done f)
  | None =>
      let ct := content_type r in
      let '(r', o) := body r in
      match o with
      | Done b =>
          match parse_form ct b with
          | Ok f => (with_form r' f, Done f)
          | Raise e => (r', Raised e)
          end
      | Raised e => (r', Raised e)
      | Waits => (r', Waits)
      end
  end.

(** ** Disconnection *)

(** What waiting for an event with a zero timeout does. *)
Inductive polled : Type := Arrived | TimedOut | Failed.

Definition is_disconnected (p : polled) (r : Request) : Request * bool :=
  if _disconnected r then (r, true)
  else
    let r' :=
      match p, r_channel r with
      | Arrived, e :: ch =>
          let r1 := with_channel r ch in
          match e with
          | HttpDisconnect => with_disconnected r1
          | _ => with_buffered r1 e
          end
      | Failed, _ => with_disconnected r
      | _, _ => r
      end in
    (r', _disconnected r').
End request.
Arguments Request : clear implicits.

(** ** Sequences of operations *)
Inductive request_op : Type := OBody | OJson | OForm | OStream.

Section operations.
Context {J F : Type}.
Context (json_loads : bytes -> result J).
Context (parse_multipart_body parse_multipart_fallback : bytes -> str -> result F).
Context (parse_urlencoded_body : bytes -> result F) (dict_form : list (str * list str) -> F).

Inductive answer : Type :=
  | ABody (a : awaited bytes)
  | AJson (a : awaited J)
  | AForm (a : awaited F)
  | AStream (a : awaited (list bytes)).

Local Abbreviation the_form :=
  (form parse_multipart_body parse_multipart_fallback parse_urlencoded_body dict_form).
Local Abbreviation the_parse :=
  (parse_form parse_multipart_body parse_multipart_fallback parse_urlencoded_body dict_form).

Definition run_op (op : request_op) (r : Request J F) : Request J F * answer :=
  match op with
  | OBody => let '(r', a) := body r in (r', ABody a)
  | OJson => let '(r', a) := json json_loads r in (r', AJson a)
  | OForm => let '(r', a) := the_form r in (r', AForm a)
  | OStream => let '(r', a) := stream r in (r', AStream a)
  end.

Fixpoint run_ops (ops : list request_op) (r : Request J F) : Request J F * list answer :=
  match ops with
  | [] => (r, [])
  | op :: ops' =>
      let '(r1, a) := run_op op r in
      let '(r2, l) := run_ops ops' r1 in (r2, a :: l)
  end.

Definition of_result {A} (m : result A) : awaited A :=
  match m with Ok a => Done a | Raise e => Raised e end.

(** What every operation answers once the body [b] of a request with content
    type [ct] is known. *)
Definition expected (ct : str) (b : bytes) (op : request_op) : answer :=
  match op with
  | OBody => ABody (Done b)
  | OJson => AJson (of_result (json_loads b))
  | OForm => AForm (of_result (the_parse ct b))
  | OStream => AStream (Done [b; []])
  end.

(** The events of a body: announced ones, the last one, and what follows. *)
Lemma read_events_complete pre e rest :
  Forall (fun x => event_more x = true) pre -> event_more e = false ->
  ∃ chunks, read_events (pre ++ e :: rest) = (chunks, rest, true)
    ∧ concat chunks = concat (event_body <$> pre ++ [e]).
Proof.
  intros Hpre He. induction Hpre as [|x pre Hx _ IH]; simpl.
  - rewrite He. eexists. split; [done|]. destruct (event_body e); simpl; by rewrite ?app_nil_r.
  - rewrite Hx. destruct IH as (chunks & -> & Hc). eexists. split; [done|].
    rewrite concat_app, Hc. destruct (event_body x); simpl; by rewrite ?app_nil_r.
Qed.

Lemma read_events_incomplete ch :
  Forall (fun x => event_more x = true) ch -> ∃ chunks, read_events ch = (chunks, [], false).
Proof.
  induction 1 as [|x ch Hx _ (chunks & IH)]; simpl; [by eexists|]. rewrite Hx, IH. by eexists.
Qed.

(** The body has been read: the caches agree with it. *)
Definition loaded (sc : Scope) (b : bytes) (rest : list event) (r : Request J F) : Prop :=
  r_scope r = sc ∧ _body r = Some b ∧ r_channel r = rest
  ∧ (_json_loaded r = true -> ∃ j, _json r = Some j ∧ json_loads b = Ok j)
  ∧ (∀ f, _form r = Some f -> the_parse (content_type r) b = Ok f).

Definition ct_of (sc : Scope) : str :=
  content_type (init (J := J) (F := F) sc None false []).

Lemma run_op_loaded sc b rest op r :
  loaded sc b rest r ->
  let '(r', a) := run_op op r in loaded sc b rest r' ∧ a = expected (ct_of sc) b op.
Proof.
  intros (Hs & Hb & Hch & Hj & Hf). destruct op; simpl.
  - unfold body. by rewrite Hb.
  - unfold json, body. rewrite Hb.
    destruct (_json_loaded r) eqn:El, (_json r) as [j|] eqn:Ej; simpl.
    1: { destruct (Hj eq_refl) as (j' & [= <-] & ->). unfold loaded. rewrite El, Ej. naive_solver. }
    1: { by destruct (Hj eq_refl) as (j' & ? & _). }
    all: destruct (json_loads b) as [j'|e] eqn:E; simpl; unfold loaded; simpl;
      rewrite ?El, ?Ej; naive_solver.
  - unfold form, body. rewrite Hb.
    assert (Hct : content_type r = ct_of sc) by (unfold ct_of, content_type; simpl; by rewrite Hs).
    destruct (_form r) as [f|] eqn:Ef; simpl.
    + rewrite <-Hct, (Hf f eq_refl). unfold loaded. rewrite Ef. naive_solver.
    + rewrite Hct. destruct (the_parse (ct_of sc) b) as [f|e] eqn:E; simpl; unfold loaded; simpl.
      * split_and!; try done. intros f' [= <-]. change (the_parse (content_type r) b = Ok f). by rewrite Hct.
      * rewrite Ef. naive_solver.
  - unfold stream. by rewrite Hb.
Qed.

Lemma run_ops_loaded sc b rest ops r :
  loaded sc b rest r ->
  let '(r', l) := run_ops ops r in loaded sc b rest r' ∧ l = expected (ct_of sc) b <$> ops.
Proof.
  revert r. induction ops as [|op ops IH]; intros r Hr; simpl; [done|].
  pose proof (run_op_loaded sc b rest op r Hr) as H1. destruct (run_op op r) as [r1 a].
  destruct H1 as [Hr1 ->]. specialize (IH r1 Hr1). destruct (run_ops ops r1) as [r2 l].
  destruct IH as [? ->]. done.
Qed.

(** The first operation reads the body. *)
Lemma run_op_first sc sb op pre e rest b :
  op ≠ OStream ->
  Forall (fun x => event_more x = true) pre -> event_more e = false ->
  b = concat (event_body <$> pre ++ [e]) ->
  let '(r', a) := run_op op (init sc sb true (pre ++ e :: rest)) in
  loaded sc b rest r' ∧ a = expected (ct_of sc) b op.
Proof.
  intros Hop Hpre He Hb. destruct (read_events_complete pre e rest Hpre He) as (chunks & Hr & Hc).
  assert (Hbody : body (J := J) (F := F) (init sc sb true (pre ++ e :: rest))
    = (with_body (with_channel (with_consumed (init sc sb true (pre ++ e :: rest))) rest) b, Done b)).
  { unfold body, stream. simpl. by rewrite Hr, Hc, <-Hb. }
  unfold loaded. destruct op; [| | |done]; simpl.
  - by rewrite Hbody.
  - unfold json. simpl. rewrite Hbody. destruct (json_loads b) as [j|] eqn:E; simpl; naive_solver.
  - unfold form. simpl. rewrite Hbody.
    change (content_type (init sc sb true (pre ++ e :: rest))) with (ct_of sc).
    destruct (the_parse (ct_of sc) b) as [f|] eqn:E; simpl; [|naive_solver].
    split_and!; try done. by intros f' [= <-].
Qed.
End operations.

(** The body of a request is read once, whatever is asked of it.  On a
    request whose channel holds a complete body, any sequence of [body], [json],
    [form] and [stream] that does not begin with [stream] answers from the same
    bytes, the bodies of the events up to the last one in order, and takes from
    the channel exactly these events.  Streaming first gives these bytes as
    chunks, after which [body] refuses rather than answering without them.  A body
    whose end has not arrived makes [body] wait.  An event that [is_disconnected]
    takes from the channel is missing from the body read afterwards. *)
Theorem request_body_read_once {J F} (loads : bytes -> result J) (mp mf : bytes -> str -> result F)
    ue df sc sb pre e rest :
  let b := concat (event_body <$> pre ++ [e]) in
  let r : Request J F := init sc sb true (pre ++ e :: rest) in
  Forall (fun x => event_more x = true) pre -> event_more e = false ->
  (∀ op ops, op ≠ OStream ->
   let '(r', l) := run_ops loads mp mf ue df (op :: ops) r in
   l = expected loads mp mf ue df (ct_of (J := J) (F := F) sc) b <$> op :: ops ∧ r_channel r' = rest)
  ∧ (∃ chunks, (stream r).2 = Done chunks ∧ concat chunks = b ∧ r_channel (stream r).1 = rest
     ∧ (body (stream r).1).2 = Raised consumed_error)
  ∧ (body (J := J) (F := F) (init sc sb true pre)).2 = Waits
  ∧ (∀ x, x ≠ HttpDisconnect ->
     let '(r1, d) := is_disconnected Arrived (init (J := J) (F := F) sc sb true (x :: pre ++ e :: rest)) in
     d = false ∧ _buffered_messages r1 = [x] ∧ (body r1).2 = Done b).
Proof.
  intros b r Hpre He. destruct (read_events_complete pre e rest Hpre He) as (chunks & Hr & Hc).
  split_and!.
  - intros op ops Hop. cbn [run_ops].
    pose proof (run_op_first loads mp mf ue df sc sb op pre e rest b Hop Hpre He eq_refl) as H1.
    fold r in H1. destruct (run_op loads mp mf ue df op r) as [r1 a]. destruct H1 as [Hl ->].
    pose proof (run_ops_loaded loads mp mf ue df sc b rest ops r1 Hl) as H2.
    destruct (run_ops loads mp mf ue df ops r1) as [r2 l]. destruct H2 as [(_ & _ & Hch & _) ->]. done.
  - exists chunks. unfold stream, r. simpl. rewrite Hr. done.
  - destruct (read_events_incomplete pre Hpre) as (c & Hi). unfold body, stream. simpl. by rewrite Hi.
  - intros x Hx. unfold is_disconnected. simpl.
    destruct x; try done; simpl; unfold body, stream; simpl; rewrite Hr, Hc; done.
Qed.

Lemma request_body_read_once_witness :
  let r : Request bytes unit :=
    init (mkScope Http $"/" None None None None None None None None None None false false) None true
      [HttpRequest (Some $"he") (Some true); HttpRequest (Some $"llo") None; HttpDisconnect] in
  (run_ops Ok (fun _ _ => Ok tt) (fun _ _ => Ok tt) (fun _ => Ok tt) (fun _ => tt) [OBody; OJson; OStream] r).2
  = [ABody (Done $"hello"); AJson (Done $"hello"); AStream (Done [$"hello"; []])].
Proof.
  destruct (request_body_read_once (J := bytes) (F := unit) Ok (fun _ _ => Ok tt) (fun _ _ => Ok tt)
    (fun _ => Ok tt) (fun _ => tt)
    (mkScope Http $"/" None None None None None None None None None None false false) None
    [HttpRequest (Some $"he") (Some true)] (HttpRequest (Some $"llo") None) [HttpDisconnect])
    as [H _]; [repeat constructor|reflexivity|].
  specialize (H OBody [OJson; OStream] ltac:(done)). cbv zeta.
  destruct (run_ops _ _ _ _ _ _ _) as [r' l]. destruct H as [-> _]. reflexivity.
Defined.
