(* ===== verification/Base64.v ===== *)
(** * Base64: [base64.b64decode] of the Python library

    [a2b_base64] is the lenient reader behind [b64decode]: characters outside
    the alphabet are skipped, and reading stops at the padding that completes
    a group of four.  [b64encode] is the standard encoder, the reference for
    the round trip. *)

From S2P Require Import Prelude PyStr.

(** ** The alphabet *)
Definition b64_char (v : N) : N :=
  if (v <? 26)%N then (65 + v)%N
  else if (v <? 52)%N then (71 + v)%N
  else if (v <? 62)%N then (v - 4)%N
  else if (v =? 62)%N then 43%N else 47%N.

Definition b64_value (c : N) : option N :=
  if ascii_upper_letter c then Some (c - 65)%N
  else if ascii_lower_letter c then Some (c - 71)%N
  else if is_digit c then Some (c + 4)%N
  else if (c =? 43)%N then Some 62%N
  else if (c =? 47)%N then Some 63%N
  else None.

Definition pad : N := 61%N.

(** ** Encoding *)
Fixpoint b64encode (b : bytes) : str :=
  match b with
  | [] => []
  | [x] => [b64_char (x / 4); b64_char ((x mod 4) * 16); pad; pad]
  | [x; y] => [b64_char (x / 4); b64_char ((x mod 4) * 16 + y / 16); b64_char ((y mod 16) * 4); pad]
  | x :: y :: z :: b' =>
      b64_char (x / 4) :: b64_char ((x mod 4) * 16 + y / 16) :: b64_char ((y mod 16) * 4 + z / 64)
        :: b64_char (z mod 64) :: b64encode b'
  end%N.

(** ** Decoding *)
Definition data_error : exn :=
  ValueError $"Invalid base64-encoded string: number of data characters cannot be 1 more than a multiple of 4".
Definition padding_error : exn := ValueError $"Incorrect padding".

(** The loop of [binascii.a2b_base64]: the position in the group of four, the
    bits left of the last character, the pads seen in a row, the output. *)
Fixpoint a2b_loop (s : bytes) (quad_pos : nat) (leftchar : N) (pads : nat) (out : bytes)
    : result bytes :=
  match s with
  | [] =>
      match quad_pos with
      | 0 => Ok out
      | 1 => Raise data_error
      | _ => Raise padding_error
      end
  | c :: s' =>
      if (c =? pad)%N then
        match quad_pos with
        | 0 | 1 => a2b_loop s' quad_pos leftchar pads out
        | _ => if 4 <=? quad_pos + S pads then Ok out
               else a2b_loop s' quad_pos leftchar (S pads) out
        end
      else
        match b64_value c with
        | None => a2b_loop s' quad_pos leftchar pads out
        | Some v =>
            match quad_pos with
            | 0 => a2b_loop s' 1 v 0 out
            | 1 => a2b_loop s' 2 (v mod 16) 0 (out ++ [leftchar * 4 + v / 16]%N)
            | 2 => a2b_loop s' 3 (v mod 4) 0 (out ++ [leftchar * 16 + v / 4]%N)
            | _ => a2b_loop s' 0 0 0 (out ++ [leftchar * 64 + v]%N)
            end
        end
  end%nat.

Definition a2b_base64 (s : bytes) : result bytes := a2b_loop s 0 0 0 [].

Definition is_ascii (s : str) : bool := forallb (fun c => (c <? 128)%N) s.

(** [b64decode(s)] of a string, which must be ASCII. *)
Definition b64decode (s : str) : result bytes :=
  if is_ascii s then a2b_base64 s
  else Raise (ValueError $"string argument should contain only ASCII characters").

(** [b.decode("ascii")] *)
Definition decode_ascii (b : bytes) : result str :=
  if is_ascii b then Ok b else Raise UnicodeDecodeError.

(** ** Facts *)

(** Linear arithmetic with division by constants. *)
Ltac divlia := zify; Z.to_euclidean_division_equations; lia.

(** A decidable fact about the 64 values is checked on each of them. *)
Lemma below_64 (P : N -> bool) :
  forallb P (N.of_nat <$> seq 0 64) = true -> ∀ v, (v < 64)%N -> P v = true.
Proof.
  rewrite forallb_Forall, Forall_forall. intros H v Hv. apply H.
  apply list_elem_of_fmap. exists (N.to_nat v). rewrite N2Nat.id. split; [done|].
  apply elem_of_seq. lia.
Qed.

Lemma b64_value_char v : (v < 64)%N -> b64_value (b64_char v) = Some v.
Proof.
  pose (P := fun v => bool_decide (b64_value (b64_char v) = Some v)).
  intros Hv. assert (H : P v = true) by (by apply below_64). by apply bool_decide_eq_true_1 in H.
Qed.

Lemma b64_char_not_pad v : (v < 64)%N -> (b64_char v =? pad)%N = false.
Proof. intros Hv. apply negb_true_iff. by apply (below_64 (fun v => negb (b64_char v =? pad)%N)). Qed.

Lemma b64_char_ascii v : (v < 64)%N -> (b64_char v < 128)%N ∧ is_space (b64_char v) = false.
Proof.
  intros Hv. rewrite <-N.ltb_lt, <-negb_true_iff. apply andb_true_iff.
  by apply (below_64 (fun v => (b64_char v <? 128)%N && negb (is_space (b64_char v)))).
Qed.

Lemma bytes_ind3 (P : bytes -> Prop) :
  P [] -> (∀ x, P [x]) -> (∀ x y, P [x; y]) -> (∀ x y z b, P b -> P (x :: y :: z :: b)) ->
  ∀ b, P b.
Proof.
  intros H0 H1 H2 H3. fix IH 1. intros [|x [|y [|z b]]]; [done|apply H1|apply H2|].
  apply H3. apply IH.
Qed.

Lemma b64encode_nil b : b64encode b = [] -> b = [].
Proof. by destruct b as [|x [|y [|z b]]]. Qed.

(** What the encoder writes: characters of the alphabet and padding. *)
Lemma b64encode_chars b :
  Forall (fun x => (x < 256)%N) b ->
  Forall (fun c => (c < 128)%N ∧ is_space c = false) (b64encode b).
Proof.
  induction b as [|x|x y|x y z b IH] using bytes_ind3; intros Hb; simpl; [done|..];
    rewrite !Forall_cons in Hb; destruct_and!;
    repeat (apply Forall_cons_2 || apply Forall_nil_2); try apply b64_char_ascii; try done; try lia;
    try (by apply IH); divlia.
Qed.

Lemma a2b_loop_encode b out :
  Forall (fun x => (x < 256)%N) b -> a2b_loop (b64encode b) 0 0 0 out = Ok (out ++ b).
Proof.
  revert out. induction b as [|x|x y|x y z b IH] using bytes_ind3; intros out Hb;
    [by rewrite app_nil_r|..]; rewrite !Forall_cons in Hb; destruct_and!; simpl;
    repeat (rewrite b64_char_not_pad, b64_value_char by divlia; simpl).
  - do 3 f_equal. divlia.
  - rewrite <-app_assoc. simpl. do 3 f_equal; [|f_equal]; divlia.
  - rewrite IH by done. rewrite <-!app_assoc. simpl. do 3 f_equal; [|f_equal; [|f_equal]];
      divlia.
Qed.

Lemma is_ascii_Forall s : is_ascii s = true ↔ Forall (fun c => (c < 128)%N) s.
Proof.
  unfold is_ascii. rewrite forallb_Forall. apply Forall_proper; [|done].
  intros c. apply N.ltb_lt.
Qed.

(** Decoding undoes encoding. *)
Lemma b64decode_encode b : Forall (fun x => (x < 256)%N) b -> b64decode (b64encode b) = Ok b.
Proof.
  intros Hb. unfold b64decode. rewrite (proj2 (is_ascii_Forall _)).
  - apply (a2b_loop_encode b []). done.
  - eapply Forall_impl; [by apply b64encode_chars|]. by intros ? [??].
Qed.
