(* ===== verification/Security.v ===== *)
(** * Security: the security schemes of [security/]

    What the schemes take from a request: [HTTPBase], [HTTPBasic],
    [HTTPBearer], [HTTPDigest], the API keys, OAuth2 and OpenID Connect, with
    the password form and the scopes.  The OpenAPI models the constructors
    build are left out but for the scheme name the code reads back.  The path
    through the compiled core is not taken: [_core_bridge] exports neither of
    the two functions it needs. *)

From S2P Require Import Prelude PyStr Asgi DataStructures Requests Base64.

(** ** [security/utils.py] *)
Definition get_authorization_scheme_param (authorization : option str) : str * str :=
  match authorization with
  | None | Some [] => ([], [])
  | Some value =>
      let normalized := join $" " (split_words value) in
      let '(scheme, _, param) := partition 32 normalized in (scheme, param)
  end.

(** [not value] for an optional text. *)
Definition falsy (o : option str) : bool := match o with None | Some [] => true | _ => false end.

Definition is_empty (s : str) : bool := match s with [] => true | _ => false end.

(** ** HTTP authentication *)

(** [str.title]: the first letter of every run of cased letters in title
    case, the others in lower case; on Latin-1. *)
Definition is_cased (c : N) : bool :=
  ascii_upper_letter c || ascii_lower_letter c || (c =? 170)%N || (c =? 181)%N || (c =? 186)%N
  || (in_range 192 255 c && negb (c =? 215)%N && negb (c =? 247)%N).
Definition title_char (c : N) : str := if (c =? 223)%N then [83%N; 115%N] else upper_char c.
Fixpoint title_aux (s : str) (after_cased : bool) : str :=
  match s with
  | [] => []
  | c :: s' => (if after_cased then [lower_char c] else title_char c) ++ title_aux s' (is_cased c)
  end.
Definition str_title (s : str) : str := title_aux s false.

Record HTTPAuthorizationCredentials : Type := mkCredentials { scheme : str; credentials : str }.
Record HTTPBasicCredentials : Type := mkBasic { username : str; password : str }.

(** The attributes the calls read; [realm] is used by [HTTPBasic]. *)
Record HTTPBase : Type := mkHTTPBase {
  model_scheme : str;
  scheme_name : str;
  auto_error : bool;
  realm : option str
}.

(** [scheme_name or self.__class__.__name__] *)
Definition name_or (o : option str) (class : str) : str := match o with None | Some [] => class | Some n => n end.

Definition base_init (sch : str) (name : option str) (auto : bool) : HTTPBase :=
  mkHTTPBase sch (name_or name $"HTTPBase") auto None.
Definition basic_init (name rlm : option str) (auto : bool) : HTTPBase :=
  mkHTTPBase $"basic" (name_or name $"HTTPBasic") auto rlm.
Definition bearer_init (name : option str) (auto : bool) : HTTPBase :=
  mkHTTPBase $"bearer" (name_or name $"HTTPBearer") auto None.
Definition digest_init (name : option str) (auto : bool) : HTTPBase :=
  mkHTTPBase $"digest" (name_or name $"HTTPDigest") auto None.

Definition challenge (value : str) : list (str * str) := [($"WWW-Authenticate", value)].

Definition unauthorized (headers : list (str * str)) : exn :=
  HTTPException 401 (Some $"Not authenticated") (Some headers).

Definition base_authenticate_headers (b : HTTPBase) : list (str * str) :=
  challenge (str_title (model_scheme b)).

(** A double quote, which a string literal cannot hold. *)
Definition dquote : str := [34%N].

Definition basic_authenticate_headers (b : HTTPBase) : list (str * str) :=
  match realm b with
  | None | Some [] => challenge $"Basic"
  | Some r => challenge ($"Basic realm=" ++ dquote ++ r ++ dquote)
  end.

(** [if self.auto_error: raise error else: return None] *)
Definition refuse {A} (auto : bool) (error : exn) : result (option A) :=
  if auto then Raise error else Ok None.

Definition authorization (c : HTTPConn.HTTPConnection) : option str :=
  ReqHeaders.get (HTTPConn.headers c).2 $"Authorization" None.

Definition base_call (b : HTTPBase) (c : HTTPConn.HTTPConnection)
    : result (option HTTPAuthorizationCredentials) :=
  let auth := authorization c in
  let '(sch, cred) := get_authorization_scheme_param auth in
  if falsy auth || is_empty sch || is_empty cred then
    refuse (auto_error b) (unauthorized (base_authenticate_headers b))
  else Ok (Some (mkCredentials sch cred)).

Definition basic_call (b : HTTPBase) (c : HTTPConn.HTTPConnection)
    : result (option HTTPBasicCredentials) :=
  let error := unauthorized (basic_authenticate_headers b) in
  let auth := authorization c in
  let '(sch, param) := get_authorization_scheme_param auth in
  if falsy auth || negb (bool_decide (str_lower sch = $"basic")) then refuse (auto_error b) error
  else
    match (let! data := b64decode param in decode_ascii data) with
    | Raise _ => Raise error
    | Ok data =>
        let '(user, separator, pass) := partition 58 data in
        if separator then Ok (Some (mkBasic user pass)) else Raise error
    end.

(** [HTTPBearer.__call__] and [HTTPDigest.__call__], which differ in the
    scheme they accept. *)
Definition scheme_call (expected : str) (b : HTTPBase) (c : HTTPConn.HTTPConnection)
    : result (option HTTPAuthorizationCredentials) :=
  let error := unauthorized (base_authenticate_headers b) in
  let auth := authorization c in
  let '(sch, cred) := get_authorization_scheme_param auth in
  if falsy auth || is_empty sch || is_empty cred then refuse (auto_error b) error
  else if negb (bool_decide (str_lower sch = expected)) then refuse (auto_error b) error
  else Ok (Some (mkCredentials sch cred)).
Definition bearer_call : HTTPBase -> HTTPConn.HTTPConnection
    -> result (option HTTPAuthorizationCredentials) := scheme_call $"bearer".
Definition digest_call : HTTPBase -> HTTPConn.HTTPConnection
    -> result (option HTTPAuthorizationCredentials) := scheme_call $"digest".

(** ** API keys *)
Record APIKeyBase : Type := mkAPIKey { key_name : str; key_scheme_name : str; key_auto_error : bool }.

Definition api_key_init (class name : str) (sname : option str) (auto : bool) : APIKeyBase :=
  mkAPIKey name (name_or sname class) auto.
Definition api_key_query_init : str -> option str -> bool -> APIKeyBase := api_key_init $"APIKeyQuery".
Definition api_key_header_init : str -> option str -> bool -> APIKeyBase := api_key_init $"APIKeyHeader".
Definition api_key_cookie_init : str -> option str -> bool -> APIKeyBase := api_key_init $"APIKeyCookie".

Definition api_key_error : exn := unauthorized (challenge $"APIKey").

Definition check_api_key (k : APIKeyBase) (api_key : option str) : result (option str) :=
  if falsy api_key then refuse (key_auto_error k) api_key_error else Ok api_key.

Section api_keys.
Context (core_parse_qs : option (str -> list (str * list str))).
Context (parse_cookie_header : str -> list (str * str)).

Definition api_key_query_call (k : APIKeyBase) (c : HTTPConn.HTTPConnection) : result (option str) :=
  check_api_key k (ReqQueryParams.get core_parse_qs (HTTPConn.query_params c).2 (key_name k) None).
Definition api_key_header_call (k : APIKeyBase) (c : HTTPConn.HTTPConnection) : result (option str) :=
  check_api_key k (ReqHeaders.get (HTTPConn.headers c).2 (key_name k) None).
Definition api_key_cookie_call (k : APIKeyBase) (c : HTTPConn.HTTPConnection) : result (option str) :=
  check_api_key k (dict_get (HTTPConn.cookies parse_cookie_header c).2 (key_name k)).
End api_keys.

(** ** OAuth2 and OpenID Connect *)
Definition oauth2_error : exn := unauthorized (challenge $"Bearer").

(** The flows of the OpenAPI model. *)
Record OAuthFlow : Type := mkFlow {
  authorizationUrl : option str; tokenUrl : option str; refreshUrl : option str;
  flow_scopes : list (str * str)
}.
Record OAuthFlows : Type := mkFlows {
  implicit : option OAuthFlow; password_flow : option OAuthFlow;
  clientCredentials : option OAuthFlow; authorizationCode : option OAuthFlow
}.

Record OAuth2 : Type := mkOAuth2 { flows : OAuthFlows; oauth_scheme_name : str; oauth_auto_error : bool }.

Definition oauth2_init (class : str) (fl : OAuthFlows) (sname : option str) (auto : bool) : OAuth2 :=
  mkOAuth2 fl (name_or sname class) auto.

Definition oauth2_password_init (token_url : str) (sname : option str)
    (scopes : option (list (str * str))) (auto : bool) (refresh_url : option str) : OAuth2 :=
  oauth2_init $"OAuth2PasswordBearer"
    (mkFlows None (Some (mkFlow None (Some token_url) refresh_url (get_or scopes []))) None None) sname auto.

Definition oauth2_code_init (auth_url token_url : str) (refresh_url sname : option str)
    (scopes : option (list (str * str))) (auto : bool) : OAuth2 :=
  oauth2_init $"OAuth2AuthorizationCodeBearer"
    (mkFlows None None None (Some (mkFlow (Some auth_url) (Some token_url) refresh_url (get_or scopes [])))) sname auto.

(** [OAuth2.__call__] and [OpenIdConnect.__call__]: the header as it is. *)
Definition oauth2_call (auto : bool) (c : HTTPConn.HTTPConnection) : result (option str) :=
  let auth := authorization c in
  if falsy auth then refuse auto oauth2_error else Ok auth.

Definition oauth2_bearer_call (auto : bool) (c : HTTPConn.HTTPConnection) : result (option str) :=
  let auth := authorization c in
  let '(sch, param) := get_authorization_scheme_param auth in
  if falsy auth || negb (bool_decide (str_lower sch = $"bearer")) then refuse auto oauth2_error
  else Ok (Some param).

Record OAuth2PasswordRequestForm : Type := mkForm {
  grant_type : option str; form_username : str; form_password : str; form_scopes : list str;
  client_id : option str; client_secret : option str
}.

Definition password_form_init (grant : option str) (user pass scope : str) (cid secret : option str)
    : OAuth2PasswordRequestForm :=
  mkForm grant user pass (split_words scope) cid secret.
Definition password_form_strict_init (grant user pass scope : str) (cid secret : option str)
    : OAuth2PasswordRequestForm :=
  password_form_init (Some grant) user pass scope cid secret.

Record SecurityScopes : Type := mkScopes { scopes : list str; scope_str : str }.
Definition security_scopes_init (o : option (list str)) : SecurityScopes :=
  let l := get_or o [] in mkScopes l (join $" " l).

(** ** Words *)
Definition all_space (s : str) : Prop := Forall (fun c => is_space c = true) s.
Definition no_space (s : str) : Prop := Forall (fun c => is_space c = false) s.

Lemma split_words_aux_word w s acc :
  no_space w -> split_words_aux (w ++ s) acc = split_words_aux s (acc ++ w).
Proof.
  intros Hw. revert acc. induction Hw as [|c w Hc _ IH]; intros acc; simpl; [by rewrite app_nil_r|].
  rewrite Hc, IH. by rewrite <-app_assoc.
Qed.

Lemma split_words_spaces sp s : all_space sp -> split_words (sp ++ s) = split_words s.
Proof. induction 1 as [|c sp Hc _ IH]; [done|]. unfold split_words in *. simpl. by rewrite Hc. Qed.

Lemma split_words_word w sp s :
  no_space w -> w ≠ [] -> all_space sp -> sp ≠ [] -> split_words (w ++ sp ++ s) = w :: split_words s.
Proof.
  intros Hw Hne Hsp Hsne. unfold split_words. rewrite split_words_aux_word by done.
  destruct sp as [|c sp]; [done|]. inversion Hsp as [|?? Hc Hsp']; subst. simpl. rewrite Hc.
  destruct w; [done|]. simpl. f_equal. by apply split_words_spaces.
Qed.

Lemma split_words_last w sp : no_space w -> w ≠ [] -> all_space sp -> split_words (w ++ sp) = [w].
Proof.
  intros Hw Hne Hsp. destruct sp as [|c sp].
  - unfold split_words. rewrite split_words_aux_word by done. by destruct w.
  - rewrite <-(app_nil_r (c :: sp)), (split_words_word w (c :: sp) []) by done. done.
Qed.

Lemma split_words_aux_clean s acc :
  no_space acc -> Forall (fun w => w ≠ [] ∧ no_space w) (split_words_aux s acc).
Proof.
  assert (Hpush : ∀ w ws, no_space w -> Forall (fun w => w ≠ [] ∧ no_space w) ws ->
    Forall (fun w => w ≠ [] ∧ no_space w) (push_word w ws)).
  { intros [|c w] ws Hw Hws; simpl; [done|]. by constructor. }
  revert acc. induction s as [|c s IH]; intros acc Hacc; simpl; [by apply Hpush|].
  destruct (is_space c) eqn:E.
  - apply Hpush; [done|]. by apply IH; constructor.
  - apply IH. apply Forall_app_2; [done|]. by repeat constructor.
Qed.

Lemma split_words_clean s : Forall (fun w => w ≠ [] ∧ no_space w) (split_words s).
Proof. by apply split_words_aux_clean; constructor. Qed.

Lemma no_space_32 w : no_space w -> 32%N ∉ w.
Proof. intros Hw Hin. by pose proof (proj1 (Forall_forall _ _) Hw 32%N Hin). Qed.

(** Scopes joined by spaces are split back. *)
Lemma split_words_join l :
  Forall (fun w => w ≠ [] ∧ no_space w) l -> split_words (join $" " l) = l.
Proof.
  induction l as [|w l IH]; intros Hl; [done|]. inversion Hl as [|?? [Hw1 Hw2] Hl']; subst.
  destruct l as [|w' l'].
  - simpl. pose proof (split_words_last w [] Hw2 Hw1 (Forall_nil_2 _)) as H. by rewrite app_nil_r in H.
  - rewrite join_cons by done. change ($" ") with [32%N] at 1.
    rewrite split_words_word, IH; try done. by repeat constructor.
Qed.

(** The scheme and its parameter in terms of the words of the header. *)
Lemma scheme_param_words v :
  get_authorization_scheme_param (Some v)
  = match split_words v with [] => ([], []) | w :: ws => (w, join $" " ws) end.
Proof.
  destruct v as [|c v]; [done|]. unfold get_authorization_scheme_param.
  pose proof (split_words_clean (c :: v)) as Hc.
  destruct (split_words (c :: v)) as [|w [|w' ws]]; [done|..]; inversion Hc as [|?? [? Hw] ?]; subst.
  - simpl. by rewrite (partition_none 32 w (no_space_32 w Hw)).
  - rewrite join_cons by done. change ($" ") with [32%N]. simpl.
    by rewrite (partition_app 32 w _ (no_space_32 w Hw)).
Qed.

(** The words of the [Authorization] header: the scheme and the rest. *)
Definition auth_words (c : HTTPConn.HTTPConnection) : list str :=
  match authorization c with Some v => split_words v | None => [] end.

Lemma scheme_param_auth c :
  get_authorization_scheme_param (authorization c)
  = match auth_words c with [] => ([], []) | w :: ws => (w, join $" " ws) end.
Proof. unfold auth_words. destruct (authorization c); [apply scheme_param_words | done]. Qed.

Lemma auth_words_falsy c : auth_words c ≠ [] -> falsy (authorization c) = false.
Proof. unfold auth_words. by destruct (authorization c) as [[|??]|]. Qed.

Lemma auth_words_clean c : Forall (fun w => w ≠ [] ∧ no_space w) (auth_words c).
Proof. unfold auth_words. destruct (authorization c); [apply split_words_clean|done]. Qed.

(** The one header value of a fresh connection. *)
Lemma authorization_single sc v :
  header_values (get_or (sc_headers sc) []) $"Authorization" = [v] ->
  authorization (HTTPConn.mkConn sc None None None) = Some v.
Proof.
  intros Hv. unfold authorization, HTTPConn.headers, ReqHeaders.get. cbn [fst snd HTTPConn._headers HTTPConn._scope].
  rewrite ReqHeadersFacts.get_joined by done. unfold ReqHeadersFacts.joined.
  change (ReqHeaders._raw (ReqHeaders.init None (Some sc))) with (get_or (sc_headers sc) []).
  unfold header_values in Hv. rewrite Hv. done.
Qed.

(** The calls by the words of the header. *)
Lemma basic_call_words b c :
  let error := unauthorized (basic_authenticate_headers b) in
  basic_call b c
  = match auth_words c with
    | sch :: ws =>
        if bool_decide (str_lower sch = $"basic") then
          match (let! data := b64decode (join $" " ws) in decode_ascii data) with
          | Raise _ => Raise error
          | Ok data => let '(user, sep, pass) := partition 58 data in
                       if sep then Ok (Some (mkBasic user pass)) else Raise error
          end
        else refuse (auto_error b) error
    | [] => refuse (auto_error b) error
    end.
Proof.
  cbv zeta. unfold basic_call. rewrite scheme_param_auth.
  destruct (auth_words c) as [|sch ws] eqn:E.
  - by rewrite orb_true_r.
  - rewrite (auth_words_falsy c) by (by rewrite E). simpl. by destruct (bool_decide _).
Qed.

Lemma join_words_nonempty ws :
  Forall (fun w => w ≠ [] ∧ no_space w) ws -> is_empty (join $" " ws) = bool_decide (ws = []).
Proof. intros Hw. destruct ws as [|w [|w' ws]]; [done|..]; inversion Hw as [|?? [??]]; subst; by destruct w. Qed.

Lemma scheme_call_words expected b c :
  let error := unauthorized (base_authenticate_headers b) in
  scheme_call expected b c
  = match auth_words c with
    | sch :: ((_ :: _) as ws) =>
        if bool_decide (str_lower sch = expected) then Ok (Some (mkCredentials sch (join $" " ws)))
        else refuse (auto_error b) error
    | _ => refuse (auto_error b) error
    end.
Proof.
  cbv zeta. unfold scheme_call. rewrite scheme_param_auth. pose proof (auth_words_clean c) as Hc.
  destruct (auth_words c) as [|sch ws] eqn:E; [by rewrite orb_true_r|].
  rewrite (auth_words_falsy c) by (by rewrite E). inversion Hc as [|?? [??]]; subst.
  rewrite join_words_nonempty by done. destruct sch; [done|]. destruct ws; [done|].
  rewrite bool_decide_false by done. cbn [orb is_empty]. by destruct (bool_decide (_ = expected)).
Qed.

Lemma oauth2_bearer_words auto c :
  oauth2_bearer_call auto c
  = match auth_words c with
    | sch :: ws =>
        if bool_decide (str_lower sch = $"bearer") then Ok (Some (join $" " ws)) else refuse auto oauth2_error
    | [] => refuse auto oauth2_error
    end.
Proof.
  unfold oauth2_bearer_call. rewrite scheme_param_auth.
  destruct (auth_words c) as [|sch ws] eqn:E; [by rewrite orb_true_r|].
  rewrite (auth_words_falsy c) by (by rewrite E). cbn [orb]. by destruct (bool_decide _).
Qed.

(** ** Properties *)
Lemma lower_not_space c : is_space c = true -> lower_char c = c.
Proof.
  unfold is_space, lower_char, ascii_upper_letter. intros Hc.
  assert (in_range 65 90 c = false ∧ (in_range 192 222 c) = false) as [-> ->]; [|done].
  rewrite !in_range_false. repeat rewrite orb_true_iff in Hc. rewrite !in_range_spec, !N.eqb_eq in Hc. lia.
Qed.

Lemma lower_word_no_space s w : str_lower s = w -> no_space w -> no_space s.
Proof.
  intros <- Hw. unfold no_space, str_lower in *. rewrite Forall_fmap in Hw.
  eapply Forall_impl; [exact Hw|]. intros c Hc. simpl in Hc.
  destruct (is_space c) eqn:E; [|done]. by rewrite (lower_not_space c E), E in Hc.
Qed.

(** HTTP Basic credentials are read as they were written.  For an ASCII user
    name without a colon and an ASCII password, a request whose one
    [Authorization] header is the word [basic] in any letter case, white space and
    the base64 text of [user:password], with any white space around them, gives
    exactly that user name and password.  Conversely credentials are only given
    when the header begins with the word [basic] and the rest decodes to the user
    name, a colon and the password.  Nothing else is ever raised than the 401
    with the scheme's challenge, and [None] is returned only with
    [auto_error=False] and only when the header does not name the scheme; text
    that does not decode is refused in either case. *)
Theorem basic_credentials_roundtrip (b : HTTPBase) (sc : Scope) :
  let c := HTTPConn.mkConn sc None None None in
  let error := unauthorized (basic_authenticate_headers b) in
  (∀ pre sch mid user pass post,
     all_space pre -> all_space mid -> mid ≠ [] -> all_space post ->
     str_lower sch = $"basic" -> is_ascii user = true -> is_ascii pass = true -> 58%N ∉ user ->
     header_values (get_or (sc_headers sc) []) $"Authorization"
       = [pre ++ sch ++ mid ++ b64encode (user ++ $":" ++ pass) ++ post] ->
     basic_call b c = Ok (Some (mkBasic user pass)))
  ∧ (∀ user pass, basic_call b c = Ok (Some (mkBasic user pass)) ->
       ∃ sch ws, auth_words c = sch :: ws ∧ str_lower sch = $"basic" ∧ (58%N ∉ user)
         ∧ b64decode (join $" " ws) = Ok (user ++ $":" ++ pass))
  ∧ (∀ e, basic_call b c = Raise e -> e = error)
  ∧ (basic_call b c = Ok None ↔
     auto_error b = false ∧ ¬ ∃ sch ws, auth_words c = sch :: ws ∧ str_lower sch = $"basic").
Proof.
  intros c error. rewrite basic_call_words. fold error. split_and!.
  - intros pre sch mid user pass post Hpre Hmid Hne Hpost Hsch Hu Hp Hcolon Hv.
    assert (Hdata : is_ascii (user ++ $":" ++ pass) = true).
    { unfold is_ascii in *. by rewrite !forallb_app, Hu, Hp. }
    assert (Hb : Forall (fun x => (x < 256)%N) (user ++ $":" ++ pass)).
    { eapply Forall_impl; [by apply is_ascii_Forall|]. simpl. lia. }
    assert (Hns : no_space sch) by (eapply lower_word_no_space; [exact Hsch|by repeat constructor]).
    unfold auth_words, c. rewrite (authorization_single sc _ Hv).
    rewrite split_words_spaces by done. rewrite split_words_word; [|done| |done..]; [|by intros ->].
    rewrite split_words_last; [|..|done].
    + rewrite bool_decide_true by done. cbn [join]. rewrite b64decode_encode by done. cbn [rbind].
      unfold decode_ascii. rewrite Hdata. change ($":" ++ pass) with (58%N :: pass). by rewrite partition_app.
    + eapply Forall_impl; [by apply b64encode_chars|]. by intros ? [??].
    + intros [_ [Hnil _]%app_nil]%b64encode_nil%app_nil. done.
  - intros user pass. destruct (auth_words c) as [|sch ws]; [by destruct (auto_error b)|].
    case_bool_decide as Hs; [|by destruct (auto_error b)].
    destruct (b64decode (join $" " ws)) as [data|] eqn:E; simpl; [|done].
    unfold decode_ascii. destruct (is_ascii data); [|done].
    destruct (partition 58 data) as [[u sep] p] eqn:Ep. destruct sep; [|done]. intros [= <- <-].
    apply partition_spec in Ep as [? ->]. by exists sch, ws.
  - intros e. repeat case_match; simplify_eq; try done; destruct (auto_error b); simpl in *; congruence.
  - destruct (auth_words c) as [|sch ws].
    + destruct (auto_error b); simpl; split; try done; [by intros [? _]|].
      intros _. split; [done|]. by intros (?&?&?&?).
    + case_bool_decide as Hs.
      * split; [repeat case_match; done|]. intros [_ []]. by exists sch, ws.
      * destruct (auto_error b); simpl; split; try done; [by intros [? _]|].
        intros _. split; [done|]. intros (?&?&[= <- <-]&?). done.
Qed.

Definition auth_scope (value : str) : Scope :=
  mkScope Http $"/" None None None None None None None (Some [($"authorization", value)]) None None
    false false.

Lemma basic_credentials_roundtrip_witness :
  basic_call (basic_init None None true)
    (HTTPConn.mkConn (auth_scope $"BASIC  YWxpY2U6c2VjcmV0OjE=") None None None)
  = Ok (Some (mkBasic $"alice" $"secret:1")).
Proof.
  destruct (basic_credentials_roundtrip (basic_init None None true)
    (auth_scope $"BASIC  YWxpY2U6c2VjcmV0OjE=")) as [H _].
  apply (H [] $"BASIC" $"  " $"alice" $"secret:1" []); try reflexivity; try done; try (repeat constructor).
  apply contains_char_false. reflexivity.
Defined.

(** The bearer schemes agree on the token.  [HTTPBearer] gives credentials
    exactly when the [Authorization] header consists of the word [bearer], in any
    letter case, and at least one more word; the token is the other words joined
    by single spaces.  The OAuth2 bearer schemes give the same token for the same
    requests, and besides them accept the scheme without a token, for which they
    return the empty text.  Every other request is refused: [None] with
    [auto_error=False], else the 401 with a [Bearer] challenge. *)
Theorem bearer_schemes_agree (name : option str) (auto : bool) (c : HTTPConn.HTTPConnection) :
  let b := bearer_init name auto in
  (∀ sch token, bearer_call b c = Ok (Some (mkCredentials sch token)) ↔
     ∃ ws, auth_words c = sch :: ws ∧ ws ≠ [] ∧ str_lower sch = $"bearer" ∧ token = join $" " ws)
  ∧ (∀ token, oauth2_bearer_call auto c = Ok (Some token) ↔
       (∃ sch, bearer_call b c = Ok (Some (mkCredentials sch token)))
       ∨ (token = [] ∧ ∃ sch, auth_words c = [sch] ∧ str_lower sch = $"bearer"))
  ∧ ((∃ cr, bearer_call b c = Ok (Some cr))
     ∨ bearer_call b c = if auto then Raise (unauthorized (challenge $"Bearer")) else Ok None)
  ∧ ((∃ t, oauth2_bearer_call auto c = Ok (Some t))
     ∨ oauth2_bearer_call auto c = if auto then Raise (unauthorized (challenge $"Bearer")) else Ok None).
Proof.
  intros b. unfold bearer_call. rewrite scheme_call_words, oauth2_bearer_words.
  change (base_authenticate_headers b) with (challenge $"Bearer").
  change oauth2_error with (unauthorized (challenge $"Bearer")). unfold refuse.
  change (auto_error b) with auto.
  destruct (auth_words c) as [|sch [|w ws]].
  - destruct auto; naive_solver.
  - case_bool_decide; destruct auto; naive_solver.
  - case_bool_decide as Hs; [|destruct auto; naive_solver]. split_and!; [|..]; naive_solver.
Qed.

Lemma scopes_roundtrip l :
  Forall (fun w => w ≠ [] ∧ no_space w) l ->
  form_scopes (password_form_init None [] [] (scope_str (security_scopes_init (Some l))) None None) = l.
Proof. apply split_words_join. Qed.
