(* ===== verification/MutableHeaders.v ===== *)
(** * MutableHeaders: the header view of [_response.py]

    A mutable mapping over a raw header list with an index from lower-cased
    names to positions.  The raw list is shared with the response that owns
    it; the operations return the new list. *)

From S2P Require Import Prelude PyStr Asgi.

Module MH.
Record MutableHeaders : Type := mkMH {
  _raw : raw_headers;
  _index : list (bytes * nat)
}.

(** [for i, (name, _) in enumerate(raw): index[name.lower()] = i] *)
Fixpoint build_index (i : nat) (raw : raw_headers) (index : list (bytes * nat))
    : list (bytes * nat) :=
  match raw with
  | [] => index
  | (name, _) :: raw' => build_index (S i) raw' (dict_set index (bytes_lower name) i)
  end.

(** [MutableHeaders(raw, scope)] *)
Definition init (raw : option raw_headers) (scope : option Scope) : MutableHeaders :=
  let r :=
    match raw, scope with
    | Some r, _ => r
    | None, Some sc => get_or (sc_headers sc) []
    | None, None => []
    end in
  mkMH r (build_index 0 r []).

Definition key_of (key : str) : result bytes := encode_latin1 (str_lower key).

(** [_find]: the position, [None] standing for [-1]. *)
Definition _find (h : MutableHeaders) (key : str) : result (option nat) :=
  let! k := key_of key in Ok (dict_get (_index h) k).

(** [self._raw[idx][1]]: an index past the end raises. *)
Definition raw_value (h : MutableHeaders) (idx : nat) : result str :=
  match _raw h !! idx with
  | Some (_, v) => Ok (decode_latin1 v)
  | None => Raise IndexError
  end.

Definition get (h : MutableHeaders) (key : str) (default : option str) : result (option str) :=
  let! idx := _find h key in
  match idx with
  | None => Ok default
  | Some i => rmap Some (raw_value h i)
  end.

Definition getlist (h : MutableHeaders) (key : str) : result (list str) :=
  let! k := key_of key in
  Ok (decode_latin1 <$> (filter (fun nv => bytes_lower nv.1 = k) (_raw h)).*2).

(** [keys]: the distinct lower-cased names, in order of first occurrence. *)
Definition keys_step (acc : list str) (h : bytes * bytes) : list str :=
  let n_lower := str_lower (decode_latin1 h.1) in
  if decide (n_lower ∈ acc) then acc else acc ++ [n_lower].
Definition keys (h : MutableHeaders) : list str := foldl keys_step [] (_raw h).

Definition values (h : MutableHeaders) : list str := decode_latin1 <$> (_raw h).*2.
Definition items (h : MutableHeaders) : list (str * str) :=
  (fun nv => (decode_latin1 nv.1, decode_latin1 nv.2)) <$> _raw h.

Definition setitem (h : MutableHeaders) (key value : str) : result MutableHeaders :=
  let! key_bytes := key_of key in
  let! value_bytes := encode_latin1 value in
  match dict_get (_index h) key_bytes with
  | Some idx =>
      if (idx <? length (_raw h))%nat
      then Ok (mkMH (<[idx := (key_bytes, value_bytes)]> (_raw h)) (_index h))
      else Raise IndexError
  | None =>
      Ok (mkMH (_raw h ++ [(key_bytes, value_bytes)])
            (dict_set (_index h) key_bytes (length (_raw h))))
  end.

Definition getitem (h : MutableHeaders) (key : str) : result str :=
  let! idx := _find h key in
  match idx with
  | None => Raise (KeyError key)
  | Some i => raw_value h i
  end.

(** [if v > idx: index[k] = v - 1] *)
Definition shift (idx i : nat) : nat := if (idx <? i)%nat then (i - 1)%nat else i.

(** [del self._raw[idx]] and the shift of the positions behind it. *)
Definition delitem (h : MutableHeaders) (key : str) : result MutableHeaders :=
  let! key_bytes := key_of key in
  match dict_get (_index h) key_bytes with
  | None => Raise (KeyError key)
  | Some idx =>
      if (idx <? length (_raw h))%nat then
        Ok (mkMH (delete idx (_raw h))
              ((fun kv => (kv.1, shift idx kv.2)) <$> dict_del (_index h) key_bytes))
      else Raise IndexError
  end.

Definition contains (h : MutableHeaders) (key : str) : result bool :=
  let! idx := _find h key in
  Ok (match idx with Some _ => true | None => false end).

Definition len (h : MutableHeaders) : nat := length (_raw h).

(** [append]: the name is indexed before the value is encoded, so the object
    also changes when the encoding fails. *)
Definition append (h : MutableHeaders) (key value : str) : MutableHeaders * result unit :=
  match key_of key with
  | Raise e => (h, Raise e)
  | Ok key_bytes =>
      let index :=
        if dict_mem (_index h) key_bytes then _index h
        else dict_set (_index h) key_bytes (length (_raw h)) in
      match encode_latin1 value with
      | Raise e => (mkMH (_raw h) index, Raise e)
      | Ok value_bytes => (mkMH (_raw h ++ [(key_bytes, value_bytes)]) index, Ok tt)
      end
  end.

Definition update (h : MutableHeaders) (pairs : list (str * str)) : result MutableHeaders :=
  rfold (fun h '(k, v) => setitem h k v) h pairs.

(** ** The index invariant *)

(** Every indexed name points at an entry of that name. *)
Definition index_sound (h : MutableHeaders) : Prop :=
  ∀ k i, dict_get (_index h) k = Some i ->
    ∃ n v, _raw h !! i = Some (n, v) ∧ bytes_lower n = k.

(** Every entry's name is indexed. *)
Definition index_complete (h : MutableHeaders) : Prop :=
  ∀ i n v, _raw h !! i = Some (n, v) -> is_Some (dict_get (_index h) (bytes_lower n)).

Definition index_ok (h : MutableHeaders) : Prop :=
  dict_wf (_index h) ∧ index_sound h.

(** The values stored under a lower-cased name. *)
Definition raw_values (raw : raw_headers) (k : bytes) : list bytes :=
  (filter (fun nv => bytes_lower nv.1 = k) raw).*2.

(** ** Lemmas *)
Lemma key_of_Ok key k : key_of key = Ok k -> k = str_lower key ∧ bytes_lower k = k.
Proof. intros [-> _]%encode_latin1_Ok. split; [done|]. apply bytes_lower_str_lower. Qed.

Lemma lookup_snoc_cases (raw : raw_headers) (e x : bytes * bytes) i :
  (raw ++ [e]) !! i = Some x -> raw !! i = Some x ∨ (i = length raw ∧ x = e).
Proof.
  intros H. apply lookup_app_Some in H as [H|[Hle H]]; [by left|right].
  apply list_lookup_singleton_Some in H as [? <-]. split; [lia|done].
Qed.

Lemma snoc_ok raw index k v :
  bytes_lower k = k -> index_ok (mkMH raw index) -> dict_get index k = None ->
  index_ok (mkMH (raw ++ [(k, v)]) (dict_set index k (length raw))).
Proof.
  intros Hk [Hwf Hs] Hn. split; [by apply dict_set_wf|].
  intros k' i. simpl. rewrite dict_get_set. case_decide as D.
  - intros [= <-]. exists k, v. rewrite lookup_app_r, Nat.sub_diag by lia. subst k'. done.
  - intros H. destruct (Hs _ _ H) as (n & w & Hl & Hb). exists n, w. split; [|done].
    by apply lookup_app_l_Some.
Qed.

Lemma snoc_old_ok raw index k v :
  index_ok (mkMH raw index) -> index_ok (mkMH (raw ++ [(k, v)]) index).
Proof.
  intros [Hwf Hs]. split; [done|]. intros k' i H.
  destruct (Hs _ _ H) as (n & w & Hl & Hb). exists n, w. split; [|done].
  by apply lookup_app_l_Some.
Qed.

Lemma snoc_complete raw index index' k v :
  index_complete (mkMH raw index) ->
  (∀ k', is_Some (dict_get index k') -> is_Some (dict_get index' k')) ->
  is_Some (dict_get index' (bytes_lower k)) ->
  index_complete (mkMH (raw ++ [(k, v)]) index').
Proof.
  intros Hc Hi Hk i n w [H|[-> [= -> ->]]]%lookup_snoc_cases; [|done].
  by apply Hi, (Hc i n w).
Qed.

Lemma build_index_spec raw : ∀ pre index,
  index_ok (mkMH pre index) -> index_complete (mkMH pre index) ->
  index_ok (mkMH (pre ++ raw) (build_index (length pre) raw index))
  ∧ index_complete (mkMH (pre ++ raw) (build_index (length pre) raw index)).
Proof.
  induction raw as [|[n v] raw IH]; intros pre index Hok Hc; simpl.
  - by rewrite app_nil_r.
  - replace (pre ++ (n, v) :: raw) with ((pre ++ [(n, v)]) ++ raw) by (by rewrite <-app_assoc).
    replace (S (length pre)) with (length (pre ++ [(n, v)])) by (rewrite length_app; simpl; lia).
    apply IH.
    + split; [apply dict_set_wf, Hok|]. intros k i. simpl. rewrite dict_get_set. case_decide as D.
      * intros [= <-]. exists n, v. by rewrite lookup_app_r, Nat.sub_diag by lia.
      * intros H. destruct (proj2 Hok _ _ H) as (n' & w & Hl & Hb). exists n', w.
        split; [|done]. by apply lookup_app_l_Some.
    + eapply snoc_complete; [exact Hc| |by rewrite dict_get_set_eq].
      intros k' Hk'. rewrite dict_get_set. by case_decide.
Qed.

Lemma init_ok raw sc : index_ok (init raw sc) ∧ index_complete (init raw sc).
Proof.
  unfold init. apply (build_index_spec _ [] []).
  - split; [constructor|]. intros k i H. done.
  - intros i n v H. done.
Qed.

Lemma setitem_ok h key value h' :
  index_ok h -> setitem h key value = Ok h' ->
  index_ok h' ∧ (index_complete h -> index_complete h').
Proof.
  destruct h as [raw index]. unfold setitem. intros Hok H. inv_ok. simpl in *.
  destruct (key_of_Ok _ _ H0) as [_ Hb].
  destruct (dict_get index x) as [i|] eqn:E.
  - destruct (Nat.ltb_spec i (length raw)); simplify_eq. split.
    + split; [apply Hok|]. intros k j Hj. destruct (proj2 Hok _ _ Hj) as (n & v & Hl & Hn).
      simpl in *. destruct (decide (i = j)) as [->|Hne].
      * exists x, x0. rewrite list_lookup_insert_eq by done. split; [done|].
        destruct (proj2 Hok _ _ E) as (n' & v' & Hl' & Hn'). simpl in *. congruence.
      * exists n, v. by rewrite list_lookup_insert_ne.
    + intros Hc j n v. simpl. intros Hl.
      destruct (decide (i = j)) as [->|Hne].
      * rewrite list_lookup_insert_eq in Hl by done. simplify_eq. rewrite Hb. by eexists.
      * rewrite list_lookup_insert_ne in Hl by done. by apply (Hc j n v).
  - simplify_eq. split; [by apply snoc_ok|]. intros Hc.
    eapply snoc_complete; [exact Hc| |rewrite Hb, dict_get_set_eq; by eexists].
    intros k' Hk'. rewrite dict_get_set. by case_decide.
Qed.

Lemma append_ok h key value h' :
  index_ok h -> append h key value = (h', Ok tt) ->
  index_ok h' ∧ (index_complete h -> index_complete h').
Proof.
  destruct h as [raw index]. unfold append. intros Hok H.
  destruct (key_of key) as [k|] eqn:Ek; [|done].
  destruct (encode_latin1 value) as [v|] eqn:Ev; [|done].
  destruct (key_of_Ok _ _ Ek) as [_ Hb]. unfold dict_mem in H. simpl in *.
  destruct (dict_get index k) as [i|] eqn:E; simplify_eq.
  - split; [by apply snoc_old_ok|]. intros Hc.
    eapply snoc_complete; [exact Hc|done|]. rewrite Hb, E. by eexists.
  - split; [by apply snoc_ok|]. intros Hc.
    eapply snoc_complete; [exact Hc| |rewrite Hb, dict_get_set_eq; by eexists].
    intros k' Hk'. rewrite dict_get_set. by case_decide.
Qed.

Lemma lookup_delete_shift (raw : raw_headers) idx i e :
  raw !! i = Some e -> i ≠ idx ->
  delete idx raw !! (shift idx i) = Some e.
Proof.
  intros H Hne. unfold shift. destruct (Nat.ltb_spec idx i).
  - rewrite list_lookup_delete_ge by lia. by replace (S (i - 1)) with i by lia.
  - by rewrite list_lookup_delete_lt by lia.
Qed.

Lemma delitem_spec h key h' :
  index_ok h -> delitem h key = Ok h' ->
  ∃ idx v, dict_get (_index h) (str_lower key) = Some idx
    ∧ (∃ n, _raw h !! idx = Some (n, v) ∧ bytes_lower n = str_lower key)
    ∧ _raw h' = delete idx (_raw h)
    ∧ dict_wf (_index h')
    ∧ (∀ k, dict_get (_index h') k
         = if decide (str_lower key = k) then None
           else shift idx <$> dict_get (_index h) k).
Proof.
  intros [Hwf Hs] H. unfold delitem in H. inv_ok. destruct (key_of_Ok _ _ H0) as [-> _].
  destruct (dict_get (_index h) (str_lower key)) as [idx|] eqn:E; [|done].
  destruct (Nat.ltb_spec idx (length (_raw h))); simplify_eq.
  destruct (Hs _ _ E) as (n & v & Hl & Hn). exists idx, v. split_and!; [done|by eexists|done| |].
  - unfold dict_wf. cbn [_index]. rewrite (dict_keys_fmap (shift idx)). by apply dict_del_wf.
  - intros k. cbn [_index]. rewrite (dict_get_fmap (shift idx)), dict_get_del by done. by case_decide.
Qed.

Lemma delitem_ok h key h' : index_ok h -> delitem h key = Ok h' -> index_ok h'.
Proof.
  intros Hok H. destruct (delitem_spec _ _ _ Hok H) as (idx & v & E & _ & Hr & Hwf & Hi).
  split; [done|]. intros k i. rewrite Hi, Hr. case_decide as D; [done|].
  destruct (dict_get (_index h) k) as [j|] eqn:Ej; [|done]. intros [= <-].
  destruct (proj2 Hok _ _ Ej) as (n & w & Hl & Hn). exists n, w. split; [|done].
  apply lookup_delete_shift; [done|]. intros ->.
  destruct (proj2 Hok _ _ E) as (n' & w' & Hl' & Hn'). congruence.
Qed.

Lemma get_index h key default :
  index_ok h ->
  get h key default
  = (let! k := key_of key in
     Ok (match dict_get (_index h) k with
         | Some i => snd <$> _raw h !! i
         | None => default
         end)).
Proof.
  intros [_ Hs]. unfold get, _find. destruct (key_of key) as [k|]; [|done]. simpl.
  destruct (dict_get (_index h) k) as [i|] eqn:E; [|done].
  destruct (Hs _ _ E) as (n & v & Hl & _). unfold raw_value. by rewrite Hl.
Qed.

Lemma raw_values_delete raw idx n v k :
  raw !! idx = Some (n, v) ->
  raw_values raw k ≡ₚ (if decide (bytes_lower n = k) then [v] else []) ++ raw_values (delete idx raw) k.
Proof.
  intros H. unfold raw_values.
  assert (Hp : raw ≡ₚ (n, v) :: delete idx raw) by (by apply delete_Permutation).
  rewrite Hp at 1. rewrite filter_cons. simpl. by case_decide.
Qed.

Lemma delitem_others h key h' key' default :
  index_ok h -> delitem h key = Ok h' -> str_lower key' ≠ str_lower key ->
  get h' key' default = get h key' default.
Proof.
  intros Hok H Hne. pose proof (delitem_ok _ _ _ Hok H) as Hok'.
  destruct (delitem_spec _ _ _ Hok H) as (idx & v & E & (n & Hl & Hn) & Hr & _ & Hi).
  rewrite !get_index by done. destruct (key_of key') as [k'|] eqn:Ek; [|done]. simpl.
  destruct (key_of_Ok _ _ Ek) as [-> _]. rewrite Hi, decide_False by done.
  destruct (dict_get (_index h) (str_lower key')) as [j|] eqn:Ej; [|done]. simpl.
  destruct (proj2 Hok _ _ Ej) as (n' & w & Hl' & Hn').
  rewrite Hr, (lookup_delete_shift _ _ _ (n', w)); [by rewrite Hl'|done|]. intros ->. congruence.
Qed.

(** ** Main theorems *)

(** C40: the O(1) index of [MutableHeaders] stays consistent with the header
    list: building the view indexes every name soundly, and [__setitem__],
    [__delitem__] and a successful [append] keep every indexed position
    pointing at an entry of that name, so no lookup ever reads a wrong
    header; set and append also keep every name indexed. *)
Theorem mutable_headers_invariant :
  (∀ raw sc, index_ok (init raw sc) ∧ index_complete (init raw sc))
  ∧ (∀ h key value h', index_ok h -> setitem h key value = Ok h' ->
       index_ok h' ∧ (index_complete h -> index_complete h'))
  ∧ (∀ h key value h', index_ok h -> append h key value = (h', Ok tt) ->
       index_ok h' ∧ (index_complete h -> index_complete h'))
  ∧ (∀ h key h', index_ok h -> delitem h key = Ok h' -> index_ok h').
Proof. split_and!; [exact init_ok|exact setitem_ok|exact append_ok|exact delitem_ok]. Qed.

(** Assignment through the view: after [h[key] = value] the key reads back
    as [value], every other key reads as before, and the list grew by one
    entry exactly when the key was new. *)
Theorem mutable_headers_set_get h key value h' key' default :
  index_ok h -> setitem h key value = Ok h' ->
  get h' key default = Ok (Some value)
  ∧ (str_lower key' ≠ str_lower key -> get h' key' default = get h key' default)
  ∧ len h' = (if dict_mem (_index h) (str_lower key) then len h else S (len h)).
Proof.
  intros Hok H. destruct (setitem_ok _ _ _ _ Hok H) as [Hok' _].
  rewrite !get_index by done. unfold setitem in H. inv_ok.
  destruct (key_of_Ok _ _ H0) as [-> Hb]. destruct (encode_latin1_Ok _ _ H1) as [-> _].
  rewrite H0. simpl. unfold dict_mem, len.
  destruct (dict_get (_index h) (str_lower key)) as [i|] eqn:E.
  - destruct (Nat.ltb_spec i (length (_raw h))); simplify_eq. cbn [_index _raw].
    rewrite E, list_lookup_insert_eq, length_insert by done. split_and!; [done| |done].
    intros Hne. destruct (key_of key') as [k'|] eqn:Ek; [|done]. simpl.
    destruct (key_of_Ok _ _ Ek) as [-> _].
    destruct (dict_get (_index h) (str_lower key')) as [j|] eqn:Ej; [|done].
    rewrite list_lookup_insert_ne; [done|]. intros ->.
    destruct (proj2 Hok _ _ E) as (? & ? & ? & ?), (proj2 Hok _ _ Ej) as (? & ? & ? & ?). congruence.
  - simplify_eq. cbn [_index _raw]. rewrite dict_get_set_eq, lookup_app_r, Nat.sub_diag by lia.
    rewrite length_app. split_and!; [done| |simpl; lia].
    intros Hne. destruct (key_of key') as [k'|] eqn:Ek; [|done]. simpl.
    destruct (key_of_Ok _ _ Ek) as [-> _]. rewrite dict_get_set_ne by done.
    destruct (dict_get (_index h) (str_lower key')) as [j|] eqn:Ej; [|done].
    destruct (proj2 Hok _ _ Ej) as (? & ? & Hl & ?). by rewrite lookup_app_l by (by eapply lookup_lt_Some).
Qed.

Lemma mutable_headers_set_get_witness :
  ∃ h', setitem (init (Some [($"x-a", $"1")]) None) $"X-B" $"2" = Ok h'
    ∧ get h' $"x-b" None = Ok (Some $"2") ∧ len h' = 2%nat.
Proof.
  eexists. split; [reflexivity|].
  destruct (mutable_headers_set_get (init (Some [($"x-a", $"1")]) None) $"X-B" $"2" _ $"x-a" None
    (proj1 (init_ok _ _)) eq_refl) as (Hg & _ & Hl).
  split; [exact Hg|]. rewrite Hl. reflexivity.
Defined.

(** Deletion through the view removes one entry of the name and hides the
    key: afterwards [key in h] is false and every other key reads as before;
    the name is gone from the list exactly when it had a single entry, and
    otherwise [getlist] still returns the entries that were left behind. *)
Theorem mutable_headers_delete h key h' :
  index_ok h -> delitem h key = Ok h' ->
  contains h' key = Ok false
  ∧ (∃ v, raw_values (_raw h) (str_lower key) ≡ₚ v :: raw_values (_raw h') (str_lower key)
       ∧ getlist h' key = Ok (raw_values (_raw h') (str_lower key)))
  ∧ (∀ key' default, str_lower key' ≠ str_lower key -> get h' key' default = get h key' default)
  ∧ S (len h') = len h.
Proof.
  intros Hok H. destruct (delitem_spec _ _ _ Hok H) as (idx & v & E & (n & Hl & Hn) & Hr & _ & Hi).
  assert (Hk : key_of key = Ok (str_lower key)).
  { unfold delitem in H. inv_ok. by destruct (key_of_Ok _ _ H0) as [-> _]. }
  split_and!.
  - unfold contains, _find. rewrite Hk. simpl. by rewrite Hi, decide_True.
  - exists v. split.
    + rewrite (raw_values_delete _ idx n v) by done. by rewrite decide_True, Hr.
    + unfold getlist. rewrite Hk. simpl. f_equal. unfold decode_latin1. by rewrite list_fmap_id.
  - intros. by eapply delitem_others.
  - unfold len. rewrite Hr. apply lookup_lt_Some in Hl as Hlt.
    rewrite length_delete by (by eexists). lia.
Qed.

(** The witness also shows the entry that stays behind when a name was sent
    twice. *)
Lemma mutable_headers_delete_witness :
  ∃ h', delitem (init (Some [($"set-cookie", $"a=1"); ($"set-cookie", $"b=2")]) None) $"Set-Cookie" = Ok h'
    ∧ contains h' $"set-cookie" = Ok false ∧ getlist h' $"set-cookie" = Ok [$"a=1"].
Proof.
  eexists. split; [reflexivity|].
  destruct (mutable_headers_delete
    (init (Some [($"set-cookie", $"a=1"); ($"set-cookie", $"b=2")]) None) $"Set-Cookie" _
    (proj1 (init_ok _ _)) eq_refl) as (Hc & (v & _ & Hg) & _).
  split; [exact Hc|]. etransitivity; [exact Hg|]. reflexivity.
Defined.
End MH.
