(* ===== verification/Responses.v ===== *)
(** * Responses: the response classes of [_response.py]

    [Response] and its subclasses as records that carry the status, the body
    and the raw header list; [__call__] produces the ASGI events.  The JSON
    encoder (orjson or the compiled core) and the file system are parameters. *)

From S2P Require Import Prelude PyStr Asgi MutableHeaders.

(** ** Response *)
Inductive content : Type := CNone | CBytes (b : bytes) | CStr (s : str).

(** [background]: what awaiting the background task does; [None] without one. *)
Record Response : Type := mkResponse {
  status_code : Z;
  media_type : option str;
  body : bytes;
  _raw_headers : raw_headers;
  background : option (result unit)
}.

Definition with_headers (r : Response) (hs : raw_headers) : Response :=
  mkResponse (status_code r) (media_type r) (body r) hs (background r).

(** [_set_raw_header]: replace the first entry of the name, or append. *)
Fixpoint set_raw_header (hs : raw_headers) (name value : bytes) : raw_headers :=
  match hs with
  | [] => [(bytes_lower name, value)]
  | (n, v) :: hs' =>
      if decide (bytes_lower n = bytes_lower name) then (bytes_lower name, value) :: hs'
      else (n, v) :: set_raw_header hs' name value
  end.

(** [render] of the base class. *)
Definition render (c : content) : result bytes :=
  match c with
  | CNone => Ok []
  | CBytes b => Ok b
  | CStr s => utf8_encode s
  end.

(** The raw list built from a header dictionary. *)
Definition raw_of_dict (headers : list (str * str)) : result raw_headers :=
  rmapM (fun '(k, v) =>
    let! kb := encode_latin1 (str_lower k) in
    let! vb := encode_latin1 v in Ok (kb, vb)) headers.

(** [text/*] media types get a charset unless they name one. *)
Definition content_type_of (mt : str) : str :=
  if startswith mt $"text/" && negb (contains $"charset=" mt)
  then mt ++ $"; charset=utf-8" else mt.

Definition _populate_content_headers (r : Response) : result Response :=
  if bool_decide (status_code r = 204 ∨ status_code r = 304) then
    Ok (mkResponse (status_code r) (media_type r) [] (_raw_headers r) (background r))
  else
    let! hs :=
      match media_type r with
      | Some mt =>
          let! v := encode_latin1 (content_type_of mt) in
          Ok (set_raw_header (_raw_headers r) $"content-type" v)
      | None => Ok (_raw_headers r)
      end in
    Ok (with_headers r (set_raw_header hs $"content-length" (N_to_str (N.of_nat (length (body r)))))).

(** [Response.__init__]; [cls_media_type] is the class attribute and [rnd] the
    class's [render]. *)
Definition init_response (rnd : content -> result bytes) (cls_media_type : option str)
    (c : content) (status : Z) (headers : list (str * str)) (mt : option str)
    (bg : option (result unit)) : result Response :=
  let media := override mt cls_media_type in
  let! b := rnd c in
  let! raw := raw_of_dict headers in
  _populate_content_headers (mkResponse status media b raw bg).

Definition response := init_response render None.
Definition HTMLResponse := init_response render (Some $"text/html").
Definition PlainTextResponse := init_response render (Some $"text/plain").

(** [JSONResponse.render]: [None] is [null]; anything else goes through the
    encoder, whose input type is left abstract. *)
Section json.
Context {J : Type} (json_dumps : J -> result bytes).

Definition json_render (c : option J) : result bytes :=
  match c with
  | None => Ok $"null"
  | Some j => json_dumps j
  end.

Definition JSONResponse (c : option J) (status : Z) (headers : list (str * str))
    (mt : option str) (bg : option (result unit)) : result Response :=
  let! b := json_render c in
  init_response render (Some $"application/json") (CBytes b) status headers mt bg.
End json.

Definition redirect_safe : str := $":/%#?=@[]!$&'()*+,;".

Definition RedirectResponse (url : str) (status : Z) (headers : list (str * str))
    (bg : option (result unit)) : result Response :=
  let! loc := quote redirect_safe url in
  init_response render None (CBytes []) status (dict_set headers $"location" loc) None bg.

(** [Response.__call__] for a response without a file. *)
Definition send_response (r : Response) : run :=
  run_seq (run_ok [ResponseStart (status_code r) (_raw_headers r); ResponseBody (body r) false])
    (mkRun [] (get_or (background r) (Ok tt))).

(** ** Cookies: [http.cookies.BaseCookie] as [set_cookie] uses it *)
Definition cookie_legal_char (c : N) : bool :=
  ascii_upper_letter c || ascii_lower_letter c || is_digit c
  || contains_char c $"!#$%&'*+-.^_`|~:".

Definition cookie_reserved : list str :=
  [$"expires"; $"path"; $"comment"; $"domain"; $"max-age"; $"secure"; $"httponly";
   $"version"; $"samesite"; $"partitioned"].

Definition cookie_attr (name : str) (v : option str) : list str :=
  match v with
  | Some ((_ :: _) as t) => [name ++ $"=" ++ t]
  | _ => []
  end.

(** [Morsel.OutputString]: the coded value is the value itself, attributes
    follow in the order of their keys. *)
Definition morsel_output (key value : str) (max_age expires : option Z) (path : str)
    (domain : option str) (secure httponly : bool) (samesite : option str) : str :=
  join $"; "
    ([key ++ $"=" ++ value]
     ++ cookie_attr $"Domain" domain
     ++ cookie_attr $"expires" (Z_to_str <$> expires)
     ++ (if httponly then [$"HttpOnly"] else [])
     ++ cookie_attr $"Max-Age" (Z_to_str <$> max_age)
     ++ cookie_attr $"Path" (Some path)
     ++ cookie_attr $"SameSite" samesite
     ++ (if secure then [$"Secure"] else [])).

Definition set_cookie (r : Response) (key value : str) (max_age expires : option Z) (path : str)
    (domain : option str) (secure httponly : bool) (samesite : option str) : result Response :=
  if bool_decide (str_lower key ∈ cookie_reserved) then
    Raise (CookieError ($"Attempt to set a reserved key " ++ key))
  else if negb (bool_decide (key ≠ []) && forallb cookie_legal_char key) then
    Raise (CookieError ($"Illegal key " ++ key))
  else
    let! v := encode_latin1
                (morsel_output key value max_age expires path domain secure httponly samesite) in
    Ok (with_headers r (_raw_headers r ++ [($"set-cookie", v)])).

Definition delete_cookie (r : Response) (key path : str) (domain : option str)
    (secure httponly : bool) (samesite : option str) : result Response :=
  set_cookie r key [] (Some 0) (Some 0) path domain secure httponly samesite.

(** ** StreamingResponse *)
Inductive chunk : Type := ChBytes (b : bytes) | ChStr (s : str).

Definition chunk_bytes (c : chunk) : result bytes :=
  match c with
  | ChBytes b => Ok b
  | ChStr s => utf8_encode s
  end.

Definition StreamingResponse (cls_media_type : option str) (status : Z)
    (headers : list (str * str)) (mt : option str) (bg : option (result unit)) : result Response :=
  let media := override mt cls_media_type in
  let! raw := raw_of_dict headers in
  let! hs :=
    match media with
    | Some m =>
        let! v := encode_latin1 (content_type_of m) in Ok (set_raw_header raw $"content-type" v)
    | None => Ok raw
    end in
  Ok (mkResponse status media [] hs bg).

(** The loop over the body iterator, which yields [chunks] and then stops or
    raises ([fin]). *)
Fixpoint stream_chunks (chunks : list chunk) (fin : result unit) : run :=
  match chunks with
  | [] => mkRun [] fin
  | c :: cs =>
      match chunk_bytes c with
      | Raise e => run_raise [] e
      | Ok b => run_seq (run_ok [ResponseBody b true]) (stream_chunks cs fin)
      end
  end.

Definition send_streaming (r : Response) (chunks : list chunk) (fin : result unit) : run :=
  run_seq (run_ok [ResponseStart (status_code r) (_raw_headers r)])
    (run_seq (stream_chunks chunks fin)
       (run_seq (run_ok [ResponseBody [] false])
          (mkRun [] (get_or (background r) (Ok tt))))).

(** ** Server-sent events *)
Inductive sse_data : Type :=
  | SNone
  | SText (s : str)
  | SBytes (b : bytes)
  | SJson (dumped : bytes).

(** [SJson] carries the JSON text of a dictionary. *)
Definition sse_text (d : sse_data) : result (option str) :=
  match d with
  | SNone => Ok None
  | SText s => Ok (Some s)
  | SBytes b | SJson b => rmap Some (utf8_decode_strict b)
  end.

Definition opt_line (label : str) (v : option str) : list str :=
  match v with Some t => [label ++ t] | None => [] end.

Definition _sse_format_event (data : sse_data) (event id : option str) (retry : option Z)
    : result str :=
  let! text := sse_text data in
  let parts :=
    opt_line $"event: " event
    ++ opt_line $"id: " id
    ++ opt_line $"retry: " (Z_to_str <$> retry)
    ++ (match text with
        | Some t => (fun line => $"data: " ++ line) <$> split_on 10 t
        | None => []
        end)
    ++ [[]; []] in
  Ok (join [10%N] parts).

(** An item of the source iterator: a structured event, a dictionary with
    optional keys, or any other value. *)
Inductive sse_item : Type :=
  | SseEvent (data : sse_data) (event id : option str) (retry : option Z)
  | SseDict (data : option sse_data) (event id : option str) (retry : option Z)
  | SsePlain (data : sse_data).

Definition _sse_format_item (it : sse_item) : result str :=
  match it with
  | SseEvent d e i r => _sse_format_event d e i r
  | SseDict d e i r => _sse_format_event (get_or d (SText [])) e i r
  | SsePlain d => _sse_format_event d None None None
  end.

Definition EventSourceResponse (status : Z) (headers : list (str * str))
    (bg : option (result unit)) : result Response :=
  let merged :=
    dict_setdefault
      (dict_setdefault (dict_setdefault headers $"cache-control" $"no-cache")
         $"connection" $"keep-alive")
      $"x-accel-buffering" $"no" in
  StreamingResponse (Some $"text/event-stream") status merged None bg.

(** ** FileResponse *)

(** [email.utils.formatdate(t, usegmt=True)] for whole seconds since 1970. *)
Definition pad2 (n : Z) : str := if n <? 10 then 48%N :: Z_to_str n else Z_to_str n.
Definition pad4 (n : Z) : str := replicate (4 - length (Z_to_str n)) 48%N ++ Z_to_str n.

Definition day_names : list str := [$"Mon"; $"Tue"; $"Wed"; $"Thu"; $"Fri"; $"Sat"; $"Sun"].
Definition month_names : list str :=
  [$"Jan"; $"Feb"; $"Mar"; $"Apr"; $"May"; $"Jun"; $"Jul"; $"Aug"; $"Sep"; $"Oct"; $"Nov"; $"Dec"].

(** Days since 1970-01-01 to (year, month, day) in the Gregorian calendar. *)
Definition civil_from_days (days : Z) : Z * Z * Z :=
  let z := days + 719468 in
  let era := z / 146097 in
  let doe := z - era * 146097 in
  let yoe := (doe - doe / 1460 + doe / 36524 - doe / 146096) / 365 in
  let doy := doe - (365 * yoe + yoe / 4 - yoe / 100) in
  let mp := (5 * doy + 2) / 153 in
  let d := doy - (153 * mp + 2) / 5 + 1 in
  let m := if mp <? 10 then mp + 3 else mp - 9 in
  (yoe + era * 400 + (if m <=? 2 then 1 else 0), m, d).

Definition formatdate (t : Z) : str :=
  let days := t / 86400 in
  let secs := t mod 86400 in
  let '(y, m, d) := civil_from_days days in
  nth (Z.to_nat ((days + 3) mod 7)) day_names [] ++ $", " ++ pad2 d ++ $" "
  ++ nth (Z.to_nat (m - 1)) month_names [] ++ $" " ++ pad4 y ++ $" "
  ++ pad2 (secs / 3600) ++ $":" ++ pad2 (secs / 60 mod 60) ++ $":" ++ pad2 (secs mod 60) ++ $" GMT".

Fixpoint hex_fuel (fuel : nat) (n : N) : str :=
  match fuel with
  | O => []
  | S f => (if (n <? 16)%N then [] else hex_fuel f (n / 16)) ++ [hex_digit_lower (n mod 16)]
  end.
(** [f"{n:x}"] *)
Definition to_hex (n : N) : str := hex_fuel (S (N.size_nat n)) n.

Record stat_result : Type := mkStat { st_size : N; st_mtime : N }.

Inductive stat_outcome : Type :=
  | StatOk (st : stat_result)
  | StatNotFound
  | StatForbidden.

Section files.
(** The file system: [os.stat], reading a file ([None]: [OSError]) and
    [mimetypes.guess_type]. *)
Context (fs_stat : str -> stat_outcome) (fs_read : str -> option bytes)
        (guess_type : str -> option str).

Definition _guess_media_type (path : str) : str :=
  match guess_type path with
  | Some ((_ :: _) as m) => m
  | _ => $"application/octet-stream"
  end.

Record FileResponse : Type := mkFR {
  fr : Response;
  fr_path : str;
  fr_filename : option str;
  fr_stat : option stat_result;
  fr_header_only : bool;
  fr_disposition : str
}.

Definition with_fr (f : FileResponse) (r : Response) (st : option stat_result) : FileResponse :=
  mkFR r (fr_path f) (fr_filename f) st (fr_header_only f) (fr_disposition f).

(** The headers of a file whose [stat] succeeded. *)
Definition file_headers (hs : raw_headers) (st : stat_result) (filename : option str)
    (disposition : str) : result raw_headers :=
  let hs := set_raw_header hs $"content-length" (N_to_str (st_size st)) in
  let hs := set_raw_header hs $"last-modified" (formatdate (Z.of_N (st_mtime st))) in
  let hs := set_raw_header hs $"etag"
              ([34%N] ++ to_hex (st_mtime st) ++ $"-" ++ to_hex (st_size st) ++ [34%N]) in
  match filename with
  | Some fn =>
      let! v := encode_latin1 (disposition ++ $"; filename=" ++ [34%N] ++ fn ++ [34%N]) in
      Ok (set_raw_header hs $"content-disposition" v)
  | None => Ok hs
  end.

Definition error_file (f : FileResponse) (hs : raw_headers) (status : Z) (text : bytes)
    : FileResponse :=
  with_fr f (mkResponse status (media_type (fr f)) text
               (set_raw_header hs $"content-length" $"9") (background (fr f))) None.

Definition _populate_file_headers (f : FileResponse) : result FileResponse :=
  let r := fr f in
  let! hs :=
    match media_type r with
    | Some mt =>
        let! v := encode_latin1 (content_type_of mt) in
        Ok (set_raw_header (_raw_headers r) $"content-type" v)
    | None => Ok (_raw_headers r)
    end in
  let populate st :=
    let! hs' := file_headers hs st (fr_filename f) (fr_disposition f) in
    Ok (with_fr f (with_headers r hs') (Some st)) in
  match fr_stat f with
  | Some st => populate st
  | None =>
      match fs_stat (fr_path f) with
      | StatNotFound => Ok (error_file f hs 404 $"Not Found")
      | StatForbidden => Ok (error_file f hs 403 $"Forbidden")
      | StatOk st => populate st
      end
  end.

Definition init_file (path : str) (status : Z) (headers : list (str * str)) (mt : option str)
    (bg : option (result unit)) (filename : option str) (st : option stat_result)
    (method : option str) (disposition : str) : result FileResponse :=
  let header_only :=
    match method with Some m => bool_decide (str_upper m = $"HEAD") | None => false end in
  let media :=
    match mt with
    | Some m => m
    | None => _guess_media_type (match filename with Some ((_ :: _) as fn) => fn | _ => path end)
    end in
  let! raw := raw_of_dict headers in
  _populate_file_headers
    (mkFR (mkResponse status (Some media) [] raw bg) path filename st header_only disposition).

(** [Response.__call__] on a file response: an empty body with a path is read
    from the file, after populating the headers once more. *)
Definition send_file (f : FileResponse) : run :=
  let emit (f : FileResponse) (b : bytes) :=
    run_seq (run_ok [ResponseStart (status_code (fr f)) (_raw_headers (fr f)); ResponseBody b false])
      (mkRun [] (get_or (background (fr f)) (Ok tt))) in
  if bool_decide (body (fr f) = []) && bool_decide (fr_path f ≠ []) && negb (fr_header_only f) then
    match _populate_file_headers f with
    | Raise e => run_raise [] e
    | Ok f' =>
        match fs_read (fr_path f) with
        | Some b => emit f' b
        | None => emit f' []
        end
    end
  else emit f (body (fr f)).
End files.

(** ** Lemmas on headers *)
Lemma set_raw_header_same hs n v :
  MH.raw_values (set_raw_header hs n v) (bytes_lower n) = v :: tail (MH.raw_values hs (bytes_lower n)).
Proof.
  unfold MH.raw_values. induction hs as [|[n0 v0] hs IH]; cbn [set_raw_header].
  - rewrite filter_cons_True by apply bytes_lower_idemp. done.
  - rewrite filter_cons. cbn [fst]. case_decide as D.
    + rewrite filter_cons_True by apply bytes_lower_idemp. done.
    + rewrite filter_cons_False by done. exact IH.
Qed.

Lemma set_raw_header_other hs n v k :
  k ≠ bytes_lower n -> MH.raw_values (set_raw_header hs n v) k = MH.raw_values hs k.
Proof.
  intros Hk. unfold MH.raw_values. induction hs as [|[n0 v0] hs IH]; cbn [set_raw_header].
  - rewrite filter_cons_False; [done|]. cbn [fst]. rewrite bytes_lower_idemp. congruence.
  - destruct (decide (bytes_lower n0 = bytes_lower n)) as [D|D].
    + rewrite !filter_cons_False; [done| |]; cbn [fst]; rewrite ?bytes_lower_idemp; congruence.
    + rewrite !filter_cons. cbn [fst]. case_decide; csimpl; [by rewrite IH|exact IH].
Qed.

Definition content_length : str := $"content-length".
Definition content_type : str := $"content-type".

Lemma populate_content r r' :
  _populate_content_headers r = Ok r' ->
  status_code r' = status_code r ∧ background r' = background r
  ∧ (if bool_decide (status_code r = 204 ∨ status_code r = 304)
     then body r' = [] ∧ _raw_headers r' = _raw_headers r
     else body r' = body r
          ∧ MH.raw_values (_raw_headers r') content_length
            = N_to_str (N.of_nat (length (body r))) :: tail (MH.raw_values (_raw_headers r) content_length)
          ∧ match media_type r with
            | Some mt => head (MH.raw_values (_raw_headers r') content_type) = Some (content_type_of mt)
            | None => MH.raw_values (_raw_headers r') content_type = MH.raw_values (_raw_headers r) content_type
            end).
Proof.
  unfold _populate_content_headers. case_bool_decide as D; [by intros [= <-]|].
  intros H. inv_ok. cbn [status_code body _raw_headers background with_headers].
  split_and!; try done.
  - rewrite (set_raw_header_same x content_length). f_equal. f_equal.
    destruct (media_type r) as [mt|]; inv_ok; [|done].
    by rewrite set_raw_header_other by done.
  - rewrite set_raw_header_other by done. destruct (media_type r) as [mt|]; inv_ok; [|done].
    apply encode_latin1_Ok in H as [-> _]. by rewrite (set_raw_header_same _ content_type).
Qed.

Lemma populate_other r r' k :
  _populate_content_headers r = Ok r' -> k ≠ content_length -> k ≠ content_type ->
  MH.raw_values (_raw_headers r') k = MH.raw_values (_raw_headers r) k.
Proof.
  unfold _populate_content_headers. intros H Hl Ht. case_bool_decide; [by simplify_eq|].
  inv_ok. cbn [_raw_headers with_headers]. rewrite set_raw_header_other by done.
  destruct (media_type r); inv_ok; [by rewrite set_raw_header_other|done].
Qed.

Lemma raw_of_dict_names headers raw :
  raw_of_dict headers = Ok raw -> (bytes_lower <$> raw.*1) = str_lower <$> headers.*1.
Proof.
  unfold raw_of_dict. rewrite rmapM_Ok. induction 1 as [|[k v] nv hs raw H _ IH]; [done|].
  inv_ok. destruct (encode_latin1_Ok _ _ H0) as [-> _]. csimpl.
  by rewrite bytes_lower_str_lower, IH.
Qed.

Lemma raw_values_unique raw k :
  NoDup (bytes_lower <$> raw.*1) -> (length (MH.raw_values raw k) <= 1)%nat.
Proof.
  unfold MH.raw_values. induction raw as [|[n v] raw IH]; csimpl; [lia|].
  intros Hnd. inversion Hnd as [|?? Hni Hnd']; subst. rewrite filter_cons. cbn [fst].
  case_decide as D; [|by apply IH]. csimpl.
  enough (filter (fun nv => bytes_lower nv.1 = k) raw = []) as ->; [done|].
  destruct (filter _ raw) as [|[n' v'] l] eqn:E; [done|]. exfalso.
  assert (Hin : (n', v') ∈ filter (fun nv => bytes_lower nv.1 = k) raw) by (rewrite E; set_solver).
  apply list_elem_of_filter in Hin as [Hn' Hin]. simpl in Hn'. apply Hni. rewrite D, <-Hn'.
  apply list_elem_of_fmap. exists n'. split; [done|]. apply list_elem_of_fmap. by exists (n', v').
Qed.

Lemma raw_of_dict_elem headers raw k v :
  (k, v) ∈ headers -> raw_of_dict headers = Ok raw -> (str_lower k, v) ∈ raw.
Proof.
  unfold raw_of_dict. rewrite rmapM_Ok. intros Hin H.
  induction H as [|[k0 v0] nv hs raw H _ IH]; [set_solver|]. inv_ok.
  destruct (encode_latin1_Ok _ _ H0) as [-> _], (encode_latin1_Ok _ _ H1) as [-> _].
  set_solver.
Qed.

Lemma raw_of_dict_get headers raw k v :
  NoDup (str_lower <$> headers.*1) -> dict_get headers k = Some v -> raw_of_dict headers = Ok raw ->
  MH.raw_values raw (str_lower k) = [v].
Proof.
  intros Hnd Hg Hr. pose proof (raw_of_dict_elem _ _ _ _ (dict_get_elem _ _ _ Hg) Hr) as Hin.
  assert (Hu : (length (MH.raw_values raw (str_lower k)) <= 1)%nat).
  { apply raw_values_unique. by erewrite raw_of_dict_names. }
  assert (Hv : v ∈ MH.raw_values raw (str_lower k)).
  { apply list_elem_of_fmap. exists (str_lower k, v). split; [done|].
    apply list_elem_of_filter. split; [apply bytes_lower_str_lower|done]. }
  destruct (MH.raw_values raw (str_lower k)) as [|v' [|]]; simpl in Hu; [set_solver| |lia].
  f_equal. set_solver.
Qed.

(** *** Percent-encoded locations *)
Lemma hex_digit_upper_ascii n : (n < 16)%N -> (hex_digit_upper n < 128)%N.
Proof. unfold hex_digit_upper. destruct (N.ltb_spec n 10); lia. Qed.

Lemma hex_digit_upper_safe n : (n < 16)%N -> always_safe (hex_digit_upper n) = true.
Proof.
  intros H. unfold always_safe, hex_digit_upper, ascii_upper_letter, ascii_lower_letter, is_digit.
  destruct (N.ltb_spec n 10); [rewrite orb_true_iff; left; rewrite orb_true_iff; right|
    rewrite orb_true_iff; left; rewrite orb_true_iff; left; rewrite orb_true_iff; left];
    apply in_range_spec; lia.
Qed.

Lemma always_safe_ascii c : always_safe c = true -> (c < 128)%N.
Proof.
  unfold always_safe, ascii_upper_letter, ascii_lower_letter, is_digit.
  rewrite !orb_true_iff, !in_range_spec. simpl. rewrite !orb_true_iff, !N.eqb_eq.
  intros; intuition lia.
Qed.

Lemma utf8_encode_ascii s : Forall (fun c => (c < 128)%N) s -> utf8_encode s = Ok s.
Proof.
  intros H. unfold utf8_encode.
  replace (existsb is_surrogate s) with false.
  - f_equal. induction H as [|c s Hc _ IH]; csimpl; [done|]. unfold utf8_encode_char at 1.
    apply N.ltb_lt in Hc. rewrite Hc. simpl. by rewrite IH.
  - symmetry. apply not_true_iff_false. rewrite existsb_exists. intros (c & Hin & Hs).
    apply list_elem_of_In in Hin. rewrite Forall_forall in H. specialize (H _ Hin).
    apply in_range_spec in Hs. lia.
Qed.

Lemma utf8_encode_char_byte c : (c < 1114112)%N -> Forall (fun b => (b < 256)%N) (utf8_encode_char c).
Proof.
  intros H. unfold utf8_encode_char.
  destruct (N.ltb_spec c 128); [|destruct (N.ltb_spec c 2048); [|destruct (N.ltb_spec c 65536)]];
    repeat (apply Forall_cons_2 || apply Forall_nil_2);
    zify; Z.to_euclidean_division_equations; lia.
Qed.

(** Text whose characters are code points of Unicode. *)
Definition unicode (s : str) : Prop := Forall (fun c => (c < 1114112)%N) s.

Definition loc_char (c : N) : Prop := always_safe c = true ∨ (contains_char c redirect_safe = true ∧ (c < 128)%N).

Lemma quote_byte_loc b : (b < 256)%N -> Forall loc_char (quote_byte redirect_safe b).
Proof.
  intros Hb. unfold quote_byte. case_match eqn:E.
  - apply Forall_singleton. apply orb_true_iff in E as [E|[E1 E2]%andb_true_iff]; [by left|].
    right. split; [done|]. by apply N.ltb_lt.
  - repeat apply Forall_cons_2; [by right| | |by constructor]; left; apply hex_digit_upper_safe.
    + apply N.Div0.div_lt_upper_bound. lia.
    + apply N.mod_lt. lia.
Qed.

Lemma quote_byte_fix c : loc_char c -> quote_byte redirect_safe c = [c].
Proof.
  intros H. unfold quote_byte. destruct H as [->|[-> Hlt]]; [done|].
  apply N.ltb_lt in Hlt. rewrite Hlt. by rewrite orb_true_r.
Qed.

Lemma loc_char_ascii c : loc_char c -> (c < 128)%N.
Proof. intros [?%always_safe_ascii|[_ ?]]; done. Qed.

Lemma quote_loc s q : unicode s -> quote redirect_safe s = Ok q -> Forall loc_char q.
Proof.
  intros Hs H. unfold quote in H. inv_ok. unfold utf8_encode in H0.
  destruct (existsb is_surrogate s); [done|]. injection H0 as <-.
  induction Hs as [|c s Hc _ IH]; csimpl; [constructor|].
  rewrite bind_app. apply Forall_app_2; [|exact IH].
  pose proof (utf8_encode_char_byte c Hc) as Hb. clear -Hb.
  induction Hb as [|b bs Hb _ IH]; csimpl; [constructor|].
  apply Forall_app_2; [by apply quote_byte_loc|exact IH].
Qed.

Lemma quote_idemp_loc q : Forall loc_char q -> quote redirect_safe q = Ok q.
Proof.
  intros H. unfold quote. rewrite utf8_encode_ascii by (eapply Forall_impl; [done|apply loc_char_ascii]).
  simpl. f_equal. induction H as [|c q Hc _ IH]; csimpl; [done|]. by rewrite quote_byte_fix, IH.
Qed.

(** ** A reference reader of event streams

    The line protocol of the HTML standard: lines end at LF, CR or CRLF, a
    line is a field name and a value with one leading space removed, data
    lines accumulate, and a blank line dispatches the event. *)
Fixpoint sse_lines (s cur : str) (after_cr : bool) : list str :=
  match s with
  | [] => [cur]
  | c :: s' =>
      if (c =? 13)%N then cur :: sse_lines s' [] true
      else if (c =? 10)%N then
        if after_cr then sse_lines s' cur false else cur :: sse_lines s' [] false
      else sse_lines s' (cur ++ [c]) false
  end.

Record sse_event : Type := mkEvent {
  ev_type : option str; ev_id : option str; ev_retry : option N; ev_data : list str
}.

Definition no_event : sse_event := mkEvent None None None [].

Definition strip_space (v : str) : str :=
  match v with c :: v' => if (c =? 32)%N then v' else v | [] => [] end.

Definition sse_field (e : sse_event) (line : str) : sse_event :=
  let '(name, _, rest) := partition 58 line in
  let value := strip_space rest in
  if decide (name = $"event") then mkEvent (Some value) (ev_id e) (ev_retry e) (ev_data e)
  else if decide (name = $"data") then mkEvent (ev_type e) (ev_id e) (ev_retry e) (ev_data e ++ [value])
  else if decide (name = $"id") then
    if contains_char 0 value then e else mkEvent (ev_type e) (Some value) (ev_retry e) (ev_data e)
  else if decide (name = $"retry") then
    if bool_decide (value ≠ []) && forallb is_digit value
    then mkEvent (ev_type e) (ev_id e) (Some (digits_value value)) (ev_data e) else e
  else e.

Fixpoint sse_read (lines : list str) (e : sse_event) : list sse_event :=
  match lines with
  | [] => []
  | [] :: ls => e :: sse_read ls no_event
  | l :: ls => sse_read ls (sse_field e l)
  end.

(** The events of a stream that carry data, with the data lines joined. *)
Definition sse_parse (s : str) : list (option str * option str * option N * str) :=
  omap (fun e => match ev_data e with
                 | [] => None
                 | d => Some (ev_type e, ev_id e, ev_retry e, join [10%N] d)
                 end)
    (sse_read (sse_lines s [] false) no_event).

(** ** Lemmas on event streams *)
Definition one_line (s : str) : Prop := 10%N ∉ s ∧ 13%N ∉ s.

Lemma sse_lines_line l s cur b :
  one_line l -> (b = false ∨ l ≠ []) -> sse_lines (l ++ 10%N :: s) cur b = (cur ++ l) :: sse_lines s [] false.
Proof.
  intros [H1 H2]. revert cur b. induction l as [|c l IH]; intros cur b Hb.
  - destruct Hb as [-> | ?]; [|done]. simpl. by rewrite app_nil_r.
  - simpl. rewrite (proj2 (N.eqb_neq c 13)), (proj2 (N.eqb_neq c 10)) by set_solver.
    rewrite IH by set_solver. by rewrite <-app_assoc.
Qed.

Lemma sse_lines_join ls :
  Forall one_line ls -> sse_lines (join [10%N] (ls ++ [[]])) [] false = ls ++ [[]].
Proof.
  induction 1 as [|l ls Hl _ IH]; [done|].
  rewrite <-app_comm_cons, join_cons by (intros [_ ?]%app_nil; done).
  rewrite (sse_lines_line l (join [10%N] (ls ++ [[]]))) by (by auto). by rewrite IH.
Qed.

Lemma sse_field_data e v :
  sse_field e ($"data: " ++ v) = mkEvent (ev_type e) (ev_id e) (ev_retry e) (ev_data e ++ [v]).
Proof. reflexivity. Qed.

Lemma sse_read_data ds rest e :
  sse_read (((fun line => $"data: " ++ line) <$> ds) ++ rest) e
  = sse_read rest (mkEvent (ev_type e) (ev_id e) (ev_retry e) (ev_data e ++ ds)).
Proof.
  revert e. induction ds as [|d ds IH]; intros e.
  - rewrite app_nil_r. by destruct e.
  - rewrite fmap_cons, <-app_comm_cons.
    change (sse_read (($"data: " ++ d) :: ((fun line => $"data: " ++ line) <$> ds) ++ rest) e)
      with (sse_read (((fun line => $"data: " ++ line) <$> ds) ++ rest) (sse_field e ($"data: " ++ d))).
    rewrite IH, sse_field_data. cbn [ev_type ev_id ev_retry ev_data].
    by rewrite <-app_assoc.
Qed.

Lemma sse_read_event o rest e :
  ev_type e = None ->
  sse_read (opt_line $"event: " o ++ rest) e
  = sse_read rest (mkEvent o (ev_id e) (ev_retry e) (ev_data e)).
Proof. intros H. destruct e as [t i r d], o; simpl in *; by subst. Qed.

Lemma sse_read_id o rest e :
  ev_id e = None -> (∀ v, o = Some v -> 0%N ∉ v) ->
  sse_read (opt_line $"id: " o ++ rest) e
  = sse_read rest (mkEvent (ev_type e) o (ev_retry e) (ev_data e)).
Proof.
  intros H Hv. destruct e as [t i r d], o as [v|]; simpl in H; subst; [|done].
  specialize (Hv v eq_refl). apply contains_char_false in Hv.
  change (sse_read (opt_line $"id: " (Some v) ++ rest) (mkEvent t None r d))
    with (sse_read rest (if contains_char 0 v then mkEvent t None r d else mkEvent t (Some v) r d)).
  by rewrite Hv.
Qed.

Lemma sse_read_retry o rest e :
  ev_retry e = None ->
  sse_read (opt_line $"retry: " (N_to_str <$> o) ++ rest) e
  = sse_read rest (mkEvent (ev_type e) (ev_id e) o (ev_data e)).
Proof.
  intros H. destruct e as [t i r d], o as [n|]; simpl in H; subst; [|done].
  change (sse_read (opt_line $"retry: " (N_to_str <$> Some n) ++ rest) (mkEvent t i None d))
    with (sse_read rest (if bool_decide (N_to_str n ≠ []) && forallb is_digit (N_to_str n)
            then mkEvent t i (Some (digits_value (N_to_str n))) d else mkEvent t i None d)).
  rewrite bool_decide_true by apply N_to_str_nonempty.
  rewrite (proj2 (forallb_forall is_digit (N_to_str n))).
  - simpl. by rewrite digits_value_N_to_str.
  - intros c Hc. pose proof (N_to_str_digits n) as Hd. rewrite Forall_forall in Hd.
    by apply Hd, list_elem_of_In.
Qed.

Lemma split_lines_clean t : 13%N ∉ t -> Forall one_line (split_on 10 t).
Proof.
  intros H. pose proof (split_on_clean 10 t) as Hc. pose proof (join_split_on 10 t) as Hj.
  rewrite Forall_forall in Hc. apply Forall_forall. intros l Hl. split; [by apply Hc|].
  intros Hin. apply H. rewrite <-Hj. clear Hc Hj H. induction (split_on 10 t) as [|w ws IH]; [set_solver|].
  destruct ws as [|w' ws]; [apply list_elem_of_singleton in Hl; by subst|].
  rewrite join_cons by done. apply elem_of_cons in Hl as [->|Hl]; set_solver.
Qed.

Lemma one_line_app a b : one_line a -> one_line b -> one_line (a ++ b).
Proof. unfold one_line. set_solver. Qed.

Lemma one_line_lit a : contains_char 10 a = false -> contains_char 13 a = false -> one_line a.
Proof. rewrite !contains_char_false. done. Qed.

Lemma opt_line_clean label o :
  one_line label -> (∀ v, o = Some v -> one_line v) -> Forall one_line (opt_line label o).
Proof. intros Hl Ho. destruct o; [apply Forall_singleton, one_line_app; auto|constructor]. Qed.

Lemma digits_one_line s : Forall (fun c => is_digit c = true) s -> one_line s.
Proof. rewrite Forall_forall. intros H. split; intros Hin; by apply H in Hin. Qed.

(** ** Main theorems *)

(** Every response object tells the truth about its body: outside 204 and
    304 the first [content-length] header is the length of the body, and it is
    the only one when the given header names are distinct up to case; the
    media type, when there is one, is the first [content-type]; a 204 or 304
    response has an empty body.  Sending it gives a complete ASGI response
    with exactly that body. *)
Theorem response_headers_correct cls_mt c status headers mt bg r :
  init_response render cls_mt c status headers mt bg = Ok r ->
  status_code r = status
  ∧ (if bool_decide (status = 204 ∨ status = 304) then body r = []
     else render c = Ok (body r)
          ∧ head (MH.raw_values (_raw_headers r) content_length)
            = Some (N_to_str (N.of_nat (length (body r))))
          ∧ (NoDup (str_lower <$> headers.*1) ->
             MH.raw_values (_raw_headers r) content_length
             = [N_to_str (N.of_nat (length (body r)))])
          ∧ (∀ m, override mt cls_mt = Some m ->
             head (MH.raw_values (_raw_headers r) content_type) = Some (content_type_of m)))
  ∧ response_complete (sent (send_response r)) = true
  ∧ body_bytes (sent (send_response r)) = body r.
Proof.
  unfold init_response. intros H. inv_ok.
  destruct (populate_content _ _ H) as (Hst & _ & Hb). cbn [status_code body _raw_headers media_type] in *.
  assert (Hsend : sent (send_response r) = [ResponseStart (status_code r) (_raw_headers r); ResponseBody (body r) false]).
  { done. }
  rewrite Hsend. split_and!; [done| |done|simpl; by rewrite app_nil_r].
  case_bool_decide; [apply Hb|]. destruct Hb as (-> & Hcl & Hct). split_and!.
  - done.
  - by rewrite Hcl.
  - intros Hnd. rewrite Hcl. f_equal.
    assert (Hu : (length (MH.raw_values x0 content_length) <= 1)%nat).
    { apply raw_values_unique. by erewrite raw_of_dict_names. }
    destruct (MH.raw_values x0 content_length) as [|v [|v' vs]]; simpl in *; (done || lia).
  - intros m Hm. by rewrite Hm in Hct.
Qed.

Lemma response_headers_correct_witness :
  ∃ r, init_response render (Some $"text/plain") (CStr $"hello") 200 [($"X-A", $"1")] None None = Ok r
    ∧ MH.raw_values (_raw_headers r) content_length = [$"5"]
    ∧ body_bytes (sent (send_response r)) = $"hello".
Proof.
  eexists. split; [reflexivity|].
  destruct (response_headers_correct (Some $"text/plain") (CStr $"hello") 200 [($"X-A", $"1")] None None
    _ eq_refl) as (_ & (_ & _ & Hu & _) & _ & Hb).
  split; [|exact Hb]. rewrite Hu; [reflexivity|]. apply (bool_decide_unpack _). reflexivity.
Defined.

(** A redirect carries an ASCII [location] header that is the
    percent-encoded target; encoding that location again changes nothing, so
    an already encoded URL is passed through unharmed. *)
Theorem redirect_location_correct url status headers bg r :
  unicode url -> NoDup (str_lower <$> (dict_set headers $"location" []).*1) ->
  RedirectResponse url status headers bg = Ok r ->
  ∃ loc, quote redirect_safe url = Ok loc
    ∧ MH.raw_values (_raw_headers r) $"location" = [loc]
    ∧ Forall (fun c => (c < 128)%N) loc
    ∧ quote redirect_safe loc = Ok loc
    ∧ body r = [] ∧ status_code r = status.
Proof.
  intros Hu Hnd H. unfold RedirectResponse in H. inv_ok. exists x. split; [done|].
  pose proof (quote_loc _ _ Hu H0) as Hloc.
  unfold init_response in H. inv_ok. simplify_eq/=.
  destruct (populate_content _ _ H) as (Hst & _ & Hb). cbn [status_code body _raw_headers media_type] in *.
  split_and!; [|eapply Forall_impl; [done|apply loc_char_ascii]|by apply quote_idemp_loc| |done].
  - rewrite (populate_other _ _ _ H) by done.
    apply (raw_of_dict_get (dict_set headers $"location" x) x1 $"location");
      [|by apply dict_get_set_eq|done]. by rewrite dict_keys_set in Hnd |- *.
  - case_bool_decide; apply Hb.
Qed.

Lemma redirect_location_correct_witness :
  ∃ r, RedirectResponse $"/a b?q=%20" 307 [] None = Ok r
    ∧ MH.raw_values (_raw_headers r) $"location" = [$"/a%20b?q=%20"].
Proof.
  eexists. split; [vm_compute; reflexivity|].
  destruct (redirect_location_correct $"/a b?q=%20" 307 [] None _
    ltac:(repeat constructor) ltac:(repeat constructor; set_solver) ltac:(vm_compute; reflexivity))
    as (loc & Hq & Hl & _).
  rewrite Hl. vm_compute in Hq. by injection Hq as <-.
Defined.

(** The body events of an iterator that yields encodable chunks. *)
Lemma stream_chunks_ok chunks bs fin :
  Forall2 (fun c b => chunk_bytes c = Ok b) chunks bs ->
  stream_chunks chunks fin = mkRun ((fun b => ResponseBody b true) <$> bs) fin.
Proof. induction 1 as [|c b cs bs H _ IH]; [done|]. simpl. by rewrite H, IH. Qed.

Lemma stream_chunks_sent chunks fin :
  ∃ bs, sent (stream_chunks chunks fin) = (fun b => ResponseBody b true) <$> bs
    ∧ Forall2 (fun c b => chunk_bytes c = Ok b) (take (length bs) chunks) bs
    ∧ (ended (stream_chunks chunks fin) = Ok tt -> length bs = length chunks ∧ fin = Ok tt).
Proof.
  induction chunks as [|c cs (bs & Hs & Hf & He)]; simpl.
  - exists []. split_and!; [done|constructor|done].
  - destruct (chunk_bytes c) as [b|e] eqn:Ec; simpl.
    + exists (b :: bs). rewrite Hs. split_and!; [done|by constructor|].
      intros [? ?]%He. simpl. auto with lia.
    + exists []. split_and!; [done|constructor|done].
Qed.

(** A streaming response sends its start event first and then one body
    event per chunk, in order; it is a complete ASGI response whose body is
    the concatenation of the chunks exactly when the iterator finished and
    every chunk could be encoded, and otherwise the client never sees a final
    body event. *)
Theorem streaming_response_complete r chunks fin :
  let out := send_streaming r chunks fin in
  (∃ bs, take (S (length bs)) (sent out)
         = ResponseStart (status_code r) (_raw_headers r) :: ((fun b => ResponseBody b true) <$> bs)
       ∧ Forall2 (fun c b => chunk_bytes c = Ok b) (take (length bs) chunks) bs
       ∧ (response_complete (sent out) = true ->
            Forall2 (fun c b => chunk_bytes c = Ok b) chunks bs ∧ fin = Ok tt
            ∧ body_bytes (sent out) = concat bs))
  ∧ (response_complete (sent out) = true ↔ ended (stream_chunks chunks fin) = Ok tt).
Proof.
  destruct (stream_chunks_sent chunks fin) as (bs & Hs & Hf & He).
  unfold send_streaming. rewrite run_seq_ok. unfold run_seq at 1 2 3.
  destruct (stream_chunks chunks fin) as [ms res] eqn:E. cbn [sent ended] in *. subst ms.
  assert (Hno : body_complete ((fun b => ResponseBody b true) <$> bs) = false).
  { clear. induction bs; [done|exact IHbs]. }
  destruct res as [[]|e]; cbn [sent ended run_ok run_seq app].
  - destruct (He eq_refl) as [Hlen Hfin].
    assert (Hc : ∀ x, body_complete (((fun b => ResponseBody b true) <$> bs) ++ [ResponseBody x false]) = true).
    { intros x. by apply body_complete_chunks. }
    rewrite ?app_nil_r. cbn [app response_complete].
    split; [|by rewrite Hc].
    exists bs. rewrite Hlen, take_ge in Hf by lia. split_and!.
    + simpl. f_equal. rewrite take_app_le by (rewrite length_fmap; lia).
      by rewrite take_ge by (rewrite length_fmap; lia).
    + rewrite Hlen. by rewrite take_ge by lia.
    + intros _. split_and!; [done|done|]. simpl. rewrite body_bytes_app, body_bytes_chunks.
      simpl. by rewrite app_nil_r.
  - cbn [app response_complete]. split; [|by rewrite Hno]. exists bs. split_and!; [|done|by rewrite Hno].
    simpl. f_equal. by rewrite take_ge by (rewrite length_fmap; lia).
Qed.

(** An event formatted by [_sse_format_event] is read back unchanged by
    the line protocol of event streams: type, id, reconnection time and data
    (newlines included) survive, provided the type and id fit on one line, the
    id has no NUL, and the data has no carriage return. *)
Theorem sse_format_roundtrip text event id (retry : option N) out :
  13%N ∉ text ->
  (∀ v, event = Some v -> one_line v) ->
  (∀ v, id = Some v -> one_line v ∧ 0%N ∉ v) ->
  _sse_format_event (SText text) event id (Z.of_N <$> retry) = Ok out ->
  sse_parse out = [(event, id, retry, text)].
Proof.
  intros Ht He Hi H. unfold _sse_format_event in H. cbn [sse_text rbind] in H. injection H as <-.
  replace (Z_to_str <$> (Z.of_N <$> retry)) with (N_to_str <$> retry)
    by (destruct retry; simpl; by rewrite ?Z_to_str_of_N).
  set (ls := opt_line $"event: " event ++ opt_line $"id: " id
             ++ opt_line $"retry: " (N_to_str <$> retry)
             ++ ((fun line => $"data: " ++ line) <$> split_on 10 text) ++ [[]]).
  assert (Hls : Forall one_line ls).
  { unfold ls. repeat apply Forall_app_2.
    - apply opt_line_clean; [by apply one_line_lit|done].
    - apply opt_line_clean; [by apply one_line_lit|]. intros v Hv. by apply Hi.
    - apply opt_line_clean; [by apply one_line_lit|]. intros v Hv. destruct retry; [|done].
      simplify_eq/=. apply digits_one_line, N_to_str_digits.
    - apply Forall_fmap. eapply Forall_impl; [by apply split_lines_clean|].
      intros l Hl. apply one_line_app; [by apply one_line_lit|done].
    - repeat constructor; set_solver. }
  unfold sse_parse.
  replace (opt_line $"event: " event ++ _) with (ls ++ [[]])
    by (unfold ls; by rewrite <-!app_assoc).
  rewrite sse_lines_join by done. unfold ls. rewrite <-!app_assoc.
  rewrite sse_read_event by done. rewrite sse_read_id; [|done|intros v Hv; by apply Hi].
  rewrite sse_read_retry by done. rewrite sse_read_data. simpl sse_read.
  cbn [omap list_omap ev_data ev_type ev_id ev_retry].
  pose proof (split_on_nonempty 10 text). pose proof (join_split_on 10 text) as Hj.
  destruct (split_on 10 text) as [|w ws]; [done|]. simpl app. by rewrite Hj.
Qed.

Lemma sse_format_roundtrip_witness :
  ∃ out, _sse_format_event (SText ($"two" ++ [10%N] ++ $"lines")) (Some $"update") (Some $"7")
           (Z.of_N <$> Some 1500%N) = Ok out
    ∧ sse_parse out = [(Some $"update", Some $"7", Some 1500%N, $"two" ++ [10%N] ++ $"lines")].
Proof.
  eexists. split; [vm_compute; reflexivity|].
  apply (sse_format_roundtrip ($"two" ++ [10%N] ++ $"lines") (Some $"update") (Some $"7") (Some 1500%N)).
  - apply contains_char_false. reflexivity.
  - intros v [= <-]. by apply one_line_lit.
  - intros v [= <-]. split; [by apply one_line_lit|]. apply contains_char_false. reflexivity.
  - vm_compute. reflexivity.
Defined.

Lemma file_headers_length hs st fn disp hs' :
  file_headers hs st fn disp = Ok hs' ->
  head (MH.raw_values hs' content_length) = Some (N_to_str (st_size st)).
Proof.
  unfold file_headers. intros H.
  destruct fn; inv_ok; repeat rewrite set_raw_header_other by done;
    by rewrite (set_raw_header_same _ content_length).
Qed.

Lemma populate_file_spec fs_stat f f' :
  _populate_file_headers fs_stat f = Ok f' ->
  fr_path f' = fr_path f ∧ fr_header_only f' = fr_header_only f
  ∧ match override (fr_stat f) (match fs_stat (fr_path f) with StatOk st => Some st | _ => None end) with
    | Some st => fr_stat f' = Some st ∧ body (fr f') = body (fr f)
        ∧ status_code (fr f') = status_code (fr f)
        ∧ head (MH.raw_values (_raw_headers (fr f')) content_length) = Some (N_to_str (st_size st))
    | None => fr_stat f' = None
        ∧ head (MH.raw_values (_raw_headers (fr f')) content_length) = Some $"9"
        ∧ (body (fr f') = $"Not Found" ∧ status_code (fr f') = 404
           ∨ body (fr f') = $"Forbidden" ∧ status_code (fr f') = 403)
    end.
Proof.
  unfold _populate_file_headers. intros H. inv_ok.
  destruct (fr_stat f) as [st|] eqn:Es; [|destruct (fs_stat (fr_path f)) as [st| |] eqn:Ef];
    cbn [override]; inv_ok; cbn [fr_path fr_header_only fr_stat fr body status_code _raw_headers
      with_fr with_headers error_file].
  - split_and!; try done. by eapply file_headers_length.
  - split_and!; try done. by eapply file_headers_length.
  - split_and!; try done; [by rewrite (set_raw_header_same _ content_length)|by left].
  - split_and!; try done; [by rewrite (set_raw_header_same _ content_length)|by right].
Qed.

Lemma error_file_sent (f : FileResponse) ms :
  (fr_stat f = None
   ∧ head (MH.raw_values (_raw_headers (fr f)) content_length) = Some $"9"
   ∧ (body (fr f) = $"Not Found" ∧ status_code (fr f) = 404
      ∨ body (fr f) = $"Forbidden" ∧ status_code (fr f) = 403)) ->
  ms = [ResponseStart (status_code (fr f)) (_raw_headers (fr f)); ResponseBody (body (fr f)) false] ->
  response_complete ms = true
  ∧ ∃ code hs, head ms = Some (ResponseStart code hs) ∧ (code = 404 ∨ code = 403)
      ∧ head (MH.raw_values hs content_length) = Some $"9" ∧ length (body_bytes ms) = 9%nat.
Proof.
  intros (_ & Hcl & Hb) ->. split; [done|]. do 2 eexists. split; [done|]. simpl. rewrite app_nil_r.
  destruct Hb as [[-> ->]|[-> ->]]; split_and!; try done; [by left|by right].
Qed.

(** A file response announces the length of what it sends: when the file
    exists and its size is the one [stat] reports, a [GET] sends the file's
    bytes and a [HEAD] an empty body under the file's [content-length]; a
    missing or unreadable file gives a 404 or 403 whose text has the announced
    length.  In every case the response is complete. *)
Theorem file_response_correct fs_stat fs_read guess path status headers mt filename method disp f ms :
  path ≠ [] ->
  (∀ st b, fs_stat path = StatOk st -> fs_read path = Some b -> N.of_nat (length b) = st_size st) ->
  init_file fs_stat guess path status headers mt None filename None method disp = Ok f ->
  send_file fs_stat fs_read f = run_ok ms ->
  response_complete ms = true
  ∧ match fs_stat path with
    | StatOk st =>
        (fr_header_only f = true -> body_bytes ms = [])
        ∧ (fr_header_only f = false -> ∀ b, fs_read path = Some b -> body_bytes ms = b)
        ∧ ∃ hs, head ms = Some (ResponseStart status hs)
            ∧ head (MH.raw_values hs content_length) = Some (N_to_str (st_size st))
    | _ => ∃ code hs, head ms = Some (ResponseStart code hs) ∧ (code = 404 ∨ code = 403)
        ∧ head (MH.raw_values hs content_length) = Some $"9" ∧ length (body_bytes ms) = 9%nat
    end.
Proof.
  intros Hp Hcons Hi Hs. unfold init_file in Hi. inv_ok.
  destruct (populate_file_spec _ _ _ Hi) as (Hpath & Hho & Hspec).
  cbn [fr_path fr_header_only fr_stat override body status_code] in *. unfold send_file in Hs.
  rewrite Hpath in *. rewrite (bool_decide_true (path ≠ [])) in Hs by done.
  destruct (fs_stat path) as [st| |] eqn:Est.
  - destruct Hspec as (Hst & Hb & Hsc & Hcl). rewrite Hb, bool_decide_true in Hs by done. simpl in Hs.
    destruct (fr_header_only f) eqn:Eho; simpl in Hs.
    + injection Hs as <-. simpl. split_and!; try done. eexists. split; [|exact Hcl]. by rewrite Hsc.
    + destruct (_populate_file_headers fs_stat f) as [f2|e] eqn:E2; [|done].
      destruct (populate_file_spec _ _ _ E2) as (_ & _ & Hspec2). rewrite Hst in Hspec2. simpl in Hspec2.
      destruct Hspec2 as (_ & _ & Hsc2 & Hcl2).
      destruct (fs_read path) as [b|] eqn:Er; injection Hs as <-; simpl;
        (split_and!; [done|done|intros _ b' [= <-]; by rewrite app_nil_r||done|]);
        eexists; (split; [|exact Hcl2]); by rewrite Hsc2, Hsc.
  - apply (error_file_sent f); [done|]. rewrite bool_decide_false in Hs; [by injection Hs|].
    by destruct Hspec as (_ & _ & [[-> _]|[-> _]]).
  - apply (error_file_sent f); [done|]. rewrite bool_decide_false in Hs; [by injection Hs|].
    by destruct Hspec as (_ & _ & [[-> _]|[-> _]]).
Qed.

Lemma file_response_correct_witness :
  ∃ f ms,
    init_file (fun _ => StatOk (mkStat 3 1600000000)) (fun _ => None) $"a.txt" 200 [] None None None None None
      $"attachment" = Ok f
    ∧ send_file (fun _ => StatOk (mkStat 3 1600000000)) (fun _ => Some $"abc") f = run_ok ms
    ∧ body_bytes ms = $"abc".
Proof.
  do 2 eexists. split; [vm_compute; reflexivity|]. split; [vm_compute; reflexivity|].
  epose proof (file_response_correct (fun _ => StatOk (mkStat 3 1600000000)) (fun _ => Some $"abc")
    (fun _ => None) $"a.txt" 200 [] None None None $"attachment" _ _ ltac:(done)
    ltac:(by intros st b [= <-] [= <-]) ltac:(vm_compute; reflexivity) ltac:(vm_compute; reflexivity))
    as (_ & _ & H & _).
  apply H; reflexivity.
Defined.
