(* ===== verification/Background.v ===== *)
(** * Background: background tasks and the thread pool

    [BackgroundTask] and [BackgroundTasks] ([_background.py], [background.py]),
    and the helpers of [_concurrency.py] and [concurrency.py] that run blocking
    code in threads.  What user callables do is a parameter; a task may add
    further tasks to the collection that is being run. *)

From S2P Require Import Prelude PyStr Asgi Responses.

(** ** [is_async_callable] *)

(** What the check looks at: functions, partial applications, and other objects
    with, if they are callable, whether their [__call__] is a coroutine
    function. *)
Inductive pyobj : Type := PyFunction (coro : bool) | PyPartial (func : pyobj) | PyObject (dunder_call : option bool).

Fixpoint unwrap_partial (o : pyobj) : pyobj :=
  match o with PyPartial f => unwrap_partial f | _ => o end.

Definition is_async_callable (o : pyobj) : bool :=
  match unwrap_partial o with
  | PyFunction coro => coro
  | PyObject (Some coro) => coro
  | _ => false
  end.

(** ** Tasks *)
Section tasks.
Context {V : Type}.

Record BackgroundTask : Type := mkTask { func : pyobj; func_id : Z; args : list V; kwargs : list (str * V) }.

(** How a callable is run: awaited, or in a thread. *)
Inductive mode : Type := Awaited | InThread.

Record task_call : Type := mkCall { t_mode : mode; t_task : BackgroundTask }.

Definition call_of (t : BackgroundTask) : task_call :=
  mkCall (if is_async_callable (func t) then Awaited else InThread) t.

Record BackgroundTasks : Type := mkTasks { tasks : list BackgroundTask }.

Definition init_tasks (ts : option (list BackgroundTask)) : BackgroundTasks := mkTasks (get_or ts []).

Definition add_task (b : BackgroundTasks) (f : pyobj) (i : Z) (a : list V) (k : list (str * V)) : BackgroundTasks :=
  mkTasks (tasks b ++ [mkTask f i a k]).

(** What a task does, given the calls made before: the tasks it adds to the
    collection, and how it ends. *)
Context (execute : list task_call -> task_call -> list BackgroundTask * result unit).

(** [BackgroundTasks.__call__] from position [i] on: the loop goes over the
    list as it is, so tasks that are added while it runs are run too.  [None]:
    out of fuel. *)
Fixpoint run_tasks (fuel : nat) (i : nat) (b : BackgroundTasks) (log : list task_call)
    : option (BackgroundTasks * list task_call * result unit) :=
  match fuel with
  | O => None
  | S fuel' =>
      match tasks b !! i with
      | None => Some (b, log, Ok tt)
      | Some t =>
          let c := call_of t in
          let '(added, r) := execute log c in
          let b' := mkTasks (tasks b ++ added) in
          match r with
          | Ok _ => run_tasks fuel' (S i) b' (log ++ [c])
          | Raise e => Some (b', log ++ [c], Raise e)
          end
      end
  end.

Definition run_background (fuel : nat) (b : BackgroundTasks) := run_tasks fuel 0 b [].
End tasks.

(** ** Context managers and iterators in threads *)
Section threads.
Context {V R : Type}.

(** [contextmanager_in_threadpool(cm)] around a body: what [__exit__] is called
    with, and how the block ends.  Entering is inside the [try], so an exception
    of [__enter__] is given to [__exit__] as well; if that swallows it there is
    nothing to yield. *)
Definition contextmanager_in_threadpool (enter : result V) (body : V -> result R)
    (exit_cm : option exn -> result bool) : list (option exn) * result (option R) :=
  let failed (e : exn) (swallowed : result (option R)) :=
    ([Some e], match exit_cm (Some e) with Ok true => swallowed | Ok false => Raise e | Raise e' => Raise e' end) in
  match enter with
  | Raise e => failed e (Raise (RuntimeError $"generator didn't yield"))
  | Ok v =>
      match body v with
      | Raise e => failed e (Ok None)
      | Ok r => ([None], match exit_cm None with Ok _ => Ok (Some r) | Raise e' => Raise e' end)
      end
  end.

(** What [next] gives: a value, the end, or an exception. *)
Inductive next_result : Type := NextValue (v : V) | NextStop | NextRaise (e : exn).

(** [iterate_in_threadpool] over what successive calls of [next] give. *)
Fixpoint iterate_in_threadpool (it : list next_result) : list V * result unit :=
  match it with
  | [] | NextStop :: _ => ([], Ok tt)
  | NextRaise e :: _ => ([], Raise e)
  | NextValue v :: it' => let '(vs, r) := iterate_in_threadpool it' in (v :: vs, r)
  end.
End threads.

(** ** Tasks run in order *)
Section tasks_facts.
Context {V : Type} (execute : list (@task_call V) -> @task_call V -> list (@BackgroundTask V) * result unit).

Lemma run_tasks_log fuel i b log b' log' r :
  run_tasks execute fuel i b log = Some (b', log', r) ->
  log = call_of <$> take i (tasks b) ->
  ∃ added done_ rest,
    tasks b' = tasks b ++ added ∧ tasks b' = done_ ++ rest ∧ log' = call_of <$> done_
    ∧ match r with Ok _ => rest = [] | Raise e => ∃ before t, done_ = before ++ [t] ∧ (execute (call_of <$> before) (call_of t)).2 = Raise e end.
Proof.
  revert i b log. induction fuel as [|fuel IH]; intros i b log; simpl; [done|].
  destruct (tasks b !! i) as [t|] eqn:Ht.
  - destruct (execute log (call_of t)) as [added [[]|e]] eqn:He; intros H Hlog.
    + assert (i < length (tasks b))%nat by (by eapply lookup_lt_Some).
      destruct (IH (S i) (mkTasks (tasks b ++ added)) (log ++ [call_of t]) H) as (ad & dn & re & H1 & H2 & H3 & H4).
      { simpl. rewrite take_app_le by lia. rewrite (take_S_r _ _ _ Ht), fmap_app. by rewrite Hlog. }
      exists (added ++ ad), dn, re. split_and!; [by rewrite H1, app_assoc|done..].
    + injection H as <- <- <-. exists added, (take i (tasks b) ++ [t]), (drop (S i) (tasks b) ++ added).
      split_and!; [done| |by rewrite fmap_app, Hlog|].
      * simpl. rewrite <-(take_drop_middle _ _ _ Ht) at 1. by rewrite <-!app_assoc.
      * exists (take i (tasks b)), t. split; [done|]. by rewrite <-Hlog, He.
  - intros [= <- <- <-] Hlog. apply lookup_ge_None in Ht. exists [], (tasks b), []. rewrite app_nil_r. split_and!; [done..| |done].
    by rewrite Hlog, take_ge.
Qed.

Lemma run_tasks_total b i log n :
  (∀ l c, (execute l c).1 = []) -> (length (tasks b) - i < n)%nat -> is_Some (run_tasks execute n i b log).
Proof.
  intros Hnone. revert i b log. induction n as [|n IH]; intros i b log Hn; [lia|]. simpl.
  destruct (tasks b !! i) as [t|] eqn:Ht; [|eauto].
  pose proof (Hnone log (call_of t)) as Ha. destruct (execute log (call_of t)) as [added [[]|e]]; [|eauto].
  simpl in Ha. subst. apply IH. apply lookup_lt_Some in Ht. simpl. rewrite app_nil_r. lia.
Qed.
End tasks_facts.

(** Background tasks run in the order they were added, one after the other,
    each in a thread unless its callable is asynchronous, those that running
    tasks add last.  If the collection finishes, every task was run exactly
    once; if a task raises, the tasks up to it were run and no later one.  When
    no task adds another one, it always ends within one step per task. *)
Theorem background_tasks_in_order {V}
    (execute : list (@task_call V) -> @task_call V -> list (@BackgroundTask V) * result unit) fuel b :
  (∀ b' log r, run_background execute fuel b = Some (b', log, r) ->
     ∃ added run_ rest,
       tasks b' = tasks b ++ added ∧ tasks b' = run_ ++ rest ∧ log = call_of <$> run_
       ∧ match r with
         | Ok _ => rest = []
         | Raise e => ∃ before t, run_ = before ++ [t] ∧ (execute (call_of <$> before) (call_of t)).2 = Raise e
         end)
  ∧ ((∀ l c, (execute l c).1 = []) -> (length (tasks b) < fuel)%nat -> is_Some (run_background execute fuel b)).
Proof.
  split.
  - intros b' log r H. by apply (run_tasks_log execute fuel 0 b [] b' log r H).
  - intros Hnone Hf. apply run_tasks_total; [done|lia].
Qed.

(** Two tasks, the second of which fails; a third one is never run. *)
Definition sample_execute (log : list (@task_call Z)) (c : @task_call Z) : list (@BackgroundTask Z) * result unit :=
  ([], if (func_id (t_task c) =? 2)%Z then Raise (ValueError $"failed") else Ok tt).

Definition sample_tasks : @BackgroundTasks Z :=
  add_task (add_task (add_task (init_tasks None) (PyPartial (PyFunction true)) 1 [5] []) (PyFunction false) 2 [] [])
    (PyFunction false) 3 [] [].

Lemma background_tasks_in_order_witness :
  is_Some (run_background sample_execute 4 sample_tasks)
  ∧ option_map (fun x => (map t_mode x.1.2, x.2)) (run_background sample_execute 4 sample_tasks)
    = Some ([Awaited; InThread], Raise (ValueError $"failed")).
Proof.
  split; [|vm_compute; reflexivity].
  apply (proj2 (background_tasks_in_order sample_execute 4 sample_tasks)); [reflexivity|vm_compute; lia].
Defined.

(** The context manager is left exactly once, whatever happens. *)
Lemma contextmanager_left_once {V R} (enter : result V) (body : V -> result R) exit_cm :
  length (contextmanager_in_threadpool enter body exit_cm).1 = 1%nat.
Proof. unfold contextmanager_in_threadpool. by destruct enter as [v|]; [destruct (body v)|]. Qed.

(** Iteration gives the values up to the end of the iterator. *)
Lemma iterate_in_threadpool_values {V} (vs : list V) rest :
  iterate_in_threadpool ((NextValue <$> vs) ++ NextStop :: rest) = (vs, Ok tt).
Proof. induction vs as [|v vs IH]; csimpl; [done|]. by rewrite IH. Qed.
