(* ===== verification/StaticFiles.v ===== *)
(** * StaticFiles: files of a directory, and mounted applications

    [StaticFiles] of [_staticfiles.py] with the functions of [posixpath] it
    relies on, and the endpoint through which the compiled server calls a
    mounted application ([applications.py]).  The file system and the
    resources of packages are parameters. *)

From S2P Require Import Prelude PyStr Asgi MutableHeaders Responses.

(** ** [posixpath] *)

Definition slash : N := 47%N.

Definition path_join (a b : str) : str :=
  if startswith b $"/" then b
  else if bool_decide (a = []) || endswith a $"/" then a ++ b
  else a ++ $"/" ++ b.

(** The number of slashes a normalised path starts with. *)
Definition initial_slashes (path : str) : nat :=
  if startswith path $"/" then
    if startswith path $"//" && negb (startswith path $"///") then 2%nat else 1%nat
  else 0%nat.

(** One component; the components so far are listed last one first. *)
Definition norm_step (absolute : bool) (acc : list str) (comp : str) : list str :=
  if bool_decide (comp = [] ∨ comp = $".") then acc
  else if bool_decide (comp ≠ $"..") || (negb absolute && bool_decide (acc = []))
          || bool_decide (head acc = Some $"..")
  then comp :: acc
  else tail acc.

Definition norm_comps (absolute : bool) (comps : list str) : list str :=
  reverse (foldl (norm_step absolute) [] comps).

Definition normpath (path : str) : str :=
  let n := initial_slashes path in
  match replicate n slash ++ join $"/" (norm_comps (negb (n =? 0)%nat) (split_on slash path)) with
  | [] => $"."
  | p => p
  end.

(** ** [StaticFiles] *)

Record StaticFiles : Type := mkStatic { directory : option str; html : bool; all_directories : list str }.

(** A package, or a package and one of its directories. *)
Inductive package : Type := Package (name : str) | PackageDir (name dir : str).

Section static.
Context (isdir isfile : str -> bool).
(** [str(importlib.resources.files(name) / dir)], [None] where it fails. *)
Context (pkg_files : str -> str -> option str).
Context (fs_stat : str -> stat_outcome) (fs_read : str -> option bytes) (guess_type : str -> option str).

Definition package_path (p : package) : option str :=
  match p with Package name => pkg_files name $"statics" | PackageDir name dir => pkg_files name dir end.

Definition init (directory : option str) (packages : list package) (html check_dir : bool) : result StaticFiles :=
  let! dirs :=
    match directory with
    | Some d =>
        if check_dir && negb (isdir d) then Raise (RuntimeError ($"Directory '" ++ d ++ $"' does not exist"))
        else Ok [d]
    | None => Ok []
    end in
  Ok (mkStatic directory html (dirs ++ omap package_path packages)).

(** What a lookup finds: the path of a file with the status, or nothing. *)
Inductive found : Type := Found (path : str) (status : Z) | NotFound.

(** The first loop over the directories. *)
Fixpoint lookup_dirs (html : bool) (dirs : list str) (rel_path : str) : option str :=
  match dirs with
  | [] => None
  | d :: dirs' =>
      let full_path := normpath (path_join d rel_path) in
      if negb (startswith full_path (normpath d)) then lookup_dirs html dirs' rel_path
      else if isfile full_path then Some full_path
      else
        let index := path_join full_path $"index.html" in
        if html && isdir full_path && isfile index then Some index else lookup_dirs html dirs' rel_path
  end.

Definition _lookup (s : StaticFiles) (rel_path : str) : found :=
  match lookup_dirs (html s) (all_directories s) rel_path with
  | Some p => Found p 200
  | None =>
      if html s then
        match list_find (fun p => isfile p = true) ((fun d => path_join d $"404.html") <$> all_directories s) with
        | Some (_, p) => Found p 404
        | None => NotFound
        end
      else NotFound
  end.

Definition respond_found (o : found) (method : option str) : run :=
  match o with
  | Found p status =>
      match init_file fs_stat guess_type p status [] None None None None (Some (get_or method $"GET")) $"attachment" with
      | Ok f => send_file fs_stat fs_read f
      | Raise e => run_raise [] e
      end
  | NotFound =>
      match PlainTextResponse (CStr $"Not Found") 404 [] None None with
      | Ok r => send_response r
      | Raise e => run_raise [] e
      end
  end.

Definition static_app (s : StaticFiles) : asgi_app :=
  fun sc =>
    match sc_type sc with
    | Http => respond_found (_lookup s (lstrip slash (sc_path sc))) (sc_method sc)
    | _ => run_raise [] (AssertionError [])
    end.
End static.

(** ** Mounted applications

    The compiled server keeps the method, path, query string, headers and body
    of the request in context variables; a mounted application is called with
    a scope built from them, and what it sends is collected into a response. *)

Record RequestContext : Type := mkContext {
  ctx_method : option str;
  ctx_path : option str;
  ctx_query : bytes;
  ctx_headers : raw_headers
}.

Definition or_text (o : option str) (d : str) : str := match o with Some ((_ :: _) as s) => s | _ => d end.

Definition mount_sub_path (full_path prefix : str) : str :=
  let rest := drop (length (rstrip slash prefix)) full_path in
  let sub_path := match rest with [] => $"/" | _ => rest end in
  if startswith sub_path $"/" then sub_path else slash :: sub_path.

Definition mount_scope (ctx : RequestContext) (prefix : str) : Scope :=
  mkScope Http (mount_sub_path (or_text (ctx_path ctx) $"/") prefix) (Some (rstrip slash prefix)) None
    (Some (or_text (ctx_method ctx) $"GET")) (Some $"http") (Some ($"127.0.0.1", 8000)) None
    (Some (ctx_query ctx)) (Some (ctx_headers ctx)) None None false false.

Record collected : Type := mkCollected { c_status : Z; c_headers : raw_headers; c_body : bytes }.

Definition collect (c : collected) (m : message) : collected :=
  match m with
  | ResponseStart status hs => mkCollected status hs (c_body c)
  | ResponseBody b _ => mkCollected (c_status c) (c_headers c) (c_body c ++ b)
  | _ => c
  end.

(** [_r.headers[name] = value]; the view is made anew each time and shares the
    list of the response. *)
Definition set_header (r : Response) (name value : str) : result Response :=
  let! h := MH.setitem (MH.init (Some (_raw_headers r)) None) name value in
  Ok (with_headers r (MH._raw h)).

Definition copy_header (r : Response) (h : bytes * bytes) : result Response :=
  let name := decode_latin1 h.1 in
  if bool_decide (str_lower name = $"content-length") then Ok r
  else set_header r name (decode_latin1 h.2).

Definition mount_endpoint (app : asgi_app) (prefix : str) (ctx : RequestContext) : result Response :=
  let r := app (mount_scope ctx prefix) in
  match ended r with
  | Raise e => Raise e
  | Ok _ =>
      let c := foldl collect (mkCollected 200 [] []) (sent r) in
      let! resp := init_response render None (CBytes (c_body c)) (c_status c) [] None None in
      rfold copy_header resp (c_headers c)
  end.

(** ** Where a lookup leads *)

Lemma split_on_app_any c a b : split_on c (a ++ c :: b) = split_on c a ++ split_on c b.
Proof.
  induction a as [|x a IH]; simpl; [by rewrite N.eqb_refl|].
  rewrite IH. pose proof (split_on_nonempty c a). destruct (split_on c a); [done|]. simpl. by case_match.
Qed.

Lemma path_join_cases a b :
  startswith b $"/" = false ->
  (∃ a', a = a' ++ [slash] ∧ path_join a b = a' ++ slash :: b) ∨ (a = [] ∧ path_join a b = b)
  ∨ (endswith a $"/" = false ∧ path_join a b = a ++ slash :: b).
Proof.
  unfold path_join. intros ->. case_bool_decide as Ha; simpl; [subst; eauto|].
  destruct (endswith a $"/") eqn:E; [|eauto].
  apply endswith_spec in E as [a' ->]. left. exists a'. split; [done|]. by rewrite <-app_assoc.
Qed.

(** Joining and normalising continues from the components of the directory. *)
Lemma norm_join ab acc a b :
  startswith b $"/" = false ->
  foldl (norm_step ab) acc (split_on slash (path_join a b))
  = foldl (norm_step ab) (foldl (norm_step ab) acc (split_on slash a)) (split_on slash b).
Proof.
  intros Hb. destruct (path_join_cases a b Hb) as [(a' & -> & ->)|[[-> ->]|[_ ->]]].
  - rewrite !split_on_app_any, !foldl_app. done.
  - done.
  - by rewrite split_on_app_any, foldl_app.
Qed.

Lemma initial_slashes_app d b :
  startswith d $"/" = true -> startswith b $"/" = false ∨ endswith d $"/" = false ->
  initial_slashes (d ++ b) = initial_slashes d.
Proof.
  unfold initial_slashes. change $"///" with [slash; slash; slash]. change $"//" with [slash; slash].
  change $"/" with [slash]. intros Hd Hb.
  destruct d as [|x d]; [done|]. rewrite startswith_cons, startswith_nil, andb_true_r in Hd. apply N.eqb_eq in Hd as <-.
  simpl app. rewrite !startswith_cons, !startswith_nil, N.eqb_refl. simpl andb.
  destruct d as [|y d].
  { destruct Hb as [Hb|Hb]; [|by vm_compute in Hb]. simpl app. by rewrite Hb. }
  simpl app. rewrite !startswith_cons, !startswith_nil, !andb_true_r. destruct (slash =? y)%N eqn:Ey; [|done].
  apply N.eqb_eq in Ey as <-. simpl andb. destruct d as [|z d]; [|simpl app; by rewrite !startswith_cons, !startswith_nil].
  destruct Hb as [Hb|Hb]; [|by vm_compute in Hb]. simpl app. by rewrite Hb.
Qed.

Lemma initial_slashes_join d b :
  startswith d $"/" = true -> startswith b $"/" = false -> initial_slashes (path_join d b) = initial_slashes d.
Proof.
  intros Hd Hb. destruct (path_join_cases d b Hb) as [(a' & -> & ->)|[[-> _]|[He ->]]]; [|done|].
  - rewrite <-(initial_slashes_app (a' ++ [slash]) b) by auto. by rewrite <-app_assoc.
  - apply initial_slashes_app; auto.
Qed.

(** The components of a directory, where a relative path leads from it, and the
    path of a list of components under the slashes of the directory. *)
Definition comps (d : str) : list str := norm_comps true (split_on slash d).
Definition leads (d rel : str) : list str := norm_comps true (split_on slash d ++ split_on slash rel).
Definition path_of (d : str) (l : list str) : str := replicate (initial_slashes d) slash ++ join $"/" l.

Lemma initial_slashes_abs d : startswith d $"/" = true -> ∃ n, initial_slashes d = S n.
Proof. unfold initial_slashes. intros ->. case_match; eauto. Qed.

Lemma normpath_abs d : startswith d $"/" = true -> normpath d = path_of d (comps d).
Proof. intros Hd. unfold normpath, path_of, comps. by destruct (initial_slashes_abs d Hd) as [n ->]. Qed.

Lemma normpath_join d rel :
  startswith d $"/" = true -> startswith rel $"/" = false ->
  normpath (path_join d rel) = path_of d (leads d rel).
Proof.
  intros Hd Hr. unfold normpath, path_of, leads, norm_comps. rewrite initial_slashes_join by done.
  destruct (initial_slashes_abs d Hd) as [n ->]. cbn [Nat.eqb negb]. rewrite norm_join by done.
  by rewrite foldl_app.
Qed.

(** *** Components of absolute paths *)
Definition clean (c : str) : Prop := c ≠ [] ∧ c ≠ $"." ∧ c ≠ $".." ∧ slash ∉ c.

Lemma norm_step_clean acc c : Forall clean acc -> slash ∉ c -> Forall clean (norm_step true acc c).
Proof.
  intros Ha Hc. unfold norm_step. case_bool_decide as Hd; [done|]. simpl.
  destruct (decide (c = $"..")) as [->|Hne].
  - rewrite bool_decide_false by (intros H; by apply H). simpl. rewrite bool_decide_false.
    + destruct acc; [done|]. by inversion Ha.
    + destruct acc as [|a acc]; [done|]. intros [= ->]. inversion Ha as [|?? H]; subst. by destruct H as (_ & _ & H & _).
  - rewrite bool_decide_true by done. simpl. constructor; [|done]. split_and!; naive_solver.
Qed.

Lemma norm_fold_clean acc l :
  Forall clean acc -> Forall (fun c => slash ∉ c) l -> Forall clean (foldl (norm_step true) acc l).
Proof.
  intros Ha Hl. revert acc Ha. induction Hl as [|c l Hc _ IH]; intros acc Ha; simpl; [done|].
  apply IH. by apply norm_step_clean.
Qed.

Lemma leads_clean d rel : Forall clean (leads d rel).
Proof.
  unfold leads, norm_comps. apply Forall_reverse, norm_fold_clean; [constructor|].
  apply Forall_app; split; apply split_on_clean.
Qed.

Lemma comps_clean d : Forall clean (comps d).
Proof. unfold comps, norm_comps. apply Forall_reverse, norm_fold_clean; [constructor|]. apply split_on_clean. Qed.

(** A path without [".."] leads into the directory. *)
Lemma leads_inside d rel :
  $".." ∉ split_on slash rel ->
  leads d rel = comps d ++ filter (fun c => c ≠ [] ∧ c ≠ $".") (split_on slash rel).
Proof.
  unfold leads, comps, norm_comps. rewrite foldl_app. generalize (foldl (norm_step true) [] (split_on slash d)).
  intros acc. generalize (split_on slash rel). intros l. revert acc. induction l as [|c l IH]; intros acc Hl; simpl.
  { by rewrite app_nil_r. }
  rewrite IH by set_solver. unfold norm_step. rewrite filter_cons.
  case_bool_decide as Hc.
  - rewrite decide_False; [done|]. naive_solver.
  - rewrite decide_True by naive_solver. rewrite (bool_decide_true (c ≠ $"..")) by set_solver. simpl.
    rewrite reverse_cons, <-app_assoc. done.
Qed.

(** *** Prefixes of paths *)
Lemma prefix_no_slash (c c' t : str) : slash ∉ c -> c `prefix_of` c' ++ slash :: t -> c `prefix_of` c'.
Proof.
  intros Hc [k Hk]. destruct (app_eq_inv _ _ _ _ Hk) as [(m & -> & Hm)|(m & -> & Hm)].
  - by exists m.
  - destruct m as [|x m]; [exists []; by rewrite !app_nil_r|]. simpl in Hm. injection Hm as Hx _. set_solver.
Qed.

Lemma slash_split (a b x y : str) : slash ∉ a -> slash ∉ b -> a ++ slash :: x = b ++ slash :: y -> a = b ∧ x = y.
Proof.
  intros Ha Hb H. pose proof (partition_app slash a x Ha) as P. rewrite H, (partition_app slash b y Hb) in P.
  by injection P as <- <-.
Qed.

Definition inside (dir l : list str) : Prop := ∃ rest, l = dir ++ rest.
Definition beside (dir l : list str) : Prop :=
  ∃ parent name more rest, dir = parent ++ [name] ∧ more ≠ [] ∧ l = parent ++ (name ++ more) :: rest.

Lemma join_prefix (dir l : list str) :
  Forall clean dir -> Forall clean l -> join $"/" dir `prefix_of` join $"/" l -> inside dir l ∨ beside dir l.
Proof.
  intros Hd. revert l. induction Hd as [|c dir Hc Hdir IH]; intros l Hl Hp; [left; by exists l|].
  destruct Hc as (Hne & _ & _ & Hns). destruct Hl as [|c' l Hc' Hl].
  { exfalso. apply prefix_nil_inv in Hp. by destruct dir as [|c2 dir], c. }
  destruct Hc' as (_ & _ & _ & Hns'). destruct dir as [|c2 dir].
  - assert (c `prefix_of` c') as [more Hm].
    { destruct l as [|c3 l]; [done|]. rewrite (join_cons _ c') in Hp by done. exact (prefix_no_slash c c' _ Hns Hp). }
    destruct more as [|x more].
    + left. exists l. rewrite app_nil_r in Hm. by subst.
    + right. exists [], c, (x :: more), l. split_and!; [done..|]. by subst.
  - destruct l as [|c3 l].
    { exfalso. rewrite (join_cons _ c) in Hp by done. destruct Hp as [k Hk]. simpl in Hk. apply Hns'. rewrite Hk.
      change $"/" with [slash]. set_solver. }
    rewrite (join_cons _ c), (join_cons _ c') in Hp by done. destruct Hp as [k Hk].
    rewrite <-!app_assoc in Hk. change $"/" with [slash] in Hk at 1 3. simpl in Hk.
    apply slash_split in Hk as [-> Hk]; [|done..].
    destruct (IH (c3 :: l) Hl) as [[rest Hr]|(pa & na & mo & re & Hd & Hmo & Hr)]; [by exists k| |].
    + left. exists rest. by rewrite Hr.
    + right. exists (c :: pa), na, mo, re. split_and!; [by rewrite Hd|done|by rewrite Hr].
Qed.

Lemma path_of_prefix d l :
  Forall clean l -> startswith (path_of d l) (path_of d (comps d)) = true -> inside (comps d) l ∨ beside (comps d) l.
Proof.
  intros Hl Hp. apply startswith_spec, prefix_app_inv in Hp. apply join_prefix; [apply comps_clean|done|done].
Qed.

Lemma path_of_inside d l : inside (comps d) l -> startswith (path_of d l) (path_of d (comps d)) = true.
Proof.
  intros [rest ->]. apply startswith_spec. unfold path_of. apply prefix_app. destruct rest as [|r rest]; [by rewrite app_nil_r|].
  generalize (comps d). intros dir. induction dir as [|c dir IH]; [apply prefix_nil|].
  rewrite <-app_comm_cons. destruct dir as [|c2 dir].
  - rewrite (join_cons _ c ([] ++ r :: rest)) by done. by apply prefix_app_r.
  - rewrite !join_cons by done. by apply prefix_app, prefix_app.
Qed.

Lemma lstrip_no_slash s : startswith (lstrip slash s) $"/" = false.
Proof.
  unfold lstrip. change $"/" with [slash]. induction s as [|c s IH]; [done|]. cbn [lstrip_by].
  destruct (slash =? c)%N eqn:E; [exact IH|]. by rewrite startswith_cons, E.
Qed.

(** C37: what [StaticFiles] serves.  For absolute directories, a file found for a
    request is where its path leads from one of the directories, or the index
    of it; a path without [..] never leads out of the directory, and any other
    one leads into the directory or into a place beside it whose name begins
    with the name of the directory.  If the path has no [..] and leads to a
    file of some directory, a file is served. *)
Theorem static_files_confined isdir isfile s path :
  Forall (fun d => startswith d $"/" = true) (all_directories s) ->
  let rel := lstrip slash path in
  (∀ p, _lookup isdir isfile s rel = Found p 200 ->
     isfile p = true ∧
     ∃ d, d ∈ all_directories s
       ∧ (p = path_of d (leads d rel) ∨ html s = true ∧ p = path_join (path_of d (leads d rel)) $"index.html")
       ∧ (inside (comps d) (leads d rel) ∨ $".." ∈ split_on slash rel ∧ beside (comps d) (leads d rel)))
  ∧ (∀ d, d ∈ all_directories s -> $".." ∉ split_on slash rel -> isfile (path_of d (leads d rel)) = true ->
     ∃ p, _lookup isdir isfile s rel = Found p 200).
Proof.
  intros Habs rel. assert (startswith rel $"/" = false) as Hrel.
  { apply lstrip_no_slash. }
  clearbody rel. unfold _lookup. revert Habs. generalize (all_directories s). intros dirs Habs. split.
  - intros p Hp. assert (lookup_dirs isdir isfile (html s) dirs rel = Some p) as H.
    { destruct (lookup_dirs _ _ _ _ _); [by simplify_eq|]. repeat case_match; simplify_eq. }
    clear Hp. induction Habs as [|d dirs Hd _ IH]; [done|]. simpl in H.
    rewrite (normpath_join d rel Hd Hrel), (normpath_abs d Hd) in H.
    destruct (startswith (path_of d _) _) eqn:Hpre; simpl in H; [|destruct (IH H) as (? & d' & ? & ?); split; [done|exists d'; set_solver]].
    assert (inside (comps d) (leads d rel) ∨ $".." ∈ split_on slash rel ∧ beside (comps d) (leads d rel)) as Hin.
    { destruct (decide ($".." ∈ split_on slash rel)) as [Hdot|Hdot].
      - destruct (path_of_prefix d _ (leads_clean d rel) Hpre); auto.
      - left. eexists. by apply leads_inside. }
    destruct (isfile (path_of d _)) eqn:Hf; [simplify_eq; split; [done|]; exists d; split_and!; [set_solver|by left|done]|].
    destruct (html s && _ && _) eqn:Hi.
    + simplify_eq. apply andb_true_iff in Hi as [[Hh _]%andb_true_iff Hi]. split; [done|].
      exists d. split_and!; [set_solver|by right|done].
    + destruct (IH H) as (? & d' & ? & ?). split; [done|]. exists d'. set_solver.
  - intros d Hin Hdot Hf. assert (is_Some (lookup_dirs isdir isfile (html s) dirs rel)) as [p ->]; [|by exists p].
    induction Habs as [|d0 dirs Hd Habs IH]; [set_solver|]. simpl.
    rewrite (normpath_join d0 rel Hd Hrel), (normpath_abs d0 Hd).
    rewrite path_of_inside by (eexists; by apply leads_inside). simpl.
    destruct (isfile (path_of d0 _)) eqn:Hf0; [done|]. destruct (html s && _ && _); [done|].
    apply IH. apply elem_of_cons in Hin as [->|?]; [congruence|done].
Qed.

(** A site in [/srv/static] next to [/srv/static-private]: the directory is
    confined for plain paths, but [..] reaches the private one. *)
Module SampleSite.
Definition isfile (p : str) : bool :=
  bool_decide (p ∈ [$"/srv/static/css/site.css"; $"/srv/static-private/key.pem"; $"../key.pem"; $"a.txt"]).
Definition isdir (p : str) : bool := bool_decide (p ∈ [$"/srv/static"; $"/srv/static/css"]).
Definition site : StaticFiles := mkStatic (Some $"/srv/static") false [$"/srv/static"].
Definition here : StaticFiles := mkStatic (Some $".") false [$"."].
End SampleSite.

Lemma static_files_confined_witness :
  init SampleSite.isdir (fun _ _ => None) (Some $"/srv/static") [] false true = Ok SampleSite.site
  ∧ (∃ p, _lookup SampleSite.isdir SampleSite.isfile SampleSite.site (lstrip slash $"/css/./site.css") = Found p 200)
  ∧ _lookup SampleSite.isdir SampleSite.isfile SampleSite.site (lstrip slash $"/../static-private/key.pem")
    = Found $"/srv/static-private/key.pem" 200
  ∧ beside (comps $"/srv/static") (leads $"/srv/static" $"../static-private/key.pem").
Proof.
  split; [vm_compute; reflexivity|]. split; [|split].
  - apply (static_files_confined SampleSite.isdir SampleSite.isfile SampleSite.site $"/css/./site.css")
      with (d := $"/srv/static").
    + repeat constructor.
    + set_solver.
    + apply (bool_decide_eq_true_1 _). vm_compute. reflexivity.
    + vm_compute. reflexivity.
  - vm_compute. reflexivity.
  - exists [$"srv"], $"static", $"-private", [$"key.pem"]. split_and!; [vm_compute; reflexivity|done|vm_compute; reflexivity].
Defined.

(** With the relative directory ["."] the check is the wrong way round: files
    above the directory are served, those in it are not. *)
Lemma static_dot_directory :
  _lookup SampleSite.isdir SampleSite.isfile SampleSite.here $"../key.pem" = Found $"../key.pem" 200
  ∧ SampleSite.isfile $"a.txt" = true
  ∧ _lookup SampleSite.isdir SampleSite.isfile SampleSite.here $"a.txt" = NotFound.
Proof. split_and!; vm_compute; reflexivity. Qed.

(** ** Mounted applications *)

Lemma rstrip_no_slash_end s : endswith s $"/" = false -> rstrip slash s = s.
Proof.
  unfold endswith, rstrip, rstrip_by. change (reverse $"/") with [slash]. intros H.
  rewrite <-(reverse_involutive s) at 2. f_equal. destruct (reverse s) as [|c t]; [done|].
  rewrite startswith_cons, startswith_nil, andb_true_r in H. cbn [lstrip_by]. by rewrite H.
Qed.

(** A mounted application sees the path below its prefix. *)
Lemma mount_sub_path_below prefix rest :
  endswith prefix $"/" = false -> mount_sub_path (prefix ++ slash :: rest) prefix = slash :: rest.
Proof.
  intros Hp. unfold mount_sub_path. rewrite rstrip_no_slash_end, drop_app_length by done.
  change $"/" with [slash]. by rewrite startswith_cons, N.eqb_refl, startswith_nil.
Qed.

(** Static files mounted on the compiled server are looked up below the mount. *)
Lemma mounted_static_lookup isdir isfile fs_stat fs_read guess s prefix rest ctx :
  endswith prefix $"/" = false -> prefix ≠ [] -> ctx_path ctx = Some (prefix ++ slash :: rest) ->
  static_app isdir isfile fs_stat fs_read guess s (mount_scope ctx prefix)
  = respond_found fs_stat fs_read guess (_lookup isdir isfile s (lstrip slash rest))
      (Some (or_text (ctx_method ctx) $"GET")).
Proof.
  intros Hp Hne Hc. unfold static_app, mount_scope. cbn [sc_type sc_path sc_method]. rewrite Hc.
  replace (or_text _ _) with (prefix ++ slash :: rest) by (by destruct prefix).
  by rewrite mount_sub_path_below.
Qed.

(** Headers are copied one by one into a mapping, so of several cookies only
    the last one is sent. *)
Lemma mounted_cookies_lost :
  ∃ r, mount_endpoint
         (fun _ => run_ok [ResponseStart 200 [($"set-cookie", $"a=1"); ($"set-cookie", $"b=2")]; ResponseBody $"ok" false])
         $"/sub" (mkContext None (Some $"/sub/x") [] []) = Ok r
       ∧ MH.raw_values (_raw_headers r) $"set-cookie" = [$"b=2"].
Proof. eexists. split; vm_compute; reflexivity. Qed.
