(* ===== verification/ExceptionHandler.v ===== *)
(** * ExceptionHandler: [_exception_handler.py], [exception_handlers.py],
    [exceptions.py] and the registry of [ExceptionMiddleware]

    An application wrapped by [wrap_app_handling_exceptions] turns the
    exceptions it has a handler for into responses.  Exception classes are
    their names; [exn_mro] is the method resolution order of the class of an
    exception. *)

From S2P Require Import Prelude PyStr Asgi MutableHeaders Responses.

(** ** Classes of exceptions *)
Definition base_mro : list str := [$"Exception"; $"BaseException"; $"object"].

Definition exn_mro (e : exn) : list str :=
  match e with
  | KeyError _ => $"KeyError" :: $"LookupError" :: base_mro
  | IndexError => $"IndexError" :: $"LookupError" :: base_mro
  | ValueError _ => $"ValueError" :: base_mro
  | TypeError _ => $"TypeError" :: base_mro
  | AssertionError _ => $"AssertionError" :: base_mro
  | AttributeError _ => $"AttributeError" :: base_mro
  | RuntimeError _ => $"RuntimeError" :: base_mro
  | UnicodeEncodeError => $"UnicodeEncodeError" :: $"UnicodeError" :: $"ValueError" :: base_mro
  | UnicodeDecodeError => $"UnicodeDecodeError" :: $"UnicodeError" :: $"ValueError" :: base_mro
  | CookieError _ => $"CookieError" :: base_mro
  | OverflowError => $"OverflowError" :: $"ArithmeticError" :: base_mro
  | NotImplementedError => $"NotImplementedError" :: $"RuntimeError" :: base_mro
  | HTTPException _ _ _ => $"HTTPException" :: $"_BaseHTTPException" :: base_mro
  | WebSocketException _ _ => $"WebSocketException" :: base_mro
  | WebSocketDisconnect _ _ => $"WebSocketDisconnect" :: base_mro
  | NoMatchFound _ _ => $"NoMatchFound" :: base_mro
  | DependencyScopeError _ =>
      $"DependencyScopeError" :: $"AstraAPIError" :: $"RuntimeError" :: base_mro
  | RecursionError => $"RecursionError" :: $"RuntimeError" :: base_mro
  | AstraAPIError _ => $"AstraAPIError" :: $"RuntimeError" :: base_mro
  | PydanticV1NotSupportedError _ =>
      $"PydanticV1NotSupportedError" :: $"AstraAPIError" :: $"RuntimeError" :: base_mro
  | UserException mro _ => mro
  end.

Definition isinstance (e : exn) (cls : str) : bool := bool_decide (cls ∈ exn_mro e).

(** [exc.status_code] if [isinstance(exc, HTTPException)]. *)
Definition http_status (e : exn) : option Z :=
  match e with
  | HTTPException code _ _ => Some code
  | UserException mro code => if bool_decide ($"HTTPException" ∈ mro) then Some code else None
  | _ => None
  end.

(** ** Handler registries *)

(** [_lookup_exception_handler]: the first class of the MRO with a handler. *)
Fixpoint lookup_mro {H} (exc_handlers : list (str * H)) (mro : list str) : option H :=
  match mro with
  | [] => None
  | cls :: mro' =>
      if dict_mem exc_handlers cls then dict_get exc_handlers cls
      else lookup_mro exc_handlers mro'
  end.

Definition _lookup_exception_handler {H} (exc_handlers : list (str * H)) (e : exn) : option H :=
  lookup_mro exc_handlers (exn_mro e).

(** The registry kept by [ExceptionMiddleware]. *)
Module ExcMiddleware.
Section registry.
Context {H : Type}.

Inductive handler_key : Type := Status (code : Z) | Class (cls : str).

Record Registry : Type := mkRegistry {
  _exception_handlers : list (str * H);
  _status_handlers : list (Z * H)
}.

Definition add_exception_handler (r : Registry) (key : handler_key) (h : H) : Registry :=
  match key with
  | Status code => mkRegistry (_exception_handlers r) (dict_set (_status_handlers r) code h)
  | Class cls => mkRegistry (dict_set (_exception_handlers r) cls h) (_status_handlers r)
  end.

Definition init (handlers : option (list (handler_key * H))) : Registry :=
  foldl (fun r '(k, h) => add_exception_handler r k h) (mkRegistry [] []) (get_or handlers []).

Definition _lookup_handler (r : Registry) (e : exn) : option H :=
  lookup_mro (_exception_handlers r) (exn_mro e).
End registry.
Arguments Registry H : clear implicits.
End ExcMiddleware.

(** ** [wrap_app_handling_exceptions] *)

(** A handler returns a response application, or [None] when it has answered
    by itself. *)
Definition handler : Type := Scope -> exn -> result (option asgi_app).

Definition is_start (m : message) : bool :=
  match m with ResponseStart _ _ => true | _ => false end.

Definition find_handler (exception_handlers : list (str * handler))
    (status_handlers : list (Z * handler)) (e : exn) : option handler :=
  let by_status := match http_status e with Some code => dict_get status_handlers code | None => None end in
  match by_status with
  | Some h => Some h
  | None => _lookup_exception_handler exception_handlers e
  end.

Definition started_error : exn :=
  RuntimeError $"Caught handled exception, but response already started.".

(** [conn] is the scope of the connection the handlers are given. *)
Definition wrap_app_handling_exceptions (app : asgi_app)
    (exception_handlers : list (str * handler)) (status_handlers : list (Z * handler))
    (conn : Scope) : asgi_app :=
  fun scope =>
    let r := app scope in
    match ended r with
    | Ok _ => r
    | Raise e =>
        if negb (isinstance e $"Exception") then r
        else
          match find_handler exception_handlers status_handlers e with
          | None => r
          | Some h =>
              if existsb is_start (sent r) then run_raise (sent r) started_error
              else
                match h conn e with
                | Raise e' => run_raise (sent r) e'
                | Ok None => run_ok (sent r)
                | Ok (Some response) => run_seq (run_ok (sent r)) (response scope)
                end
          end
    end.

(** ** [exception_handlers.py] *)

(** A status code is absent, a number, or one of the OpenAPI range keys. *)
Inductive status_key : Type := SNone | SInt (code : Z) | SStr (s : str).

#[global] Instance status_key_eq_dec : EqDecision status_key.
Proof. solve_decision. Defined.

Definition range_keys : list str := [$"default"; $"1XX"; $"2XX"; $"3XX"; $"4XX"; $"5XX"].

Definition allowed_code (code : Z) : bool :=
  negb (bool_decide (code < 200 ∨ code = 204 ∨ code = 205 ∨ code = 304)).

Definition _is_body_allowed_for_status_code (k : status_key) : result bool :=
  match k with
  | SNone => Ok true
  | SInt code => Ok (allowed_code code)
  | SStr s =>
      if bool_decide (s ∈ range_keys) then Ok true
      else let! code := py_int s in Ok (allowed_code code)
  end.

Section handlers.
Context {J : Type} (json_dumps : J -> result bytes) (detail_object : option str -> J).

(** The answer to an [HTTPException]: [{"detail": exc.detail}] as JSON, or an
    empty body when the status does not allow one. *)
Definition http_exception_handler (status : Z) (detail : option str)
    (headers : option (list (str * str))) : result Response :=
  let! allowed := _is_body_allowed_for_status_code (SInt status) in
  if allowed then
    JSONResponse json_dumps (Some (detail_object detail)) status (get_or headers []) None None
  else response CNone status (get_or headers []) None None.
End handlers.

Section validation.
Context {V : Type} (serialize_error_response : list (list (str * V)) -> bytes).

Definition without_url (e : list (str * V)) : list (str * V) := filter (fun kv => kv.1 ≠ $"url") e.

Definition request_validation_exception_handler (errors : list (list (str * V))) : result Response :=
  response (CBytes (serialize_error_response (without_url <$> errors))) 422 []
    (Some $"application/json") None.
End validation.

(** ** [exceptions.py] *)
Module Exceptions.
Record EndpointContext : Type := mkCtx {
  ctx_function : option str;
  ctx_path : option str;
  ctx_file : option str;
  ctx_line : option Z
}.

Definition no_context : EndpointContext := mkCtx None None None None.

Section validation_exception.
Context {E : Type} (err_str : E -> str).

Record ValidationException : Type := mkValidation {
  _errors : list E;
  endpoint_function : option str;
  endpoint_path : option str;
  endpoint_file : option str;
  endpoint_line : option Z
}.

Definition init_validation (errors : list E) (endpoint_ctx : option EndpointContext)
    : ValidationException :=
  let ctx := get_or endpoint_ctx no_context in
  mkValidation errors (ctx_function ctx) (ctx_path ctx) (ctx_file ctx) (ctx_line ctx).

Definition errors (v : ValidationException) : list E := _errors v.

(** Truth of an optional string or number. *)
Definition truthy (o : option str) : bool :=
  match o with Some (_ :: _) => true | _ => false end.
Definition truthy_int (o : option Z) : bool :=
  match o with Some z => negb (z =? 0) | None => false end.

Definition nl : str := [10%N].
Definition dq : str := [34%N].

Definition _format_endpoint_context (v : ValidationException) : str :=
  if negb (truthy (endpoint_file v) && truthy_int (endpoint_line v)
           && truthy (endpoint_function v)) then
    if truthy (endpoint_path v) then nl ++ $"  Endpoint: " ++ get_or (endpoint_path v) [] else []
  else
    nl ++ $"  File " ++ dq ++ get_or (endpoint_file v) [] ++ dq ++ $", line "
       ++ Z_to_str (get_or (endpoint_line v) 0) ++ $", in " ++ get_or (endpoint_function v) []
    ++ (if truthy (endpoint_path v) then nl ++ $"    " ++ get_or (endpoint_path v) [] else []).

Definition to_str (v : ValidationException) : str :=
  let n := length (_errors v) in
  rstrip_by is_space
    (foldl (fun msg err => msg ++ $"  " ++ err_str err ++ nl)
       (N_to_str (N.of_nat n) ++ $" validation error" ++ (if (n =? 1)%nat then [] else $"s")
        ++ $":" ++ nl)
       (_errors v)
     ++ _format_endpoint_context v).
End validation_exception.
End Exceptions.

(** ** Properties *)

Lemma lookup_mro_Some {H} (hs : list (str * H)) mro h :
  lookup_mro hs mro = Some h ↔
  ∃ pre c post, mro = pre ++ c :: post ∧ Forall (fun c' => c' ∉ hs.*1) pre ∧ dict_get hs c = Some h.
Proof.
  induction mro as [|c mro IH]; simpl.
  - split; [done|]. intros ([|? ?] & ? & ? & ? & _); discriminate.
  - destruct (dict_mem hs c) eqn:E.
    + split; [intros Hg; by exists [], c, mro|].
      intros ([|c0 pre] & c' & post & [= -> ->] & Hf & Hg); [done|].
      apply Forall_cons in Hf as [Hf _]. by apply dict_mem_true in E.
    + rewrite IH. split.
      * intros (pre & c' & post & -> & Hf & Hg). exists (c :: pre), c', post.
        split_and!; [done| |done]. constructor; [by apply dict_mem_false|done].
      * intros ([|c0 pre] & c' & post & [= -> ->] & Hf & Hg).
        -- unfold dict_mem in E. by rewrite Hg in E.
        -- apply Forall_cons in Hf as [_ Hf]. by exists pre, c', post.
Qed.

Lemma lookup_mro_None {H} (hs : list (str * H)) mro :
  lookup_mro hs mro = None ↔ Forall (fun c => c ∉ hs.*1) mro.
Proof.
  induction mro as [|c mro IH]; simpl; [split; [constructor|done]|].
  rewrite Forall_cons, <-IH. destruct (dict_mem hs c) eqn:E.
  - pose proof E as E'. apply dict_mem_true in E'. unfold dict_mem in E.
    destruct (dict_get hs c); naive_solver.
  - apply dict_mem_false in E. naive_solver.
Qed.

Definition starts (ms : list message) : nat := length (filter (fun m => is_start m = true) ms).

Lemma starts_app a b : starts (a ++ b) = (starts a + starts b)%nat.
Proof. unfold starts. by rewrite filter_app, length_app. Qed.

Lemma starts_zero ms : existsb is_start ms = false -> starts ms = 0%nat.
Proof.
  unfold starts. induction ms as [|m ms IH]; [done|]. simpl. intros [Hm Hms]%orb_false_iff.
  rewrite filter_cons_False by congruence. auto.
Qed.

Lemma find_handler_elem ehs shs e h : find_handler ehs shs e = Some h -> h ∈ ehs.*2 ++ shs.*2.
Proof.
  unfold find_handler. intros H. apply elem_of_app.
  assert (Hin : ∀ K (d : list (K * handler)) `{EqDecision K} k, dict_get d k = Some h -> h ∈ d.*2).
  { intros K d ? k Hd%dict_get_elem. apply list_elem_of_fmap. by exists (k, h). }
  destruct (match http_status e with Some code => dict_get shs code | None => None end) eqn:E.
  - injection H as ->. destruct (http_status e); [|done]. right. eauto.
  - apply lookup_mro_Some in H as (pre & c & post & _ & _ & H). left. eauto.
Qed.

(** C40: an application wrapped by [wrap_app_handling_exceptions] never sends a
    second response start: when the application and the responses its handlers
    return send at most one each, so does the wrapped application, because a
    handled exception after the start becomes a [RuntimeError] and nothing more
    is sent.  Normal runs and exceptions without a handler pass through. *)
Theorem wrapped_app_single_start app ehs shs conn scope :
  (starts (sent (app scope)) <= 1)%nat ->
  (∀ h e resp, h ∈ ehs.*2 ++ shs.*2 -> h conn e = Ok (Some resp) ->
     (starts (sent (resp scope)) <= 1)%nat) ->
  let r := wrap_app_handling_exceptions app ehs shs conn scope in
  (starts (sent r) <= 1)%nat
  ∧ (is_ok (ended (app scope)) = true -> r = app scope)
  ∧ (∀ e, ended (app scope) = Raise e -> find_handler ehs shs e = None -> r = app scope)
  ∧ (∀ e h, ended (app scope) = Raise e -> isinstance e $"Exception" = true ->
       find_handler ehs shs e = Some h -> existsb is_start (sent (app scope)) = true ->
       r = run_raise (sent (app scope)) started_error).
Proof.
  intros Happ Hh. unfold wrap_app_handling_exceptions. split_and!.
  - destruct (ended (app scope)) as [|e]; [done|].
    destruct (isinstance e _); [|done]. simpl.
    destruct (find_handler ehs shs e) as [h|] eqn:Ef; [|done].
    destruct (existsb is_start _) eqn:Es; [done|]. apply find_handler_elem in Ef.
    destruct (h conn e) as [[resp|]|e'] eqn:Er; [|done|done].
    rewrite run_seq_ok. cbn [sent]. rewrite starts_app, (starts_zero _ Es). eauto.
  - by destruct (ended (app scope)).
  - intros e -> ->. by destruct (isinstance e _).
  - intros e h -> -> -> ->. done.
Qed.

Definition sample_scope : Scope :=
  mkScope Http $"/x" None None (Some $"GET") None None None None None None None false false.

Definition not_found_app : asgi_app := fun _ => run_raise [] (HTTPException 404 None None).
Definition teapot : asgi_app := fun _ => run_ok [ResponseStart 418 []; ResponseBody [] false].

Lemma wrapped_app_single_start_witness :
  let r := wrap_app_handling_exceptions not_found_app [] [(404, fun _ _ => Ok (Some teapot))]
             sample_scope sample_scope in
  (starts (sent r) <= 1)%nat ∧ r = teapot sample_scope.
Proof.
  split; [|reflexivity].
  apply (wrapped_app_single_start not_found_app [] [(404, fun _ _ => Ok (Some teapot))]);
    [vm_compute; lia|].
  intros h e resp Hin Heq. simpl in Hin. apply list_elem_of_singleton in Hin as ->.
  injection Heq as <-. vm_compute. lia.
Defined.

(** Handler lookup takes the status handler of an [HTTPException], or of a
    subclass of it, first and otherwise the handler of the most specific registered class in the method
    resolution order. *)
Theorem handler_lookup_correct ehs shs e h :
  find_handler ehs shs e = Some h ↔
  (∃ code, http_status e = Some code ∧ dict_get shs code = Some h)
  ∨ ((∀ code, http_status e = Some code -> code ∉ shs.*1)
     ∧ ∃ pre c post, exn_mro e = pre ++ c :: post
         ∧ Forall (fun c' => c' ∉ ehs.*1) pre ∧ dict_get ehs c = Some h).
Proof.
  unfold find_handler, _lookup_exception_handler. rewrite <-lookup_mro_Some.
  destruct (http_status e) as [code|]; [|naive_solver].
  destruct (dict_get shs code) eqn:E; [|apply dict_get_None in E as E'; naive_solver].
  split; [intros [= ->]; left; eauto|]. intros [(? & [= <-] & ?)|[Hn _]]; [congruence|].
  specialize (Hn _ eq_refl). apply dict_get_None in Hn. congruence.
Qed.

(** The answer to an [HTTPException] has its status, and carries
    [{"detail": ...}] exactly when the status allows a body: below 200 and for
    204, 205 and 304 the body is empty. *)
Theorem http_exception_answer {J} (json_dumps : J -> result bytes) (detail_object : option str -> J)
    status detail headers r :
  http_exception_handler json_dumps detail_object status detail headers = Ok r ->
  status_code r = status
  ∧ (allowed_code status = true -> json_dumps (detail_object detail) = Ok (body r)
       ∧ head (MH.raw_values (_raw_headers r) content_length)
         = Some (N_to_str (N.of_nat (length (body r)))))
  ∧ (allowed_code status = false -> body r = []).
Proof.
  unfold http_exception_handler, JSONResponse, response, init_response.
  cbn [_is_body_allowed_for_status_code rbind]. destruct (allowed_code status) eqn:Ea; intros H; inv_ok.
  - destruct (populate_content _ _ H) as (Hst & _ & Hb). cbn [status_code body media_type] in *.
    split_and!; [done| |done]. intros _.
    assert (bool_decide (status = 204 ∨ status = 304) = false) as Hn.
    { apply bool_decide_eq_false. unfold allowed_code in Ea. apply negb_true_iff, bool_decide_eq_false in Ea. lia. }
    rewrite Hn in Hb. destruct Hb as (-> & Hcl & _). simplify_eq/=. by rewrite Hcl.
  - destruct (populate_content _ _ H) as (Hst & _ & Hb). cbn [status_code body media_type] in *.
    split_and!; [done|done|]. intros _. simplify_eq/=. case_bool_decide; apply Hb.
Qed.

Lemma http_exception_answer_witness :
  ∃ r, http_exception_handler (J := option str) (fun d => Ok (get_or d $"null")) id 404 (Some $"gone") None = Ok r
    ∧ body r = $"gone".
Proof.
  eexists. split; [vm_compute; reflexivity|].
  destruct (http_exception_answer (J := option str) (fun d => Ok (get_or d $"null")) id 404 (Some $"gone") None
    _ ltac:(vm_compute; reflexivity)) as (_ & Hb & _).
  destruct (Hb eq_refl) as [Hj _]. symmetry. by apply (inj Ok).
Defined.
