(* ===== verification/Convertors.v ===== *)
(** * Convertors: path parameter convertors of [_routing_base.py]

    The five built-in convertors with their regular expressions, the registry
    [CONVERTOR_TYPES], and the fragment of Python's [re] they use: a greedy
    backtracking matcher that lists the ways to match a prefix in the order
    the engine tries them. *)

From S2P Require Import Prelude PyStr Asgi.

(** ** Regular expressions *)
Inductive regex : Type :=
  | Chr (p : N -> bool)
  | Rep (lo : nat) (hi : option nat) (p : N -> bool)
  | Cat (r s : regex)
  | Opt (r : regex).

(** Length of the longest prefix of characters of the class. *)
Fixpoint run_length (p : N -> bool) (s : str) : nat :=
  match s with
  | c :: s' => if p c then S (run_length p s') else O
  | [] => O
  end.

(** [hi, hi - 1, ..., lo] *)
Fixpoint downto (lo hi : nat) : list nat :=
  if (hi <? lo)%nat then []
  else hi :: match hi with O => [] | S h => downto lo h end.

(** The matched prefixes with what remains, in backtracking order: repetition
    and option are greedy. *)
Fixpoint splits (r : regex) (s : str) : list (str * str) :=
  match r with
  | Chr p =>
      match s with
      | c :: s' => if p c then [([c], s')] else []
      | [] => []
      end
  | Rep lo hi p =>
      let most := match hi with
                  | Some h => Nat.min h (run_length p s)
                  | None => run_length p s
                  end in
      (fun n => (take n s, drop n s)) <$> downto lo most
  | Cat r1 r2 =>
      splits r1 s ≫= fun '(m1, rest) => (fun '(m2, rest') => (m1 ++ m2, rest')) <$> splits r2 rest
  | Opt r1 => splits r1 s ++ [([], s)]
  end.

(** ** Binary64 numbers *)

Definition round_half_even (num den : N) : N :=
  let q := (num / den)%N in
  let r := (num mod den)%N in
  if (2 * r <? den)%N then q
  else if (den <? 2 * r)%N then (q + 1)%N
  else if N.even q then q else (q + 1)%N.

(** [num * 2 ^ e] as a fraction. *)
Definition scale2 (num den : N) (e : Z) : N * N :=
  if e <? 0 then (num, (den * 2 ^ Z.to_N (- e))%N) else ((num * 2 ^ Z.to_N e)%N, den).
Definition scale10 (num den : N) (e : Z) : N * N :=
  if e <? 0 then (num, (den * 10 ^ Z.to_N (- e))%N) else ((num * 10 ^ Z.to_N e)%N, den).

(** The nearest binary64 value of a non-negative fraction, [None] on overflow. *)
Definition round_ratio (num den : N) : option (N * Z) :=
  if (num =? 0)%N then Some (0%N, -1074)
  else
    let e0 := Z.of_N (N.log2 num) - Z.of_N (N.log2 den) - 52 in
    let '(n0, d0) := scale2 num den (- e0) in
    let e1 := if (n0 <? d0 * 2 ^ 52)%N then e0 - 1 else e0 in
    let e := Z.max e1 (-1074) in
    let '(n1, d1) := scale2 num den (- e) in
    let q := round_half_even n1 d1 in
    let '(m, e') := if (q =? 2 ^ 53)%N then ((2 ^ 52)%N, e + 1) else (q, e) in
    if 971 <? e' then None else Some (m, e').

(** Digits in groups separated by single underscores. *)
Definition digit_groups (s : str) : option str :=
  let groups := split_on 95 s in
  if forallb (fun g => bool_decide (g ≠ []) && forallb is_digit g) groups
  then Some (concat groups) else None.

Definition opt_groups (s : str) : option str :=
  match s with [] => Some [] | _ => digit_groups s end.

Definition float_error (s : str) : exn :=
  ValueError ($"could not convert string to float: '" ++ s ++ $"'").

(** [mantissa[.fraction][e exponent]] as digits and a power of ten. *)
Definition decimal_literal (u : str) : option (N * Z) :=
  let '(mant, has_e, ex) := partition 101 u in
  let '(ip, _, fp) := partition 46 mant in
  match opt_groups ip, opt_groups fp with
  | Some i, Some f =>
      if bool_decide (i ++ f = []) then None
      else
        let base := - Z.of_nat (length f) in
        if has_e then
          let '(neg, e) := int_sign ex in
          match digit_groups e with
          | Some d =>
              let v := Z.of_N (digits_value d) in
              Some (digits_value (i ++ f), base + (if neg then - v else v))
          | None => None
          end
        else Some (digits_value (i ++ f), base)
  | _, _ => None
  end.

(** [float(s)] of a text. *)
Definition float_of_str (s : str) : result float64 :=
  let '(neg, t) := int_sign (strip s) in
  let u := str_lower t in
  if bool_decide (u = $"inf" ∨ u = $"infinity") then Ok (Infinite neg)
  else if bool_decide (u = $"nan") then Ok NaN
  else
    match decimal_literal u with
    | Some (n, e) =>
        let '(num, den) := scale10 n 1 e in
        match round_ratio num den with
        | Some (m, x) => Ok (Finite neg m x)
        | None => Ok (Infinite neg)
        end
    | None => Raise (float_error s)
    end.

(** Fixed-width decimal digits of [n mod 10 ^ k]. *)
Fixpoint dec_fixed (k : nat) (n : N) : str :=
  match k with
  | O => []
  | S k' => dec_fixed k' (n / 10) ++ [(48 + n mod 10)%N]
  end.

(** ["%0.20f" % value] of a finite value. *)
Definition format_20f (neg : bool) (m : N) (e : Z) : str :=
  let '(num, den) := scale2 (m * 10 ^ 20) 1 e in
  let q := round_half_even num den in
  (if neg then $"-" else []) ++ N_to_str (q / 10 ^ 20) ++ $"." ++ dec_fixed 20 (q mod 10 ^ 20).

(** *** [repr] of a float: the shortest digits that read back the same *)

(** The decimal point position [k], [10 ^ (k - 1) <= num / den < 10 ^ k]. *)
Definition decpt (num den : N) : Z :=
  if (den <=? num)%N then Z.of_nat (length (N_to_str (num / den)))
  else
    let l := Z.of_nat (length (N_to_str (den / num))) - 1 in
    let '(n1, d1) := scale10 num den l in
    if (d1 <=? n1)%N then 1 - l else - l.

(** Does [d * 10 ^ x] read back as the value? *)
Definition reads_back (d : N) (x : Z) (v : N * Z) : bool :=
  let '(num, den) := scale10 d 1 x in bool_decide (round_ratio num den = Some v).

Fixpoint shortest (count : nat) (n k : Z) (num den : N) (v : N * Z) : N :=
  let '(a, b) := scale10 num den (n - k) in
  let lo := (a / b)%N in
  let hi := (lo + 1)%N in
  let x := k - n in
  let near := round_half_even a b in
  let far := if (near =? lo)%N then hi else lo in
  match count with
  | O => near
  | S c =>
      if reads_back near x v then near
      else if reads_back far x v then far
      else shortest c (n + 1) k num den v
  end.

Definition rstrip_zeros (s : str) : str := rstrip 48 s.

Definition repr_digits (digits : str) (k : Z) : str :=
  let n := Z.of_nat (length digits) in
  if bool_decide (-4 < k <= 16) then
    if k <=? 0 then $"0." ++ replicate (Z.to_nat (- k)) 48%N ++ digits
    else if n <=? k then digits ++ replicate (Z.to_nat (k - n)) 48%N ++ $".0"
    else take (Z.to_nat k) digits ++ $"." ++ drop (Z.to_nat k) digits
  else
    let x := k - 1 in
    take 1 digits ++ (if 1 <? n then $"." ++ drop 1 digits else [])
    ++ $"e" ++ (if x <? 0 then $"-" else $"+")
    ++ (if Z.abs x <? 10 then $"0" else []) ++ N_to_str (Z.abs_N x).

Definition float_repr (f : float64) : str :=
  match f with
  | NaN => $"nan"
  | Infinite neg => if neg then $"-inf" else $"inf"
  | Finite neg m e =>
      (if neg then $"-" else [])
      ++ if (m =? 0)%N then $"0.0"
         else
           let '(num, den) := scale2 m 1 e in
           let k := decpt num den in
           let ds := N_to_str (shortest 16 1 k num den (m, e)) in
           (* a carry makes the digits one longer *)
           let count := length ds in
           let v := rstrip_zeros ds in
           let k' := if reads_back (digits_value ds) (k - Z.of_nat count) (m, e) then k else k + 1 in
           repr_digits v k'
  end.

(** ** UUIDs *)
Definition brace (c : N) : bool := (c =? 123)%N || (c =? 125)%N.

(** [uuid.UUID(hex)] *)
Definition uuid_of_str (s : str) : result N :=
  let h := replace $"uuid:" [] (replace $"urn:" [] s) in
  let h := replace $"-" [] (rstrip_by brace (lstrip_by brace h)) in
  if negb (length h =? 32)%nat then Raise (ValueError $"badly formed hexadecimal UUID string")
  else if forallb is_hex h then Ok (hexdigits_value h)
  else Raise (ValueError $"invalid literal for int() with base 16").

Definition uuid_str (u : N) : str :=
  let h := hex_fixed 32 u in
  take 8 h ++ $"-" ++ take 4 (drop 8 h) ++ $"-" ++ take 4 (drop 12 h) ++ $"-"
  ++ take 4 (drop 16 h) ++ $"-" ++ drop 20 h.

(** ** Conversions of a parameter value *)

(** [str(value)] *)
Definition str_of (v : pval) : result str :=
  match v with
  | PStr s => Ok s
  | PInt z => py_str_int z
  | PFloat f => Ok (float_repr f)
  | PUuid u => Ok (uuid_str u)
  end.

(** [int(value)] *)
Definition int_of (v : pval) : result Z :=
  match v with
  | PInt z => Ok z
  | PStr s => py_int s
  | PUuid u => Ok (Z.of_N u)
  | PFloat (Finite neg m e) =>
      let '(num, den) := scale2 m 1 e in
      let t := Z.of_N (num / den) in Ok (if neg then - t else t)
  | PFloat (Infinite _) => Raise OverflowError
  | PFloat NaN => Raise (ValueError $"cannot convert float NaN to integer")
  end.

(** [float(value)] *)
Definition float_of (v : pval) : result float64 :=
  match v with
  | PFloat f => Ok f
  | PStr s => float_of_str s
  | PInt z =>
      match round_ratio (Z.abs_N z) 1 with
      | Some (m, e) => Ok (Finite (z <? 0) m e)
      | None => Raise OverflowError
      end
  | PUuid _ => Raise (TypeError $"float() argument must be a string or a real number, not 'UUID'")
  end.

(** ** The convertors *)
Record Convertor : Type := mkConvertor {
  cv_regex : regex;
  convert : str -> result pval;
  to_string : pval -> result str
}.

Definition not_slash (c : N) : bool := negb (c =? 47)%N.
Definition not_newline (c : N) : bool := negb (c =? 10)%N.

Definition StringConvertor : Convertor := mkConvertor
  (Rep 1 None not_slash)
  (fun value => Ok (PStr value))
  (fun value =>
     let! value := str_of value in
     let! _ := py_assert (negb (contains_char 47 value)) $"May not contain path separators" in
     let! _ := py_assert (bool_decide (value ≠ [])) $"Must not be empty" in
     Ok value).

Definition IntegerConvertor : Convertor := mkConvertor
  (Rep 1 None is_digit)
  (fun value => let! z := py_int value in Ok (PInt z))
  (fun value =>
     let! value := int_of value in
     let! _ := py_assert (0 <=? value) $"Negative integers are not supported" in
     py_str_int value).

(** [value >= 0.0] *)
Definition float_nonneg (f : float64) : bool :=
  match f with
  | Finite neg m _ => negb neg || (m =? 0)%N
  | Infinite neg => negb neg
  | NaN => false
  end.

Definition FloatConvertor : Convertor := mkConvertor
  (Cat (Rep 1 None is_digit) (Opt (Cat (Chr (N.eqb 46)) (Rep 1 None is_digit))))
  (fun value => let! f := float_of_str value in Ok (PFloat f))
  (fun value =>
     let! value := float_of value in
     let! _ := py_assert (float_nonneg value) $"Negative floats are not supported" in
     match value with
     | NaN => Raise (AssertionError $"NaN values are not supported")
     | Infinite _ => Raise (AssertionError $"Infinite values are not supported")
     | Finite neg m e => Ok (rstrip 46 (rstrip 48 (format_20f neg m e)))
     end).

Definition PathConvertor : Convertor := mkConvertor
  (Rep 0 None not_newline)
  (fun value => Ok (PStr value))
  str_of.

Definition hex_run (n : nat) : regex := Rep n (Some n) is_hex.
Definition opt_hyphen : regex := Opt (Chr (N.eqb 45)).

Definition UUIDConvertor : Convertor := mkConvertor
  (Cat (hex_run 8) (Cat opt_hyphen (Cat (hex_run 4) (Cat opt_hyphen (Cat (hex_run 4)
    (Cat opt_hyphen (Cat (hex_run 4) (Cat opt_hyphen (hex_run 12)))))))))
  (fun value => let! u := uuid_of_str value in Ok (PUuid u))
  str_of.

(** [CONVERTOR_TYPES] as the module initialises it. *)
Definition CONVERTOR_TYPES : list (str * Convertor) :=
  [($"str", StringConvertor); ($"path", PathConvertor); ($"int", IntegerConvertor);
   ($"float", FloatConvertor); ($"uuid", UUIDConvertor)].

Definition register_url_convertor (types : list (str * Convertor)) (key : str) (c : Convertor)
    : list (str * Convertor) := dict_set types key c.

(** ** The matcher finds exactly the ways to match *)
Fixpoint lang (r : regex) (m : str) : Prop :=
  match r with
  | Chr p => ∃ c, m = [c] ∧ p c = true
  | Rep lo hi p =>
      Forall (fun c => p c = true) m ∧ (lo <= length m)%nat
      ∧ match hi with Some h => (length m <= h)%nat | None => True end
  | Cat r1 r2 => ∃ m1 m2, m = m1 ++ m2 ∧ lang r1 m1 ∧ lang r2 m2
  | Opt r1 => m = [] ∨ lang r1 m
  end.

Lemma elem_of_downto n lo hi : n ∈ downto lo hi ↔ (lo <= n <= hi)%nat.
Proof.
  induction hi as [|hi IH]; cbn [downto].
  - destruct (Nat.ltb_spec 0 lo); [rewrite elem_of_nil; lia | rewrite list_elem_of_singleton; lia].
  - destruct (Nat.ltb_spec (S hi) lo).
    + rewrite elem_of_nil. lia.
    + rewrite elem_of_cons, IH. lia.
Qed.

Lemma run_length_le p s : (run_length p s <= length s)%nat.
Proof. induction s as [|c s IH]; simpl; [lia|]. destruct (p c); lia. Qed.

Lemma run_length_take p s n :
  (n <= run_length p s)%nat -> Forall (fun c => p c = true) (take n s).
Proof.
  revert n. induction s as [|c s IH]; intros n; simpl; [by rewrite take_nil|].
  destruct (p c) eqn:E, n; simpl; try (constructor; fail || lia); try lia.
  intros. constructor; [done|]. apply IH. lia.
Qed.

Lemma run_length_app p m s :
  Forall (fun c => p c = true) m -> (length m <= run_length p (m ++ s))%nat.
Proof. induction 1 as [|c m Hc _ IH]; simpl; [lia|]. rewrite Hc. lia. Qed.

Lemma splits_spec r s m rest : (m, rest) ∈ splits r s ↔ s = m ++ rest ∧ lang r m.
Proof.
  revert s m rest. induction r as [p|lo hi p|r1 IH1 r2 IH2|r1 IH1]; intros s m rest; simpl.
  - destruct s as [|c s]; [|destruct (p c) eqn:E].
    + rewrite elem_of_nil. split; [done|]. by intros [? (? & -> & _)].
    + rewrite list_elem_of_singleton. split; [intros [= -> ->]; eauto|].
      by intros [Hs (c' & -> & _)]; simplify_eq/=.
    + rewrite elem_of_nil. split; [done|]. intros [Hs (c' & -> & Hc)]; simplify_eq/=; congruence.
  - rewrite list_elem_of_fmap. setoid_rewrite elem_of_downto. split.
    + intros (n & [= -> ->] & Hlo & Hhi). pose proof (run_length_le p s).
      assert (n <= run_length p s)%nat by (destruct hi; lia).
      rewrite take_drop, length_take. split_and!; [done|by apply run_length_take|lia|].
      destruct hi; [lia|done].
    + intros (-> & Hp & Hlo & Hhi). exists (length m). rewrite take_app_length, drop_app_length.
      pose proof (run_length_app p m rest Hp). split_and!; [done|done|]. destruct hi; lia.
  - rewrite list_elem_of_bind. split.
    + intros ([m1 rest1] & Hm & H1).
      apply list_elem_of_fmap in Hm as ([m2 rest2] & [= -> ->] & H2).
      apply IH1 in H1 as [-> H1]. apply IH2 in H2 as [-> H2]. rewrite <-app_assoc. eauto 8.
    + intros (-> & m1 & m2 & -> & H1 & H2). exists (m1, m2 ++ rest). split.
      * apply list_elem_of_fmap. exists (m2, rest). split; [done|]. by apply IH2.
      * apply IH1. by rewrite app_assoc.
  - rewrite elem_of_app, list_elem_of_singleton, IH1. naive_solver.
Qed.

(** ** What a convertor promises to the router *)

(** [dom] are the values the convertor is meant for: printing one gives a text
    of the convertor's language that reads back as the value. *)
Class LawfulConvertor (c : Convertor) (dom : pval -> Prop) : Prop := {
  law_lang v s : dom v -> to_string c v = Ok s -> lang (cv_regex c) s;
  law_convert v s : dom v -> to_string c v = Ok s -> convert c s = Ok v
}.

Definition dom_str (v : pval) : Prop := ∃ s, v = PStr s.
Definition dom_path (v : pval) : Prop := ∃ s, v = PStr s ∧ 10%N ∉ s.
Definition dom_int (v : pval) : Prop := ∃ z, v = PInt z.
Definition dom_uuid (v : pval) : Prop := ∃ u, v = PUuid u ∧ (u < 2 ^ 128)%N.

#[global] Instance string_lawful : LawfulConvertor StringConvertor dom_str.
Proof.
  split; intros v s [t ->] H; cbn in H; inv_ok; [|done].
  cbn. split_and!; [|by destruct s; simpl; [done|lia]|done].
  apply Forall_forall. intros c Hc. unfold not_slash. apply negb_true_iff, N.eqb_neq. intros ->.
  apply negb_true_iff, contains_char_false in H0. done.
Qed.

#[global] Instance path_lawful : LawfulConvertor PathConvertor dom_path.
Proof.
  split; intros v s (t & -> & Hn) H; cbn in H; inv_ok; [|done].
  cbn. split_and!; [|lia|done].
  apply Forall_forall. intros c Hc. unfold not_newline. apply negb_true_iff, N.eqb_neq. by intros ->.
Qed.

Lemma py_str_int_nonneg z s :
  0 <= z -> py_str_int z = Ok s ->
  s = N_to_str (Z.to_N z) ∧ (length s <= max_str_digits)%nat.
Proof.
  intros Hz. unfold py_str_int. rewrite <-(Z2N.id z) at 2 by done. rewrite Z_to_str_of_N.
  replace (Z.abs_N z) with (Z.to_N z) by lia.
  destruct (Nat.ltb_spec max_str_digits (length (N_to_str (Z.to_N z)))); intros; simplify_eq; auto.
Qed.

#[global] Instance int_lawful : LawfulConvertor IntegerConvertor dom_int.
Proof.
  split; intros v s (z & ->) H; cbn [to_string IntegerConvertor int_of rbind] in H; inv_ok;
    apply Z.leb_le in H0; apply py_str_int_nonneg in H as [-> Hl]; [|done| |done].
  - cbn. pose proof (N_to_str_digits (Z.to_N z)). pose proof (N_to_str_nonempty (Z.to_N z)).
    split_and!; [done| |done]. destruct (N_to_str (Z.to_N z)); simpl; [done|lia].
  - cbn [convert IntegerConvertor].
    rewrite py_int_digits by auto using N_to_str_nonempty, N_to_str_digits.
    cbn [rbind]. by rewrite digits_value_N_to_str, Z2N.id.
Qed.

Lemma hex_char_plain u c : c ∈ hex_fixed 32 u -> is_hex c = true.
Proof. intros Hc. pose proof (hex_fixed_hex 32 u) as H. rewrite Forall_forall in H. auto. Qed.

Ltac sub_elem :=
  repeat match goal with
  | H : _ ∈ take _ _ |- _ => apply subseteq_take_elem in H
  | H : _ ∈ drop _ _ |- _ => apply subseteq_drop_elem in H
  end.

(** The characters of a printed UUID are hexadecimal digits and hyphens. *)
Lemma uuid_str_chars u c : c ∈ uuid_str u -> is_hex c = true ∨ c = 45%N.
Proof.
  unfold uuid_str. rewrite !elem_of_app. intros H.
  destruct_or! H; sub_elem; try (right; by apply list_elem_of_singleton in H); left;
    by eapply hex_char_plain.
Qed.

Lemma uuid_str_concat u : filter (fun c => c ≠ 45%N) (uuid_str u) = hex_fixed 32 u.
Proof.
  assert (Hf : ∀ l : str, (∀ c, c ∈ l -> c ∈ hex_fixed 32 u) -> filter (fun c => c ≠ 45%N) l = l).
  { intros l Hl. apply filter_all. intros c Hc%Hl%hex_char_plain. by intros ->. }
  unfold uuid_str. rewrite !filter_app.
  change (filter (fun c => c ≠ 45%N) $"-") with (@nil N).
  rewrite !Hf by (intros c Hc; sub_elem; done). cbn [app].
  remember (hex_fixed 32 u) as h eqn:Eh.
  assert (Hlen : length h = 32%nat) by (subst; apply hex_fixed_length).
  clear -Hlen. do 32 (destruct h as [|? h]; [done|]). destruct h; [done|discriminate].
Qed.

Lemma uuid_of_str_str u : (u < 2 ^ 128)%N -> uuid_of_str (uuid_str u) = Ok u.
Proof.
  intros Hu. unfold uuid_of_str.
  assert (Hno : ∀ c, is_hex c = false -> c ≠ 45%N -> c ∉ uuid_str u).
  { intros c Hc Hh Hin. apply uuid_str_chars in Hin as [?|?]; congruence. }
  change $"urn:" with (117%N :: $"rn:"). change $"uuid:" with (117%N :: $"uid:").
  rewrite (replace_absent 117 $"rn:"), (replace_absent 117 $"uid:") by (apply Hno; done).
  rewrite lstrip_by_none, rstrip_by_none.
  2,3: apply Forall_forall; intros c Hc%uuid_str_chars; destruct Hc as [Hc|Hc]; [|by subst];
       unfold is_hex, is_digit, brace in *; char_cases; by subst.
  change $"-" with [45%N]. rewrite replace_delete, uuid_str_concat, hex_fixed_length. cbn [Nat.eqb negb].
  rewrite (proj2 (forallb_Forall _ _)) by apply hex_fixed_hex.
  by rewrite hexdigits_value_fixed.
Qed.

Lemma lang_hex_run n h : length h = n -> Forall (fun c => is_hex c = true) h -> lang (hex_run n) h.
Proof. intros <- H. simpl. split_and!; [done|lia|lia]. Qed.

Lemma lang_cat r1 r2 m1 m2 : lang r1 m1 -> lang r2 m2 -> lang (Cat r1 r2) (m1 ++ m2).
Proof. simpl. eauto. Qed.

#[global] Instance uuid_lawful : LawfulConvertor UUIDConvertor dom_uuid.
Proof.
  split; intros v s (u & -> & Hu) [= <-]; [|cbn [convert UUIDConvertor]; by rewrite uuid_of_str_str].
  pose proof (hex_fixed_hex 32 u) as Hh. pose proof (hex_fixed_length 32 u) as Hl.
  assert (Hyp : lang opt_hyphen $"-") by (right; by exists 45%N).
  unfold uuid_str. cbn [cv_regex UUIDConvertor].
  repeat (apply lang_cat; [apply lang_hex_run; [rewrite length_take, ?length_drop; lia | auto using Forall_take, Forall_drop] |];
          apply lang_cat; [exact Hyp|]).
  apply lang_hex_run; [rewrite length_drop; lia | auto using Forall_drop].
Qed.
