(* ===== verification/Routing.v ===== *)
(** * Routing: [_routing_base.py]

    Path compilation and matching, [Route], [WebSocketRoute], [Mount] and
    [Router].  A compiled path is the sequence of literals and named
    convertors that the source turns into one regular expression; matching
    tries the ways to split the path in the order of Python's [re]. *)

From S2P Require Import Prelude PyStr Asgi Responses ExceptionHandler Convertors.

(** ** Path templates *)

(** One element of a compiled path: escaped text or a named group. *)
Inductive seg : Type := Lit (s : str) | Param (name : str) (c : Convertor).

Record Compiled : Type := mkCompiled {
  segs : list seg;
  last_literal : str;
  path_format : str;
  param_convertors : list (str * Convertor)
}.

Definition ident_start (c : N) : bool := ascii_upper_letter c || ascii_lower_letter c || (c =? 95)%N.
Definition ident_char (c : N) : bool := ident_start c || is_digit c.

Definition scan_ident (s : str) : option (str * str) :=
  match s with
  | c :: _ =>
      if ident_start c then let n := run_length ident_char s in Some (take n s, drop n s)
      else None
  | [] => None
  end.

(** [PARAM_REGEX] after its opening brace: name, convertor type, remainder. *)
Definition scan_param (s : str) : option (str * str * str) :=
  match scan_ident s with
  | Some (name, c :: r) =>
      if (c =? 125)%N then Some (name, $"str", r)
      else if (c =? 58)%N then
        match scan_ident r with
        | Some (ty, d :: r') => if (d =? 125)%N then Some (name, ty, r') else None
        | _ => None
        end
      else None
  | _ => None
  end.

(** [PARAM_REGEX.finditer(path)]: the text before each match with the match's
    groups, and the text after the last one. *)
Fixpoint finditer (fuel : nat) (s text : str) : list (str * str * str) * str :=
  match fuel, s with
  | O, _ => ([], text ++ s)
  | _, [] => ([], text)
  | S f, c :: s' =>
      match (if (c =? 123)%N then scan_param s' else None) with
      | Some (name, ty, rest) =>
          let '(ms, tl) := finditer f rest [] in ((text, name, ty) :: ms, tl)
      | None => finditer f s' (text ++ [c])
      end
  end.

Definition param_matches (path : str) : list (str * str * str) * str :=
  finditer (length path) path [].

(** Lexicographic order, for [sorted]. *)
Fixpoint str_leb (a b : str) : bool :=
  match a, b with
  | [], _ => true
  | _, [] => false
  | x :: a', y :: b' => if (x =? y)%N then str_leb a' b' else (x <? y)%N
  end.
Fixpoint insert_sorted (x : str) (l : list str) : list str :=
  match l with
  | [] => [x]
  | y :: l' => if str_leb x y then x :: l else y :: insert_sorted x l'
  end.
Definition sorted (l : list str) : list str := foldr insert_sorted [] l.

Definition set_add (l : list str) (x : str) : list str := if bool_decide (x ∈ l) then l else l ++ [x].

Definition braced (name : str) : str := $"{" ++ name ++ $"}".
#[global] Arguments braced name : simpl never.

(** The loop over the matches: elements, format, convertors and the set of
    duplicated names. *)
Record compile_state : Type := mkCS {
  cs_segs : list seg;
  cs_format : str;
  cs_convertors : list (str * Convertor);
  cs_duplicated : list str
}.

Definition compile_step (types : list (str * Convertor)) (st : compile_state)
    (m : str * str * str) : result compile_state :=
  let '(text, name, ty) := m in
  match dict_get types ty with
  | None => Raise (AssertionError ($"Unknown path convertor '" ++ ty ++ $"'"))
  | Some c =>
      Ok (mkCS (cs_segs st ++ [Lit text; Param name c])
            (cs_format st ++ text ++ braced name)
            (dict_set (cs_convertors st) name c)
            (if dict_mem (cs_convertors st) name then set_add (cs_duplicated st) name
             else cs_duplicated st))
  end.

Definition duplicate_error (dups : list str) (path : str) : exn :=
  ValueError ($"Duplicated param name" ++ (if (1 <? length dups)%nat then $"s" else [])
    ++ $" " ++ join $", " (sorted dups) ++ $" at path " ++ path).

(** [types] is the current content of [CONVERTOR_TYPES]. *)
Definition compile_path (types : list (str * Convertor)) (path : str) : result Compiled :=
  let is_host := negb (startswith path $"/") in
  let '(ms, tl) := param_matches path in
  let! st := rfold (compile_step types) (mkCS [] [] [] []) ms in
  match cs_duplicated st with
  | _ :: _ => Raise (duplicate_error (cs_duplicated st) path)
  | [] =>
      Ok (mkCompiled (cs_segs st) (if is_host then split_head 58 tl else tl)
            (cs_format st ++ tl) (cs_convertors st))
  end.

(** [path_regex.match(s)]: the groups of every way to match, in backtracking
    order; ["$"] also matches before a final newline. *)
Definition at_end (rest : str) : bool := bool_decide (rest = [] ∨ rest = [10%N]).

Fixpoint match_segs (sg : list seg) (tl s : str) : list (list (str * str)) :=
  match sg with
  | [] => if startswith s tl && at_end (drop (length tl) s) then [[]] else []
  | Lit t :: sg' => if startswith s t then match_segs sg' tl (drop (length t) s) else []
  | Param n c :: sg' =>
      splits (cv_regex c) s ≫= fun '(m, rest) => cons (n, m) <$> match_segs sg' tl rest
  end.

Definition path_regex_match (cp : Compiled) (s : str) : option (list (str * str)) :=
  head (match_segs (segs cp) (last_literal cp) s).

(** The conversion loop over [match.groupdict()]. *)
Definition convert_params (cp : Compiled) (groups : list (str * str))
    : result (list (str * pval)) :=
  rmapM (fun '(key, value) =>
    match dict_get (param_convertors cp) key with
    | Some c => let! v := convert c value in Ok (key, v)
    | None => Raise (KeyError key)
    end) groups.

(** ** Helpers *)
Definition get_route_path (sc : Scope) : str :=
  let path := sc_path sc in
  let root_path := get_or (sc_root_path sc) [] in
  match root_path with
  | [] => path
  | _ =>
      if negb (startswith path root_path) then path
      else
        match drop (length root_path) path with
        | [] => []
        | c :: rest => if (c =? 47)%N then c :: rest else path
        end
  end.

(** [replace_params]: the path with the values filled in and the parameters
    that were not used. *)
Definition replace_step (cvs : list (str * Convertor)) (st : str * list (str * pval))
    (kv : str * pval) : result (str * list (str * pval)) :=
  let '(path, params) := st in
  let '(key, value) := kv in
  if contains (braced key) path then
    match dict_get cvs key with
    | None => Raise (KeyError key)
    | Some c =>
        let! s := to_string c value in
        Ok (replace (braced key) s path, dict_del params key)
    end
  else Ok (path, params).

Definition replace_params (path : str) (cvs : list (str * Convertor)) (params : list (str * pval))
    : result (str * list (str * pval)) :=
  rfold (replace_step cvs) (path, params) params.

(** [URLPath] *)
Record URLPath : Type := mkURLPath { up_path : str; up_protocol : str; up_host : str }.

Definition url_path (path protocol host : str) : result URLPath :=
  let! _ := py_assert (bool_decide (protocol ∈ [$"http"; $"websocket"; []])) [] in
  Ok (mkURLPath path protocol host).

(** [make_absolute_url] for a base URL given by its parsed scheme, network
    location and path. *)
Definition is_secure (scheme : str) : bool := bool_decide (scheme = $"https" ∨ scheme = $"wss").

Definition make_absolute_url (u : URLPath) (base_scheme base_netloc base_path : str) : str :=
  let scheme :=
    match up_protocol u with
    | [] => base_scheme
    | p => if decide (p = $"http") then (if is_secure base_scheme then $"https" else $"http")
           else (if is_secure base_scheme then $"wss" else $"ws")
    end in
  let netloc := match up_host u with [] => base_netloc | h => h end in
  scheme ++ $"://" ++ netloc ++ rstrip 47 base_path ++ up_path u.

(** [str(URL(scope=scope))] of [_request.py]. *)
Definition default_port (scheme : str) : option Z :=
  dict_get [($"http", 80); ($"https", 443); ($"ws", 80); ($"wss", 443)] scheme.

Definition url_of_scope (sc : Scope) : str :=
  let scheme := get_or (sc_scheme sc) $"http" in
  let path := get_or (sc_root_path sc) [] ++ sc_path sc in
  let url :=
    match sc_server sc with
    | Some (host, port) =>
        let netloc := if bool_decide (default_port scheme = Some port) then host
                      else host ++ $":" ++ Z_to_str port in
        scheme ++ $"://" ++ netloc ++ path
    | None => path
    end in
  match sc_query_string sc with
  | Some ((_ :: _) as qs) => url ++ $"?" ++ decode_latin1 qs
  | _ => url
  end.

(** [WebSocketClose] *)
Definition WebSocketClose (code : Z) (reason : option str) : asgi_app :=
  fun _ => run_ok [WsClose code (Some (get_or reason []))].

(** ** Routes *)
Inductive Match : Type := MNone | Partial | Full.

#[global] Instance Match_eq_dec : EqDecision Match.
Proof. solve_decision. Defined.

(** An ASGI middleware turns an application into another. *)
Definition middleware : Type := asgi_app -> asgi_app.

(** [for cls, args, kwargs in reversed(middleware): app = cls(app, ...)] *)
Definition apply_middleware (ms : option (list middleware)) (app : asgi_app) : asgi_app :=
  foldl (fun a (m : middleware) => m a) app (reverse (get_or ms [])).

Definition plain_text (text : str) (status : Z) (headers : list (str * str)) : run :=
  match PlainTextResponse (CStr text) status headers None None with
  | Ok r => send_response r
  | Raise e => run_raise [] e
  end.

Section adapters.
(** [scope["starlette.exception_handlers"]], empty when the key is absent. *)
Context (handlers_of : Scope -> list (str * handler) * list (Z * handler)).

(** [f] is the endpoint called with the request, returning a response. *)
Definition request_response (f : Scope -> result asgi_app) : asgi_app :=
  fun scope =>
    let '(ehs, shs) := handlers_of scope in
    wrap_app_handling_exceptions
      (fun sc => match f scope with Ok response => response sc | Raise e => run_raise [] e end)
      ehs shs scope scope.

(** [func] is the endpoint called with the WebSocket session. *)
Definition websocket_session (func : Scope -> run) : asgi_app :=
  fun scope =>
    let '(ehs, shs) := handlers_of scope in
    wrap_app_handling_exceptions (fun _ => func scope) ehs shs scope scope.
End adapters.

(** An endpoint: its identity, its [__name__] or class name, and whether it is
    a function (of the request or the session) or an ASGI application. *)
Inductive endpoint_kind (F : Type) : Type :=
  | Function (f : F)
  | AsgiApp (a : asgi_app).
Arguments Function {F} f.
Arguments AsgiApp {F} a.

Record endpoint (F : Type) : Type := mkEndpoint {
  ep_id : Z; ep_name : str; ep_kind : endpoint_kind F
}.
Arguments mkEndpoint {F}.
Arguments ep_id {F}.
Arguments ep_name {F}.
Arguments ep_kind {F}.

Definition http_endpoint : Type := endpoint (Scope -> result asgi_app).
Definition ws_endpoint : Type := endpoint (Scope -> run).

Definition get_name {F} (e : endpoint F) : str := ep_name e.

Record Route : Type := mkRoute {
  r_path : str;
  r_endpoint : Z;
  r_name : str;
  r_app : asgi_app;
  r_methods : option (list str);
  r_compiled : Compiled
}.

Definition slash_message : str := $"Routed paths must start with '/'".

(** [{method.upper() for method in methods}], with [HEAD] when there is [GET]. *)
Definition method_set (methods : list str) : list str :=
  let ms := foldl set_add [] (str_upper <$> methods) in
  if bool_decide ($"GET" ∈ ms) then set_add ms $"HEAD" else ms.

Section init.
Context (handlers_of : Scope -> list (str * handler) * list (Z * handler)).
Context (types : list (str * Convertor)).

Definition route_init (path : str) (e : http_endpoint) (methods : option (list str))
    (name : option str) (mw : option (list middleware)) : result Route :=
  let! _ := py_assert (startswith path $"/") slash_message in
  let '(app, methods) :=
    match ep_kind e with
    | Function f => (request_response handlers_of f, Some (get_or methods [$"GET"]))
    | AsgiApp a => (a, methods)
    end in
  let! cp := compile_path types path in
  Ok (mkRoute path (ep_id e) (get_or name (get_name e)) (apply_middleware mw app)
        (method_set <$> methods) cp).
End init.

(** [self.methods and scope["method"] not in self.methods] *)
Definition method_refused (methods : option (list str)) (sc : Scope) : result bool :=
  match methods with
  | Some ((_ :: _) as ms) =>
      match sc_method sc with
      | Some m => Ok (negb (bool_decide (m ∈ ms)))
      | None => Raise (KeyError $"method")
      end
  | _ => Ok false
  end.

(** The merged parameters of a match: [dict(scope.get("path_params", {}))]
    updated with the matched ones. *)
Definition merged_params (sc : Scope) (params : list (str * pval)) : list (str * pval) :=
  dict_update (get_or (sc_path_params sc) []) params.

Definition endpoint_child (ep : Z) (sc : Scope) (params : list (str * pval)) : ChildScope :=
  mkChild (Some ep) (Some (merged_params sc params)) None None.

Definition route_matches (r : Route) (sc : Scope) : result (Match * ChildScope) :=
  if decide (sc_type sc = Http) then
    match path_regex_match (r_compiled r) (get_route_path sc) with
    | Some groups =>
        let! params := convert_params (r_compiled r) groups in
        let child := endpoint_child (r_endpoint r) sc params in
        let! refused := method_refused (r_methods r) sc in
        Ok (if refused : bool then Partial else Full, child)
    | None => Ok (MNone, empty_child)
    end
  else Ok (MNone, empty_child).

Definition same_names (a b : list str) : bool := bool_decide (a ⊆ b ∧ b ⊆ a).

(** [url_path_for] of [Route] and [WebSocketRoute]. *)
Definition plain_url_path_for (own_name : str) (cp : Compiled) (protocol : str)
    (name : str) (params : list (str * pval)) : result URLPath :=
  if negb (bool_decide (name = own_name)) || negb (same_names params.*1 (param_convertors cp).*1)
  then Raise (NoMatchFound name params.*1)
  else
    let! (path, remaining) := replace_params (path_format cp) (param_convertors cp) params in
    let! _ := py_assert (bool_decide (remaining.*1 = [])) [] in
    url_path path protocol [].

Definition route_url_path_for (r : Route) := plain_url_path_for (r_name r) (r_compiled r) $"http".

Definition route_handle (r : Route) : asgi_app :=
  fun sc =>
    match method_refused (r_methods r) sc with
    | Raise e => run_raise [] e
    | Ok true =>
        let headers := [($"Allow", join $", " (get_or (r_methods r) []))] in
        if sc_app sc then run_raise [] (HTTPException 405 None (Some headers))
        else plain_text $"Method Not Allowed" 405 headers
    | Ok false => r_app r sc
    end.

(** ** WebSocket routes *)
Record WebSocketRoute : Type := mkWsRoute {
  w_path : str;
  w_endpoint : Z;
  w_name : str;
  w_app : asgi_app;
  w_compiled : Compiled
}.

Definition ws_route_init (handlers_of : Scope -> list (str * handler) * list (Z * handler))
    (types : list (str * Convertor)) (path : str) (e : ws_endpoint) (name : option str)
    (mw : option (list middleware)) : result WebSocketRoute :=
  let! _ := py_assert (startswith path $"/") slash_message in
  let app :=
    match ep_kind e with
    | Function f => websocket_session handlers_of f
    | AsgiApp a => a
    end in
  let! cp := compile_path types path in
  Ok (mkWsRoute path (ep_id e) (get_or name (get_name e)) (apply_middleware mw app) cp).

Definition ws_route_matches (w : WebSocketRoute) (sc : Scope) : result (Match * ChildScope) :=
  if decide (sc_type sc = Websocket) then
    match path_regex_match (w_compiled w) (get_route_path sc) with
    | Some groups =>
        let! params := convert_params (w_compiled w) groups in
        Ok (Full, endpoint_child (w_endpoint w) sc params)
    | None => Ok (MNone, empty_child)
    end
  else Ok (MNone, empty_child).

Definition ws_route_url_path_for (w : WebSocketRoute) :=
  plain_url_path_for (w_name w) (w_compiled w) $"websocket".

(** ** All route types; the routes of a [Mount] are those of its application *)
Inductive BaseRoute : Type :=
  | HttpRoute (r : Route)
  | WsRoute (w : WebSocketRoute)
  | MountRoute (path : str) (name : option str) (id : Z) (app : asgi_app) (cp : Compiled)
      (routes : list BaseRoute).

(** [Mount.matches] *)
Definition mount_matches (id : Z) (cp : Compiled) (sc : Scope) : result (Match * ChildScope) :=
  if bool_decide (sc_type sc = Http ∨ sc_type sc = Websocket) then
    let root_path := get_or (sc_root_path sc) [] in
    let route_path := get_route_path sc in
    match path_regex_match cp route_path with
    | Some groups =>
        let! params := convert_params cp groups in
        match dict_get params $"path" with
        | Some (PStr p) =>
            let remaining_path := $"/" ++ p in
            let matched_path := take (length route_path - length remaining_path) route_path in
            Ok (Full, mkChild (Some id) (Some (merged_params sc (dict_del params $"path")))
                        (Some (get_or (sc_app_root_path sc) root_path))
                        (Some (root_path ++ matched_path)))
        | Some _ => Raise (TypeError $"can only concatenate str")
        | None => Raise (KeyError $"path")
        end
    | None => Ok (MNone, empty_child)
    end
  else Ok (MNone, empty_child).

Definition matches (rt : BaseRoute) (sc : Scope) : result (Match * ChildScope) :=
  match rt with
  | HttpRoute r => route_matches r sc
  | WsRoute w => ws_route_matches w sc
  | MountRoute _ _ id _ cp _ => mount_matches id cp sc
  end.

Definition handle (rt : BaseRoute) : asgi_app :=
  match rt with
  | HttpRoute r => route_handle r
  | WsRoute w => w_app w
  | MountRoute _ _ _ app _ _ => app
  end.

(** [for route in routes: try: ... except NoMatchFound: pass] *)
Fixpoint first_url {A} (f : A -> result URLPath) (l : list A) : option (result URLPath) :=
  match l with
  | [] => None
  | a :: l' =>
      match f a with
      | Ok u => Some (Ok u)
      | Raise (NoMatchFound _ _) => first_url f l'
      | Raise e => Some (Raise e)
      end
  end.

Fixpoint url_path_for (rt : BaseRoute) (name : str) (params : list (str * pval)) {struct rt}
    : result URLPath :=
  match rt with
  | HttpRoute r => route_url_path_for r name params
  | WsRoute w => ws_route_url_path_for w name params
  | MountRoute _ own _ _ cp routes =>
      if bool_decide (own = Some name) && dict_mem params $"path" then
        match dict_get params $"path" with
        | Some (PStr p) =>
            let params1 := dict_set params $"path" (PStr (lstrip 47 p)) in
            let! (path, remaining) := replace_params (path_format cp) (param_convertors cp) params1 in
            match remaining with
            | [] => url_path path [] []
            | _ => Raise (NoMatchFound name remaining.*1)
            end
        | _ => Raise (AttributeError $"object has no attribute 'lstrip'")
        end
      else
        let prefixed := match own with None => true | Some n => startswith name (n ++ $":") end in
        if prefixed then
          let remaining_name := match own with
                                | None => name
                                | Some n => drop (length n + 1) name
                                end in
          let path_kwarg := dict_get params $"path" in
          let params1 := dict_set params $"path" (PStr []) in
          let! (prefix, remaining) := replace_params (path_format cp) (param_convertors cp) params1 in
          let remaining1 := match path_kwarg with
                            | Some v => dict_set remaining $"path" v
                            | None => remaining
                            end in
          match first_url (fun rt' => url_path_for rt' remaining_name remaining1) routes with
          | Some (Ok u) => url_path (rstrip 47 prefix ++ up_path u) (up_protocol u) []
          | Some (Raise e) => Raise e
          | None => Raise (NoMatchFound name remaining1.*1)
          end
        else Raise (NoMatchFound name params.*1)
  end.

(** [BaseRoute.__call__]: a route used as an application of its own. *)
Definition route_call (rt : BaseRoute) : asgi_app :=
  fun sc =>
    match matches rt sc with
    | Raise e => run_raise [] e
    | Ok (MNone, _) =>
        match sc_type sc with
        | Http => plain_text $"Not Found" 404 []
        | Websocket => WebSocketClose 1000 None sc
        | Lifespan => run_ok []
        end
    | Ok (_, child) => handle rt (scope_update sc child)
    end.

(** ** Router *)

(** Lifespan handling: events awaited, handlers called and messages sent. *)
Inductive laction : Type := Received | Called (handler : Z) | Sends (m : message).

Record Router : Type := mkRouter {
  routes : list BaseRoute;
  redirect_slashes : bool;
  default : option asgi_app;
  on_startup : list Z;
  on_shutdown : list Z
}.

Definition not_found : asgi_app :=
  fun sc =>
    if decide (sc_type sc = Websocket) then WebSocketClose 1000 None sc
    else if sc_app sc then run_raise [] (HTTPException 404 None None)
    else plain_text $"Not Found" 404 [].

Definition router_url_path_for (rt : Router) (name : str) (params : list (str * pval))
    : result URLPath :=
  match first_url (fun r => url_path_for r name params) (routes rt) with
  | Some r => r
  | None => Raise (NoMatchFound name params.*1)
  end.

(** The search of [Router.app]: the first full match, else the first partial
    one. *)
Inductive selection : Type :=
  | Selected (rt : BaseRoute) (child : ChildScope)
  | NotSelected.

Fixpoint select (rts : list BaseRoute) (sc : Scope) (partial : selection) : result selection :=
  match rts with
  | [] => Ok partial
  | rt :: rts' =>
      let! (m, child) := matches rt sc in
      match m with
      | Full => Ok (Selected rt child)
      | Partial =>
          select rts' sc (match partial with NotSelected => Selected rt child | _ => partial end)
      | MNone => select rts' sc partial
      end
  end.

(** Does some route match the path with its slash added or removed? *)
Fixpoint any_match (rts : list BaseRoute) (sc : Scope) : result bool :=
  match rts with
  | [] => Ok false
  | rt :: rts' =>
      let! (m, _) := matches rt sc in
      match m with MNone => any_match rts' sc | _ => Ok true end
  end.

Definition redirect_scope (sc : Scope) : Scope :=
  scope_with_path sc
    (if endswith (get_route_path sc) $"/" then rstrip 47 (sc_path sc) else sc_path sc ++ $"/").

Definition redirect_to (url : str) : run :=
  match RedirectResponse url 307 [] None with
  | Ok r => send_response r
  | Raise e => run_raise [] e
  end.

(** [Router.app] for HTTP and WebSocket scopes. *)
Definition router_app (rt : Router) : asgi_app :=
  fun sc0 =>
    let sc := scope_with_router sc0 in
    match select (routes rt) sc NotSelected with
    | Raise e => run_raise [] e
    | Ok (Selected r child) => handle r (scope_update sc child)
    | Ok NotSelected =>
        let dflt := get_or (default rt) not_found in
        let route_path := get_route_path sc in
        if bool_decide (sc_type sc = Http) && redirect_slashes rt
           && negb (bool_decide (route_path = $"/")) then
          match any_match (routes rt) (redirect_scope sc) with
          | Raise e => run_raise [] e
          | Ok true => redirect_to (url_of_scope (redirect_scope sc))
          | Ok false => dflt sc
          end
        else dflt sc
    end.

(** [startup] and [shutdown]: the handlers in order, stopping at the first
    that raises. *)
Section lifespan.
Context (call : Z -> result unit) (format_exc : exn -> str).

Fixpoint run_handlers (hs : list Z) : list laction * result unit :=
  match hs with
  | [] => ([], Ok tt)
  | h :: hs' =>
      match call h with
      | Ok _ => let '(tr, r) := run_handlers hs' in (Called h :: tr, r)
      | Raise e => ([Called h], Raise e)
      end
  end.

(** [lifespan] with the default lifespan context: [__aenter__] runs the
    startup handlers and gives no state, [__aexit__] the shutdown handlers. *)
Definition lifespan (rt : Router) : list laction * result unit :=
  let '(tr1, r1) := run_handlers (on_startup rt) in
  match r1 with
  | Raise e => (Received :: tr1 ++ [Sends (StartupFailed (format_exc e))], Raise e)
  | Ok _ =>
      let '(tr2, r2) := run_handlers (on_shutdown rt) in
      match r2 with
      | Raise e =>
          (Received :: tr1 ++ Sends StartupComplete :: Received :: tr2 ++ [Sends (ShutdownFailed (format_exc e))], Raise e)
      | Ok _ => (Received :: tr1 ++ Sends StartupComplete :: Received :: tr2 ++ [Sends ShutdownComplete], Ok tt)
      end
  end.

(** [Router.app], the lifespan protocol included. *)
Definition sent_messages (tr : list laction) : list message :=
  tr ≫= fun a => match a with Sends m => [m] | Called _ | Received => [] end.

Definition router (rt : Router) : asgi_app :=
  fun sc =>
    if decide (sc_type sc = Lifespan) then
      let '(tr, r) := lifespan rt in mkRun (sent_messages tr) r
    else router_app rt sc.
End lifespan.

(** ** Building routers *)
Definition with_routes (rt : Router) (rs : list BaseRoute) : Router :=
  mkRouter rs (redirect_slashes rt) (default rt) (on_startup rt) (on_shutdown rt).

(** [Mount.__init__]: an application with its routes, or a list of routes that
    becomes a [Router]. *)
Inductive mount_target : Type :=
  | MountApp (app : asgi_app) (app_routes : list BaseRoute)
  | MountRoutes (rs : list BaseRoute)
  | MountNothing.

Section mount.
Context (types : list (str * Convertor)) (call : Z -> result unit) (format_exc : exn -> str).

Definition mount_init (path : str) (id : Z) (target : mount_target) (name : option str)
    (mw : option (list middleware)) : result BaseRoute :=
  let! _ := py_assert (bool_decide (path = []) || startswith path $"/") slash_message in
  let! (app, rs) :=
    match target with
    | MountApp a rs => Ok (a, rs)
    | MountRoutes rs => Ok (router call format_exc (mkRouter rs true None [] []), rs)
    | MountNothing => Raise (AssertionError $"Either 'app=...', or 'routes=' must be specified")
    end in
  let p := rstrip 47 path in
  let! cp := compile_path types (p ++ $"/{path:path}") in
  Ok (MountRoute p name id (apply_middleware mw app) cp rs).

Definition mount (rt : Router) (path : str) (id : Z) (app : asgi_app) (app_routes : list BaseRoute)
    (name : option str) : result Router :=
  let! r := mount_init path id (MountApp app app_routes) name None in
  Ok (with_routes rt (routes rt ++ [r])).
End mount.

Section add.
Context (handlers_of : Scope -> list (str * handler) * list (Z * handler)).
Context (types : list (str * Convertor)).

Definition add_route (rt : Router) (path : str) (e : http_endpoint) (methods : option (list str))
    (name : option str) : result Router :=
  let! r := route_init handlers_of types path e methods name None in
  Ok (with_routes rt (routes rt ++ [HttpRoute r])).

Definition add_websocket_route (rt : Router) (path : str) (e : ws_endpoint) (name : option str)
    : result Router :=
  let! w := ws_route_init handlers_of types path e name None in
  Ok (with_routes rt (routes rt ++ [WsRoute w])).
End add.

Definition add_event_handler (rt : Router) (event_type : str) (h : Z) : result Router :=
  let! _ := py_assert (bool_decide (event_type = $"startup" ∨ event_type = $"shutdown")) [] in
  Ok (if decide (event_type = $"startup")
      then mkRouter (routes rt) (redirect_slashes rt) (default rt) (on_startup rt ++ [h]) (on_shutdown rt)
      else mkRouter (routes rt) (redirect_slashes rt) (default rt) (on_startup rt) (on_shutdown rt ++ [h])).
