(* ===== verification/RoutingFacts.v ===== *)
(** * RoutingFacts: correctness of path matching and URL generation

    The matcher of a compiled path finds exactly the decompositions of the
    path; the URL generated for a route matches that route and gives back the
    parameters it was generated from. *)

From S2P Require Import Prelude PyStr Asgi Responses ExceptionHandler Convertors Routing.

(** ** Matching *)

(** [fits sg g s]: [s] is the elements of [sg] in order, each group of [g] a
    text of its convertor's language. *)
Inductive fits : list seg -> list (str * str) -> str -> Prop :=
  | fits_nil : fits [] [] []
  | fits_lit t sg g s : fits sg g s -> fits (Lit t :: sg) g (t ++ s)
  | fits_param n c sg g m s :
      lang (cv_regex c) m -> fits sg g s -> fits (Param n c :: sg) ((n, m) :: g) (m ++ s).

Lemma match_segs_spec sg tl g s :
  g ∈ match_segs sg tl s ↔ ∃ b rest, s = b ++ tl ++ rest ∧ at_end rest = true ∧ fits sg g b.
Proof.
  revert g s. induction sg as [|[t|n c] sg IH]; intros g s; cbn [match_segs].
  - split.
    + destruct (startswith s tl && _) eqn:E; [|by rewrite elem_of_nil].
      apply andb_true_iff in E as [E1 E2]. intros ->%list_elem_of_singleton.
      exists [], (drop (length tl) s). split_and!; [by apply startswith_drop|done|constructor].
    + intros (b & rest & -> & He & Hf). inversion Hf; subst. cbn [app].
      rewrite startswith_app, drop_app_length, He. by apply list_elem_of_singleton.
  - destruct (startswith s t) eqn:E.
    + rewrite IH. apply startswith_drop in E. split.
      * intros (b & rest & Hd & He & Hf). exists (t ++ b), rest.
        split_and!; [|done|by constructor]. rewrite E, Hd. by rewrite <-!app_assoc.
      * intros (b & rest & -> & He & Hf). inversion Hf; subst.
        rewrite <-!app_assoc, drop_app_length. eauto.
    + rewrite elem_of_nil. split; [done|]. intros (b & rest & -> & He & Hf).
      inversion Hf; subst. by rewrite <-!app_assoc, startswith_app in E.
  - rewrite list_elem_of_bind. split.
    + intros ([m rest] & Hg & Hm). apply splits_spec in Hm as [-> Hl].
      apply list_elem_of_fmap in Hg as (g' & -> & Hg'). apply IH in Hg' as (b & rest' & -> & He & Hf).
      exists (m ++ b), rest'. rewrite <-!app_assoc. split_and!; [done|done|by constructor].
    + intros (b & rest & -> & He & Hf). inversion Hf as [| |n' c' sg' g' m b' Hl Hf' Hn Hg]; subst.
      exists (m, b' ++ tl ++ rest). split.
      * apply list_elem_of_fmap. exists g'. split; [done|]. apply IH. eauto.
      * apply splits_spec. split; [by rewrite <-!app_assoc|done].
Qed.

(** Where parameters are followed by a slash or end the path, and only the
    last may itself contain slashes, a path decomposes in one way. *)
Definition starts_slash (s : str) : Prop := ∃ s', s = 47%N :: s'.
Definition slash_free (c : Convertor) : Prop := ∀ m, lang (cv_regex c) m -> 47%N ∉ m.

Definition next_slash (sg : list seg) (tl : str) : Prop :=
  match sg with
  | Lit t :: _ => starts_slash t
  | [] => starts_slash tl
  | Param _ _ :: _ => False
  end.

Fixpoint separated (sg : list seg) (tl : str) : Prop :=
  match sg with
  | [] => True
  | Lit _ :: sg' => separated sg' tl
  | Param _ c :: sg' =>
      ((sg' = [] ∧ tl = []) ∨ (slash_free c ∧ next_slash sg' tl)) ∧ separated sg' tl
  end.

Lemma app_slash_inj a b s t :
  47%N ∉ a -> 47%N ∉ b -> starts_slash s -> starts_slash t -> a ++ s = b ++ t -> a = b ∧ s = t.
Proof.
  intros Ha Hb [s' ->] [t' ->]. revert b Hb. induction a as [|x a IH]; intros [|y b] Hb H; simplify_eq/=.
  - done.
  - set_solver.
  - set_solver.
  - match goal with E : _ ++ _ = _ ++ _ |- _ => apply IH in E as [-> ->] end; [done|set_solver|set_solver].
Qed.

Lemma next_slash_fits sg tl g b : next_slash sg tl -> fits sg g b -> starts_slash (b ++ tl).
Proof.
  intros Hn Hf. destruct Hf as [|t sg g s Hf|n c sg g m s Hl Hf]; simpl in Hn; [done| |done].
  destruct Hn as [t' ->]. by exists (t' ++ s ++ tl); rewrite <-app_assoc.
Qed.

Lemma fits_unique sg tl g g' b b' :
  separated sg tl -> fits sg g b -> fits sg g' b' -> b ++ tl = b' ++ tl -> g = g'.
Proof.
  intros Hsep Hf. revert g' b' Hsep.
  induction Hf as [|t sg g s Hf IH|n c sg g m s Hl Hf IH]; intros g' b' Hsep Hf' Heq.
  - by inversion Hf'.
  - inversion Hf' as [|? ? ? s' Hf''|]; subst. rewrite <-!app_assoc in Heq.
    apply (inj (app t)) in Heq. eauto.
  - inversion Hf' as [| |? ? ? g'' m' s' Hl' Hf'']; subst. rewrite <-!app_assoc in Heq.
    destruct Hsep as [[[-> ->]|[Hfree Hn]] Hsep].
    + inversion Hf; inversion Hf''; subst. rewrite !app_nil_r in Heq. by subst.
    + apply app_slash_inj in Heq as [-> Heq]; eauto using next_slash_fits.
      f_equal. eauto.
Qed.

(** ** Compiled paths *)
Fixpoint format_of (sg : list seg) : str :=
  match sg with
  | [] => []
  | Lit t :: sg' => t ++ format_of sg'
  | Param n _ :: sg' => braced n ++ format_of sg'
  end.

Fixpoint params_of (sg : list seg) : list (str * Convertor) :=
  match sg with
  | [] => []
  | Lit _ :: sg' => params_of sg'
  | Param n c :: sg' => (n, c) :: params_of sg'
  end.

Lemma format_of_app a b : format_of (a ++ b) = format_of a ++ format_of b.
Proof. induction a as [|[]]; cbn [format_of app]; [done| |]; by rewrite IHa, app_assoc. Qed.

Lemma params_of_app a b : params_of (a ++ b) = params_of a ++ params_of b.
Proof. induction a as [|[]]; csimpl; congruence. Qed.

Lemma fits_names sg g b : fits sg g b -> g.*1 = (params_of sg).*1.
Proof. induction 1; csimpl; congruence. Qed.

(** What the compilation loop builds. *)
Definition compiled_ok (st : compile_state) : Prop :=
  cs_format st = format_of (cs_segs st)
  ∧ (cs_duplicated st = [] ->
     cs_convertors st = params_of (cs_segs st) ∧ dict_wf (params_of (cs_segs st))).

Lemma set_add_nil l x : set_add l x ≠ [].
Proof. unfold set_add. case_bool_decide; destruct l; set_solver. Qed.

Lemma dict_set_new {V} (d : list (str * V)) k v : dict_mem d k = false -> dict_set d k v = d ++ [(k, v)].
Proof.
  unfold dict_mem. induction d as [|[k' v'] d IH]; simpl; [done|]. case_decide; [done|].
  intros Hm. by rewrite IH.
Qed.

Lemma compile_step_ok types st m st' :
  compiled_ok st -> compile_step types st m = Ok st' -> compiled_ok st'.
Proof.
  intros [Hf Hd] H. destruct m as [[text name] ty]. cbn [compile_step] in H.
  destruct (dict_get types ty) as [c|]; simplify_eq/=. split; cbn [cs_format cs_segs cs_duplicated cs_convertors].
  - rewrite Hf, format_of_app. cbn [format_of]. by rewrite app_nil_r.
  - destruct (dict_mem (cs_convertors st) name) eqn:Em; intros Hnil; [by apply set_add_nil in Hnil|].
    destruct (Hd Hnil) as [Hc Hwf]. rewrite dict_set_new, params_of_app, Hc by done.
    split; [done|]. cbn [params_of]. rewrite <-Hc in Hwf |- *.
    rewrite <-dict_set_new by done. by apply dict_set_wf.
Qed.

Lemma compile_fold_ok types ms st st' :
  compiled_ok st -> rfold (compile_step types) st ms = Ok st' -> compiled_ok st'.
Proof.
  revert st. induction ms as [|m ms IH]; intros st Hst H; simpl in H; [by injection H as <-|].
  inv_ok. eauto using compile_step_ok.
Qed.

Lemma compile_path_ok types path cp :
  startswith path $"/" = true -> compile_path types path = Ok cp ->
  path_format cp = format_of (segs cp) ++ last_literal cp
  ∧ param_convertors cp = params_of (segs cp) ∧ dict_wf (params_of (segs cp)).
Proof.
  intros Hs H. unfold compile_path in H. rewrite Hs in H. cbn [negb] in H.
  destruct (param_matches path) as [ms tl]. inv_ok.
  assert (Hok : compiled_ok x).
  { eapply compile_fold_ok; [|done]. split; [done|]. intros _. split; [done|constructor]. }
  destruct Hok as [Hf Hd]. destruct (cs_duplicated x) eqn:Ed; simplify_eq/=.
  destruct (Hd eq_refl) as [-> Hwf]. by rewrite Hf.
Qed.

(** ** Filling in a template *)

(** Templates whose literal text has no opening brace and whose names have no
    brace at all. *)
Definition plain_seg (x : seg) : Prop :=
  match x with
  | Lit t => 123%N ∉ t
  | Param n _ => 123%N ∉ n ∧ 125%N ∉ n
  end.

Definition subst_seg (k v : str) (x : seg) : seg :=
  match x with
  | Param n c => if decide (n = k) then Lit v else x
  | Lit _ => x
  end.

Lemma braced_shape k : braced k = 123%N :: k ++ [125%N].
Proof. done. Qed.

Lemma braced_prefix n k rest :
  125%N ∉ n -> 125%N ∉ k -> startswith (braced n ++ rest) (braced k) = bool_decide (n = k).
Proof.
  intros Hn Hk. apply eq_true_iff_eq. rewrite startswith_spec, bool_decide_eq_true. split.
  2: { intros ->. by exists rest. }
  - intros [t Ht]. rewrite !braced_shape in Ht. cbn [app] in Ht. injection Ht as Ht.
    rewrite <-!app_assoc in Ht. cbn [app] in Ht.
    assert (partition 125 (n ++ 125%N :: rest) = partition 125 (k ++ 125%N :: t)) as Hp by by rewrite Ht.
    rewrite !partition_app in Hp by done. congruence.
Qed.

Lemma replace_braced_other n k v rest :
  123%N ∉ n -> 125%N ∉ n -> 125%N ∉ k -> n ≠ k ->
  replace (braced k) v (braced n ++ rest) = braced n ++ replace (braced k) v rest.
Proof.
  intros Hn Hn' Hk Hne. pose proof (braced_prefix n k rest Hn' Hk) as Hs.
  rewrite bool_decide_false in Hs by done. rewrite (braced_shape n) in *. cbn [app] in *.
  rewrite replace_cons, Hs by done. f_equal.
  rewrite braced_shape. apply (replace_app_absent 123 _ _ (n ++ [125%N])). set_solver.
Qed.

Lemma replace_format k v sg tl :
  125%N ∉ k -> Forall plain_seg sg -> 123%N ∉ tl ->
  replace (braced k) v (format_of sg ++ tl) = format_of (subst_seg k v <$> sg) ++ tl.
Proof.
  intros Hk Hp Htl. induction Hp as [|[t|n c] sg Hx _ IH]; rewrite ?fmap_cons;
    cbn [format_of subst_seg].
  - rewrite braced_shape. by apply replace_absent.
  - rewrite <-!app_assoc. rewrite (braced_shape k) at 1. rewrite replace_app_absent by done.
    by rewrite <-braced_shape, IH.
  - rewrite <-app_assoc. destruct Hx as [Hx Hx']. destruct (decide (n = k)) as [->|Hne]; cbn [format_of].
    + rewrite replace_app_found by done. by rewrite IH, <-app_assoc.
    + rewrite replace_braced_other by done. by rewrite IH, <-app_assoc.
Qed.

Lemma contains_app_l sub a b : contains sub b = true -> contains sub (a ++ b) = true.
Proof. intros H. induction a as [|c a IH]; [done|]. simpl. by rewrite IH, orb_true_r. Qed.

Lemma contains_self sub s : contains sub (sub ++ s) = true.
Proof.
  pose proof (startswith_app sub s) as H.
  destruct (sub ++ s) as [|c t]; cbn [contains]; by rewrite H.
Qed.

Lemma contains_format k c sg tl : (k, c) ∈ params_of sg -> contains (braced k) (format_of sg ++ tl) = true.
Proof.
  induction sg as [|[t|n c'] sg IH]; cbn [params_of format_of]; [by intros ?%elem_of_nil| |].
  - intros H. rewrite <-app_assoc. by apply contains_app_l, IH.
  - rewrite <-app_assoc, elem_of_cons. intros [[= <- <-]|H].
    + apply contains_self.
    + by apply contains_app_l, IH.
Qed.

(** The printed values of the parameters, in the order they were given. *)
Definition printed (cvs : list (str * Convertor)) (kv : str * pval) (ks : str * str) : Prop :=
  ks.1 = kv.1 ∧ ∃ c, dict_get cvs kv.1 = Some c ∧ to_string c kv.2 = Ok ks.2.

Definition subst_all (vals : list (str * str)) (sg : list seg) : list seg :=
  foldl (fun sg '(k, v) => subst_seg k v <$> sg) sg vals.

Lemma subst_plain k v sg : 123%N ∉ v -> Forall plain_seg sg -> Forall plain_seg (subst_seg k v <$> sg).
Proof.
  intros Hv H. apply Forall_fmap. eapply Forall_impl; [done|]. intros [t|n c] Hx; simpl; [done|].
  by case_decide.
Qed.

Lemma subst_params k v sg k' c : k' ≠ k -> (k', c) ∈ params_of sg -> (k', c) ∈ params_of (subst_seg k v <$> sg).
Proof.
  intros Hne. induction sg as [|[t|n c'] sg IH]; csimpl; [done|done|].
  rewrite elem_of_cons. case_decide; csimpl; intros [[= -> ->]|Hin]; set_solver.
Qed.

Lemma replace_params_ok cvs params sg tl path rem :
  dict_wf params -> Forall plain_seg sg -> 123%N ∉ tl ->
  Forall (fun k => 125%N ∉ k ∧ ∃ c, (k, c) ∈ params_of sg) params.*1 ->
  (∀ k v c s, (k, v) ∈ params -> dict_get cvs k = Some c -> to_string c v = Ok s -> 123%N ∉ s) ->
  rfold (replace_step cvs) (format_of sg ++ tl, params) params = Ok (path, rem) ->
  rem = [] ∧ ∃ vals, Forall2 (printed cvs) params vals ∧ path = format_of (subst_all vals sg) ++ tl.
Proof.
  revert sg. induction params as [|[k v] params IH]; intros sg Hwf Hp Htl Hk Hv H; simpl in H.
  - injection H as <- <-. split; [done|]. exists []. by split.
  - csimpl in Hk. apply Forall_cons in Hk as [[Hb (c & Hc)] Hk].
    erewrite contains_format in H by done. destruct (dict_get cvs k) as [c'|] eqn:Ec; [|done].
    inv_ok. rewrite decide_True in H by done.
    apply NoDup_cons in Hwf as [Hni Hwf]. rewrite replace_format in H by done.
    apply IH in H; [|done| |done| |].
    + destruct H as (-> & vals & Hvals & ->). split; [done|]. exists ((k, x0) :: vals).
      split; [|done]. constructor; [|done]. split; [done|]. eauto.
    + apply subst_plain; [|done]. eapply Hv; [|done|done]. set_solver.
    + rewrite Forall_forall in Hk |- *. intros k' Hk'. destruct (Hk k' Hk') as [Hb' (c'' & Hc'')].
      split; [done|]. exists c''. apply subst_params; [|done]. by intros ->.
    + intros k' v' c'' s' Hin. apply Hv. set_solver.
Qed.

Definition fill_seg (vals : list (str * str)) (x : seg) : seg :=
  match x with
  | Param n _ => match dict_get vals n with Some v => Lit v | None => x end
  | Lit _ => x
  end.

Lemma subst_all_fill vals sg : subst_all vals sg = fill_seg vals <$> sg.
Proof.
  unfold subst_all. revert sg. induction vals as [|[k v] vals IH]; intros sg; cbn [foldl].
  - rewrite <-(list_fmap_id sg) at 1. apply list_fmap_ext. by intros i [].
  - rewrite IH, <-list_fmap_compose. apply list_fmap_ext. intros i [t|n c] _; simpl; [done|].
    by case_decide.
Qed.

(** A filled-in template is a text its own matcher accepts. *)
Lemma fill_fits vals sg :
  (∀ n c, (n, c) ∈ params_of sg -> ∃ s, dict_get vals n = Some s ∧ lang (cv_regex c) s) ->
  ∃ g, fits sg g (format_of (fill_seg vals <$> sg)) ∧ ∀ n m, (n, m) ∈ g -> dict_get vals n = Some m.
Proof.
  induction sg as [|[t|n c] sg IH]; intros Hv; rewrite ?fmap_cons; cbn [params_of format_of fill_seg] in *.
  - exists []. split; [constructor|]. by intros ? ? ?%elem_of_nil.
  - destruct (IH Hv) as (g & Hg & Hl). exists g. split; [by constructor|done].
  - destruct (Hv n c) as (s & Hs & Hlang); [set_solver|].
    destruct IH as (g & Hg & Hl); [intros n' c' H; apply Hv; set_solver|].
    exists ((n, s) :: g). rewrite Hs. cbn [format_of]. split; [by constructor|].
    intros n' m' [[= -> ->]|H]%elem_of_cons; [done|]. by apply Hl.
Qed.

(** ** Parameter names *)
Lemma take_run_length p s : Forall (fun c => p c = true) (take (run_length p s) s).
Proof. by apply run_length_take. Qed.

Definition ident (s : str) : Prop := Forall (fun c => ident_char c = true) s.

Lemma scan_ident_ident s n r : scan_ident s = Some (n, r) -> ident n.
Proof.
  unfold scan_ident. destruct s as [|c s]; [done|]. destruct (ident_start c); [|done].
  intros [= <- <-]. apply (take_run_length ident_char (c :: s)).
Qed.

Lemma scan_param_ident s n ty r : scan_param s = Some (n, ty, r) -> ident n.
Proof.
  unfold scan_param. destruct (scan_ident s) as [[n' [|c r']]|] eqn:E; [done| |done].
  apply scan_ident_ident in E. intros H. split_code.
Qed.

Lemma finditer_ident fuel s text :
  Forall (fun m => ident m.1.2) (finditer fuel s text).1.
Proof.
  revert s text. induction fuel as [|f IH]; intros [|c s] text; cbn [finditer]; try constructor.
  destruct (if (c =? 123)%N then scan_param s else None) as [[[n ty] rest]|] eqn:E; [|apply IH].
  specialize (IH rest []). destruct (finditer f rest []) as [ms tl]. constructor; [|done].
  destruct (c =? 123)%N; [|done]. simpl. by eapply scan_param_ident.
Qed.

Lemma compile_names types ms st st' :
  Forall (fun m => ident m.1.2) ms ->
  Forall ident (params_of (cs_segs st)).*1 ->
  rfold (compile_step types) st ms = Ok st' ->
  Forall ident (params_of (cs_segs st')).*1.
Proof.
  revert st. induction ms as [|[[text name] ty] ms IH]; intros st Hms Hst H; cbn [rfold] in H.
  { by injection H as <-. }
  apply Forall_cons in Hms as [Hm Hms]. inv_ok. eapply IH; [done| |done].
  cbn [compile_step] in H0. destruct (dict_get types ty); simplify_eq/=.
  rewrite params_of_app, fmap_app. apply Forall_app. split; [done|]. by repeat constructor.
Qed.

Lemma compile_path_names types path cp :
  compile_path types path = Ok cp -> Forall ident (params_of (segs cp)).*1.
Proof.
  unfold compile_path, param_matches. pose proof (finditer_ident (length path) path []) as Hi.
  destruct (finditer _ _ _) as [ms tl]. intros H. inv_ok.
  destruct (cs_duplicated x); simplify_eq/=. eapply compile_names; [done| |done]. constructor.
Qed.

Lemma ident_no_brace n : ident n -> 123%N ∉ n ∧ 125%N ∉ n.
Proof. unfold ident. rewrite Forall_forall. intros H. split; intros Hin; by apply H in Hin. Qed.

(** ** Generated URLs *)

(** The literal text of the path has no opening brace. *)
Definition plain_literals (cp : Compiled) : Prop :=
  (∀ t, Lit t ∈ segs cp -> 123%N ∉ t) ∧ 123%N ∉ last_literal cp.

Lemma elem_param n c sg : Param n c ∈ sg -> n ∈ (params_of sg).*1.
Proof.
  induction sg as [|[t|n' c'] sg IH]; rewrite ?elem_of_nil, ?elem_of_cons; csimpl; [done| |].
  - intros [?|?]; [done|auto].
  - intros [[= -> ->]|?]; set_solver.
Qed.

Lemma plain_segs types path cp :
  compile_path types path = Ok cp -> plain_literals cp -> Forall plain_seg (segs cp).
Proof.
  intros Hc%compile_path_names [Hl _]. rewrite Forall_forall in Hc. apply Forall_forall.
  intros [t|n c] Hin; simpl; [auto|]. apply ident_no_brace, Hc. by eapply elem_param.
Qed.

Lemma dict_get_params sg n c : dict_wf (params_of sg) -> (n, c) ∈ params_of sg -> dict_get (params_of sg) n = Some c.
Proof. apply dict_elem_get. Qed.

Lemma printed_get cvs params vals k v :
  Forall2 (printed cvs) params vals -> dict_get params k = Some v ->
  ∃ c s, dict_get cvs k = Some c ∧ to_string c v = Ok s ∧ dict_get vals k = Some s.
Proof.
  induction 1 as [|[k0 v0] [k1 s1] params vals [Hk (c & Hc & Hs)] _ IH]; [done|].
  simpl in *. subst k1. case_decide; [|exact IH]. intros [= ->]. subst. eauto.
Qed.

Lemma printed_keys cvs params vals : Forall2 (printed cvs) params vals -> vals.*1 = params.*1.
Proof. induction 1 as [|? ? ? ? [Hk _]]; csimpl; congruence. Qed.

(** A path without a newline matches in exactly the ways it decomposes. *)
Lemma match_unique cp s g :
  separated (segs cp) (last_literal cp) -> 10%N ∉ s ->
  (∃ b, s = b ++ last_literal cp ∧ fits (segs cp) g b) ->
  path_regex_match cp s = Some g.
Proof.
  intros Hsep Hnl (b & -> & Hf). unfold path_regex_match.
  destruct (match_segs (segs cp) (last_literal cp) (b ++ last_literal cp)) as [|g' gs] eqn:E.
  - assert (g ∈ match_segs (segs cp) (last_literal cp) (b ++ last_literal cp)) as Hin.
    { apply match_segs_spec. exists b, []. by rewrite app_nil_r. }
    rewrite E in Hin. by apply elem_of_nil in Hin.
  - assert (g' ∈ match_segs (segs cp) (last_literal cp) (b ++ last_literal cp)) as Hin
      by (rewrite E; set_solver).
    apply match_segs_spec in Hin as (b' & rest & Hs & He & Hf').
    assert (rest = []) as ->.
    { unfold at_end in He. apply bool_decide_eq_true in He as [->| ->]; [done|]. exfalso. apply Hnl.
      rewrite Hs. set_solver. }
    rewrite app_nil_r in Hs. simpl. f_equal. by eapply fits_unique.
Qed.

Lemma convert_params_ok cp (params : list (str * pval)) g :
  (∀ n m, (n, m) ∈ g -> ∃ c v, dict_get (param_convertors cp) n = Some c ∧ convert c m = Ok v
     ∧ dict_get params n = Some v) ->
  ∃ ps, convert_params cp g = Ok ps ∧ ps.*1 = g.*1
    ∧ ∀ k v, (k, v) ∈ ps -> dict_get params k = Some v.
Proof.
  unfold convert_params. induction g as [|[n m] g IH]; intros H; simpl.
  - exists []. split_and!; [done|done|]. by intros ? ? ?%elem_of_nil.
  - destruct (H n m) as (c & v & -> & -> & Hv); [set_solver|]. simpl.
    destruct IH as (ps & -> & Hk & Hps); [intros; apply H; set_solver|]. simpl.
    exists ((n, v) :: ps). split_and!; [done|csimpl; congruence|].
    intros k' v' [[= -> ->]|Hin]%elem_of_cons; auto.
Qed.

Lemma dict_get_agree {V} (ps params : list (str * V)) k :
  (∀ k v, (k, v) ∈ ps -> dict_get params k = Some v) -> params.*1 ⊆ ps.*1 ->
  dict_get ps k = dict_get params k.
Proof.
  intros H Hsub. destruct (dict_get ps k) as [v|] eqn:E.
  - symmetry. by apply H, dict_get_elem.
  - symmetry. apply dict_get_None. apply dict_get_None in E. set_solver.
Qed.

(** The values of the parameters suit their convertors, and print without an
    opening brace. *)
Definition suitable (cp : Compiled) (params : list (str * pval)) : Prop :=
  ∀ k v c, dict_get params k = Some v -> dict_get (param_convertors cp) k = Some c ->
    (∃ dom, LawfulConvertor c dom ∧ dom v) ∧ ∀ s, to_string c v = Ok s -> 123%N ∉ s.

Lemma generated_path types path cp own protocol name params u :
  startswith path $"/" = true -> compile_path types path = Ok cp ->
  plain_literals cp -> dict_wf params -> suitable cp params ->
  plain_url_path_for own cp protocol name params = Ok u ->
  params.*1 ⊆ (param_convertors cp).*1 ∧ (param_convertors cp).*1 ⊆ params.*1
  ∧ ∃ g b, up_path u = b ++ last_literal cp ∧ fits (segs cp) g b
    ∧ ∀ n m, (n, m) ∈ g -> ∃ c v, dict_get (param_convertors cp) n = Some c ∧ convert c m = Ok v
        ∧ dict_get params n = Some v.
Proof.
  intros Hs Hc Hpl Hwf Hsuit H. destruct (compile_path_ok _ _ _ Hs Hc) as (Hfmt & Hcv & Hpwf).
  unfold plain_url_path_for in H. destruct (negb _ || _) eqn:Eg; [done|].
  apply orb_false_iff in Eg as [_ Eg]. apply negb_false_iff, bool_decide_eq_true in Eg as [Hsub Hsup].
  inv_ok. destruct x as [p rem]. inv_ok. unfold url_path in H. inv_ok.
  unfold replace_params in H0. rewrite Hfmt in H0.
  apply replace_params_ok in H0; [|done|by eapply plain_segs|apply Hpl| |].
  - destruct H0 as (-> & vals & Hvals & ->). cbn [up_path]. split_and!; [done|done|].
    rewrite subst_all_fill.
    destruct (fill_fits vals (segs cp)) as (g & Hg & Hl).
    { intros n c Hin. pose proof (dict_elem_get _ _ _ Hpwf Hin) as Hget. rewrite <-Hcv in Hget.
      assert (n ∈ params.*1) as Hn.
      { apply Hsup. rewrite Hcv. apply list_elem_of_fmap. by exists (n, c). }
      destruct (dict_get params n) as [v|] eqn:Ev; [|by apply dict_get_None in Ev].
      destruct (printed_get _ _ _ _ _ Hvals Ev) as (c' & s & Hc' & Hts & Hvs). simplify_eq.
      exists s. split; [done|]. destruct (Hsuit n v c Ev Hget) as [(dom & Hlaw & Hdom) _].
      by eapply law_lang. }
    eexists g, _. split_and!; [done|done|]. intros n m Hin. pose proof (Hl _ _ Hin) as Hm.
    assert (n ∈ params.*1) as Hn.
    { rewrite <-(printed_keys _ _ _ Hvals). apply dict_mem_true. unfold dict_mem. by rewrite Hm. }
    destruct (dict_get params n) as [v|] eqn:Ev; [|by apply dict_get_None in Ev].
    destruct (printed_get _ _ _ _ _ Hvals Ev) as (c' & s & Hc' & Hts & Hvs). simplify_eq.
    destruct (Hsuit n v c' Ev Hc') as [(dom & Hlaw & Hdom) _]. exists c', v.
    split_and!; [done|by eapply law_convert|done].
  - apply Forall_forall. intros k Hk. pose proof (Hsub _ Hk) as Hk'. rewrite Hcv in Hk'. split.
    + pose proof (compile_path_names _ _ _ Hc) as Hn. rewrite Forall_forall in Hn.
      by apply ident_no_brace, Hn.
    + apply list_elem_of_fmap in Hk' as ([k' c] & -> & ?). by exists c.
  - intros k v c s Hin Hget Hts. destruct (Hsuit k v c) as [_ Hb]; [by apply dict_elem_get|done|auto].
Qed.
