(* ===== verification/RoutingThms.v ===== *)
(** * RoutingThms: the theorems about routing

    Path matching, URL generation, mounted applications, the choice of a
    route, redirects and the lifespan protocol. *)

From S2P Require Import Prelude PyStr Asgi MutableHeaders Responses ExceptionHandler Convertors Routing RoutingFacts.

(** ** Compilation of a mount path *)
Definition mount_suffix : str := $"/{path:path}".

Lemma run_length_stop p s c r : p c = false -> run_length p (s ++ c :: r) = run_length p s.
Proof. intros Hc. induction s as [|x s IH]; simpl; [by rewrite Hc|]. destruct (p x); congruence. Qed.

Lemma scan_ident_stop s r :
  scan_ident (s ++ 47%N :: r)
  = match scan_ident s with Some (n, rest) => Some (n, rest ++ 47%N :: r) | None => None end.
Proof.
  unfold scan_ident. destruct s as [|c s]; [done|]. rewrite run_length_stop by done. cbn [app].
  destruct (ident_start c); [|done].
  pose proof (run_length_le ident_char (c :: s)) as Hl.
  change (c :: s ++ 47%N :: r) with ((c :: s) ++ 47%N :: r).
  by rewrite take_app_le, drop_app_le by done.
Qed.

Lemma scan_param_stop s r :
  scan_param (s ++ 47%N :: r)
  = match scan_param s with Some (n, ty, rest) => Some (n, ty, rest ++ 47%N :: r) | None => None end.
Proof.
  unfold scan_param. rewrite scan_ident_stop. destruct (scan_ident s) as [[n [|c rest]]|]; [done| |done].
  cbn [app]. destruct (c =? 125)%N; [done|]. destruct (c =? 58)%N; [|done].
  rewrite scan_ident_stop. destruct (scan_ident rest) as [[ty [|d r']]|]; [done| |done].
  cbn [app]. by destruct (d =? 125)%N.
Qed.

Lemma scan_ident_shorter s n r : scan_ident s = Some (n, r) -> (length r <= length s)%nat.
Proof.
  unfold scan_ident. destruct s as [|c s]; [done|]. destruct (ident_start c); [|done].
  intros [= _ <-]. rewrite length_drop. lia.
Qed.

Lemma scan_param_shorter s n ty r : scan_param s = Some (n, ty, r) -> (length r <= length s)%nat.
Proof.
  unfold scan_param. destruct (scan_ident s) as [[n' [|c rest]]|] eqn:E; [done| |done].
  apply scan_ident_shorter in E. simpl in E. destruct (c =? 125)%N; [intros; simplify_eq; lia|].
  destruct (c =? 58)%N; [|done]. destruct (scan_ident rest) as [[ty' [|d r']]|] eqn:E'; [done| |done].
  apply scan_ident_shorter in E'. simpl in E'. destruct (d =? 125)%N; [intros; simplify_eq; lia|done].
Qed.

Lemma finditer_mount f s text :
  (length s <= f)%nat ->
  finditer (12 + f) (s ++ mount_suffix) text
  = let '(ms, tl) := finditer f s text in (ms ++ [(tl ++ $"/", $"path", $"path")], []).
Proof.
  revert s text. induction f as [|f IH]; intros [|c s] text Hl; cbn [length] in Hl; try lia;
    try (cbn; by rewrite <-?app_assoc).
  rewrite Nat.add_succ_r. change ((c :: s) ++ mount_suffix) with (c :: (s ++ mount_suffix)). cbn [finditer].
  change mount_suffix with (47%N :: $"{path:path}"). rewrite scan_param_stop.
  change (47%N :: $"{path:path}") with mount_suffix.
  destruct (c =? 123)%N; [|apply IH; lia].
  destruct (scan_param s) as [[[n ty] rest]|] eqn:E; [|apply IH; lia].
  apply scan_param_shorter in E. rewrite IH by lia. by destruct (finditer f rest []).
Qed.

Lemma finditer_plain f s text : 123%N ∉ s -> (length s <= f)%nat -> finditer f s text = ([], text ++ s).
Proof.
  revert s text. induction f as [|f IH]; intros [|c s] text Hs Hl; simpl in *; rewrite ?app_nil_r; try lia; try done.
  assert ((c =? 123)%N = false) as -> by (apply N.eqb_neq; set_solver).
  rewrite IH by (set_solver || lia). by rewrite <-app_assoc.
Qed.

Lemma rfold_snoc {A S} (f : S -> A -> result S) s l a :
  rfold f s (l ++ [a]) = let! s' := rfold f s l in f s' a.
Proof.
  revert s. induction l as [|b l IH]; intros s; simpl; [by destruct (f s a)|].
  destruct (f s b); simpl; [apply IH|done].
Qed.

(** A compiled mount path ends with the catch-all parameter after a slash. *)
Lemma compile_mount types p cp :
  compile_path types (p ++ mount_suffix) = Ok cp -> dict_get types $"path" = Some PathConvertor ->
  last_literal cp = []
  ∧ ∃ sg t, segs cp = sg ++ [Lit (t ++ $"/"); Param $"path" PathConvertor]
    ∧ (123%N ∉ p -> sg = [] ∧ t = p).
Proof.
  intros H Hty. unfold compile_path, param_matches in H.
  assert (Hlen : length (p ++ mount_suffix) = (12 + length p)%nat) by (rewrite length_app; change (length mount_suffix) with 12%nat; lia).
  rewrite Hlen, finditer_mount in H by lia.
  destruct (finditer (length p) p []) as [ms tl] eqn:Ef.
  rewrite rfold_snoc in H. apply rbind_Ok in H as (st2 & H1 & H2).
  apply rbind_Ok in H1 as (st1 & H1 & H3). cbn [compile_step] in H3. rewrite Hty in H3.
  injection H3 as <-. cbn [cs_duplicated cs_segs cs_format cs_convertors] in H2.
  destruct (if dict_mem _ _ then _ else _); [|done]. injection H2 as <-. cbn [last_literal segs]. split.
  { by destruct (negb _). }
  exists (cs_segs st1), tl. split; [done|]. intros Hp. rewrite finditer_plain in Ef by done.
  injection Ef as <- <-. split; [|done]. by injection H1 as <-.
Qed.

Lemma fits_app_inv sg1 sg2 g b :
  fits (sg1 ++ sg2) g b -> ∃ g1 g2 b1 b2, g = g1 ++ g2 ∧ b = b1 ++ b2 ∧ fits sg1 g1 b1 ∧ fits sg2 g2 b2.
Proof.
  revert g b. induction sg1 as [|x sg1 IH]; intros g b H; cbn [app] in H.
  - exists [], g, [], b. split_and!; [done|done|constructor|done].
  - inversion H as [|t sg g' s Hf|n c sg g' m s Hl Hf]; subst;
      apply IH in Hf as (g1 & g2 & b1 & b2 & -> & -> & H1 & H2).
    + exists g1, g2, (t ++ b1), b2. rewrite app_assoc. split_and!; [done|done|by constructor|done].
    + exists ((n, m) :: g1), g2, (m ++ b1), b2. rewrite app_assoc. split_and!; [done|done|by constructor|done].
Qed.

Lemma fits_mount sg t g b :
  fits (sg ++ [Lit (t ++ $"/"); Param $"path" PathConvertor]) g b ->
  ∃ g1 b1 m, g = g1 ++ [($"path", m)] ∧ b = b1 ++ t ++ $"/" ++ m ∧ fits sg g1 b1.
Proof.
  intros H. apply fits_app_inv in H as (g1 & g2 & b1 & b2 & -> & -> & H1 & H2).
  inversion H2 as [|? ? ? s Hf|]; subst. inversion Hf as [| |? ? ? g' m s' Hl Hf']; subst.
  inversion Hf'; subst. exists g1, b1, m. split_and!; [done| |done].
  by rewrite app_nil_r, <-!app_assoc.
Qed.

Lemma convert_params_snoc cp g n m c v ps :
  convert_params cp (g ++ [(n, m)]) = Ok ps -> n ∉ g.*1 ->
  dict_get (param_convertors cp) n = Some c -> convert c m = Ok v ->
  dict_get ps n = Some v.
Proof.
  unfold convert_params. intros H Hn Hc Hv. apply rmapM_Ok in H.
  apply Forall2_app_inv_l in H as (ps1 & ps2 & H1 & H2 & ->).
  apply Forall2_cons_inv_l in H2 as ([n' v'] & ps3 & H2 & H3 & ->). rewrite Hc, Hv in H2. injection H2 as <- <-.
  assert (Hn' : n ∉ ps1.*1).
  { clear -H1 Hn. induction H1 as [|[k s] [k' v'] g ps Hk _ IH]; [done|]. csimpl in *.
    destruct (dict_get (param_convertors cp) k); [|done]. inv_ok. simplify_eq.
    set_solver. }
  clear -Hn'. induction ps1 as [|[k v'] ps1 IH]; csimpl in *; [by rewrite decide_True|].
  rewrite decide_False by set_solver. apply IH. set_solver.
Qed.

(** ** Reading a template

    What a path template says, apart from how it is scanned: a parameter is
    written [{name}] or [{name:type}] with identifiers, and a template is read
    as text without parameters, a parameter, and so on to a last text. *)
Definition identifier (n : str) : Prop :=
  ∃ c r, n = c :: r ∧ ident_start c = true ∧ Forall (fun x => ident_char x = true) r.

Inductive declares : str -> str -> str -> Prop :=
  | declares_plain n : identifier n -> declares ($"{" ++ n ++ $"}") n $"str"
  | declares_typed n ty : identifier n -> identifier ty -> declares ($"{" ++ n ++ $":" ++ ty ++ $"}") n ty.

Definition param_free (t : str) : Prop := ∀ a d b n ty, declares d n ty -> t ≠ a ++ d ++ b.

Inductive reads (types : list (str * Convertor)) : str -> list seg -> str -> Prop :=
  | reads_end t : param_free t -> reads types t [] t
  | reads_param t d n ty c rest sg tl :
      param_free t -> declares d n ty -> dict_get types ty = Some c -> reads types rest sg tl ->
      reads types (t ++ d ++ rest) (Lit t :: Param n c :: sg) tl.

Lemma scan_ident_sound s n r : scan_ident s = Some (n, r) -> identifier n ∧ s = n ++ r.
Proof.
  unfold scan_ident. destruct s as [|c s]; [done|]. destruct (ident_start c) eqn:Ec; [|done].
  intros [= <- <-]. split; [|by rewrite take_drop]. cbn [run_length]. unfold ident_char at 1. rewrite Ec. cbn [orb take].
  exists c, (take (run_length ident_char s) s). split_and!; [done|done|apply take_run_length].
Qed.

Lemma scan_ident_complete n c r : identifier n -> ident_char c = false -> scan_ident (n ++ c :: r) = Some (n, c :: r).
Proof.
  intros (x & m & -> & Hx & Hm) Hc. unfold scan_ident. cbn [app]. rewrite Hx.
  assert (run_length ident_char (x :: m ++ c :: r) = length (x :: m)) as ->.
  { cbn [run_length length]. unfold ident_char at 1. rewrite Hx. cbn [orb]. f_equal.
    induction Hm as [|y m Hy Hm IH]; cbn [run_length app length]; [by rewrite Hc|]. by rewrite Hy, IH. }
  change (x :: m ++ c :: r) with ((x :: m) ++ c :: r). by rewrite take_app_length, drop_app_length.
Qed.

Lemma scan_param_sound s n ty r : scan_param s = Some (n, ty, r) -> ∃ d, declares d n ty ∧ 123%N :: s = d ++ r.
Proof.
  unfold scan_param. destruct (scan_ident s) as [[n' [|c r1]]|] eqn:E; [done| |done].
  apply scan_ident_sound in E as [Hn ->]. destruct (N.eqb_spec c 125) as [->|]; [intros [= -> <- ->]|].
  { eexists. split; [by constructor|]. by rewrite <-!app_assoc. }
  destruct (N.eqb_spec c 58) as [->|]; [|done]. destruct (scan_ident r1) as [[ty' [|d r2]]|] eqn:E2; [done| |done].
  apply scan_ident_sound in E2 as [Ht ->]. destruct (N.eqb_spec d 125) as [->|]; [|done]. intros [= -> -> ->].
  eexists. split; [by apply declares_typed|]. by rewrite <-!app_assoc.
Qed.

Lemma scan_param_complete s d n ty r : declares d n ty -> 123%N :: s = d ++ r -> scan_param s = Some (n, ty, r).
Proof.
  intros [m Hm|m t Hm Ht]; rewrite <-!app_assoc; intros [= ->]; unfold scan_param.
  - change ($"}" ++ r) with (125%N :: r). by rewrite scan_ident_complete.
  - change ($":" ++ t ++ $"}" ++ r) with (58%N :: t ++ 125%N :: r). rewrite scan_ident_complete by done.
    cbn [N.eqb Pos.eqb]. by rewrite scan_ident_complete.
Qed.

Lemma declares_nonempty d n ty : declares d n ty -> d ≠ [].
Proof. by intros []. Qed.

(** No parameter starts in [text] when [s] follows. *)
Definition none_starts (text s : str) : Prop :=
  ∀ a y d n ty z, text = a ++ y -> y ≠ [] -> declares d n ty -> y ++ s ≠ d ++ z.

Lemma none_starts_free text s : none_starts text s -> param_free text.
Proof.
  intros H a d b n ty Hd Ht. apply (H a (d ++ b) d n ty (b ++ s) Ht); [|done|by rewrite <-app_assoc].
  intros [-> _]%app_nil. by apply declares_nonempty in Hd.
Qed.

Lemma none_starts_snoc text c s :
  none_starts text (c :: s) -> (∀ d n ty z, declares d n ty -> c :: s ≠ d ++ z) -> none_starts (text ++ [c]) s.
Proof.
  intros H Hc a y d n ty z Ht Hy Hd. destruct y as [|c' y _] using rev_ind; [done|].
  rewrite app_assoc in Ht. apply app_inj_tail in Ht as [-> ->]. rewrite <-app_assoc. cbn [app].
  destruct y as [|x y]; [by apply (Hc d n ty z)|]. by apply (H a (x :: y) d n ty z).
Qed.

Lemma finditer_reads types fuel s text st st' :
  (length s <= fuel)%nat -> none_starts text s ->
  rfold (compile_step types) st (finditer fuel s text).1 = Ok st' ->
  ∃ sg, cs_segs st' = cs_segs st ++ sg ∧ reads types (text ++ s) sg (finditer fuel s text).2.
Proof.
  revert s text st. induction fuel as [|f IH]; intros [|c s] text st Hl Hn H; cbn [length] in Hl; try lia.
  1, 2: cbn in H |- *; injection H as <-; exists []; rewrite !app_nil_r; split; [done|];
    apply reads_end; by eapply none_starts_free.
  cbn [finditer] in *. destruct (if (c =? 123)%N then scan_param s else None) as [[[n ty] rest]|] eqn:E.
  - destruct (N.eqb_spec c 123) as [->|]; [|done]. pose proof (scan_param_shorter _ _ _ _ E) as Hr.
    apply scan_param_sound in E as (d & Hd & Hs). rewrite Hs.
    specialize (IH rest []). destruct (finditer f rest []) as [ms tl]. cbn [fst snd] in *.
    cbn [rfold] in H. apply rbind_Ok in H as (st1 & H1 & H). cbn [compile_step] in H1.
    destruct (dict_get types ty) as [cv|] eqn:Ht; [|done]. injection H1 as <-.
    edestruct IH as (sg & Hsg & Hreads); [lia| |exact H|].
    { intros a y ? ? ? ? Ha Hy. symmetry in Ha. by apply app_nil in Ha as [_ ->]. }
    exists (Lit text :: Param n cv :: sg). rewrite Hsg. cbn [cs_segs]. rewrite <-app_assoc. split; [done|].
    econstructor; eauto using none_starts_free.
  - edestruct (IH s (text ++ [c])) as (sg & Hsg & Hreads); [lia| |exact H|].
    { apply none_starts_snoc; [done|]. intros d n ty z Hd Hz. assert (c = 123%N) as ->.
      { destruct Hd; rewrite <-!app_assoc in Hz; by injection Hz. }
      rewrite (scan_param_complete _ _ _ _ _ Hd Hz) in E. done. }
    exists sg. rewrite <-app_assoc in Hreads. done.
Qed.

Lemma compile_path_reads types path cp :
  startswith path $"/" = true -> compile_path types path = Ok cp -> reads types path (segs cp) (last_literal cp).
Proof.
  intros Hs. unfold compile_path, param_matches. rewrite Hs. cbn [negb].
  pose proof (finditer_reads types (length path) path []) as Hr.
  destruct (finditer _ _ _) as [ms tl]. intros (st & Hst & H)%rbind_Ok.
  destruct (cs_duplicated st); [|done]. injection H as <-. cbn [segs last_literal].
  destruct (Hr (mkCS [] [] [] []) st) as (sg & Hsg & Hreads); [lia| |done|by rewrite Hsg].
  intros a y ? ? ? ? Ha Hy. symmetry in Ha. by apply app_nil in Ha as [_ ->].
Qed.

(** ** Main theorems *)

(** C1: a path template means what is written in it: the compiled path is the
    reading of the template as text without parameters and parameters [{name}]
    or [{name:type}], each with the convertor registered for its type; its
    regular expression matches a request path exactly when the request path is
    the template with every parameter replaced by a text of its convertor's
    language, up to a final newline (which ["$"] ignores); the groups are those
    texts, named in the order of the template. *)
Theorem path_match_correct types path cp s :
  startswith path $"/" = true -> compile_path types path = Ok cp ->
  reads types path (segs cp) (last_literal cp)
  ∧ (path_regex_match cp s = None
     ↔ ∀ g b rest, s = b ++ last_literal cp ++ rest -> at_end rest = true -> ~ fits (segs cp) g b)
  ∧ (∀ g, path_regex_match cp s = Some g ->
      g.*1 = (param_convertors cp).*1
      ∧ ∃ b rest, s = b ++ last_literal cp ++ rest ∧ at_end rest = true ∧ fits (segs cp) g b)
  ∧ path_format cp = format_of (segs cp) ++ last_literal cp
  ∧ NoDup (param_convertors cp).*1.
Proof.
  intros Hs Hc. destruct (compile_path_ok _ _ _ Hs Hc) as (Hf & Hcv & Hwf). unfold path_regex_match.
  split_and!; [by apply compile_path_reads| | |done|by rewrite Hcv].
  - split.
    + intros Hn g b rest -> He Hfit.
      assert (g ∈ match_segs (segs cp) (last_literal cp) (b ++ last_literal cp ++ rest)) as Hin
        by (apply match_segs_spec; eauto).
      destruct (match_segs _ _ _); [by apply elem_of_nil in Hin|done].
    + intros Hn. destruct (match_segs _ _ _) as [|g gs] eqn:E; [done|]. exfalso.
      assert (g ∈ match_segs (segs cp) (last_literal cp) s) as Hin by (rewrite E; set_solver).
      apply match_segs_spec in Hin as (b & rest & ? & ? & ?). by eapply Hn.
  - intros g Hg. assert (g ∈ match_segs (segs cp) (last_literal cp) s) as Hin.
    { destruct (match_segs _ _ _); simplify_eq/=. set_solver. }
    apply match_segs_spec in Hin as (b & rest & ? & ? & Hfit).
    split; [|eauto]. by rewrite Hcv, (fits_names _ _ _ Hfit).
Qed.

Definition sample_compiled : Compiled :=
  match compile_path CONVERTOR_TYPES $"/items/{id:int}/{name}" with
  | Ok cp => cp
  | Raise _ => mkCompiled [] [] [] []
  end.

Lemma sample_compiles : compile_path CONVERTOR_TYPES $"/items/{id:int}/{name}" = Ok sample_compiled.
Proof. reflexivity. Qed.

Lemma path_match_correct_witness :
  compile_path CONVERTOR_TYPES $"/items/{id:int}/{name}" = Ok sample_compiled
  ∧ path_regex_match sample_compiled $"/items/42/foo" = Some [($"id", $"42"); ($"name", $"foo")]
  ∧ [$"id"; $"name"] = (param_convertors sample_compiled).*1.
Proof.
  split; [exact sample_compiles|]. split; [reflexivity|].
  destruct (path_match_correct CONVERTOR_TYPES $"/items/{id:int}/{name}" sample_compiled $"/items/42/foo"
    eq_refl sample_compiles) as (_ & _ & Hg & _).
  exact (proj1 (Hg [($"id", $"42"); ($"name", $"foo")] eq_refl)).
Defined.

(** C2: the URL that [url_path_for] generates for a route is served by that
    route with the same parameters: for a template without stray braces whose
    parameters are separated by slashes, and values that suit their convertors,
    matching the generated path is a full match whose path parameters are
    exactly the given ones. *)
Theorem url_path_for_matches types path r name params u sc :
  startswith path $"/" = true -> compile_path types path = Ok (r_compiled r) ->
  plain_literals (r_compiled r) -> separated (segs (r_compiled r)) (last_literal (r_compiled r)) ->
  dict_wf params -> suitable (r_compiled r) params ->
  route_url_path_for r name params = Ok u -> 10%N ∉ up_path u ->
  sc_type sc = Http -> get_route_path sc = up_path u -> sc_path_params sc = None ->
  method_refused (r_methods r) sc = Ok false ->
  ∃ child pp, route_matches r sc = Ok (Full, child) ∧ ch_path_params child = Some pp
    ∧ ch_endpoint child = Some (r_endpoint r) ∧ ∀ k, dict_get pp k = dict_get params k.
Proof.
  intros Hs Hc Hpl Hsep Hwf Hsuit Hu Hnl Hty Hpath Hpp Hm.
  destruct (compile_path_ok _ _ _ Hs Hc) as (_ & Hcv & Hpwf).
  destruct (generated_path _ _ _ _ _ _ _ _ Hs Hc Hpl Hwf Hsuit Hu) as (Hsub & Hsup & g & b & Hup & Hfit & Hg).
  unfold route_matches. rewrite decide_True, Hpath by done.
  rewrite (match_unique _ _ g) by (try done; eauto).
  destruct (convert_params_ok _ _ _ Hg) as (ps & -> & Hk & Hps). cbn [rbind]. rewrite Hm. cbn [rbind].
  eexists _, _. split_and!; [done|done|done|]. intros k. unfold merged_params. rewrite Hpp. cbn [get_or].
  rewrite (fits_names _ _ _ Hfit), <-Hcv in Hk.
  rewrite dict_get_update by (unfold dict_wf; rewrite Hk, Hcv; done).
  rewrite (dict_get_agree ps params) by (try done; by rewrite Hk).
  by destruct (dict_get params k).
Qed.

Definition sample_route : Route :=
  mkRoute $"/items/{id:int}/{name}" 7 $"item" (fun _ => run_ok []) (Some [$"GET"; $"HEAD"]) sample_compiled.

Definition sample_params : list (str * pval) := [($"name", PStr $"foo"); ($"id", PInt 42)].

Definition http_scope (path : str) : Scope :=
  mkScope Http path None None (Some $"GET") None None None None None None None false false.

Lemma sample_suitable : suitable sample_compiled sample_params.
Proof.
  assert (Hc : param_convertors sample_compiled = [($"id", IntegerConvertor); ($"name", StringConvertor)])
    by reflexivity.
  intros k v c Hv Hk. rewrite Hc in Hk. unfold sample_params in Hv. cbn [dict_get] in Hv, Hk.
  repeat case_decide; simplify_eq; split.
  - exists dom_int. split; [apply _|by eexists].
  - intros s Hs. vm_compute in Hs. injection Hs as <-. apply contains_char_false. reflexivity.
  - exists dom_str. split; [apply _|by eexists].
  - intros s Hs. vm_compute in Hs. injection Hs as <-. apply contains_char_false. reflexivity.
Qed.

Lemma sample_separated :
  plain_literals sample_compiled ∧ separated (segs sample_compiled) (last_literal sample_compiled).
Proof.
  split.
  - split; [|set_solver]. assert (Hs : segs sample_compiled = [Lit $"/items/"; Param $"id" IntegerConvertor;
      Lit $"/"; Param $"name" StringConvertor]) by reflexivity.
    intros t Ht. rewrite Hs in Ht. rewrite !elem_of_cons, elem_of_nil in Ht.
    destruct_or! Ht; simplify_eq; apply contains_char_false; reflexivity.
  - split; [right; split; [|by eexists]|split; [by left|done]].
    intros m [Hm _]. rewrite Forall_forall in Hm. intros Hin. by apply Hm in Hin.
Qed.

Lemma url_path_for_matches_witness :
  ∃ u child pp, route_url_path_for sample_route $"item" sample_params = Ok u
    ∧ up_path u = $"/items/42/foo"
    ∧ route_matches sample_route (http_scope (up_path u)) = Ok (Full, child)
    ∧ ch_path_params child = Some pp ∧ dict_get pp $"id" = Some (PInt 42).
Proof.
  exists (mkURLPath $"/items/42/foo" $"http" []).
  destruct (url_path_for_matches CONVERTOR_TYPES $"/items/{id:int}/{name}" sample_route $"item"
    sample_params (mkURLPath $"/items/42/foo" $"http" []) (http_scope $"/items/42/foo"))
    as (child & pp & Hm & Hp & _ & Hk).
  - reflexivity.
  - exact sample_compiles.
  - exact (proj1 sample_separated).
  - exact (proj2 sample_separated).
  - apply (bool_decide_unpack _). vm_compute. exact I.
  - exact sample_suitable.
  - vm_compute. reflexivity.
  - apply contains_char_false. reflexivity.
  - reflexivity.
  - reflexivity.
  - reflexivity.
  - vm_compute. reflexivity.
  - exists child, pp. split; [vm_compute; reflexivity|]. split; [reflexivity|]. split; [exact Hm|].
    split; [exact Hp|]. rewrite Hk. reflexivity.
Defined.

(** ** Mounted applications *)
Lemma mount_match_shape types p cp sc id m child :
  compile_path types (p ++ mount_suffix) = Ok cp -> startswith (p ++ mount_suffix) $"/" = true ->
  dict_get types $"path" = Some PathConvertor ->
  mount_matches id cp sc = Ok (m, child) -> m ≠ MNone -> 10%N ∉ get_route_path sc ->
  m = Full ∧ ∃ matched rest, get_route_path sc = matched ++ $"/" ++ rest
    ∧ ch_root_path child = Some (get_or (sc_root_path sc) [] ++ matched)
    ∧ (123%N ∉ p -> matched = p).
Proof.
  intros Hc Hs Hty H Hm Hnl. destruct (compile_path_ok _ _ _ Hs Hc) as (_ & Hcv & Hwf).
  destruct (compile_mount _ _ _ Hc Hty) as (Htl & sg & t & Hsg & Hp).
  unfold mount_matches in H. case_bool_decide; [|simplify_eq/=].
  destruct (path_regex_match cp (get_route_path sc)) as [g|] eqn:Eg; [|simplify_eq/=].
  unfold path_regex_match in Eg.
  assert (g ∈ match_segs (segs cp) (last_literal cp) (get_route_path sc)) as Hin.
  { destruct (match_segs _ _ _); simplify_eq/=. set_solver. }
  apply match_segs_spec in Hin as (b & rest & Hb & He & Hf). rewrite Htl in Hb. cbn [app] in Hb.
  assert (rest = []) as ->.
  { apply bool_decide_eq_true in He as [->| ->]; [done|]. rewrite Hb in Hnl. set_solver. }
  rewrite app_nil_r in Hb. pose proof (fits_names _ _ _ Hf) as Hnames. rewrite Hsg in Hf.
  apply fits_mount in Hf as (g1 & b1 & x & -> & -> & Hf1). inv_ok.
  assert (Hwf' : dict_wf (g1 ++ [($"path", x)])) by (unfold dict_wf; by rewrite Hnames).
  assert (Hpath : dict_get (param_convertors cp) $"path" = Some PathConvertor).
  { rewrite Hcv. apply dict_elem_get; [done|]. rewrite Hsg, params_of_app. set_solver. }
  assert (Hnew : $"path" ∉ g1.*1).
  { unfold dict_wf in Hwf'. rewrite fmap_app in Hwf'. apply NoDup_app in Hwf' as (_ & Hd & _).
    intros Hin. apply (Hd _ Hin). set_solver. }
  erewrite convert_params_snoc in H by done. simplify_eq/=. split; [done|].
  exists (b1 ++ t), x. rewrite Hb, <-app_assoc. split_and!; [done| |].
  - do 2 f_equal. rewrite app_assoc, take_app_length'; [done|]. rewrite !length_app. simpl. lia.
  - intros Hnb. destruct (Hp Hnb) as [-> ->]. inversion Hf1; subst. done.
Qed.

Lemma route_path_of_prefix sc root rest :
  sc_root_path sc = Some root -> sc_path sc = root ++ $"/" ++ rest ->
  get_route_path sc = $"/" ++ rest.
Proof.
  intros Hr Hp. unfold get_route_path. rewrite Hr, Hp. cbn [get_or].
  destruct root as [|c root]; [done|]. rewrite startswith_app, drop_app_length. done.
Qed.

Lemma lstrip_by_suffix p s : ∃ pre, s = pre ++ lstrip_by p s.
Proof.
  induction s as [|c s [pre IH]]; simpl; [by exists []|].
  destruct (p c); [exists (c :: pre); simpl; congruence|by exists []].
Qed.

Lemma rstrip_prefix c s : ∃ suf, s = rstrip c s ++ suf.
Proof.
  unfold rstrip, rstrip_by. destruct (lstrip_by_suffix (N.eqb c) (reverse s)) as [pre Hp].
  exists (reverse pre). rewrite <-reverse_app, <-Hp. by rewrite reverse_involutive.
Qed.

Lemma rstrip_not_in x c s : x ∉ s -> x ∉ rstrip c s.
Proof. destruct (rstrip_prefix c s) as [suf Hs]. intros Hx Hin. apply Hx. rewrite Hs. set_solver. Qed.

Lemma mount_path_slash path :
  bool_decide (path = []) = true ∨ startswith path $"/" = true ->
  startswith (rstrip 47 path ++ mount_suffix) $"/" = true.
Proof.
  intros H. destruct (rstrip 47 path) as [|c s] eqn:E; [done|].
  destruct (rstrip_prefix 47 path) as [suf Hs]. rewrite E in Hs. destruct H as [H|H].
  - apply bool_decide_eq_true in H. subst. discriminate.
  - rewrite Hs in H. change $"/" with [47%N] in *. cbn in H |- *. destruct s, suf; exact H.
Qed.

(** C4: mounts compose: when a mounted application is selected, the path it
    sees is what follows the mount's own prefix, starting with a slash, and the
    request path is still the new root path followed by that remainder, so the
    same holds for mounts nested inside.  The prefix removed is the mount's
    path when that has no parameters. *)
Theorem mount_composes types call fexc path id target name mw p nm id' app cp rs sc m child :
  mount_init types call fexc path id target name mw = Ok (MountRoute p nm id' app cp rs) ->
  dict_get types $"path" = Some PathConvertor ->
  matches (MountRoute p nm id' app cp rs) sc = Ok (m, child) -> m ≠ MNone ->
  10%N ∉ sc_path sc -> sc_path sc = get_or (sc_root_path sc) [] ++ get_route_path sc ->
  let sc' := scope_update sc child in
  m = Full ∧ ∃ matched rest, get_route_path sc = matched ++ $"/" ++ rest
    ∧ get_or (sc_root_path sc') [] = get_or (sc_root_path sc) [] ++ matched
    ∧ get_route_path sc' = $"/" ++ rest
    ∧ sc_path sc' = get_or (sc_root_path sc') [] ++ get_route_path sc'
    ∧ (123%N ∉ path -> matched = p).
Proof.
  intros Hi Hty Hm Hne Hnl Hinv. unfold mount_init in Hi. inv_ok. destruct x0 as [a rs'].
  inv_ok. simplify_eq. cbn [matches] in Hm.
  destruct (mount_match_shape types (rstrip 47 path) cp sc id' m child) as (-> & matched & rest & Hr & Hroot & Hpre);
    [done| |done|done|done| |].
  { apply mount_path_slash. by apply orb_true_iff in H. }
  { rewrite Hinv in Hnl. set_solver. }
  split; [done|]. exists matched, rest. unfold scope_update. cbn [sc_root_path sc_path]. rewrite Hroot.
  cbn [override get_or].
  assert (Hp : sc_path sc = (get_or (sc_root_path sc) [] ++ matched) ++ $"/" ++ rest).
  { rewrite Hinv, Hr. by rewrite <-app_assoc. }
  set (sc' := mkScope _ _ _ _ _ _ _ _ _ _ _ _ _ _).
  assert (Hg : get_route_path sc' = $"/" ++ rest) by (by eapply route_path_of_prefix).
  rewrite Hg. split_and!; [done|done|done|done|]. intros Hb. apply Hpre. by apply rstrip_not_in.
Qed.

Definition no_call : Z -> result unit := fun _ => Ok tt.
Definition no_text : exn -> str := fun _ => [].
Definition sample_mount : result BaseRoute :=
  mount_init CONVERTOR_TYPES no_call no_text $"/api/" 3 (MountRoutes []) None None.

Definition mount_parts (r : result BaseRoute) : option (str * asgi_app * Compiled) :=
  match r with Ok (MountRoute p _ _ app cp _) => Some (p, app, cp) | _ => None end.

Lemma mount_composes_witness :
  ∃ app cp child,
    sample_mount = Ok (MountRoute $"/api" None 3 app cp [])
    ∧ matches (MountRoute $"/api" None 3 app cp []) (http_scope $"/api/users/1") = Ok (Full, child)
    ∧ get_route_path (scope_update (http_scope $"/api/users/1") child) = $"/users/1".
Proof.
  unfold sample_mount. eexists _, _, _. split; [reflexivity|]. split; [reflexivity|].
  destruct (mount_composes CONVERTOR_TYPES no_call no_text $"/api/" 3 (MountRoutes []) None None
    $"/api" None 3 _ _ [] (http_scope $"/api/users/1") Full _ eq_refl eq_refl eq_refl
    ltac:(discriminate) ltac:(apply contains_char_false; reflexivity) eq_refl)
    as (_ & matched & rest & Hr & _ & Hg & _ & Hm).
  rewrite Hg. rewrite (Hm ltac:(apply contains_char_false; reflexivity)) in Hr.
  change (get_route_path (http_scope $"/api/users/1")) with ($"/api" ++ $"/users/1") in Hr.
  apply (inj (app $"/api")) in Hr. symmetry. exact Hr.
Defined.

(** ** The choice of a route *)
Definition no_full (sc : Scope) (rt : BaseRoute) : Prop :=
  ∃ m child, matches rt sc = Ok (m, child) ∧ m ≠ Full.
Definition no_match (sc : Scope) (rt : BaseRoute) : Prop :=
  ∃ child, matches rt sc = Ok (MNone, child).

Lemma select_full pre rt post sc child partial :
  Forall (no_full sc) pre -> matches rt sc = Ok (Full, child) ->
  select (pre ++ rt :: post) sc partial = Ok (Selected rt child).
Proof.
  intros Hpre Hm. revert partial. induction Hpre as [|x pre (m & c & Hx & Hne) _ IH]; intros partial; simpl.
  - by rewrite Hm.
  - rewrite Hx. destruct m; simpl; [apply IH|apply IH|done].
Qed.

Lemma select_rest rts sc rt child :
  Forall (no_full sc) rts -> select rts sc (Selected rt child) = Ok (Selected rt child).
Proof.
  induction 1 as [|x rts (m & c & Hx & Hne) _ IH]; simpl; [done|]. rewrite Hx. by destruct m.
Qed.

Lemma select_partial pre rt post sc child :
  Forall (no_match sc) pre -> matches rt sc = Ok (Partial, child) -> Forall (no_full sc) post ->
  select (pre ++ rt :: post) sc NotSelected = Ok (Selected rt child).
Proof.
  intros Hpre Hm Hpost. induction Hpre as [|x pre (c & Hx) _ IH]; simpl.
  - rewrite Hm. simpl. by apply select_rest.
  - by rewrite Hx.
Qed.

Lemma select_none rts sc : Forall (no_match sc) rts -> select rts sc NotSelected = Ok NotSelected.
Proof. induction 1 as [|x rts (c & Hx) _ IH]; simpl; [done|]. by rewrite Hx. Qed.

Lemma any_match_none rts sc : Forall (no_match sc) rts -> any_match rts sc = Ok false.
Proof. induction 1 as [|x rts (c & Hx) _ IH]; simpl; [done|]. by rewrite Hx. Qed.

Lemma select_any rts sc sel :
  any_match rts sc = Ok true -> select rts sc NotSelected = Ok sel -> sel ≠ NotSelected.
Proof.
  assert (Hkeep : ∀ l rt child, select l sc (Selected rt child) = Ok sel -> sel ≠ NotSelected).
  { induction l as [|x l IH]; simpl; intros rt child H; [by injection H as <-|].
    destruct (matches x sc) as [[[] c]|]; simpl in H; [eauto|eauto| |done]. by injection H as <-. }
  induction rts as [|x rts IH]; simpl; [done|].
  destruct (matches x sc) as [[[] c]|]; simpl; [auto| |by intros _ [= <-]|done].
  intros _. apply Hkeep.
Qed.

(** C3: the router serves a request with the first route that matches fully;
    only if no route does, with the first that matches the path but not the
    method; only if none does either, and no redirect applies, with the
    default application. *)
Theorem router_choice rt sc0 :
  let sc := scope_with_router sc0 in
  (∀ pre r post child, routes rt = pre ++ r :: post -> Forall (no_full sc) pre ->
     matches r sc = Ok (Full, child) -> router_app rt sc0 = handle r (scope_update sc child))
  ∧ (∀ pre r post child, routes rt = pre ++ r :: post -> Forall (no_match sc) pre ->
       matches r sc = Ok (Partial, child) -> Forall (no_full sc) post ->
       router_app rt sc0 = handle r (scope_update sc child))
  ∧ (Forall (no_match sc) (routes rt) ->
     sc_type sc0 ≠ Http ∨ redirect_slashes rt = false ∨ get_route_path sc = $"/"
       ∨ Forall (no_match (redirect_scope sc)) (routes rt) ->
     router_app rt sc0 = get_or (default rt) not_found sc).
Proof.
  unfold router_app. split_and!.
  - intros pre r post child -> Hpre Hm. by erewrite select_full.
  - intros pre r post child -> Hpre Hm Hpost. by erewrite select_partial.
  - intros Hn Hc. rewrite select_none by done.
    destruct (bool_decide _ && _ && _) eqn:E; [|done].
    apply andb_true_iff in E as [E E3]. apply andb_true_iff in E as [E1 E2].
    apply bool_decide_eq_true in E1. apply negb_true_iff, bool_decide_eq_false in E3.
    destruct Hc as [Hc|[Hc|[Hc|Hc]]]; [by destruct Hc|congruence|congruence|].
    by rewrite any_match_none.
Qed.

(** A path and the same path with its final slash added, or without its final
    slashes. *)
Definition slash_variant (p q : str) : Prop :=
  (last p ≠ Some 47%N ∧ q = p ++ [47%N])
  ∨ (last q ≠ Some 47%N ∧ ∃ k, p = q ++ replicate (S k) 47%N).

(** The scheme and host of a request, as a URL begins with them; a port that is
    usual for the scheme is left out. *)
Definition usual_ports : list (str * Z) := [($"http", 80); ($"https", 443); ($"ws", 80); ($"wss", 443)].

Inductive origin (sc : Scope) : str -> Prop :=
  | origin_unknown : sc_server sc = None -> origin sc []
  | origin_usual host port scheme :
      sc_server sc = Some (host, port) -> scheme = get_or (sc_scheme sc) $"http" -> (scheme, port) ∈ usual_ports ->
      origin sc (scheme ++ $"://" ++ host)
  | origin_port host port scheme :
      sc_server sc = Some (host, port) -> scheme = get_or (sc_scheme sc) $"http" -> (scheme, port) ∉ usual_ports ->
      origin sc (scheme ++ $"://" ++ host ++ $":" ++ Z_to_str port).

Inductive query_part (sc : Scope) : str -> Prop :=
  | no_query : get_or (sc_query_string sc) [] = [] -> query_part sc []
  | some_query q : sc_query_string sc = Some q -> q ≠ [] -> query_part sc ($"?" ++ q).

Lemma usual_port scheme port : default_port scheme = Some port ↔ (scheme, port) ∈ usual_ports.
Proof.
  unfold default_port. split; [apply dict_get_elem|]. apply dict_elem_get. vm_compute. repeat constructor; set_solver.
Qed.

Lemma url_of_scope_parts sc o q :
  origin sc o -> query_part sc q -> get_or (sc_root_path sc) [] = [] -> url_of_scope sc = o ++ sc_path sc ++ q.
Proof.
  intros Ho Hq Hr. unfold url_of_scope. rewrite Hr. cbn [app].
  assert (match sc_server sc with
          | Some (host, port) =>
              get_or (sc_scheme sc) $"http" ++ $"://"
              ++ (if bool_decide (default_port (get_or (sc_scheme sc) $"http") = Some port) then host
                  else host ++ $":" ++ Z_to_str port) ++ sc_path sc
          | None => sc_path sc
          end = o ++ sc_path sc) as ->.
  { destruct Ho as [Hn|host port scheme Hs -> Hp|host port scheme Hs -> Hp]; [by rewrite Hn|..]; rewrite Hs.
    - rewrite bool_decide_true by (by apply usual_port). by rewrite <-!app_assoc.
    - rewrite bool_decide_false by (by rewrite usual_port). by rewrite <-!app_assoc. }
  destruct Hq as [Hn|q' Hs Hne].
  - rewrite app_nil_r. by destruct (sc_query_string sc) as [[|]|].
  - rewrite Hs. destruct q' as [|x q']; [done|]. unfold decode_latin1. by rewrite <-app_assoc.
Qed.

Lemma rstrip_slashes q k : last q ≠ Some 47%N -> rstrip 47 (q ++ replicate k 47%N) = q.
Proof.
  intros Hq. unfold rstrip, rstrip_by. rewrite reverse_app, reverse_replicate.
  assert (∀ t, lstrip_by (N.eqb 47) (replicate k 47%N ++ t) = lstrip_by (N.eqb 47) t) as ->.
  { induction k as [|k IH]; intros t; [done|]. cbn. apply IH. }
  destruct q as [|x q _] using rev_ind; [done|]. rewrite last_snoc in Hq. rewrite reverse_snoc. cbn [lstrip_by].
  destruct (N.eqb_spec 47 x) as [<-|]; [done|]. by rewrite <-reverse_snoc, reverse_involutive.
Qed.

Lemma redirect_scope_variant sc target :
  get_or (sc_root_path sc) [] = [] -> slash_variant (sc_path sc) target -> redirect_scope sc = scope_with_path sc target.
Proof.
  intros Hr Hv. unfold redirect_scope. f_equal. unfold get_route_path. rewrite Hr.
  destruct Hv as [[Hl ->]|[Hl [k Hk]]].
  - destruct (endswith (sc_path sc) $"/") eqn:E; [|done]. exfalso. apply Hl.
    apply endswith_spec in E as [t ->]. change $"/" with [47%N]. by rewrite last_snoc.
  - rewrite Hk. assert (endswith (target ++ replicate (S k) 47%N) $"/" = true) as ->.
    { apply endswith_spec. exists (target ++ replicate k 47%N). rewrite replicate_S_end. by rewrite app_assoc. }
    by apply rstrip_slashes.
Qed.

Lemma any_match_some rts sc :
  Forall (fun r => is_ok (matches r sc) = true) rts ->
  (∃ r m child, r ∈ rts ∧ matches r sc = Ok (m, child) ∧ m ≠ MNone) -> any_match rts sc = Ok true.
Proof.
  intros Hok (r & m & child & Hr & Hm & Hne). induction Hok as [|x rts Hx _ IH]; [by apply elem_of_nil in Hr|].
  cbn [any_match]. apply elem_of_cons in Hr as [<-|Hr]; [rewrite Hm; by destruct m|].
  destruct (matches x sc) as [[[] c]|]; [by apply IH|done..].
Qed.

Lemma select_served rts sc p :
  Forall (fun r => is_ok (matches r sc) = true) rts ->
  ∃ sel, select rts sc p = Ok sel
    ∧ (sel = p ∨ ∃ r m child, sel = Selected r child ∧ r ∈ rts ∧ matches r sc = Ok (m, child) ∧ m ≠ MNone).
Proof.
  intros Hok. revert p. induction Hok as [|x rts Hx _ IH]; intros p; cbn [select]; [eauto|].
  destruct (matches x sc) as [[m c]|] eqn:E; [|done]. cbn [rbind]. destruct m.
  - destruct (IH p) as (sel & Hs & Hsel). exists sel. split; [done|].
    destruct Hsel as [->|(r & m & ch & Hsel & Hr & Hm)]; [by left|].
    right. exists r, m, ch. split_and!; [done|by right|naive_solver..].
  - destruct (IH (match p with NotSelected => Selected x c | _ => p end)) as (sel & Hs & [->|(r & m & ch & Hsel & Hr & Hm)]).
    + eexists. split; [exact Hs|]. destruct p; [by left|]. right. exists x, Partial, c. split_and!; [done|by left|done|done].
    + exists sel. split; [done|]. right. exists r, m, ch. split_and!; [done|by right|naive_solver..].
  - exists (Selected x c). split; [done|]. right. exists x, Full, c. split_and!; [done|by left|done|done].
Qed.

(** C5: slash redirects, for a router that is not mounted and serves no root
    path: a request no route matches is answered, if a route matches its path
    with the final slash added, or without its final slashes, by a redirect to
    the same scheme, host and query with that path; and the request for that
    path is served by a route that matches it, not redirected again. *)
Theorem router_redirect rt sc0 target o q url :
  let sc := scope_with_router sc0 in
  let tsc := scope_with_path sc target in
  get_or (sc_root_path sc0) [] = [] -> sc_type sc0 = Http -> redirect_slashes rt = true -> sc_path sc0 ≠ $"/" ->
  slash_variant (sc_path sc0) target -> origin sc0 o -> query_part sc0 q ->
  Forall (no_match sc) (routes rt) -> Forall (fun r => is_ok (matches r tsc) = true) (routes rt) ->
  (∃ r m child, r ∈ routes rt ∧ matches r tsc = Ok (m, child) ∧ m ≠ MNone) ->
  quote redirect_safe (o ++ target ++ q) = Ok url -> encode_latin1 url = Ok url ->
  (∃ hs, sent (router_app rt sc0) = [ResponseStart 307 hs; ResponseBody [] false]
     ∧ MH.raw_values hs $"location" = [url])
  ∧ ∃ r m child, r ∈ routes rt ∧ matches r tsc = Ok (m, child) ∧ m ≠ MNone
      ∧ router_app rt (scope_with_path sc0 target) = handle r (scope_update tsc child).
Proof.
  intros sc tsc Hroot Hty Hr Hp Hv Ho Hq Hn Hok Hex Hquote He. split.
  - unfold router_app. fold sc. rewrite select_none by done.
    assert (get_route_path sc = sc_path sc0) as Hrp.
    { unfold get_route_path. change (sc_root_path sc) with (sc_root_path sc0). by rewrite Hroot. }
    rewrite bool_decide_true, Hr, Hrp, bool_decide_false by done. cbn [andb negb].
    rewrite (redirect_scope_variant sc target) by done. fold tsc. rewrite any_match_some by done.
    rewrite (url_of_scope_parts tsc o q); [|by destruct Ho; econstructor|by destruct Hq; econstructor|done].
    unfold redirect_to, RedirectResponse. change (sc_path tsc) with target. rewrite Hquote. cbn [rbind].
    unfold init_response. cbn [render rbind override]. unfold raw_of_dict. cbn [dict_set rmapM].
    rewrite He. eexists. split; [vm_compute; reflexivity|]. reflexivity.
  - destruct (select_served (routes rt) tsc NotSelected Hok) as (sel & Hs & Hsel).
    pose proof (select_any _ _ _ (any_match_some _ _ Hok Hex) Hs).
    destruct Hsel as [->|(r & m & child & -> & Hin & Hm & Hne)]; [done|]. exists r, m, child. split_and!; try done.
    unfold router_app. change (scope_with_router (scope_with_path sc0 target)) with tsc. by rewrite Hs.
Qed.

Definition sample_router : Router := mkRouter [HttpRoute sample_route] true None [] [].

Lemma router_redirect_witness :
  (∃ hs, sent (router_app sample_router (http_scope $"/items/42/foo/"))
        = [ResponseStart 307 hs; ResponseBody [] false]
    ∧ MH.raw_values hs $"location" = [$"/items/42/foo"]).
Proof.
  destruct (router_redirect sample_router (http_scope $"/items/42/foo/") $"/items/42/foo" [] [] $"/items/42/foo") as [H _];
    try reflexivity; try discriminate.
  - right. split; [discriminate|]. by exists O.
  - by constructor.
  - by constructor.
  - constructor; [|constructor]. eexists. vm_compute. reflexivity.
  - constructor; [|constructor]. vm_compute. reflexivity.
  - exists (HttpRoute sample_route), Full. eexists. split; [by left|]. split; [vm_compute; reflexivity|discriminate].
  - exact H.
Defined.

(** ** Lifespan *)
Lemma run_handlers_spec call hs :
  ∃ done rest, hs = done ++ rest ∧ (run_handlers call hs).1 = Called <$> done
    ∧ match (run_handlers call hs).2 with
      | Ok _ => rest = [] ∧ Forall (fun h => call h = Ok tt) done
      | Raise e => ∃ init h, done = init ++ [h] ∧ call h = Raise e ∧ Forall (fun h => call h = Ok tt) init
      end.
Proof.
  induction hs as [|h hs (dn & rest & -> & Htr & Hr)]; [exists [], []; simpl; auto using Forall_nil_2|].
  cbn [run_handlers]. destruct (call h) as [[]|e] eqn:E.
  - destruct (run_handlers call (dn ++ rest)) as [tr r]. simpl in *. subst tr.
    exists (h :: dn), rest. split_and!; [done|done|]. destruct r as [|e].
    + destruct Hr as [-> Hf]. split; [done|]. by constructor.
    + destruct Hr as (ini & h' & -> & He & Hf). exists (h :: ini), h'. split_and!; [done|done|by constructor].
  - exists [h], (dn ++ rest). split_and!; [done|done|]. exists [], h. split_and!; auto using Forall_nil_2.
Qed.

(** How a phase of handlers ends: all returned, or the last of those called
    raised and none after it was called. *)
Inductive phase (call : Z -> result unit) : list Z -> list Z -> result unit -> Prop :=
  | phase_done hs : Forall (fun h => call h = Ok tt) hs -> phase call hs hs (Ok tt)
  | phase_failed hs h rest e :
      Forall (fun h => call h = Ok tt) hs -> call h = Raise e -> phase call (hs ++ h :: rest) (hs ++ [h]) (Raise e).

Lemma run_handlers_phase call hs :
  ∃ ran, (run_handlers call hs).1 = Called <$> ran ∧ phase call hs ran (run_handlers call hs).2.
Proof.
  destruct (run_handlers_spec call hs) as (ran & rest & Hhs & Htr & Hr). exists ran. split; [done|].
  destruct (run_handlers call hs).2 as [[]|e].
  - destruct Hr as [-> Hf]. rewrite Hhs, app_nil_r. by constructor.
  - destruct Hr as (ini & h & -> & He & Hf). rewrite Hhs, <-app_assoc. by constructor.
Qed.

(** C6: the lifespan protocol, as the whole sequence of what is awaited, called
    and sent: the startup event is awaited, the startup handlers run in order up
    to the first that raises; if one does its exception is reported as a startup
    failure and passed on, and nothing else happens.  Otherwise completion is
    sent, the shutdown event is awaited, only then the shutdown handlers run, in
    order up to the first that raises, and its end is reported. *)
Theorem lifespan_protocol call fexc rt :
  let '(tr, r) := lifespan call fexc rt in
  (∃ ran e, phase call (on_startup rt) ran (Raise e) ∧ r = Raise e
     ∧ tr = [Received] ++ (Called <$> ran) ++ [Sends (StartupFailed (fexc e))])
  ∨ (phase call (on_startup rt) (on_startup rt) (Ok tt)
     ∧ ∃ ran, phase call (on_shutdown rt) ran r
       ∧ tr = [Received] ++ (Called <$> on_startup rt) ++ [Sends StartupComplete; Received] ++ (Called <$> ran)
              ++ [Sends (match r with Ok _ => ShutdownComplete | Raise e => ShutdownFailed (fexc e) end)]).
Proof.
  unfold lifespan.
  destruct (run_handlers_phase call (on_startup rt)) as (ran1 & Ht1 & Hp1).
  destruct (run_handlers call (on_startup rt)) as [tr1 r1]. cbn [fst snd] in *. subst tr1.
  destruct r1 as [[]|e]; [|left; by exists ran1, e].
  assert (ran1 = on_startup rt) as -> by (by inversion Hp1).
  destruct (run_handlers_phase call (on_shutdown rt)) as (ran2 & Ht2 & Hp2).
  destruct (run_handlers call (on_shutdown rt)) as [tr2 r2]. cbn [fst snd] in *. subst tr2.
  destruct r2 as [[]|e]; right; (split; [done|]); by exists ran2.
Qed.

(** ** Convertors *)
(** The built-in convertors read back what they print, and what they print
    is a whole match of their regular expression: strings, integers (up to the
    4300-digit limit of Python), paths without a newline and UUIDs; negative
    integers, empty strings and strings with a slash are refused. *)
Theorem convertors_roundtrip v s :
  (dom_str v -> to_string StringConvertor v = Ok s ->
     convert StringConvertor s = Ok v ∧ (s, []) ∈ splits (cv_regex StringConvertor) s)
  ∧ (dom_int v -> to_string IntegerConvertor v = Ok s ->
     convert IntegerConvertor s = Ok v ∧ (s, []) ∈ splits (cv_regex IntegerConvertor) s)
  ∧ (dom_path v -> to_string PathConvertor v = Ok s ->
     convert PathConvertor s = Ok v ∧ (s, []) ∈ splits (cv_regex PathConvertor) s)
  ∧ (dom_uuid v -> to_string UUIDConvertor v = Ok s ->
     convert UUIDConvertor s = Ok v ∧ (s, []) ∈ splits (cv_regex UUIDConvertor) s)
  ∧ (∀ z, z < 0 -> is_ok (to_string IntegerConvertor (PInt z)) = false)
  ∧ (∀ t, is_ok (to_string StringConvertor (PStr t)) = true ↔ t ≠ [] ∧ 47%N ∉ t).
Proof.
  assert (Hl : ∀ c dom, LawfulConvertor c dom -> dom v -> to_string c v = Ok s ->
            convert c s = Ok v ∧ (s, []) ∈ splits (cv_regex c) s).
  { intros c dom Hlaw Hd Hs. split; [by eapply law_convert|]. apply splits_spec.
    rewrite app_nil_r. split; [done|]. by eapply law_lang. }
  split_and!; try (intros Hd; eapply Hl; [apply _|exact Hd]).
  - intros z Hz. cbn [to_string IntegerConvertor int_of rbind].
    destruct (Z.leb_spec 0 z); [lia|done].
  - intros t. cbn [to_string StringConvertor str_of rbind].
    destruct (contains_char 47 t) eqn:E; simpl.
    + apply contains_char_spec in E. naive_solver.
    + apply contains_char_false in E. case_bool_decide; simpl; naive_solver.
Qed.
