(* ===== verification/Encoders.v ===== *)
(** * Encoders: [jsonable_encoder] of [encoders.py]

    The conversion of any object to JSON-compatible data.  Objects live in a
    heap, since the code detects circular references by identity; what it
    finds out about an object by [isinstance] is in the list of its classes.
    [model_dump] of Pydantic and custom encoders are parameters.  Generators,
    which change when they are read, are left out. *)

From S2P Require Import Prelude PyStr Asgi Convertors.

(** ** Objects *)

(** Immutable values of the built-in types, and references to objects. *)
Inductive obj : Type :=
  | ONone
  | OBool (b : bool)
  | OInt (z : Z)
  | OFloat (f : float64)
  | OStr (s : str)
  | OBytes (b : bytes)
  | ORef (id : Z).

#[global] Instance obj_eq_dec : EqDecision obj.
Proof. solve_decision. Defined.

(** A [Decimal]; special values have no numeric exponent. *)
Inductive exponent : Type := Exp (e : Z) | ExpInf | ExpNaN | ExpSNaN.
Record Decimal : Type := mkDecimal { d_negative : bool; d_digits : N; d_exponent : exponent }.

(** What the encoders of [ENCODERS_BY_TYPE] ask of an object, besides [str]. *)
Inductive leaf : Type :=
  | LIso (s : str)
  | LPattern (s : str)
  | LSeconds (f : float64)
  | LDecimal (d : Decimal)
  | LBytes (b : bytes)
  | LNone.

(** The contents of an object, by the first of the tests of the function that
    looks at contents and accepts it: models and dataclasses, enumeration
    members, dictionaries, sequences and sets, or anything else with what
    [dict(obj)] gives and the identity of [vars(obj)], if any. *)
Inductive node : Type :=
  | NModel (m : Z)
  | NDataclass (fields : list (str * obj))
  | NEnum (value : obj)
  | NDict (items : list (obj * obj))
  | NSeq (items : list obj)
  | NOther (as_dict : option (list (obj * obj))) (vars_id : option Z).

(** An object: its classes from the most specific one on, what [str] returns
    for it, what its encoder asks of it, and its contents. *)
Record object : Type := mkObject {
  ob_mro : list str;
  ob_str : str;
  ob_leaf : leaf;
  ob_node : node
}.

Abbreviation heap := (gmap Z object).

(** JSON-compatible data; [JObj] is an object that was passed through. *)
Inductive json : Type :=
  | JNull
  | JBool (b : bool)
  | JInt (z : Z)
  | JFloat (f : float64)
  | JStr (s : str)
  | JBytes (b : bytes)
  | JList (l : list json)
  | JDict (d : list (json * json))
  | JObj (id : Z).

Definition of_obj (x : obj) : json :=
  match x with
  | ONone => JNull
  | OBool b => JBool b
  | OInt z => JInt z
  | OFloat f => JFloat f
  | OStr s => JStr s
  | OBytes b => JBytes b
  | ORef id => JObj id
  end.

(** ** Dictionary keys *)

(** Numbers are equal by value, whatever their type. *)
Definition float_value (f : float64) : option (Z * Z) :=
  match f with
  | Finite neg mant expo => Some (if neg then - Z.of_N mant else Z.of_N mant, expo)
  | _ => None
  end.

Definition number_value (j : json) : option (Z * Z) :=
  match j with
  | JBool b => Some (if b then 1 else 0, 0)
  | JInt z => Some (z, 0)
  | JFloat f => float_value f
  | _ => None
  end.

Definition same_number (a b : Z * Z) : bool :=
  let e := Z.min a.2 b.2 in
  bool_decide (a.1 * 2 ^ (a.2 - e) = b.1 * 2 ^ (b.2 - e)).

Definition key_eq (a b : json) : bool :=
  match a, b with
  | JNull, JNull => true
  | JStr s, JStr t => bool_decide (s = t)
  | JBytes s, JBytes t => bool_decide (s = t)
  | JObj i, JObj j => bool_decide (i = j)
  | JFloat (Infinite s), JFloat (Infinite t) => bool_decide (s = t)
  | _, _ =>
      match number_value a, number_value b with
      | Some x, Some y => same_number x y
      | _, _ => false
      end
  end.

(** [encoded_dict[key] = value]; lists and dictionaries are not hashable. *)
Fixpoint json_set (d : list (json * json)) (k v : json) : list (json * json) :=
  match d with
  | [] => [(k, v)]
  | (k', v') :: d' => if key_eq k k' then (k', v) :: d' else (k', v') :: json_set d' k v
  end.

Definition hashable (j : json) : bool :=
  match j with JList _ | JDict _ => false | _ => true end.

Definition unhashable : exn := TypeError $"unhashable type".

(** ** The encoders by type *)
Inductive encoder : Type :=
  | EDecode | EStr | EIsoformat | ETotalSeconds | EDecimal | EValue | EList | EPattern.

#[global] Instance encoder_eq_dec : EqDecision encoder.
Proof. solve_decision. Defined.

Definition ENCODERS_BY_TYPE : list (str * encoder) :=
  [($"bytes", EDecode); ($"Color", EStr); ($"date", EIsoformat); ($"datetime", EIsoformat);
   ($"time", EIsoformat); ($"timedelta", ETotalSeconds); ($"Decimal", EDecimal); ($"Enum", EValue);
   ($"frozenset", EList); ($"deque", EList); ($"generator", EList);
   ($"IPv4Address", EStr); ($"IPv4Interface", EStr); ($"IPv4Network", EStr);
   ($"IPv6Address", EStr); ($"IPv6Interface", EStr); ($"IPv6Network", EStr);
   ($"NameEmail", EStr); ($"Path", EStr); ($"Pattern", EPattern);
   ($"SecretBytes", EStr); ($"SecretStr", EStr); ($"set", EList); ($"UUID", EStr);
   ($"Url", EStr); ($"AnyUrl", EStr)].

(** [generate_encoders_by_class_tuples]: the classes of every encoder. *)
Definition generate_encoders_by_class_tuples (m : list (str * encoder)) : list (encoder * list str) :=
  foldl (fun acc '(t, e) => dict_set acc e (dict_getdefault acc e [] ++ [t])) [] m.

Definition encoders_by_class_tuples : list (encoder * list str) :=
  generate_encoders_by_class_tuples ENCODERS_BY_TYPE.

Definition is_instance (mro : list str) (classes : list str) : bool :=
  existsb (fun c => bool_decide (c ∈ mro)) classes.

(** The encoder of an object of the classes [mro]: by its type, else the first
    one with a class it is an instance of. *)
Definition find_encoder (mro : list str) : option encoder :=
  match head mro ≫= dict_get ENCODERS_BY_TYPE with
  | Some e => Some e
  | None => fst <$> List.find (fun ec => is_instance mro ec.2) encoders_by_class_tuples
  end.

(** ** Options *)

(** Arguments of the calls: existing objects, and the dictionaries the
    function makes itself. *)
Inductive arg : Type := Existing (x : obj) | NewDict (items : list (obj * obj)).

Record options : Type := mkOptions {
  include : option (list obj);
  exclude : option (list obj);
  by_alias : bool;
  exclude_unset : bool;
  exclude_defaults : bool;
  exclude_none : bool;
  custom_encoder : list (str * (arg -> result json));
  sqlalchemy_safe : bool
}.

(** What the values of a dictionary are encoded with. *)
Definition value_options (o : options) : options :=
  mkOptions None None (by_alias o) (exclude_unset o) false (exclude_none o) (custom_encoder o) (sqlalchemy_safe o).

Definition default_options : options := mkOptions None None true false false false [] true.

(** No option that could change a value is set. *)
Definition plain_options (o : options) : bool :=
  match include o, exclude o, custom_encoder o with
  | None, None, [] => negb (exclude_unset o) && negb (exclude_defaults o) && negb (exclude_none o)
  | _, _, _ => false
  end.

(** [decimal_encoder]: an integer when there is no fraction part, else
    [float(dec)], the nearest binary64 value. *)
Definition signed (neg : bool) (n : N) : Z := if neg then - Z.of_N n else Z.of_N n.

Definition decimal_encoder (d : Decimal) : result json :=
  match d_exponent d with
  | Exp e =>
      if bool_decide (e >= 0) then Ok (JInt (signed (d_negative d) (d_digits d) * 10 ^ e))
      else
        let '(num, den) := scale10 (d_digits d) 1 e in
        Ok (JFloat (match round_ratio num den with
                    | Some (m, x) => Finite (d_negative d) m x
                    | None => Infinite (d_negative d)
                    end))
  | ExpInf => Ok (JFloat (Infinite (d_negative d)))
  | ExpNaN => Ok (JFloat NaN)
  | ExpSNaN => Raise (ValueError $"cannot convert signaling NaN to float")
  end.

Definition primitive_types : list str := [$"str"; $"int"; $"float"; $"bool"; $"NoneType"].

(** [isoformat] and the other encoders applied to an object; [list] and
    [o.value] are not reached, the function has handled these objects. *)
Definition apply_encoder (e : encoder) (ob : object) : result json :=
  match e, ob_leaf ob with
  | EStr, _ => Ok (JStr (ob_str ob))
  | EIsoformat, LIso s => Ok (JStr s)
  | EPattern, LPattern s => Ok (JStr s)
  | ETotalSeconds, LSeconds f => Ok (JFloat f)
  | EDecimal, LDecimal d => decimal_encoder d
  | EDecode, LBytes b => rmap JStr (utf8_decode_strict b)
  | _, _ => Raise (AttributeError (ob_str ob))
  end.

Section encode.
Context (model_dump : Z -> options -> result json) (is_pydantic_v1 : Z -> bool) (h : heap).

(** [custom_encoder] for an object of the classes [mro]. *)
Definition find_custom (o : options) (mro : list str) : option (arg -> result json) :=
  match head mro ≫= dict_get (custom_encoder o) with
  | Some f => Some f
  | None => snd <$> List.find (fun cf => bool_decide (cf.1 ∈ mro)) (custom_encoder o)
  end.

Definition mro_of (x : obj) : list str :=
  match x with
  | ONone => [$"NoneType"; $"object"]
  | OBool _ => [$"bool"; $"int"; $"object"]
  | OInt _ => [$"int"; $"object"]
  | OFloat _ => [$"float"; $"object"]
  | OStr _ => [$"str"; $"object"]
  | OBytes _ => [$"bytes"; $"object"]
  | ORef id => match h !! id with Some ob => ob_mro ob | None => [] end
  end.

(** [key.startswith("_sa")], for strings. *)
Definition sa_key (k : obj) : bool := match k with OStr s => startswith s $"_sa" | _ => false end.

(** Membership in a set of keys. *)
Definition mem_key (k : obj) (keys : list obj) : bool :=
  existsb (fun k' => key_eq (of_obj k) (of_obj k')) keys.

(** Whether an entry of a dictionary is encoded. *)
Definition keep_entry (o : options) (k v : obj) : bool :=
  (negb (sqlalchemy_safe o) || negb (sa_key k))
  && (negb (bool_decide (v = ONone)) || negb (exclude_none o))
  && match include o with None => true | Some keys => mem_key k keys end
  && match exclude o with None => true | Some keys => negb (mem_key k keys) end.

(** The loop over the items of a dictionary; [rec] encodes keys and values. *)
Definition encode_item (rec : obj -> result json) (o : options) (acc : list (json * json)) (kv : obj * obj)
    : result (list (json * json)) :=
  if keep_entry o kv.1 kv.2 then
    let! k := rec kv.1 in
    let! v := rec kv.2 in
    if hashable k then Ok (json_set acc k v) else Raise unhashable
  else Ok acc.

Definition encode_items (rec : options -> obj -> result json) (o : options) (items : list (obj * obj))
    : result json :=
  rmap JDict (rfold (encode_item (rec (value_options o)) o) [] items).

(** The call for a dictionary the function has made: it is a new object, so
    only a custom encoder for [dict] comes before the loop. *)
Definition encode_new_dict (rec : options -> obj -> result json) (o : options) (items : list (obj * obj))
    : result json :=
  match find_custom o [$"dict"; $"object"] with
  | Some f => f (NewDict items)
  | None => encode_items rec o items
  end.

(** The call for what [model_dump] returns: JSON data, in new objects. *)
Definition keep_json (o : options) (k v : json) : bool :=
  match k, v with
  | JStr s, JNull => negb (sqlalchemy_safe o && startswith s $"_sa") && negb (exclude_none o)
  | JStr s, _ => negb (sqlalchemy_safe o && startswith s $"_sa")
  | _, JNull => negb (exclude_none o)
  | _, _ => true
  end.

Fixpoint encode_dumped (o : options) (j : json) : json :=
  match j with
  | JList l => JList (encode_dumped o <$> l)
  | JDict d =>
      JDict (foldl (fun acc kv => if keep_json o kv.1 kv.2
                                  then json_set acc (encode_dumped o kv.1) (encode_dumped o kv.2) else acc) [] d)
  | _ => j
  end.

(** What is left once the types the function knows have been tested. *)
Definition encode_other (rec : options -> obj -> result json) (o : options) (id : Z) (ob : object)
    (as_dict : option (list (obj * obj))) (vars_id : option Z) : result json :=
  match find_encoder (ob_mro ob) with
  | Some e => apply_encoder e ob
  | None =>
      if is_pydantic_v1 id then
        Raise (PydanticV1NotSupportedError $"pydantic.v1 models are no longer supported by AstraAPI.")
      else
        match as_dict, vars_id with
        | Some items, _ => encode_new_dict rec o items
        | None, Some vid => rec o (ORef vid)
        | None, None => Raise (ValueError (ob_str ob))
        end
  end.

Definition encode_object (rec : options -> obj -> result json) (o : options) (id : Z) (ob : object)
    : result json :=
  match ob_node ob with
  | NModel m => rmap (encode_dumped o) (model_dump m o)
  | NDataclass fields => encode_new_dict rec o ((fun '(n, v) => (OStr n, v)) <$> fields)
  | NEnum v => Ok (of_obj v)
  | nd =>
      if is_instance (ob_mro ob) [$"PurePath"] then Ok (JStr (ob_str ob))
      else if is_instance (ob_mro ob) [$"str"; $"int"; $"float"; $"NoneType"] then Ok (JObj id)
      else if is_instance (ob_mro ob) [$"PydanticUndefinedType"] then Ok JNull
      else
        match nd with
        | NDict items => encode_items rec o items
        | NSeq items => rmap JList (rmapM (rec o) items)
        | NOther as_dict vars_id => encode_other rec o id ob as_dict vars_id
        | _ => Raise (ValueError [])
        end
  end.

(** Whether the identity of an object is recorded on the path. *)
Definition tracked (x : obj) : bool := negb (is_instance (mro_of x) ($"bytes" :: primitive_types)).

(** [jsonable_encoder]; [limit] is the depth of recursion the interpreter
    still allows and [seen] holds the objects on the path. *)
Fixpoint jsonable_encoder (limit : nat) (seen : list Z) (o : options) (x : obj) : result json :=
  match limit with
  | O => Raise RecursionError
  | S limit' =>
      if plain_options o && is_instance (mro_of x) primitive_types then Ok (of_obj x)
      else
        let id := match x with ORef id => id | _ => 0 end in
        if tracked x && bool_decide (id ∈ seen) then Ok JNull
        else
          let seen' := if tracked x then id :: seen else seen in
          match find_custom o (mro_of x) with
          | Some f => f (Existing x)
          | None =>
              match x with
              | ORef id =>
                  match h !! id with
                  | Some ob => encode_object (jsonable_encoder limit' seen') o id ob
                  | None => Raise (ValueError [])
                  end
              | OBytes b => rmap JStr (utf8_decode_strict b)
              | _ => Ok (of_obj x)
              end
          end
  end.
End encode.

(** ** Properties of the loops *)
Section facts.
Context (model_dump : Z -> options -> result json) (is_pydantic_v1 : Z -> bool) (h : heap).
Local Abbreviation enc := (jsonable_encoder model_dump is_pydantic_v1 h).
Local Abbreviation enc_object := (encode_object model_dump is_pydantic_v1).

(** The parts of an object are encoded with the options of the object or with
    those for values. *)
Definition sub_options (o o' : options) : Prop := o' = o ∨ o' = value_options o.

Lemma encode_items_ext rec rec' o items :
  (∀ o' y, sub_options o o' -> rec o' y = rec' o' y) -> encode_items rec o items = encode_items rec' o items.
Proof.
  intros H. unfold encode_items. f_equal. apply rfold_ext. intros acc kv _.
  unfold encode_item. by rewrite !H by (by right).
Qed.

Lemma encode_new_dict_ext rec rec' o items :
  (∀ o' y, sub_options o o' -> rec o' y = rec' o' y) ->
  encode_new_dict rec o items = encode_new_dict rec' o items.
Proof. intros H. unfold encode_new_dict. case_match; [done|]. by apply encode_items_ext. Qed.

Lemma encode_object_ext rec rec' o id ob :
  (∀ o' y, sub_options o o' -> rec o' y = rec' o' y) -> enc_object rec o id ob = enc_object rec' o id ob.
Proof.
  intros H. assert (∀ items, rmapM (rec o) items = rmapM (rec' o) items) as Hm.
  { intros items. apply rmapM_ext. intros. apply H. by left. }
  unfold encode_object, encode_other.
  destruct (ob_node ob) as [| | | | |[|] [|]]; rewrite ?Hm, ?(H o) by (by left);
    rewrite ?(encode_items_ext rec rec'), ?(encode_new_dict_ext rec rec') by done; done.
Qed.

(** Exceptions come from the parts, from the parameters or are none of
    [RecursionError]. *)
Section raises.
Context (P : exn -> Prop) (o : options).
Hypothesis P_other : ∀ e, e ≠ RecursionError -> P e.
Hypothesis P_dump : ∀ m e, model_dump m o = Raise e -> P e.
Hypothesis P_custom : ∀ c f a e, (c, f) ∈ custom_encoder o -> f a = Raise e -> P e.

Lemma rmapM_raises {A B} (f : A -> result B) l e :
  (∀ a e', f a = Raise e' -> P e') -> rmapM f l = Raise e -> P e.
Proof.
  intros H. induction l as [|a l IH]; simpl; [done|]. destruct (f a) eqn:E; simpl; [|naive_solver].
  destruct (rmapM f l); simpl; naive_solver.
Qed.

Lemma encode_items_raises rec items e :
  (∀ o' y e', sub_options o o' -> rec o' y = Raise e' -> P e') -> encode_items rec o items = Raise e -> P e.
Proof.
  intros H. unfold encode_items, rmap. destruct (rfold _ _ _) eqn:E; [done|]. intros [= <-].
  eapply rfold_raises; [|exact E]. intros acc kv e' _. unfold encode_item. case_match; [|done].
  destruct (rec _ kv.1) eqn:E1; simpl; [|intros [= <-]; eapply H; [by right|done]].
  destruct (rec _ kv.2) eqn:E2; simpl; [|intros [= <-]; eapply H; [by right|done]].
  case_match; [done|]. intros [= <-]. by apply P_other.
Qed.

Lemma find_custom_elem mro f : find_custom o mro = Some f -> ∃ c, (c, f) ∈ custom_encoder o.
Proof.
  unfold find_custom. destruct (head mro ≫= _) as [g|] eqn:E.
  - intros [= ->]. destruct mro as [|c mro]; [done|]. simpl in E. exists c. by apply dict_get_elem.
  - destruct (List.find _ _) as [[c g]|] eqn:F; [|done]. intros [= ->].
    apply List.find_some in F as [F _]. exists c. by apply list_elem_of_In.
Qed.

Lemma encode_new_dict_raises rec items e :
  (∀ o' y e', sub_options o o' -> rec o' y = Raise e' -> P e') ->
  encode_new_dict rec o items = Raise e -> P e.
Proof.
  intros H. unfold encode_new_dict. destruct (find_custom _ _) as [f|] eqn:E.
  - apply find_custom_elem in E as [c Hc]. by eapply P_custom.
  - by apply encode_items_raises.
Qed.

Lemma apply_encoder_raises e ob e' : apply_encoder e ob = Raise e' -> P e'.
Proof.
  unfold apply_encoder, decimal_encoder, rmap, utf8_decode_strict.
  intros H. apply P_other. intros ->. repeat (case_match; simplify_eq/=).
Qed.

Lemma encode_object_raises rec id ob e :
  (∀ o' y e', sub_options o o' -> rec o' y = Raise e' -> P e') -> enc_object rec o id ob = Raise e -> P e.
Proof.
  intros H. unfold encode_object, encode_other.
  destruct (ob_node ob) as [m|fs|v|items|items|ad vi].
  - unfold rmap. destruct (model_dump m o) eqn:E; [done|]. intros [= <-]. by eapply P_dump.
  - by apply encode_new_dict_raises.
  - done.
  - repeat (case_match; [done|]). by apply encode_items_raises.
  - repeat (case_match; [done|]). unfold rmap. destruct (rmapM _ _) eqn:E; [done|]. intros [= <-].
    eapply rmapM_raises; [|exact E]. intros a e'. apply H. by left.
  - repeat (case_match; [done|]). destruct (find_encoder _); [apply apply_encoder_raises|].
    case_match; [intros [= <-]; by apply P_other|]. destruct ad as [items|].
    + by apply encode_new_dict_raises.
    + destruct vi; [apply H; by left|]. intros [= <-]. by apply P_other.
Qed.
End raises.

(** ** Termination *)

(** Objects whose identity is not recorded have no parts: instances of the
    immutable built-in types. *)
Definition atomic (ob : object) : bool :=
  match ob_node ob with
  | NModel _ | NEnum _ | NOther None None => true
  | _ => false
  end.

Definition untracked_atomic : Prop :=
  map_Forall (fun _ ob => is_instance (ob_mro ob) ($"bytes" :: primitive_types) = true -> atomic ob = true) h.

(** The objects that are not on the path. *)
Definition unseen (seen : list Z) : nat := size (dom h ∖ list_to_set seen).

Lemma unseen_cons id seen ob :
  h !! id = Some ob -> id ∉ seen -> (unseen (id :: seen) < unseen seen)%nat.
Proof.
  intros Hid Hs. unfold unseen. apply subset_size. simpl.
  assert (id ∈ dom h) by (apply elem_of_dom; by exists ob). set_solver.
Qed.

Lemma atomic_no_parts rec rec' o id ob : atomic ob = true -> enc_object rec o id ob = enc_object rec' o id ob.
Proof. unfold atomic, encode_object, encode_other. by destruct (ob_node ob) as [| | | | |[|] [|]]. Qed.

(** One step of the function, for two limits. *)
Lemma enc_step l l' seen o x :
  untracked_atomic ->
  (∀ id ob o' y, x = ORef id -> h !! id = Some ob -> id ∉ seen -> tracked h x = true -> sub_options o o' ->
     enc l (id :: seen) o' y = enc l' (id :: seen) o' y) ->
  enc (S l) seen o x = enc (S l') seen o x.
Proof.
  intros Ha H. cbn [jsonable_encoder].
  destruct (plain_options o && _); [done|].
  destruct (tracked h x) eqn:Ht; simpl.
  - case_bool_decide as Hs; [done|]. destruct (find_custom _ _); [done|]. destruct x as [| | | | | |id]; try done.
    destruct (h !! id) as [ob|] eqn:Hid; [|done]. apply encode_object_ext. intros o' y Ho.
    by eapply H.
  - destruct (find_custom _ _); [done|]. destruct x as [| | | | | |id]; try done.
    destruct (h !! id) as [ob|] eqn:Hid; [|done]. apply atomic_no_parts. apply (Ha id ob Hid).
    unfold tracked in Ht. simpl in Ht. rewrite Hid in Ht. by apply negb_false_iff in Ht.
Qed.

(** Beyond the number of objects that are not on the path the limit does not
    matter. *)
Lemma enc_limit l l' seen o x :
  untracked_atomic -> (unseen seen < l)%nat -> (unseen seen < l')%nat -> enc l seen o x = enc l' seen o x.
Proof.
  intros Ha. revert l' seen o x. induction l as [|l IH]; intros [|l'] seen o x Hl Hl'; try lia.
  apply enc_step; [done|]. intros id ob o' y -> Hid Hs Ht Ho.
  pose proof (unseen_cons id seen ob Hid Hs). apply IH; lia.
Qed.

(** The parameters do not exhaust the stack themselves. *)
Definition shallow (o : options) : Prop :=
  (∀ m o', model_dump m o' ≠ Raise RecursionError) ∧
  (∀ c f a, (c, f) ∈ custom_encoder o -> f a ≠ Raise RecursionError).

Lemma shallow_sub o o' : shallow o -> sub_options o o' -> shallow o'.
Proof. intros [? ?] [->| ->]; done. Qed.

Lemma enc_no_recursion_error l seen o x :
  untracked_atomic -> shallow o -> (unseen seen < l)%nat -> enc l seen o x ≠ Raise RecursionError.
Proof.
  intros Ha. revert seen o x. induction l as [|l IH]; intros seen o x Ho Hl; [lia|].
  cbn [jsonable_encoder]. destruct (plain_options o && _); [done|].
  destruct (_ && _) eqn:Hs; [done|]. destruct (find_custom o _) as [f|] eqn:Hf.
  { apply find_custom_elem in Hf as [c Hc]. by eapply Ho. }
  destruct x as [| | | | |b|id]; try done.
  { unfold rmap, utf8_decode_strict. by repeat (case_match; simplify_eq/=). }
  destruct (h !! id) as [ob|] eqn:Hid; [|done].
  assert (∀ rec, (∀ o' y, sub_options o o' -> rec o' y ≠ Raise RecursionError) ->
                 enc_object rec o id ob ≠ Raise RecursionError) as Hobj.
  { intros rec Hrec Hr. eapply (encode_object_raises (fun e => e ≠ RecursionError) o); [done| | | |exact Hr|done].
    - intros m e He ->. exact (proj1 Ho m o He).
    - intros c f a e Hc He ->. exact (proj2 Ho c f a Hc He).
    - intros o' y e Hsub He ->. by eapply Hrec. }
  destruct (tracked h (ORef id)) eqn:Ht; simpl in Hs.
  - apply bool_decide_eq_false_1 in Hs. pose proof (unseen_cons id seen ob Hid Hs).
    apply Hobj. intros o' y Hsub. apply IH; [by eapply shallow_sub|lia].
  - rewrite (atomic_no_parts _ (fun _ _ => Ok JNull)); [by apply Hobj|]. apply (Ha id ob Hid).
    unfold tracked in Ht. simpl in Ht. rewrite Hid in Ht. by apply negb_false_iff in Ht.
Qed.
End facts.

(** ** JSON data *)

(** Lists related element by element. *)
Fixpoint all2 {A B} (R : A -> B -> Prop) (l : list A) (k : list B) : Prop :=
  match l, k with
  | [], [] => True
  | a :: l', b :: k' => R a b ∧ all2 R l' k'
  | _, _ => False
  end.

Section meaning.
Context (h : heap).

Definition is_scalar (x : obj) : bool := match x with OBytes _ | ORef _ => false | _ => true end.

(** The scalar [j] is what the object [x] stands for: a value of a built-in
    type, UTF-8 text, an enumeration member, a path, or an object with an
    encoder of its own. *)
Definition scalar_of (j : json) (x : obj) : Prop :=
  match x with
  | OBytes b => ∃ s, utf8_decode_strict b = Ok s ∧ j = JStr s
  | ORef id =>
      j ≠ JNull ∧
      ∃ ob, h !! id = Some ob ∧ is_instance (ob_mro ob) ($"bytes" :: primitive_types) = false ∧
        match ob_node ob with
        | NEnum v => is_scalar v = true ∧ j = of_obj v
        | NOther _ _ =>
            if is_instance (ob_mro ob) [$"PurePath"] then j = JStr (ob_str ob)
            else is_instance (ob_mro ob) [$"PydanticUndefinedType"] = false ∧
                 ∃ e, find_encoder (ob_mro ob) = Some e ∧ apply_encoder e ob = Ok j
        | _ => False
        end
  | _ => j = of_obj x
  end.

(** Containers of no other kind. *)
Definition ordinary (ob : object) : bool :=
  negb (is_instance (ob_mro ob) ($"bytes" :: $"PurePath" :: $"PydanticUndefinedType" :: primitive_types)).

Definition entries (nd : node) : option (list (obj * obj)) :=
  match nd with
  | NDict items => Some items
  | NDataclass fields => Some ((fun '(n, v) => (OStr n, v)) <$> fields)
  | _ => None
  end.

(** The JSON data [j] is what the object [x] stands for: sequences and sets
    are lists, dictionaries with text keys and dataclasses are dictionaries. *)
Fixpoint denotes (j : json) (x : obj) : Prop :=
  match j with
  | JList l =>
      ∃ id ob items, x = ORef id ∧ h !! id = Some ob ∧ ordinary ob = true ∧ ob_node ob = NSeq items ∧
        all2 denotes l items
  | JDict d =>
      NoDup d.*1 ∧
      ∃ id ob items, x = ORef id ∧ h !! id = Some ob ∧ ordinary ob = true ∧ entries (ob_node ob) = Some items ∧
        all2 (fun kj kv => (∃ s, kv.1 = OStr s ∧ kj.1 = JStr s) ∧ denotes kj.2 kv.2) d items
  | _ => scalar_of j x
  end.
End meaning.

(** The reference: entries whose key starts with ["_sa"] are left out, and
    those whose value is null when [exclude_none] is set. *)
Fixpoint prune (o : options) (j : json) : json :=
  match j with
  | JList l => JList (prune o <$> l)
  | JDict d => JDict (omap (fun kv => if keep_json o kv.1 kv.2 then Some (kv.1, prune o kv.2) else None) d)
  | _ => j
  end.

Fixpoint json_size (j : json) : nat :=
  match j with
  | JList l => S (sum_list (json_size <$> l))
  | JDict d => S (sum_list ((fun kv => json_size kv.2) <$> d))
  | _ => 1
  end.

Lemma json_size_pos j : (0 < json_size j)%nat.
Proof. destruct j; simpl; lia. Qed.

Lemma json_size_list j l : j ∈ l -> (json_size j < json_size (JList l))%nat.
Proof.
  simpl. intros H. induction l as [|j' l IH]; [set_solver|]. csimpl.
  apply elem_of_cons in H as [->|H]; [lia|]. specialize (IH H). lia.
Qed.

Lemma json_size_dict kv d : kv ∈ d -> (json_size kv.2 < json_size (JDict d))%nat.
Proof.
  simpl. intros H. induction d as [|kv' d IH]; [set_solver|]. csimpl.
  apply elem_of_cons in H as [->|H]; [lia|]. specialize (IH H). lia.
Qed.

Lemma all2_Forall2 {A B} (R : A -> B -> Prop) l k : all2 R l k <-> Forall2 R l k.
Proof.
  revert k. induction l as [|a l IH]; intros [|b k]; simpl.
  - split; [constructor|done].
  - split; [done|inversion 1].
  - split; [done|inversion 1].
  - rewrite IH. split; [intros []; by constructor|inversion 1; done].
Qed.

Lemma all2_rmapM {A B C} (R : A -> B -> Prop) (g : A -> C) l k (f : B -> result C) :
  all2 R l k -> (∀ a b, a ∈ l -> R a b -> f b = Ok (g a)) -> rmapM f k = Ok (g <$> l).
Proof.
  revert k. induction l as [|a l IH]; intros [|b k]; simpl; try done. intros [Ha Hl] H.
  rewrite (H a b) by (by left || done). simpl. rewrite IH; [done|done|]. intros. apply H; [by right|done].
Qed.

Section meaning_facts.
Context (h : heap).
Local Abbreviation denotes := (denotes h).

Definition container (j : json) : bool := match j with JList _ | JDict _ => true | _ => false end.

Lemma denotes_scalar j x : container j = false -> denotes j x = scalar_of h j x.
Proof. by destruct j. Qed.

Lemma scalar_of_functional j j' x : scalar_of h j x -> scalar_of h j' x -> j = j'.
Proof.
  destruct x as [| | | | |b|id]; simpl; try congruence.
  - intros (s & Hs & ->) (s' & Hs' & ->). congruence.
  - intros (_ & ob & Hob & _ & H) (_ & ob' & Hob' & _ & H'). simplify_eq.
    destruct (ob_node ob); try done; [destruct H, H'; congruence|].
    case_match; [congruence|]. destruct H as (_ & e & He & H), H' as (_ & e' & He' & H'). congruence.
Qed.

Lemma all2_functional {A B} (R : A -> B -> Prop) l l' k :
  (∀ a a' b, a ∈ l -> R a b -> R a' b -> a = a') -> all2 R l k -> all2 R l' k -> l = l'.
Proof.
  revert l' k. induction l as [|a l IH]; intros [|a' l'] [|b k] H; simpl; try done.
  intros [Ha Hl] [Ha' Hl']. f_equal; [eapply H; [by left|done..]|].
  eapply IH; [|done..]. intros. eapply H; [by right|done..].
Qed.

(** The contents of the object that a reference denotes. *)
Definition shape (j : json) (nd : node) : Prop :=
  match j with
  | JList l => ∃ items, nd = NSeq items ∧ all2 denotes l items
  | JDict d =>
      ∃ items, entries nd = Some items ∧
        all2 (fun kj kv => (∃ s, kv.1 = OStr s ∧ kj.1 = JStr s) ∧ denotes kj.2 kv.2) d items
  | _ => (∀ items, nd ≠ NSeq items) ∧ entries nd = None
  end.

Lemma denotes_shape j id ob : denotes j (ORef id) -> h !! id = Some ob -> shape j (ob_node ob).
Proof.
  destruct (container j) eqn:Hc; [destruct j; try done|rewrite denotes_scalar by done].
  - intros (id' & ob' & items & [= <-] & Hob & _ & Hn & Hl) Hob'. simplify_eq. by exists items.
  - intros (_ & id' & ob' & items & [= <-] & Hob & _ & Hn & Hl) Hob'. simplify_eq. by exists items.
  - intros (_ & ob' & Hob' & _ & H) Hob. rewrite Hob in Hob'. injection Hob' as <-.
    destruct j; try done; by destruct (ob_node ob).
Qed.

Lemma container_is_ref j x : container j = true -> denotes j x -> ∃ id ob, x = ORef id ∧ h !! id = Some ob.
Proof.
  destruct j; try done; intros _.
  - intros (id & ob & items & -> & Hob & _). by exists id, ob.
  - intros (_ & id & ob & items & -> & Hob & _). by exists id, ob.
Qed.

Lemma denotes_functional j j' x : denotes j x -> denotes j' x -> j = j'.
Proof.
  revert j' x. induction j as [j IH] using (induction_ltof1 _ json_size). intros j' x Hj Hj'.
  destruct (container j || container j') eqn:Hc.
  - assert (∃ id ob, x = ORef id ∧ h !! id = Some ob) as (id & ob & -> & Hob).
    { apply orb_true_iff in Hc as [Hc|Hc]; by eapply container_is_ref. }
    pose proof (denotes_shape j id ob Hj Hob) as Hs. pose proof (denotes_shape j' id ob Hj' Hob) as Hs'.
    destruct j, j'; try done; simpl in Hs, Hs'; try (destruct Hs as [? [Hs _]]; destruct Hs' as [Hs1' Hs2']; naive_solver);
      try (destruct Hs' as [? [Hs' _]]; destruct Hs as [Hs1' Hs2']; naive_solver).
    + destruct Hs as (items & Hn & Hl), Hs' as (items' & Hn' & Hl').
      rewrite Hn in Hn'. simplify_eq. f_equal.
      eapply all2_functional; [|done..]. intros a a' b Ha. apply IH. by apply json_size_list.
    + destruct Hs as (items & Hn & _), Hs' as (items' & Hn' & _). by rewrite Hn in Hn'.
    + destruct Hs as (items & Hn & _), Hs' as (items' & Hn' & _). by rewrite Hn' in Hn.
    + destruct Hs as (items & Hn & Hl), Hs' as (items' & Hn' & Hl').
      rewrite Hn in Hn'. simplify_eq. f_equal.
      eapply all2_functional; [|done..]. intros [k v] [k' v'] b Ha ((s & Hs1 & ?) & Hv) ((s' & Hs1' & ?) & Hv').
      simplify_eq/=. f_equal; [congruence|]. eapply IH; [|done..]. apply (json_size_dict (_, v) _ Ha).
  - apply orb_false_iff in Hc as [Hc Hc']. rewrite denotes_scalar in Hj, Hj' by done.
    by eapply scalar_of_functional.
Qed.

Lemma denotes_null j x : denotes j x -> (j = JNull <-> x = ONone).
Proof.
  destruct (container j) eqn:Hc; [destruct j; try done|rewrite denotes_scalar by done].
  - intros (id & ob & items & -> & _). done.
  - intros (_ & id & ob & items & -> & _). done.
  - destruct x; simpl; try (intros ->; done).
    + intros (s & _ & ->). done.
    + by intros [? _].
Qed.

Lemma is_instance_false mro cs : is_instance mro cs = false <-> ∀ c, c ∈ cs -> c ∉ mro.
Proof.
  unfold is_instance. induction cs as [|c cs IH]; simpl; [set_solver|].
  rewrite orb_false_iff, IH, bool_decide_eq_false. set_solver.
Qed.

Lemma is_instance_incl mro cs cs' : cs ⊆ cs' -> is_instance mro cs' = false -> is_instance mro cs = false.
Proof. rewrite !is_instance_false. set_solver. Qed.

Lemma find_custom_nil o mro : custom_encoder o = [] -> find_custom o mro = None.
Proof. intros H. unfold find_custom. rewrite H. by destruct mro. Qed.

Lemma prune_ext o o' j : (∀ k v, keep_json o k v = keep_json o' k v) -> prune o j = prune o' j.
Proof.
  intros H. induction j as [j IH] using (induction_ltof1 _ json_size). destruct j as [| | | | | |l|d|]; try done; simpl.
  - f_equal. apply list_fmap_ext. intros i j Hj. apply IH, json_size_list. by eapply list_elem_of_lookup_2.
  - f_equal. assert (∀ d' : list (json * json), (∀ kv, kv ∈ d' -> kv ∈ d) ->
      omap (fun kv => if keep_json o kv.1 kv.2 then Some (kv.1, prune o kv.2) else None) d'
      = omap (fun kv => if keep_json o' kv.1 kv.2 then Some (kv.1, prune o' kv.2) else None) d') as Hd.
    { induction d' as [|kv d' IHd]; [done|]. intros Hin. csimpl. rewrite H, IHd by set_solver.
      destruct (keep_json o' kv.1 kv.2); [|done]. rewrite IH; [done|]. apply json_size_dict. set_solver. }
    by apply Hd.
Qed.

Lemma prune_value_options o j : prune (value_options o) j = prune o j.
Proof. by apply prune_ext. Qed.

Lemma json_set_new d k v : (∀ kv, kv ∈ d -> key_eq k kv.1 = false) -> json_set d k v = d ++ [(k, v)].
Proof.
  induction d as [|[k' v'] d IH]; intros H; simpl; [done|].
  pose proof (H (k', v') ltac:(set_solver)) as Hk. simpl in Hk. rewrite Hk, IH by set_solver. done.
Qed.

(** The loop over the items of a dictionary with distinct text keys. *)
Lemma encode_items_denotes rec o d items acc :
  include o = None -> exclude o = None ->
  NoDup d.*1 -> (∀ kv, kv ∈ acc -> (∃ s, kv.1 = JStr s) ∧ kv.1 ∉ d.*1) ->
  all2 (fun kj kv => (∃ s, kv.1 = OStr s ∧ kj.1 = JStr s) ∧ denotes kj.2 kv.2) d items ->
  (∀ kj kv s, kj ∈ d -> denotes kj.2 kv.2 -> kv.1 = OStr s -> kj.1 = JStr s ->
     rec kv.1 = Ok kj.1 ∧ rec kv.2 = Ok (prune o kj.2)) ->
  rfold (encode_item rec o) acc items
  = Ok (acc ++ omap (fun kv => if keep_json o kv.1 kv.2 then Some (kv.1, prune o kv.2) else None) d).
Proof.
  intros Hi He. revert items acc. induction d as [|[k j] d IH]; intros [|[kx x] items] acc Hnd Hacc Hall Hrec;
    simpl in Hall; try done; [by rewrite app_nil_r|].
  destruct Hall as [[(s & Hk1 & Hk2) Hj] Hall]. cbn [fst snd] in Hk1, Hk2, Hj. subst.
  rewrite fmap_cons in Hnd, Hacc. apply NoDup_cons in Hnd as [Hk Hnd]. cbn [fst snd] in *.
  assert (keep_entry o (OStr s) x = keep_json o (JStr s) j) as Hkeep.
  { unfold keep_entry. rewrite Hi, He, !andb_true_r. cbn [sa_key].
    pose proof (denotes_null j x Hj) as Hnull. rewrite <-negb_andb.
    destruct j; simpl; try (rewrite bool_decide_false by naive_solver; by rewrite andb_true_r).
    by rewrite bool_decide_true by naive_solver. }
  cbn [rfold omap list_omap fst snd]. destruct (keep_json o (JStr s) j) eqn:Hkj.
  - destruct (Hrec (JStr s, j) (OStr s, x) s) as [H1 H2]; [set_solver|done..|]. cbn [fst snd] in H1, H2.
    assert (encode_item rec o acc (OStr s, x) = Ok (acc ++ [(JStr s, prune o j)])) as ->.
    { unfold encode_item. cbn [fst snd]. rewrite Hkeep, H1, H2. cbn [rbind hashable]. rewrite json_set_new; [done|].
      intros kv Hkv. destruct (Hacc kv Hkv) as [[s' Hs'] Hn]. rewrite Hs' in *. simpl.
      apply bool_decide_false. set_solver. }
    cbn [rbind]. rewrite IH; [by rewrite <-app_assoc|done| |done|set_solver].
    intros kv [Hkv| ->%list_elem_of_singleton]%elem_of_app; simpl; [|eauto].
    destruct (Hacc kv Hkv). split; [done|set_solver].
  - assert (encode_item rec o acc (OStr s, x) = Ok acc) as ->.
    { unfold encode_item. cbn [fst snd]. by rewrite Hkeep. }
    cbn [rbind]. rewrite IH; [done|done| |done|set_solver].
    intros kv Hkv. destruct (Hacc kv Hkv). split; [done|set_solver].
Qed.

Context (model_dump : Z -> options -> result json) (is_pydantic_v1 : Z -> bool).
Local Abbreviation enc := (jsonable_encoder model_dump is_pydantic_v1 h).

(** No option that selects keys or replaces encoders. *)
Definition unselective (o : options) : Prop := include o = None ∧ exclude o = None ∧ custom_encoder o = [].

(** Every object on the path stands for more data than [j]. *)
Definition path_above (seen : list Z) (j : json) : Prop :=
  ∀ i j', i ∈ seen -> denotes j' (ORef i) -> (json_size j < json_size j')%nat.

Lemma path_above_cons seen id j j' :
  denotes j (ORef id) -> path_above seen j -> (json_size j' < json_size j)%nat -> path_above (id :: seen) j'.
Proof.
  intros Hj Hp Hs i j1 [->|Hi]%elem_of_cons H1.
  - by rewrite <-(denotes_functional j j1 (ORef id)).
  - specialize (Hp i j1 Hi H1). lia.
Qed.

Lemma path_above_not_seen seen id j : denotes j (ORef id) -> path_above seen j -> id ∉ seen.
Proof. intros Hj Hp Hi. specialize (Hp id j Hi Hj). lia. Qed.

(** The call for a reference to an object the tests do not stop at. *)
Lemma enc_ref limit seen o id ob :
  h !! id = Some ob -> is_instance (ob_mro ob) ($"bytes" :: primitive_types) = false ->
  custom_encoder o = [] -> id ∉ seen ->
  enc (S limit) seen o (ORef id)
  = encode_object model_dump is_pydantic_v1 (enc limit (id :: seen)) o id ob.
Proof.
  intros Hob Hm Hc Hs. cbn [jsonable_encoder]. unfold tracked. cbn [mro_of]. rewrite Hob, Hm.
  rewrite (is_instance_incl _ primitive_types ($"bytes" :: primitive_types)) by (done || set_solver).
  rewrite andb_false_r. rewrite bool_decide_false by done. simpl negb. cbn [andb].
  rewrite find_custom_nil by done. done.
Qed.

Lemma enc_text limit seen o s : custom_encoder o = [] -> enc (S limit) seen o (OStr s) = Ok (JStr s).
Proof.
  intros Hc. cbn [jsonable_encoder]. case_match; [done|]. simpl. rewrite find_custom_nil by done. done.
Qed.

Lemma enc_scalar limit seen o j x :
  custom_encoder o = [] -> scalar_of h j x -> (∀ id, x = ORef id -> id ∉ seen) ->
  enc (S limit) seen o x = Ok j.
Proof.
  intros Hc Hj Hs. destruct x as [| | | | |b|id];
    try (simpl in Hj; subst; cbn [jsonable_encoder]; case_match; [done|]; simpl;
         by rewrite find_custom_nil by done).
  - destruct Hj as (s & Hb & ->). cbn [jsonable_encoder]. rewrite andb_false_r. cbn.
    rewrite find_custom_nil by done. by rewrite Hb.
  - destruct Hj as (_ & ob & Hob & Hm & Hn). erewrite enc_ref by eauto.
    unfold encode_object. destruct (ob_node ob) as [| |v| | |ad vi]; try done.
    + by destruct Hn as [_ ->].
    + destruct (is_instance (ob_mro ob) [$"PurePath"]); [by subst|]. destruct Hn as (Hu & e & He & Ha).
      rewrite (is_instance_incl _ _ ($"bytes" :: primitive_types)) by (done || set_solver).
      rewrite Hu. unfold encode_other. by rewrite He.
Qed.

Lemma ordinary_instance ob cs :
  ordinary ob = true -> cs ⊆ $"bytes" :: $"PurePath" :: $"PydanticUndefinedType" :: primitive_types ->
  is_instance (ob_mro ob) cs = false.
Proof. intros Ho%negb_true_iff Hcs. by eapply is_instance_incl. Qed.

Lemma enc_denotes j limit seen o x :
  unselective o -> denotes j x -> (json_size j ≤ limit)%nat -> path_above seen j ->
  enc limit seen o x = Ok (prune o j).
Proof.
  revert limit seen o x. induction j as [j IH] using (induction_ltof1 _ json_size).
  intros [|limit] seen o x Ho Hj Hl Hp; [pose proof (json_size_pos j); lia|].
  pose proof Ho as (Hi & He & Hc).
  assert (∀ id, x = ORef id -> id ∉ seen) as Hseen by (intros id ->; by eapply path_above_not_seen).
  destruct (container j) eqn:Hcont.
  - destruct (container_is_ref j x Hcont Hj) as (id & ob & -> & Hob). specialize (Hseen id eq_refl).
    pose proof (denotes_shape j id ob Hj Hob) as Hs.
    assert (ordinary ob = true) as Hord.
    { destruct j; try done; simpl in Hj; [destruct Hj as (? & ? & ? & ? & ? & ? & ?)|
        destruct Hj as (_ & ? & ? & ? & ? & ? & ? & ?)]; by simplify_eq. }
    erewrite enc_ref by (done || by apply ordinary_instance; [|set_solver]).
    assert (∀ j' x' o', (json_size j' < json_size j)%nat -> unselective o' -> denotes j' x' ->
              enc limit (id :: seen) o' x' = Ok (prune o' j')) as Hrec.
    { intros j' x' o' Hlt Ho' Hj'. apply IH; [done..|lia|by eapply path_above_cons]. }
    unfold encode_object. destruct j as [| | | | | |l|d|]; try done; simpl in Hs.
    + destruct Hs as (items & Hn & Hall). rewrite Hn.
      rewrite !(ordinary_instance ob) by (done || set_solver).
      rewrite (all2_rmapM denotes (prune o) l items _ Hall); [done|].
      intros j' x' Hin Hj'. apply Hrec; [by apply json_size_list|done..].
    + destruct Hs as (items & Hn & Hall). destruct Hj as [Hnd _].
      assert (encode_items (enc limit (id :: seen)) o items = Ok (prune o (JDict d))) as Hitems.
      { unfold encode_items. rewrite (encode_items_denotes _ o d items []); [done..|set_solver|done|].
        intros [k j'] [kx x'] s Hin Hj' Hk1 Hk2. pose proof (json_size_dict _ _ Hin) as Hlt. cbn [fst snd] in *.
        rewrite (Hrec j' x') by done. rewrite prune_value_options. split; [|done]. subst.
        pose proof (json_size_pos j'). destruct limit as [|limit]; [lia|]. by apply enc_text. }
      rewrite !(ordinary_instance ob) by (done || set_solver).
      destruct (ob_node ob); simplify_eq/=; [|done]. unfold encode_new_dict. by rewrite find_custom_nil.
  - rewrite denotes_scalar in Hj by done. rewrite (enc_scalar limit seen o j) by done. by destruct j.
Qed.
End meaning_facts.

(** ** Claims *)

(** C25: [jsonable_encoder] converts objects to the JSON data they stand for.
    For an object built, with any sharing, from dictionaries with text keys,
    dataclasses, sequences, sets, enumeration members, paths, UTF-8 bytes and
    the types that have an encoder, and for options that neither select keys
    nor replace encoders, the result is the JSON data the object denotes, less
    the entries whose key starts with [_sa] and, with [exclude_none], those
    whose value is [None]; no shared object is taken for a circular one. *)
Theorem jsonable_encoder_correct (model_dump : Z -> options -> result json) (is_pydantic_v1 : Z -> bool)
    (h : heap) (o : options) (x : obj) (j : json) (limit : nat)
    (Ho : unselective o) (Hj : denotes h j x) (Hl : (json_size j ≤ limit)%nat) :
  jsonable_encoder model_dump is_pydantic_v1 h limit [] o x = Ok (prune o j).
Proof. apply enc_denotes; [done..|]. intros i j' Hi. by apply elem_of_nil in Hi. Qed.

(** A dictionary with a shared list, a date and an SQLAlchemy attribute. *)
Definition sample_heap : heap :=
  list_to_map
    [(1, mkObject [$"dict"; $"object"] [] LNone
           (NDict [(OStr $"a", ORef 2); (OStr $"_sa_state", OInt 7); (OStr $"b", ORef 2); (OStr $"day", ORef 3)]));
     (2, mkObject [$"list"; $"object"] [] LNone (NSeq [OInt 1; ONone]));
     (3, mkObject [$"date"; $"object"] $"2024-05-01" (LIso $"2024-05-01") (NOther None None))].

Lemma jsonable_encoder_correct_witness :
  jsonable_encoder (fun _ _ => Ok JNull) (fun _ => false) sample_heap 20 [] default_options (ORef 1)
  = Ok (JDict [(JStr $"a", JList [JInt 1; JNull]); (JStr $"b", JList [JInt 1; JNull]);
               (JStr $"day", JStr $"2024-05-01")]).
Proof.
  apply (jsonable_encoder_correct (fun _ _ => Ok JNull) (fun _ => false) sample_heap default_options (ORef 1)
           (JDict [(JStr $"a", JList [JInt 1; JNull]); (JStr $"_sa_state", JInt 7);
                   (JStr $"b", JList [JInt 1; JNull]); (JStr $"day", JStr $"2024-05-01")]) 20).
  - by split_and!.
  - assert (denotes sample_heap (JList [JInt 1; JNull]) (ORef 2)) as H2.
    { by eexists 2, _, [OInt 1; ONone]. }
    split.
    { csimpl. repeat (apply NoDup_cons; split; [rewrite ?elem_of_cons, elem_of_nil; naive_solver|]).
      by apply NoDup_nil. }
    eexists 1, _, _. split_and!; [reflexivity..|]. cbn [all2 fst snd]. split_and!; try (by eexists); try done.
    split; [done|]. eexists. split_and!; [reflexivity..|]. simpl. split; [reflexivity|]. by exists EIsoformat.
  - simpl. lia.
Defined.

(** [jsonable_encoder] terminates on every heap, circular ones included.
    The depth of its recursion is at most the number of objects: for every
    recursion limit above it the result is the same and is not a
    [RecursionError], as long as the models and custom encoders do not raise
    one themselves; a reference to an object on the path is encoded as null. *)
Theorem jsonable_encoder_terminates (model_dump : Z -> options -> result json) (is_pydantic_v1 : Z -> bool)
    (h : heap) (o : options) (x : obj) (limit : nat)
    (Ha : untracked_atomic h) (Ho : shallow model_dump o) (Hl : (size h < limit)%nat) :
  jsonable_encoder model_dump is_pydantic_v1 h limit [] o x ≠ Raise RecursionError ∧
  jsonable_encoder model_dump is_pydantic_v1 h limit [] o x
  = jsonable_encoder model_dump is_pydantic_v1 h (S (size h)) [] o x ∧
  (∀ seen id, id ∈ seen -> tracked h (ORef id) = true ->
     jsonable_encoder model_dump is_pydantic_v1 h limit seen o (ORef id) = Ok JNull).
Proof.
  assert (unseen h [] = size h) as Hu.
  { unfold unseen. rewrite list_to_set_nil, difference_empty_L. apply size_dom. }
  split_and!.
  - apply enc_no_recursion_error; [done..|]. by rewrite Hu.
  - apply enc_limit; [done|lia..].
  - intros seen id Hs Ht. destruct limit as [|limit]; [lia|]. cbn [jsonable_encoder].
    rewrite Ht, bool_decide_true by done.
    rewrite (is_instance_incl _ primitive_types ($"bytes" :: primitive_types)); [by rewrite andb_false_r|set_solver|].
    by apply negb_true_iff.
Qed.

(** A list that contains itself. *)
Lemma jsonable_encoder_terminates_witness :
  let h : heap := {[ 1 := mkObject [$"list"; $"object"] [] LNone (NSeq [OInt 5; ORef 1]) ]} in
  jsonable_encoder (fun _ _ => Ok JNull) (fun _ => false) h 1000 [] default_options (ORef 1)
  = Ok (JList [JInt 5; JNull]).
Proof.
  intros h.
  destruct (jsonable_encoder_terminates (fun _ _ => Ok JNull) (fun _ => false) h default_options (ORef 1) 1000)
    as (_ & H & _).
  - apply map_Forall_singleton. by vm_compute.
  - split; [done|]. by intros c f a Hc%elem_of_nil.
  - vm_compute. lia.
  - rewrite H. by vm_compute.
Defined.
