(* ===== verification/Middleware.v ===== *)
(** * Middleware: [_middleware_impl.py]

    CORS, gzip, trusted hosts and the WSGI bridge.  A middleware is a function
    from applications to applications; what it does to the events of the inner
    application is a function on events.  The origin regex, the compressor and
    the WSGI application are parameters. *)

From S2P Require Import Prelude PyStr Asgi MutableHeaders Responses.

(** ** CORS *)
Module Cors.

(** [allow_origin_regex.fullmatch], when a regex was given. *)
Record CORSMiddleware : Type := mkCors {
  allow_all_origins : bool;
  allow_origins : list str;
  allow_origin_regex : option (str -> bool);
  allow_methods : list str;
  allow_all_headers : bool;
  allow_headers : list str;
  allow_credentials : bool;
  expose_headers : list str;
  max_age : Z;
  simple_headers : raw_headers;
  preflight_headers : raw_headers
}.

Definition ALL_METHODS : list str :=
  [$"DELETE"; $"GET"; $"HEAD"; $"OPTIONS"; $"PATCH"; $"POST"; $"PUT"].

Definition acao : bytes := $"access-control-allow-origin".
Definition acac : bytes := $"access-control-allow-credentials".
Definition acah : bytes := $"access-control-allow-headers".
Definition acam : bytes := $"access-control-allow-methods".
Definition aceh : bytes := $"access-control-expose-headers".

Definition when {A} (c : bool) (l : list A) : list A := if c then l else [].
Definition nonempty {A} (l : list A) : bool := match l with [] => false | _ => true end.

Definition init (origins : list str) (origin_regex : option (str -> bool)) (methods headers : list str)
    (credentials : bool) (expose : list str) (age : Z) : result CORSMiddleware :=
  let all_origins := bool_decide ($"*" ∈ origins) in
  let methods' := if bool_decide ($"*" ∈ methods) then ALL_METHODS else str_upper <$> methods in
  let! exposed :=
    if nonempty expose then
      let! v := encode_latin1 (join $", " expose) in Ok [(aceh, v)]
    else Ok [] in
  let! methods_value := encode_latin1 (join $", " methods') in
  Ok (mkCors all_origins (str_lower <$> origins) origin_regex methods'
        (bool_decide ($"*" ∈ headers)) (str_lower <$> headers) credentials expose age
        (when all_origins [(acao, $"*")] ++ exposed ++ when credentials [(acac, $"true")])
        (when all_origins [(acao, $"*")] ++ when credentials [(acac, $"true")]
         ++ [(acam, methods_value); ($"access-control-max-age", Z_to_str age)])).

Definition _is_origin_allowed (mw : CORSMiddleware) (origin : str) : bool :=
  allow_all_origins mw
  || bool_decide (str_lower origin ∈ allow_origins mw)
  || match allow_origin_regex mw with Some fullmatch => fullmatch origin | None => false end.

(** The headers [_CorsSendWrapper] appends to a response start. *)
Definition extra_headers (mw : CORSMiddleware) (origin : option str) : raw_headers :=
  match origin with
  | Some ((_ :: _) as o) =>
      if _is_origin_allowed mw o then
        (if allow_all_origins mw && negb (allow_credentials mw) then [(acao, $"*")]
         else [(acao, o); ($"vary", $"Origin")])
        ++ when (allow_credentials mw) [(acac, $"true")]
        ++ when (nonempty (expose_headers mw)) [(aceh, join $", " (expose_headers mw))]
      else []
  | _ => []
  end.

Definition send_wrapper (mw : CORSMiddleware) (origin : option str) (m : message) : message :=
  match m with
  | ResponseStart status hs => ResponseStart status (hs ++ extra_headers mw origin)
  | _ => m
  end.

(** The [Origin] header of the request: the first one. *)
Fixpoint find_origin (hs : raw_headers) : option str :=
  match hs with
  | [] => None
  | (n, v) :: hs' => if decide (bytes_lower n = $"origin") then Some (decode_latin1 v) else find_origin hs'
  end.

(** The loop that reads the two preflight request headers. *)
Definition preflight_step (acc : bytes * bytes) (h : bytes * bytes) : bytes * bytes :=
  let '(meth, hdrs) := acc in
  let '(n, v) := h in
  if decide (n = $"access-control-request-method") then (v, hdrs)
  else if decide (n = $"access-control-request-headers") then
    (meth, match hdrs with [] => v | _ => hdrs ++ $", " ++ v end)
  else acc.

Definition requested (mw : CORSMiddleware) (requested_headers : str) : list str :=
  (fun h => str_lower (strip h)) <$> split_on 44 requested_headers.

Definition disallowed (mw : CORSMiddleware) (requested_headers : str) : bool :=
  negb (bool_decide (Forall (fun h => h ∈ allow_headers mw) (requested mw requested_headers)))
  && negb (allow_all_headers mw).

Definition bad_headers_response : list message :=
  [ResponseStart 400 []; ResponseBody $"Disallowed CORS headers" false].

(** The answer to a preflight request of an allowed origin. *)
Definition preflight (mw : CORSMiddleware) (origin : str) (hs : raw_headers) : result (list message) :=
  let '(meth, rh) := foldl preflight_step ([], []) hs in
  let base := preflight_headers mw
              ++ when (negb (allow_all_origins mw)) [(acao, origin); ($"vary", $"Origin")] in
  let finish hdrs :=
    [ResponseStart 200 (hdrs ++ when (nonempty meth) [(acam, meth)]); ResponseBody $"OK" false] in
  if allow_all_headers mw && nonempty rh then Ok (finish (base ++ [(acah, rh)]))
  else if nonempty rh && nonempty (allow_headers mw) then
    if disallowed mw rh then Ok bad_headers_response else Ok (finish (base ++ [(acah, rh)]))
  else if nonempty (allow_headers mw) then
    let! v := encode_latin1 (join $", " (allow_headers mw)) in Ok (finish (base ++ [(acah, v)]))
  else Ok (finish base).

Definition call (mw : CORSMiddleware) (app : asgi_app) : asgi_app :=
  fun scope =>
    if decide (sc_type scope = Http) then
      let hs := get_or (sc_headers scope) [] in
      let origin := find_origin hs in
      match origin with
      | Some ((_ :: _) as o) =>
          if bool_decide (get_or (sc_method scope) $"GET" = $"OPTIONS") && _is_origin_allowed mw o then
            match preflight mw o hs with
            | Ok ms => run_ok ms
            | Raise e => run_raise [] e
            end
          else let r := app scope in mkRun (send_wrapper mw origin <$> sent r) (ended r)
      | _ => let r := app scope in mkRun (send_wrapper mw origin <$> sent r) (ended r)
      end
    else app scope.

(** [_preflight_response]: the response object variant. *)
Definition _preflight_response (mw : CORSMiddleware) (origin : str) (requested_headers : str)
    : result Response :=
  if negb (_is_origin_allowed mw origin) then
    PlainTextResponse (CStr $"Disallowed CORS origin") 400 [] None None
  else
    let! base :=
      if allow_all_origins mw then Ok (preflight_headers mw)
      else
        let! o := encode_latin1 origin in
        Ok (preflight_headers mw ++ [(acao, o); ($"vary", $"Origin")]) in
    let! hdrs :=
      if allow_all_headers mw && nonempty requested_headers then
        let! v := encode_latin1 requested_headers in Ok (base ++ [(acah, v)])
      else if nonempty (allow_headers mw) then
        let! v := encode_latin1 (join $", " (allow_headers mw)) in Ok (base ++ [(acah, v)])
      else Ok base in
    let! r := response CNone 200 [] None None in
    Ok (mkResponse (status_code r) (media_type r) [] hdrs (background r)).

(** *** Properties *)

Lemma extra_headers_disallowed mw o :
  (∀ s, o = Some s -> s ≠ [] -> _is_origin_allowed mw s = false) -> extra_headers mw o = [].
Proof. intros H. destruct o as [[|c o]|]; [done| |done]. cbn [extra_headers]. by rewrite H. Qed.

Lemma send_wrapper_id mw o (ms : list message) : extra_headers mw o = [] -> (send_wrapper mw o <$> ms) = ms.
Proof.
  intros H. induction ms as [|m ms IH]; [done|]. rewrite fmap_cons, IH. f_equal.
  destruct m; simpl; [|done..]. by rewrite H, app_nil_r.
Qed.

(** CORS headers are only ever added for an allowed origin: without an
    [Origin] header, or with one that is not allowed, the application's events
    are passed through untouched, preflight requests included; for an allowed
    origin each response start gains exactly one allow-origin header, naming
    [*] or that origin, and never [*] together with credentials. *)
Theorem cors_origin_checked mw app scope :
  let origin := find_origin (get_or (sc_headers scope) []) in
  ((∀ o, origin = Some o -> o ≠ [] -> _is_origin_allowed mw o = false) ->
   call mw app scope = app scope)
  ∧ (∀ o, origin = Some o -> o ≠ [] -> _is_origin_allowed mw o = true -> sc_type scope = Http ->
     get_or (sc_method scope) $"GET" ≠ $"OPTIONS" ->
     ended (call mw app scope) = ended (app scope)
     ∧ body_bytes (sent (call mw app scope)) = body_bytes (sent (app scope))
     ∧ ∃ v extra, sent (call mw app scope)
         = (fun m => match m with ResponseStart st hs => ResponseStart st (hs ++ (acao, v) :: extra)
                                | _ => m end) <$> sent (app scope)
       ∧ MH.raw_values extra acao = []
       ∧ (v = $"*" ∨ v = o)
       ∧ (v = $"*" -> o ≠ $"*" -> (acac, $"true") ∉ extra)).
Proof.
  intros origin. unfold call. fold origin. split.
  - intros Hno. assert (Hex : extra_headers mw origin = []) by (by apply extra_headers_disallowed).
    case_decide; [|done]. rewrite send_wrapper_id by done. destruct origin as [[|c o]|].
    + by destruct (app scope).
    + rewrite (Hno _ eq_refl) by done. rewrite andb_false_r. by destruct (app scope).
    + by destruct (app scope).
  - intros o Ho Hne Hal Hty Hm. rewrite decide_True by done. rewrite Ho.
    destruct o as [|c o]; [done|]. rewrite bool_decide_false by done. cbn [andb ended sent].
    split_and!; [done| |].
    + induction (sent (app scope)) as [|m ms IH]; [done|]. rewrite fmap_cons.
      destruct m; simpl; try done. by rewrite IH.
    + assert (Hx : ∃ v extra, extra_headers mw (Some (c :: o)) = (acao, v) :: extra
                ∧ MH.raw_values extra acao = [] ∧ (v = $"*" ∨ v = c :: o)
                ∧ (v = $"*" -> c :: o ≠ $"*" -> (acac, $"true") ∉ extra)).
      { cbn [extra_headers]. rewrite Hal.
        destruct (allow_all_origins mw), (allow_credentials mw) eqn:Ec, (nonempty (expose_headers mw));
          cbn [andb negb when Datatypes.app]; eexists _, _; split_and!;
          first [reflexivity | by left | by right | by intros -> | idtac];
          intros _ _; rewrite ?elem_of_cons, ?elem_of_nil; intros Hin; destruct_or? Hin; by try discriminate. }
      destruct Hx as (v & extra & Hx & Hu & Hv & Hc). exists v, extra. split_and!; [|done|done|done].
      apply list_fmap_ext. intros i m _. destruct m; cbn [send_wrapper]; [|done..]. by rewrite Hx.
Qed.

Lemma init_inv origins rx methods headers credentials expose age mw :
  init origins rx methods headers credentials expose age = Ok mw ->
  ∃ mv, preflight_headers mw
    = when (allow_all_origins mw) [(acao, $"*")] ++ when (allow_credentials mw) [(acac, $"true")]
      ++ [(acam, mv); ($"access-control-max-age", Z_to_str age)]
  ∧ allow_credentials mw = credentials ∧ allow_headers mw = str_lower <$> headers
  ∧ allow_all_headers mw = bool_decide ($"*" ∈ headers).
Proof. unfold init. intros H. inv_ok. eauto. Qed.

Lemma raw_values_app a b n : MH.raw_values (a ++ b) n = MH.raw_values a n ++ MH.raw_values b n.
Proof. unfold MH.raw_values. by rewrite filter_app, fmap_app. Qed.

Lemma preflight_shape mw o hs ms :
  preflight mw o hs = Ok ms ->
  let rh := (foldl preflight_step ([], []) hs).2 in
  let bad := allow_all_headers mw = false ∧ rh ≠ [] ∧ allow_headers mw ≠ []
             ∧ ~ Forall (fun h => h ∈ allow_headers mw) (requested mw rh) in
  (ms = bad_headers_response ∧ bad)
  ∨ ∃ meth acahs, ms = [ResponseStart 200 (((preflight_headers mw
         ++ when (negb (allow_all_origins mw)) [(acao, o); ($"vary", $"Origin")]) ++ acahs)
         ++ when (nonempty meth) [(acam, meth)]); ResponseBody $"OK" false]
     ∧ (acahs = [] ∨ ∃ v, acahs = [(acah, v)]) ∧ ~ bad
     ∧ (allow_all_headers mw = true -> rh ≠ [] -> acahs = [(acah, rh)]).
Proof.
  unfold preflight. destruct (foldl preflight_step ([], []) hs) as [meth rh]. cbn [snd].
  assert (Hne : ∀ A (l : list A), nonempty l = true ↔ l ≠ []) by (by intros ? []).
  assert (Hnn : ∀ A (l : list A), nonempty l = false ↔ l = []) by (by intros ? []).
  destruct (allow_all_headers mw) eqn:Ea; cbn [andb];
    [|destruct (disallowed mw rh) eqn:Ed];
    destruct (nonempty rh) eqn:Er, (nonempty (allow_headers mw)) eqn:Eh; cbn [andb]; intros H; inv_ok;
    repeat match goal with
    | E : nonempty _ = true |- _ => apply Hne in E
    | E : nonempty _ = false |- _ => apply Hnn in E
    end;
    try (right; exists meth; eexists; split_and!;
         [try reflexivity; by rewrite <-(app_nil_r (preflight_headers mw ++ _)) at 1
         | first [by left | right; by eexists]
         | by intros (? & ? & ? & ?)
         | done ]; fail).
  - left. split_and!; try done. unfold disallowed in Ed. apply andb_true_iff in Ed as [Ed _].
    by apply negb_true_iff, bool_decide_eq_false in Ed.
  - right. exists meth, [(acah, rh)]. split_and!; [done|right; by eexists| |done].
    intros (_ & _ & _ & Hb). unfold disallowed in Ed. rewrite Ea, andb_true_r in Ed.
    by apply negb_false_iff, bool_decide_eq_true in Ed.
Qed.

(** Preflight requests of an allowed origin are answered by the middleware
    and never reach the application: the answer is complete; it is 400 exactly
    when headers are restricted and a requested one is not among the allowed
    ones (compared in lower case and stripped); otherwise it is 200 with exactly
    one allow-origin header, the requested headers echoed, and the credentials
    header exactly when credentials are allowed. *)
Theorem cors_preflight_correct origins rx methods headers credentials expose age mw o scope ms :
  init origins rx methods headers credentials expose age = Ok mw ->
  sc_type scope = Http -> sc_method scope = Some $"OPTIONS" ->
  find_origin (get_or (sc_headers scope) []) = Some o -> o ≠ [] -> _is_origin_allowed mw o = true ->
  preflight mw o (get_or (sc_headers scope) []) = Ok ms ->
  let rh := (foldl preflight_step ([], []) (get_or (sc_headers scope) [])).2 in
  (∀ app, call mw app scope = run_ok ms)
  ∧ response_complete ms = true
  ∧ ∃ st hs body, ms = [ResponseStart st hs; ResponseBody body false]
    ∧ (st = 400 ∨ st = 200)
    ∧ (st = 400 ↔ $"*" ∉ headers ∧ headers ≠ [] ∧ rh ≠ []
         ∧ ~ Forall (fun h => h ∈ str_lower <$> headers) (requested mw rh))
    ∧ (st = 200 ->
        MH.raw_values hs acao = [if allow_all_origins mw then $"*" else o]
        ∧ MH.raw_values hs acac = (if credentials then [$"true"] else [])
        ∧ ($"*" ∈ headers -> rh ≠ [] -> MH.raw_values hs acah = [rh])).
Proof.
  intros Hi Hty Hm Ho Hne Hal Hp rh. destruct (init_inv _ _ _ _ _ _ _ _ Hi) as (mv & Hph & Hcr & Hah & Haa).
  assert (Hcall : ∀ app, call mw app scope = run_ok ms).
  { intros app. unfold call. rewrite decide_True by done. rewrite Ho. destruct o; [done|].
    rewrite Hm, bool_decide_true, Hal by done. cbn [andb]. by rewrite Hp. }
  split; [done|]. apply preflight_shape in Hp. rewrite Hah, Haa in Hp. fold rh in Hp.
  destruct Hp as [(-> & Hst & Hr & Hh & Hd)|(meth & acahs & -> & Ha & Hn & Hstar)].
  - split; [done|]. eexists _, _, _. split; [done|]. split_and!; [by left| |done].
    split; [|done]. intros _. split_and!; [by apply (proj1 (bool_decide_eq_false _)) in Hst| |done|done].
    by intros ->.
  - split; [done|]. eexists _, _, _. split; [done|]. split_and!; [by right| |].
    + split; [done|]. intros (H1 & H2 & H3 & H4). destruct Hn. split_and!; [by apply bool_decide_eq_false|done| |done].
      by intros ->%fmap_nil_inv.
    + intros _. rewrite Hph, <-Hcr, !raw_values_app.
      destruct (allow_all_origins mw), (allow_credentials mw), (nonempty meth);
        (split_and!; [destruct Ha as [->|(v & ->)]; reflexivity | destruct Ha as [->|(v & ->)]; reflexivity |];
         intros Hs Hr; rewrite (Hstar ltac:(by apply bool_decide_eq_true) Hr); reflexivity).
Qed.

Definition preflight_scope : Scope :=
  mkScope Http $"/" None None (Some $"OPTIONS") None None None None
    (Some [($"origin", $"https://a.com"); ($"access-control-request-headers", $"X-A, X-B")]) None None false false.

Lemma cors_preflight_correct_witness :
  ∃ mw ms, init [$"https://a.com"] None [$"GET"] [$"x-a"] true [] 600 = Ok mw
    ∧ (∀ app, call mw app preflight_scope = run_ok ms) ∧ ms = bad_headers_response.
Proof.
  eexists _, _. split; [reflexivity|].
  destruct (cors_preflight_correct [$"https://a.com"] None [$"GET"] [$"x-a"] true [] 600 _ $"https://a.com"
    preflight_scope bad_headers_response eq_refl eq_refl eq_refl eq_refl ltac:(discriminate)
    ltac:(vm_compute; reflexivity) ltac:(vm_compute; reflexivity)) as (Hc & _).
  split; [exact Hc|reflexivity].
Defined.
End Cors.

(** ** GZip *)
Module GZip.

(** The compressor of [zlib] and [gzip]: a streaming object, the one-shot
    function, and the decompressor their documentation relates them to. *)
Class Gzip : Type := {
  zstate : Type;
  compressobj : zstate;
  zcompress : zstate -> bytes -> zstate * bytes;
  zflush : zstate -> bytes;
  gzip_compress : bytes -> bytes;
  gunzip : bytes -> option bytes
}.

Section gzip.
Context {G : Gzip}.

(** Feeding chunks to a compressor: its final state and all its output. *)
Fixpoint zrun (z : zstate) (chunks : list bytes) : zstate * bytes :=
  match chunks with
  | [] => (z, [])
  | c :: cs =>
      let '(z', out) := zcompress z c in
      let '(z'', outs) := zrun z' cs in (z'', out ++ outs)
  end.

Class GzipLaws : Prop := {
  gunzip_stream chunks : let '(z, out) := zrun compressobj chunks in
                         gunzip (out ++ zflush z) = Some (concat chunks);
  gunzip_oneshot b : gunzip (gzip_compress b) = Some b
}.

Record GZipMiddleware : Type := mkGZip { minimum_size : Z }.

(** The variables the send wrapper closes over. *)
Record state : Type := mkState {
  _initial_body : bytes;
  _started : bool;
  _resp_headers : raw_headers;
  _status : Z;
  _compressor : option zstate;
  _more_body_seen : bool
}.

Definition initial : state := mkState [] false [] 200 None false.

Definition kept_headers (hs : raw_headers) : raw_headers :=
  filter (fun h => bytes_lower h.1 ∉ [$"content-length"; $"content-encoding"]) hs.

Definition encoding_header : bytes * bytes := ($"content-encoding", $"gzip").
Definition vary_header : bytes * bytes := ($"vary", $"Accept-Encoding").
Definition length_header (b : bytes) : bytes * bytes :=
  ($"content-length", N_to_str (N.of_nat (length b))).

Definition send_wrapper (mw : GZipMiddleware) (s : state) (m : message) : state * list message :=
  match m with
  | ResponseStart status hs =>
      (mkState (_initial_body s) true hs status (_compressor s) (_more_body_seen s), [])
  | ResponseBody chunk more =>
      match _compressor s with
      | Some z =>
          let '(z', c0) := zcompress z chunk in
          let c := if more then c0 else c0 ++ zflush z' in
          (mkState (_initial_body s) (_started s) (_resp_headers s) (_status s) (Some z') (_more_body_seen s),
           match c with
           | [] => if more then [] else [ResponseBody [] false]
           | _ => [ResponseBody c more]
           end)
      | None =>
          if more then
            let ib := _initial_body s ++ chunk in
            if minimum_size mw <=? Z.of_nat (length ib) then
              let '(z', c) := zcompress compressobj ib in
              (mkState ib (_started s) (_resp_headers s) (_status s) (Some z') true,
               ResponseStart (_status s) (kept_headers (_resp_headers s) ++ [encoding_header; vary_header])
               :: match c with [] => [] | _ => [ResponseBody c true] end)
            else (mkState ib (_started s) (_resp_headers s) (_status s) None true, [])
          else
            let full := _initial_body s ++ chunk in
            (s,
             if minimum_size mw <=? Z.of_nat (length full) then
               let c := gzip_compress full in
               [ResponseStart (_status s)
                  (kept_headers (_resp_headers s) ++ [encoding_header; length_header c; vary_header]);
                ResponseBody c false]
             else
               (if _more_body_seen s then [] else [ResponseStart (_status s) (_resp_headers s)])
               ++ [ResponseBody full false])
      end
  | _ => (s, [])
  end.

Fixpoint send_all (mw : GZipMiddleware) (s : state) (ms : list message) : state * list message :=
  match ms with
  | [] => (s, [])
  | m :: ms' =>
      let '(s', out) := send_wrapper mw s m in
      let '(s'', outs) := send_all mw s' ms' in (s'', out ++ outs)
  end.

(** What is sent after the application has returned. *)
Definition flush (mw : GZipMiddleware) (s : state) : list message :=
  match _compressor s with
  | Some _ => []
  | None =>
      if _started s && _more_body_seen s && bool_decide (_initial_body s ≠ []) then
        let full := _initial_body s in
        if minimum_size mw <=? Z.of_nat (length full) then
          let c := gzip_compress full in
          [ResponseStart (_status s) (kept_headers (_resp_headers s) ++ [encoding_header; length_header c]);
           ResponseBody c false]
        else [ResponseStart (_status s) (_resp_headers s); ResponseBody full false]
      else []
  end.

(** The first [accept-encoding] header. *)
Fixpoint accept_encoding (hs : raw_headers) : str :=
  match hs with
  | [] => []
  | (n, v) :: hs' => if decide (n = $"accept-encoding") then decode_latin1 v else accept_encoding hs'
  end.

Definition accepts_gzip (scope : Scope) : bool :=
  contains $"gzip" (accept_encoding (get_or (sc_headers scope) [])).

Definition call (mw : GZipMiddleware) (app : asgi_app) : asgi_app :=
  fun scope =>
    if bool_decide (sc_type scope = Http) && accepts_gzip scope then
      let r := app scope in
      let '(s, out) := send_all mw initial (sent r) in
      match ended r with
      | Ok _ => run_ok (out ++ flush mw s)
      | Raise e => run_raise out e
      end
    else app scope.

(** *** Properties *)
Lemma send_all_app mw s a b :
  send_all mw s (a ++ b)
  = let '(s1, o1) := send_all mw s a in let '(s2, o2) := send_all mw s1 b in (s2, o1 ++ o2).
Proof.
  revert s. induction a as [|m a IH]; intros s; cbn [app send_all]; [by destruct (send_all mw s b)|].
  destruct (send_wrapper mw s m) as [s' o]. rewrite IH. destruct (send_all mw s' a) as [s1 o1].
  destruct (send_all mw s1 b) as [s2 o2]. by rewrite app_assoc.
Qed.

(** Body events as an application sends them. *)
Definition bodies (chunks : list bytes) (last : bytes) : list message :=
  ((fun b => ResponseBody b true) <$> chunks) ++ [ResponseBody last false].

Lemma bodies_cons c chunks last : bodies (c :: chunks) last = ResponseBody c true :: bodies chunks last.
Proof. done. Qed.

(** Once compressing, the events are the compressor's output, and complete. *)
Lemma streaming_phase mw s z chunks last :
  _compressor s = Some z ->
  ∃ s' out z', send_all mw s (bodies chunks last) = (s', out)
    ∧ _compressor s' = Some z'
    ∧ body_complete out = true
    ∧ body_bytes out = (zrun z (chunks ++ [last])).2 ++ zflush (zrun z (chunks ++ [last])).1.
Proof.
  revert s z. induction chunks as [|c chunks IH]; intros s z Hz; rewrite ?bodies_cons.
  - unfold bodies. cbn [fmap list_fmap app send_all send_wrapper zrun]. rewrite Hz. destruct (zcompress z last) as [z' c0]. cbn [fst snd].
    rewrite app_nil_r. destruct (c0 ++ zflush z') eqn:E; eexists _, _, _; (split; [done|]); split_and!;
      try done; cbn [app body_bytes]; by rewrite ?app_nil_r.
  - cbn [send_all send_wrapper zrun app]. rewrite Hz. destruct (zcompress z c) as [z' c0].
    set (s1 := mkState _ _ _ _ _ _).
    destruct (IH s1 z' eq_refl) as (s' & out & z'' & Hs & Hc & Hb & Hbb).
    rewrite Hs.
    destruct (zrun z' (chunks ++ [last])) as [zf zo]. cbn [fst snd] in *.
    eexists _, _, _. split; [done|]. rewrite <-app_assoc, <-Hbb. destruct c0; split_and!; done.
Qed.

(** Small chunks are kept back. *)
Lemma buffering_phase mw s chunks :
  _compressor s = None ->
  Z.of_nat (length (_initial_body s ++ concat chunks)) < minimum_size mw ->
  send_all mw s ((fun b => ResponseBody b true) <$> chunks)
  = (mkState (_initial_body s ++ concat chunks) (_started s) (_resp_headers s) (_status s) None
       (bool_decide (chunks ≠ []) || _more_body_seen s), []).
Proof.
  revert s. induction chunks as [|c chunks IH]; intros s Hc Hm; csimpl.
  - destruct s. simpl in *. subst. by rewrite app_nil_r.
  - rewrite Hc. cbn [concat] in Hm. rewrite (app_assoc _ c) in Hm. rewrite length_app in Hm.
    destruct (Z.leb_spec (minimum_size mw) (Z.of_nat (length (_initial_body s ++ c)))) as [Hle|Hlt]; [lia|].
    rewrite IH; cbn [_initial_body _compressor _started _resp_headers _status _more_body_seen]; [|done|].
    + by rewrite orb_true_r, app_assoc.
    + rewrite length_app. lia.
Qed.

(** The chunk that reaches the minimum size. *)
Lemma crossing chunks (min : Z) (ib : bytes) :
  Z.of_nat (length ib) < min -> min <= Z.of_nat (length (ib ++ concat chunks)) ->
  ∃ pre c post, chunks = pre ++ c :: post ∧ Z.of_nat (length (ib ++ concat pre)) < min
    ∧ min <= Z.of_nat (length ((ib ++ concat pre) ++ c)).
Proof.
  revert ib. induction chunks as [|c chunks IH]; intros ib Hlt Hle; cbn [concat] in *.
  - rewrite app_nil_r in Hle. lia.
  - destruct (Z.le_gt_cases min (Z.of_nat (length (ib ++ c)))) as [H|H].
    + exists [], c, chunks. cbn [concat]. rewrite app_nil_r. done.
    + rewrite app_assoc in Hle. destruct (IH (ib ++ c)) as (pre & c' & post & -> & H1 & H2); [lia|lia|].
      exists (c :: pre), c', post. cbn [concat]. rewrite !app_assoc. done.
Qed.

Lemma kept_no_encoding hs extra n :
  n ∈ [$"content-length"; $"content-encoding"] ->
  MH.raw_values (kept_headers hs ++ extra) n = MH.raw_values extra n.
Proof.
  intros Hn. rewrite Cors.raw_values_app. replace (MH.raw_values (kept_headers hs) n) with (@nil bytes); [done|].
  unfold MH.raw_values, kept_headers. induction hs as [|[k v] hs IH]; [done|].
  rewrite filter_cons. case_decide as D; [|done]. rewrite filter_cons_False; [done|].
  cbn [fst] in *. by intros <-.
Qed.

(** What reaching the minimum size while streaming produces. *)
Lemma compressing_phase `{!GzipLaws} mw s chunks last :
  _compressor s = None -> _initial_body s = [] -> chunks ≠ [] ->
  minimum_size mw <= Z.of_nat (length (concat chunks)) ->
  ∃ s' out z', send_all mw s (bodies chunks last)
      = (s', ResponseStart (_status s) (kept_headers (_resp_headers s) ++ [encoding_header; vary_header]) :: out)
    ∧ _compressor s' = Some z' ∧ body_complete out = true
    ∧ gunzip (body_bytes out) = Some (concat chunks ++ last).
Proof.
  intros Hc Hib Hne Hmin.
  assert (∃ pre c post, chunks = pre ++ c :: post
    ∧ (pre = [] ∨ Z.of_nat (length (concat pre)) < minimum_size mw)
    ∧ minimum_size mw <= Z.of_nat (length (concat pre ++ c))) as (pre & c & post & -> & Hpre & Hcr).
  { destruct (Z.le_gt_cases (minimum_size mw) 0) as [H0|H0].
    - destruct chunks as [|c chunks]; [done|]. exists [], c, chunks. split_and!; [done|by left|simpl; lia].
    - destruct (crossing chunks (minimum_size mw) []) as (pre & c & post & -> & H1 & H2); [simpl; lia|done|].
      exists pre, c, post. split_and!; [done|by right|done]. }
  assert (Hbuf : ∃ seen, send_all mw s ((fun b => ResponseBody b true) <$> pre)
            = (mkState (concat pre) (_started s) (_resp_headers s) (_status s) None seen, [])).
  { destruct Hpre as [->|Hlt].
    - exists (_more_body_seen s). destruct s; simpl in *. by subst.
    - eexists. rewrite buffering_phase by (rewrite ?Hib; done). by rewrite Hib. }
  destruct Hbuf as [seen Hbuf].
  assert (Hsplit : bodies (pre ++ c :: post) last
            = ((fun b => ResponseBody b true) <$> pre) ++ ResponseBody c true :: bodies post last).
  { unfold bodies. by rewrite fmap_app, <-app_assoc. }
  rewrite Hsplit, send_all_app, Hbuf. cbn [send_all send_wrapper _compressor _initial_body].
  rewrite (proj2 (Z.leb_le _ _)) by done.
  destruct (zcompress compressobj (concat pre ++ c)) as [z' c0] eqn:Ez.
  set (s1 := mkState _ _ _ _ _ _).
  destruct (streaming_phase mw s1 z' post last eq_refl) as (s' & out & z'' & Hs & Hz & Hb & Hbb).
  rewrite Hs. cbn [app _status _resp_headers]. eexists _, _, _. split; [done|].
  pose proof (gunzip_stream ((concat pre ++ c) :: post ++ [last])) as Hg. cbn [zrun] in Hg. rewrite Ez in Hg.
  destruct (zrun z' (post ++ [last])) as [zf zo]. cbn [fst snd] in *.
  split; [done|]. split; [destruct c0; done|].
  replace (body_bytes (match c0 with [] => [] | _ => [ResponseBody c0 true] end ++ out)) with (c0 ++ zo ++ zflush zf).
  - rewrite app_assoc, Hg. cbn [concat]. rewrite !concat_app. cbn [concat].
    by rewrite app_nil_r, <-!app_assoc.
  - rewrite <-Hbb. by destruct c0.
Qed.

Lemma call_run mw app scope ms :
  sc_type scope = Http -> accepts_gzip scope = true -> app scope = run_ok ms ->
  call mw app scope
  = let '(s, out) := send_all mw initial ms in run_ok (out ++ flush mw s).
Proof.
  intros Hty Hac Happ. unfold call. rewrite bool_decide_true, Hac, Happ by done. done.
Qed.

(** Compression preserves the response: when the client accepts gzip and
    the application sends a complete response whose body is one event, or whose
    streamed part reaches the minimum size, the client receives one complete
    response with the same status; if it is compressed it says so exactly once,
    and decompressing the received body gives the body the application sent;
    a small body is passed on as it was. *)
Theorem gzip_preserves_response `{!GzipLaws} mw app scope status hs chunks last :
  sc_type scope = Http -> accepts_gzip scope = true ->
  app scope = run_ok (ResponseStart status hs :: bodies chunks last) ->
  chunks = [] ∨ minimum_size mw <= Z.of_nat (length (concat chunks)) ->
  ∃ hs' out, call mw app scope = run_ok (ResponseStart status hs' :: out)
    ∧ body_complete out = true
    ∧ (if minimum_size mw <=? Z.of_nat (length (concat chunks ++ last))
       then MH.raw_values hs' $"content-encoding" = [$"gzip"]
            ∧ gunzip (body_bytes out) = Some (concat chunks ++ last)
            ∧ (chunks = [] -> MH.raw_values hs' $"content-length"
                 = [N_to_str (N.of_nat (length (body_bytes out)))])
       else hs' = hs ∧ body_bytes out = concat chunks ++ last).
Proof.
  intros Hty Hac Happ Hcase. rewrite (call_run _ _ _ _ Hty Hac Happ). cbn [send_all send_wrapper].
  set (s0 := mkState _ _ _ _ _ _). destruct (decide (chunks = [])) as [->|Hne].
  - unfold bodies. cbn [fmap list_fmap Datatypes.app concat send_all send_wrapper]. cbn [s0 _compressor initial _initial_body Datatypes.app].
    destruct (minimum_size mw <=? Z.of_nat (length last)) eqn:E.
    + eexists _, _. split; [reflexivity|]. split; [reflexivity|]. cbn [body_bytes].
      rewrite app_nil_r, !kept_no_encoding by set_solver. split_and!; [done|apply gunzip_oneshot|].
      by intros _.
    + eexists _, _. split; [reflexivity|]. split; [reflexivity|]. cbn [body_bytes]. by rewrite app_nil_r.
  - destruct Hcase as [?|Hmin]; [done|].
    destruct (compressing_phase mw s0 chunks last) as (s' & out & z' & Hs & Hz & Hb & Hg); [done|done|done|done|].
    rewrite Hs. unfold flush. rewrite Hz. rewrite (proj2 (Z.leb_le _ _)) by (rewrite length_app; lia).
    eexists _, _. split; [cbn [Datatypes.app]; by rewrite app_nil_r|]. split; [done|].
    rewrite kept_no_encoding by set_solver. split_and!; [done|done|done].
Qed.

(** Streamed responses that stay below the minimum size are not preserved:
    when the application streams a response in several events whose earlier
    events total less than the minimum size, what is sent is not a complete
    response: either the body precedes any response start, or a second
    response start follows. *)
Theorem gzip_small_stream_broken mw app scope status hs chunks last :
  sc_type scope = Http -> accepts_gzip scope = true ->
  app scope = run_ok (ResponseStart status hs :: bodies chunks last) ->
  chunks ≠ [] -> Z.of_nat (length (concat chunks)) < minimum_size mw ->
  concat chunks ≠ [] ∨ Z.of_nat (length (concat chunks ++ last)) < minimum_size mw ->
  response_complete (sent (call mw app scope)) = false.
Proof.
  intros Hty Hac Happ Hne Hlt Hcase. rewrite (call_run _ _ _ _ Hty Hac Happ). cbn [send_all send_wrapper].
  set (s0 := mkState _ _ _ _ _ _). unfold bodies. rewrite send_all_app, buffering_phase by done.
  cbn [send_all send_wrapper s0 _compressor _initial_body initial Datatypes.app].
  rewrite (bool_decide_true _ Hne). cbn [_more_body_seen orb].
  destruct (Z.leb_spec (minimum_size mw) (Z.of_nat (length (concat chunks ++ last)))) as [Hle|Hgt].
  - destruct Hcase as [Hc|?]; [|lia]. unfold flush. cbn [_compressor _started _more_body_seen _initial_body andb].
    rewrite (bool_decide_true _ Hc). rewrite (proj2 (Z.leb_gt _ _)) by lia. reflexivity.
  - reflexivity.
Qed.
End gzip.

(** A compressor that stores: the laws can hold. *)
#[global] Instance stored : Gzip :=
  {| zstate := unit; compressobj := tt; zcompress := fun z b => (z, b); zflush := fun _ => [];
     gzip_compress := fun b => b; gunzip := Some |}.

#[global] Instance stored_laws : GzipLaws.
Proof.
  split; [|done]. intros chunks.
  assert (∀ z, zrun z chunks = (z, concat chunks)) as H.
  { induction chunks as [|c cs IH]; intros z; [done|]. cbn [zrun zcompress stored]. by rewrite IH. }
  rewrite H. cbn. by rewrite app_nil_r.
Qed.

Definition gzip_scope : Scope :=
  mkScope Http $"/" None None None None None None None
    (Some [($"accept-encoding", $"gzip, br")]) None None false false.

Definition chunked_app (chunks : list bytes) (last : bytes) : asgi_app :=
  fun _ => run_ok (ResponseStart 200 [($"content-length", $"6")] :: bodies chunks last).

Lemma gzip_preserves_response_witness :
  ∃ hs' out, call (mkGZip 3) (chunked_app [$"ab"; $"cd"] $"ef") gzip_scope
      = run_ok (ResponseStart 200 hs' :: out)
    ∧ MH.raw_values hs' $"content-encoding" = [$"gzip"] ∧ gunzip (body_bytes out) = Some $"abcdef".
Proof.
  destruct (gzip_preserves_response (mkGZip 3) (chunked_app [$"ab"; $"cd"] $"ef") gzip_scope 200
    [($"content-length", $"6")] [$"ab"; $"cd"] $"ef" eq_refl eq_refl eq_refl)
    as (hs' & out & Hc & _ & He & Hg & _); [right; vm_compute; discriminate|].
  exists hs', out. split; [exact Hc|]. split; [exact He|exact Hg].
Defined.

Lemma gzip_small_stream_broken_witness :
  response_complete (sent (call (mkGZip 500) (chunked_app [$"abc"] $"def") gzip_scope)) = false.
Proof.
  apply (gzip_small_stream_broken (mkGZip 500) (chunked_app [$"abc"] $"def") gzip_scope 200
    [($"content-length", $"6")] [$"abc"] $"def" eq_refl eq_refl eq_refl);
    [discriminate|reflexivity|left; discriminate].
Defined.
End GZip.

(** ** Trusted hosts *)
Module TrustedHost.
Record TrustedHostMiddleware : Type := mkTrusted {
  allowed_hosts : list str;
  allow_any : bool;
  _exact_hosts : list str;
  _wildcard_suffixes : list str;
  _wildcard_bare_domains : list str
}.

(** One step of the loop that builds the lookup structures. *)
Definition add_host (mw : TrustedHostMiddleware) (h : str) : TrustedHostMiddleware :=
  if startswith h $"*." then
    mkTrusted (allowed_hosts mw) (allow_any mw) (_exact_hosts mw)
      (_wildcard_suffixes mw ++ [drop 1 h]) (_wildcard_bare_domains mw ++ [drop 2 h])
  else
    mkTrusted (allowed_hosts mw) (allow_any mw) (_exact_hosts mw ++ [h])
      (_wildcard_suffixes mw) (_wildcard_bare_domains mw).

Definition init (hosts : option (list str)) : TrustedHostMiddleware :=
  match hosts with
  | None => mkTrusted [$"*"] true [] [] []
  | Some hs =>
      if bool_decide ($"*" ∈ hs) then mkTrusted [$"*"] true [] [] []
      else
        let lowered := str_lower <$> hs in
        foldl add_host (mkTrusted lowered false [] [] []) lowered
  end.

Definition _is_host_allowed (mw : TrustedHostMiddleware) (host : str) : bool :=
  allow_any mw
  || (let h := str_lower (split_head 58 host) in
      bool_decide (h ∈ _exact_hosts mw)
      || bool_decide (h ∈ _wildcard_bare_domains mw)
      || existsb (fun suffix => endswith h suffix) (_wildcard_suffixes mw)).

(** What the allow list means: an entry [*.domain] stands for the domain and
    all its subdomains, any other entry for itself. *)
Definition entry_allows (entry host : str) : Prop :=
  match startswith entry $"*." with
  | true => host = drop 2 entry ∨ ∃ sub, host = sub ++ drop 1 entry
  | false => host = entry
  end.

Lemma add_hosts_spec hs mw h :
  let mw' := foldl add_host mw hs in
  (h ∈ _exact_hosts mw' ↔ h ∈ _exact_hosts mw ∨ ∃ e, e ∈ hs ∧ startswith e $"*." = false ∧ h = e)
  ∧ (h ∈ _wildcard_bare_domains mw' ↔ h ∈ _wildcard_bare_domains mw
       ∨ ∃ e, e ∈ hs ∧ startswith e $"*." = true ∧ h = drop 2 e)
  ∧ (h ∈ _wildcard_suffixes mw' ↔ h ∈ _wildcard_suffixes mw
       ∨ ∃ e, e ∈ hs ∧ startswith e $"*." = true ∧ h = drop 1 e)
  ∧ allow_any mw' = allow_any mw.
Proof.
  revert mw. induction hs as [|e hs IH]; intros mw; cbn [foldl].
  - split_and!; [set_solver..|done].
  - destruct (IH (add_host mw e)) as (H1 & H2 & H3 & H4). rewrite H1, H2, H3, H4, !exists_cons.
    unfold add_host.
    destruct (startswith e $"*.") eqn:E; cbn [_exact_hosts _wildcard_suffixes _wildcard_bare_domains allow_any];
      split_and!; try done; rewrite ?elem_of_app, ?list_elem_of_singleton; clear -E; intuition congruence.
Qed.

(** The lookup tables decide exactly the allow list: a host is accepted if
    and only if, without its port and in lower case, it is an entry of the list
    or the domain or a subdomain of a wildcard entry; no list, or [*] in it,
    accepts every host. *)
Theorem trusted_host_correct hosts host :
  _is_host_allowed (init hosts) host = true ↔
  match hosts with
  | None => True
  | Some hs => $"*" ∈ hs
      ∨ ∃ e, e ∈ str_lower <$> hs ∧ entry_allows e (str_lower (split_head 58 host))
  end.
Proof.
  unfold _is_host_allowed, init. destruct hosts as [hs|]; [|done]. case_bool_decide as D; [by split; [left|]|].
  set (mw := mkTrusted _ _ _ _ _). set (h := str_lower (split_head 58 host)).
  destruct (add_hosts_spec (str_lower <$> hs) mw h) as (H1 & H2 & _ & ->). cbn [mw allow_any orb].
  rewrite !orb_true_iff, !bool_decide_eq_true, H1, H2, existsb_exists. unfold entry_allows. split.
  - intros [[[Hin|(e & He & Hs & Hd)]|[Hin|(e & He & Hs & Hd)]]|(suf & Hin & Hs)].
    + by apply elem_of_nil in Hin.
    + right. exists e. by rewrite Hs.
    + by apply elem_of_nil in Hin.
    + right. exists e. rewrite Hs. auto.
    + apply list_elem_of_In in Hin.
      destruct (add_hosts_spec (str_lower <$> hs) mw suf) as (_ & _ & H3 & _).
      apply H3 in Hin as [Hin|(e & He & Hst & ->)]; [by apply elem_of_nil in Hin|].
      right. exists e. rewrite Hst. split; [done|]. right. by apply endswith_spec in Hs.
  - intros [?|(e & He & Ha)]; [done|]. destruct (startswith e $"*.") eqn:E.
    + destruct Ha as [Hd|Hsub]; [left; right; right; eauto|]. right. exists (drop 1 e).
      split; [|by apply endswith_spec]. apply list_elem_of_In.
      destruct (add_hosts_spec (str_lower <$> hs) mw (drop 1 e)) as (_ & _ & H3 & _). apply H3. eauto.
    + left. left. right. eauto.
Qed.
End TrustedHost.

(** ** WSGI *)
Module Wsgi.
Inductive env_value : Type :=
  | EStr (s : str)
  | EInput (b : bytes)
  | EVersion (major minor : Z)
  | EErrors
  | EBool (b : bool).

Definition environ : Type := list (str * env_value).

Definition base_environ (scope : Scope) (http_version : option str) (body : bytes) : environ :=
  let '(host, port) := get_or (sc_server scope) ($"localhost", 80) in
  [($"REQUEST_METHOD", EStr (get_or (sc_method scope) $"GET"));
   ($"SCRIPT_NAME", EStr (get_or (sc_root_path scope) []));
   ($"PATH_INFO", EStr (sc_path scope));
   ($"QUERY_STRING", EStr (decode_latin1 (get_or (sc_query_string scope) [])));
   ($"SERVER_NAME", EStr host);
   ($"SERVER_PORT", EStr (Z_to_str port));
   ($"SERVER_PROTOCOL", EStr ($"HTTP/" ++ get_or http_version $"1.1"));
   ($"wsgi.version", EVersion 1 0);
   ($"wsgi.url_scheme", EStr (get_or (sc_scheme scope) $"http"));
   ($"wsgi.input", EInput body);
   ($"wsgi.errors", EErrors);
   ($"wsgi.multithread", EBool true);
   ($"wsgi.multiprocess", EBool true);
   ($"wsgi.run_once", EBool false)].

Definition name_upper (name : bytes) : str := replace_char 45 95 (str_upper (decode_latin1 name)).
Definition http_key (name : bytes) : str := $"HTTP_" ++ name_upper name.

(** Adding one header. *)
Definition add_header (env : environ) (h : bytes * bytes) : environ :=
  let '(name, v) := h in
  let value := decode_latin1 v in
  if decide (name_upper name = $"CONTENT_TYPE") then dict_set env $"CONTENT_TYPE" (EStr value)
  else if decide (name_upper name = $"CONTENT_LENGTH") then dict_set env $"CONTENT_LENGTH" (EStr value)
  else
    match dict_get env (http_key name) with
    | Some (EStr ((_ :: _) as existing)) => dict_set env (http_key name) (EStr (existing ++ $"," ++ value))
    | _ => dict_set env (http_key name) (EStr value)
    end.

Definition _build_wsgi_environ (scope : Scope) (http_version : option str) (body : bytes) : environ :=
  let env := foldl add_header (base_environ scope http_version body) (get_or (sc_headers scope) []) in
  match sc_client scope with
  | Some (host, port) =>
      dict_set (dict_set env $"REMOTE_ADDR" (EStr host)) $"REMOTE_PORT" (EStr (Z_to_str port))
  | None => env
  end.

(** What running a WSGI application does, step by step: calls of
    [start_response], of the [write] callable it returns, chunks it yields, and
    an exception. *)
Inductive wsgi_action : Type :=
  | StartResponse (status : str) (headers : list (str * str))
  | Write (b : bytes)
  | Yield (b : bytes)
  | Fail (e : exn).

Record wsgi_state : Type := mkWsgi {
  status_code : Z;
  response_headers : list (str * str);
  body_parts : list bytes
}.

Definition wsgi_step (s : wsgi_state) (a : wsgi_action) : result wsgi_state :=
  match a with
  | StartResponse status headers =>
      let! code := py_int (split_head 32 status) in Ok (mkWsgi code headers (body_parts s))
  | Write b => Ok (mkWsgi (status_code s) (response_headers s) (body_parts s ++ [b]))
  | Yield [] => Ok s
  | Yield b => Ok (mkWsgi (status_code s) (response_headers s) (body_parts s ++ [b]))
  | Fail e => Raise e
  end.

Definition _run_wsgi (app : environ -> list wsgi_action) (env : environ)
    : Z * list (str * str) * bytes :=
  match rfold wsgi_step (mkWsgi 500 [] []) (app env) with
  | Ok s => (status_code s, response_headers s, concat (body_parts s))
  | Raise _ => (500, [($"Content-Type", $"text/plain")], $"Internal Server Error")
  end.

(** Reading the request body: [None] while the client has not finished. *)
Fixpoint read_body (events : list event) (parts : list bytes) : option bytes :=
  match events with
  | [] => None
  | HttpRequest b more :: events' =>
      let parts' := match get_or b [] with [] => parts | c => parts ++ [c] end in
      if get_or more false then read_body events' parts' else Some (concat parts')
  | _ :: _ => Some (concat parts)
  end.

Definition raw_response_headers (hs : list (str * str)) : result raw_headers :=
  rmapM (fun '(n, v) =>
    let! nb := encode_latin1 (str_lower n) in let! vb := encode_latin1 v in Ok (nb, vb)) hs.

(** [__call__]: [None] when it waits for the rest of the body for ever. *)
Definition call (app : environ -> list wsgi_action) (http_version : option str) (scope : Scope)
    (events : list event) : option run :=
  if decide (sc_type scope = Http) then
    match read_body events [] with
    | None => None
    | Some body =>
        let '(code, hs, out) := _run_wsgi app (_build_wsgi_environ scope http_version body) in
        Some match raw_response_headers hs with
             | Ok raw => run_ok [ResponseStart code raw; ResponseBody out false]
             | Raise e => run_raise [] e
             end
    end
  else Some (run_raise [] (TypeError $"WSGIMiddleware does not support this scope type")).

(** *** Properties *)
Lemma dict_get_add_header env h k :
  ($"HTTP_" `prefix_of` k) ->
  dict_get (add_header env h) k
  = if decide (name_upper h.1 ≠ $"CONTENT_TYPE" ∧ name_upper h.1 ≠ $"CONTENT_LENGTH" ∧ k = http_key h.1)
    then Some (EStr (match dict_get env k with
                     | Some (EStr ((_ :: _) as existing)) => existing ++ $"," ++ h.2
                     | _ => h.2 end))
    else dict_get env k.
Proof.
  intros [k' ->]. destruct h as [n v]. unfold add_header. cbn [fst snd].
  destruct (decide (name_upper n = $"CONTENT_TYPE")) as [E1|E1].
  { rewrite dict_get_set_ne by discriminate. rewrite decide_False by naive_solver. done. }
  destruct (decide (name_upper n = $"CONTENT_LENGTH")) as [E2|E2].
  { rewrite dict_get_set_ne by discriminate. rewrite decide_False by naive_solver. done. }
  destruct (decide ($"HTTP_" ++ k' = http_key n)) as [->|E3].
  - rewrite decide_True by done. unfold decode_latin1. split_code; by rewrite dict_get_set_eq.
  - rewrite decide_False by naive_solver. split_code; by rewrite dict_get_set_ne by congruence.
Qed.

(** The values of the request headers with an environment name. *)
Definition named (key : str) (hs : raw_headers) : list str :=
  (filter (fun h => name_upper h.1 ≠ $"CONTENT_TYPE" ∧ name_upper h.1 ≠ $"CONTENT_LENGTH"
                    ∧ $"HTTP_" ++ key = http_key h.1) hs).*2.

Definition header_value (vs : list str) : option env_value :=
  match vs with [] => None | _ => Some (EStr (join $"," vs)) end.

Lemma fold_headers env key hs done :
  Forall (fun v => v ≠ []) (done ++ named key hs) ->
  dict_get env ($"HTTP_" ++ key) = header_value done ->
  dict_get (foldl add_header env hs) ($"HTTP_" ++ key)
  = header_value (done ++ named key hs).
Proof.
  revert env done. induction hs as [|h hs IH]; intros env done Hne Hd; cbn [foldl].
  { unfold named. by rewrite app_nil_r. }
  assert (Hstep := dict_get_add_header env h ($"HTTP_" ++ key) ltac:(by exists key)).
  unfold named in Hne |- *. rewrite filter_cons in Hne |- *. case_decide as D.
  - rewrite fmap_cons, cons_middle, app_assoc in Hne |- *. apply (IH _ (done ++ [h.2])); [exact Hne|].
    rewrite Hstep, Hd. unfold header_value at 1. destruct done as [|v done]; [done|].
    apply Forall_app in Hne as [Hne _]. apply Forall_app in Hne as [Hne _].
    apply Forall_cons in Hne as [Hv _].
    assert (Hj : ∃ c t, join $"," (v :: done) = c :: t).
    { destruct v as [|c v]; [done|]. destruct done; cbn [join]; by eexists _, _. }
    destruct Hj as (c & t & Hj). rewrite Hj. rewrite <-Hj.
    unfold header_value. rewrite <-join_snoc by done. done.
  - apply IH; [exact Hne|]. by rewrite Hstep, Hd.
Qed.

(** The WSGI application sees each request header once, under its
    environment name, with the values of repeated headers joined by commas (for
    non-empty values), and headers that are absent are absent. *)
Theorem wsgi_environ_headers scope ver body key :
  let hs := get_or (sc_headers scope) [] in
  Forall (fun v => v ≠ []) (named key hs) ->
  dict_get (_build_wsgi_environ scope ver body) ($"HTTP_" ++ key)
  = header_value (named key hs).
Proof.
  intros hs Hne. unfold _build_wsgi_environ.
  assert (Hbase : dict_get (base_environ scope ver body) ($"HTTP_" ++ key) = None).
  { unfold base_environ. destruct (get_or (sc_server scope) _) as [host port].
    apply dict_get_None. cbn [fmap list_fmap fst]. rewrite !elem_of_cons, elem_of_nil.
    intros H. destruct_or! H; discriminate. }
  pose proof (fold_headers _ key hs [] Hne Hbase) as Hf. cbn [Datatypes.app] in Hf.
  destruct (sc_client scope) as [[host port]|]; [|exact Hf].
  rewrite !dict_get_set_ne by discriminate. exact Hf.
Qed.

Lemma wsgi_environ_headers_witness :
  dict_get (_build_wsgi_environ
    (mkScope Http $"/" None None None None None None None
       (Some [($"x-a", $"1"); ($"x-b", $"3"); ($"X-A", $"2")]) None None false false) None [])
    ($"HTTP_" ++ $"X_A") = Some (EStr $"1,2").
Proof.
  rewrite wsgi_environ_headers; [reflexivity|].
  change (Forall (fun v : str => v ≠ []) [$"1"; $"2"]). repeat constructor; discriminate.
Defined.

(** Request bodies in any number of events. *)
Lemma read_body_chunks chunks last rest parts :
  read_body (((fun b => HttpRequest (Some b) (Some true)) <$> chunks)
             ++ HttpRequest (Some last) (Some false) :: rest) parts
  = Some (concat parts ++ concat chunks ++ last).
Proof.
  revert parts. induction chunks as [|c chunks IH]; intros parts; cbn [fmap list_fmap Datatypes.app read_body get_or concat].
  - destruct last; rewrite ?concat_app; cbn [concat]; by rewrite ?app_nil_r.
  - rewrite IH. destruct c as [|x c]; [done|]. rewrite concat_app. cbn [concat]. by rewrite app_nil_r, <-!app_assoc.
Qed.

(** The WSGI bridge answers every complete request with one complete
    response: the application gets the whole body in [wsgi.input] however it was
    split, and its status, headers and everything it wrote or yielded are sent
    in order; an application that fails at any point gives a 500. *)
Theorem wsgi_bridge_correct app ver scope chunks last rest :
  sc_type scope = Http ->
  let events := ((fun b => HttpRequest (Some b) (Some true)) <$> chunks)
                ++ HttpRequest (Some last) (Some false) :: rest in
  let env := _build_wsgi_environ scope ver (concat chunks ++ last) in
  dict_get env $"wsgi.input" = Some (EInput (concat chunks ++ last))
  ∧ (∀ e, rfold wsgi_step (mkWsgi 500 [] []) (app env) = Raise e ->
       call app ver scope events
       = Some (run_ok [ResponseStart 500 [($"content-type", $"text/plain")];
                       ResponseBody $"Internal Server Error" false]))
  ∧ (∀ s raw, rfold wsgi_step (mkWsgi 500 [] []) (app env) = Ok s ->
       raw_response_headers (response_headers s) = Ok raw ->
       call app ver scope events
       = Some (run_ok [ResponseStart (status_code s) raw; ResponseBody (concat (body_parts s)) false])).
Proof.
  intros Hty events env. unfold call. rewrite decide_True by done. unfold events.
  rewrite read_body_chunks. cbn [concat Datatypes.app]. fold env. unfold _run_wsgi. split_and!.
  - unfold env, _build_wsgi_environ.
    assert (Hin : ∀ hs e, dict_get (foldl add_header e hs) $"wsgi.input" = dict_get e $"wsgi.input").
    { induction hs as [|[n v] hs IH]; intros e; [done|]. cbn [foldl]. rewrite IH. unfold add_header.
      split_code; rewrite dict_get_set_ne; (done || discriminate). }
    destruct (sc_client scope) as [[h p]|]; rewrite ?dict_get_set_ne by discriminate; rewrite Hin;
      unfold base_environ; by destruct (get_or (sc_server scope) _).
  - intros e ->. done.
  - intros s raw -> Hraw. by rewrite Hraw.
Qed.

Definition echo_app (env : environ) : list wsgi_action :=
  [StartResponse $"200 OK" [($"X-A", $"1")];
   Yield (match dict_get env $"wsgi.input" with Some (EInput b) => b | _ => [] end)].

Lemma wsgi_bridge_correct_witness :
  call echo_app None (mkScope Http $"/" None None None None None None None None None None false false)
    [HttpRequest (Some $"ab") (Some true); HttpRequest (Some $"c") (Some false)]
  = Some (run_ok [ResponseStart 200 [($"x-a", $"1")]; ResponseBody $"abc" false]).
Proof.
  destruct (wsgi_bridge_correct echo_app None
    (mkScope Http $"/" None None None None None None None None None None false false) [$"ab"] $"c" [] eq_refl)
    as (_ & _ & H).
  refine (H (mkWsgi 200 [($"X-A", $"1")] [$"abc"]) [($"x-a", $"1")] _ _); vm_compute; reflexivity.
Defined.
End Wsgi.
