(* ===== verification/WebSocketConn.v ===== *)
(** * WebSocketConn: the [WebSocket] class of [_websocket.py]

    The connection keeps the state of both sides; the channels are the events
    the client side has delivered ([inbox]) and the events sent ([outbox]).
    This is the path without a native connection object ([_cpp_ws] is [None]):
    every method sends and receives events of the ASGI channels.  With a native
    object the text and binary methods call it instead; it is the subject of
    [CppWs]. *)

From S2P Require Import Prelude PyStr Asgi Responses ExceptionHandler.

Inductive WebSocketState : Type := CONNECTING | CONNECTED | DISCONNECTED.

#[global] Instance WebSocketState_eq_dec : EqDecision WebSocketState.
Proof. solve_decision. Defined.

Definition state_name (s : WebSocketState) : str :=
  match s with
  | CONNECTING => $"CONNECTING"
  | CONNECTED => $"CONNECTED"
  | DISCONNECTED => $"DISCONNECTED"
  end.

Record WebSocket : Type := mkWs {
  client_state : WebSocketState;
  application_state : WebSocketState;
  inbox : list event;
  outbox : list message
}.

Definition websocket_init (events : list event) : WebSocket := mkWs CONNECTING CONNECTING events [].

(** A coroutine ends, or waits for an event that has not arrived. *)
Inductive outcome (A : Type) : Type :=
  | Done (r : result A)
  | Blocked.
Arguments Done {A} r.
Arguments Blocked {A}.

(** A small state monad for the methods. *)
Definition M (A : Type) : Type := WebSocket -> WebSocket * outcome A.

Definition ret {A} (a : A) : M A := fun w => (w, Done (Ok a)).
Definition raise {A} (e : exn) : M A := fun w => (w, Done (Raise e)).
Definition bind {A B} (m : M A) (f : A -> M B) : M B :=
  fun w =>
    match m w with
    | (w', Done (Ok a)) => f a w'
    | (w', Done (Raise e)) => (w', Done (Raise e))
    | (w', Blocked) => (w', Blocked)
    end.
Notation "'do!' x := m 'in' k" := (bind m (fun x => k))
  (at level 10, x pattern, m at level 100, k at level 200) : py_scope.

Definition get : M WebSocket := fun w => (w, Done (Ok w)).
Definition set_client (s : WebSocketState) : M unit :=
  fun w => (mkWs s (application_state w) (inbox w) (outbox w), Done (Ok tt)).
Definition set_application (s : WebSocketState) : M unit :=
  fun w => (mkWs (client_state w) s (inbox w) (outbox w), Done (Ok tt)).
Definition receive : M event :=
  fun w =>
    match inbox w with
    | [] => (w, Blocked)
    | e :: es => (mkWs (client_state w) (application_state w) es (outbox w), Done (Ok e))
    end.
Definition send (m : message) : M unit :=
  fun w => (mkWs (client_state w) (application_state w) (inbox w) (outbox w ++ [m]), Done (Ok tt)).
Definition lift {A} (r : result A) : M A := fun w => (w, Done r).

Definition event_type (e : event) : str :=
  match e with
  | HttpRequest _ _ => $"http.request"
  | HttpDisconnect => $"http.disconnect"
  | WsConnect => $"websocket.connect"
  | WsReceive _ _ => $"websocket.receive"
  | WsDisconnect _ _ => $"websocket.disconnect"
  | LifespanStartup => $"lifespan.startup"
  | LifespanShutdown => $"lifespan.shutdown"
  end.

Definition accept (subprotocol : option str) (headers : option raw_headers) : M unit :=
  do! w := get in
  do! _ :=
    if decide (client_state w = CONNECTING) then
      do! m := receive in
      match m with
      | WsConnect => set_client CONNECTED
      | _ => raise (RuntimeError ($"Expected 'websocket.connect', got '" ++ event_type m ++ $"'"))
      end
    else ret tt in
  do! _ := send (WsAccept subprotocol headers) in
  set_application CONNECTED.

Definition close (code : Z) (reason : option str) : M unit :=
  do! w := get in
  if bool_decide (application_state w = CONNECTING ∨ application_state w = CONNECTED) then
    do! _ := send (WsClose code reason) in
    set_application DISCONNECTED
  else ret tt.

Definition _assert_connected : M unit :=
  do! w := get in
  if negb (bool_decide (application_state w = CONNECTED)) then
    raise (RuntimeError ($"WebSocket is not connected (state=" ++ state_name (application_state w) ++ $")"))
  else if decide (client_state w = DISCONNECTED) then raise (WebSocketDisconnect 1000 [])
  else ret tt.

Definition _receive_message : M (option str * option bytes) :=
  do! w := get in
  if decide (client_state w = DISCONNECTED) then raise (WebSocketDisconnect 1000 [])
  else
    do! m := receive in
    match m with
    | WsReceive text data => ret (text, data)
    | WsDisconnect code reason =>
        do! _ := set_client DISCONNECTED in
        raise (WebSocketDisconnect (get_or code 1000) (get_or reason []))
    | _ => raise (RuntimeError ($"Unexpected ASGI message type: " ++ event_type m))
    end.

Definition send_text (data : str) : M unit :=
  do! _ := _assert_connected in send (WsSendText data).

Definition send_bytes (data : bytes) : M unit :=
  do! _ := _assert_connected in send (WsSendBytes data).

Definition no_text : exn := RuntimeError $"Expected text frame, got binary".
Definition no_binary : exn := RuntimeError $"Expected binary frame, got text".

Definition receive_text : M str :=
  do! _ := _assert_connected in
  do! (text, _) := _receive_message in
  match text with Some t => ret t | None => raise no_text end.

Definition receive_bytes : M bytes :=
  do! _ := _assert_connected in
  do! (_, data) := _receive_message in
  match data with Some d => ret d | None => raise no_binary end.

(** [__aiter__]: the messages yielded until a disconnect; one unit of fuel per
    message. *)
Inductive item : Type := IText (s : str) | IBytes (b : bytes).

Fixpoint aiter (fuel : nat) (w : WebSocket) : list item * WebSocket * outcome unit :=
  match fuel with
  | O => ([], w, Blocked)
  | S f =>
      match _receive_message w with
      | (w', Done (Ok (Some t, _))) => let '(l, w'', r) := aiter f w' in (IText t :: l, w'', r)
      | (w', Done (Ok (None, d))) => let '(l, w'', r) := aiter f w' in (IBytes (get_or d []) :: l, w'', r)
      | (w', Done (Raise (WebSocketDisconnect _ _))) => ([], w', Done (Ok tt))
      | (w', Done (Raise e)) => ([], w', Done (Raise e))
      | (w', Blocked) => ([], w', Blocked)
      end
  end.

(** JSON messages, over the serializers of the core and of the fallback. *)
Section json.
Context {J : Type} (core_ws_json : bool) (core_serialize : J -> result bytes) (json_dumps_str : J -> result str).
Context (loads_text : str -> result J) (loads_bytes : bytes -> result J).

Definition send_mode (text : bool) (b : bytes) : M unit :=
  if text then do! t := lift (utf8_decode_strict b) in send (WsSendText t)
  else send (WsSendBytes b).

(** The text of the fallback. *)
Definition send_fallback (data : J) (text : bool) : M unit :=
  do! t := lift (json_dumps_str data) in
  if text then send (WsSendText t) else do! b := lift (utf8_encode t) in send (WsSendBytes b).

(** The first attempt, where the core is there; its [ValueError] or [TypeError]
    is swallowed. *)
Definition send_json (data : J) (text : bool) : M unit :=
  do! _ := _assert_connected in
  if core_ws_json then
    fun w =>
      match (do! b := lift (core_serialize data) in send_mode text b) w with
      | (w', Done (Raise e)) =>
          if isinstance e $"ValueError" || isinstance e $"TypeError" then send_fallback data text w'
          else (w', Done (Raise e))
      | r => r
      end
  else send_fallback data text.

Definition receive_json (text : bool) : M J :=
  do! _ := _assert_connected in
  do! (t, d) := _receive_message in
  if text then match t with Some s => lift (loads_text s) | None => raise no_text end
  else match d with Some b => lift (loads_bytes b) | None => raise no_binary end.

(** ** The connection as a transition system *)
Inductive op : Type :=
  | OAccept (subprotocol : option str) (headers : option raw_headers)
  | OClose (code : Z) (reason : option str)
  | OSendText (data : str)
  | OSendBytes (data : bytes)
  | OReceiveText
  | OSendJson (data : J) (text : bool)
  | OReceiveBytes
  | OReceiveJson (text : bool)
  | OReceiveMessage.

Definition discard {A} (p : WebSocket * outcome A) : WebSocket * outcome unit :=
  (p.1, match p.2 with Done (Ok _) => Done (Ok tt) | Done (Raise e) => Done (Raise e) | Blocked => Blocked end).

Definition exec (o : op) (w : WebSocket) : WebSocket * outcome unit :=
  match o with
  | OAccept s h => accept s h w
  | OClose c r => close c r w
  | OSendText d => send_text d w
  | OSendBytes d => send_bytes d w
  | OReceiveText => discard (receive_text w)
  | OSendJson d t => send_json d t w
  | OReceiveBytes => discard (receive_bytes w)
  | OReceiveJson t => discard (receive_json t w)
  | OReceiveMessage => discard (_receive_message w)
  end.

(** The application calls a method that [allowed] permits, whatever comes of it,
    or the client delivers an event.  ([__aiter__] calls [_receive_message].) *)
Inductive step (allowed : op -> WebSocket -> Prop) : WebSocket -> WebSocket -> Prop :=
  | step_call o w : allowed o w -> step allowed w (exec o w).1
  | step_deliver e w :
      step allowed w (mkWs (client_state w) (application_state w) (inbox w ++ [e]) (outbox w)).

Inductive reachable (allowed : op -> WebSocket -> Prop) (events : list event) : WebSocket -> Prop :=
  | reach_init : reachable allowed events (websocket_init events)
  | reach_step w w' : reachable allowed events w -> step allowed w w' -> reachable allowed events w'.

(** Any call, and calls that accept only a connection that is being opened. *)
Definition any_call (_ : op) (_ : WebSocket) : Prop := True.
Definition accepts_opening (o : op) (w : WebSocket) : Prop :=
  match o with OAccept _ _ => application_state w = CONNECTING | _ => True end.

(** ** The protocol *)

(** The server side of the ASGI protocol as an automaton on the events sent: an
    accept opens the connection once, messages are sent while it is open, a
    close ends it, or refuses it before it was accepted. *)
Definition protocol_step (s : WebSocketState) (m : message) : option WebSocketState :=
  match m, s with
  | WsAccept _ _, CONNECTING => Some CONNECTED
  | WsClose _ _, (CONNECTING | CONNECTED) => Some DISCONNECTED
  | (WsSendText _ | WsSendBytes _), CONNECTED => Some CONNECTED
  | _, _ => None
  end.

Fixpoint protocol (s : WebSocketState) (ms : list message) : option WebSocketState :=
  match ms with
  | [] => Some s
  | m :: ms' => match protocol_step s m with Some s' => protocol s' ms' | None => None end
  end.

(** What the last accept or close among the events says. *)
Definition last_control (ms : list message) : WebSocketState :=
  foldl (fun s m => match m with WsAccept _ _ => CONNECTED | WsClose _ _ => DISCONNECTED | _ => s end) CONNECTING ms.

Definition is_send (m : message) : Prop := (∃ t, m = WsSendText t) ∨ (∃ b, m = WsSendBytes b).

(** An event that may follow the events [pre] if accepting is not guarded. *)
Definition follows (pre : list message) (m : message) : Prop :=
  (∃ sp h, m = WsAccept sp h)
  ∨ (∃ c r, m = WsClose c r) ∧ last_control pre ≠ DISCONNECTED
  ∨ is_send m ∧ last_control pre = CONNECTED.

Lemma protocol_app s a b :
  protocol s (a ++ b) = match protocol s a with Some s' => protocol s' b | None => None end.
Proof. revert s. induction a as [|m a IH]; intros s; simpl; [done|]. by destruct (protocol_step s m). Qed.

Lemma last_control_app a b :
  last_control (a ++ b)
  = foldl (fun s m => match m with WsAccept _ _ => CONNECTED | WsClose _ _ => DISCONNECTED | _ => s end) (last_control a) b.
Proof. unfold last_control. apply foldl_app. Qed.

(** The protocol, where it is followed, agrees with the last accept or close. *)
Lemma protocol_last_control ms s : protocol CONNECTING ms = Some s -> last_control ms = s.
Proof.
  revert s. induction ms as [|m ms IH] using rev_ind; intros s; [by intros [= <-]|].
  rewrite protocol_app, last_control_app. destruct (protocol CONNECTING ms) as [s'|]; [|done].
  rewrite (IH s' eq_refl). by destruct m, s'; simpl; intros [= <-].
Qed.

(** Unfolds the monad on a concrete method call. *)
Ltac run_ws :=
  unfold discard, accept, close, send_text, send_bytes, send_json, send_fallback, send_mode, receive_text,
    receive_bytes, receive_json, _assert_connected, _receive_message, bind, get, set_client, set_application, receive,
    send, ret, raise, lift; cbn [fst snd];
  repeat (case_match; simplify_eq/=; try done).

(** What one call does to the events sent and to the application state. *)
Definition sends (o : op) (w w' : WebSocket) : Prop :=
  outbox w' = outbox w ∧ application_state w' = application_state w
  ∨ (∃ sp h, o = OAccept sp h ∧ outbox w' = outbox w ++ [WsAccept sp h]) ∧ application_state w' = CONNECTED
  ∨ (∃ c r, outbox w' = outbox w ++ [WsClose c r]) ∧ application_state w ≠ DISCONNECTED
    ∧ application_state w' = DISCONNECTED
  ∨ (∃ m, outbox w' = outbox w ++ [m] ∧ is_send m) ∧ application_state w = CONNECTED
    ∧ application_state w' = CONNECTED.

Lemma assert_connected_spec {A} (k : M A) w :
  (∃ e, bind _assert_connected (fun _ => k) w = (w, Done (Raise e)))
  ∨ application_state w = CONNECTED ∧ bind _assert_connected (fun _ => k) w = k w.
Proof.
  unfold _assert_connected, bind, get, raise, ret. case_bool_decide; simpl; [destruct (decide _)|]; eauto.
Qed.

Lemma send_fallback_sends o d t w : application_state w = CONNECTED -> sends o w (send_fallback d t w).1.
Proof.
  intros Ha. unfold sends, is_send, send_fallback, bind, lift, send. destruct (json_dumps_str d) as [x|]; [|by left].
  destruct t; [|destruct (utf8_encode x); [|by left]]; right; right; right; rewrite Ha; simpl; eauto 10.
Qed.

Lemma send_json_sends o d t w : sends o w (send_json d t w).1.
Proof.
  unfold send_json.
  match goal with |- context [bind _assert_connected (fun _ => ?k)] =>
    destruct (assert_connected_spec k w) as [[e ->]|[Ha ->]] end; [by left|].
  destruct core_ws_json; [|by apply send_fallback_sends].
  destruct (bind (lift (core_serialize d)) (send_mode t) w) as [w' [[u|e]|]] eqn:E.
  - revert E. unfold bind, lift, send_mode, send. destruct (core_serialize d); [|done].
    unfold sends, is_send. destruct t; [unfold bind, lift; destruct (utf8_decode_strict _); [|done]|];
      intros [= <- <-]; right; right; right; rewrite Ha; simpl; eauto 10.
  - assert (w' = w) as ->.
    { revert E. unfold bind, lift, send_mode, send. destruct (core_serialize d); [|by intros [= <- _]].
      destruct t; [|done]. unfold bind, lift. destruct (utf8_decode_strict _); [done|by intros [= <- _]]. }
    destruct (isinstance e _ || isinstance e _); [by apply send_fallback_sends|by left].
  - exfalso. revert E. unfold bind, lift, send_mode, send. destruct (core_serialize d); [|done].
    destruct t; [|done]. unfold bind, lift. by destruct (utf8_decode_strict _).
Qed.

Lemma receive_message_quiet w : outbox (_receive_message w).1 = outbox w
  ∧ application_state (_receive_message w).1 = application_state w.
Proof. run_ws. Qed.

Lemma exec_sends o w : sends o w (exec o w).1.
Proof.
  destruct o as [sp h|c r|d|d| |d t| |t|]; cbn [exec]; [| | | |left| apply send_json_sends |left..].
  - unfold accept, bind, get, receive, set_client, send, set_application, ret, raise, sends.
    destruct (decide (client_state w = CONNECTING)); [|right; left; simpl; eauto].
    destruct (inbox w) as [|[] es]; simpl; auto. right; left; eauto.
  - unfold close, bind, get, send, set_application, ret, sends. case_bool_decide as Hc; [|by left].
    right; right; left. simpl. split; [eauto|]. split; [|done]. by intros E; rewrite E in Hc; destruct Hc.
  - unfold send_text. destruct (assert_connected_spec (send (WsSendText d)) w) as [[e ->]|[Ha ->]]; [by left|].
    right; right; right. unfold is_send. simpl. eauto 10.
  - unfold send_bytes. destruct (assert_connected_spec (send (WsSendBytes d)) w) as [[e ->]|[Ha ->]]; [by left|].
    right; right; right. unfold is_send. simpl. eauto 10.
  - run_ws.
  - run_ws.
  - unfold receive_json. unfold discard. cbn [fst]. run_ws.
  - exact (receive_message_quiet w).
Qed.

(** ** Reachable states *)
Definition orderly (w : WebSocket) : Prop :=
  application_state w = last_control (outbox w)
  ∧ ∀ pre m post, outbox w = pre ++ m :: post -> follows pre m.

Lemma orderly_snoc w w' m :
  orderly w -> outbox w' = outbox w ++ [m] -> follows (outbox w) m ->
  application_state w' = last_control (outbox w ++ [m]) -> orderly w'.
Proof.
  intros [_ Hf] Ho Hm Ha. split; [by rewrite Ho|]. intros pre m' post E. rewrite Ho in E.
  destruct post as [|y post] using rev_ind.
  - apply app_inj_tail in E as [<- <-]. done.
  - clear IHpost. rewrite app_comm_cons, app_assoc in E. apply app_inj_tail in E as [E _]. by eapply Hf.
Qed.

Lemma sends_orderly o w w' : sends o w w' -> orderly w -> orderly w'.
Proof.
  intros Hs Hw. pose proof Hw as [Ha Hf]. unfold sends in Hs.
  destruct Hs as [[Ho Ea]|[[(sp & h & _ & Ho) Ea]|[[(c & r & Ho) [Hd Ea]]|[(m & Ho & Hm) [Hd Ea]]]]].
  - split; rewrite Ho, ?Ea; done.
  - eapply orderly_snoc; [done|done| |by rewrite last_control_app]. left; eauto.
  - eapply orderly_snoc; [done|done| |by rewrite last_control_app]. right; left. rewrite <-Ha. eauto.
  - eapply orderly_snoc; [done|done| |].
    + right; right. by rewrite <-Ha.
    + rewrite last_control_app, <-Ha, Hd. by destruct Hm as [[? ->]|[? ->]].
Qed.

Lemma reachable_orderly P events w : reachable P events w -> orderly w.
Proof.
  induction 1 as [|w w' _ IH Hs]; [split; [done|intros [|? ?]; done]|].
  destruct Hs; [by eapply sends_orderly; [apply exec_sends|]|exact IH].
Qed.

Lemma reachable_protocol events w :
  reachable accepts_opening events w -> protocol CONNECTING (outbox w) = Some (application_state w).
Proof.
  induction 1 as [|w w' _ IH Hs]; [done|]. destruct Hs as [o w Ho|e w]; [|exact IH].
  destruct (exec_sends o w) as [[E Ea]|[[(sp & h & -> & E) Ea]|[[(c & r & E) [Hd Ea]]|[(m & E & Hm) [Hd Ea]]]]];
    rewrite E, Ea, ?protocol_app, ?IH; simpl.
  - done.
  - cbn [accepts_opening] in Ho. by rewrite Ho.
  - by destruct (application_state w).
  - rewrite Hd. by destruct Hm as [[? ->]|[? ->]].
Qed.

(** C20: the events the connection of [_websocket.py] sends through the ASGI
    channels, for every sequence of its methods and everything the client
    delivers, JSON messages included.  If the application accepts only a
    connection that is being opened, they follow the protocol, whose state is the
    recorded application state: one accept, then messages, then at most one
    close, or a close alone.  [accept] itself does not test the state, so that an
    application may break the protocol by accepting again; nothing else breaks
    it: the first event outside the protocol is always an accept, every message
    is sent while the last accept or close was an accept, and no close follows a
    close without an accept between them. *)
Theorem websocket_protocol_invariant events w :
  reachable any_call events w ->
  (reachable accepts_opening events w -> protocol CONNECTING (outbox w) = Some (application_state w))
  ∧ application_state w = last_control (outbox w)
  ∧ (∀ pre m post, outbox w = pre ++ m :: post ->
       (is_send m -> last_control pre = CONNECTED)
       ∧ (∀ c r, m = WsClose c r -> last_control pre ≠ DISCONNECTED)
       ∧ (∀ s, protocol CONNECTING pre = Some s -> protocol_step s m = None -> ∃ sp h, m = WsAccept sp h))
  ∧ (∀ sp h, client_state w ≠ CONNECTING ->
       exec (OAccept sp h) w
       = (mkWs (client_state w) CONNECTED (inbox w) (outbox w ++ [WsAccept sp h]), Done (Ok tt))).
Proof.
  intros Hr. destruct (reachable_orderly _ _ _ Hr) as [Ha Hf]. split_and!; [apply reachable_protocol|done| |].
  - intros pre m post Ho. specialize (Hf pre m post Ho) as Hm. unfold follows in Hm. split_and!.
    + intros Hs. destruct Hm as [(sp & h & ->)|[[(c & r & ->) _]|[_ ?]]]; [..|done]; by destruct Hs as [[? ?]|[? ?]].
    + intros c r ->. destruct Hm as [(sp & h & ?)|[[_ ?]|[[[? ?]|[? ?]] _]]]; done.
    + intros s Hp%protocol_last_control Hn. rewrite Hp in Hm.
      destruct Hm as [?|[[(c & r & ->) Hs]|[Hs ->]]]; [done|by destruct s|by destruct Hs as [[? ->]|[? ->]]].
  - intros sp h Hc. cbn [exec]. unfold accept, bind, get. rewrite decide_False by done. reflexivity.
Qed.
(** ** Receiving *)

(** The messages of the inbox up to the first disconnect. *)
Definition item_of (text : option str) (data : option bytes) : item :=
  match text with Some t => IText t | None => IBytes (get_or data []) end.

(** Iterating over a connection yields every message the client sent, in
    order, up to its disconnect, and then ends; afterwards the client side is
    disconnected, what came after the disconnect is not consumed, and the
    connection neither sends nor receives any more. *)
Theorem websocket_iteration_complete msgs code reason rest w fuel :
  client_state w ≠ DISCONNECTED ->
  inbox w = ((fun m => WsReceive m.1 m.2) <$> msgs) ++ WsDisconnect code reason :: rest ->
  (length msgs < fuel)%nat ->
  let w' := mkWs DISCONNECTED (application_state w) rest (outbox w) in
  aiter fuel w = ((fun m => item_of m.1 m.2) <$> msgs, w', Done (Ok tt))
  ∧ (∀ o, inbox (exec o w').1 = rest ∧ client_state (exec o w').1 = DISCONNECTED)
  ∧ (∀ d, ∃ e, exec (OSendText d) w' = (w', Done (Raise e)) ∧ exec (OSendBytes []) w' = (w', Done (Raise e)))
  ∧ exec OReceiveMessage w' = (w', Done (Raise (WebSocketDisconnect 1000 []))).
Proof.
  intros Hc Hin Hf w'. split_and!.
  - subst w'. revert w fuel Hc Hin Hf. induction msgs as [|[t d] msgs IH]; intros w [|f] Hc Hin Hf;
      csimpl in *; try lia.
    + unfold _receive_message, bind, get. cbn [fst snd]. rewrite decide_False by done.
      unfold receive. rewrite Hin. reflexivity.
    + unfold _receive_message, bind, get. cbn [fst snd]. rewrite decide_False by done.
      unfold receive. rewrite Hin. unfold ret.
      rewrite (IH (mkWs (client_state w) (application_state w) _ (outbox w)) f); [|done|done|lia].
      by destruct t.
  - intros o. subst w'. destruct o; cbn [exec]; run_ws.
  - intros d. subst w'. unfold exec, send_text, send_bytes, _assert_connected, bind, get.
    cbn [application_state client_state].
    destruct (negb (bool_decide (application_state w = CONNECTED))); eexists; split; reflexivity.
  - reflexivity.
Qed.

End json.

Definition chat_exec : op (J:=str) -> WebSocket -> WebSocket * outcome unit :=
  exec true utf8_encode Ok Ok utf8_decode_strict.
Definition chat_ops : WebSocket :=
  let w := websocket_init [WsConnect; WsReceive (Some $"hi") None] in
  (chat_exec (OClose 1000 None) (chat_exec (OSendJson $"1" true)
     (chat_exec OReceiveText (chat_exec (OAccept None None) w).1).1).1).1.

Lemma websocket_protocol_invariant_witness :
  outbox chat_ops = [WsAccept None None; WsSendText $"1"; WsClose 1000 None]
  ∧ protocol CONNECTING (outbox chat_ops) = Some (application_state chat_ops)
  ∧ protocol CONNECTING (outbox (chat_exec (OAccept None None) chat_ops).1) = None.
Proof.
  assert (Hc : ∀ P, (∀ o w, accepts_opening (J:=str) o w -> P o w) ->
    reachable true utf8_encode Ok Ok utf8_decode_strict P [WsConnect; WsReceive (Some $"hi") None] chat_ops).
  { intros P HP. unfold chat_ops. do 4 (eapply reach_step; [|apply step_call, HP; done]). apply reach_init. }
  destruct (websocket_protocol_invariant true utf8_encode Ok Ok utf8_decode_strict
    [WsConnect; WsReceive (Some $"hi") None] chat_ops (Hc _ (fun _ _ _ => I))) as (Hp & _ & _ & Hacc).
  split; [reflexivity|]. split; [by apply Hp, Hc|].
  unfold chat_exec. rewrite Hacc by discriminate. reflexivity.
Defined.

Lemma websocket_iteration_complete_witness :
  aiter 3 (mkWs CONNECTED CONNECTED
    [WsReceive (Some $"a") None; WsReceive None (Some $"b"); WsDisconnect (Some 1001) None; WsConnect] [])
  = ([IText $"a"; IBytes $"b"], mkWs DISCONNECTED CONNECTED [WsConnect] [], Done (Ok tt)).
Proof.
  destruct (websocket_iteration_complete true utf8_encode Ok Ok utf8_decode_strict [(Some $"a", None); (None, Some $"b")] (Some 1001) None [WsConnect]
    (mkWs CONNECTED CONNECTED
      [WsReceive (Some $"a") None; WsReceive None (Some $"b"); WsDisconnect (Some 1001) None; WsConnect] []) 3
    ltac:(discriminate) eq_refl ltac:(simpl; lia)) as (H & _). exact H.
Defined.
