(* ===== verification/MultiWorker.v ===== *)
(** * MultiWorker: the supervisor of worker processes

    [_multiworker.py]: the restart policy with its backoff, the loop of the
    fork supervisor, its shutdown, and the accept loop that hands connections
    to the workers.  The operating system is the environment of the model:
    every turn of a loop is given what [waitpid], [fork], the clock and the
    signals do in it.  Times are in tenths of a second, the unit of the
    backoff. *)

From S2P Require Import Prelude.

(** ** Restart policy *)

(** The delay before a restart: [0.1 * 2 ** (streak - 5)] from the fifth quick
    exit in a row on, at most 2 seconds.  The product converts the power to a
    float, which fails from [2 ** 1024] on. *)
Definition backoff (streak : Z) : result Z :=
  if bool_decide (streak >= 5) then
    if bool_decide (streak - 5 >= 1024) then Raise OverflowError
    else Ok (Z.min 20 (2 ^ (streak - 5)))
  else Ok 0.

(** The streak after an exit at [now] of a worker started at [started]. *)
Definition next_streak (streak now started : Z) : Z :=
  if bool_decide (now - started >= 100) then 0 else streak + 1.

(** ** The supervisor *)

(** [children] maps process ids to worker ids; the dictionaries indexed by
    worker are total functions stored as [gmap]s; sockets are numbers. *)
Record supervisor : Type := mkSup {
  children : list (Z * Z);
  restart_streak : gmap Z Z;
  worker_started_at : gmap Z Z;
  parent_socks : list (option Z);
  use_reuseport : bool;
  _shutdown : bool;
  slept : Z
}.

Inductive wait_result : Type :=
  | NoChange
  | Exited (pid : Z)
  | ChildProcessError
  | InterruptedError.

(** What happens around one turn of the loop: whether a signal has arrived
    before the loop tests the flag, the answer of [waitpid], whether a signal
    arrives before the flag is tested again, the clock, the process id [fork]
    returns, the socket of a new pair, the clock after the restart, and whether
    the system refuses the socket pair or the process ([OSError]). *)
Record turn : Type := mkTurn {
  signalled : bool;
  waited : wait_result;
  signalled_again : bool;
  now : Z;
  new_pid : Z;
  new_sock : Z;
  restarted_at : Z;
  refused : bool
}.

(** [Refused]: the [OSError] of [socketpair] or [fork], which nothing catches. *)
Inductive outcome : Type := Continue | Leave | Crash (e : exn) | Refused.

Definition with_shutdown (s : supervisor) (b : bool) : supervisor :=
  mkSup (children s) (restart_streak s) (worker_started_at s) (parent_socks s) (use_reuseport s)
    (_shutdown s || b) (slept s).

Definition sleep (s : supervisor) (d : Z) : supervisor :=
  mkSup (children s) (restart_streak s) (worker_started_at s) (parent_socks s) (use_reuseport s)
    (_shutdown s) (slept s + d).

Definition with_children (s : supervisor) (c : list (Z * Z)) : supervisor :=
  mkSup c (restart_streak s) (worker_started_at s) (parent_socks s) (use_reuseport s) (_shutdown s) (slept s).

(** The restart of worker [id] in the parent. *)
Definition restart (s : supervisor) (id : Z) (t : turn) : supervisor :=
  let socks := if use_reuseport s then parent_socks s
               else <[Z.to_nat id := Some (new_sock t)]> (<[Z.to_nat id := None]> (parent_socks s)) in
  mkSup (dict_set (children s) (new_pid t) id) (restart_streak s) (<[id := restarted_at t]> (worker_started_at s))
    socks (use_reuseport s) (_shutdown s) (slept s).

(** A restart the system refuses: the old socket has been closed. *)
Definition no_restart (s : supervisor) (id : Z) : supervisor :=
  mkSup (children s) (restart_streak s) (worker_started_at s)
    (if use_reuseport s then parent_socks s else <[Z.to_nat id := None]> (parent_socks s))
    (use_reuseport s) (_shutdown s) (slept s).

(** One turn of the loop of [_run_fork_supervisor]. *)
Definition supervise (s0 : supervisor) (t : turn) : supervisor * outcome :=
  let s := with_shutdown s0 (signalled t) in
  if _shutdown s || bool_decide (children s = []) then (s, Leave)
  else
    match waited t with
    | ChildProcessError => (s, Leave)
    | InterruptedError => (s, Continue)
    | NoChange => (sleep s 10, Continue)
    | Exited pid =>
        match dict_get (children s) pid with
        | None => (sleep s 10, Continue)
        | Some id =>
            let s1 := with_shutdown (with_children s (dict_del (children s) pid)) (signalled_again t) in
            if _shutdown s1 then (s1, Leave)
            else
              let started := default (now t) (worker_started_at s1 !! id) in
              let streak := next_streak (default 0 (restart_streak s1 !! id)) (now t) started in
              let s2 := mkSup (children s1) (<[id := streak]> (restart_streak s1)) (worker_started_at s1)
                          (parent_socks s1) (use_reuseport s1) (_shutdown s1) (slept s1) in
              match backoff streak with
              | Raise e => (s2, Crash e)
              | Ok delay =>
                  if refused t then (no_restart (sleep s2 delay) id, Refused)
                  else (restart (sleep s2 delay) id t, Continue)
              end
        end
    end.

(** The loop as a whole. *)
Fixpoint run_loop (s : supervisor) (ts : list turn) : supervisor * outcome :=
  match ts with
  | [] => (s, Continue)
  | t :: ts' =>
      match supervise s t with
      | (s', Continue) => run_loop s' ts'
      | r => r
      end
  end.

(** The start: one process per worker. *)
Fixpoint start_workers (id : Z) (pids : list (Z * Z)) (s : supervisor) : supervisor :=
  match pids with
  | [] => s
  | (pid, at_) :: pids' =>
      start_workers (id + 1) pids'
        (mkSup (dict_set (children s) pid id) (restart_streak s) (<[id := at_]> (worker_started_at s))
           (parent_socks s) (use_reuseport s) (_shutdown s) (slept s))
  end.

Definition initial (workers : Z) (reuseport : bool) (socks : list Z) : supervisor :=
  mkSup [] (list_to_map ((fun i => (Z.of_nat i, 0)) <$> seq 0 (Z.to_nat workers))) ∅
    (if reuseport then [] else Some <$> socks) reuseport false 0.

(** ** Shutdown *)

(** What the parent does to a process. *)
Inductive action : Type := Terminate (pid : Z) | Reaped (pid : Z) | Kill (pid : Z).

(** The wait loop: [None] is [waitpid] returning 0, [Some pid] a process that
    exited; the loop ends when no child is left, at the deadline (the end of
    the list) or on [ChildProcessError] ([stop]). *)
Fixpoint reap (ps : list (Z * Z)) (waits : list (option Z)) : list (Z * Z) * list action :=
  match ps, waits with
  | [], _ | _, [] => (ps, [])
  | _, None :: waits' => reap ps waits'
  | _, Some pid :: waits' => let '(ps', acts) := reap (dict_del ps pid) waits' in (ps', Reaped pid :: acts)
  end.

Definition shutdown (s : supervisor) (waits : list (option Z)) : list action :=
  let '(remaining, acts) := reap (children s) waits in
  (Terminate <$> (children s).*1) ++ acts ++ (Kill <$> remaining.*1).

(** ** Accepting connections *)

(** The inner loop of [_master_accept_loop]: the first live worker from [idx]
    on, looking at every worker once, and the new index. *)
Fixpoint pick (n : nat) (socks : list (option Z)) (idx : Z) : option Z * Z :=
  match n with
  | O => (None, idx)
  | S n' =>
      match socks !! Z.to_nat (idx mod Z.of_nat (length socks)) with
      | Some (Some k) => (Some k, idx + 1)
      | _ => pick n' socks (idx + 1)
      end
  end.

Definition accept (socks : list (option Z)) (idx : Z) : option Z * Z := pick (length socks) socks idx.

(** The workers that get a sequence of connections. *)
Fixpoint accept_all (conns : nat) (socks : list (option Z)) (idx : Z) : list (option Z) :=
  match conns with
  | O => []
  | S c => let '(k, idx') := accept socks idx in k :: accept_all c socks idx'
  end.

(** ** The Windows supervisor *)

(** [procs] maps the identities of process objects to worker ids. *)
Record win_supervisor : Type := mkWin {
  procs : list (Z * Z);
  win_streak : gmap Z Z;
  win_started_at : gmap Z Z;
  win_shutdown : bool
}.

(** One turn: whether a signal has arrived when the loop tests the flag; for
    every process in order, [None] while it runs and, once it has exited,
    whether a signal has arrived by then and the clock; and for every restart
    the identity of the new process object and the clock after it. *)
Record win_turn : Type := mkWinTurn {
  win_signalled : bool;
  polls : list (option (bool * Z));
  spawns : list (Z * Z)
}.

(** The polling pass, over a copy of the items of [procs]. *)
Fixpoint poll_all (s : win_supervisor) (items : list (Z * Z)) (ps : list (option (bool * Z)))
    : win_supervisor * list Z :=
  match items, ps with
  | (key, id) :: items', Some (sig, now) :: ps' =>
      let down := win_shutdown s || sig in
      let gone := dict_del (procs s) key in
      if down then poll_all (mkWin gone (win_streak s) (win_started_at s) down) items' ps'
      else
        let started := default now (win_started_at s !! id) in
        let streak := next_streak (default 0 (win_streak s !! id)) now started in
        let '(s', rs) := poll_all (mkWin gone (<[id := streak]> (win_streak s)) (win_started_at s) down) items' ps' in
        (s', id :: rs)
  | _ :: items', None :: ps' => poll_all s items' ps'
  | _, _ => (s, [])
  end.

(** The restarts. *)
Fixpoint respawn (s : win_supervisor) (ids : list Z) (sp : list (Z * Z)) : result win_supervisor :=
  match ids, sp with
  | id :: ids', (key, at_) :: sp' =>
      let! _ := backoff (default 0 (win_streak s !! id)) in
      respawn (mkWin (dict_set (procs s) key id) (win_streak s) (<[id := at_]> (win_started_at s))
                 (win_shutdown s)) ids' sp'
  | _, _ => Ok s
  end.

(** One turn of the loop of [_run_subprocess_supervisor]: [None] when the
    loop is left. *)
Definition win_supervise (s0 : win_supervisor) (t : win_turn) : result (option win_supervisor) :=
  let s := mkWin (procs s0) (win_streak s0) (win_started_at s0) (win_shutdown s0 || win_signalled t) in
  if win_shutdown s || bool_decide (procs s = []) then Ok None
  else
    let '(s1, to_restart) := poll_all s (procs s) (polls t) in
    let! s2 := respawn s1 to_restart (spawns t) in
    Ok (Some s2).

(** ** Properties *)

(** Assigning a new key appends; deleting a present one removes one binding. *)
Lemma dict_set_fresh (d : list (Z * Z)) k v : k ∉ d.*1 -> dict_set d k v = d ++ [(k, v)].
Proof.
  induction d as [|[k' v'] d IH]; [done|]. csimpl. intros H.
  rewrite decide_False by set_solver. rewrite IH by set_solver. done.
Qed.

Lemma dict_del_perm (d : list (Z * Z)) k v : dict_get d k = Some v -> d ≡ₚ (k, v) :: dict_del d k.
Proof.
  induction d as [|[k' v'] d IH]; [done|]. simpl. case_decide as E; intros H.
  - by simplify_eq.
  - rewrite (IH H) at 1. apply Permutation_swap.
Qed.

(** Every worker id from 0 on is the worker of exactly one child process. *)
Definition supervised (n : nat) (ch : list (Z * Z)) : Prop :=
  dict_wf ch ∧ ch.*2 ≡ₚ seqZ 0 (Z.of_nat n).

Lemma supervised_restart n ch pid id new :
  supervised n ch -> dict_get ch pid = Some id -> new ∉ (dict_del ch pid).*1 ->
  supervised n (dict_set (dict_del ch pid) new id).
Proof.
  intros [Hwf Hp] Hg Hn. split; [by apply dict_set_wf, dict_del_wf|].
  rewrite dict_set_fresh, fmap_app by done. rewrite <-Hp.
  pose proof (dict_del_perm ch pid id Hg) as Hd. apply (fmap_Permutation snd) in Hd.
  rewrite Hd. csimpl. by rewrite (Permutation_app_comm _ [id]).
Qed.

(** [fork] gives the parent a process id that no child it has not waited for
    has. *)
Definition fork_fresh (s : supervisor) (t : turn) : Prop :=
  match waited t with
  | Exited pid => new_pid t ∉ (dict_del (children s) pid).*1
  | _ => True
  end.

Fixpoint forks_fresh (s : supervisor) (ts : list turn) : Prop :=
  match ts with
  | [] => True
  | t :: ts' => fork_fresh s t ∧ forks_fresh (supervise s t).1 ts'
  end.

Ltac supervise_cases := unfold supervise; repeat (case_match; simplify_eq/=; try done).

Lemma supervise_keeps n s t s' :
  supervised n (children s) -> fork_fresh s t -> supervise s t = (s', Continue) ->
  supervised n (children s').
Proof.
  unfold fork_fresh. intros Hs Hf. supervise_cases; intros; simplify_eq/=; try done.
  eauto using supervised_restart.
Qed.

Lemma supervise_wf s t : dict_wf (children s) -> dict_wf (children (supervise s t).1).
Proof. intros Hs. supervise_cases; auto using dict_set_wf, dict_del_wf. Qed.

Lemma run_loop_wf ts s : dict_wf (children s) -> dict_wf (children (run_loop s ts).1).
Proof.
  revert s. induction ts as [|t ts IH]; intros s Hs; [done|]. simpl.
  pose proof (supervise_wf s t Hs). destruct (supervise s t) as [s1 []]; auto.
Qed.

(** The loop is left at a signal, when the system knows no child, or with no
    child left. *)
Lemma supervise_leaves s t s' :
  supervise s t = (s', Leave) -> _shutdown s' = true ∨ waited t = ChildProcessError ∨ children s = [].
Proof.
  supervise_cases; intros; simplify_eq/=; auto.
  match goal with H : _ || _ = true |- _ => apply orb_true_iff in H as [?|?%bool_decide_eq_true_1] end; auto.
Qed.

(** Bounds of the policy. *)
Lemma backoff_Ok streak : streak < 1029 -> ∃ d, backoff streak = Ok d ∧ 0 ≤ d ≤ 20.
Proof.
  intros H. unfold backoff. repeat case_bool_decide; try lia; eexists; (split; [done|]); [|lia].
  pose proof (Z.pow_pos_nonneg 2 (streak - 5)). lia.
Qed.

Lemma backoff_Raise streak : 1029 ≤ streak -> backoff streak = Raise OverflowError.
Proof. intros. unfold backoff. repeat case_bool_decide; try lia; done. Qed.

Lemma backoff_mono a b da db :
  a ≤ b -> backoff a = Ok da -> backoff b = Ok db -> da ≤ db.
Proof.
  unfold backoff. intros. repeat case_bool_decide; simplify_eq; try lia.
  apply Z.min_le_compat_l, Z.pow_le_mono_r; lia.
Qed.

(** No worker has had more than [k] quick exits in a row. *)
Definition streaks_below (k : Z) (s : supervisor) : Prop :=
  map_Forall (fun _ v => v ≤ k) (restart_streak s) ∧ 0 ≤ k.

Lemma next_streak_le streak now started k :
  0 ≤ k -> streak ≤ k -> next_streak streak now started ≤ k + 1.
Proof. unfold next_streak. case_bool_decide; lia. Qed.

Lemma default_streak k s id : streaks_below k s -> default 0 (restart_streak s !! id) ≤ k.
Proof. intros [H ?]. destruct (_ !! _) eqn:E; simpl; [by eapply H|done]. Qed.

Lemma streaks_below_weaken k s : streaks_below k s -> streaks_below (k + 1) s.
Proof.
  intros [H ?]. split; [|lia]. eapply map_Forall_impl; [done|]. simpl. lia.
Qed.

(** A turn adds at most one to a streak and sleeps at most 2 seconds; it
    cannot crash while the streaks are below 1028. *)
Lemma supervise_bounded k s t :
  streaks_below k s -> k < 1028 ->
  (∀ e, (supervise s t).2 ≠ Crash e) ∧ streaks_below (k + 1) (supervise s t).1 ∧
  slept s ≤ slept (supervise s t).1 ≤ slept s + 20.
Proof.
  intros Hb Hk. pose proof (streaks_below_weaken _ _ Hb) as Hb1. pose proof Hb as [Hm Hk0].
  unfold supervise.
  repeat (case_match; simplify_eq/=; try (split_and!; [done|done|lia|lia])).
  all: pose proof (next_streak_le _ (now t) (default (now t) (worker_started_at s !! z)) k Hk0
         (default_streak _ _ z Hb)) as Hn.
  all: destruct (backoff_Ok _ (Z.le_lt_trans _ _ 1029 Hn ltac:(lia))) as (d & Hd & ?);
    rewrite Hd in *; simplify_eq/=.
  all: split_and!; [done| |lia|lia]; split; [|lia]; by apply map_Forall_insert_2; [|apply Hb1].
Qed.

Lemma run_loop_bounded ts k s :
  streaks_below k s -> k + Z.of_nat (length ts) <= 1028 ->
  (∀ e, (run_loop s ts).2 ≠ Crash e) ∧
  slept s ≤ slept (run_loop s ts).1 ≤ slept s + 20 * Z.of_nat (length ts).
Proof.
  revert k s. induction ts as [|t ts IH]; intros k s Hb Hl; csimpl in *; [split; [done|lia]|].
  destruct (supervise_bounded k s t Hb) as (Hc & Hb' & Hs); [lia|].
  destruct (supervise s t) as [s' []]; simpl in *.
  - destruct (IH (k + 1) s' Hb') as [? ?]; [lia|]. split; [done|lia].
  - split; [done|lia].
  - by edestruct Hc.
  - split; [done|lia].
Qed.

(** A crash loop: one process that exits at once, again and again, at time 0. *)
Definition crash_turn (pid : Z) : turn := mkTurn false (Exited pid) false 0 pid 0 0 false.

Lemma run_loop_keeps n ts s s' :
  supervised n (children s) -> forks_fresh s ts -> run_loop s ts = (s', Continue) ->
  supervised n (children s').
Proof.
  revert s. induction ts as [|t ts IH]; simpl; intros s Hs Hf; [intros; by simplify_eq|].
  destruct Hf as [Ht Hf]. destruct (supervise s t) as [s1 []] eqn:E; try done.
  intros H. eapply IH; [|done..]. by eapply supervise_keeps.
Qed.

Lemma run_loop_leaves n ts s s' :
  (0 < n)%nat -> supervised n (children s) -> forks_fresh s ts -> run_loop s ts = (s', Leave) ->
  _shutdown s' = true ∨ Exists (fun t => waited t = ChildProcessError) ts.
Proof.
  intros Hn. revert s. induction ts as [|t ts IH]; simpl; intros s Hs Hf; [done|].
  destruct Hf as [Ht Hf]. destruct (supervise s t) as [s1 []] eqn:E; try done.
  - intros H. destruct (IH s1) as [?|?]; eauto using supervise_keeps.
  - intros ?; simplify_eq. apply supervise_leaves in E as [?|[?|E]]; eauto.
    destruct Hs as [_ Hs]. rewrite E in Hs. apply Permutation_length in Hs.
    rewrite length_seqZ in Hs. simpl in Hs. lia.
Qed.

Lemma start_workers_children pids s id :
  NoDup ((children s).*1 ++ pids.*1) ->
  children (start_workers id pids s)
  = children s ++ zip pids.*1 (seqZ id (Z.of_nat (length pids))).
Proof.
  revert s id. induction pids as [|[pid at_] pids IH]; intros s id H; csimpl in *; [by rewrite app_nil_r|].
  assert (pid ∉ (children s).*1) as Hp.
  { apply NoDup_app in H as (_ & H & _). intros Hin. eapply (H pid); [done|set_solver]. }
  rewrite IH; simpl.
  - rewrite dict_set_fresh, <-app_assoc by done. simpl.
    rewrite (seqZ_cons id) by lia. repeat f_equal; lia.
  - rewrite dict_set_fresh, fmap_app by done. by rewrite <-app_assoc.
Qed.

Lemma start_workers_supervised pids reuseport socks :
  NoDup pids.*1 ->
  supervised (length pids)
    (children (start_workers 0 pids (initial (Z.of_nat (length pids)) reuseport socks))).
Proof.
  intros H. rewrite start_workers_children by done. simpl. unfold supervised, dict_wf.
  rewrite fst_zip, snd_zip; [done|rewrite length_seqZ, length_fmap; lia..].
Qed.

Lemma start_workers_streak pids s id :
  restart_streak (start_workers id pids s) = restart_streak s ∧ slept (start_workers id pids s) = slept s.
Proof. revert s id. induction pids as [|[??] pids IH]; intros; simpl; [done|].
  edestruct IH as [-> ->]. done.
Qed.

Lemma initial_streaks n reuseport socks : streaks_below 0 (initial n reuseport socks).
Proof.
  split; [|done]. intros i x H. simpl in H. apply elem_of_list_to_map_2 in H.
  apply list_elem_of_fmap in H as (? & ? & _). by simplify_eq.
Qed.

Lemma dict_del_keys_subseteq (d : list (Z * Z)) k : (dict_del d k).*1 ⊆ d.*1.
Proof. induction d as [|[k' v'] d IH]; [done|]. csimpl. case_decide; csimpl; set_solver. Qed.

Lemma dict_del_keys_gone (d : list (Z * Z)) k : dict_wf d -> k ∉ (dict_del d k).*1.
Proof. intros H. rewrite dict_keys_del by done. by intros [? _]%list_elem_of_filter. Qed.

Lemma reap_cons ps w waits :
  ps ≠ [] ->
  reap ps (w :: waits)
  = match w with
    | None => reap ps waits
    | Some pid => ((reap (dict_del ps pid) waits).1, Reaped pid :: (reap (dict_del ps pid) waits).2)
    end.
Proof. destruct ps, w; try done. intros _. cbn [reap]. by destruct (reap _ waits). Qed.

Lemma reap_subseteq waits ps : (reap ps waits).1.*1 ⊆ ps.*1.
Proof.
  revert ps. induction waits as [|w waits IH]; intros ps; (destruct (decide (ps = [])) as [->|Hps]; [done|]).
  - by destruct ps.
  - rewrite reap_cons by done. destruct w; simpl; [|done]. etrans; [apply IH|apply dict_del_keys_subseteq].
Qed.

(** Every process is accounted for: reaped, or still a child, but not both. *)
Lemma reap_accounts waits ps pid :
  dict_wf ps -> pid ∈ ps.*1 -> (Reaped pid ∈ (reap ps waits).2 <-> pid ∉ (reap ps waits).1.*1).
Proof.
  revert ps. induction waits as [|w waits IH]; intros ps Hwf Hin;
    (destruct (decide (ps = [])) as [->|Hps]; [set_solver|]).
  - destruct ps; [done|]. simpl in *. set_solver.
  - rewrite reap_cons by done. destruct w as [q|]; [|by apply IH]. simpl.
    destruct (decide (pid = q)) as [->|Hne].
    + split; [|set_solver]. intros _ Hq%reap_subseteq. by eapply dict_del_keys_gone.
    + rewrite <-IH; [set_solver|by apply dict_del_wf|].
      rewrite dict_keys_del by done. apply list_elem_of_filter. done.
Qed.

Lemma elem_of_actions (ps : list Z) (acts : list action) (rs : list Z) (a : action) :
  a ∈ (Terminate <$> ps) ++ acts ++ (Kill <$> rs) <->
  (∃ p, a = Terminate p ∧ p ∈ ps) ∨ a ∈ acts ∨ (∃ p, a = Kill p ∧ p ∈ rs).
Proof. rewrite !elem_of_app, !list_elem_of_fmap. done. Qed.

Lemma reap_only_reaps waits ps a : a ∈ (reap ps waits).2 -> ∃ p, a = Reaped p.
Proof.
  revert ps. induction waits as [|w waits IH]; intros ps; (destruct (decide (ps = [])) as [->|Hps]; [set_solver|]).
  - destruct ps; set_solver.
  - rewrite reap_cons by done. destruct w; simpl; [|apply IH].
    intros [->|?]%elem_of_cons; eauto.
Qed.

Lemma shutdown_accounts s waits pid :
  dict_wf (children s) -> pid ∈ (children s).*1 ->
  Terminate pid ∈ shutdown s waits ∧ (Kill pid ∈ shutdown s waits <-> Reaped pid ∉ shutdown s waits).
Proof.
  intros Hwf Hin. unfold shutdown.
  pose proof (reap_accounts waits _ pid Hwf Hin) as Ha.
  pose proof (reap_only_reaps waits (children s)) as Ho.
  destruct (reap (children s) waits) as [remaining acts]. simpl in *. rewrite !elem_of_actions.
  split; [eauto|]. split.
  - intros [(? & ? & _)|[(? & ?)%Ho|(? & ? & Hp)]]; simplify_eq.
    intros [(? & ? & _)|[H|(? & ? & _)]]; simplify_eq. by apply Ha in H.
  - intros H. right; right. exists pid. split; [done|]. destruct (decide (pid ∈ remaining.*1)) as [|Hn]; [done|].
    destruct H. right; left. by apply Ha.
Qed.

(** ** Accepting *)

Definition live (socks : list (option Z)) (i : Z) (k : Z) : Prop :=
  socks !! Z.to_nat (i mod Z.of_nat (length socks)) = Some (Some k).

Lemma pick_spec n socks idx :
  match pick n socks idx with
  | (Some k, idx') =>
      ∃ j, 0 ≤ j < Z.of_nat n ∧ idx' = idx + j + 1 ∧ live socks (idx + j) k ∧
           ∀ i k', 0 ≤ i < j -> ~ live socks (idx + i) k'
  | (None, idx') => idx' = idx + Z.of_nat n ∧ ∀ i k', 0 ≤ i < Z.of_nat n -> ~ live socks (idx + i) k'
  end.
Proof.
  revert idx. induction n as [|n IH]; intros idx; [simpl; split; [lia|intros; lia]|].
  specialize (IH (idx + 1)). cbn [pick].
  assert ((∃ k, live socks idx k) ∨ ∀ k, ~ live socks idx k) as [[k Hk]|Hk].
  { unfold live. destruct (socks !! _) as [[k|]|]; [left; by exists k|right; congruence..]. }
  - unfold live in Hk. rewrite Hk. exists 0. rewrite Z.add_0_r. split_and!; [lia..|done|intros; lia].
  - replace (match socks !! _ with Some (Some k) => (Some k, idx + 1) | _ => pick n socks (idx + 1) end)
      with (pick n socks (idx + 1)); [|unfold live in Hk; by destruct (socks !! _) as [[]|]; [edestruct Hk|..]].
    assert (∀ j, (∀ i k', 0 ≤ i < j -> ~ live socks (idx + 1 + i) k') ->
              ∀ i k', 0 ≤ i < j + 1 -> ~ live socks (idx + i) k') as Hstep.
    { intros j H i k' Hi. destruct (decide (i = 0)) as [->|]; [rewrite Z.add_0_r; apply Hk|].
      replace (idx + i) with (idx + 1 + (i - 1)) by lia. apply H. lia. }
    destruct (pick n socks (idx + 1)) as [[k|] idx'].
    + destruct IH as (j & ? & ? & Hl & Hn). exists (j + 1). split_and!; [lia..| |by apply Hstep].
      by replace (idx + (j + 1)) with (idx + 1 + j) by lia.
    + destruct IH as [? Hn]. split; [lia|]. intros i k' Hi. apply (Hstep _ Hn). lia.
Qed.

(** Some worker takes the connection whenever one is alive. *)
Lemma accept_live socks idx :
  match accept socks idx with
  | (Some k, _) => Some k ∈ socks
  | (None, _) => ∀ k, Some k ∉ socks
  end.
Proof.
  unfold accept. pose proof (pick_spec (length socks) socks idx) as H.
  destruct (pick _ _ _) as [[k|] idx'].
  - destruct H as (j & _ & _ & Hl & _). by eapply list_elem_of_lookup_2.
  - destruct H as [_ H]. intros k (i & Hi)%list_elem_of_lookup.
    pose proof (lookup_lt_Some _ _ _ Hi) as Hlt. set (n := Z.of_nat (length socks)) in *.
    apply (H ((Z.of_nat i - idx) mod n) k); [apply Z.mod_pos_bound; lia|].
    unfold live. fold n. rewrite Zplus_mod_idemp_r. replace (idx + (Z.of_nat i - idx)) with (Z.of_nat i) by lia.
    by rewrite Z.mod_small, Nat2Z.id by lia.
Qed.

(** With every worker alive the connections go round in order. *)
Lemma accept_all_alive conns ks idx :
  ks ≠ [] -> 0 ≤ idx ->
  accept_all conns (Some <$> ks) idx
  = (fun i => ks !! Z.to_nat ((idx + Z.of_nat i) mod Z.of_nat (length ks))) <$> seq 0 conns.
Proof.
  intros Hks. revert idx. induction conns as [|c IH]; intros idx Hi; [done|].
  cbn [accept_all seq]. rewrite fmap_cons, <-fmap_S_seq, <-list_fmap_compose.
  assert (accept (Some <$> ks) idx
          = (ks !! Z.to_nat ((idx + 0) mod Z.of_nat (length ks)), idx + 1)) as ->.
  { unfold accept. rewrite length_fmap. destruct (length ks) as [|n] eqn:E; [by destruct ks|].
    cbn [pick]. rewrite length_fmap, list_lookup_fmap, E, Z.add_0_r.
    pose proof (Z.mod_pos_bound idx (Z.of_nat (S n))).
    destruct (lookup_lt_is_Some_2 ks (Z.to_nat (idx mod Z.of_nat (S n)))) as [k Hk]; [lia|].
    by rewrite Hk. }
  f_equal. rewrite IH by lia. apply list_fmap_ext. intros _ i _. simpl. do 3 f_equal. lia.
Qed.

(** ** The Windows supervisor keeps its workers *)

Lemma poll_all_workers items ps s s' rs :
  dict_wf (procs s) -> NoDup items.*1 -> (∀ k id, (k, id) ∈ items -> dict_get (procs s) k = Some id) ->
  poll_all s items ps = (s', rs) -> win_shutdown s' = false ->
  (procs s').*2 ++ rs ≡ₚ (procs s).*2 ∧ dict_wf (procs s') ∧ win_shutdown s = false.
Proof.
  revert ps s rs. induction items as [|[key id] items IH]; intros ps s rs Hwf Hnd Hin;
    [simpl; intros; simplify_eq; by rewrite app_nil_r|].
  destruct ps as [|[[sig now]|] ps]; cbn [poll_all].
  - intros; simplify_eq. by rewrite app_nil_r.
  - csimpl in Hnd. apply NoDup_cons in Hnd as [Hk Hnd].
    assert (∀ k i, (k, i) ∈ items -> dict_get (dict_del (procs s) key) k = Some i) as Hin'.
    { intros k i Hi. rewrite dict_get_del by done. rewrite decide_False.
      - apply Hin. by constructor.
      - intros ->. apply Hk. apply list_elem_of_fmap. by exists (k, i). }
    assert (dict_wf (dict_del (procs s) key)) as Hwf' by by apply dict_del_wf.
    destruct (win_shutdown s || sig) eqn:Ed.
    + intros Hp Hs. apply (IH ps _ rs) in Hp as (_ & _ & ?); simpl in *; done.
    + destruct (poll_all _ items ps) as [s1 rs1] eqn:E. intros ? Hs; simplify_eq.
      apply orb_false_iff in Ed as [-> _].
      apply IH in E as (Hp & ? & _); [|done..]. simpl in Hp. split_and!; [|done|done].
      rewrite <-Permutation_middle, Hp. symmetry.
      apply (fmap_Permutation snd (procs s) ((key, id) :: dict_del (procs s) key)), dict_del_perm.
      apply Hin. by constructor.
  - intros Hp Hs. csimpl in Hnd. apply NoDup_cons in Hnd as [Hk Hnd].
    eapply IH; try done. intros k i Hi. apply Hin. by constructor.
Qed.

Lemma poll_all_bounds items ps s s' rs :
  poll_all s items ps = (s', rs) -> (procs s').*1 ⊆ (procs s).*1 ∧ (length rs ≤ length items)%nat.
Proof.
  revert ps s rs. induction items as [|[key id] items IH]; intros [|[[sig now]|] ps] s rs; cbn [poll_all];
    try (intros; simplify_eq; split; [done|simpl; lia]).
  - destruct (win_shutdown s || sig).
    + intros [H ?]%IH. split; [|simpl; lia]. etrans; [exact H|apply dict_del_keys_subseteq].
    + destruct (poll_all _ items ps) as [s1 rs1] eqn:E. intros; simplify_eq. apply IH in E as [H ?].
      split; [|simpl; lia]. etrans; [exact H|apply dict_del_keys_subseteq].
  - intros [H ?]%IH. split; [done|simpl; lia].
Qed.

Lemma respawn_shutdown ids sp s s' : respawn s ids sp = Ok s' -> win_shutdown s' = win_shutdown s.
Proof.
  revert sp s. induction ids as [|id ids IH]; intros [|[key at_] sp] s; simpl; try (intros; by simplify_eq).
  intros (d & _ & H)%rbind_Ok. by apply IH in H.
Qed.

Lemma respawn_workers ids sp s s' :
  (length ids ≤ length sp)%nat -> NoDup ((procs s).*1 ++ sp.*1) -> dict_wf (procs s) ->
  respawn s ids sp = Ok s' ->
  (procs s').*2 = (procs s).*2 ++ ids ∧ dict_wf (procs s').
Proof.
  revert sp s. induction ids as [|id ids IH]; intros [|[key at_] sp] s Hl Hnd Hwf; csimpl in *; try lia;
    try (intros; simplify_eq; by rewrite app_nil_r).
  intros H. apply rbind_Ok in H as (d & _ & H).
  assert (key ∉ (procs s).*1) as Hk.
  { apply NoDup_app in Hnd as (_ & Hnd & _). intros Hin. eapply (Hnd key); [done|set_solver]. }
  apply IH in H as (Hp & Hw); simpl in *; [|lia| |by apply dict_set_wf].
  - rewrite dict_set_fresh, fmap_app, <-app_assoc in Hp by done. done.
  - by rewrite dict_set_fresh, fmap_app, <-app_assoc by done.
Qed.

(** ** Claims *)

(** C24: the restart policy of the supervisor is bounded.  The delay before a
    restart is between 0 and 2 seconds, grows with the number of quick exits
    in a row and is 0 below five of them; a run of the supervisor from its
    start for at most 1028 turns never fails by itself (it ends when the system
    refuses a new process or socket) and sleeps at most 2 seconds a turn.  The
    bound is exact: a worker that exits at once 1029 times in a row
    ends the supervisor with the [OverflowError] of the power of two. *)
Theorem supervisor_backoff_bounded (pids : list (Z * Z)) (reuseport : bool) (socks : list Z) (ts : list turn)
    (Hts : (length ts ≤ 1028)%nat) :
  let s := start_workers 0 pids (initial (Z.of_nat (length pids)) reuseport socks) in
  (∀ streak, match backoff streak with
             | Ok d => streak < 1029 ∧ 0 ≤ d ≤ 20 ∧ (streak < 5 -> d = 0) ∧
                       (∀ more d', streak ≤ more -> backoff more = Ok d' -> d ≤ d')
             | Raise e => 1029 ≤ streak ∧ e = OverflowError
             end) ∧
  (∀ e, (run_loop s ts).2 ≠ Crash e) ∧
  0 ≤ slept (run_loop s ts).1 ≤ 20 * Z.of_nat (length ts) ∧
  (run_loop (start_workers 0 [(7, 0)] (initial 1 reuseport socks)) (replicate 1029 (crash_turn 7))).2
  = Crash OverflowError.
Proof.
  intros s. destruct (run_loop_bounded ts 0 s) as [Hc Hsl].
  { unfold s, streaks_below. destruct (start_workers_streak pids (initial (Z.of_nat (length pids)) reuseport socks) 0)
      as [-> _]. apply initial_streaks. }
  { lia. }
  assert (slept s = 0) as H0 by (unfold s; by destruct (start_workers_streak pids
    (initial (Z.of_nat (length pids)) reuseport socks) 0) as [_ ->]).
  split_and!; [|done|lia|lia|by destruct reuseport; vm_compute].
  - intros streak. destruct (decide (streak < 1029)) as [H|H].
    + destruct (backoff_Ok streak H) as (d & Hd & ?). rewrite Hd. split_and!; [done|lia..| |].
      * unfold backoff in Hd. intros. by rewrite bool_decide_false in Hd by lia; simplify_eq.
      * intros more d' ? Hd'. by eapply backoff_mono.
    + rewrite backoff_Raise by lia. split; [lia|done].
Qed.

(** A run of a supervisor of two workers, one of which exits. *)
Lemma supervisor_backoff_bounded_witness :
  (length [crash_turn 7; crash_turn 7] ≤ 1028)%nat ∧
  0 ≤ slept (run_loop (start_workers 0 [(7, 0); (8, 0)] (initial 2 true [])) [crash_turn 7; crash_turn 7]).1 ≤ 40.
Proof.
  split; [simpl; lia|].
  destruct (supervisor_backoff_bounded [(7, 0); (8, 0)] true [] [crash_turn 7; crash_turn 7]
              ltac:(simpl; lia)) as (_ & _ & H & _).
  exact H.
Defined.

(** The fork supervisor keeps every worker supervised.  Started with one
    process per worker, after any number of turns of its loop every worker id
    is the worker of exactly one child process, whatever exits, signals and
    clock readings the turns bring; the loop is left only at a signal or when
    the system reports that there is no child.  The shutdown that follows
    sends every child the termination signal, and then exactly those children
    that it has not reaped within the deadline are killed. *)
Theorem supervisor_keeps_workers (pids : list (Z * Z)) (reuseport : bool) (socks : list Z) (ts : list turn)
    (s' : supervisor) (o : outcome) (waits : list (option Z))
    (Hpids : NoDup pids.*1) (Hn : pids ≠ []) :
  let s := start_workers 0 pids (initial (Z.of_nat (length pids)) reuseport socks) in
  forks_fresh s ts -> run_loop s ts = (s', o) ->
  (o = Continue -> supervised (length pids) (children s')) ∧
  (o = Leave -> _shutdown s' = true ∨ Exists (fun t => waited t = ChildProcessError) ts) ∧
  (∀ pid, pid ∈ (children s').*1 ->
     Terminate pid ∈ shutdown s' waits ∧
     (Kill pid ∈ shutdown s' waits <-> Reaped pid ∉ shutdown s' waits)).
Proof.
  intros s Hf Hr. pose proof (start_workers_supervised pids reuseport socks Hpids) as Hs. fold s in Hs.
  split_and!.
  - intros ->. by eapply run_loop_keeps.
  - intros ->. eapply (run_loop_leaves (length pids)); try done. destruct pids; [done|simpl; lia].
  - intros pid Hin. apply shutdown_accounts; [|done].
    pose proof (run_loop_wf ts s (proj1 Hs)) as Hwf. by rewrite Hr in Hwf.
Qed.

(** Two workers, one of which exits and is restarted as process 9. *)
Lemma supervisor_keeps_workers_witness :
  supervised 2 (children (run_loop (start_workers 0 [(7, 0); (8, 0)] (initial 2 true []))
                            [mkTurn false (Exited 7) false 3 9 0 3 false]).1).
Proof.
  apply (supervisor_keeps_workers [(7, 0); (8, 0)] true [] [mkTurn false (Exited 7) false 3 9 0 3 false] _ Continue []).
  - apply (bool_decide_unpack _). vm_compute. exact I.
  - discriminate.
  - split; [|exact I]. apply (bool_decide_unpack _). vm_compute. exact I.
  - reflexivity.
  - reflexivity.
Defined.

(** The accept loop distributes connections fairly.  A connection goes to
    a live worker whenever there is one, and is dropped otherwise; while every
    worker is alive the [i]-th connection goes to worker [i] modulo their
    number, in order. *)
Theorem accept_loop_round_robin (socks : list (option Z)) (ks : list Z) (idx : Z) (conns : nat)
    (Hks : ks ≠ []) (Hidx : 0 ≤ idx) :
  match accept socks idx with
  | (Some k, _) => Some k ∈ socks
  | (None, _) => ∀ k, Some k ∉ socks
  end ∧
  accept_all conns (Some <$> ks) idx
  = (fun i => ks !! Z.to_nat ((idx + Z.of_nat i) mod Z.of_nat (length ks))) <$> seq 0 conns.
Proof. split; [apply accept_live|by apply accept_all_alive]. Qed.

Lemma accept_loop_round_robin_witness :
  accept_all 4 (Some <$> [10; 11; 12]) 1 = [Some 11; Some 12; Some 10; Some 11].
Proof.
  destruct (accept_loop_round_robin [] [10; 11; 12] 1 4 ltac:(discriminate) ltac:(lia)) as [_ H]. exact H.
Defined.

(** The supervisor of the subprocess mode keeps every worker too: a turn of
    its loop that ends without a signal leaves the same worker ids, each with
    one process, however many processes it found to have exited. *)
Theorem win_supervisor_keeps_workers (n : nat) (s s' : win_supervisor) (t : win_turn)
    (Hs : supervised n (procs s)) (Hl : (length (procs s) ≤ length (spawns t))%nat)
    (Hfresh : NoDup ((procs s).*1 ++ (spawns t).*1)) :
  win_supervise s t = Ok (Some s') -> win_shutdown s' = false -> supervised n (procs s').
Proof.
  destruct Hs as [Hwf Hp]. unfold win_supervise. simpl. case_match; [done|].
  destruct (poll_all _ (procs s) (polls t)) as [s1 rs] eqn:E. intros Hw Hd.
  apply rbind_Ok in Hw as (s2 & Hr & ?). simplify_eq.
  assert (win_shutdown s1 = false) as Hd1 by (by rewrite <-(respawn_shutdown _ _ _ _ Hr)).
  destruct (poll_all_bounds _ _ _ _ _ E) as [Hsub Hlen]. simpl in Hsub.
  apply poll_all_workers in E as (Hp1 & Hwf1 & _);
    [|done|done|simpl; intros k id Hin; by apply dict_elem_get|done].
  apply respawn_workers in Hr as (Hp2 & Hwf2); [|lia| |done].
  - split; [done|]. by rewrite Hp2, Hp1.
  - apply NoDup_app in Hfresh as (_ & Hd' & Hn). apply NoDup_app. split_and!; [done| |done].
    intros k Hk. apply Hd'. by apply Hsub.
Qed.

Lemma win_supervisor_keeps_workers_witness :
  supervised 2 [(8, 1); (9, 0)].
Proof.
  apply (win_supervisor_keeps_workers 2 (mkWin [(7, 0); (8, 1)] ∅ ∅ false)
           (mkWin [(8, 1); (9, 0)] (<[0 := 1]> ∅) (<[0 := 3]> ∅) false)
           (mkWinTurn false [Some (false, 2); None] [(9, 3); (10, 3)])).
  - split; apply (bool_decide_unpack _); vm_compute; exact I.
  - simpl. lia.
  - apply (bool_decide_unpack _). vm_compute. exact I.
  - reflexivity.
  - reflexivity.
Defined.
