(* ===== verification/ServerCore.v ===== *)
(** * ServerCore: data structures of [_cpp_server.py]

    The LRU route cache, the message channel between the protocol and a
    WebSocket endpoint, the object pools, and the helpers that add headers to
    prebuilt responses.  Functions of the compiled core are parameters. *)

From S2P Require Import Prelude PyStr Asgi MutableHeaders Responses Middleware.

(** ** The LRU route cache *)
Module Lru.
Section lru.
Context {V : Type}.

(** The [OrderedDict], least recently used entry first. *)
Record _LRURouteCache : Type := mkLru { _cache : list (str * V); _max_size : Z }.

Definition init (max_size : Z) : _LRURouteCache := mkLru [] max_size.

(** [move_to_end(key)] of a present key. *)
Definition move_to_end (d : list (str * V)) (key : str) : list (str * V) :=
  match dict_get d key with
  | Some v => dict_del d key ++ [(key, v)]
  | None => d
  end.

Definition get (c : _LRURouteCache) (key : str) : _LRURouteCache * option V :=
  match dict_get (_cache c) key with
  | Some v => (mkLru (move_to_end (_cache c) key) (_max_size c), Some v)
  | None => (c, None)
  end.

(** [popitem(last=False)] raises on an empty dictionary. *)
Definition put (c : _LRURouteCache) (key : str) (value : V) : result _LRURouteCache :=
  let d := _cache c in
  if dict_mem d key then Ok (mkLru (dict_set (move_to_end d key) key value) (_max_size c))
  else if _max_size c <=? Z.of_nat (length d) then
    match d with
    | [] => Raise (KeyError $"dictionary is empty")
    | _ :: d' => Ok (mkLru (dict_set d' key value) (_max_size c))
    end
  else Ok (mkLru (dict_set d key value) (_max_size c)).

Definition contains (c : _LRURouteCache) (key : str) : bool := dict_mem (_cache c) key.

Definition getitem (c : _LRURouteCache) (key : str) : _LRURouteCache * result V :=
  match get c key with
  | (c', Some v) => (c', Ok v)
  | (c', None) => (c', Raise (KeyError key))
  end.

(** Keys are distinct and there are at most [max_size] of them. *)
Definition wf (c : _LRURouteCache) : Prop :=
  dict_wf (_cache c) ∧ Z.of_nat (length (_cache c)) <= _max_size c ∧ 1 <= _max_size c.

Lemma dict_set_absent (d : list (str * V)) k v : k ∉ d.*1 -> dict_set d k v = d ++ [(k, v)].
Proof.
  induction d as [|[k' v'] d IH]; csimpl; [done|]. intros Hk. rewrite decide_False by set_solver.
  rewrite IH by set_solver. done.
Qed.

Lemma dict_del_keys_ne (d : list (str * V)) k : dict_wf d -> k ∉ (dict_del d k).*1.
Proof. intros Hwf. rewrite dict_keys_del by done. rewrite list_elem_of_filter. naive_solver. Qed.

Lemma move_set (d : list (str * V)) k v :
  dict_wf d -> dict_mem d k = true -> dict_set (move_to_end d k) k v = dict_del d k ++ [(k, v)].
Proof.
  intros Hwf Hm. unfold move_to_end. unfold dict_mem in Hm. destruct (dict_get d k) as [v0|]; [|done].
  pose proof (dict_del_keys_ne d k Hwf) as Hni. revert Hni. generalize (dict_del d k).
  induction l as [|[k' v'] l IH]; csimpl; intros Hni; [by rewrite decide_True|].
  rewrite decide_False by set_solver. rewrite IH by set_solver. done.
Qed.

Lemma dict_del_length (d : list (str * V)) k :
  dict_mem d k = true -> length d = S (length (dict_del d k)).
Proof.
  unfold dict_mem. induction d as [|[k' v'] d IH]; simpl; [done|]. case_decide; [done|].
  intros Hm. simpl. by rewrite <-IH.
Qed.

Lemma dict_get_filter_ne (d : list (str * V)) k k' :
  k' ≠ k -> dict_get d k' = dict_get (filter (fun e => e.1 ≠ k) d) k'.
Proof.
  intros Hne. induction d as [|[k0 v0] d IH]; [done|]. rewrite filter_cons. cbn [fst].
  destruct (decide (k0 ≠ k)) as [D|D]; cbn [dict_get]; [by rewrite IH|].
  rewrite decide_False; [exact IH|]. intros ->. by apply D.
Qed.

(** What a cache that was used by [get] and [put] holds. *)
Lemma put_shape c k v :
  wf c ->
  ∃ kept dropped c', put c k v = Ok c' ∧ _cache c' = kept ++ [(k, v)] ∧ k ∉ kept.*1
    ∧ filter (fun e => e.1 ≠ k) (_cache c) = dropped ++ kept
    ∧ (length dropped <= 1)%nat
    ∧ (dropped ≠ [] -> Z.of_nat (length (_cache c)) = _max_size c ∧ k ∉ (_cache c).*1)
    ∧ wf c'.
Proof.
  intros (Hwf & Hlen & Hmax). unfold put.
  assert (Hdel : ∀ d : list (str * V), dict_wf d -> filter (fun e => e.1 ≠ k) d = dict_del d k).
  { intros d Hd. induction d as [|[k' v'] d IH]; [done|]. apply NoDup_cons in Hd as [Hni Hd].
    rewrite filter_cons. cbn [fst dict_del]. destruct (decide (k = k')) as [<-|].
    - rewrite decide_False by naive_solver. apply filter_all. intros [k2 v2] Hin. simpl. intros ->.
      apply Hni. apply list_elem_of_fmap. by exists (k, v2).
    - rewrite decide_True by congruence. by rewrite IH. }
  destruct (dict_mem (_cache c) k) eqn:Em.
  - exists (dict_del (_cache c) k), []. eexists. split; [done|]. cbn [_cache _max_size].
    rewrite move_set by done. split_and!; [done|by apply dict_del_keys_ne|by apply Hdel|simpl; lia|done|].
    split_and!; cbn [_cache _max_size]; [|rewrite length_app; simpl; rewrite (dict_del_length _ k) in Hlen by done; lia|done].
    unfold dict_wf. rewrite fmap_app. apply NoDup_app.
    split_and!; [by apply dict_del_wf| |apply NoDup_singleton].
    pose proof (dict_del_keys_ne (_cache c) k Hwf). set_solver.
  - pose proof Em as Hk. apply dict_mem_false in Hk.
    assert (Hall : filter (fun e => e.1 ≠ k) (_cache c) = _cache c).
    { apply filter_all. intros [k' v'] Hin. simpl. intros ->. apply Hk. apply list_elem_of_fmap. by exists (k, v'). }
    assert (Hadd : ∀ d, dict_wf d -> k ∉ d.*1 -> dict_wf (d ++ [(k, v)])).
    { intros d Hd Hn. rewrite <-dict_set_absent by done. by apply dict_set_wf. }
    rewrite Hall. destruct (Z.leb_spec (_max_size c) (Z.of_nat (length (_cache c)))).
    + destruct (_cache c) as [|e d] eqn:Ed; [simpl in *; lia|]. csimpl in *.
      exists d, [e]. eexists. split; [done|]. cbn [_cache]. rewrite dict_set_absent by set_solver.
      apply NoDup_cons in Hwf as [_ Hwf].
      split_and!; [done|set_solver|done|done|intros _; split; [lia|set_solver]|].
      split_and!; cbn [_cache _max_size]; [apply Hadd; [done|set_solver]| |done].
      rewrite length_app. simpl in *. lia.
    + exists (_cache c), []. eexists. split; [done|]. cbn [_cache]. rewrite dict_set_absent by done.
      split_and!; [done|done|done|simpl; lia|done|].
      split_and!; cbn [_cache _max_size]; [by apply Hadd| |done].
      rewrite length_app. simpl. lia.
Qed.

(** The route cache is a bounded LRU cache: with room for at least one
    entry, [put] succeeds, keeps the size within the bound, makes the key the
    most recently used with the new value, and drops at most one other entry,
    the least recently used one, and only when the cache is full; a hit in
    [get] changes no value and makes the key the most recently used. *)
Theorem lru_cache_correct c k v :
  wf c ->
  (∃ c', put c k v = Ok c' ∧ wf c' ∧ (get c' k).2 = Some v
     ∧ last (_cache c').*1 = Some k
     ∧ ∀ k', k' ≠ k -> dict_get (_cache c') k' = dict_get (_cache c) k'
         ∨ (dict_get (_cache c') k' = None ∧ head (_cache c).*1 = Some k'
            ∧ Z.of_nat (length (_cache c)) = _max_size c ∧ k ∉ (_cache c).*1))
  ∧ (let '(c', r) := get c k in
     r = dict_get (_cache c) k ∧ wf c' ∧ (∀ k', dict_get (_cache c') k' = dict_get (_cache c) k')
     ∧ (r ≠ None -> last (_cache c').*1 = Some k)).
Proof.
  intros Hwf. split.
  - destruct (put_shape c k v Hwf) as (kept & dropped & c' & Hp & Hc & Hk & Hf & Hd & Hfull & Hwf').
    exists c'. split_and!; [done|done| | |].
    + unfold get. rewrite Hc, dict_get_app, (proj2 (dict_get_None kept k)) by done. simpl.
      by rewrite decide_True.
    + rewrite Hc, fmap_app. apply last_snoc.
    + intros k' Hne.
      assert (Hget : dict_get (_cache c) k' = dict_get (dropped ++ kept) k').
      { rewrite <-Hf. by apply dict_get_filter_ne. }
      rewrite Hc, dict_get_app. simpl. rewrite decide_False by done.
      destruct dropped as [|[k0 v0] [|]]; [left; rewrite Hget; cbn [app]; by destruct (dict_get kept k')| |simpl in Hd; lia].
      destruct Hfull as [Hfull Hnk]; [done|]. cbn [app] in Hget, Hf.
      assert (Hall : filter (fun e => e.1 ≠ k) (_cache c) = _cache c).
      { apply filter_all. intros [k2 v2] Hin. simpl. intros ->. apply Hnk. apply list_elem_of_fmap. by exists (k, v2). }
      rewrite Hall in Hf. destruct Hwf as (Hnd & _). rewrite Hf in Hnd.
      apply NoDup_cons in Hnd as [Hni _]. destruct (decide (k' = k0)) as [->|Hne0].
      * right. rewrite (proj2 (dict_get_None kept k0)) by done. split_and!; [done|by rewrite Hf|done|done].
      * left. rewrite Hget. cbn [dict_get]. rewrite decide_False by done. by destruct (dict_get kept k').
  - unfold get. destruct (dict_get (_cache c) k) as [v0|] eqn:E; [|done]. cbn [_cache].
    destruct Hwf as (Hnd & Hlen & Hmax).
    assert (Hm : dict_mem (_cache c) k = true) by (unfold dict_mem; by rewrite E).
    unfold move_to_end. rewrite E. split_and!; [done| | |].
    + split_and!; cbn [_cache _max_size]; [|rewrite length_app; simpl; rewrite (dict_del_length _ k) in Hlen by done; lia|done].
      rewrite <-dict_set_absent by (by apply dict_del_keys_ne). by apply dict_set_wf, dict_del_wf.
    + intros k'. rewrite dict_get_app, dict_get_del by done. simpl.
      destruct (decide (k = k')) as [->|]; [by rewrite decide_True, E|].
      destruct (dict_get (_cache c) k'); [done|]. by rewrite decide_False.
    + intros _. rewrite fmap_app. apply last_snoc.
Qed.
End lru.
Arguments _LRURouteCache V : clear implicits.

Lemma lru_cache_correct_witness :
  wf (mkLru [($"GET /a", 1); ($"GET /b", 2)] 2)
  ∧ ∃ c', put (mkLru [($"GET /a", 1); ($"GET /b", 2)] 2) $"GET /c" 3 = Ok c'
      ∧ (get c' $"GET /c").2 = Some 3 ∧ wf c'.
Proof.
  assert (H : wf (mkLru [($"GET /a", 1); ($"GET /b", 2)] 2)).
  { split_and!; [|vm_compute; discriminate|cbn; lia]. apply (bool_decide_unpack _). vm_compute. exact I. }
  split; [exact H|].
  destruct (lru_cache_correct (mkLru [($"GET /a", 1); ($"GET /b", 2)] 2) $"GET /c" 3 H)
    as ((c' & Hp & Hwf & Hg & _) & _).
  exists c'. split; [exact Hp|]. split; [exact Hg|exact Hwf].
Defined.
End Lru.

(** ** The WebSocket message channel *)
Module Channel.
(** Text frames arrive decoded, the others as bytes. *)
Inductive payload : Type := PText (s : str) | PBin (b : bytes).
Definition frame : Type := Z * payload.

(** [_waiter] is the future the endpoint last waited on, with whether it is
    done; [reading] is whether the transport delivers data. *)
Record _WsFastChannel : Type := mkChannel {
  _waiter : option bool;
  _buffer : list frame;
  _protocol : bool;
  _high_water : Z;
  _low_water : Z;
  _paused : bool;
  _total_bytes : Z;
  _byte_high_water : Z;
  _byte_low_water : Z;
  reading : bool
}.

Definition init (protocol : bool) (high low : Z) : _WsFastChannel :=
  mkChannel None [] protocol high low false 0 8388608 2097152 true.

Definition with_waiter (c : _WsFastChannel) (w : option bool) : _WsFastChannel :=
  mkChannel w (_buffer c) (_protocol c) (_high_water c) (_low_water c) (_paused c) (_total_bytes c)
    (_byte_high_water c) (_byte_low_water c) (reading c).

Definition plen (f : frame) : Z :=
  match f.2 with PText s => Z.of_nat (length s) | PBin b => Z.of_nat (length b) end.

(** [feed]: a frame resolves a pending waiter ([Some] in the second component)
    or is buffered, pausing the transport at the high-water marks. *)
Definition feed (c : _WsFastChannel) (f : frame) : _WsFastChannel * option frame :=
  match _waiter c with
  | Some false => (with_waiter c None, Some f)
  | _ =>
      let total := _total_bytes c + plen f in
      let buf := _buffer c ++ [f] in
      let pause := negb (_paused c)
                   && ((_high_water c <=? Z.of_nat (length buf)) || (_byte_high_water c <=? total))
                   && _protocol c in
      (mkChannel (_waiter c) buf (_protocol c) (_high_water c) (_low_water c)
         (if pause then true else _paused c) total (_byte_high_water c) (_byte_low_water c)
         (if pause then false else reading c), None)
  end.

(** [get]: the next frame if there is one, resuming the transport below the
    low-water marks; otherwise the caller waits on a new future. *)
Definition get (c : _WsFastChannel) : _WsFastChannel * option frame :=
  match _buffer c with
  | f :: buf =>
      let w := match _waiter c with Some true => None | w => w end in
      let total := _total_bytes c - plen f in
      let resume := _paused c && (Z.of_nat (length buf) <=? _low_water c)
                    && (total <=? _byte_low_water c) && _protocol c in
      (mkChannel w buf (_protocol c) (_high_water c) (_low_water c)
         (if resume then false else _paused c) total (_byte_high_water c) (_byte_low_water c)
         (if resume then true else reading c), Some f)
  | [] => (with_waiter c (Some false), None)
  end.

(** *** The channel between a protocol and one endpoint *)
Inductive consumer : Type := Idle | Awaiting | Resolved (f : frame).

(** [taken] are the frames that left the channel, in order: [true] for one that
    the endpoint received, [false] for one that was lost. *)
Record system : Type := mkSystem {
  chan : _WsFastChannel;
  endpoint : consumer;
  fed : list frame;
  taken : list (bool * frame)
}.

Definition delivered (s : system) : list frame := (filter (fun p => p.1 = true) (taken s)).*2.
Definition lost (s : system) : list frame := (filter (fun p => p.1 = false) (taken s)).*2.

(** A frame arrives; the endpoint asks for one; it goes on with the one that
    resolved its future; the task of the endpoint is cancelled while it waits,
    which cancels the future, or after the future was resolved and before the
    endpoint went on, which raises [CancelledError] in place of the frame. *)
Inductive step : system -> system -> Prop :=
  | step_feed c f ep fd tk :
      step (mkSystem c ep fd tk)
        (let '(c', r) := feed c f in
         mkSystem c' (match r with Some g => Resolved g | None => ep end) (fd ++ [f]) tk)
  | step_get c fd tk :
      step (mkSystem c Idle fd tk)
        (let '(c', r) := get c in
         match r with
         | Some g => mkSystem c' Idle fd (tk ++ [(true, g)])
         | None => mkSystem c' Awaiting fd tk
         end)
  | step_resume c f fd tk : step (mkSystem c (Resolved f) fd tk) (mkSystem c Idle fd (tk ++ [(true, f)]))
  | step_cancel c fd tk :
      step (mkSystem c Awaiting fd tk) (mkSystem (with_waiter c (Some true)) Idle fd tk)
  | step_cancel_resolved c f fd tk :
      step (mkSystem c (Resolved f) fd tk) (mkSystem c Idle fd (tk ++ [(false, f)])).

Inductive reachable (protocol : bool) (high low : Z) : system -> Prop :=
  | reach_init : reachable protocol high low (mkSystem (init protocol high low) Idle [] [])
  | reach_step s s' : reachable protocol high low s -> step s s' -> reachable protocol high low s'.

Definition in_flight (ep : consumer) : list frame :=
  match ep with Resolved f => [f] | _ => [] end.

Definition bytes_of (l : list frame) : Z := foldr (fun f n => plen f + n) 0 l.

(** The frames left the channel in order, and a waiting endpoint has them all. *)
Definition order_ok (s : system) : Prop :=
  let c := chan s in
  fed s = (taken s).*2 ++ in_flight (endpoint s) ++ _buffer c
  ∧ (_waiter c = Some false ↔ endpoint s = Awaiting)
  ∧ (endpoint s = Awaiting -> _buffer c = []).

(** The marks: reached, the channel is paused; paused, it is above one of the
    lower ones. *)
Definition marks_ok (protocol : bool) (high low : Z) (c : _WsFastChannel) : Prop :=
  _protocol c = protocol ∧ _high_water c = high ∧ _low_water c = low
  ∧ _byte_high_water c = 8388608 ∧ _byte_low_water c = 2097152
  ∧ _total_bytes c = bytes_of (_buffer c)
  ∧ reading c = negb (_paused c)
  ∧ (protocol = true -> high <= Z.of_nat (length (_buffer c)) ∨ 8388608 <= bytes_of (_buffer c) -> _paused c = true)
  ∧ (_paused c = true -> protocol = true ∧ (low < Z.of_nat (length (_buffer c)) ∨ 2097152 < bytes_of (_buffer c))).

Lemma bytes_of_app a b : bytes_of (a ++ b) = bytes_of a + bytes_of b.
Proof. induction a as [|f a IH]; simpl; [done|]. rewrite IH. lia. Qed.

Lemma bytes_of_nonneg l : 0 <= bytes_of l.
Proof. induction l as [|f l IH]; simpl; [done|]. unfold plen. destruct (f.2); lia. Qed.

Lemma feed_marks protocol high low c f :
  low < high -> marks_ok protocol high low c -> marks_ok protocol high low (feed c f).1.
Proof.
  intros Hlh (Hpr & Hh & Hl & Hbh & Hbl & Ht & Hr & Hm & Hp). unfold feed.
  destruct (_waiter c) as [[|]|]; [|by split_and!|]; unfold marks_ok; cbn -[Z.leb bytes_of length plen]; rewrite Hpr, Hh, Hbh, Ht;
    (split_and!; try done; [rewrite bytes_of_app; cbn; lia|..]);
    rewrite ?length_app, ?bytes_of_app; cbn [length]; cbn [bytes_of foldr]; rewrite ?Z.add_0_r;
    destruct (_paused c) eqn:Ep, (Z.leb_spec high (Z.of_nat (length (_buffer c) + 1))),
      (Z.leb_spec 8388608 (bytes_of (_buffer c) + plen f)), protocol; cbn [negb andb orb] in *; try done;
    try (intros; first [lia | split; [done|lia]]).
  all: intros _; destruct (Hp eq_refl) as [_ Hlow]; split; [done|];
    assert (0 <= plen f) by (unfold plen; destruct (f.2); lia); lia.
Qed.

Lemma get_marks protocol high low c :
  low < high -> marks_ok protocol high low c -> marks_ok protocol high low (get c).1.
Proof.
  intros Hlh (Hpr & Hh & Hl & Hbh & Hbl & Ht & Hr & Hm & Hp). unfold get.
  destruct (_buffer c) as [|f buf] eqn:Eb; [unfold marks_ok; cbn; rewrite Eb; by split_and!|].
  unfold marks_ok; cbn -[Z.leb bytes_of length plen]. rewrite Hpr, Hl, Hbl, Ht in *. cbn [bytes_of foldr] in *.
  change (foldr (fun f n => plen f + n) 0 buf) with (bytes_of buf) in *. cbn [length] in *.
  assert (0 <= plen f) by (unfold plen; destruct (f.2); lia).
  replace (plen f + bytes_of buf - plen f) with (bytes_of buf) by lia.
  split_and!; try done;
    destruct (_paused c) eqn:Ep, (Z.leb_spec (Z.of_nat (length buf)) low), (Z.leb_spec (bytes_of buf) 2097152),
      protocol; cbn [negb andb] in *; try done; try (intros; first [lia | split; [done|lia]]).
  all: intros; first [apply Hm; [done|lia] | by destruct (Hp eq_refl)].
Qed.

Lemma feed_order c f ep fd tk : order_ok (mkSystem c ep fd tk) ->
  order_ok (let '(c', r) := feed c f in
            mkSystem c' (match r with Some g => Resolved g | None => ep end) (fd ++ [f]) tk).
Proof.
  unfold order_ok, feed. cbn [chan endpoint fed taken]. intros (Hf & Hw & Ha).
  destruct (_waiter c) as [[|]|] eqn:Ew; cbn [chan endpoint fed taken _buffer _waiter with_waiter].
  2: { assert (ep = Awaiting) as -> by (by apply Hw). rewrite (Ha eq_refl) in *. simpl in *.
       rewrite app_nil_r in Hf. subst fd. split_and!; done. }
  all: assert (Hna : ep ≠ Awaiting) by (intros ->; destruct Hw as [_ Hw]; by specialize (Hw eq_refl)).
  all: split_and!; [by rewrite Hf, <-!app_assoc|by split|by intros ->].
Qed.

Lemma get_order c fd tk : order_ok (mkSystem c Idle fd tk) ->
  order_ok (let '(c', r) := get c in
            match r with
            | Some g => mkSystem c' Idle fd (tk ++ [(true, g)])
            | None => mkSystem c' Awaiting fd tk
            end).
Proof.
  unfold order_ok, get. cbn [chan endpoint fed taken in_flight app]. intros (Hf & Hw & Ha).
  destruct (_buffer c) as [|f buf] eqn:Eb;
    cbn [chan endpoint fed taken _buffer _waiter with_waiter in_flight app]; [by rewrite Eb|].
  assert (Hnw : match _waiter c with Some true => None | w => w end ≠ Some false).
  { destruct (_waiter c) as [[|]|]; try done. by destruct Hw as [Hw _]; discriminate Hw. }
  split_and!; [by rewrite Hf, fmap_app, <-app_assoc|by split|done].
Qed.

Lemma reachable_order protocol high low s : reachable protocol high low s -> order_ok s.
Proof.
  induction 1 as [|s s' _ IH Hs]; [done|]. destruct Hs as [c f ep fd tk|c fd tk|c f fd tk|c fd tk|c f fd tk].
  - by apply feed_order.
  - by apply get_order.
  - destruct IH as (Hf & Hw & Ha). unfold order_ok. cbn [chan endpoint fed taken in_flight] in *.
    split_and!; [by rewrite Hf, fmap_app, <-app_assoc|rewrite Hw; by split|done].
  - destruct IH as (Hf & Hw & Ha). by split_and!.
  - destruct IH as (Hf & Hw & Ha). unfold order_ok. cbn [chan endpoint fed taken in_flight] in *.
    split_and!; [by rewrite Hf, fmap_app, <-app_assoc|rewrite Hw; by split|done].
Qed.

Lemma reachable_marks protocol high low s :
  low < high -> 0 < high -> reachable protocol high low s -> marks_ok protocol high low (chan s).
Proof.
  intros Hlh Hh. induction 1 as [|s s' _ IH Hs].
  - unfold marks_ok. cbn. split_and!; try done. intros _ [?|?]; lia.
  - destruct Hs as [c f ep fd tk|c fd tk|c f fd tk|c fd tk|c f fd tk]; cbn [chan] in *; try done.
    + pose proof (feed_marks _ _ _ c f Hlh IH). by destruct (feed c f).
    + pose proof (get_marks _ _ _ c Hlh IH). by destruct (get c) as [c' [g|]].
Qed.

(** Only a cancelled wait that was resolved loses a frame, one. *)
Lemma step_lost s s' : step s s' ->
  lost s' = lost s ∨ ∃ f, endpoint s = Resolved f ∧ endpoint s' = Idle ∧ chan s' = chan s ∧ lost s' = lost s ++ [f].
Proof.
  destruct 1 as [c f ep fd tk|c fd tk|c f fd tk|c fd tk|c f fd tk]; unfold lost; cbn [taken endpoint chan].
  - left. by destruct (feed c f).
  - left. destruct (get c) as [c' [g|]]; cbn [taken]; [|done]. by rewrite filter_app, app_nil_r.
  - left. by rewrite filter_app, app_nil_r.
  - by left.
  - right. exists f. by rewrite filter_app, fmap_app.
Qed.

Lemma none_lost s : lost s = [] -> delivered s = (taken s).*2.
Proof.
  unfold lost, delivered. induction (taken s) as [|[[] g] tk IH]; [done| |done].
  rewrite !filter_cons, decide_False, decide_True by done. intros H. rewrite !fmap_cons. f_equal. by apply IH.
Qed.


End Channel.
