(* ===== verification/HttpWire.v ===== *)
(** * HttpWire: what the compiled server reads and writes in Python

    The byte-level functions of [_cpp_server.py]: the request line, headers and
    body that [data_received] keeps in context variables for code that asks for
    the request, extra headers in finished responses, chunked streaming, CORS
    headers, the driver of coroutines that the core has started, and the chain
    of HTTP middleware.  Context variables are fields of a record; what
    awaitables, iterators and middleware do are parameters. *)

From S2P Require Import Prelude PyStr Asgi MutableHeaders Responses.

(** ** Searching bytes *)

(** [s.find(sub)] *)
Fixpoint find (sub s : bytes) : option nat :=
  if startswith s sub then Some 0%nat
  else match s with [] => None | _ :: s' => S <$> find sub s' end.

(** [s[lo:hi]] *)
Definition slice (lo hi : nat) (s : bytes) : bytes := take (hi - lo) (drop lo s).

(** [s.find(sub, lo, hi)] *)
Definition find_in (sub s : bytes) (lo hi : nat) : option nat := (fun i => lo + i)%nat <$> find sub (slice lo hi s).

(** [bytes.strip] *)
Definition is_byte_space (c : N) : bool := in_range 9 13 c || (c =? 32)%N.
Definition bytes_strip (b : bytes) : bytes := rstrip_by is_byte_space (lstrip_by is_byte_space b).

Definition _CRLF : bytes := [13; 10]%N.
Definition _CRLFCRLF : bytes := [13; 10; 13; 10]%N.

(** ** The request in context variables *)
Record ReqContext : Type := mkReqContext {
  cx_method : str;
  cx_path : str;
  cx_query_string : bytes;
  cx_raw_headers : option raw_headers;
  cx_body : bytes
}.

(** The defaults of the variables. *)
Definition no_context : ReqContext := mkReqContext $"GET" $"/" [] None [].

Definition _VALID_HTTP_METHODS : list bytes :=
  [$"GET"; $"POST"; $"PUT"; $"DELETE"; $"PATCH"; $"HEAD"; $"OPTIONS"; $"TRACE"; $"CONNECT"].

(** Does the data begin with a request line?  If so, the position of its end
    and of its first space. *)
Definition request_line (data : bytes) : option (nat * nat) :=
  match find_in _CRLF data 0 (Nat.min (length data) 4096) with
  | Some ((S _) as nl) =>
      match find_in [32%N] data 0 nl with
      | Some ((S _) as sp0) => if bool_decide (take sp0 data ∈ _VALID_HTTP_METHODS) then Some (nl, sp0) else None
      | _ => None
      end
  | _ => None
  end.

(** A header line; one without a name before the colon is skipped. *)
Definition header_line (line : bytes) : raw_headers :=
  match find [58%N] line with
  | Some ((S _) as colon) =>
      [(bytes_lower (bytes_strip (take colon line)), bytes_strip (drop (S colon) line))]
  | _ => []
  end.

(** The loop over the lines of the header block. *)
Fixpoint parse_headers (fuel : nat) (block : bytes) : raw_headers :=
  match fuel, block with
  | O, _ | _, [] => []
  | S fuel', _ =>
      match find _CRLF block with
      | Some eol => header_line (take eol block) ++ parse_headers fuel' (drop (eol + 2) block)
      | None => header_line block
      end
  end.

(** The path and the query string of a request target. *)
Definition split_target (target : bytes) : bytes * bytes :=
  match find [63%N] target with
  | Some q => (take q target, drop (S q) target)
  | None => (target, [])
  end.

(** A new request. *)
Definition new_context (data : bytes) (nl sp0 : nat) : ReqContext :=
  let target_end := match find_in [32%N] data (S sp0) nl with Some ((S _) as sp1) => sp1 | _ => nl end in
  let target := slice (S sp0) target_end data in
  let '(path, query) := split_target target in
  let method := decode_latin1 (take sp0 data) in
  match find_in _CRLFCRLF data nl (length data) with
  | Some ((S _) as hdrs_end) =>
      mkReqContext method (decode_latin1 path) query
        (Some (parse_headers (length data) (slice (nl + 2) hdrs_end data))) (drop (hdrs_end + 4) data)
  | _ => mkReqContext method (decode_latin1 path) query (Some []) []
  end.

(** Data that begins no request is more of the body. *)
Definition more_body (c : ReqContext) (data : bytes) : ReqContext :=
  mkReqContext (cx_method c) (cx_path c) (cx_query_string c) (cx_raw_headers c) (cx_body c ++ data).

(** The part of [data_received] that keeps the context. *)
Definition receive_context (c : ReqContext) (data : bytes) : ReqContext :=
  match data with
  | [] => c
  | _ => match request_line data with Some (nl, sp0) => new_context data nl sp0 | None => more_body c data end
  end.

(** ** Extra headers *)
Definition header_part (h : bytes * bytes) : bytes :=
  if bool_decide (bytes_lower h.1 = $"content-length") then []
  else _CRLF ++ h.1 ++ $": " ++ h.2.

Definition _inject_headers_into_response (resp : bytes) (extra_headers : raw_headers) : bytes :=
  match find _CRLFCRLF resp with
  | None => resp
  | Some idx => take idx resp ++ concat (header_part <$> extra_headers) ++ drop idx resp
  end.

(** ** Origins *)
Definition _extract_origin (hs : option raw_headers) : str :=
  match hs with
  | None => []
  | Some hs =>
      match list_find (fun h => str_lower (decode_latin1 h.1) = $"origin") hs with
      | Some (_, h) => decode_latin1 h.2
      | None => []
      end
  end.

(** The arguments of [CORSMiddleware] that are read; [regex_matches] is
    [re.compile(regex).fullmatch]. *)
Record CorsConfig : Type := mkCors {
  allow_origins : list str;
  allow_credentials : bool;
  expose_headers : list str;
  allow_origin_regex : option str
}.

Definition _get_cors_headers_for_origin (regex_matches : str -> str -> bool) (cors : option CorsConfig) (origin0 : str)
    : result raw_headers :=
  match origin0, cors with
  | [], _ | _, None => Ok []
  | _, Some cfg =>
      let origin := strip origin0 in
      let allow_all := bool_decide ($"*" ∈ allow_origins cfg) in
      let listed := bool_decide (str_lower origin ∈ str_lower <$> allow_origins cfg) in
      let by_regex := match allow_origin_regex cfg with
                      | Some ((_ :: _) as r) => regex_matches r origin
                      | _ => false
                      end in
      if allow_all || listed || by_regex then
        let! allowed :=
          if allow_all then Ok [($"access-control-allow-origin", $"*")]
          else let! o := encode_latin1 origin in Ok [($"access-control-allow-origin", o); ($"vary", $"Origin")] in
        let! exposed :=
          match expose_headers cfg with
          | [] => Ok []
          | hs => let! e := encode_latin1 (join $", " hs) in Ok [($"access-control-expose-headers", e)]
          end in
        Ok (allowed ++ (if allow_credentials cfg then [($"access-control-allow-credentials", $"true")] else []) ++ exposed)
      else Ok []
  end.

(** ** Chunked streaming *)

(** [build_chunked_frame] of the core. *)
Definition build_chunked_frame (chunk : bytes) : bytes :=
  match chunk with
  | [] => $"0" ++ _CRLFCRLF
  | _ => to_hex (N.of_nat (length chunk)) ++ _CRLF ++ chunk ++ _CRLF
  end.

Definition _STATUS_PHRASES : list (Z * str) :=
  [(200, $"OK"); (201, $"Created"); (202, $"Accepted"); (203, $"Non-Authoritative Information"); (204, $"No Content");
   (205, $"Reset Content"); (206, $"Partial Content"); (207, $"Multi-Status"); (208, $"Already Reported");
   (301, $"Moved Permanently"); (302, $"Found"); (303, $"See Other"); (304, $"Not Modified");
   (307, $"Temporary Redirect"); (308, $"Permanent Redirect"); (400, $"Bad Request"); (401, $"Unauthorized");
   (403, $"Forbidden"); (404, $"Not Found"); (405, $"Method Not Allowed"); (406, $"Not Acceptable");
   (408, $"Request Timeout"); (409, $"Conflict"); (410, $"Gone"); (413, $"Payload Too Large");
   (415, $"Unsupported Media Type"); (422, $"Unprocessable Entity"); (429, $"Too Many Requests");
   (500, $"Internal Server Error"); (501, $"Not Implemented"); (502, $"Bad Gateway"); (503, $"Service Unavailable");
   (504, $"Gateway Timeout")].

Definition wire_header (h : bytes * bytes) : bytes := h.1 ++ $": " ++ h.2 ++ _CRLF.

Definition streaming_head (status : Z) (headers cors : raw_headers) : bytes :=
  $"HTTP/1.1 " ++ Z_to_str status ++ $" " ++ get_or (dict_get _STATUS_PHRASES status) [] ++ _CRLF
  ++ $"transfer-encoding: chunked" ++ _CRLF ++ concat (wire_header <$> headers ++ cors) ++ _CRLF.

(** What the body iterator gives next; text is encoded, which can fail. *)
Inductive stream_item : Type := ItemBytes (b : bytes) | ItemStr (s : str) | ItemRaise.

Definition item_bytes (i : stream_item) : option bytes :=
  match i with
  | ItemBytes b => Some b
  | ItemStr s => match utf8_encode s with Ok b => Some b | Raise _ => None end
  | ItemRaise => None
  end.

(** The writes of the loop over the body; an exception ends it, and the last
    chunk is written either way. *)
Fixpoint stream_writes (items : list stream_item) : list bytes :=
  match items with
  | [] => [$"0" ++ _CRLFCRLF]
  | i :: items' =>
      match item_bytes i with
      | Some [] => stream_writes items'
      | Some b => build_chunked_frame b :: stream_writes items'
      | None => [$"0" ++ _CRLFCRLF]
      end
  end.

Definition _write_chunked_streaming (status : Z) (headers cors : raw_headers) (items : list stream_item) : list bytes :=
  streaming_head status headers cors :: stream_writes items.

(** ** Coroutines *)
Section coroutines.
Context {V : Type} (none : V).

(** A coroutine: it returns, raises, or yields an awaitable (or [None]) and
    goes on with a value or an exception. *)
Inductive coro : Type :=
  | CReturn (v : V)
  | CRaise (e : exn)
  | CYield (y : option Z) (k : result V -> coro).

(** What awaiting gives. *)
Context (await : Z -> result V).

Definition await_yield (y : option Z) : result V := match y with None => Ok none | Some f => await f end.

(** The loop of [_drive_coro]. *)
Fixpoint drive_loop (c : coro) : result V :=
  match c with
  | CReturn v => Ok v
  | CRaise e => Raise e
  | CYield y k => drive_loop (k (await_yield y))
  end.

(** [_drive_coro(coro, first_yield)]: [k] is the coroutine after the step that
    the core made. *)
Definition _drive_coro (first_yield : option Z) (k : result V -> coro) : result V :=
  let! v := await_yield first_yield in
  drive_loop (k (Ok v)).
End coroutines.

(** ** HTTP middleware *)
Section middleware.
Context {R Q : Type}.

(** A dispatch function gets the request and the response [call_next] gives; it
    may return none. *)
Fixpoint middleware_chain (dispatchers : list (Q -> R -> result (option R))) (request : Q) (response : R) : result R :=
  match dispatchers with
  | [] => Ok response
  | d :: ds => let! r := d request response in middleware_chain ds request (get_or r response)
  end.

(** [_run_http_middleware], up to writing the response. *)
Definition run_http_middleware (dispatchers : list (Q -> R -> result (option R))) (request : Q) (response : R) : result R :=
  middleware_chain (reverse dispatchers) request response.
End middleware.

(** ** Facts about searching *)
Lemma find_nil_head sub c s : startswith (c :: s) sub = false -> find sub (c :: s) = S <$> find sub s.
Proof. simpl. by intros ->. Qed.

Lemma find_here sub t : find sub (sub ++ t) = Some 0%nat.
Proof. pose proof (startswith_app sub t) as H. destruct (sub ++ t); cbn [find]; by rewrite H. Qed.

(** No occurrence begins where the first byte is missing. *)
Lemma find_skip c sub a s : c ∉ a -> find (c :: sub) (a ++ s) = (fun i => length a + i)%nat <$> find (c :: sub) s.
Proof.
  induction a as [|x a IH]; intros Ha; simpl app; [by destruct (find _ s)|].
  rewrite find_nil_head.
  - rewrite IH by set_solver. by destruct (find _ s).
  - simpl. rewrite (proj2 (N.eqb_neq c x)) by set_solver. done.
Qed.

Lemma find_first c sub a t : c ∉ a -> find (c :: sub) (a ++ (c :: sub) ++ t) = Some (length a).
Proof. intros Ha. rewrite find_skip, find_here by done. simpl. by rewrite Nat.add_0_r. Qed.

Lemma find_absent c sub a : c ∉ a -> find (c :: sub) a = None.
Proof. intros Ha. rewrite <-(app_nil_r a), find_skip by done. done. Qed.

(** An occurrence inside a range. *)
Lemma find_in_at data pre a c sub t lo hi :
  data = pre ++ a ++ (c :: sub) ++ t -> lo = length pre -> c ∉ a ->
  (length pre + length a + length (c :: sub) <= hi)%nat ->
  find_in (c :: sub) data lo hi = Some (lo + length a)%nat.
Proof.
  intros -> -> Ha Hhi. unfold find_in, slice. rewrite drop_app_length.
  rewrite app_assoc, take_app_ge by (rewrite length_app; lia).
  rewrite <-app_assoc, find_first by done. done.
Qed.

Lemma slice_at data pre a t lo hi :
  data = pre ++ a ++ t -> lo = length pre -> hi = (length pre + length a)%nat -> slice lo hi data = a.
Proof.
  intros -> -> ->. unfold slice. rewrite drop_app_length.
  replace (length pre + length a - length pre)%nat with (length a) by lia. apply take_app_length.
Qed.

Lemma split_target_spec target : split_target target = ((partition 63 target).1.1, (partition 63 target).2).
Proof.
  unfold split_target. destruct (partition 63 target) as [[a f] b] eqn:E. apply partition_spec in E as [Ha E].
  destruct f; simpl.
  - subst target. change (a ++ 63%N :: b) with (a ++ [63%N] ++ b). rewrite find_first by done.
    rewrite take_app_length. replace (S (length a)) with (length (a ++ [63%N])) by (rewrite length_app; simpl; lia).
    by rewrite app_assoc, drop_app_length.
  - destruct E as [-> ->]. by rewrite find_absent.
Qed.

(** ** Requests on the wire *)
Definition header_text (h : bytes * bytes) : bytes := h.1 ++ $": " ++ h.2.

Definition header_block (hs : raw_headers) : bytes := concat ((fun h => _CRLF ++ header_text h) <$> hs).

Definition start_line (method target : bytes) : bytes := method ++ [32%N] ++ target ++ $" HTTP/1.1".

Definition request_head (method target : bytes) (hs : raw_headers) : bytes :=
  start_line method target ++ header_block hs ++ _CRLFCRLF.

Definition wire_text (h : bytes * bytes) : Prop := h.1 ≠ [] ∧ (58%N ∉ h.1) ∧ (13%N ∉ h.1) ∧ (13%N ∉ h.2).

Record wire_request (method target : bytes) (hs : raw_headers) : Prop := mkWire {
  wr_method : method ∈ _VALID_HTTP_METHODS;
  wr_target : (32%N ∉ target) ∧ (13%N ∉ target);
  wr_length : (length method + length target + 12 <= 4096)%nat;
  wr_headers : Forall wire_text hs
}.

Lemma header_block_cons h hs : header_block (h :: hs) = _CRLF ++ header_text h ++ header_block hs.
Proof. done. Qed.

(** The header block ends at the first empty line. *)
Lemma find_headers_end hs t :
  Forall wire_text hs -> find _CRLFCRLF (header_block hs ++ _CRLFCRLF ++ t) = Some (length (header_block hs)).
Proof.
  induction 1 as [|[n v] hs (Hn & Hc & Hn' & Hv) _ IH]; [apply (find_here _CRLFCRLF)|].
  rewrite header_block_cons, <-!app_assoc.
  change (find _CRLFCRLF (13%N :: [10%N] ++ (header_text (n, v) ++ header_block hs ++ _CRLFCRLF ++ t))
          = Some (length (_CRLF ++ header_text (n, v) ++ header_block hs))).
  rewrite find_nil_head.
  - unfold _CRLFCRLF at 1. rewrite (app_assoc [10%N]), find_skip.
    + fold _CRLFCRLF. by rewrite IH, !length_app.
    + unfold header_text. cbn [fst snd] in *. rewrite !elem_of_app. change $": " with [58%N; 32%N]. set_solver.
  - destruct n as [|x n]; [done|]. unfold header_text, _CRLFCRLF. cbn [fst snd app] in *.
    rewrite !startswith_cons. destruct (N.eqb_spec 13 x) as [<-|]; [set_solver|done].
Qed.

(** The lines of the block. *)
Lemma header_block_join hs : drop 2 (header_block hs) = join _CRLF (header_text <$> hs).
Proof.
  destruct hs as [|h hs]; [done|]. rewrite header_block_cons.
  change (drop 2 (_CRLF ++ ?x)) with x. revert h. induction hs as [|h' hs IH]; intros h.
  - unfold header_block. cbn. by rewrite app_nil_r.
  - rewrite header_block_cons, fmap_cons, join_cons by done. by rewrite <-IH.
Qed.

Lemma header_block_length hs : (length hs <= length (header_block hs))%nat.
Proof.
  induction hs as [|h hs IH]; [done|]. rewrite header_block_cons, !length_app. unfold header_text, _CRLF. simpl. lia.
Qed.

(** The block without the end of the first line. *)
Lemma slice_skip a b t : slice (length a + 2) (length a + length b) (a ++ b ++ t) = drop 2 b.
Proof.
  unfold slice. rewrite drop_app_ge by lia. replace (length a + 2 - length a)%nat with 2%nat by lia.
  destruct b as [|x [|y b]]; simpl.
  - by replace (length a + 0 - (length a + 2))%nat with 0%nat by lia.
  - by replace (length a + 1 - (length a + 2))%nat with 0%nat by lia.
  - replace (length a + S (S (length b)) - (length a + 2))%nat with (length b) by lia. apply take_app_length.
Qed.

Lemma parse_headers_join lines fuel :
  Forall (fun l => l ≠ [] ∧ 13%N ∉ l) lines -> (length lines <= fuel)%nat ->
  parse_headers fuel (join _CRLF lines) = concat (header_line <$> lines).
Proof.
  intros H. revert fuel. induction H as [|l lines [Hl Hc] _ IH]; intros [|fuel] Hf; simpl in Hf; try done; [lia|].
  destruct lines as [|l' lines].
  - simpl join. cbn [parse_headers]. destruct l as [|x l]; [done|]. unfold _CRLF. rewrite find_absent by done.
    simpl. by rewrite app_nil_r.
  - rewrite join_cons by done. cbn [parse_headers].
    destruct (l ++ _CRLF ++ join _CRLF (l' :: lines)) as [|x xs] eqn:E; [by destruct l|]. rewrite <-E.
    unfold _CRLF at 1 2. rewrite find_first by done. rewrite take_app_length. simpl fmap. cbn [concat]. f_equal.
    replace (length l + 2)%nat with (length (l ++ _CRLF)) by (rewrite length_app; done).
    fold _CRLF. rewrite app_assoc, drop_app_length. apply IH. simpl in *. lia.
Qed.

Lemma header_line_text h : wire_text h -> header_line (header_text h) = [(bytes_lower (bytes_strip h.1), bytes_strip h.2)].
Proof.
  intros (Hn & Hc & _ & _). unfold header_line, header_text. change $": " with ([58%N] ++ [32%N]).
  rewrite <-app_assoc, find_first by done. destruct h as [[|x n] v]; [done|]. cbn [fst snd length] in *.
  change (S (length n)) with (length (x :: n)). rewrite take_app_length.
  replace (S (length (x :: n))) with (length ((x :: n) ++ [58%N])) by (rewrite length_app; simpl; lia).
  by rewrite app_assoc, drop_app_length.
Qed.

Lemma method_chars method : method ∈ _VALID_HTTP_METHODS -> method ≠ [] ∧ (32%N ∉ method) ∧ (13%N ∉ method).
Proof. unfold _VALID_HTTP_METHODS. rewrite !elem_of_cons. intros Hm. destruct_or!; subst; set_solver. Qed.

Lemma start_line_no_cr method target hs : wire_request method target hs -> 13%N ∉ start_line method target.
Proof.
  intros [(_ & _ & Hm)%method_chars [_ Ht] _ _]. unfold start_line. rewrite !elem_of_app. set_solver.
Qed.

(** What follows the first line begins with a line end. *)
Lemma after_start_line hs t : ∃ r, header_block hs ++ _CRLFCRLF ++ t = _CRLF ++ r.
Proof. destruct hs as [|h hs]; [by eexists | rewrite header_block_cons, <-!app_assoc; by eexists]. Qed.

Lemma request_line_head method target hs t :
  wire_request method target hs ->
  request_line (request_head method target hs ++ t) = Some (length (start_line method target), length method).
Proof.
  intros Hw. pose proof (start_line_no_cr _ _ _ Hw) as Hnc. destruct Hw as [Hm [Ht Ht'] Hl _].
  pose proof (method_chars _ Hm) as (Hne & Hms & _).
  assert (Hsl : length (start_line method target) = (length method + length target + 10)%nat).
  { unfold start_line. rewrite !length_app. simpl. lia. }
  unfold request_line, request_head. rewrite <-!app_assoc. destruct (after_start_line hs t) as [r ->].
  rewrite (find_in_at _ [] (start_line method target) 13 [10%N] r) by (rewrite ?length_app; simpl; done || lia).
  simpl Nat.add. destruct (length (start_line method target)) as [|m] eqn:E; [lia|].
  unfold start_line. rewrite <-!app_assoc.
  rewrite (find_in_at _ [] method 32 [] (target ++ $" HTTP/1.1" ++ _CRLF ++ r)) by (simpl; done || lia).
  simpl Nat.add. destruct (length method) as [|k] eqn:Ek; [by destruct method|].
  rewrite <-Ek, take_app_length, bool_decide_true by done. done.
Qed.

(** The context of a request whose head arrives in one piece. *)
Lemma new_context_head method target hs body :
  wire_request method target hs ->
  new_context (request_head method target hs ++ body) (length (start_line method target)) (length method)
  = mkReqContext (decode_latin1 method) (decode_latin1 (partition 63 target).1.1) (partition 63 target).2
      (Some ((fun h => (bytes_lower (bytes_strip h.1), bytes_strip h.2)) <$> hs)) body.
Proof.
  intros [Hm [Ht _] _ Hhs]. unfold new_context.
  set (data := request_head method target hs ++ body).
  assert (Hd : data = (method ++ [32%N]) ++ target ++ [32%N] ++ $"HTTP/1.1" ++ header_block hs ++ _CRLFCRLF ++ body).
  { unfold data, request_head, start_line. by rewrite <-!app_assoc. }
  assert (Hsp : length (method ++ [32%N]) = S (length method)) by (rewrite length_app; simpl; lia).
  assert (Hsl : length (start_line method target) = (length method + length target + 10)%nat).
  { unfold start_line. rewrite !length_app. simpl. lia. }
  rewrite (find_in_at _ _ _ 32 [] _ _ _ Hd) by (simpl; done || lia). cbn [Nat.add].
  rewrite (slice_at data (method ++ [32%N]) target ([32%N] ++ $"HTTP/1.1" ++ header_block hs ++ _CRLFCRLF ++ body))
    by (done || lia).
  rewrite split_target_spec.
  assert (Hm' : take (length method) data = method) by (by rewrite Hd, <-!app_assoc, take_app_length).
  assert (Hd' : data = start_line method target ++ header_block hs ++ _CRLFCRLF ++ body).
  { unfold data, request_head. by rewrite <-!app_assoc. }
  assert (Hend : find_in _CRLFCRLF data (length (start_line method target)) (length data)
                 = Some (length (start_line method target) + length (header_block hs))%nat).
  { unfold find_in, slice. rewrite Hd', drop_app_length, take_ge by (rewrite !length_app; lia).
    by rewrite find_headers_end. }
  rewrite Hend, Hm'. destruct (length (start_line method target) + length (header_block hs))%nat as [|e] eqn:Ee; [lia|].
  rewrite <-Ee. f_equal.
  - f_equal. rewrite Hd' at 2.
    rewrite slice_skip, header_block_join, parse_headers_join.
    + clear -Hhs. induction Hhs as [|h hs Hh _ IH]; [done|]. rewrite !fmap_cons. cbn [concat].
      by rewrite header_line_text, IH.
    + apply Forall_fmap. eapply Forall_impl; [exact Hhs|]. intros h (Hn & _ & Hc & Hv). unfold header_text. simpl.
      split; [destruct (h.1); done | set_solver].
    + rewrite length_fmap, Hd', !length_app. pose proof (header_block_length hs). lia.
  - rewrite Hd'. replace (length (start_line method target) + length (header_block hs) + 4)%nat
      with (length (start_line method target ++ header_block hs ++ _CRLFCRLF)) by (rewrite !length_app; simpl; lia).
    by rewrite !app_assoc, drop_app_length.
Qed.

(** A piece that a peer could have sent as a request: it begins with a method of
    HTTP and a space, and its first line ends within 4096 bytes. *)
Definition begins_request (d : bytes) : Prop :=
  ∃ method line rest,
    d = method ++ [32%N] ++ line ++ [13; 10]%N ++ rest
    ∧ (method = $"GET" ∨ method = $"POST" ∨ method = $"PUT" ∨ method = $"DELETE" ∨ method = $"PATCH"
       ∨ method = $"HEAD" ∨ method = $"OPTIONS" ∨ method = $"TRACE" ∨ method = $"CONNECT")
    ∧ (length method + length line + 3 <= 4096)%nat.

Lemma valid_method m :
  m ∈ _VALID_HTTP_METHODS ↔
  m = $"GET" ∨ m = $"POST" ∨ m = $"PUT" ∨ m = $"DELETE" ∨ m = $"PATCH"
  ∨ m = $"HEAD" ∨ m = $"OPTIONS" ∨ m = $"TRACE" ∨ m = $"CONNECT".
Proof. unfold _VALID_HTTP_METHODS. rewrite !elem_of_cons, elem_of_nil. tauto. Qed.

(** What a search that succeeds has found, and that it finds what is there. *)
Lemma find_Some sub s i : find sub s = Some i -> ∃ a r, s = a ++ sub ++ r ∧ length a = i.
Proof.
  revert i. induction s as [|x s IH]; intros i; cbn [find]; destruct (startswith _ sub) eqn:E; try done.
  - intros [= <-]. exists [], (drop (length sub) []). split; [by apply startswith_drop|done].
  - intros [= <-]. exists [], (drop (length sub) (x :: s)). split; [by apply startswith_drop|done].
  - intros (j & Hj & ->)%fmap_Some. destruct (IH j Hj) as (a & r & -> & <-). by exists (x :: a), r.
Qed.

Lemma find_occurs sub a t : ∃ i, find sub (a ++ sub ++ t) = Some i ∧ (i <= length a)%nat.
Proof.
  induction a as [|x a (i & Hi & Hl)]; [rewrite app_nil_l, find_here; by eexists|].
  simpl app. cbn [find]. destruct (startswith _ sub); [eexists; split; [done|simpl; lia]|].
  rewrite Hi. eexists. split; [done|simpl; lia].
Qed.

Lemma request_line_begins d : is_Some (request_line d) -> begins_request d.
Proof.
  unfold request_line, find_in, slice. rewrite drop_0, !Nat.sub_0_r. set (hi := Nat.min (length d) 4096).
  intros [p Hp]. destruct (find _CRLF (take hi d)) as [nl|] eqn:Enl; [|done]. cbn [fmap option_fmap option_map] in Hp.
  destruct (find_Some _ _ _ Enl) as (a & r & Ha & Hla).
  assert (Hd : d = (a ++ _CRLF ++ r) ++ drop hi d) by (rewrite <-Ha; by rewrite take_drop).
  assert (Hlen : (nl + 2 <= 4096)%nat).
  { apply (f_equal length) in Ha. rewrite !length_app, length_take in Ha. simpl in Ha. lia. }
  assert (Hta : take nl d = a) by (rewrite Hd, <-app_assoc, <-Hla; apply take_app_length).
  rewrite Nat.add_0_l, Nat.sub_0_r, Hta in Hp. destruct nl as [|nl]; [done|].
  destruct (find [32%N] a) as [sp|] eqn:Esp; [|done]. simpl in Hp. destruct sp as [|sp]; [done|].
  destruct (find_Some _ _ _ Esp) as (m & line & -> & Hm). case_bool_decide as Hv; [|done].
  rewrite Hd in Hv. rewrite <-Hm, <-!app_assoc, take_app_length in Hv.
  exists m, line, (r ++ drop hi d). rewrite !length_app in Hla. simpl in Hla. split_and!.
  - rewrite Hd at 1. by rewrite <-!app_assoc.
  - by apply valid_method.
  - lia.
Qed.

Lemma begins_request_line d : begins_request d -> is_Some (request_line d).
Proof.
  intros (m & line & rest & -> & Hm%valid_method & Hl). pose proof (method_chars _ Hm) as (Hne & Hms & Hmc).
  unfold request_line. set (d := m ++ [32%N] ++ line ++ [13; 10]%N ++ rest).
  assert (Hd : ∃ t, slice 0 (Nat.min (length d) 4096) d = (m ++ [32%N]) ++ line ++ _CRLF ++ t).
  { unfold slice. rewrite drop_0, Nat.sub_0_r. exists (take (Nat.min (length d) 4096 - (length m + length line + 3)) rest).
    unfold d. rewrite !length_app. simpl length. rewrite !take_app.
    rewrite !(take_ge _ (_ - _)), (take_ge m) by (simpl; lia). rewrite <-!app_assoc. simpl. do 4 f_equal. f_equal. f_equal. lia. }
  destruct Hd as [t Ht]. unfold find_in at 1. rewrite Ht. unfold _CRLF at 1.
  rewrite find_skip by (rewrite elem_of_app, list_elem_of_singleton; intros [?|?]; done).
  destruct (find_occurs _CRLF line t) as (i & Hi & _). change [13%N; 10%N] with _CRLF. rewrite Hi. rewrite length_app. simpl length. cbn [fmap option_fmap option_map].
  replace (0 + (length m + 1 + i))%nat with (S (length m + i)) by lia. cbn iota.
  rewrite (find_in_at d [] m 32 [] (line ++ [13; 10]%N ++ rest)) by (simpl; done || lia).
  destruct m as [|x m]; [done|]. simpl Nat.add. cbn iota.
  change (S (length m)) with (length (x :: m)). unfold d. rewrite take_app_length, bool_decide_true by done. by eexists.
Qed.

(** Later pieces of the body are appended, unless one looks like a request. *)
Lemma more_pieces c chunks :
  Forall (fun d => ~ begins_request d) chunks ->
  foldl receive_context c chunks
  = mkReqContext (cx_method c) (cx_path c) (cx_query_string c) (cx_raw_headers c) (cx_body c ++ concat chunks).
Proof.
  intros H. revert c. induction H as [|d chunks Hd _ IH]; intros c; cbn [foldl concat].
  - rewrite app_nil_r. by destruct c.
  - rewrite IH. unfold receive_context. destruct d as [|x d]; [done|].
    destruct (request_line (x :: d)) as [p|] eqn:E; [destruct Hd; apply request_line_begins; by eexists|].
    simpl. by rewrite <-app_assoc.
Qed.

(** C17: the request kept for code that asks for it is the request sent, over
    whatever was kept before: a head in one piece gives the method, the path
    before the question mark, the query after it and the headers with their
    names in lower case and stripped; the body is the rest of that piece and
    all later pieces, provided that none of them begins with a method of HTTP,
    a space and a line.  A piece of the body that does replaces everything that
    was kept: what is left does not depend on it. *)
Theorem request_context_is_request c method target hs body chunks :
  wire_request method target hs ->
  (Forall (fun d => ~ begins_request d) chunks ->
   foldl receive_context c ((request_head method target hs ++ body) :: chunks)
   = mkReqContext (decode_latin1 method) (decode_latin1 (partition 63 target).1.1) (partition 63 target).2
       (Some ((fun h => (bytes_lower (bytes_strip h.1), bytes_strip h.2)) <$> hs)) (body ++ concat chunks))
  ∧ (∀ d c', begins_request d -> receive_context c d = receive_context c' d).
Proof.
  intros Hw. split.
  - intros Hc. cbn [foldl]. rewrite more_pieces by done. unfold receive_context.
    pose proof (request_line_head _ _ _ body Hw) as E.
    destruct (request_head method target hs ++ body) as [|x d] eqn:Ed; [done|].
    rewrite E, <-Ed. by rewrite new_context_head.
  - intros d c' [p Hp]%begins_request_line. unfold receive_context. rewrite Hp. by destruct d.
Qed.

Lemma request_context_is_request_witness :
  foldl receive_context no_context
    [request_head $"POST" $"/items?q=1" [($"Host", $"a.b"); ($"Content-Length", $"12")] ++ $"abc";
     $"a b" ++ _CRLF ++ $"defg"]
  = mkReqContext $"POST" $"/items" $"q=1" (Some [($"host", $"a.b"); ($"content-length", $"12")])
      ($"abca b" ++ _CRLF ++ $"defg").
Proof.
  refine (eq_trans (proj1 (request_context_is_request _ _ _ _ _ _ _) _) _); [| |reflexivity].
  - constructor; [unfold _VALID_HTTP_METHODS; set_solver | split; by vm_compute; set_solver | simpl; lia |].
    repeat apply Forall_cons_2; try constructor; unfold wire_text; simpl; repeat split; by vm_compute; set_solver.
  - apply Forall_singleton. intros (m & line & rest & Hd & Hm & _). destruct_or!; subst m; discriminate Hd.
Defined.

(** ** Chunked bodies *)

(** The chunked transfer coding as a client reads it (RFC 9112): sizes in
    hexadecimal, each chunk followed by a line end, a last chunk of size zero
    and no trailers; the body and what follows. *)
Fixpoint decode_chunked (fuel : nat) (s : bytes) : option (bytes * bytes) :=
  match fuel with
  | O => None
  | S fuel' =>
      match find _CRLF s with
      | Some ((S _) as e) =>
          if forallb is_hex (take e s) then
            let size := N.to_nat (hexdigits_value (take e s)) in
            let data := drop (e + 2) s in
            if startswith (drop size data) _CRLF then
              let rest := drop (size + 2) data in
              if (size =? 0)%nat then Some ([], rest)
              else match decode_chunked fuel' rest with
                   | Some (body, after) => Some (take size data ++ body, after)
                   | None => None
                   end
            else None
          else None
      | _ => None
      end
  end.

(** What the iterator gives before it ends or fails. *)
Fixpoint delivered (items : list stream_item) : bytes :=
  match items with
  | [] => []
  | i :: items' => match item_bytes i with Some b => b ++ delivered items' | None => [] end
  end.

Lemma hex_fuel_value f n : (n < 16 ^ N.of_nat f)%N -> hexdigits_value (hex_fuel f n) = n.
Proof.
  revert n. induction f as [|f IH]; intros n Hn; [cbn in *; lia|].
  assert (Hn' : (n / 16 < 16 ^ N.of_nat f)%N).
  { apply N.Div0.div_lt_upper_bound. by rewrite <-N.pow_succ_r', <-Nat2N.inj_succ. }
  assert (Hm : (n mod 16 < 16)%N) by (apply N.mod_lt; lia).
  cbn [hex_fuel]. unfold hexdigits_value. rewrite foldl_app. cbn [foldl]. rewrite hex_value_digit_lower by done.
  pose proof (N.div_mod n 16 ltac:(lia)). destruct (N.ltb_spec n 16).
  - rewrite N.mod_small by done. simpl. lia.
  - fold (hexdigits_value (hex_fuel f (n / 16))). rewrite IH by done. lia.
Qed.

Lemma hex_fuel_hex f n : Forall (fun c => is_hex c = true) (hex_fuel f n).
Proof.
  revert n. induction f as [|f IH]; intros n; [constructor|]. cbn [hex_fuel]. apply Forall_app_2.
  - destruct (n <? 16)%N; auto.
  - repeat constructor. apply is_hex_digit_lower, N.mod_lt. lia.
Qed.

Lemma size_pow n : (n < 16 ^ N.of_nat (S (N.size_nat n)))%N.
Proof.
  apply N.lt_le_trans with (2 ^ N.of_nat (N.size_nat n))%N.
  - destruct n as [|p]; [done|]. cbn [N.size_nat].
    induction p as [p IH|p IH|]; cbn [Pos.size_nat]; [| |done]; rewrite Nat2N.inj_succ, N.pow_succ_r'; lia.
  - change 16%N with (2 ^ 4)%N. rewrite <-N.pow_mul_r. apply N.pow_le_mono_r; lia.
Qed.

Lemma hex_chars n : Forall (fun c => is_hex c = true) (to_hex n) ∧ to_hex n ≠ [] ∧ hexdigits_value (to_hex n) = n.
Proof.
  split_and!; [apply hex_fuel_hex | | apply hex_fuel_value, size_pow].
  unfold to_hex. cbn [hex_fuel]. by destruct (if (n <? 16)%N then _ else _).
Qed.

Lemma hex_no_cr s : Forall (fun c => is_hex c = true) s -> 13%N ∉ s.
Proof. rewrite Forall_forall. intros H Hin%H. done. Qed.

(** One chunk of the decoder, on its own encoding. *)
Lemma decode_chunk fuel size data rest :
  length data = size ->
  decode_chunked (S fuel) (to_hex (N.of_nat size) ++ _CRLF ++ data ++ _CRLF ++ rest)
  = (if (size =? 0)%nat then Some ([], rest)
     else match decode_chunked fuel rest with Some (body, after) => Some (data ++ body, after) | None => None end).
Proof.
  intros Hs. destruct (hex_chars (N.of_nat size)) as (Hh & Hne & Hv). cbn [decode_chunked].
  unfold _CRLF at 1 2. rewrite find_first by (by apply hex_no_cr).
  set (h := to_hex (N.of_nat size)) in *. destruct (length h) as [|e] eqn:Ee; [by destruct h|].
  rewrite <-Ee. rewrite take_app_length, (proj2 (forallb_Forall _ _)) by done.
  rewrite Hv, Nat2N.id. fold _CRLF.
  replace (length h + 2)%nat with (length (h ++ _CRLF)) by (rewrite length_app; done).
  rewrite (app_assoc h), drop_app_length.
  rewrite <-Hs, drop_app_length, startswith_app, take_app_length.
  replace (length data + 2)%nat with (length (data ++ _CRLF)) by (rewrite length_app; done).
  by rewrite (app_assoc data), drop_app_length.
Qed.

(** C18: the chunks written for a streaming response decode to what its
    iterator gave, whatever follows on the connection; a stream that fails is
    terminated like a complete one, so that its truncated body decodes as well. *)
Theorem chunked_stream_decodes items rest fuel :
  (length items < fuel)%nat ->
  decode_chunked fuel (concat (stream_writes items) ++ rest) = Some (delivered items, rest).
Proof.
  assert (Hlast : ∀ f, decode_chunked (S f) (concat [$"0" ++ _CRLFCRLF] ++ rest) = Some ([], rest)).
  { intros f. by apply (decode_chunk f 0 [] rest). }
  revert fuel. induction items as [|i items IH]; intros [|fuel] Hf; cbn [stream_writes delivered length] in *;
    try lia; [apply Hlast|].
  destruct (item_bytes i) as [[|x b]|]; [apply IH; lia | | apply Hlast].
  cbn [concat]. unfold build_chunked_frame. rewrite <-!app_assoc, decode_chunk by done. simpl Nat.eqb. cbv iota.
  by rewrite IH by lia.
Qed.

Lemma chunked_stream_decodes_witness :
  concat (stream_writes [ItemStr $"hello"; ItemBytes []; ItemBytes $"!"; ItemRaise; ItemBytes $"lost"])
    = $"5" ++ _CRLF ++ $"hello" ++ _CRLF ++ $"1" ++ _CRLF ++ $"!" ++ _CRLF ++ $"0" ++ _CRLFCRLF
  ∧ decode_chunked 6 (concat (stream_writes [ItemStr $"hello"; ItemBytes []; ItemBytes $"!"; ItemRaise; ItemBytes $"lost"])
                      ++ $"HTTP")
    = Some ($"hello!", $"HTTP").
Proof. split; [reflexivity|]. rewrite chunked_stream_decodes; [reflexivity | simpl; lia]. Defined.

(** ** Facts about extra headers *)

Definition not_length (h : bytes * bytes) : Prop := bytes_lower h.1 ≠ $"content-length".
#[export] Instance not_length_dec h : Decision (not_length h) := ltac:(unfold not_length; apply _).

Lemma header_parts extra : concat (header_part <$> extra) = header_block (filter not_length extra).
Proof.
  induction extra as [|h extra IH]; [done|]. rewrite fmap_cons, filter_cons. cbn [concat]. rewrite IH.
  unfold header_part, not_length. case_bool_decide; destruct (decide _); try done.
Qed.

Lemma header_block_app hs1 hs2 : header_block (hs1 ++ hs2) = header_block hs1 ++ header_block hs2.
Proof. unfold header_block. by rewrite fmap_app, concat_app. Qed.

(** Extra headers follow the headers of a finished response, without their
    content lengths; its first line, its headers and its body are unchanged. *)
Lemma injected_headers_follow line hs extra body :
  13%N ∉ line -> Forall wire_text hs ->
  _inject_headers_into_response (line ++ header_block hs ++ _CRLFCRLF ++ body) extra
  = line ++ header_block (hs ++ filter not_length extra) ++ _CRLFCRLF ++ body.
Proof.
  intros Hl Hhs. unfold _inject_headers_into_response. unfold _CRLFCRLF at 1. rewrite find_skip by done.
  fold _CRLFCRLF. rewrite find_headers_end by done. simpl.
  replace (length line + length (header_block hs))%nat with (length (line ++ header_block hs)) by (by rewrite length_app).
  rewrite (app_assoc line), take_app_length, drop_app_length.
  by rewrite header_parts, header_block_app, <-!app_assoc.
Qed.

(** ** Facts about coroutines *)

(** A coroutine is driven like a task as long as the first awaitable gives a
    value; the exception of the first awaitable never reaches it. *)
Lemma drive_coro_spec {V} (none : V) await y k :
  _drive_coro none await y k
  = match await_yield none await y with Ok _ => drive_loop none await (CYield y k) | Raise e => Raise e end.
Proof. unfold _drive_coro. cbn [drive_loop]. by destruct (await_yield none await y). Qed.

(** So a coroutine that handles the exception of its first await fails. *)
Example first_await_not_handled :
  let handler r := match r with Ok v => CReturn v | Raise _ => CReturn 0%Z end in
  let await (_ : Z) := Raise (ValueError $"lost") : result Z in
  drive_loop 0%Z await (CYield (Some 1%Z) handler) = Ok 0%Z
  ∧ _drive_coro 0%Z await (Some 1%Z) handler = Raise (ValueError $"lost").
Proof. split; reflexivity. Qed.
