(* ===== verification/HttpProtocol.v ===== *)
(** * HttpProtocol: connections of the compiled HTTP server

    [CppHttpProtocol] and what surrounds it in [_cpp_server.py]: the pools of
    protocol objects and of WebSocket capsules, the life of a connection
    (made, data, back-pressure, upgrade, heartbeat, lost), the factory with its
    connection limit, and the keep-alive sweep.  The compiled core is a record
    of operations; an object's methods act on its attributes and on what the
    objects share; the server is the store of objects.  Times are integers. *)

From S2P Require Import Prelude PyStr Asgi MutableHeaders Responses WebSocketConn ServerCore HttpWire.
From coqutil Require Import Datatypes.RecordSetters.
Import TriangleBracketNotations.

(** ** Transports *)

(** [t_socket] is the socket, if any, and its file number, if it has one. *)
Record Transport : Type := mkTransport { t_closing : bool; t_out : list bytes; t_socket : option (option Z) }.

(** A closing transport drops what is written to it. *)
Definition t_write (b : bytes) (t : Transport) : Transport := if t_closing t then t else t<|t_out ::= fun l => l ++ [b]|>.

Definition t_close (t : Transport) : Transport := t<|t_closing := true|>.

Definition socket_fd (t : Transport) : Z := match t_socket t with Some (Some fd) => fd | _ => -1 end.

(** ** A WebSocket as its connection sees it *)
Record Ws : Type := mkWs {
  w_closed : bool;
  w_client_state : WebSocketState;
  w_close_waiter : option bool;
  w_channel : Channel._WsFastChannel;
  w_pending_sends : list (N * bytes)
}.

Definition ws_new : Ws := mkWs false CONNECTED None (Channel.init true 256 64) [].

(** A frame for the endpoint. *)
Definition feed_frame (opcode : Z) (payload : bytes) (w : Ws) : Ws :=
  w<|w_channel ::= fun c => (Channel.feed c (opcode, Channel.PBin payload)).1|>.

Definition resolve_waiter (w : Ws) : Ws := w<|w_close_waiter ::= fmap (fun _ => true)|>.

(** The handler of frames. *)
Inductive ws_mode : Type := ModeFrames | ModeEcho | ModeEchoFd | ModeJson.

(** ** The attributes of a connection *)

(** [_in_set] and [_active_count] are whether the set and the counter of the
    server are known to it; [_ws_task] is the task and whether it is done;
    [_context] is the request kept in context variables. *)
Record CppHttpProtocol : Type := mkProto {
  _ka_timeout : Z;
  _in_set : bool;
  _active_count : bool;
  _transport : option Transport;
  _http_buf : bytes;
  _ka_deadline : Z;
  _wr_paused : bool;
  _ws_handler : option ws_mode;
  _ws : option Ws;
  _ws_ring_buf : option nat;
  _ws_fd : Z;
  _ws_ping_handle : option nat;
  _ws_pong_received : bool;
  _ws_task : option (nat * bool);
  _pending_tasks : list nat;
  _sock_fd : Z;
  _ka_needs_reset : bool;
  _needs_req_ctx : bool;
  _context : ReqContext
}.

(** [__init__] *)
Definition proto_init (ka_timeout : Z) (in_set needs_ctx : bool) : CppHttpProtocol :=
  mkProto ka_timeout in_set false None [] 0 false None None None (-1) None true None [] (-1) false needs_ctx no_context.

(** [_reinit] *)
Definition _reinit (ka_timeout : Z) (in_set needs_ctx : bool) (p : CppHttpProtocol) : CppHttpProtocol :=
  p<|_ka_timeout := ka_timeout|><|_in_set := in_set|><|_active_count := false|><|_transport := None|>
   <|_http_buf := []|><|_ka_deadline := 0|><|_ka_needs_reset := false|><|_wr_paused := false|>
   <|_ws_handler := None|><|_ws := None|><|_ws_ring_buf := None|><|_ws_fd := -1|><|_sock_fd := -1|>
   <|_ws_ping_handle := None|><|_ws_pong_received := true|><|_ws_task := None|><|_pending_tasks := []|>
   <|_needs_req_ctx := needs_ctx|>.

Definition is_open (p : CppHttpProtocol) : bool :=
  match _transport p with Some t => negb (t_closing t) | None => false end.

Definition p_write (b : bytes) (p : CppHttpProtocol) : CppHttpProtocol := p<|_transport ::= fmap (t_write b)|>.
Definition p_close (p : CppHttpProtocol) : CppHttpProtocol := p<|_transport ::= fmap t_close|>.

(** [_ka_reset], [_ka_cancel] *)
Definition _ka_reset (now : Z) (p : CppHttpProtocol) : CppHttpProtocol := p<|_ka_deadline := now + _ka_timeout p|>.
Definition _ka_cancel (p : CppHttpProtocol) : CppHttpProtocol := p<|_ka_deadline := 0|>.

Definition pause_writing (p : CppHttpProtocol) : CppHttpProtocol := p<|_wr_paused := true|>.

(** ** The compiled core *)

(** What handling the buffer gives: a number, nothing, [False], [True] (no
    WebSocket route), an upgrade with the endpoint, if any, a request to finish
    in Python (a tuple by its tag, or an [InlineResult]), or something else. *)
Inductive request_task : Type := TAsync (r : Z) | TMiddleware (r : Z) | TStream (r : Z) | TAsyncDi (r : Z) | TPydantic (r : Z)
  | TWebSocket (endpoint : Z).

Inductive reply : Type :=
  | RInt (n : Z) | RNone | RFalse | RTrue | RWs (endpoint : option Z) | RTask (t : request_task) | ROther.

(** A call of the core: the reply, the buffer after it, what it wrote and
    whether it closed the transport. *)
Record dispatch : Type := mkDispatch { d_reply : reply; d_buf : bytes; d_writes : list bytes; d_close : bool }.

(** Parsing WebSocket bytes in a capsule [R]: pongs to send, the payload of a
    close frame, and the frames for the endpoint. *)
Record Core (R : Type) : Type := mkCore {
  ring_new : R;
  buf_append : bytes -> bytes -> option bytes;
  max_body_size : Z;
  append_dispatch : option (bytes -> bytes -> dispatch);
  core_batch : bytes -> dispatch;
  start_task : request_task -> list bytes * bool;
  handle_and_feed : R -> bytes -> R * result (option (option bytes * option bytes * list Channel.frame));
  handle_echo : R -> bytes -> R * option (option bytes * option bytes);
  handle_echo_fd : R -> bytes -> Z -> R * (Z + bytes);
  flush_echo : R -> Z -> R * Z;
  handle_json : R -> bytes -> R * result (option (list (Z * bytes) * option bytes));
  close_frame : Z -> bytes;
  data_frames : list (N * bytes) -> bytes
}.
Arguments mkCore {R}. Arguments ring_new {R}. Arguments buf_append {R}. Arguments max_body_size {R}.
Arguments append_dispatch {R}. Arguments core_batch {R}. Arguments start_task {R}. Arguments handle_and_feed {R}.
Arguments handle_echo {R}. Arguments handle_echo_fd {R}. Arguments flush_echo {R}. Arguments handle_json {R}.
Arguments close_frame {R}. Arguments data_frames {R}.

Inductive callback : Type := CDrain | CFlushEcho.

(** What the objects share: WebSocket metrics, the pool of capsules and their
    contents, fresh names, the timers and callbacks of the event loop by object,
    the tasks cancelled, the rate-limited address and the pressure flag of the
    core, the counter and the set of connections and the pool of objects. *)
Record Shared (R : Type) : Type := mkShared {
  ws_active : Z;
  ws_total : Z;
  _capsules : list nat;
  rings : gmap nat R;
  next_ring : nat;
  next_task : nat;
  next_timer : nat;
  timers : gmap nat nat;
  soon : list (nat * callback);
  cancelled : list nat;
  client_ip : option str;
  force_close : bool;
  active_count : Z;
  active_connections : gset nat;
  _pool : list nat
}.
Arguments mkShared {R}. Arguments ws_active {R}. Arguments ws_total {R}. Arguments _capsules {R}. Arguments rings {R}.
Arguments next_ring {R}. Arguments next_task {R}. Arguments next_timer {R}. Arguments timers {R}. Arguments soon {R}.
Arguments cancelled {R}. Arguments client_ip {R}. Arguments force_close {R}. Arguments active_count {R}.
Arguments active_connections {R}. Arguments _pool {R}.

Section protocol.
Context {R : Type} (core : Core R).

(** An object with what is shared. *)
Record St : Type := mkSt { me : CppHttpProtocol; env : Shared R }.

Definition on_me (f : CppHttpProtocol -> CppHttpProtocol) (s : St) : St := mkSt (f (me s)) (env s).
Definition on_env (f : Shared R -> Shared R) (s : St) : St := mkSt (me s) (f (env s)).
Definition on_ws (f : Ws -> Ws) : St -> St := on_me (fun p => p<|_ws ::= fmap f|>).

(** *** Capsules *)

(** [_ws_ring_buffer_reset] *)
Definition ring_reset (r : nat) (g : Shared R) : Shared R := g<|rings ::= <[r := ring_new core]>|>.

Definition _ws_pool_acquire (g : Shared R) : nat * Shared R :=
  match last (_capsules g) with
  | Some r => (r, ring_reset r (g<|_capsules := removelast (_capsules g)|>))
  | None => (next_ring g, ring_reset (next_ring g) (g<|next_ring := S (next_ring g)|>))
  end.

Definition _ws_pool_release (r : nat) (g : Shared R) : Shared R :=
  if (length (_capsules g) <? 64)%nat then (ring_reset r g)<|_capsules ::= fun l => l ++ [r]|> else g.

Definition my_ring (s : St) : R :=
  get_or (r ← _ws_ring_buf (me s); rings (env s) !! r) (ring_new core).

Definition put_ring (x : R) (s : St) : St :=
  match _ws_ring_buf (me s) with Some r => on_env (fun g => g<|rings ::= <[r := x]>|>) s | None => s end.

(** *** WebSocket frames *)

(** [_send_close_response] *)
Definition _send_close_response (payload : bytes) : St -> St :=
  let code := match payload with a :: b :: _ => (Z.of_N a * 256 + Z.of_N b)%Z | _ => 1000 end in
  on_me (p_write (close_frame core code)).

(** What the core does with the frames: the first resolves a pending waiter,
    the others are appended to the buffer. *)
Definition native_feed (frames : list Channel.frame) (c : Channel._WsFastChannel) : Channel._WsFastChannel :=
  match Channel._waiter c, frames with
  | Some false, _ :: fs => (Channel.with_waiter c (Some true))<|Channel._buffer ::= fun l => l ++ fs|>
  | _, fs => c<|Channel._buffer ::= fun l => l ++ fs|>
  end.

Definition clear_done_waiter (c : Channel._WsFastChannel) : Channel._WsFastChannel :=
  match Channel._waiter c with Some true => Channel.with_waiter c None | _ => c end.

(** [ws._flush_pending()] when there is something to send *)
Definition flush_pending (s : St) : St :=
  match _ws (me s) with
  | Some w =>
      match w_pending_sends w with
      | [] => s
      | l => on_ws (fun w => w<|w_pending_sends := []|>) (on_me (p_write (data_frames core l)) s)
      end
  | None => s
  end.

Definition peer_closes (payload : bytes) (feed : bool) (w : Ws) : Ws :=
  let w := resolve_waiter (w<|w_closed := true|><|w_client_state := DISCONNECTED|>) in
  if feed then feed_frame 8 payload w else w.

Definition _handle_ws_frames (data : bytes) (s : St) : St :=
  match _ws (me s) with
  | None => s
  | Some w =>
      let '(x, r) := handle_and_feed core (my_ring s) data in
      let s := put_ring x s in
      match r with
      | Raise _ => on_me p_close s
      | Ok None => s
      | Ok (Some (pong, close, frames)) =>
          let s := on_ws (fun w => w<|w_channel ::= native_feed frames|>) s in
          let s := if (0 <? length frames)%nat then on_ws (fun w => w<|w_channel ::= clear_done_waiter|>) s else s in
          let s := match pong with Some b => on_me (p_write b) s | None => s end in
          let s := match close with
                   | None => s
                   | Some payload =>
                       let s := if w_closed w then s else on_ws (peer_closes payload (length frames =? 0)%nat) s in
                       put_ring (ring_new core) (_send_close_response payload s)
                   end in
          flush_pending s
      end
  end.

Definition _handle_ws_frames_echo (data : bytes) (s : St) : St :=
  let '(x, r) := handle_echo core (my_ring s) data in
  let s := put_ring x s in
  match r with
  | None => s
  | Some (echo, close) =>
      let s := match echo with Some b => on_me (p_write b) s | None => s end in
      match close, _ws (me s) with
      | Some payload, Some _ => _send_close_response payload (on_ws (peer_closes payload true) s)
      | _, _ => s
      end
  end.

Definition call_soon (self : nat) (c : callback) : St -> St := on_env (fun g => g<|soon ::= fun l => l ++ [(self, c)]|>).

(** Status 0 is done, -1 is "would block", a close frame is its payload. *)
Definition _handle_ws_frames_echo_fd (self : nat) (data : bytes) (s : St) : St :=
  let '(x, r) := handle_echo_fd core (my_ring s) data (_ws_fd (me s)) in
  let s := put_ring x s in
  match r with
  | inl 0 => s
  | inl (-1) => call_soon self CFlushEcho s
  | inl _ => s
  | inr payload =>
      match _ws (me s) with
      | Some _ => _send_close_response payload (on_ws (peer_closes payload true) s)
      | None => s
      end
  end.

Definition _flush_ws_echo_pending (self : nat) (s : St) : St :=
  if _ws_fd (me s) <? 0 then s
  else let '(x, r) := flush_echo core (my_ring s) (_ws_fd (me s)) in
       let s := put_ring x s in
       if r =? -1 then call_soon self CFlushEcho s else s.

(** [_feed_frames]: a close frame ends it; data goes to the waiter at the start,
    if it was pending, then to the buffer. *)
Fixpoint _feed_frames (frames : list (Z * bytes)) (s : St) : St :=
  match frames with
  | [] => s
  | (op, payload) :: frames' =>
      let deliver c := match Channel._waiter c with
                       | Some false => Channel.with_waiter c None
                       | _ => c<|Channel._buffer ::= fun l => l ++ [(op, Channel.PBin payload)]|>
                       end in
      if op =? 8 then
        let s := on_ws (fun w => (resolve_waiter w)<|w_channel ::= deliver|>) s in
        put_ring (ring_new core) (_send_close_response payload s)
      else _feed_frames frames' (on_ws (fun w => w<|w_channel ::= deliver|>) s)
  end.

Definition _handle_ws_frames_json (data : bytes) (s : St) : St :=
  match _ws (me s) with
  | None => s
  | Some _ =>
      let '(x, r) := handle_json core (my_ring s) data in
      let s := put_ring x s in
      match r with
      | Raise _ => on_me p_close s
      | Ok None => s
      | Ok (Some (frames, pong)) =>
          let s := match pong with Some b => on_me (p_write b) s | None => s end in
          flush_pending (_feed_frames frames s)
      end
  end.

Definition run_ws_handler (self : nat) (data : bytes) (s : St) : St :=
  match _ws_handler (me s) with
  | Some ModeFrames => _handle_ws_frames data s
  | Some ModeEcho => _handle_ws_frames_echo data s
  | Some ModeEchoFd => _handle_ws_frames_echo_fd self data s
  | Some ModeJson => _handle_ws_frames_json data s
  | None => s
  end.

(** *** The heartbeat *)

(** [loop.call_later]: a new timer of this object. *)
Definition arm_ping (self : nat) (s : St) : St :=
  mkSt ((me s)<|_ws_ping_handle := Some (next_timer (env s))|>)
       ((env s)<|timers ::= <[next_timer (env s) := self]>|><|next_timer ::= S|>).

Definition _start_ws_heartbeat (self : nat) (s : St) : St := arm_ping self (on_me (fun p => p<|_ws_pong_received := true|>) s).

Definition _PING_FRAME : bytes := [137; 0]%N.

(** [_send_ws_ping], after its timer has fired *)
Definition _send_ws_ping (self : nat) (s : St) : St :=
  let s := on_me (fun p => p<|_ws_ping_handle := None|>) s in
  match _ws (me s) with
  | None => s
  | Some w =>
      if w_closed w then s
      else if negb (is_open (me s)) then s
      else if negb (_ws_pong_received (me s)) then
        on_me p_close (on_ws (fun w => feed_frame 8 [] (w<|w_closed := true|>)) s)
      else arm_ping self (on_me (fun p => p_write _PING_FRAME (p<|_ws_pong_received := false|>)) s)
  end.

Definition _stop_ws_heartbeat (s : St) : St :=
  match _ws_ping_handle (me s) with
  | Some h => mkSt ((me s)<|_ws_ping_handle := None|>) ((env s)<|timers ::= delete h|>)
  | None => s
  end.

(** *** The life of a connection *)

(** [connection_made]; [peer] is the address, read when rates are limited. *)
Definition connection_made (rate_limit : bool) (t : Transport) (peer : option str) (now : Z) (s : St) : St :=
  let s := on_me (fun p => p<|_transport := Some t|><|_context := no_context|>) s in
  let s := match t_socket t with Some _ => on_me (fun p => p<|_sock_fd := socket_fd t|>) s | None => s end in
  let s := match peer with
           | Some ip => if rate_limit then on_env (fun g => g<|client_ip := Some ip|>) s else s
           | None => s
           end in
  on_me (_ka_reset now) s.

(** The pool of protocol objects. *)
Definition pool_max_size : nat := 2048.

Definition release (self : nat) (g : Shared R) : Shared R :=
  if (length (_pool g) <? pool_max_size)%nat then g<|_pool ::= fun l => l ++ [self]|> else g.

Definition trim (target : nat) (g : Shared R) : Shared R := g<|_pool ::= take target|>.

Definition drop_ws_task (s : St) : St :=
  match _ws_task (me s) with
  | Some (t, false) => mkSt ((me s)<|_ws_task := None|>) ((env s)<|cancelled ::= cons t|>)
  | _ => s
  end.

(** The counters: [active_connections] of the metrics, and the server's. *)
Definition metrics_lost (s : St) : St :=
  match _ws (me s) with Some _ => on_env (fun g => g<|ws_active ::= fun n => Z.max 0 (n - 1)|>) s | None => s end.

Definition ws_lost (w : Ws) : Ws :=
  if w_closed w then w else feed_frame 8 [] (resolve_waiter (w<|w_closed := true|>)).

Definition release_ring (s : St) : St :=
  match _ws_ring_buf (me s) with
  | Some r => mkSt ((me s)<|_ws_ring_buf := None|>) (_ws_pool_release r (env s))
  | None => s
  end.

Context (threshold : Z).

Definition count_lost (g : Shared R) : Shared R :=
  let g := g<|active_count ::= Z.pred|> in
  if (active_count g <=? threshold) && force_close g then g<|force_close := false|> else g.

(** Tasks, timers, the WebSocket, the buffer and the capsule are given up. *)
Definition released (s : St) : St :=
  let s := mkSt ((me s)<|_pending_tasks := []|>) ((env s)<|cancelled ::= app (_pending_tasks (me s))|>) in
  let s := drop_ws_task (_stop_ws_heartbeat (on_me _ka_cancel s)) in
  let s := on_ws ws_lost (metrics_lost s) in
  release_ring (on_me (fun p => p<|_http_buf := []|>) s).

(** The server's set and counter, and the pool. *)
Definition discounted (self : nat) (s : St) : St :=
  let s := if _in_set (me s) then on_env (fun g => g<|active_connections ::= fun l => l ∖ {[self]}|>) s else s in
  let s := if _active_count (me s) then on_env count_lost s else s in
  on_env (release self) s.

Definition connection_lost (self : nat) (s : St) : St :=
  discounted self (on_me (fun p => p<|_ws_fd := -1|><|_sock_fd := -1|><|_transport := None|>) (released s)).

(** *** Data *)
Definition response_413 : bytes := $"HTTP/1.1 413 Payload Too Large" ++ _CRLF ++ $"content-length: 0" ++ _CRLF ++ $"connection: close" ++ _CRLFCRLF.
Definition response_413_entity : bytes :=
  $"HTTP/1.1 413 Request Entity Too Large" ++ _CRLF ++ $"content-length: 0" ++ _CRLF ++ $"connection: close" ++ _CRLFCRLF.

Definition refuse (p : CppHttpProtocol) : CppHttpProtocol := if is_open p then p_close (p_write response_413 p) else p.
Definition clear_buf (p : CppHttpProtocol) : CppHttpProtocol := p<|_http_buf := []|>.

(** The effect of a call of the core. *)
Definition after_core (d : dispatch) (p : CppHttpProtocol) : CppHttpProtocol :=
  let p := foldr p_write p (reverse (d_writes d)) in
  let p := if d_close d then p_close p else p in
  p<|_http_buf := d_buf d|>.

(** A task that is not done at once is pending. *)
Definition create_task (t : request_task) (s : St) : St * nat * bool :=
  let '(writes, done) := start_task core t in
  let id := next_task (env s) in
  (mkSt (foldr p_write (me s) (reverse writes)) ((env s)<|next_task := S id|>), id, done).

Definition request_task_created (t : request_task) (s : St) : St :=
  let '(s, id, done) := create_task t s in
  if done then s else on_me (fun p => p<|_pending_tasks ::= cons id|>) s.

Definition no_websocket (p : CppHttpProtocol) : CppHttpProtocol :=
  clear_buf (if is_open p then p_close (p_write (close_frame core 1000) p) else p).

(** The upgrade; bytes that came with it are frames. *)
Definition upgrade (self : nat) (endpoint : Z) (s : St) : St :=
  let s := on_me (fun p => p<|_ws := Some ws_new|>) s in
  let s := on_env (fun g => g<|ws_active ::= Z.succ|><|ws_total ::= Z.succ|>) s in
  let s := on_me (fun p => (_ka_cancel p)<|_ws_fd := match _transport p with Some t => socket_fd t | None => -1 end|>) s in
  let '(r, g) := _ws_pool_acquire (env s) in
  let s := mkSt ((me s)<|_ws_ring_buf := Some r|><|_ws_handler := Some ModeFrames|>) g in
  let s := _start_ws_heartbeat self s in
  let '(s, id, done) := create_task (TWebSocket endpoint) s in
  let s := on_me (fun p => p<|_ws_task := Some (id, done)|>) s in
  let remaining := _http_buf (me s) in
  let s := on_me clear_buf s in
  match remaining with [] => s | _ => run_ws_handler self remaining s end.

Definition core_failed (p : CppHttpProtocol) : CppHttpProtocol := clear_buf (p_close p).

(** The loop over replies that need Python; [None] is out of fuel. *)
Fixpoint dispatch_loop (fuel : nat) (self : nat) (r : reply) (s : St) : option St :=
  match fuel with
  | O => None
  | S fuel' =>
      let next s :=
        let d := core_batch core (_http_buf (me s)) in
        let s := on_me (after_core d) s in
        match d_reply d with
        | RInt n =>
            Some (if n =? 0 then on_me (fun p => p<|_ka_needs_reset := true|>) s
                  else if n =? -2 then on_me core_failed s else s)
        | RNone => Some s
        | RFalse => Some (on_me core_failed s)
        | r => dispatch_loop fuel' self r s
        end in
      match r with
      | RTrue => Some (on_me no_websocket s)
      | RWs None => Some (on_me no_websocket s)
      | RWs (Some ep) => Some (upgrade self ep s)
      | RTask t => next (request_task_created t s)
      | _ => next s
      end
  end.

(** The first call of the core: the fused one, or append then handle. *)
Definition first_call (fuel : nat) (self : nat) (data : bytes) (s : St) : option St :=
  let reset := on_me (fun p => p<|_ka_needs_reset := true|>) in
  match append_dispatch core with
  | Some ad =>
      let d := ad (_http_buf (me s)) data in
      let s := on_me (after_core d) s in
      match d_reply d with
      | RInt n =>
          Some (if 0 <=? n then reset s
                else if n =? -1 then s
                else if n =? -2 then on_me core_failed s
                else on_me refuse s)
      | r => dispatch_loop fuel self r s
      end
  | None =>
      match buf_append core (_http_buf (me s)) data with
      | None => Some (on_me refuse s)
      | Some buf =>
          let d := core_batch core buf in
          let s := on_me (after_core d) s in
          match d_reply d with
          | RInt n => Some (if 0 <=? n then reset s else if n =? -2 then on_me core_failed s else s)
          | RNone => Some s
          | RFalse => Some (on_me core_failed s)
          | r => dispatch_loop fuel self r s
          end
      end
  end.

(** [data_received]; [overrides] is whether dependency overrides are active. *)
Definition data_received (fuel : nat) (overrides : bool) (self : nat) (data : bytes) (s : St) : option St :=
  match _ws (me s), _transport (me s) with
  | Some _, _ => Some (run_ws_handler self data (on_me (fun p => p<|_ws_pong_received := true|>) s))
  | None, t =>
      if _wr_paused (me s) then
        Some (match buf_append core (_http_buf (me s)) data with
              | Some buf => on_me (fun p => p<|_http_buf := buf|>) s
              | None => on_me refuse s
              end)
      else match t with
      | None => Some s
      | Some _ =>
          let total := Z.of_nat (length (_http_buf (me s)) + length data) in
          if (0 <? max_body_size core) && (max_body_size core + 8192 <? total) then
            Some (on_me (fun p => p_close (p_write response_413_entity p)) s)
          else
            let s := if _needs_req_ctx (me s) || overrides
                     then on_me (fun p => p<|_context ::= fun c => receive_context c data|>) s else s in
            first_call fuel self data s
      end
  end.

(** *** Back-pressure *)
Definition resume_writing (self : nat) (s : St) : St :=
  let s := on_me (fun p => p<|_wr_paused := false|>) s in
  if (0 <? length (_http_buf (me s)))%nat && is_open (me s) then call_soon self CDrain s else s.

Definition _drain_buf (fuel : nat) (overrides : bool) (self : nat) (s : St) : option St :=
  if _wr_paused (me s) || (length (_http_buf (me s)) =? 0)%nat then Some s
  else match data_received fuel overrides self [] s with
       | None => None
       | Some s' =>
           Some (if negb (_wr_paused (me s')) && (0 <? length (_http_buf (me s')))%nat then call_soon self CDrain s' else s')
       end.
End protocol.

(** ** The server *)
Section server.
Context {R : Type} (core : Core R).

(** The store of protocol objects and what they share. *)
Record Server : Type := mkServer { protos : gmap nat CppHttpProtocol; shared : Shared R; next_proto : nat }.

(** The environment and the arguments of [run_server] and [_create_server]. *)
Record Config : Type := mkConfig {
  _MAX_CONNECTIONS : Z;
  keep_alive_timeout : Z;
  app_needs_req_ctx : bool;
  _RATE_LIMIT_ENABLED : bool;
  overrides_active : bool;
  loop_fuel : nat
}.

Definition _PRESSURE_THRESHOLD (cfg : Config) : Z :=
  if 0 <? _MAX_CONNECTIONS cfg then _MAX_CONNECTIONS cfg * 4 `div` 5 else 16384.

Context (cfg : Config).

Definition no_server : Server :=
  mkServer ∅ (mkShared 0 0 [] ∅ 0 0 0 ∅ [] [] None false 0 ∅ []) 0.

(** The objects made in advance. *)
Definition prewarm_one (s : Server) : Server :=
  mkServer (<[next_proto s := proto_init (keep_alive_timeout cfg) false (app_needs_req_ctx cfg)]> (protos s))
    (release (next_proto s) (shared s)) (S (next_proto s)).

Definition prewarm (n : nat) : Server -> Server :=
  Nat.iter (if _MAX_CONNECTIONS cfg =? 0 then n else Nat.min n (Z.to_nat (_MAX_CONNECTIONS cfg))) prewarm_one.

(** [_ProtocolPool.acquire] *)
Definition acquire (s : Server) : nat * Server :=
  match last (_pool (shared s)) with
  | Some self =>
      (self, mkServer (alter (_reinit (keep_alive_timeout cfg) true (app_needs_req_ctx cfg)) self (protos s))
               ((shared s)<|_pool := removelast (_pool (shared s))|>) (next_proto s))
  | None =>
      (next_proto s,
       mkServer (<[next_proto s := proto_init (keep_alive_timeout cfg) true (app_needs_req_ctx cfg)]> (protos s))
         (shared s) (S (next_proto s)))
  end.

(** [_protocol_factory]; [None] is a [_RejectProtocol]. *)
Definition _protocol_factory (s : Server) : option (nat * Server) :=
  if (0 <? _MAX_CONNECTIONS cfg) && (_MAX_CONNECTIONS cfg <=? active_count (shared s)) then None
  else
    let g := (shared s)<|active_count ::= Z.succ|> in
    let g := if (0 <? _PRESSURE_THRESHOLD cfg) && (_PRESSURE_THRESHOLD cfg <? active_count g) && negb (force_close g)
             then g<|force_close := true|> else g in
    let '(self, s) := acquire (mkServer (protos s) g (next_proto s)) in
    Some (self, mkServer (alter (fun p => p<|_active_count := true|>) self (protos s))
                  ((shared s)<|active_connections ::= union {[self]}|>) (next_proto s)).

(** A method of an object. *)
Definition call (self : nat) (f : St (R:=R) -> option St) (s : Server) : option Server :=
  p ← protos s !! self;
  st ← f (mkSt p (shared s));
  Some (mkServer (<[self := me st]> (protos s)) (env st) (next_proto s)).

(** A connection is accepted, or refused with a response of its own. *)
Definition response_503 : bytes :=
  $"HTTP/1.1 503 Service Unavailable" ++ _CRLF ++ $"Content-Length: 0" ++ _CRLF ++ $"Connection: close" ++ _CRLFCRLF.

Definition accept (t : Transport) (peer : option str) (now : Z) (s : Server) : option Server * Transport :=
  match _protocol_factory s with
  | None => (Some s, t_close (t_write response_503 t))
  | Some (self, s) => (call self (fun st => Some (connection_made (_RATE_LIMIT_ENABLED cfg) t peer now st)) s, t)
  end.

(** [_ka_sweep]: what a pass does to one connection, if it does not yield between
    looking at it and closing the expired ones. *)
Definition sweep_one (now : Z) (p : CppHttpProtocol) : CppHttpProtocol :=
  match _transport p with
  | None => p
  | Some _ =>
      if _ka_needs_reset p then (_ka_reset now p)<|_ka_needs_reset := false|>
      else if (0 <? _ka_deadline p) && (_ka_deadline p <? now) then p_close p
      else p
  end.

(** The pass looks at the objects of a snapshot, giving way to the event loop
    after 512 of them, and closes the expired ones at its end, whatever has become
    of them.  Its local variables are kept while it waits. *)
Record Sweep : Type := mkSweep { sw_now : Z; sw_todo : list nat; sw_expired : list nat }.

Definition on_proto (f : CppHttpProtocol -> CppHttpProtocol) (i : nat) (s : Server) : Server :=
  mkServer (alter f i (protos s)) (shared s) (next_proto s).

Definition ka_check (now : Z) (p : CppHttpProtocol) : CppHttpProtocol :=
  if _ka_needs_reset p then (_ka_reset now p)<|_ka_needs_reset := false|> else p.
Definition ka_expired (now : Z) (p : CppHttpProtocol) : bool :=
  negb (_ka_needs_reset p) && ((0 <? _ka_deadline p) && (_ka_deadline p <? now)).

Fixpoint _ka_sweep (checked : nat) (now : Z) (todo expired : list nat) (s : Server) : Server * option Sweep :=
  match todo with
  | [] => (foldl (fun s i => on_proto p_close i s) s expired, None)
  | i :: todo' =>
      match protos s !! i with
      | Some p =>
          match _transport p with
          | None => _ka_sweep checked now todo' expired s
          | Some _ =>
              let expired := if ka_expired now p then expired ++ [i] else expired in
              let s := on_proto (ka_check now) i s in
              if (S checked =? 512)%nat then (s, Some (mkSweep now todo' expired))
              else _ka_sweep (S checked) now todo' expired s
          end
      | None => _ka_sweep checked now todo' expired s
      end
  end.

(** [_pool_trim]: one pass. *)
Definition _pool_trim (s : Server) : Server :=
  mkServer (protos s) (trim (Z.to_nat (Z.max 64 (active_count (shared s) `div` 2))) (shared s)) (next_proto s).

(** [_signal_handler] *)
Definition _signal_handler (s : Server) : Server :=
  mkServer (map_imap (fun i p => Some (if bool_decide (i ∈ active_connections (shared s)) then p_close p else p))
              (protos s)) (shared s) (next_proto s).

(** A timer of the event loop fires. *)
Definition fire (h : nat) (s : Server) : option Server :=
  self ← timers (shared s) !! h;
  call self (fun st => Some (_send_ws_ping self st)) (mkServer (protos s) ((shared s)<|timers ::= delete h|>) (next_proto s)).

(** The first callback of the event loop. *)
Definition run_soon (s : Server) : option Server :=
  match soon (shared s) with
  | [] => None
  | (self, c) :: rest =>
      call self (fun st => match c with
                           | CDrain => _drain_buf core (loop_fuel cfg) (overrides_active cfg) self st
                           | CFlushEcho => Some (_flush_ws_echo_pending core self st)
                           end) (mkServer (protos s) ((shared s)<|soon := rest|>) (next_proto s))
  end.

(** What the event loop, the tasks and the endpoints do.  A task or an endpoint
    writes to the transport, closes it, changes its WebSocket or its mode; a
    task ends.  A connection is made and lost at most once by the event loop. *)
Definition live (s : Server) (self : nat) : Prop := self ∈ active_connections (shared s).

Inductive step : Server -> Server -> Prop :=
  | step_accept s t peer now s' : (accept t peer now s).1 = Some s' -> step s s'
  | step_data s self data s' :
      live s self ->
      call self (data_received core (loop_fuel cfg) (overrides_active cfg) self data) s = Some s' -> step s s'
  | step_pause s self s' : live s self -> call self (fun st => Some (on_me pause_writing st)) s = Some s' -> step s s'
  | step_resume s self s' : live s self -> call self (fun st => Some (resume_writing self st)) s = Some s' -> step s s'
  | step_soon s s' : run_soon s = Some s' -> step s s'
  | step_timer s h s' : fire h s = Some s' -> step s s'
  | step_write s self b s' : live s self -> call self (fun st => Some (on_me (p_write b) st)) s = Some s' -> step s s'
  | step_close s self s' : live s self -> call self (fun st => Some (on_me p_close st)) s = Some s' -> step s s'
  | step_endpoint s self f s' : live s self -> call self (fun st => Some (on_ws f st)) s = Some s' -> step s s'
  | step_mode s self m s' :
      live s self -> call self (fun st => Some (on_me (fun p => p<|_ws_handler := Some m|>) st)) s = Some s' -> step s s'
  | step_task_done s self f s' :
      live s self -> call self (fun st => Some (on_me (fun p => p<|_pending_tasks ::= f|>) st)) s = Some s' -> step s s'
  | step_lost s self s' :
      live s self ->
      call self (fun st => Some (connection_lost core (_PRESSURE_THRESHOLD cfg) self st)) s = Some s' -> step s s'
  | step_trim s : step s (_pool_trim s)
  | step_signal s : step s (_signal_handler s).

(** The event loop runs these and the sweep, which begins with a snapshot of the
    live connections and goes on where it gave way. *)
Inductive loop_step : Server * option Sweep -> Server * option Sweep -> Prop :=
  | loop_server s s' sw : step s s' -> loop_step (s, sw) (s', sw)
  | loop_sweep s now snapshot :
      snapshot ≡ₚ elements (active_connections (shared s)) -> loop_step (s, None) (_ka_sweep 0 now snapshot [] s)
  | loop_resume s sw : loop_step (s, Some sw) (_ka_sweep 0 (sw_now sw) (sw_todo sw) (sw_expired sw) s).

Inductive reaches : Server * option Sweep -> Prop :=
  | reach_init n : reaches (prewarm n no_server, None)
  | reach_step l l' : reaches l -> loop_step l l' -> reaches l'.

Definition reachable (s : Server) : Prop := ∃ sw, reaches (s, sw).
End server.
