(* ===== verification/HttpProtocolFacts.v ===== *)
(** * HttpProtocolFacts: theorems about connections of the compiled server

    Most methods are quiet: they change neither what makes an object live
    (transport, WebSocket, capsule, heartbeat) nor the shared counters, sets and
    pools.  The others (making, upgrading, losing a connection, the heartbeat)
    are followed one by one, and the invariant of the server follows. *)

From S2P Require Import Prelude PyStr Asgi MutableHeaders Responses WebSocketConn ServerCore HttpWire HttpProtocol.
From coqutil Require Import Datatypes.RecordSetters.
Import TriangleBracketNotations.

Definition is_some {A} (o : option A) : bool := match o with Some _ => true | None => false end.

(** ** Quiet methods *)
Definition face (p : CppHttpProtocol) :=
  (_in_set p, _active_count p, is_some (_transport p), is_some (_ws p), _ws_ring_buf p, _ws_ping_handle p).

Definition shared_face {R} (g : Shared R) :=
  (ws_active g, _capsules g, next_ring g, timers g, next_timer g, force_close g, active_count g,
   active_connections g, _pool g).

Definition quiet {R} (s s' : St (R:=R)) : Prop := face (me s') = face (me s) ∧ shared_face (env s') = shared_face (env s).

Lemma is_some_fmap {A B} (f : A -> B) (o : option A) : is_some (f <$> o) = is_some o.
Proof. by destruct o. Qed.

Section quiet.
Context {R : Type} (core : Core R).

Lemma quiet_refl (s : St (R:=R)) : quiet s s.
Proof. done. Qed.

Lemma quiet_trans (s1 s2 s3 : St (R:=R)) : quiet s1 s2 -> quiet s2 s3 -> quiet s1 s3.
Proof. intros [? ?] [? ?]. split; congruence. Qed.

#[export] Instance quiet_preorder : PreOrder (quiet (R:=R)).
Proof. split; [exact quiet_refl | exact quiet_trans]. Qed.

Lemma quiet_me (f : CppHttpProtocol -> CppHttpProtocol) (s0 s : St (R:=R)) :
  (∀ p, face (f p) = face p) -> quiet s0 s -> quiet s0 (on_me f s).
Proof. intros Hf Hs. etrans; [exact Hs|]. split; [apply Hf | done]. Qed.

Lemma quiet_ws (f : Ws -> Ws) (s0 s : St (R:=R)) : quiet s0 s -> quiet s0 (on_ws f s).
Proof. intros Hs. apply quiet_me; [|done]. intros []. unfold face. cbn. by rewrite is_some_fmap. Qed.

Lemma quiet_env (f : Shared R -> Shared R) (s0 s : St (R:=R)) :
  (∀ g, shared_face (f g) = shared_face g) -> quiet s0 s -> quiet s0 (on_env f s).
Proof. intros Hf Hs. etrans; [exact Hs|]. split; [done | apply Hf]. Qed.

Lemma face_write b p : face (p_write b p) = face p.
Proof. destruct p. unfold face. cbn. by rewrite is_some_fmap. Qed.

Lemma face_close p : face (p_close p) = face p.
Proof. destruct p. unfold face. cbn. by rewrite is_some_fmap. Qed.

Lemma face_writes l p : face (foldr p_write p l) = face p.
Proof. induction l as [|b l IH]; [done|]. cbn [foldr]. by rewrite face_write. Qed.

Lemma face_refuse p : face (refuse p) = face p.
Proof. unfold refuse. destruct (is_open p); by rewrite ?face_close, ?face_write. Qed.

Lemma face_after_core d p : face (after_core d p) = face p.
Proof.
  unfold after_core. rewrite <-(face_writes (reverse (d_writes d)) p).
  set (q := foldr p_write p (reverse (d_writes d))). clearbody q.
  destruct (d_close d); [rewrite <-(face_close q)|]; done.
Qed.

Lemma face_failed p : face (core_failed p) = face p.
Proof. by rewrite <-(face_close p). Qed.

Lemma face_no_websocket p : face (no_websocket core p) = face p.
Proof.
  unfold no_websocket. destruct (is_open p); [|done].
  by rewrite <-(face_write (close_frame core 1000) p), <-(face_close (p_write _ p)).
Qed.
End quiet.

Ltac use_eqs := repeat match goal with H : ?l = _ |- context [?l] => rewrite H end.

(** Peels the steps of a method off a quiet relation. *)
Ltac quiet_step :=
  match goal with
  | |- quiet ?s ?s => reflexivity
  | |- quiet _ (on_ws _ _) => apply quiet_ws
  | |- quiet _ (on_me _ _) => apply quiet_me; [intros ?; repeat first [rewrite face_write | rewrite face_close | rewrite face_writes]; try done|]
  | |- quiet _ (on_env _ _) => apply quiet_env; [intros ?; done|]
  | |- quiet _ (match ?x with _ => _ end) => destruct x
  | |- quiet _ (if ?x then _ else _) => destruct x
  end.

Ltac solve_quiet := repeat (cbv zeta; first [ assumption | quiet_step ]).

(** ** What handlers of frames do *)

(** The handlers of WebSocket frames write, close, change the WebSocket, the
    contents of capsules and the callbacks, and nothing else. *)
Inductive touches {R} : St (R:=R) -> St (R:=R) -> Prop :=
  | touch_refl s : touches s s
  | touch_write b s s' : touches s s' -> touches s (on_me (p_write b) s')
  | touch_close s s' : touches s s' -> touches s (on_me p_close s')
  | touch_ws f s s' : touches s s' -> touches s (on_ws f s')
  | touch_rings f s s' : touches s s' -> touches s (on_env (fun g => g<|rings ::= f|>) s')
  | touch_soon l s s' : touches s s' -> touches s (on_env (fun g => g<|soon ::= fun q => q ++ l|>) s').

Lemma touches_quiet {R} (s s' : St (R:=R)) : touches s s' -> quiet s s'.
Proof. induction 1; solve_quiet. Qed.

Section handlers.
Context {R : Type} (core : Core R).
Implicit Types s : St (R:=R).

Lemma touch_ring x s0 s : touches s0 s -> touches s0 (put_ring x s).
Proof. intros. unfold put_ring. destruct (_ws_ring_buf (me s)); [by apply touch_rings | done]. Qed.

Lemma touch_response b s0 s : touches s0 s -> touches s0 (_send_close_response core b s).
Proof. apply touch_write. Qed.

Lemma touch_flush s0 s : touches s0 s -> touches s0 (flush_pending core s).
Proof.
  intros. unfold flush_pending. destruct (_ws (me s)) as [w|]; [|done]. destruct (w_pending_sends w); [done|].
  by apply touch_ws, touch_write.
Qed.

Lemma touch_call_soon self c s0 s : touches s0 s -> touches s0 (call_soon self c s).
Proof. apply touch_soon. Qed.
End handlers.

Ltac touch_step :=
  match goal with
  | |- touches ?s ?s => apply touch_refl
  | |- touches _ (on_ws _ _) => apply touch_ws
  | |- touches _ (on_me (p_write _) _) => apply touch_write
  | |- touches _ (on_me p_close _) => apply touch_close
  | |- touches _ (put_ring _ _) => apply touch_ring
  | |- touches _ (_send_close_response _ _ _) => apply touch_response
  | |- touches _ (flush_pending _ _) => apply touch_flush
  | |- touches _ (call_soon _ _ _) => apply touch_call_soon
  | |- touches _ (match ?x with _ => _ end) => destruct x
  | |- touches _ (if ?x then _ else _) => destruct x
  end.
Ltac solve_touch := repeat (cbv zeta; first [ assumption | touch_step ]).

Section upgrade.
Context {R : Type} (core : Core R).
Implicit Types s : St (R:=R).

Lemma touch_frames data s : touches s (_handle_ws_frames core data s).
Proof.
  unfold _handle_ws_frames. destruct (_ws (me s)); [|apply touch_refl].
  destruct (handle_and_feed _ _ _) as [x [[[[pong close] frames]|]|]]; solve_touch.
Qed.

Lemma touch_echo data s : touches s (_handle_ws_frames_echo core data s).
Proof. unfold _handle_ws_frames_echo. destruct (handle_echo _ _ _) as [x [[echo close]|]]; solve_touch. Qed.

Lemma touch_echo_fd self data s : touches s (_handle_ws_frames_echo_fd core self data s).
Proof. unfold _handle_ws_frames_echo_fd. destruct (handle_echo_fd _ _ _ _) as [x [[| |[]]|payload]]; solve_touch. Qed.

Lemma touch_flush_echo self s : touches s (_flush_ws_echo_pending core self s).
Proof.
  unfold _flush_ws_echo_pending. destruct (_ <? _); [apply touch_refl|]. destruct (flush_echo _ _ _) as [x r]. solve_touch.
Qed.

Lemma touch_feed_frames frames s0 s : touches s0 s -> touches s0 (_feed_frames core frames s).
Proof.
  revert s. induction frames as [|[op b] frames IH]; intros s H; cbn [_feed_frames]; [done|].
  destruct (op =? 8); [solve_touch | apply IH; solve_touch].
Qed.

Lemma touch_json data s : touches s (_handle_ws_frames_json core data s).
Proof.
  unfold _handle_ws_frames_json. destruct (_ws (me s)); [|apply touch_refl].
  destruct (handle_json _ _ _) as [x [[[frames pong]|]|]]; solve_touch. apply touch_feed_frames. solve_touch.
Qed.

Lemma touch_ws_handler self data s : touches s (run_ws_handler core self data s).
Proof.
  unfold run_ws_handler.
  destruct (_ws_handler (me s)) as [[]|]; auto using touch_frames, touch_echo, touch_echo_fd, touch_json, touch_refl.
Qed.

Lemma quiet_ws_handler self data s0 s : quiet s0 s -> quiet s0 (run_ws_handler core self data s).
Proof. intros H. etrans; [exact H|]. apply touches_quiet, touch_ws_handler. Qed.

Lemma quiet_create_task t s0 s : quiet s0 s -> quiet s0 (create_task core t s).1.1.
Proof.
  intros H. unfold create_task. destruct (start_task core t) as [writes done]. cbn.
  etrans; [exact H|]. split; [apply face_writes | done].
Qed.

Lemma quiet_request t s0 s : quiet s0 s -> quiet s0 (request_task_created core t s).
Proof.
  intros H. unfold request_task_created. pose proof (quiet_create_task t s0 s H) as Hc.
  destruct (create_task core t s) as [[s' id] done]. solve_quiet.
Qed.

(** ** The upgrade *)
Definition taken (caps : list nat) (next : nat) : nat * list nat * nat :=
  match last caps with Some r => (r, removelast caps, next) | None => (next, caps, S next) end.

(** A connection becomes a WebSocket: it holds a capsule and a timer. *)
Definition upgraded (self : nat) (s s' : St (R:=R)) : Prop :=
  let '(r, caps, next) := taken (_capsules (env s)) (next_ring (env s)) in
  face (me s') = (_in_set (me s), _active_count (me s), is_some (_transport (me s)), true, Some r, Some (next_timer (env s)))
  ∧ shared_face (env s')
    = (Z.succ (ws_active (env s)), caps, next, <[next_timer (env s) := self]> (timers (env s)), S (next_timer (env s)),
       force_close (env s), active_count (env s), active_connections (env s), _pool (env s)).

Lemma upgraded_quiet self s1 s2 s3 s4 : quiet s1 s2 -> upgraded self s2 s3 -> quiet s3 s4 -> upgraded self s1 s4.
Proof.
  intros [H1 H2] H3 [H5 H6]. unfold upgraded in *. rewrite H5, H6. clear H5 H6.
  injection H1 as E1 E2 E3 E4 E5 E6. injection H2 as G1 G2 G3 G4 G5 G6 G7 G8 G9.
  by rewrite E1, E2, E3, G1, G2, G3, G4, G5, G6, G7, G8, G9 in H3.
Qed.

Lemma ws_acquire_spec g :
  let '(r, caps, next) := taken (_capsules g) (next_ring g) in
  (_ws_pool_acquire core g).1 = r
  ∧ shared_face (_ws_pool_acquire core g).2
    = (ws_active g, caps, next, timers g, next_timer g, force_close g, active_count g, active_connections g, _pool g).
Proof. unfold taken, _ws_pool_acquire. by destruct (last (_capsules g)). Qed.

Lemma upgrade_upgraded self ep s : upgraded self s (upgrade core self ep s).
Proof.
  unfold upgrade. cbv zeta.
  set (g0 := env (on_me _ _)).
  pose proof (ws_acquire_spec g0) as Ha. destruct (_ws_pool_acquire core g0) as [r g] eqn:Eg.
  set (s1 := _start_ws_heartbeat self _).
  assert (Hu : upgraded self s s1).
  { unfold upgraded. change (_capsules g0) with (_capsules (env s)) in Ha.
    change (next_ring g0) with (next_ring (env s)) in Ha.
    destruct (taken _ _) as [[r' caps] next]. destruct Ha as [<- Ha].
    unfold shared_face in Ha. cbn [fst snd] in Ha. injection Ha as A1 A2 A3 A4 A5 A6 A7 A8 A9.
    split.
    - transitivity (_in_set (me s), _active_count (me s), is_some (_transport (me s)), true, Some r, Some (next_timer g));
        [done | by rewrite A5].
    - transitivity (ws_active g, _capsules g, next_ring g, <[next_timer g := self]> (timers g), S (next_timer g),
                    force_close g, active_count g, active_connections g, _pool g); [done|].
      by rewrite A1, A2, A3, A4, A5, A6, A7, A8, A9. }
  clearbody s1. pose proof (quiet_create_task (TWebSocket ep) s1 s1 (quiet_refl s1)) as Hq.
  destruct (create_task core (TWebSocket ep) s1) as [[s2 id] done]. cbn [fst] in Hq.
  eapply upgraded_quiet; [reflexivity | exact Hu |].
  cbv zeta. destruct (_http_buf _); [|apply quiet_ws_handler]; solve_quiet.
Qed.

(** ** Data *)

(** Data is quiet, or upgrades the connection. *)
Definition quiet_or_upgraded (self : nat) (s s' : St (R:=R)) : Prop := quiet s s' ∨ upgraded self s s'.

Lemma qou_quiet self s1 s2 s3 : quiet s1 s2 -> quiet_or_upgraded self s2 s3 -> quiet_or_upgraded self s1 s3.
Proof.
  intros H [Hq|Hu]; [left; by etrans | right].
  eapply upgraded_quiet; [exact H | exact Hu | reflexivity].
Qed.

Lemma dispatch_loop_qou fuel self r s s' :
  dispatch_loop core fuel self r s = Some s' -> quiet_or_upgraded self s s'.
Proof.
  revert r s s'. induction fuel as [|fuel IH]; intros r s s' E; [done|]. cbn [dispatch_loop] in E. cbv zeta in E.
  assert (Hnext : ∀ s1 s2,
    quiet s s1 ->
    (let d := core_batch core (_http_buf (me s1)) in
     let s2 := on_me (after_core d) s1 in
     match d_reply d with
     | RInt n => Some (if n =? 0 then on_me (fun p => p<|_ka_needs_reset := true|>) s2
                       else if n =? -2 then on_me core_failed s2 else s2)
     | RNone => Some s2
     | RFalse => Some (on_me core_failed s2)
     | r => dispatch_loop core fuel self r s2
     end) = Some s2 -> quiet_or_upgraded self s s2).
  { clear E. intros s1 s2 H1 E2. cbv zeta in E2. set (s3 := on_me (after_core _) s1) in E2.
    assert (H3 : quiet s s3) by (apply quiet_me; [apply face_after_core | done]).
    destruct (d_reply _); simplify_eq;
      try (eapply qou_quiet; [exact H3 | by eapply IH]);
      left; repeat case_match; simplify_eq; try done; apply quiet_me; done || apply face_failed. }
  destruct r as [| | | |[ep|]|t|]; simplify_eq; try (by eapply Hnext);
    try (left; apply quiet_me; [apply face_no_websocket | done]).
  - right. apply upgrade_upgraded.
  - eapply Hnext; [|exact E]. by apply quiet_request.
Qed.

Lemma first_call_qou fuel self data s s' :
  first_call core fuel self data s = Some s' -> quiet_or_upgraded self s s'.
Proof.
  unfold first_call. cbv zeta.
  assert (Hd : ∀ d, quiet s (on_me (after_core d) s)).
  { intros d. apply quiet_me; [apply face_after_core | done]. }
  assert (Hl : ∀ d r, dispatch_loop core fuel self r (on_me (after_core d) s) = Some s' -> quiet_or_upgraded self s s').
  { intros d r E. eapply qou_quiet; [apply (Hd d) | by eapply dispatch_loop_qou]. }
  assert (Hs : ∀ f, (∀ p, face (f p) = face p) -> quiet_or_upgraded self s (on_me f s)).
  { intros f Hf. left. by apply quiet_me. }
  assert (Hs' : ∀ d f, (∀ p, face (f p) = face p) -> quiet_or_upgraded self s (on_me f (on_me (after_core d) s))).
  { intros d f Hf. left. by apply quiet_me. }
  destruct (append_dispatch core) as [ad|].
  - destruct (d_reply _); try apply Hl. intros [= <-].
    repeat case_match; try (left; apply Hd); apply Hs'; done || apply face_failed || apply face_refuse.
  - destruct (buf_append _ _ _) as [buf|]; [|intros [= <-]; apply Hs, face_refuse].
    destruct (d_reply _); try apply Hl; intros [= <-];
      repeat case_match; try (left; apply Hd); apply Hs'; done || apply face_failed.
Qed.

Lemma data_received_spec fuel ov self data s s' :
  data_received core fuel ov self data s = Some s' -> quiet s s' ∨ (_ws (me s) = None ∧ upgraded self s s').
Proof.
  unfold data_received. destruct (_ws (me s)) as [w|] eqn:Ew.
  - intros [= <-]. left. apply quiet_ws_handler. solve_quiet.
  - destruct (_wr_paused (me s)).
    { intros [= <-]. left. destruct (buf_append _ _ _); apply quiet_me; done || apply face_refuse. }
    destruct (_transport (me s)); [|intros [= <-]; by left].
    cbv zeta. destruct (_ && _); [intros [= <-]; left; solve_quiet|].
    intros E%first_call_qou. assert (quiet_or_upgraded self s s') as [?|?]; [|by left|by right].
    eapply qou_quiet; [|exact E]. solve_quiet.
Qed.

Lemma drain_spec fuel ov self s s' :
  _drain_buf core fuel ov self s = Some s' -> quiet s s' ∨ (_ws (me s) = None ∧ upgraded self s s').
Proof.
  unfold _drain_buf. destruct (_ || _); [intros [= <-]; by left|].
  destruct (data_received _ _ _ _ _ _) as [s1|] eqn:E; [|done]. intros [= <-].
  assert (Hq : quiet s1 (if negb (_wr_paused (me s1)) && (0 <? length (_http_buf (me s1)))%nat
                         then call_soon self CDrain s1 else s1)) by (apply touches_quiet; solve_touch).
  apply data_received_spec in E as [?|[? Hu]]; [left; by etrans | right; split; [done|]].
  eapply upgraded_quiet; [reflexivity | exact Hu | exact Hq].
Qed.

(** ** The life of a connection *)
Lemma connection_made_spec rate t peer now s :
  face (me (connection_made rate t peer now s))
    = (_in_set (me s), _active_count (me s), true, is_some (_ws (me s)), _ws_ring_buf (me s), _ws_ping_handle (me s))
  ∧ shared_face (env (connection_made rate t peer now s)) = shared_face (env s).
Proof. unfold connection_made. by destruct (t_socket t), peer, rate. Qed.

Lemma arm_spec self s :
  face (me (arm_ping self s)) = (_in_set (me s), _active_count (me s), is_some (_transport (me s)), is_some (_ws (me s)),
                                 _ws_ring_buf (me s), Some (next_timer (env s)))
  ∧ shared_face (env (arm_ping self s))
    = (ws_active (env s), _capsules (env s), next_ring (env s), <[next_timer (env s) := self]> (timers (env s)),
       S (next_timer (env s)), force_close (env s), active_count (env s), active_connections (env s), _pool (env s)).
Proof. done. Qed.

(** A ping leaves at most one timer, a new one. *)
Lemma ping_spec self s :
  ∃ h, face (me (_send_ws_ping self s))
       = (_in_set (me s), _active_count (me s), is_some (_transport (me s)), is_some (_ws (me s)), _ws_ring_buf (me s), h)
  ∧ (h = None ∧ shared_face (env (_send_ws_ping self s)) = shared_face (env s)
     ∨ h = Some (next_timer (env s))
       ∧ shared_face (env (_send_ws_ping self s))
         = (ws_active (env s), _capsules (env s), next_ring (env s), <[next_timer (env s) := self]> (timers (env s)),
            S (next_timer (env s)), force_close (env s), active_count (env s), active_connections (env s), _pool (env s))).
Proof.
  unfold _send_ws_ping. cbv zeta. set (s1 := on_me _ s).
  assert (E1 : face (me s1) = (_in_set (me s), _active_count (me s), is_some (_transport (me s)), is_some (_ws (me s)),
                               _ws_ring_buf (me s), None)) by done.
  assert (E2 : env s1 = env s) by done. clearbody s1.
  destruct (_ws (me s1)) as [w|] eqn:Ew; [|exists None; rewrite E1, E2; auto].
  destruct (w_closed w); [exists None; rewrite E1, E2; auto|].
  destruct (negb (is_open (me s1))); [exists None; rewrite E1, E2; auto|].
  destruct (negb (_ws_pong_received (me s1))).
  - exists None. set (s2 := on_me p_close _). assert (quiet s1 s2) as [Q1 Q2] by (unfold s2; solve_quiet).
    rewrite Q1, Q2, E1, E2. auto.
  - exists (Some (next_timer (env s))). set (s2 := on_me _ s1).
    assert (quiet s1 s2) as [Q1 Q2] by (unfold s2; solve_quiet).
    assert (E3 : env s2 = env s) by (by rewrite <-E2). clearbody s2.
    destruct (arm_spec self s2) as [A1 A2]. rewrite A1, A2, E3. split; [|auto].
    rewrite E1 in Q1. unfold face in Q1. by injection Q1 as -> -> -> -> -> _.
Qed.

Lemma stop_heartbeat_spec s :
  face (me (_stop_ws_heartbeat s))
    = (_in_set (me s), _active_count (me s), is_some (_transport (me s)), is_some (_ws (me s)), _ws_ring_buf (me s), None)
  ∧ shared_face (env (_stop_ws_heartbeat s))
    = (ws_active (env s), _capsules (env s), next_ring (env s),
       (match _ws_ping_handle (me s) with Some h => delete h (timers (env s)) | None => timers (env s) end),
       next_timer (env s), force_close (env s), active_count (env s), active_connections (env s), _pool (env s)).
Proof. unfold _stop_ws_heartbeat. destruct (_ws_ping_handle (me s)) eqn:E; [done|]. unfold face. by rewrite E. Qed.

Lemma metrics_lost_spec s :
  me (metrics_lost s) = me s
  ∧ shared_face (env (metrics_lost s))
    = ((if is_some (_ws (me s)) then Z.max 0 (ws_active (env s) - 1) else ws_active (env s)), _capsules (env s),
       next_ring (env s), timers (env s), next_timer (env s), force_close (env s), active_count (env s),
       active_connections (env s), _pool (env s)).
Proof. unfold metrics_lost. by destruct (_ws (me s)). Qed.

Lemma release_ring_spec s :
  face (me (release_ring core s))
    = (_in_set (me s), _active_count (me s), is_some (_transport (me s)), is_some (_ws (me s)), None, _ws_ping_handle (me s))
  ∧ shared_face (env (release_ring core s))
    = (ws_active (env s),
       (match _ws_ring_buf (me s) with
        | Some r => if (length (_capsules (env s)) <? 64)%nat then _capsules (env s) ++ [r] else _capsules (env s)
        | None => _capsules (env s)
        end), next_ring (env s), timers (env s), next_timer (env s), force_close (env s), active_count (env s),
       active_connections (env s), _pool (env s)).
Proof.
  unfold release_ring, _ws_pool_release. destruct (_ws_ring_buf (me s)) as [r|] eqn:E.
  - split; [done|]. cbn [env]. by destruct (_ <? _)%nat.
  - unfold face. by rewrite E.
Qed.

Lemma quiet_drop_ws_task s : quiet s (drop_ws_task s).
Proof. unfold drop_ws_task. by destruct (_ws_task (me s)) as [[t []]|]. Qed.

Lemma released_spec s :
  face (me (released core s))
    = (_in_set (me s), _active_count (me s), is_some (_transport (me s)), is_some (_ws (me s)), None, None)
  ∧ shared_face (env (released core s))
    = ((if is_some (_ws (me s)) then Z.max 0 (ws_active (env s) - 1) else ws_active (env s)),
       (match _ws_ring_buf (me s) with
        | Some r => if (length (_capsules (env s)) <? 64)%nat then _capsules (env s) ++ [r] else _capsules (env s)
        | None => _capsules (env s)
        end), next_ring (env s),
       (match _ws_ping_handle (me s) with Some h => delete h (timers (env s)) | None => timers (env s) end),
       next_timer (env s), force_close (env s), active_count (env s), active_connections (env s), _pool (env s)).
Proof.
  unfold released. cbv zeta. set (s1 := on_me _ka_cancel _).
  assert (H1 : quiet s s1) by done. clearbody s1.
  pose proof (stop_heartbeat_spec s1) as [B1 B2].
  pose proof (quiet_drop_ws_task (_stop_ws_heartbeat s1)) as H2.
  set (s2 := drop_ws_task _) in *. clearbody s2.
  pose proof (metrics_lost_spec s2) as [D1 D2].
  set (s3 := metrics_lost s2) in *. clearbody s3.
  set (s4 := on_me _ _). assert (H4 : quiet s3 s4) by (unfold s4; solve_quiet). clearbody s4.
  pose proof (release_ring_spec s4) as [F1 F2]. rewrite F1, F2. clear F1 F2.
  destruct H1 as [H1 H1'], H2 as [H2 H2'], H4 as [H4 H4']. rewrite B1 in H2. rewrite B2 in H2'. rewrite D1 in H4.
  unfold face, shared_face in *. simplify_eq. by use_eqs.
Qed.

Lemma released_buffers s : _http_buf (me (released core s)) = [] ∧ _pending_tasks (me (released core s)) = [].
Proof.
  unfold released, release_ring. cbv zeta. split.
  - by destruct (_ws_ring_buf _).
  - set (s1 := on_me _ka_cancel _). assert (E1 : _pending_tasks (me s1) = []) by done. clearbody s1.
    assert (E2 : _pending_tasks (me (_stop_ws_heartbeat s1)) = []).
    { unfold _stop_ws_heartbeat. by destruct (_ws_ping_handle (me s1)). }
    set (s2 := _stop_ws_heartbeat s1) in *. clearbody s2.
    assert (E3 : _pending_tasks (me (drop_ws_task s2)) = []).
    { unfold drop_ws_task. by destruct (_ws_task (me s2)) as [[? []]|]. }
    set (s3 := drop_ws_task s2) in *. clearbody s3.
    assert (E4 : me (metrics_lost s3) = me s3) by apply metrics_lost_spec.
    destruct (_ws_ring_buf _); cbn; rewrite E4; exact E3.
Qed.

Context (threshold : Z).

Lemma count_lost_spec (g : Shared R) :
  shared_face (count_lost threshold g)
  = (ws_active g, _capsules g, next_ring g, timers g, next_timer g,
     (if active_count g - 1 <=? threshold then false else force_close g), active_count g - 1, active_connections g, _pool g).
Proof.
  unfold count_lost. cbv zeta. change (active_count (g<|active_count ::= Z.pred|>)) with (active_count g - 1).
  change (force_close (g<|active_count ::= Z.pred|>)) with (force_close g).
  destruct (active_count g - 1 <=? threshold); [|done]. simpl andb. destruct (force_close g) eqn:E; [done|].
  unfold shared_face. by rewrite <-E.
Qed.

Lemma discounted_spec self s :
  me (discounted threshold self s) = me s
  ∧ shared_face (env (discounted threshold self s))
    = (ws_active (env s), _capsules (env s), next_ring (env s), timers (env s), next_timer (env s),
       (if _active_count (me s) && (active_count (env s) - 1 <=? threshold) then false else force_close (env s)),
       (if _active_count (me s) then active_count (env s) - 1 else active_count (env s)),
       (if _in_set (me s) then active_connections (env s) ∖ {[self]} else active_connections (env s)),
       (if (length (_pool (env s)) <? pool_max_size)%nat then _pool (env s) ++ [self] else _pool (env s))).
Proof.
  unfold discounted. cbv zeta. split.
  { destruct (_in_set (me s)); cbn; by destruct (_active_count (me s)). }
  set (s1 := if _in_set (me s) then _ else s).
  assert (E1 : me s1 = me s) by (unfold s1; by destruct (_in_set (me s))).
  assert (E2 : shared_face (env s1) = (ws_active (env s), _capsules (env s), next_ring (env s), timers (env s),
    next_timer (env s), force_close (env s), active_count (env s),
    (if _in_set (me s) then active_connections (env s) ∖ {[self]} else active_connections (env s)), _pool (env s))).
  { unfold s1. by destruct (_in_set (me s)). }
  clearbody s1. rewrite E1. set (s2 := if _active_count (me s) then _ else s1).
  assert (E3 : shared_face (env s2) = (ws_active (env s1), _capsules (env s1), next_ring (env s1), timers (env s1),
    next_timer (env s1),
    (if _active_count (me s) && (active_count (env s1) - 1 <=? threshold) then false else force_close (env s1)),
    (if _active_count (me s) then active_count (env s1) - 1 else active_count (env s1)), active_connections (env s1), _pool (env s1))).
  { unfold s2. destruct (_active_count (me s)); [apply count_lost_spec | done]. }
  clearbody s2. unfold shared_face in E2, E3. injection E2 as A1 A2 A3 A4 A5 A6 A7 A8 A9.
  injection E3 as B1 B2 B3 B4 B5 B6 B7 B8 B9.
  rewrite A1, A2, A3, A4, A5, A6, A7, A8, A9 in *.
  rewrite <-B1, <-B2, <-B3, <-B4, <-B5, <-B6, <-B7, <-B8, <-B9. unfold release. cbn [env on_env].
  by destruct (_ <? _)%nat.
Qed.

(** A lost connection keeps nothing; its object is in the pool or dropped. *)
Lemma lost_spec self s :
  let s' := connection_lost core threshold self s in
  (_transport (me s') = None ∧ _http_buf (me s') = [] ∧ _ws_fd (me s') = -1 ∧ _ws_ring_buf (me s') = None
   ∧ _ws_ping_handle (me s') = None ∧ _pending_tasks (me s') = [])
  ∧ shared_face (env s')
    = ((if is_some (_ws (me s)) then Z.max 0 (ws_active (env s) - 1) else ws_active (env s)),
       (match _ws_ring_buf (me s) with
        | Some r => if (length (_capsules (env s)) <? 64)%nat then _capsules (env s) ++ [r] else _capsules (env s)
        | None => _capsules (env s)
        end), next_ring (env s),
       (match _ws_ping_handle (me s) with Some h => delete h (timers (env s)) | None => timers (env s) end),
       next_timer (env s),
       (if _active_count (me s) && (active_count (env s) - 1 <=? threshold) then false else force_close (env s)),
       (if _active_count (me s) then active_count (env s) - 1 else active_count (env s)),
       (if _in_set (me s) then active_connections (env s) ∖ {[self]} else active_connections (env s)),
       (if (length (_pool (env s)) <? pool_max_size)%nat then _pool (env s) ++ [self] else _pool (env s))).
Proof.
  cbv zeta. pose proof (released_spec s) as [H1 H2]. pose proof (released_buffers s) as [Hb Hp].
  unfold connection_lost.
  match goal with |- context [discounted _ _ ?x] => remember x as s2 eqn:Es2 end.
  pose proof (discounted_spec self s2) as [E1 E2]. rewrite E1, E2. clear E1 E2.
  assert (M : env s2 = env (released core s) ∧ _in_set (me s2) = _in_set (me (released core s))
              ∧ _active_count (me s2) = _active_count (me (released core s)) ∧ _transport (me s2) = None
              ∧ _ws_fd (me s2) = -1 ∧ _http_buf (me s2) = [] ∧ _pending_tasks (me s2) = []
              ∧ _ws_ring_buf (me s2) = _ws_ring_buf (me (released core s))
              ∧ _ws_ping_handle (me s2) = _ws_ping_handle (me (released core s))).
  { subst s2. by destruct (released core s) as [p g]. }
  clear Es2. destruct M as (M1 & M2 & M3 & M4 & M5 & M6 & M7 & M8 & M9).
  unfold face in H1. unfold shared_face in H2. injection H1 as A1 A2 A3 A4 A5 A6.
  injection H2 as B1 B2 B3 B4 B5 B6 B7 B8 B9.
  rewrite M1, M2, M3, M4, M5, M6, M7, M8, M9, A1, A2, A5, A6, B1, B2, B3, B4, B5, B6, B7, B8, B9. done.
Qed.
End upgrade.
