(* ===== verification/HttpServer.v ===== *)
(** * HttpServer: the invariant of the compiled HTTP server

    Whatever the event loop, the endpoints and the clients do, every protocol
    object is live, pooled or dropped and never two of these, and counters,
    timers and WebSocket capsules agree with the live connections. *)

From S2P Require Import Prelude PyStr Asgi MutableHeaders Responses WebSocketConn ServerCore HttpWire HttpProtocol.
From S2P Require Import HttpProtocolFacts.
From coqutil Require Import Datatypes.RecordSetters.
Import TriangleBracketNotations.

(** ** What the invariant speaks about *)
Definition ftype : Type := bool * bool * bool * bool * option nat * option nat.
Definition f_ws (f : ftype) : bool := let '(_, _, _, w, _, _) := f in w.
Definition f_ring (f : ftype) : option nat := let '(_, _, _, _, r, _) := f in r.
Definition f_ping (f : ftype) : option nat := let '(_, _, _, _, _, h) := f in h.

(** A live object knows the set and the counter and has a transport; without a
    WebSocket it holds no capsule and no timer. *)
Definition f_live (f : ftype) : Prop :=
  let '(i, c, t, w, r, h) := f in i = true ∧ c = true ∧ t = true ∧ (w = false -> r = None ∧ h = None).

Definition ws_in (m : gmap nat ftype) (i : nat) : bool := match m !! i with Some f => f_ws f | None => false end.

Section invariant.
Context {R : Type} (cfg : Config).

Record inv_core (m : gmap nat ftype) (g : Shared R) (next : nat) : Prop := mkInv {
  inv_alive i : i ∈ active_connections g -> ∃ f, m !! i = Some f ∧ f_live f;
  inv_idle i f : m !! i = Some f -> i ∉ active_connections g -> f_ring f = None ∧ f_ping f = None;
  inv_pool_nodup : NoDup (_pool g);
  inv_pool_size : (length (_pool g) <= pool_max_size)%nat;
  inv_pool_idle i : i ∈ _pool g -> (i ∉ active_connections g) ∧ is_Some (m !! i);
  inv_fresh i : is_Some (m !! i) -> (i < next)%nat;
  inv_count : active_count g = Z.of_nat (size (active_connections g));
  inv_max : 0 < _MAX_CONNECTIONS cfg -> active_count g <= _MAX_CONNECTIONS cfg;
  inv_force : force_close g = (0 <? _PRESSURE_THRESHOLD cfg) && (_PRESSURE_THRESHOLD cfg <? active_count g);
  inv_ws : ws_active g = Z.of_nat (size (filter (fun i => ws_in m i = true) (active_connections g)));
  inv_timers h i : timers g !! h = Some i ↔ ∃ f, m !! i = Some f ∧ f_ping f = Some h;
  inv_timer_fresh h : is_Some (timers g !! h) -> (h < next_timer g)%nat;
  inv_caps_nodup : NoDup (_capsules g);
  inv_caps_fresh r : r ∈ _capsules g -> (r < next_ring g)%nat;
  inv_ring i f r : m !! i = Some f -> f_ring f = Some r -> (r < next_ring g)%nat ∧ (r ∉ _capsules g);
  inv_ring_inj i j fi fj r : m !! i = Some fi -> m !! j = Some fj -> f_ring fi = Some r -> f_ring fj = Some r -> i = j
}.

Lemma inv_shared m g g' next : shared_face g' = shared_face g -> inv_core m g next -> inv_core m g' next.
Proof.
  intros E H. unfold shared_face in E. injection E as E1 E2 E3 E4 E5 E6 E7 E8 E9.
  destruct H. split; rewrite ?E1, ?E2, ?E3, ?E4, ?E5, ?E6, ?E7, ?E8, ?E9; auto;
    intros *; rewrite ?E1, ?E2, ?E3, ?E4, ?E5, ?E6, ?E7, ?E8, ?E9; eauto.
Qed.

(** The live WebSockets as the objects change. *)
Lemma ws_in_insert m i f j : ws_in (<[i := f]> m) j = if decide (i = j) then f_ws f else ws_in m j.
Proof. unfold ws_in. destruct (decide (i = j)) as [->|]; [by rewrite lookup_insert_eq | by rewrite lookup_insert_ne]. Qed.

Lemma ws_filter_on m i f (A : gset nat) :
  i ∈ A -> f_ws f = true ->
  filter (fun j => ws_in (<[i := f]> m) j = true) A = {[i]} ∪ filter (fun j => ws_in m j = true) A.
Proof.
  intros Hi Hf. apply set_eq. intros j. rewrite elem_of_union, !elem_of_filter, elem_of_singleton, ws_in_insert.
  destruct (decide (i = j)) as [->|]; naive_solver.
Qed.

Lemma ws_filter_off m i f (A : gset nat) :
  filter (fun j => ws_in (<[i := f]> m) j = true) (A ∖ {[i]}) = filter (fun j => ws_in m j = true) A ∖ {[i]}.
Proof.
  apply set_eq. intros j. rewrite elem_of_difference, !elem_of_filter, elem_of_difference, elem_of_singleton, ws_in_insert.
  destruct (decide (i = j)) as [->|]; naive_solver.
Qed.

Lemma ws_filter_same m i f (A : gset nat) :
  f_ws f = ws_in m i -> filter (fun j => ws_in (<[i := f]> m) j = true) A = filter (fun j => ws_in m j = true) A.
Proof.
  intros Hf. apply set_eq. intros j. rewrite !elem_of_filter, ws_in_insert.
  destruct (decide (i = j)) as [->|]; [by rewrite Hf | done].
Qed.

Lemma ws_filter_new m i f (A : gset nat) :
  i ∉ A -> f_ws f = false ->
  filter (fun j => ws_in (<[i := f]> m) j = true) ({[i]} ∪ A) = filter (fun j => ws_in m j = true) A.
Proof.
  intros Hi Hf. apply set_eq. intros j. rewrite !elem_of_filter, elem_of_union, elem_of_singleton, ws_in_insert.
  destruct (decide (i = j)) as [->|]; [rewrite Hf; split; [by intros [? _] | by intros [_ ?]]|].
  split; intros [? ?]; split; auto. by destruct_or!; subst.
Qed.

(** ** The upgrade *)
Lemma taken_spec caps next r caps' next' :
  taken caps next = (r, caps', next') -> NoDup caps -> (∀ x, x ∈ caps -> (x < next)%nat) ->
  NoDup caps' ∧ (∀ x, x ∈ caps' -> x ∈ caps) ∧ (r ∉ caps') ∧ (r < next')%nat ∧ (next <= next')%nat
  ∧ (r ∈ caps ∨ r = next).
Proof.
  unfold taken. intros E Hn Hf. destruct (last caps) as [x|] eqn:El; simplify_eq.
  - apply last_Some in El as [l ->]. rewrite removelast_last.
    apply NoDup_app in Hn as (Hl & Hd & _).
    split_and!; [done | set_solver | intros Hx; eapply Hd; [exact Hx | set_solver] | apply Hf; set_solver | lia | set_solver].
  - split_and!; try done; try lia; auto. intros Hr%Hf. lia.
Qed.

Lemma inv_upgraded m g g' next self f r caps rnext :
  inv_core m g next -> self ∈ active_connections g -> m !! self = Some f -> f_ws f = false ->
  taken (_capsules g) (next_ring g) = (r, caps, rnext) ->
  shared_face g' = (Z.succ (ws_active g), caps, rnext, <[next_timer g := self]> (timers g), S (next_timer g),
                    force_close g, active_count g, active_connections g, _pool g) ->
  inv_core (<[self := (true, true, true, true, Some r, Some (next_timer g))]> m) g' next.
Proof.
  intros H Ha Hf Hw Ht E. unfold shared_face in E. injection E as E1 E2 E3 E4 E5 E6 E7 E8 E9.
  destruct (inv_alive _ _ _ H self Ha) as (f' & Hf' & Hl). assert (f' = f) as -> by congruence. clear Hf'.
  assert (f_ring f = None ∧ f_ping f = None) as [Hr Hp].
  { destruct f as [[[[[i c] t] w] r'] h]. simpl in *. destruct Hl as (_ & _ & _ & Hl). auto. }
  apply taken_spec in Ht as (T1 & T2 & T3 & T4 & T5 & T6); [|apply (inv_caps_nodup _ _ _ H) | apply (inv_caps_fresh _ _ _ H)].
  assert (Hnt : timers g !! next_timer g = None).
  { destruct (timers g !! next_timer g) eqn:Et; [|done]. assert (next_timer g < next_timer g)%nat; [|lia].
    by apply (inv_timer_fresh _ _ _ H). }
  assert (Hrm : ∀ i fi, m !! i = Some fi -> f_ring fi ≠ Some r).
  { intros i fi Hi Hri. destruct (inv_ring _ _ _ H i fi r Hi Hri) as [Hlt Hnc]. destruct T6 as [?| ->]; [done|lia]. }
  split; rewrite ?E1, ?E2, ?E3, ?E4, ?E5, ?E6, ?E7, ?E8, ?E9; try apply H; try done.
  - intros i Hi. destruct (decide (i = self)) as [->|].
    + rewrite lookup_insert_eq. eexists. split; [done|]. by simpl.
    + rewrite lookup_insert_ne by done. by apply (inv_alive _ _ _ H).
  - intros i fi Hi Hn. rewrite lookup_insert_ne in Hi by set_solver. by apply (inv_idle _ _ _ H i).
  - intros i Hi. destruct (inv_pool_idle _ _ _ H i Hi). split; [done|].
    rewrite lookup_insert_ne by set_solver. done.
  - intros i. destruct (decide (i = self)) as [->|]; [intros _; apply (inv_fresh _ _ _ H); by eexists|].
    rewrite lookup_insert_ne by done. apply (inv_fresh _ _ _ H).
  - rewrite (inv_ws _ _ _ H), ws_filter_on by (done || (unfold ws_in; by rewrite Hf)).
    rewrite size_union by (apply disjoint_singleton_l; rewrite elem_of_filter; unfold ws_in; rewrite Hf, Hw; by intros [? _]).
    rewrite size_singleton. lia.
  - intros h i. destruct (decide (h = next_timer g)) as [->|Hh].
    + rewrite lookup_insert_eq. split.
      * intros [= <-]. eexists. by rewrite lookup_insert_eq.
      * intros (fi & Hi & Hpi). destruct (decide (i = self)) as [->|Hne]; [done|]. rewrite lookup_insert_ne in Hi by done.
        assert (timers g !! next_timer g = Some i) by (apply (inv_timers _ _ _ H); eauto). congruence.
    + rewrite lookup_insert_ne by done. rewrite (inv_timers _ _ _ H).
      destruct (decide (i = self)) as [->|Hne]; [|by rewrite lookup_insert_ne by done].
      rewrite lookup_insert_eq. split; intros (fi & Hi & Hpi); exfalso; [congruence|].
      simplify_eq. simpl in Hpi. congruence.
  - intros h. destruct (decide (h = next_timer g)) as [->|Hh]; [lia|]. rewrite lookup_insert_ne by done.
    intros Hh'%(inv_timer_fresh _ _ _ H). lia.
  - intros x Hx%T2%(inv_caps_fresh _ _ _ H). lia.
  - intros i fi x Hi Hx. destruct (decide (i = self)) as [->|Hne].
    + rewrite lookup_insert_eq in Hi. simplify_eq. simpl in Hx. by simplify_eq.
    + rewrite lookup_insert_ne in Hi by done. destruct (inv_ring _ _ _ H i fi x Hi Hx). split; [lia | auto].
  - intros i j fi fj x Hi Hj Hxi Hxj.
    destruct (decide (i = self)) as [->|Hni], (decide (j = self)) as [->|Hnj]; [done| | |];
      rewrite ?lookup_insert_eq, ?lookup_insert_ne in Hi by done; rewrite ?lookup_insert_eq, ?lookup_insert_ne in Hj by done.
    + simplify_eq. simpl in Hxi. simplify_eq. by destruct (Hrm j fj).
    + simplify_eq. simpl in Hxj. simplify_eq. by destruct (Hrm i fi).
    + by eapply (inv_ring_inj _ _ _ H).
Qed.

(** ** Timers *)
Definition with_ping (f : ftype) (h : option nat) : ftype := let '(i, c, t, w, r, _) := f in (i, c, t, w, r, h).

(** The timer of an object ends. *)
Definition unarmed (f : ftype) (T : gmap nat nat) : gmap nat nat :=
  match f_ping f with Some h => delete h T | None => T end.

Lemma unarmed_spec m g next self f T' :
  inv_core m g next -> m !! self = Some f -> T' = unarmed f (timers g) ->
  (∀ h i, T' !! h = Some i ↔ i ≠ self ∧ ∃ fi, m !! i = Some fi ∧ f_ping fi = Some h)
  ∧ (∀ h, is_Some (T' !! h) -> (h < next_timer g)%nat).
Proof.
  intros H Hf ->. split.
  - intros h i. unfold unarmed. destruct (f_ping f) as [h0|] eqn:E.
    + destruct (decide (h = h0)) as [->|Hne].
      * rewrite lookup_delete_eq. split; [done|]. intros (Hi & fi & Hfi & Hp).
        assert (timers g !! h0 = Some i) by (apply (inv_timers _ _ _ H); eauto).
        assert (timers g !! h0 = Some self) by (apply (inv_timers _ _ _ H); eauto). congruence.
      * rewrite lookup_delete_ne by done. rewrite (inv_timers _ _ _ H). split; [|by intros (_ & ?)].
        intros (fi & Hfi & Hp). split; [|eauto]. intros ->. congruence.
    + rewrite (inv_timers _ _ _ H). split; [|by intros (_ & ?)].
      intros (fi & Hfi & Hp). split; [|eauto]. intros ->. congruence.
  - intros h [i Hi]. apply (inv_timer_fresh _ _ _ H). unfold unarmed in Hi. destruct (f_ping f) as [h0|]; [|by eexists].
    apply lookup_delete_Some in Hi as [_ ?]. by eexists.
Qed.

(** The capsules of the other objects stay theirs. *)
Lemma rings_update (m : gmap nat ftype) self f f' :
  f_ring f' = f_ring f ∨ f_ring f' = None -> m !! self = Some f ->
  ∀ i fi r, <[self := f']> m !! i = Some fi -> f_ring fi = Some r -> ∃ f0, m !! i = Some f0 ∧ f_ring f0 = Some r.
Proof.
  intros Hr Hf i fi r Hi Hri. destruct (decide (i = self)) as [->|].
  - rewrite lookup_insert_eq in Hi. simplify_eq. exists f. split; [done|]. destruct Hr; congruence.
  - rewrite lookup_insert_ne in Hi by done. eauto.
Qed.

(** The heartbeat of a live WebSocket: its timer ends, and the next one, if
    any, is new. *)
Lemma inv_ping m g g' next self f h :
  inv_core m g next -> self ∈ active_connections g -> m !! self = Some f -> f_ws f = true ->
  (h = None ∧ timers g' = unarmed f (timers g) ∧ next_timer g' = next_timer g
   ∨ h = Some (next_timer g) ∧ timers g' = <[next_timer g := self]> (unarmed f (timers g)) ∧ next_timer g' = S (next_timer g)) ->
  shared_face g' = (ws_active g, _capsules g, next_ring g, timers g', next_timer g', force_close g, active_count g,
                    active_connections g, _pool g) ->
  inv_core (<[self := with_ping f h]> m) g' next.
Proof.
  intros H Ha Hf Hw Ht E. unfold shared_face in E. injection E as E1 E2 E3 E6 E7 E8 E9.
  destruct (unarmed_spec m g next self f _ H Hf eq_refl) as [U1 U2].
  assert (Hrf : f_ring (with_ping f h) = f_ring f) by (by destruct f as [[[[[? ?] ?] ?] ?] ?]).
  assert (Hwf : f_ws (with_ping f h) = f_ws f) by (by destruct f as [[[[[? ?] ?] ?] ?] ?]).
  assert (Hpf : f_ping (with_ping f h) = h) by (by destruct f as [[[[[? ?] ?] ?] ?] ?]).
  split; rewrite ?E1, ?E2, ?E3, ?E6, ?E7, ?E8, ?E9; try apply H.
  - intros i Hi. destruct (decide (i = self)) as [->|]; [|rewrite lookup_insert_ne by done; by apply (inv_alive _ _ _ H)].
    rewrite lookup_insert_eq. eexists. split; [done|]. destruct (inv_alive _ _ _ H self Ha) as (f' & Hf' & Hl).
    assert (f' = f) as -> by congruence. destruct f as [[[[[? ?] ?] ?] ?] ?]. simpl in *. subst. naive_solver.
  - intros i fi Hi Hn. rewrite lookup_insert_ne in Hi by set_solver. by apply (inv_idle _ _ _ H i).
  - intros i Hi. destruct (inv_pool_idle _ _ _ H i Hi). split; [done|]. rewrite lookup_insert_ne by set_solver. done.
  - intros i. destruct (decide (i = self)) as [->|]; [intros _; apply (inv_fresh _ _ _ H); by eexists|].
    rewrite lookup_insert_ne by done. apply (inv_fresh _ _ _ H).
  - rewrite (inv_ws _ _ _ H), ws_filter_same; [done|]. unfold ws_in. by rewrite Hf.
  - intros h' i. destruct (decide (i = self)) as [->|Hne].
    + rewrite lookup_insert_eq. destruct Ht as [(-> & -> & _)|(-> & -> & _)].
      * rewrite U1. split; [naive_solver|]. intros (fi & [= <-] & Hp). congruence.
      * split.
        -- intros Hl%lookup_insert_Some. destruct Hl as [[<- _]|[_ Hl%U1]]; [eauto | naive_solver].
        -- intros (fi & [= <-] & Hp). assert (h' = next_timer g) as -> by congruence. apply lookup_insert_eq.
    + rewrite lookup_insert_ne by done. destruct Ht as [(-> & -> & _)|(-> & -> & _)].
      * rewrite U1. naive_solver.
      * rewrite lookup_insert_Some, U1. split; [naive_solver|]. intros (fi & Hfi & Hp). right. split; [|naive_solver].
        intros <-. assert (next_timer g < next_timer g)%nat; [|lia]. apply (inv_timer_fresh _ _ _ H).
        exists i. apply (inv_timers _ _ _ H). eauto.
  - intros h'. destruct Ht as [(_ & -> & ->)|(_ & -> & ->)]; [apply U2|].
    intros [i Hi%lookup_insert_Some]. destruct Hi as [[<- _]|[_ Hi]]; [lia|].
    assert (h' < next_timer g)%nat by (apply U2; by eexists). lia.
  - intros i fi r Hi Hr. destruct (rings_update m self f _ (or_introl Hrf) Hf i fi r Hi Hr) as (f0 & ? & ?).
    by eapply (inv_ring _ _ _ H).
  - intros i j fi fj r Hi Hj Hri Hrj.
    destruct (rings_update m self f _ (or_introl Hrf) Hf i fi r Hi Hri) as (f0 & ? & ?).
    destruct (rings_update m self f _ (or_introl Hrf) Hf j fj r Hj Hrj) as (f1 & ? & ?).
    by eapply (inv_ring_inj _ _ _ H).
Qed.

(** ** The end of a connection *)
Lemma inv_lost m g g' next self f f' :
  inv_core m g next -> self ∈ active_connections g -> m !! self = Some f -> f_ring f' = None -> f_ping f' = None ->
  shared_face g'
  = ((if f_ws f then Z.max 0 (ws_active g - 1) else ws_active g),
     (match f_ring f with
      | Some r => if (length (_capsules g) <? 64)%nat then _capsules g ++ [r] else _capsules g
      | None => _capsules g
      end), next_ring g, unarmed f (timers g), next_timer g,
     (if active_count g - 1 <=? _PRESSURE_THRESHOLD cfg then false else force_close g), active_count g - 1,
     active_connections g ∖ {[self]},
     (if (length (_pool g) <? pool_max_size)%nat then _pool g ++ [self] else _pool g)) ->
  inv_core (<[self := f']> m) g' next.
Proof.
  intros H Ha Hf Hr' Hp' E. unfold shared_face in E. injection E as E1 E2 E3 E4 E5 E6 E7 E8 E9.
  destruct (unarmed_spec m g next self f _ H Hf eq_refl) as [U1 U2].
  assert (Hnp : self ∉ _pool g) by (intros Hi; by destruct (inv_pool_idle _ _ _ H self Hi)).
  pose proof (inv_count _ _ _ H) as Hcount.
  assert (Hsz : (size (active_connections g ∖ {[self]}) + 1)%nat = size (active_connections g)).
  { rewrite size_difference by set_solver. rewrite size_singleton.
    assert (size (active_connections g) ≠ 0%nat); [|lia]. rewrite size_non_empty_iff. set_solver. }
  assert (Hring : ∀ i fi r, <[self := f']> m !! i = Some fi -> f_ring fi = Some r ->
                  i ≠ self ∧ m !! i = Some fi).
  { intros i fi r Hi Hr. destruct (decide (i = self)) as [->|]; [rewrite lookup_insert_eq in Hi; congruence|].
    by rewrite lookup_insert_ne in Hi by done. }
  split; rewrite ?E1, ?E2, ?E3, ?E4, ?E5, ?E6, ?E7, ?E8, ?E9.
  - intros i [Hi Hne]%elem_of_difference. rewrite lookup_insert_ne by set_solver. by apply (inv_alive _ _ _ H).
  - intros i fi Hi Hn. destruct (decide (i = self)) as [->|Hne]; [rewrite lookup_insert_eq in Hi; by simplify_eq|].
    rewrite lookup_insert_ne in Hi by done. apply (inv_idle _ _ _ H i fi Hi). set_solver.
  - case_match; [|apply H]. apply NoDup_app. split_and!; [apply H | set_solver | apply NoDup_singleton].
  - destruct (Nat.ltb_spec (length (_pool g)) pool_max_size); [rewrite length_app; simpl; lia | apply H].
  - intros i Hi. assert (i = self ∨ i ∈ _pool g) as [->|Hp].
    { case_match; set_solver. }
    + rewrite lookup_insert_eq. split; [set_solver | by eexists].
    + destruct (inv_pool_idle _ _ _ H i Hp). split; [set_solver|]. rewrite lookup_insert_ne by set_solver. done.
  - intros i. destruct (decide (i = self)) as [->|]; [intros _; apply (inv_fresh _ _ _ H); by eexists|].
    rewrite lookup_insert_ne by done. apply (inv_fresh _ _ _ H).
  - lia.
  - intros Hm%(inv_max _ _ _ H). lia.
  - rewrite (inv_force _ _ _ H). repeat case_match; lia.
  - rewrite (inv_ws _ _ _ H), ws_filter_off. destruct (f_ws f) eqn:Ew.
    + assert (Hin : self ∈ filter (fun j => ws_in m j = true) (active_connections g)).
      { apply elem_of_filter. unfold ws_in. by rewrite Hf. }
      rewrite size_difference by set_solver. rewrite size_singleton.
      assert (size (filter (fun j => ws_in m j = true) (active_connections g)) ≠ 0%nat); [|lia].
      rewrite size_non_empty_iff. set_solver.
    + do 2 f_equal. apply set_eq. intros j. rewrite elem_of_difference, elem_of_singleton. split; [|by intros [? _]].
      intros Hj. split; [done|]. intros ->. apply elem_of_filter in Hj as [Hj _]. unfold ws_in in Hj.
      rewrite Hf in Hj. congruence.
  - intros h i. rewrite U1. destruct (decide (i = self)) as [->|Hne].
    + rewrite lookup_insert_eq. split; [by intros [? _]|]. intros (fi & [= <-] & Hp). congruence.
    + rewrite lookup_insert_ne by done. split; [by intros [_ ?] | done].
  - apply U2.
  - destruct (f_ring f) as [r|] eqn:Er; [|apply H]. destruct (length (_capsules g) <? 64)%nat; [|apply H].
    apply NoDup_app. split_and!; [apply H | | apply NoDup_singleton].
    intros x Hx ->%list_elem_of_singleton. by destruct (inv_ring _ _ _ H self f r Hf Er).
  - intros r Hr. destruct (f_ring f) as [r0|] eqn:Er; [|by apply (inv_caps_fresh _ _ _ H)].
    assert (r = r0 ∨ r ∈ _capsules g) as [->|?] by (destruct (length (_capsules g) <? 64)%nat; set_solver).
    + by apply (inv_ring _ _ _ H self f).
    + by apply (inv_caps_fresh _ _ _ H).
  - intros i fi r Hi Hr. destruct (Hring i fi r Hi Hr) as [Hne Hi'].
    destruct (inv_ring _ _ _ H i fi r Hi' Hr) as [Hlt Hnc]. split; [done|].
    destruct (f_ring f) as [r0|] eqn:Er; [|done].
    assert (r ≠ r0). { intros ->. apply Hne. by eapply (inv_ring_inj _ _ _ H). }
    destruct (length (_capsules g) <? 64)%nat; set_solver.
  - intros i j fi fj r Hi Hj Hri Hrj. destruct (Hring i fi r Hi Hri) as [_ ?], (Hring j fj r Hj Hrj) as [_ ?].
    by eapply (inv_ring_inj _ _ _ H).
Qed.

(** ** A new connection *)
Lemma inv_accepted m g g' next self next' f' :
  inv_core m g next ->
  self ∉ active_connections g -> f_live f' -> f_ws f' = false ->
  (_pool g = _pool g' ++ [self] ∧ next' = next ∨ _pool g' = _pool g ∧ self = next ∧ next' = S next) ->
  negb ((0 <? _MAX_CONNECTIONS cfg) && (_MAX_CONNECTIONS cfg <=? active_count g)) = true ->
  shared_face g' = (ws_active g, _capsules g, next_ring g, timers g, next_timer g,
                    (0 <? _PRESSURE_THRESHOLD cfg) && (_PRESSURE_THRESHOLD cfg <? active_count g + 1), active_count g + 1,
                    {[self]} ∪ active_connections g, _pool g') ->
  inv_core (<[self := f']> m) g' next'.
Proof.
  intros H Hn Hl Hw Hp Hm E. unfold shared_face in E. injection E as E1 E2 E3 E4 E5 E6 E7 E8.
  assert (f_ring f' = None ∧ f_ping f' = None) as [Hr' Hp'].
  { destruct f' as [[[[[? ?] ?] ?] ?] ?]. simpl in *. naive_solver. }
  assert (Hold : ∀ i fi, m !! i = Some fi -> i = self -> f_ring fi = None ∧ f_ping fi = None).
  { intros i fi Hi ->. by eapply (inv_idle _ _ _ H). }
  assert (Hring : ∀ i fi r, <[self := f']> m !! i = Some fi -> f_ring fi = Some r -> m !! i = Some fi).
  { intros i fi r Hi Hr. destruct (decide (i = self)) as [->|]; [rewrite lookup_insert_eq in Hi; congruence|].
    by rewrite lookup_insert_ne in Hi by done. }
  split; rewrite ?E1, ?E2, ?E3, ?E4, ?E5, ?E6, ?E7, ?E8; try apply H.
  - intros i Hi. destruct (decide (i = self)) as [->|]; [rewrite lookup_insert_eq; eauto|].
    rewrite lookup_insert_ne by done. apply (inv_alive _ _ _ H). set_solver.
  - intros i fi Hi Hni. rewrite lookup_insert_ne in Hi by set_solver. apply (inv_idle _ _ _ H i fi Hi). set_solver.
  - destruct Hp as [[Hp _]|[-> _]]; [|apply H]. pose proof (inv_pool_nodup _ _ _ H) as Hnd. rewrite Hp in Hnd.
    by apply NoDup_app in Hnd as [? _].
  - pose proof (inv_pool_size _ _ _ H) as Hsz. destruct Hp as [[Hp _]|[-> _]]; [|done].
    rewrite Hp, length_app in Hsz. simpl in Hsz. lia.
  - intros i Hi. assert (i ∈ _pool g ∧ i ≠ self) as [Hi' Hne].
    { destruct Hp as [[Hp _]|(Hp & -> & _)].
      - pose proof (inv_pool_nodup _ _ _ H) as Hnd. rewrite Hp in Hnd. apply NoDup_app in Hnd as (_ & Hd & _).
        rewrite Hp. split; [set_solver|]. intros ->. apply (Hd self Hi). set_solver.
      - rewrite Hp in Hi. split; [done|]. intros ->. destruct (inv_pool_idle _ _ _ H next Hi) as [_ Hs].
        apply (inv_fresh _ _ _ H) in Hs. lia. }
    destruct (inv_pool_idle _ _ _ H i Hi'). rewrite lookup_insert_ne by done. split; [set_solver | done].
  - intros i Hi. destruct (decide (i = self)) as [->|].
    + destruct Hp as [[Hp ->]|(_ & -> & ->)]; [|lia]. apply (inv_fresh _ _ _ H).
      apply (inv_pool_idle _ _ _ H). rewrite Hp. set_solver.
    + rewrite lookup_insert_ne in Hi by done. apply (inv_fresh _ _ _ H) in Hi. naive_solver lia.
  - rewrite size_union by set_solver. rewrite size_singleton, (inv_count _ _ _ H). lia.
  - intros Hpos. lia.
  - done.
  - rewrite (inv_ws _ _ _ H), ws_filter_new by done. done.
  - intros h i. rewrite (inv_timers _ _ _ H). destruct (decide (i = self)) as [->|Hne].
    + rewrite lookup_insert_eq. split; intros (fi & Hi & Hpi); exfalso.
      * destruct (Hold _ _ Hi eq_refl). congruence.
      * congruence.
    + by rewrite lookup_insert_ne by done.
  - intros i fi r Hi Hr. eapply (inv_ring _ _ _ H); [by eapply Hring | done].
  - intros i j fi fj r Hi Hj Hri Hrj. eapply (inv_ring_inj _ _ _ H); [by eapply Hring | by eapply Hring | done | done].
Qed.
End invariant.

(** ** The server *)

(** An object made in advance. *)
Lemma inv_released_new {R} cfg m (g g' : Shared R) next f :
  inv_core cfg m g next -> active_connections g = ∅ -> f_ring f = None -> f_ping f = None ->
  shared_face g' = (ws_active g, _capsules g, next_ring g, timers g, next_timer g, force_close g, active_count g,
                    active_connections g,
                    if (length (_pool g) <? pool_max_size)%nat then _pool g ++ [next] else _pool g) ->
  inv_core cfg (<[next := f]> m) g' (S next).
Proof.
  intros H Ha Hr Hp E. unfold shared_face in E. injection E as E1 E2 E3 E4 E5 E6 E7 E8 E9.
  assert (Hnew : m !! next = None).
  { destruct (m !! next) eqn:En; [|done]. assert (next < next)%nat; [|lia]. apply (inv_fresh _ _ _ _ H). by eexists. }
  assert (Hnp : next ∉ _pool g).
  { intros [_ Hs]%(inv_pool_idle _ _ _ _ H). rewrite Hnew in Hs. by destruct Hs. }
  assert (Hring : ∀ i fi r, <[next := f]> m !! i = Some fi -> f_ring fi = Some r -> m !! i = Some fi).
  { intros i fi r Hi Hri. destruct (decide (i = next)) as [->|]; [rewrite lookup_insert_eq in Hi; congruence|].
    by rewrite lookup_insert_ne in Hi by done. }
  split; rewrite ?E1, ?E2, ?E3, ?E4, ?E5, ?E6, ?E7, ?E8, ?E9; try apply H.
  - rewrite Ha. set_solver.
  - intros i fi Hi _. destruct (decide (i = next)) as [->|]; [rewrite lookup_insert_eq in Hi; by simplify_eq|].
    rewrite lookup_insert_ne in Hi by done. apply (inv_idle _ _ _ _ H i fi Hi). rewrite Ha. set_solver.
  - case_match; [|apply H]. apply NoDup_app. split_and!; [apply H | set_solver | apply NoDup_singleton].
  - destruct (Nat.ltb_spec (length (_pool g)) pool_max_size); [rewrite length_app; simpl; lia | apply H].
  - intros i Hi. rewrite Ha. split; [set_solver|].
    assert (i = next ∨ i ∈ _pool g) as [->|Hi'] by (case_match; set_solver); [rewrite lookup_insert_eq; by eexists|].
    rewrite lookup_insert_ne by set_solver. by apply (inv_pool_idle _ _ _ _ H).
  - intros i Hi. destruct (decide (i = next)) as [->|]; [lia|]. rewrite lookup_insert_ne in Hi by done.
    apply (inv_fresh _ _ _ _ H) in Hi. lia.
  - rewrite (inv_ws _ _ _ _ H), Ha. done.
  - intros h i. rewrite (inv_timers _ _ _ _ H). destruct (decide (i = next)) as [->|].
    + rewrite lookup_insert_eq, Hnew. split; intros (fi & Hi & Hpi); congruence.
    + by rewrite lookup_insert_ne by done.
  - intros i fi r Hi Hri. eapply (inv_ring _ _ _ _ H); [by eapply Hring | done].
  - intros i j fi fj r Hi Hj Hri Hrj. eapply (inv_ring_inj _ _ _ _ H); [by eapply Hring | by eapply Hring | done | done].
Qed.

Section server.
Context {R : Type} (core : Core R) (cfg : Config).
Implicit Types s : Server (R:=R).

Definition faces s : gmap nat ftype := face <$> protos s.

Record inv s : Prop := mkServerInv {
  sinv_core : inv_core cfg (faces s) (shared s) (next_proto s);
  sinv_idle i p : protos s !! i = Some p -> i ∉ active_connections (shared s) -> _http_buf p = [] ∧ _ws_fd p = -1
}.

Lemma faces_insert s i p : face <$> <[i := p]> (protos s) = <[i := face p]> (faces s).
Proof. apply fmap_insert. Qed.

Lemma call_Some self f s s' :
  call self f s = Some s' ->
  ∃ p st, protos s !! self = Some p ∧ f (mkSt p (shared s)) = Some st
          ∧ s' = mkServer (<[self := me st]> (protos s)) (env st) (next_proto s).
Proof.
  unfold call. destruct (protos s !! self) as [p|] eqn:E; [|done]. simpl. destruct (f _) as [st|] eqn:Ef; [|done].
  simpl. intros [= <-]. eauto.
Qed.

(** The buffers of idle objects when one live object changes. *)
Lemma idle_call s self p' (g' : Shared R) :
  inv s -> live s self -> active_connections g' = active_connections (shared s) ->
  ∀ i p, <[self := p']> (protos s) !! i = Some p -> i ∉ active_connections g' -> _http_buf p = [] ∧ _ws_fd p = -1.
Proof.
  intros H Hl Ha i p Hi Hn. rewrite Ha in Hn. rewrite lookup_insert_ne in Hi by (unfold live in Hl; set_solver).
  by eapply (sinv_idle _ H).
Qed.

Lemma face_lookup s i p : protos s !! i = Some p -> faces s !! i = Some (face p : ftype).
Proof. intros E. unfold faces. by rewrite lookup_fmap, E. Qed.

Lemma shared_active (g g' : Shared R) : shared_face g' = shared_face g -> active_connections g' = active_connections g.
Proof. unfold shared_face. by intros [=]. Qed.

(** A quiet method of a live object. *)
Lemma inv_quiet s self p st :
  inv s -> live s self -> protos s !! self = Some p -> quiet (mkSt p (shared s)) st ->
  inv (mkServer (<[self := me st]> (protos s)) (env st) (next_proto s)).
Proof.
  intros H Hl Hp [Hf Hg]. split; cbn [protos shared next_proto].
  - unfold faces. cbn [protos]. rewrite faces_insert, Hf. cbn [me].
    rewrite insert_id by (by apply face_lookup). eapply inv_shared; [exact Hg | apply H].
  - eapply idle_call; eauto. by apply shared_active.
Qed.

(** An upgrade of a live object. *)
Lemma inv_upgrade s self p st :
  inv s -> live s self -> protos s !! self = Some p -> _ws p = None -> upgraded self (mkSt p (shared s)) st ->
  inv (mkServer (<[self := me st]> (protos s)) (env st) (next_proto s)).
Proof.
  intros H Hl Hp Hw Hu. unfold upgraded in Hu. cbn [me env] in Hu.
  destruct (taken _ _) as [[r caps] rn] eqn:Et. destruct Hu as [Hf Hg].
  destruct (inv_alive _ _ _ _ (sinv_core _ H) self Hl) as (f & Hf0 & Hlive).
  rewrite (face_lookup _ _ _ Hp) in Hf0. injection Hf0 as <-. destruct Hlive as (L1 & L2 & L3 & L4).
  rewrite L1, L2, L3 in Hf.
  split; cbn [protos shared next_proto].
  - unfold faces. cbn [protos]. rewrite faces_insert, Hf.
    eapply inv_upgraded; [apply H | exact Hl | by apply face_lookup | | exact Et | exact Hg].
    unfold face, f_ws. by rewrite Hw.
  - eapply idle_call; eauto. unfold shared_face in Hg. by injection Hg.
Qed.

Lemma inv_data s self p st :
  inv s -> live s self -> protos s !! self = Some p ->
  quiet (mkSt p (shared s)) st ∨ (_ws p = None ∧ upgraded self (mkSt p (shared s)) st) ->
  inv (mkServer (<[self := me st]> (protos s)) (env st) (next_proto s)).
Proof. intros H Hl Hp [Hq|[Hw Hu]]; [by eapply inv_quiet | by eapply inv_upgrade]. Qed.

(** A connection that is lost. *)
Lemma inv_step_lost s self p st :
  inv s -> live s self -> protos s !! self = Some p ->
  st = connection_lost core (_PRESSURE_THRESHOLD cfg) self (mkSt p (shared s)) ->
  inv (mkServer (<[self := me st]> (protos s)) (env st) (next_proto s)).
Proof.
  intros H Hl Hp Est. pose proof (lost_spec core (_PRESSURE_THRESHOLD cfg) self (mkSt p (shared s))) as HL.
  cbv zeta in HL. rewrite <-Est in HL. clear Est. cbn [me env] in HL.
  destruct HL as ((T1 & T2 & T3 & T4 & T5 & _) & Hg).
  destruct (inv_alive _ _ _ _ (sinv_core _ H) self Hl) as (f & Hf0 & Hlive).
  rewrite (face_lookup _ _ _ Hp) in Hf0. injection Hf0 as <-. destruct Hlive as (L1 & L2 & _ & _).
  rewrite L1, L2 in Hg. simpl andb in Hg.
  split; cbn [protos shared next_proto].
  - unfold faces. cbn [protos]. rewrite faces_insert.
    eapply (inv_lost cfg (faces s) (shared s) (env st) (next_proto s) self (face p));
      [apply H | exact Hl | by apply face_lookup | by simpl | by simpl | exact Hg].
  - intros i q Hi Hn. unfold shared_face in Hg. injection Hg as _ _ _ _ _ _ _ A _.
    destruct (decide (i = self)) as [->|]; [rewrite lookup_insert_eq in Hi; by simplify_eq|].
    rewrite lookup_insert_ne in Hi by done. eapply (sinv_idle _ H); [exact Hi|]. rewrite A in Hn. set_solver.
Qed.

(** The object for a new connection: taken from the pool or made, and new in
    either case. *)
Lemma acquire_spec s self s1 :
  (∀ i, i ∈ _pool (shared s) -> is_Some (protos s !! i)) ->
  acquire cfg s = (self, s1) ->
  ∃ p, protos s1 = <[self := p]> (protos s)
       ∧ face p = (true, false, false, false, None, None)
       ∧ active_connections (shared s1) = active_connections (shared s)
       ∧ (_pool (shared s) = _pool (shared s1) ++ [self] ∧ next_proto s1 = next_proto s
          ∨ _pool (shared s1) = _pool (shared s) ∧ self = next_proto s ∧ next_proto s1 = S (next_proto s))
       ∧ shared_face (shared s1)
         = (ws_active (shared s), _capsules (shared s), next_ring (shared s), timers (shared s), next_timer (shared s),
            force_close (shared s), active_count (shared s), active_connections (shared s), _pool (shared s1)).
Proof.
  intros Hin. unfold acquire. destruct (last (_pool (shared s))) as [i|] eqn:El; intros [= <- <-]; cbn [protos shared next_proto].
  - apply last_Some in El as [l El]. destruct (Hin i) as [p Hp]; [rewrite El; set_solver|].
    exists (_reinit (keep_alive_timeout cfg) true (app_needs_req_ctx cfg) p). split_and!; try done.
    + by rewrite alter_insert, Hp || (apply map_eq; intros j; destruct (decide (i = j)) as [<-|];
        [by rewrite lookup_alter_eq, lookup_insert_eq, Hp | by rewrite lookup_alter_ne, lookup_insert_ne]).
    + left. split; [|done]. cbn. rewrite El. by rewrite removelast_last.
  - eexists. split_and!; try done. by right.
Qed.

Definition fresh_face : ftype := (true, true, true, false, None, None).

Lemma inv_accept s t peer now s' : inv s -> (accept cfg t peer now s).1 = Some s' -> inv s'.
Proof.
  intros H. unfold accept. destruct (_protocol_factory cfg s) as [[self s1]|] eqn:Ef; [|simpl; by intros [= <-]].
  unfold _protocol_factory in Ef. destruct (_ && _) eqn:Em; [done|]. cbv zeta in Ef.
  set (g0 := (shared s)<|active_count ::= Z.succ|>) in Ef.
  set (g1 := if (0 <? _) && _ && _ then _ else g0) in Ef.
  assert (Hg1 : shared_face g1 = (ws_active (shared s), _capsules (shared s), next_ring (shared s), timers (shared s),
     next_timer (shared s), (0 <? _PRESSURE_THRESHOLD cfg) && (_PRESSURE_THRESHOLD cfg <? active_count (shared s) + 1),
     active_count (shared s) + 1, active_connections (shared s), _pool (shared s))).
  { pose proof (inv_force _ _ _ _ (sinv_core _ H)) as Hforce. unfold g1.
    change (active_count g0) with (active_count (shared s) + 1). change (force_close g0) with (force_close (shared s)).
    assert (S0 : shared_face g0 = (ws_active (shared s), _capsules (shared s), next_ring (shared s), timers (shared s),
      next_timer (shared s), force_close (shared s), active_count (shared s) + 1, active_connections (shared s),
      _pool (shared s))) by done.
    destruct (0 <? _PRESSURE_THRESHOLD cfg) eqn:E0; cbn [andb] in *; [|by rewrite S0, Hforce].
    destruct (Z.ltb_spec (_PRESSURE_THRESHOLD cfg) (active_count (shared s) + 1)) as [Hlt|Hge]; cbn [andb].
    - destruct (force_close (shared s)) eqn:Efc; cbn [negb]; [by rewrite S0 | done].
    - rewrite S0, Hforce, (proj2 (Z.ltb_ge _ _)) by lia. done. }
  clearbody g1. destruct (acquire cfg _) as [self1 s2] eqn:Ea. injection Ef as <- <-.
  assert (Hpool : ∀ i, i ∈ _pool g1 -> is_Some (protos s !! i)).
  { intros i. unfold shared_face in Hg1. injection Hg1 as _ _ _ _ _ _ _ _ ->. intros Hi.
    destruct (inv_pool_idle _ _ _ _ (sinv_core _ H) i Hi) as [_ Hs]. unfold faces in Hs. rewrite lookup_fmap in Hs.
    by apply fmap_is_Some in Hs. }
  apply (acquire_spec (mkServer (protos s) g1 (next_proto s))) in Ea as (p & Hp & Hfp & Ha & Hpl & Hg2); [|done].
  cbn [protos shared next_proto] in *.
  intros (p2 & st & Hp2 & Est & ->)%call_Some. cbn [protos shared next_proto] in *.
  injection Est as <-. rewrite Hp in Hp2. rewrite lookup_alter_eq, lookup_insert_eq in Hp2. injection Hp2 as <-.
  set (st := connection_made _ t peer now _).
  match goal with st := connection_made ?rt ?t ?pe ?n ?s0 |- _ => pose proof (connection_made_spec rt t pe n s0) as [Hm1 Hm2] end.
  fold st in Hm1, Hm2. clearbody st. cbn [me env] in Hm1, Hm2.
  assert (Hf : face (me st) = fresh_face).
  { unfold face in Hfp. injection Hfp as F1 F2 F3 F4 F5 F6. unfold fresh_face.
    transitivity (_in_set p, true, true, is_some (_ws p), _ws_ring_buf p, _ws_ping_handle p); [exact Hm1|].
    by rewrite F1, F4, F5, F6. }
  clear Hm1.
  assert (Hg : shared_face (env st) = (ws_active (shared s), _capsules (shared s), next_ring (shared s), timers (shared s),
     next_timer (shared s), (0 <? _PRESSURE_THRESHOLD cfg) && (_PRESSURE_THRESHOLD cfg <? active_count (shared s) + 1),
     active_count (shared s) + 1, {[self1]} ∪ active_connections (shared s), _pool (shared s2))).
  { rewrite Hm2. unfold shared_face in Hg1, Hg2. injection Hg1 as A1 A2 A3 A4 A5 A6 A7 A8 A9.
    injection Hg2 as B1 B2 B3 B4 B5 B6 B7 B8.
    transitivity (ws_active (shared s2), _capsules (shared s2), next_ring (shared s2), timers (shared s2),
      next_timer (shared s2), force_close (shared s2), active_count (shared s2),
      {[self1]} ∪ active_connections (shared s2), _pool (shared s2)); [done|].
    by rewrite B1, B2, B3, B4, B5, B6, B7, B8, A1, A2, A3, A4, A5, A6, A7, A8. }
  clear Hm2. assert (Hpe : _pool (env st) = _pool (shared s2)) by (unfold shared_face in Hg; by injection Hg).
  assert (Hg1p : _pool g1 = _pool (shared s)) by (unfold shared_face in Hg1; by injection Hg1).
  rewrite Hg1p in Hpl. rewrite <-Hpe in Hpl, Hg.
  assert (Hnot : self1 ∉ active_connections (shared s)).
  { destruct Hpl as [[Hpl _]|(_ & -> & _)].
    - apply (inv_pool_idle _ _ _ _ (sinv_core _ H)). rewrite Hpl. set_solver.
    - intros (f & Hf0 & _)%(inv_alive _ _ _ _ (sinv_core _ H)).
      assert (next_proto s < next_proto s)%nat; [|lia]. apply (inv_fresh _ _ _ _ (sinv_core _ H)). by eexists. }
  rewrite Hp. set (al := fun q : CppHttpProtocol => _).
  replace (<[self1 := me st]> (alter al self1 (<[self1 := p]> (protos s)))) with (<[self1 := me st]> (protos s)); cycle 1.
  { apply map_eq. intros j. destruct (decide (self1 = j)) as [<-|]; [by rewrite !lookup_insert_eq|].
    by rewrite !lookup_insert_ne, lookup_alter_ne, lookup_insert_ne. }
  split; cbn [protos shared next_proto].
  - unfold faces. cbn [protos]. rewrite faces_insert, Hf.
    eapply inv_accepted; [apply H | exact Hnot | done | done | | by rewrite Em | exact Hg].
    done.
  - intros i q Hi Hn. unfold shared_face in Hg. injection Hg as _ _ _ _ _ _ _ A. rewrite A in Hn.
    rewrite lookup_insert_ne in Hi by set_solver. eapply (sinv_idle _ H); [exact Hi | set_solver].
Qed.

(** A heartbeat timer fires. *)
Lemma inv_fire s h s' : inv s -> fire h s = Some s' -> inv s'.
Proof.
  intros H. unfold fire. destruct (timers (shared s) !! h) as [self|] eqn:Eh; [|done]. cbn [mbind option_bind].
  intros (p & st & Hp & Est & ->)%call_Some. cbn [protos shared next_proto] in *.
  assert (Est' : st = _send_ws_ping self (mkSt p ((shared s)<|timers ::= delete h|>))) by congruence. clear Est.
  pose proof (sinv_core _ H) as HI.
  apply (inv_timers _ _ _ _ HI) in Eh as (f & Hf & Hping).
  rewrite (face_lookup _ _ _ Hp) in Hf. injection Hf as <-.
  assert (Hl : self ∈ active_connections (shared s)).
  { destruct (decide (self ∈ active_connections (shared s))) as [|Hn]; [done|].
    destruct (inv_idle _ _ _ _ HI self (face p)) as [_ ?]; [by apply face_lookup | done | congruence]. }
  destruct (inv_alive _ _ _ _ HI self Hl) as (f & Hf & Hlive). rewrite (face_lookup _ _ _ Hp) in Hf. injection Hf as <-.
  assert (Hws : is_some (_ws p) = true).
  { unfold face in Hping, Hlive. simpl in Hping, Hlive. destruct (is_some (_ws p)); [done|].
    destruct Hlive as (_ & _ & _ & Hlive). destruct Hlive; congruence. }
  set (st0 := mkSt p ((shared s)<|timers ::= delete h|>)).
  destruct (ping_spec self st0) as (h' & F1 & F2).
  assert (Hun : timers (env st0) = unarmed (face p) (timers (shared s))) by (unfold unarmed; by rewrite Hping).
  assert (Hst0 : shared_face (env st0) = (ws_active (shared s), _capsules (shared s), next_ring (shared s), timers (env st0),
    next_timer (shared s), force_close (shared s), active_count (shared s), active_connections (shared s), _pool (shared s))) by done.
  fold st0 in Est'. rewrite <-Est' in F1, F2. clear Est'.
  assert (Hg : shared_face (env st) = (ws_active (shared s), _capsules (shared s), next_ring (shared s), timers (env st),
    next_timer (env st), force_close (shared s), active_count (shared s), active_connections (shared s), _pool (shared s))
    ∧ (h' = None ∧ timers (env st) = unarmed (face p) (timers (shared s)) ∧ next_timer (env st) = next_timer (shared s)
       ∨ h' = Some (next_timer (shared s))
         ∧ timers (env st) = <[next_timer (shared s) := self]> (unarmed (face p) (timers (shared s)))
         ∧ next_timer (env st) = S (next_timer (shared s)))).
  { rewrite <-Hun. destruct F2 as [[-> F2]|[-> F2]]; [rewrite Hst0 in F2|]; unfold shared_face in *;
      injection F2 as C1 C2 C3 C4 C5 C6 C7 C8 C9; rewrite C1, C2, C3, C4, C5, C6, C7, C8, C9; auto. }
  destruct Hg as [Hg Ht]. split; cbn [protos shared next_proto].
  - unfold faces. cbn [protos]. rewrite faces_insert.
    replace (face (me st) : ftype) with (with_ping (face p) h') by (by rewrite F1).
    eapply inv_ping; [exact HI | exact Hl | by apply face_lookup | done | exact Ht | exact Hg].
  - eapply idle_call; [exact H | exact Hl |]. unfold shared_face in Hg. by injection Hg.
Qed.

(** A callback of the event loop; an idle object has nothing to do. *)
Lemma inv_soon s s' : inv s -> run_soon core cfg s = Some s' -> inv s'.
Proof.
  intros H. unfold run_soon. destruct (soon (shared s)) as [|[self c] rest] eqn:Es; [done|].
  intros (p & st & Hp & Est & ->)%call_Some. cbn [protos shared next_proto] in *.
  set (s1 := mkServer (protos s) ((shared s)<|soon := rest|>) (next_proto s)).
  assert (H1 : inv s1). { split; [eapply inv_shared; [|apply H]; done | apply H]. }
  change (protos s) with (protos s1). change (next_proto s) with (next_proto s1).
  destruct (decide (self ∈ active_connections (shared s))) as [Hl|Hn].
  - eapply inv_data; [exact H1 | exact Hl | exact Hp |]. destruct c; [by eapply drain_spec|].
    injection Est as <-. left. apply touches_quiet, touch_flush_echo.
  - destruct (sinv_idle _ H self p Hp Hn) as [Hb Hfd].
    assert (st = mkSt p (shared s1)) as ->.
    { destruct c.
      - unfold _drain_buf in Est. cbn [me] in Est. rewrite Hb in Est. rewrite orb_true_r in Est. by injection Est as <-.
      - unfold _flush_ws_echo_pending in Est. cbn [me] in Est. rewrite Hfd in Est. by injection Est as <-. }
    cbn [me env]. rewrite insert_id by done. by destruct s1.
Qed.

(** A pass over all objects that does not change what they hold. *)
Lemma inv_map s (F : nat -> CppHttpProtocol -> CppHttpProtocol) :
  (∀ i p, face (F i p) = face p) ->
  (∀ i p, i ∉ active_connections (shared s) -> F i p = p) ->
  inv s -> inv (mkServer (map_imap (fun i p => Some (F i p)) (protos s)) (shared s) (next_proto s)).
Proof.
  intros HF Hid H. split; cbn [protos shared next_proto].
  - replace (faces _) with (faces s); [apply H|]. unfold faces. cbn [protos]. apply map_eq. intros i.
    rewrite !lookup_fmap, map_lookup_imap. destruct (protos s !! i); simpl; [by rewrite HF | done].
  - intros i p Hi Hn. rewrite map_lookup_imap in Hi. destruct (protos s !! i) as [q|] eqn:Eq; [|done]. simpl in Hi.
    injection Hi as <-. rewrite Hid by done. by eapply (sinv_idle _ H).
Qed.

(** A change of one object, live or not, that keeps what it holds. *)
Lemma inv_on_proto s f i :
  (∀ p, face (f p) = face p ∧ _http_buf (f p) = _http_buf p ∧ _ws_fd (f p) = _ws_fd p) ->
  inv s -> inv (on_proto f i s).
Proof.
  intros Hf H. split; cbn [protos shared next_proto on_proto].
  - replace (faces _) with (faces s); [apply H|]. unfold faces. cbn [protos on_proto]. apply map_eq. intros j.
    rewrite !lookup_fmap. destruct (decide (i = j)) as [->|Hne]; [rewrite lookup_alter_eq|by rewrite lookup_alter_ne].
    destruct (protos s !! j) as [p|]; [|done]. simpl. by destruct (Hf p) as [-> _].
  - intros j p Hj Hn. destruct (decide (i = j)) as [->|Hne].
    + rewrite lookup_alter_eq in Hj. destruct (protos s !! j) as [q|] eqn:Eq; [|done]. injection Hj as <-.
      destruct (Hf q) as (_ & -> & ->). by eapply (sinv_idle _ H).
    + rewrite lookup_alter_ne in Hj by done. by eapply (sinv_idle _ H).
Qed.

Lemma inv_sweep checked now todo expired s : inv s -> inv (_ka_sweep checked now todo expired s).1.
Proof.
  revert checked expired s. induction todo as [|i todo IH]; intros checked expired s H; cbn [_ka_sweep].
  - cbn [fst]. revert s H. induction expired as [|j expired IHe]; intros s H; [done|]. cbn [foldl]. apply IHe.
    apply inv_on_proto; [|done]. intros p. split_and!; [apply face_close|done|done].
  - destruct (protos s !! i) as [p|]; [|by apply IH]. destruct (_transport p); [|by apply IH].
    assert (H' : inv (on_proto (ka_check now) i s)).
    { apply inv_on_proto; [|done]. intros q. unfold ka_check. by destruct (_ka_needs_reset q). }
    destruct (S checked =? 512)%nat; [exact H'|by apply IH].
Qed.

Lemma inv_signal s : inv s -> inv (_signal_handler s).
Proof.
  intros H. apply (inv_map s (fun i p => if bool_decide (i ∈ active_connections (shared s)) then p_close p else p));
    [| |exact H]; intros i p; case_bool_decide; try done. apply face_close.
Qed.

Lemma inv_trim s : inv s -> inv (_pool_trim s).
Proof.
  intros [HI Hi]. split; [|exact Hi]. unfold _pool_trim. set (n := Z.to_nat _). clearbody n.
  pose proof (inv_pool_size _ _ _ _ HI) as Hsz. pose proof (inv_pool_nodup _ _ _ _ HI) as Hnd.
  pose proof (inv_pool_idle _ _ _ _ HI) as Hid.
  destruct HI. split; try done; clear -Hsz Hnd Hid.
  - change (NoDup (take n (_pool (shared s)))). rewrite <-(take_drop n (_pool (shared s))) in Hnd.
    by apply NoDup_app in Hnd as [? _].
  - change (length (take n (_pool (shared s))) <= pool_max_size)%nat. rewrite length_take. lia.
  - intros i. change (i ∈ take n (_pool (shared s)) -> (i ∉ active_connections (shared s)) ∧ is_Some (faces s !! i)).
    intros Hin. apply Hid. rewrite <-(take_drop n (_pool (shared s))). set_solver.
Qed.

Lemma inv_prewarm n : inv (prewarm cfg n (no_server (R:=R))).
Proof.
  unfold prewarm. generalize (if _MAX_CONNECTIONS cfg =? 0 then n else Nat.min n (Z.to_nat (_MAX_CONNECTIONS cfg))).
  intros k. assert (Hk : inv (Nat.iter k (prewarm_one cfg) (no_server (R:=R)))
    ∧ active_connections (shared (Nat.iter k (prewarm_one cfg) (no_server (R:=R)))) = ∅); [|apply Hk].
  induction k as [|k [IH Ha]].
  - split; [|done]. split; [|done]. split; try done; try set_solver.
    + apply NoDup_nil. done.
    + simpl. unfold pool_max_size. lia.
    + by intros i [? ?].
    + simpl. lia.
    + simpl. destruct (Z.ltb_spec 0 (_PRESSURE_THRESHOLD cfg)), (Z.ltb_spec (_PRESSURE_THRESHOLD cfg) 0); try done. lia.
    + by intros h [? ?].
    + apply NoDup_nil. done.
  - rewrite Nat.iter_succ. set (s := Nat.iter k (prewarm_one cfg) no_server) in *. clearbody s. unfold prewarm_one.
    split; [|unfold release; cbn [shared]; destruct (length (_pool (shared s)) <? pool_max_size)%nat; exact Ha].
    destruct IH as [HI Hi].
    assert (Hg : shared_face (release (next_proto s) (shared s)) = (ws_active (shared s), _capsules (shared s),
      next_ring (shared s), timers (shared s), next_timer (shared s), force_close (shared s), active_count (shared s),
      active_connections (shared s),
      if (length (_pool (shared s)) <? pool_max_size)%nat then _pool (shared s) ++ [next_proto s] else _pool (shared s))).
    { unfold release. by destruct (length (_pool (shared s)) <? pool_max_size)%nat. }
    split; cbn [protos shared next_proto].
    + unfold faces. cbn [protos]. rewrite faces_insert. by eapply inv_released_new.
    + intros i p Hip _. destruct (decide (i = next_proto s)) as [->|]; [rewrite lookup_insert_eq in Hip; by injection Hip as <-|].
      rewrite lookup_insert_ne in Hip by done. apply (Hi i p Hip). rewrite Ha. set_solver.
Qed.

(** C15: whatever connects, sends, upgrades, is swept or is lost, and whatever
    endpoints and tasks do, the server's books agree with its connections: the
    counter is the number of live connections and within the limit, responses
    are told to close exactly under pressure, the WebSocket gauge is the number
    of live WebSockets, a pooled object serves no connection and has no timer,
    each timer belongs to the live WebSocket that armed it, and no two
    connections share a WebSocket capsule, nor use one from the pool. *)
Theorem server_books_agree s : reachable core cfg s -> inv s.
Proof.
  assert (Hall : ∀ l, reaches core cfg l -> inv l.1); [|intros [sw Hr]; exact (Hall _ Hr)].
  clear s. intros l Hr. induction Hr as [n|l l' _ IH Hs]; [apply inv_prewarm|].
  destruct Hs as [s0 s' sw0 Hs|s0 now snapshot _|s0 sw0]; cbn [fst] in IH; [|by apply inv_sweep..]. cbn [fst].
  destruct Hs as [s t peer now s' E|s self data s' Hl E|s self s' Hl E|s self s' Hl E|s s' E|s h s' E|s self b s' Hl E
    |s self s' Hl E|s self f s' Hl E|s self m s' Hl E|s self f s' Hl E|s self s' Hl E|s|s].
  - by eapply inv_accept.
  - apply call_Some in E as (p & st & Hp & Est & ->). eapply inv_data; [done..|]. by eapply data_received_spec.
  - apply call_Some in E as (p & st & Hp & [= <-] & ->). eapply inv_quiet; [done..|]. solve_quiet.
  - apply call_Some in E as (p & st & Hp & [= <-] & ->). eapply inv_quiet; [done..|]. unfold resume_writing, call_soon. solve_quiet.
  - by eapply inv_soon.
  - by eapply inv_fire.
  - apply call_Some in E as (p & st & Hp & [= <-] & ->). eapply inv_quiet; [done..|]. solve_quiet.
  - apply call_Some in E as (p & st & Hp & [= <-] & ->). eapply inv_quiet; [done..|]. solve_quiet.
  - apply call_Some in E as (p & st & Hp & [= <-] & ->). eapply inv_quiet; [done..|]. solve_quiet.
  - apply call_Some in E as (p & st & Hp & [= <-] & ->). eapply inv_quiet; [done..|]. solve_quiet.
  - apply call_Some in E as (p & st & Hp & [= <-] & ->). eapply inv_quiet; [done..|]. solve_quiet.
  - apply call_Some in E as (p & st & Hp & Est & ->). eapply inv_step_lost; [done..|]. congruence.
  - by apply inv_trim.
  - by apply inv_signal.
Qed.
End server.

(** ** Keep-alive and heartbeat *)
Section timing.
Context {R : Type} (core : Core R) (self : nat).
Implicit Types s : St (R:=R).

(** What decides about closing a silent connection. *)
Definition clocks (p : CppHttpProtocol) := (_ka_deadline p, _ka_needs_reset p, _ka_timeout p, _ws_pong_received p).

Lemma touches_clocks s s' : touches s s' -> clocks (me s') = clocks (me s).
Proof. induction 1 as [| | |f s s' _ IH|f s s' _ IH|l s s' _ IH]; [done|..]; rewrite <-IHtouches || rewrite <-IH; done. Qed.

Lemma is_open_close p : is_open (p_close p) = false.
Proof. destruct p. unfold is_open. cbn. by destruct _transport. Qed.

Lemma sweep_closed now p : is_open p = false -> is_open (sweep_one now p) = false.
Proof.
  intros H. unfold sweep_one. destruct (_transport p) eqn:E; [|done].
  destruct (_ka_needs_reset p); [done|]. destruct (_ && _); [apply is_open_close | done].
Qed.

Lemma sweep_expired now p :
  _ka_needs_reset p = false -> 0 < _ka_deadline p < now -> is_open (sweep_one now p) = false.
Proof.
  intros Hr Hd. unfold sweep_one. destruct (_transport p) eqn:E; [|unfold is_open; by rewrite E].
  rewrite Hr, (proj2 (Z.ltb_lt _ _)), (proj2 (Z.ltb_lt (_ka_deadline p) now)) by lia. apply is_open_close.
Qed.

Lemma sweep_reset now p t :
  _transport p = Some t -> _ka_needs_reset p = true ->
  sweep_one now p = (_ka_reset now p)<|_ka_needs_reset := false|>.
Proof. intros E Hr. unfold sweep_one. by rewrite E, Hr. Qed.

(** A connection without requests for its timeout after a sweep is closed by
    the next sweep, if it was subject to the timeout at all. *)
Lemma idle_connection_swept p t1 t2 :
  _ka_needs_reset p = true ∨ 0 < _ka_deadline p <= t1 + _ka_timeout p ->
  0 < t1 + _ka_timeout p < t2 ->
  is_open (sweep_one t2 (sweep_one t1 p)) = false.
Proof.
  intros Hk Hlt. destruct (_transport p) as [t|] eqn:Et.
  2:{ apply sweep_closed, sweep_closed. unfold is_open. by rewrite Et. }
  destruct (_ka_needs_reset p) eqn:Hr.
  - rewrite (sweep_reset t1 p t) by done. apply sweep_expired; [done|]. exact Hlt.
  - destruct Hk as [?|Hd]; [done|]. destruct (Z.ltb_spec (_ka_deadline p) t1) as [H1|H1].
    + apply sweep_closed, sweep_expired; [done | lia].
    + assert (sweep_one t1 p = p) as ->; [|apply sweep_expired; [done | lia]].
      unfold sweep_one. rewrite Et, Hr, (proj2 (Z.ltb_ge (_ka_deadline p) t1)) by lia. by rewrite andb_false_r.
Qed.

(** What happens to a WebSocket between sweeps: data, and what its endpoint does. *)
Inductive ws_event : Type := EvData (b : bytes) | EvWrite (b : bytes) | EvEndpoint (f : Ws -> Ws).

Definition ws_event_step (s : St (R:=R)) (e : ws_event) : St :=
  match e with
  | EvData b => get_or (data_received core 0 false self b s) s
  | EvWrite b => on_me (p_write b) s
  | EvEndpoint f => on_ws f s
  end.

Definition ws_run : list ws_event -> St (R:=R) -> St := fun es s => foldl ws_event_step s es.

(** The keep-alive clock of an object. *)
Definition ka_clock (p : CppHttpProtocol) := (_ka_deadline p, _ka_needs_reset p, _ka_timeout p, is_some (_ws p)).

Lemma ws_data b s : is_some (_ws (me s)) = true ->
  get_or (data_received core 0 false self b s) s
  = run_ws_handler core self b (on_me (fun p => p<|_ws_pong_received := true|>) s).
Proof. intros H. unfold data_received. by destruct (_ws (me s)). Qed.

Lemma ka_clock_ws s s' : touches s s' -> ka_clock (me s') = ka_clock (me s).
Proof.
  intros Ht. pose proof (touches_clocks _ _ Ht) as H1. pose proof (touches_quiet _ _ Ht) as [H2 _].
  unfold clocks, face, ka_clock in *. congruence.
Qed.

Lemma ws_run_ka es s : is_some (_ws (me s)) = true -> ka_clock (me (ws_run es s)) = ka_clock (me s).
Proof.
  revert s. induction es as [|e es IH]; intros s Hw; [done|]. cbn [ws_run foldl].
  assert (E : ka_clock (me (ws_event_step s e)) = ka_clock (me s)).
  { destruct e as [b|b|f]; cbn [ws_event_step].
    - rewrite ws_data by done. etrans; [apply ka_clock_ws, touch_ws_handler|]. done.
    - apply ka_clock_ws. solve_touch.
    - apply ka_clock_ws. solve_touch. }
  change (ka_clock (me (ws_run es (ws_event_step s e))) = ka_clock (me s)). rewrite IH; [done|].
  unfold ka_clock in E. congruence.
Qed.

Lemma upgrade_ka ep s :
  ka_clock (me (upgrade core self ep s)) = (0, _ka_needs_reset (me s), _ka_timeout (me s), true).
Proof.
  unfold upgrade. cbv zeta. destruct (_ws_pool_acquire _ _) as [r g].
  set (s1 := _start_ws_heartbeat self _).
  assert (E1 : ka_clock (me s1) = (0, _ka_needs_reset (me s), _ka_timeout (me s), true)) by done. clearbody s1.
  destruct (create_task core (TWebSocket ep) s1) as [[s2 id] d] eqn:Ec.
  assert (E2 : ka_clock (me s2) = ka_clock (me s1)).
  { unfold create_task in Ec. destruct (start_task core _) as [ws dn]. injection Ec as <- _ _. cbn [me].
    induction (reverse ws) as [|b l IH]; [done|]. cbn [foldr]. rewrite <-IH. clear IH.
    destruct (foldr p_write (me s1) l). done. }
  cbv zeta. rewrite <-E1, <-E2. destruct (_http_buf _); [done|].
  etrans; [apply ka_clock_ws, touch_ws_handler|]. done.
Qed.

(** A WebSocket upgraded on a connection that has served no request since
    the last sweep is never closed by the keep-alive sweep; on one that has, the
    sweep starts a timeout that no message stops, and closes the WebSocket. *)
Theorem websocket_keep_alive ep s es t1 t2 :
  (_ka_needs_reset (me s) = false ->
   ∀ now, sweep_one now (me (ws_run es (upgrade core self ep s))) = me (ws_run es (upgrade core self ep s)))
  ∧ (_ka_needs_reset (me s) = true -> is_some (_transport (me s)) = true -> 0 < t1 + _ka_timeout (me s) < t2 ->
     is_open (sweep_one t2 (me (ws_run es (on_me (sweep_one t1) (upgrade core self ep s))))) = false).
Proof.
  pose proof (upgrade_ka ep s) as Hu. pose proof (upgrade_upgraded core self ep s) as Hf.
  set (s0 := upgrade core self ep s) in *. clearbody s0. unfold ka_clock in Hu. injection Hu as U1 U2 U3 U4. split.
  - intros Hr now. pose proof (ws_run_ka es s0 U4) as Hk. unfold ka_clock in Hk. injection Hk as K1 K2 _ _.
    unfold sweep_one. destruct (_transport _); [|done]. rewrite K2, U2, Hr, K1, U1. done.
  - intros Hr Ht Hlt. unfold upgraded in Hf. destruct (taken _ _) as [[? ?] ?]. destruct Hf as [Hf _].
    unfold face in Hf. injection Hf as _ _ T _ _ _. rewrite Ht in T. destruct (_transport (me s0)) as [t|] eqn:Et; [|done].
    assert (E : ka_clock (me (on_me (sweep_one t1) s0)) = (t1 + _ka_timeout (me s), false, _ka_timeout (me s), true)).
    { cbn [me on_me]. rewrite (sweep_reset t1 (me s0) t) by congruence. rewrite <-U3, <-U4. done. }
    set (s1 := on_me (sweep_one t1) s0) in *. clearbody s1.
    assert (Hw1 : is_some (_ws (me s1)) = true) by (unfold ka_clock in E; congruence).
    pose proof (ws_run_ka es s1 Hw1) as Hk. rewrite E in Hk. unfold ka_clock in Hk. injection Hk as K1 K2 _ _.
    apply sweep_expired; [done | lia].
Qed.

(** Whether anything was received. *)
Definition is_data (e : ws_event) : bool := match e with EvData _ => true | _ => false end.

Lemma ws_run_pong es s :
  is_some (_ws (me s)) = true -> _ws_pong_received (me (ws_run es s)) = existsb is_data es || _ws_pong_received (me s).
Proof.
  revert s. induction es as [|e es IH]; intros s Hw; [done|].
  change (ws_run (e :: es) s) with (ws_run es (ws_event_step s e)). cbn [existsb].
  assert (E : is_some (_ws (me (ws_event_step s e))) = true
              ∧ _ws_pong_received (me (ws_event_step s e)) = is_data e || _ws_pong_received (me s)).
  { destruct e as [b|b|f]; cbn [ws_event_step is_data orb].
    - rewrite ws_data by done. set (s1 := on_me _ s). pose proof (touch_ws_handler core self b s1) as Ht.
      pose proof (touches_clocks _ _ Ht) as H1. pose proof (ka_clock_ws _ _ Ht) as H2.
      unfold clocks in H1. unfold ka_clock in H2. split; [|by injection H1]. transitivity (is_some (_ws (me s1))); [congruence | done].
    - split; [exact Hw | done].
    - split; [cbn; unfold on_ws, on_me; cbn; rewrite is_some_fmap; exact Hw | done]. }
  destruct E as [E1 E2]. rewrite IH, E2 by done. destruct (is_data e), (existsb is_data es); done.
Qed.

Lemma is_open_write b p : is_open (p_write b p) = is_open p.
Proof. destruct p. unfold is_open. cbn. by destruct _transport as [[[] ? ?]|]. Qed.

Lemma ping_answered s w :
  _ws (me s) = Some w -> w_closed w = false -> is_open (me s) = true -> _ws_pong_received (me s) = true ->
  is_open (me (_send_ws_ping self s)) = true ∧ _ws_pong_received (me (_send_ws_ping self s)) = false
  ∧ _ws_ping_handle (me (_send_ws_ping self s)) = Some (next_timer (env s)) ∧ _ws (me (_send_ws_ping self s)) = Some w.
Proof.
  intros Ew Hc Ho Hp. unfold _send_ws_ping. cbv zeta. set (s1 := on_me _ s).
  change (_ws (me s1)) with (_ws (me s)). change (is_open (me s1)) with (is_open (me s)).
  change (_ws_pong_received (me s1)) with (_ws_pong_received (me s)). rewrite Ew, Hc, Ho, Hp. cbn [negb].
  split_and!; [|done|done|exact Ew].
  change (is_open (p_write _PING_FRAME ((me s1)<|_ws_pong_received := false|>)) = true). by rewrite is_open_write.
Qed.

Lemma ping_unanswered s w :
  _ws (me s) = Some w -> w_closed w = false -> _ws_pong_received (me s) = false ->
  is_open (me (_send_ws_ping self s)) = false ∧ _ws_ping_handle (me (_send_ws_ping self s)) = None
  ∧ (is_open (me s) = true -> _ws (me (_send_ws_ping self s)) = Some (feed_frame 8 [] (w<|w_closed := true|>))).
Proof.
  intros Ew Hc Hp. unfold _send_ws_ping. cbv zeta. set (s1 := on_me _ s).
  change (_ws (me s1)) with (_ws (me s)). change (is_open (me s1)) with (is_open (me s)).
  change (_ws_pong_received (me s1)) with (_ws_pong_received (me s)). rewrite Ew, Hc, Hp.
  destruct (is_open (me s)) eqn:Ho; cbn [negb].
  - split_and!; [apply is_open_close | done |]. intros _.
    change ((fun w => feed_frame 8 [] (w<|w_closed := true|>)) <$> _ws (me s) = Some (feed_frame 8 [] (w<|w_closed := true|>))).
    by rewrite Ew.
  - split_and!; [exact Ho | done | done].
Qed.

(** C19: the heartbeat finds dead peers and only those: a WebSocket that received
    nothing between two pings is closed by the second, unless its endpoint has
    closed it, and its endpoint is told; one that received anything is pinged
    again and stays open. *)
Theorem heartbeat_finds_silence s w es :
  _ws (me s) = Some w -> w_closed w = false -> is_open (me s) = true -> _ws_pong_received (me s) = true ->
  let s1 := _send_ws_ping self s in
  let s2 := ws_run es s1 in
  let s3 := _send_ws_ping self s2 in
  is_open (me s1) = true ∧ _ws_ping_handle (me s1) = Some (next_timer (env s))
  ∧ (existsb is_data es = false ->
     ∃ w', _ws (me s2) = Some w'
           ∧ (w_closed w' = true
              ∨ is_open (me s3) = false ∧ _ws_ping_handle (me s3) = None
                ∧ (is_open (me s2) = true -> _ws (me s3) = Some (feed_frame 8 [] (w'<|w_closed := true|>)))))
  ∧ (existsb is_data es = true -> is_open (me s2) = true -> (∀ w', _ws (me s2) = Some w' -> w_closed w' = false) ->
     is_open (me s3) = true ∧ _ws_pong_received (me s3) = false ∧ is_some (_ws_ping_handle (me s3)) = true).
Proof.
  intros Ew Hc Ho Hp. cbv zeta.
  destruct (ping_answered s w Ew Hc Ho Hp) as (A1 & A2 & A3 & A4). set (s1 := _send_ws_ping self s) in *. clearbody s1.
  assert (Hw1 : is_some (_ws (me s1)) = true) by (by rewrite A4).
  pose proof (ws_run_pong es s1 Hw1) as Hpong. rewrite A2 in Hpong.
  pose proof (ws_run_ka es s1 Hw1) as Hka. set (s2 := ws_run es s1) in *. clearbody s2.
  assert (is_some (_ws (me s2)) = true) as Hw2 by (unfold ka_clock in Hka; congruence).
  destruct (_ws (me s2)) as [w2|] eqn:Ew2; [|done]. split_and!; [done | done | |].
  - intros He. rewrite He in Hpong. exists w2. split; [done|]. destruct (w_closed w2) eqn:Hc2; [by left | right].
    by apply (ping_unanswered s2 w2).
  - intros He Ho2 Hall. rewrite He in Hpong. destruct (ping_answered s2 w2) as (B1 & B2 & B3 & B4); auto.
    by rewrite B3.
Qed.
End timing.

(** ** Dispatching ends *)
Section dispatching.
Context {R : Type} (core : Core R) (self : nat).
Implicit Types s : St (R:=R).

(** A request handed to Python has left the buffer. *)
Definition consuming : Prop :=
  ∀ buf, match d_reply (core_batch core buf) with
         | RTrue | RWs _ | RTask _ | ROther => (length (d_buf (core_batch core buf)) < length buf)%nat
         | _ => True
         end.

Lemma buf_writes l p : _http_buf (foldr p_write p l) = _http_buf p.
Proof. induction l as [|b l IH]; [done|]. cbn [foldr]. rewrite <-IH. by destruct (foldr p_write p l). Qed.

Lemma buf_request t s : _http_buf (me (request_task_created core t s)) = _http_buf (me s).
Proof.
  unfold request_task_created, create_task. destruct (start_task core t) as [ws []]; cbn [me on_me]; apply (buf_writes (reverse ws)).
Qed.

Lemma buf_after_core d p : _http_buf (after_core d p) = d_buf d.
Proof. done. Qed.

(** Handling pipelined requests ends with fuel above the size of the buffer. *)
Lemma dispatch_terminates fuel r s :
  consuming -> (length (_http_buf (me s)) < fuel)%nat -> is_some (dispatch_loop core fuel self r s) = true.
Proof.
  intros Hc. revert r s. induction fuel as [|fuel IH]; intros r s Hf; [lia|]. cbn [dispatch_loop]. cbv zeta.
  assert (Hnext : ∀ s1, (length (_http_buf (me s1)) <= fuel)%nat ->
    is_some (let d := core_batch core (_http_buf (me s1)) in
     let s2 := on_me (after_core d) s1 in
     match d_reply d with
     | RInt n => Some (if n =? 0 then on_me (fun p => p<|_ka_needs_reset := true|>) s2
                       else if n =? -2 then on_me core_failed s2 else s2)
     | RNone => Some s2
     | RFalse => Some (on_me core_failed s2)
     | r => dispatch_loop core fuel self r s2
     end) = true).
  { intros s1 H1. cbv zeta. pose proof (Hc (_http_buf (me s1))) as Hd.
    destruct (d_reply (core_batch core (_http_buf (me s1)))) as [| | | |ep|t|] eqn:Er; try done.
    all: apply IH; cbn [me on_me]; rewrite buf_after_core; lia. }
  destruct r as [| | | |[ep|]|t|]; try done; try (apply Hnext; lia). apply Hnext. rewrite buf_request. lia.
Qed.

(** Draining a buffer that holds part of a request only schedules itself again,
    at once, until the rest arrives. *)
Lemma drain_spins s t b data :
  append_dispatch core = Some (fun buf _ => mkDispatch (RInt (-1)) buf [] false) ->
  _ws (me s) = None -> _wr_paused (me s) = false -> _transport (me s) = Some t -> _http_buf (me s) = b :: data ->
  max_body_size core = 0 -> _needs_req_ctx (me s) = false ->
  _drain_buf core 1 false self s = Some (call_soon self CDrain s).
Proof.
  intros Ha Hw Hp Ht Hb Hm Hn. unfold _drain_buf. rewrite Hp, Hb. cbn [orb length Nat.eqb].
  unfold data_received. rewrite Hw, Ht, Hp, Hm, Hn. cbn [Z.ltb Z.compare andb orb]. unfold first_call. rewrite Ha. cbn [d_reply].
  assert (E : on_me (after_core (mkDispatch (RInt (-1)) (_http_buf (me s)) [] false)) s = s).
  { destruct s as [[] g]. done. }
  cbv zeta. rewrite E. change (0 <=? -1) with false. change (-1 =? -1) with true. cbv iota. by rewrite Hp, Hb.
Qed.
End dispatching.

(** ** A run *)

(** A core that upgrades requests beginning with [WS] and answers the others. *)
Definition sample_core : Core unit :=
  mkCore tt (fun b d => Some (b ++ d)) 0
    (Some (fun _ data => if startswith data $"WS" then mkDispatch (RWs (Some 1)) [] [] false
                         else mkDispatch (RInt 0) [] [$"HTTP/1.1 200 OK"] false))
    (fun _ => mkDispatch (RInt 0) [] [] false) (fun _ => ([], false))
    (fun _ _ => (tt, Ok (Some (None, None, [])))) (fun _ _ => (tt, None)) (fun _ _ _ => (tt, inl 0)) (fun _ _ => (tt, 0))
    (fun _ _ => (tt, Ok None)) (fun _ => [136; 2; 3; 232]%N) (fun _ => []).

Definition sample_config : Config := mkConfig 10 30 true false false 8.

Definition sample_accepted : Server (R:=unit) :=
  get_or (accept sample_config (mkTransport false [] (Some (Some 7))) None 5 (prewarm sample_config 2 no_server)).1 no_server.

Definition sample_upgraded : Server (R:=unit) :=
  get_or (call 1 (data_received sample_core 8 false 1 $"WS /chat") sample_accepted) no_server.

Lemma server_books_agree_witness :
  reachable sample_core sample_config sample_upgraded ∧ inv sample_config sample_upgraded
  ∧ active_count (shared sample_upgraded) = 1 ∧ ws_active (shared sample_upgraded) = 1
  ∧ _pool (shared sample_upgraded) = [0%nat].
Proof.
  assert (Hr : reachable sample_core sample_config sample_upgraded).
  { exists None. eapply reach_step; [eapply reach_step; [apply (reach_init _ _ 2)|]|]; apply loop_server.
    - apply (step_accept _ _ _ (mkTransport false [] (Some (Some 7))) None 5 sample_accepted). vm_compute. reflexivity.
    - apply (step_data _ _ _ 1 $"WS /chat").
      + unfold live. apply (bool_decide_unpack _). vm_compute. exact I.
      + vm_compute. reflexivity. }
  split; [exact Hr|]. split; [exact (server_books_agree sample_core sample_config sample_upgraded Hr)|]. repeat split.
Defined.

(** A connection that served a request, and one that did not. *)
Definition sample_conn (served : bool) : St (R:=unit) :=
  mkSt ((proto_init 30 true true)<|_transport := Some (mkTransport false [] None)|><|_ka_deadline := 35|>
          <|_ka_needs_reset := served|>) (shared sample_accepted).

Lemma websocket_keep_alive_witness :
  sweep_one 1000 (me (ws_run sample_core 1 [EvData $"hi"] (upgrade sample_core 1 1 (sample_conn false))))
    = me (ws_run sample_core 1 [EvData $"hi"] (upgrade sample_core 1 1 (sample_conn false)))
  ∧ is_open (sweep_one 50 (me (ws_run sample_core 1 [EvData $"hi"]
      (on_me (sweep_one 10) (upgrade sample_core 1 1 (sample_conn true)))))) = false.
Proof.
  split.
  - apply (websocket_keep_alive sample_core 1 1 (sample_conn false) [EvData $"hi"] 0 0). reflexivity.
  - apply (websocket_keep_alive sample_core 1 1 (sample_conn true) [EvData $"hi"] 10 50); [reflexivity..|]. simpl. lia.
Defined.

Definition sample_ws : St (R:=unit) := upgrade sample_core 1 1 (sample_conn false).

Lemma heartbeat_finds_silence_witness :
  is_open (me (_send_ws_ping 1 (ws_run sample_core 1 [EvData $"pong"] (_send_ws_ping 1 sample_ws)))) = true
  ∧ is_open (me (_send_ws_ping 1 (ws_run sample_core 1 [] (_send_ws_ping 1 sample_ws)))) = false.
Proof.
  split.
  - destruct (heartbeat_finds_silence sample_core 1 sample_ws ws_new [EvData $"pong"] eq_refl eq_refl eq_refl eq_refl)
      as (_ & _ & _ & H).
    apply H; [reflexivity | reflexivity |]. intros w'. vm_compute. intros [= <-]. reflexivity.
  - destruct (heartbeat_finds_silence sample_core 1 sample_ws ws_new [] eq_refl eq_refl eq_refl eq_refl) as (_ & _ & H & _).
    destruct (H eq_refl) as (w & Ew & [Hc|[Ho _]]); [|exact Ho]. exfalso. vm_compute in Ew. injection Ew as <-. discriminate Hc.
Defined.
