(* ===== verification/HttpHandlers.v ===== *)
(** * HttpHandlers: finishing requests in Python

    The coroutines of [CppHttpProtocol] that finish a request the compiled core
    has started: they await the endpoint, run HTTP middleware, build and write
    the response, run background tasks and exit stacks, answer exceptions and
    tell the core that the request has ended.  The transport and a log of what
    was done are the state; what endpoints, tasks and handlers give, and the
    bytes the core builds, are parameters. *)

From S2P Require Import Prelude PyStr Asgi MutableHeaders Responses ExceptionHandler HttpWire.

(** ** Values and effects *)

(** Something awaited: its outcome, and whether the client left meanwhile. *)
Record Awaited (A : Type) : Type := mkAwaited { outcome : result A; leaves : bool }.
Arguments mkAwaited {A}. Arguments outcome {A}. Arguments leaves {A}.

(** What an endpoint returned: a plain [dict] or [list], or another object with
    the attributes that are read; [raw_stream] is a body iterator, [raw_file]
    the contents of the file of a [FileResponse] ([None] when unreadable). *)
Inductive Raw : Type := mkRaw {
  raw_value : Z;
  raw_plain : bool;
  raw_str : bool;
  raw_is_response : bool;
  raw_body : option bytes;
  raw_status : option Z;
  raw_hdrs : raw_headers;
  raw_stream : option (list stream_item);
  raw_file : option (option bytes);
  raw_background : option (Awaited unit);
  raw_cpp_bg : option (Awaited unit);
  raw_cpp_exit : option (Awaited unit);
  raw_mw_ran : bool
}.

Inductive event : Type := EWrite (writes : list bytes) | EAwait | EStored (e : exn) | EEnd.

(** The transport ([None] when the connection is lost, or whether it is closing)
    and the log. *)
Record World : Type := mkWorld { transport : option bool; events : list event }.

Definition M (A : Type) : Type := World -> result A * World.
Definition mret {A} (a : A) : M A := fun w => (Ok a, w).
Definition mraise {A} (e : exn) : M A := fun w => (Raise e, w).
Definition mbnd {A B} (m : M A) (k : A -> M B) : M B :=
  fun w => match m w with (Ok a, w') => k a w' | (Raise e, w') => (Raise e, w') end.
Definition lift {A} (r : result A) : M A := fun w => (r, w).
Notation "'let*' x := m 'in' k" := (mbnd m (fun x => k))
  (at level 10, x pattern, m at level 100, k at level 200).

(** [try: m except Exception as exc: h(exc)] and [try: m finally: f] *)
Definition try_except {A} (m : M A) (h : exn -> M A) : M A :=
  fun w => match m w with (Raise e, w') => h e w' | r => r end.
Definition try_finally {A} (m : M A) (f : World -> World) : M A := fun w => let '(r, w') := m w in (r, f w').

Definition log (e : event) (w : World) : World := mkWorld (transport w) (events w ++ [e]).
Definition tell (e : event) : M unit := fun w => (Ok tt, log e w).

(** [transport and not transport.is_closing()] *)
Definition is_writable (w : World) : bool := match transport w with Some closing => negb closing | None => false end.
Definition ask_writable : M bool := fun w => (Ok (is_writable w), w).

(** Writing to a transport that was open when it was last looked at. *)
Definition write (bs : list bytes) : M unit := tell (EWrite bs).

Definition await {A} (a : Awaited A) : M A :=
  fun w => (outcome a, mkWorld (if leaves a then None else transport w) (events w ++ [EAwait])).

Definition await_opt (a : option (Awaited unit)) : M unit := match a with Some x => await x | None => mret tt end.

(** ** The application and the core

    [write_async_result] writes the response itself; for a value that is no JSON
    it clears the error and writes nothing ([None]). *)
Record App : Type := mkApp {
  exc_handlers : list (str * (exn -> Awaited (option Raw)));
  status_handlers : list (Z * (exn -> Awaited (option Raw)));
  app_cors : str -> result raw_headers;
  dispatchers : list (Raw -> Awaited (option Raw));
  raise_server_exceptions : bool;
  context : ReqContext;
  build_response : Z -> Z -> bool -> result (option bytes);
  build_response_from_any : Raw -> Z -> bool -> result (option bytes);
  build_response_from_parts : Z -> raw_headers -> bytes -> bool -> result bytes;
  encode_to_json_bytes : Z -> result bytes;
  write_async_result : Z -> Z -> bool -> option bytes;
  user_headers : exn -> option (list (str * str));
  detail_value : exn -> Z;
  detail_bytes : exn -> bytes;
  validation_body : exn -> result bytes;
  json_response : Raw -> Z -> result Raw;
  text_response : bool -> Raw -> Z -> result Raw
}.

Section handlers.
Context (app : App).

(** The CORS headers for an origin, none without one. *)
Definition cors_for (origin : str) : result raw_headers := match origin with [] => Ok [] | _ => app_cors app origin end.

Definition with_cors (cors : raw_headers) (resp : bytes) : bytes :=
  match cors with [] => resp | _ => _inject_headers_into_response resp cors end.

Definition _500_RESP : bytes :=
  $"HTTP/1.1 500 Internal Server Error" ++ _CRLF ++ $"content-type: text/plain; charset=utf-8" ++ _CRLF
  ++ $"content-length: 21" ++ _CRLF ++ $"connection: keep-alive" ++ _CRLFCRLF ++ $"Internal Server Error".

Definition json_type : bytes * bytes := ($"content-type", $"application/json").

Definition is_http (e : exn) : bool := match http_status e with Some _ => true | None => false end.
(** [getattr(exc, 'headers', None)]; subclasses of the user have their own. *)
Definition exc_headers (e : exn) : option (list (str * str)) :=
  match e with HTTPException _ _ hs => hs | _ => user_headers app e end.
Definition is_a (cls : str) (e : exn) : bool := bool_decide (cls ∈ exn_mro e).

(** The handler of an exception: of the first class of its order that has one,
    or of its status. *)
Definition find_handler (e : exn) : option (exn -> Awaited (option Raw)) :=
  match list_find (fun cls => is_Some (dict_get (exc_handlers app) cls)) (exn_mro e) with
  | Some (_, cls) => dict_get (exc_handlers app) cls
  | None => match http_status e with Some sc => dict_get (status_handlers app) sc | None => None end
  end.

(** [_dispatch_exception] *)
Definition stores (handled : bool) (e : exn) : bool :=
  is_a $"ResponseValidationError" e
  || raise_server_exceptions app && negb (handled && (is_http e || is_a $"RequestValidationError" e)).

Definition respond_422 (cors : raw_headers) (keep_alive : bool) (e : exn) : M unit :=
  let* body := lift (validation_body app e) in
  let* resp := lift (build_response_from_parts app 422 (json_type :: cors) body keep_alive) in
  write [resp].

Definition respond_500 (cors : raw_headers) (e : exn) : M unit :=
  let* _ := if stores false e then tell (EStored e) else mret tt in
  write [with_cors cors _500_RESP].

Definition run_exception_handler (h : exn -> Awaited (option Raw)) (cors : raw_headers) (keep_alive : bool) (e : exn) : M unit :=
  let* _ := if stores true e then tell (EStored e) else mret tt in
  try_except
    (let* resp := await (h e) in
     let* writable := ask_writable in
     match resp with
     | Some resp =>
         if writable then
           let* b := lift (build_response_from_any app resp (get_or (raw_status resp) 500) keep_alive) in
           match b with Some b => write [with_cors cors b] | None => mret tt end
         else mret tt
     | None => mret tt
     end)
    (fun _ => mret tt).

Definition encode_header (h : str * str) : result (bytes * bytes) :=
  let! k := encode_latin1 h.1 in let! v := encode_latin1 h.2 in Ok (k, v).

Definition respond_http (e : exn) (sc : Z) (headers : option (list (str * str))) (cors : raw_headers) (keep_alive : bool) : M unit :=
  match headers with
  | Some ((_ :: _) as hs) =>
      let* hs := lift (rmapM encode_header hs) in
      let* resp := lift (build_response_from_parts app sc (json_type :: hs ++ cors) (detail_bytes app e) keep_alive) in
      write [resp]
  | _ =>
      let* resp := lift (build_response app (detail_value app e) sc keep_alive) in
      match resp with Some b => write [with_cors cors b] | None => mret tt end
  end.

Definition _dispatch_exception (e : exn) (keep_alive : bool) : M unit :=
  let* writable := ask_writable in
  if negb writable then mret tt
  else
    let* cors := lift (cors_for (_extract_origin (cx_raw_headers (context app)))) in
    match find_handler e with
    | Some h => run_exception_handler h cors keep_alive e
    | None =>
        match http_status e with
        | Some sc => respond_http e sc (exc_headers e) cors keep_alive
        | None =>
            if is_a $"RequestValidationError" e || is_a $"ValidationError" e
            then try_except (respond_422 cors keep_alive e) (fun _ => respond_500 cors e)
            else respond_500 cors e
        end
    end.

(** A handler: exceptions are answered, and the core is told of the end. *)
Definition handled (keep_alive : bool) (m : M unit) : M unit :=
  try_finally (try_except m (fun e => _dispatch_exception e keep_alive)) (log EEnd).

(** [_write_chunked_streaming] *)
Definition stream (raw : Raw) (cors : raw_headers) : M unit :=
  write (_write_chunked_streaming (get_or (raw_status raw) 200) (raw_hdrs raw) cors (get_or (raw_stream raw) [])).

(** The response built from any value, or streamed. *)
Definition respond_any (raw : Raw) (status : Z) (keep_alive : bool) (extra cors : raw_headers) : M unit :=
  let* resp := lift (build_response_from_any app raw status keep_alive) in
  match resp with
  | Some b => write [with_cors (extra ++ cors) b]
  | None => stream raw cors
  end.

(** A [dict] or [list]. *)
Definition respond_json (raw : Raw) (status : Z) (keep_alive : bool) (hdrs : raw_headers) : M unit :=
  match hdrs with
  | [] => match write_async_result app (raw_value raw) status keep_alive with Some b => write [b] | None => mret tt end
  | _ =>
      let* body := lift (encode_to_json_bytes app (raw_value raw)) in
      let* resp := lift (build_response_from_parts app status (json_type :: hdrs) body keep_alive) in
      write [resp]
  end.

(** [resp_obj.headers[k] = v] *)
Definition set_raw_headers (raw : Raw) (extra : raw_headers) : Raw :=
  mkRaw (raw_value raw) (raw_plain raw) (raw_str raw) (raw_is_response raw) (raw_body raw) (raw_status raw)
    (foldl (fun hs h => (filter (fun x => bytes_lower x.1 ≠ bytes_lower h.1) hs) ++ [(bytes_lower h.1, h.2)]) (raw_hdrs raw) extra)
    (raw_stream raw) (raw_file raw) (raw_background raw) (raw_cpp_bg raw) (raw_cpp_exit raw) (raw_mw_ran raw).

(** Lifecycle objects kept for the final response. *)
Definition keep_lifecycle (raw final : Raw) : Raw :=
  let first (a b : option (Awaited unit)) := match a with Some _ => a | None => b end in
  mkRaw (raw_value final) (raw_plain final) (raw_str final) (raw_is_response final) (raw_body final) (raw_status final)
    (raw_hdrs final) (raw_stream final) (raw_file final) (raw_background final)
    (first (raw_cpp_bg final) (raw_cpp_bg raw)) (first (raw_cpp_exit final) (raw_cpp_exit raw)) (raw_mw_ran final).

Fixpoint run_dispatchers (ds : list (Raw -> Awaited (option Raw))) (response : Raw) : M Raw :=
  match ds with
  | [] => mret response
  | d :: ds' => let* r := await (d response) in run_dispatchers ds' (get_or r response)
  end.

(** [_run_http_middleware]: each dispatch function gets the response so far. *)
Definition _run_http_middleware (raw : Raw) (extra : raw_headers) (status : Z) (keep_alive : bool) : M Raw :=
  let* resp_obj := if negb (raw_plain raw) && raw_is_response raw then mret raw else lift (json_response app raw status) in
  let resp_obj := set_raw_headers (keep_lifecycle raw resp_obj) extra in
  let* final := run_dispatchers (reverse (dispatchers app)) resp_obj in
  let final := keep_lifecycle resp_obj final in
  let* writable := ask_writable in
  let* _ :=
    if writable then
      let sc := get_or (raw_status final) status in
      match raw_body final with
      | Some body => let* b := lift (build_response_from_parts app sc (raw_hdrs final) body keep_alive) in write [b]
      | None =>
          let* b := lift (build_response_from_any app final sc keep_alive) in
          match b with Some b => write [b] | None => mret tt end
      end
    else mret tt in
  mret final.

(** [raw_headers or _current_raw_headers.get()] *)
Definition or_current (hs : option raw_headers) : option raw_headers :=
  match hs with Some (_ :: _) => hs | _ => cx_raw_headers (context app) end.

(** [_handle_async]; [driven] is what driving the coroutine gives. *)
Definition handle_async_body (driven : Awaited Raw) (status : Z) (keep_alive : bool) (origin : str) : M unit :=
  let* raw := await driven in
  let* writable := ask_writable in
  if negb writable then mret tt
  else
    let* cors := lift (cors_for origin) in
    if raw_plain raw then respond_json raw status keep_alive cors
    else
      let* raw :=
        match dispatchers app with
        | [] =>
            let* _ := await_opt (raw_background raw) in
            let* _ := await_opt (raw_cpp_bg raw) in
            let* _ := respond_any raw status keep_alive [] cors in
            mret raw
        | _ => _run_http_middleware raw cors status keep_alive
        end in
      await_opt (raw_cpp_exit raw).

Definition _handle_async (driven : Awaited Raw) (status : Z) (keep_alive : bool) (origin : str) : M unit :=
  handled keep_alive (handle_async_body driven status keep_alive origin).

(** A file response in one write. *)
Definition has_content_length (hs : raw_headers) : bool := existsb (fun h => bool_decide (bytes_lower h.1 = $"content-length")) hs.

Definition file_response (raw : Raw) (content : bytes) (cors : raw_headers) (keep_alive : bool) : bytes :=
  let st := get_or (raw_status raw) 200 in
  $"HTTP/1.1 " ++ Z_to_str st ++ $" " ++ get_or (dict_get _STATUS_PHRASES st) $"OK"
  ++ concat ((fun h => _CRLF ++ h.1 ++ $": " ++ h.2) <$> raw_hdrs raw ++ cors)
  ++ (if has_content_length (raw_hdrs raw) then [] else _CRLF ++ $"content-length: " ++ Z_to_str (Z.of_nat (length content)))
  ++ (if keep_alive then _CRLF ++ $"connection: keep-alive" ++ _CRLFCRLF else _CRLF ++ $"connection: close" ++ _CRLFCRLF)
  ++ content.

(** [_handle_stream]: background tasks run even when nothing was written. *)
Definition _handle_stream (raw : Raw) (keep_alive : bool) (origin : str) : M unit :=
  handled keep_alive (
    let* writable := ask_writable in
    let* _ :=
      if writable then
        let* cors := lift (cors_for origin) in
        match raw_file raw, raw_stream raw with
        | Some content, None => write [file_response raw (get_or content []) cors keep_alive]
        | _, _ => stream raw cors
        end
      else mret tt in
    await_opt (raw_background raw)).

(** [_handle_middleware_result]: a string becomes JSON or HTML by the path. *)
Definition _handle_middleware_result (raw : Raw) (status : Z) (keep_alive : bool) (raw_headers : option raw_headers) (path : str) : M unit :=
  handled keep_alive (
    let* cors := lift (cors_for (_extract_origin (or_current raw_headers))) in
    let* raw := if raw_str raw && negb (raw_is_response raw)
                then lift (text_response app (endswith path $".json") raw status) else mret raw in
    match dispatchers app with
    | [] =>
        let* writable := ask_writable in
        if writable then
          let* resp := if raw_plain raw then lift (build_response app (raw_value raw) status keep_alive)
                       else lift (build_response_from_any app raw status keep_alive) in
          match resp with Some b => write [with_cors cors b] | None => mret tt end
        else mret tt
    | _ => let* _ := _run_http_middleware raw cors status keep_alive in mret tt
    end).

(** [_handle_pydantic]; [validated] is the body arguments, [inr] errors. *)
Definition _handle_pydantic (validated : Awaited (unit + Z)) (endpoint : Awaited Raw) (status : Z) : M unit :=
  handled true (
    let* cors := lift (cors_for (_extract_origin (cx_raw_headers (context app)))) in
    let* v := await validated in
    match v with
    | inr errors =>
        let* writable := ask_writable in
        if writable then
          let* resp := lift (build_response app errors 422 true) in
          match resp with Some b => write [with_cors cors b] | None => mret tt end
        else mret tt
    | inl _ =>
        let* raw := await endpoint in
        let* writable := ask_writable in
        if negb writable then mret tt
        else if raw_plain raw then
          let* resp := lift (build_response app (raw_value raw) status true) in
          match resp with Some b => write [with_cors cors b] | None => mret tt end
        else
          let* _ := respond_any raw status true [] cors in
          await_opt (raw_background raw)
    end).

(** What dependencies gave: errors, or the response they filled and their exit
    stack; [None] is a result that is no tuple. *)
Inductive exit_stack : Type := NoStack | TupleStack | Stack (aexit : option exn -> Awaited bool).

Record Solved : Type := mkSolved {
  sv_errors : option Z;
  sv_response : option (raw_headers * option Z);
  sv_stack : exit_stack
}.

(** The endpoint: what it returns, the response object after it, and its
    background tasks (none when there are no tasks). *)
Record Endpoint : Type := mkEndpoint {
  ep_result : Awaited Raw;
  ep_response : option (raw_headers * option Z);
  ep_bg : option (Awaited unit);
  ep_headers : option raw_headers
}.

Definition other_status (sc : option Z) (status : Z) : Z :=
  match sc with Some s => if s =? 200 then status else s | None => status end.

Definition not_content (h : bytes * bytes) : bool :=
  negb (bool_decide (bytes_lower h.1 = $"content-length") || bool_decide (bytes_lower h.1 = $"content-type")).

(** [_exec_endpoint_and_write] *)
Definition exec_endpoint (ep : Endpoint) (status : Z) (extra : raw_headers) (keep_alive : bool) (origin : str) : M Raw :=
  let* raw := await (ep_result ep) in
  let '(extra, status) :=
    match ep_response ep with
    | None => (extra, status)
    | Some (hs, sc) =>
        ((match hs with [] => extra | _ => filter (fun h => not_content h = true) hs end), other_status sc status)
    end in
  let* writable := ask_writable in
  if negb writable then mret raw
  else
    let ep_origin := match _extract_origin (or_current (ep_headers ep)) with [] => origin | o => o end in
    let* cors := lift (cors_for ep_origin) in
    let* raw :=
      match dispatchers app, raw_mw_ran raw with
      | _ :: _, false => _run_http_middleware raw (extra ++ cors) status keep_alive
      | _, _ =>
          let* _ := if raw_plain raw then respond_json raw status keep_alive (extra ++ cors)
                    else respond_any raw status keep_alive extra cors in
          mret raw
      end in
    let* _ := await_opt (raw_cpp_bg raw) in
    mret raw.

Definition run_endpoint (ep : Endpoint) (status : Z) (extra : raw_headers) (keep_alive : bool) (origin : str) : M unit :=
  let* raw := exec_endpoint ep status extra keep_alive origin in
  let* _ := await_opt (raw_background raw) in
  await_opt (ep_bg ep).

(** [async with stack: m] *)
Definition async_with (aexit : option exn -> Awaited bool) (m : M unit) : M unit :=
  fun w => match m w with
           | (Ok a, w') => (let* _ := await (aexit None) in mret a) w'
           | (Raise e, w') => (let* suppressed := await (aexit (Some e)) in if suppressed then mret tt else mraise e) w'
           end.

(** [_handle_async_di] *)
Definition _handle_async_di (driven : Awaited (option Solved)) (ep : Endpoint) (status : Z) (keep_alive : bool) (origin : str) : M unit :=
  handled keep_alive (
    let* solved := await driven in
    let* _ := lift (cors_for origin) in
    match solved with
    | None => run_endpoint ep status [] keep_alive origin
    | Some sv =>
        let '(extra, status) :=
          match sv_response sv with Some (hs, sc) => (hs, other_status sc status) | None => ([], status) end in
        match sv_errors sv with
        | Some errors =>
            let* writable := ask_writable in
            if writable then
              let* resp := lift (build_response app errors 422 keep_alive) in
              match resp with Some b => write [b] | None => mret tt end
            else mret tt
        | None =>
            match sv_stack sv with
            | Stack aexit => async_with aexit (run_endpoint ep status extra keep_alive origin)
            | _ => run_endpoint ep status extra keep_alive origin
            end
        end
    end).
End handlers.

(** ** Counting responses *)
Definition is_write (e : event) : bool := match e with EWrite _ => true | _ => false end.
Definition is_end (e : event) : bool := match e with EEnd => true | _ => false end.

Definition responses (w : World) : nat := length (List.filter is_write (events w)).
Definition ends (w : World) : nat := length (List.filter is_end (events w)).

(** A computation that writes nothing; one that writes at most one response, and
    none if it raises; one that writes at most one. *)
Definition none {A} (m : M A) : Prop := ∀ w, responses (m w).2 = responses w.
Definition succeeds {A} (m : M A) : Prop := ∀ w, ∃ a, (m w).1 = Ok a.
Definition once {A} (m : M A) : Prop :=
  ∀ w, (responses (m w).2 <= S (responses w))%nat ∧ (∀ e, (m w).1 = Raise e -> responses (m w).2 = responses w).
Definition at_most_one {A} (m : M A) : Prop := ∀ w, (responses (m w).2 <= S (responses w))%nat.

Lemma responses_log e w : responses (log e w) = (responses w + if is_write e then 1 else 0)%nat.
Proof. unfold responses, log. cbn [events]. rewrite List.filter_app, length_app. by destruct e. Qed.

Section counting.
Context {A B : Type}.

Lemma none_ret (a : A) : none (mret a).
Proof. done. Qed.
Lemma none_lift (r : result A) : none (lift r).
Proof. done. Qed.
Lemma none_ask : none ask_writable.
Proof. done. Qed.
Lemma none_await (a : Awaited A) : none (await a).
Proof. intros w. unfold await, responses. cbn. by rewrite List.filter_app, app_nil_r. Qed.
Lemma none_bind (m : M A) (k : A -> M B) : none m -> (∀ a, none (k a)) -> none (mbnd m k).
Proof.
  intros Hm Hk w. unfold mbnd. specialize (Hm w). destruct (m w) as [[a|e] w']; simpl in *; [|done].
  by rewrite Hk.
Qed.

Lemma once_none (m : M A) : none m -> once m.
Proof. intros H w. rewrite H. split; [lia | done]. Qed.

(** Nothing is written before, or nothing can fail after. *)
Lemma once_after (m : M A) (k : A -> M B) : none m -> (∀ a, once (k a)) -> once (mbnd m k).
Proof.
  intros Hm Hk w. unfold mbnd. specialize (Hm w). destruct (m w) as [[a|e] w']; simpl in *.
  - rewrite <-Hm. apply Hk.
  - rewrite Hm. split; [lia | done].
Qed.

Lemma once_before (m : M A) (k : A -> M B) : once m -> (∀ a, none (k a)) -> (∀ a, succeeds (k a)) -> once (mbnd m k).
Proof.
  intros Hm Hk Hs w. unfold mbnd. destruct (Hm w) as [H1 H2]. destruct (m w) as [[a|e] w']; simpl in *;
    [|split; [done | intros _ _; by apply (H2 e)]].
  rewrite Hk. destruct (Hs a w') as [b ->]. by split.
Qed.

(** The same with what the first computation gives. *)
Definition gives (P : A -> Prop) (m : M A) : Prop := ∀ w a, (m w).1 = Ok a -> P a.

Lemma once_then (P : A -> Prop) (m : M A) (k : A -> M B) :
  once m -> gives P m -> (∀ a, P a -> none (k a) ∧ succeeds (k a)) -> once (mbnd m k).
Proof.
  intros Hm Hp Hk w. unfold mbnd. destruct (Hm w) as [H1 H2]. pose proof (Hp w) as Hp'. destruct (m w) as [[a|e] w']; simpl in *.
  - destruct (Hk a (Hp' a eq_refl)) as [Hn Hs]. rewrite Hn. destruct (Hs w') as [b ->]. by split.
  - split; [done | intros _ _; by apply (H2 e)].
Qed.

Lemma once_with (P : A -> Prop) (m : M A) (k : A -> M B) :
  none m -> gives P m -> (∀ a, P a -> once (k a)) -> once (mbnd m k).
Proof.
  intros Hm Hp Hk w. unfold mbnd. specialize (Hm w). pose proof (Hp w) as Hp'. destruct (m w) as [[a|e] w']; simpl in *.
  - rewrite <-Hm. by apply Hk, Hp'.
  - rewrite Hm. split; [lia | done].
Qed.

Lemma one_once (m : M A) : once m -> at_most_one m.
Proof. intros H w. apply H. Qed.

Lemma one_after (m : M A) (k : A -> M B) : none m -> (∀ a, at_most_one (k a)) -> at_most_one (mbnd m k).
Proof.
  intros Hm Hk w. unfold mbnd. specialize (Hm w). destruct (m w) as [[a|e] w']; simpl in *.
  - rewrite <-Hm. apply Hk.
  - lia.
Qed.

Lemma one_try (m : M A) (h : exn -> M A) : once m -> (∀ e, at_most_one (h e)) -> at_most_one (try_except m h).
Proof.
  intros Hm Hh w. unfold try_except. destruct (Hm w) as [H1 H2]. destruct (m w) as [[a|e] w'] eqn:E; simpl in *; [done|].
  rewrite <-(H2 e) by done. apply Hh.
Qed.
End counting.

Lemma gives_with {A B} (P : A -> Prop) (Q : B -> Prop) (m : M A) (k : A -> M B) :
  gives P m -> (∀ a, P a -> gives Q (k a)) -> gives Q (mbnd m k).
Proof.
  intros Hm Hk w b. unfold mbnd. pose proof (Hm w) as Hw. destruct (m w) as [[a|e] w']; [|done]. intros E.
  by eapply (Hk a (Hw a eq_refl)).
Qed.

Lemma once_write bs : once (write bs).
Proof. intros w. unfold write, tell. cbn [fst snd]. rewrite responses_log. simpl. split; [lia | done]. Qed.

Lemma none_stored e : none (tell (EStored e)).
Proof. intros w. unfold tell. cbn [snd]. rewrite responses_log. simpl. lia. Qed.

Lemma succeeds_ret {A} (a : A) : succeeds (mret a).
Proof. intros w. by eexists. Qed.

Lemma none_await_opt a : none (await_opt a).
Proof. destruct a; [apply none_await | apply none_ret]. Qed.

(** The tactic follows the structure of a handler. *)
Create HintDb counting.
#[export] Hint Resolve @none_ret @none_lift none_ask @none_await none_await_opt none_stored once_write @succeeds_ret : counting.
Ltac count_step :=
  match goal with
  | |- once (mbnd _ _) => apply once_after; [solve [auto with counting]|intros ?]
  | |- none (mbnd _ _) => apply none_bind; [|intros ?]
  | |- at_most_one (mbnd _ _) => apply one_after; [solve [auto with counting]|intros ?]
  | |- at_most_one (try_except _ _) => apply one_try; [|intros ?]
  | |- at_most_one (match ?x with _ => _ end) => destruct x
  | |- once (match ?x with _ => _ end) => destruct x
  | |- none (match ?x with _ => _ end) => destruct x
  | |- once (write _) => apply once_write
  | |- once _ => apply once_none; solve [auto with counting]
  | |- none _ => solve [auto with counting]
  | |- at_most_one (write _) => apply one_once, once_write
  | |- at_most_one (mret _) => apply one_once, once_none, none_ret
  end.
Ltac count := repeat (cbv zeta; count_step).

Section facts.
Context (app : App).

Lemma one_respond_500 cors e : at_most_one (respond_500 app cors e).
Proof. unfold respond_500. apply one_after; [destruct (stores app false e); auto with counting|]. intros. count. Qed.

Lemma once_respond_422 cors ka e : once (respond_422 app cors ka e).
Proof. unfold respond_422. count. Qed.

Lemma one_respond_http e sc hs cors ka : at_most_one (respond_http app e sc hs cors ka).
Proof. unfold respond_http. apply one_once. destruct hs as [[|h hs]|]; count. Qed.

Lemma one_exception_handler h cors ka e : at_most_one (run_exception_handler app h cors ka e).
Proof.
  unfold run_exception_handler. apply one_after; [destruct (stores app true e); auto with counting|]. intros _.
  apply one_try; [|intros; count]. count.
Qed.

Lemma one_dispatch e ka : at_most_one (_dispatch_exception app e ka).
Proof.
  unfold _dispatch_exception. apply one_after; [apply none_ask|]. intros writable.
  destruct (negb writable); [count|]. apply one_after; [auto with counting|]. intros cors.
  destruct (find_handler app e); [apply one_exception_handler|].
  assert (Hv : at_most_one (if is_a $"RequestValidationError" e || is_a $"ValidationError" e
    then try_except (respond_422 app cors ka e) (fun _ => respond_500 app cors e) else respond_500 app cors e)).
  { destruct (_ || _); [|apply one_respond_500].
    apply one_try; [apply once_respond_422 | intros; apply one_respond_500]. }
  destruct (http_status e); [apply one_respond_http|exact Hv].
Qed.

(** A handler whose body writes at most once, and then cannot fail. *)
Lemma one_handled ka m : once m -> at_most_one (handled app ka m).
Proof.
  intros Hm w. unfold handled, try_finally.
  pose proof (one_try m (fun e => _dispatch_exception app e ka) Hm (fun e => one_dispatch e ka) w) as H.
  destruct (try_except m _ w) as [r w']. cbn [snd] in *. rewrite responses_log. simpl. lia.
Qed.

(** ** One response per request *)

Definition fine (a : option (Awaited unit)) : Prop := match a with Some x => outcome x = Ok tt | None => True end.

(** What is left to run after a response does not fail. *)
Definition calm (raw : Raw) : Prop := fine (raw_background raw) ∧ fine (raw_cpp_bg raw) ∧ fine (raw_cpp_exit raw).

Record calm_app : Prop := mkCalm {
  calm_dispatch d raw r : d ∈ dispatchers app -> calm raw -> outcome (d raw) = Ok (Some r) -> calm r;
  calm_json raw status r : json_response app raw status = Ok r -> calm r
}.

Lemma fine_succeeds a : fine a -> succeeds (await_opt a).
Proof. destruct a as [x|]; [|intros _; apply succeeds_ret]. simpl. intros E w. exists tt. unfold await. by rewrite E. Qed.

Lemma keep_calm raw final : calm raw -> calm final -> calm (keep_lifecycle raw final).
Proof.
  intros (_ & H2 & H3) (G1 & G2 & G3). unfold calm, keep_lifecycle. cbn.
  destruct (raw_cpp_bg final), (raw_cpp_exit final); auto.
Qed.

Lemma set_headers_calm raw hs : calm raw -> calm (set_raw_headers raw hs).
Proof. done. Qed.

Lemma run_dispatchers_spec ds raw :
  calm_app -> (∀ d, d ∈ ds -> d ∈ dispatchers app) -> calm raw ->
  none (run_dispatchers ds raw) ∧ gives calm (run_dispatchers ds raw).
Proof.
  intros Ha. revert raw. induction ds as [|d ds IH]; intros raw Hds Hc; cbn [run_dispatchers].
  - split; [apply none_ret|]. intros w a [= <-]. done.
  - assert (Hr : ∀ r, outcome (d raw) = Ok r -> calm (get_or r raw)).
    { intros [r|] E; [|done]. simpl. apply (calm_dispatch Ha d raw); [apply Hds; set_solver | done | done]. }
    assert (Hk : ∀ r, outcome (d raw) = Ok r ->
      none (run_dispatchers ds (get_or r raw)) ∧ gives calm (run_dispatchers ds (get_or r raw))).
    { intros r E. apply IH; [set_solver | by apply Hr]. }
    split.
    + intros w. unfold mbnd. pose proof (none_await (d raw) w) as Hn. unfold await in *. cbn [snd] in Hn.
      destruct (outcome (d raw)) as [r|e] eqn:E; [|exact Hn]. destruct (Hk r eq_refl) as [Hn' _]. rewrite Hn'. exact Hn.
    + intros w a. unfold mbnd, await. destruct (outcome (d raw)) as [r|e] eqn:E; [|done]. by apply Hk.
Qed.

Lemma middleware_once raw extra status ka :
  calm_app -> calm raw ->
  once (_run_http_middleware app raw extra status ka) ∧ gives calm (_run_http_middleware app raw extra status ka).
Proof.
  intros Ha Hc. unfold _run_http_middleware.
  set (first := if negb (raw_plain raw) && raw_is_response raw then mret raw else lift (json_response app raw status)).
  assert (Hn1 : none first) by (unfold first; count).
  assert (Hg1 : gives calm first).
  { unfold first. destruct (_ && _); [by intros w a [= <-]|]. intros w a E. exact (calm_json Ha raw status a E). }
  clearbody first. split.
  - eapply once_with; [exact Hn1 | exact Hg1 |]. intros r Hr. cbv zeta.
    destruct (run_dispatchers_spec (reverse (dispatchers app)) (set_raw_headers (keep_lifecycle raw r) extra)) as [Hn2 Hg2];
      [done | intros d; by rewrite elem_of_reverse | by apply set_headers_calm, keep_calm |].
    apply once_after; [exact Hn2|]. intros final. apply once_after; [apply none_ask|]. intros writable.
    eapply (once_then (fun _ => True)); [|done|intros; split; [apply none_ret | apply succeeds_ret]]. count.
  - eapply gives_with; [exact Hg1|]. intros r Hr. cbv zeta.
    destruct (run_dispatchers_spec (reverse (dispatchers app)) (set_raw_headers (keep_lifecycle raw r) extra)) as [_ Hg2];
      [done | intros d; by rewrite elem_of_reverse | by apply set_headers_calm, keep_calm |].
    eapply gives_with; [exact Hg2|]. intros final Hfin. do 2 (eapply (gives_with (fun _ => True)); [done|intros ? _]).
    intros w x [= <-]. apply keep_calm; [by apply set_headers_calm, keep_calm | done].
Qed.

Definition awaited_calm (a : Awaited Raw) : Prop := ∀ raw, outcome a = Ok raw -> calm raw.

Lemma await_gives {A} (P : A -> Prop) (x : Awaited A) : (∀ a, outcome x = Ok a -> P a) -> gives P (await x).
Proof. intros H w a E. by apply H. Qed.

Lemma once_respond_json raw st ka hs : once (respond_json app raw st ka hs).
Proof. unfold respond_json. count. Qed.

Lemma once_respond_any raw st ka extra cors : once (respond_any app raw st ka extra cors).
Proof. unfold respond_any, stream. count. Qed.

Lemma once_handle_async driven status ka origin :
  calm_app -> awaited_calm driven -> once (handle_async_body app driven status ka origin).
Proof.
  intros Ha Hd. unfold handle_async_body. eapply (once_with calm); [apply none_await | by apply await_gives |].
  intros raw Hc. apply once_after; [apply none_ask|]. intros writable. destruct (negb writable); [count|].
  apply once_after; [auto with counting|]. intros cors. destruct (raw_plain raw); [apply once_respond_json|].
  assert (Hend : ∀ r, calm r -> none (await_opt (raw_cpp_exit r)) ∧ succeeds (await_opt (raw_cpp_exit r))).
  { intros r (_ & _ & Hr). split; [apply none_await_opt | by apply fine_succeeds]. }
  destruct (dispatchers app) as [|d ds] eqn:Ed.
  - eapply (once_then calm); [| |exact Hend].
    + do 2 (apply once_after; [auto with counting|intros _]).
      eapply (once_then (fun _ => True)); [apply once_respond_any | done |]. intros. split; [apply none_ret | apply succeeds_ret].
    + do 3 (eapply (gives_with (fun _ => True)); [done|intros ? _]). by intros w x [= <-].
  - destruct (middleware_once raw cors status ka Ha Hc) as [H1 H2].
    eapply (once_then calm); [exact H1 | exact H2 | exact Hend].
Qed.

Lemma once_handle_stream raw ka origin :
  calm raw ->
  once (let* writable := ask_writable in
        let* _ := if writable then
                    let* cors := lift (cors_for app origin) in
                    match raw_file raw, raw_stream raw with
                    | Some content, None => write [file_response raw (get_or content []) cors ka]
                    | _, _ => stream raw cors
                    end
                  else mret tt in
        await_opt (raw_background raw)).
Proof.
  intros (Hb & _ & _). apply once_after; [apply none_ask|]. intros writable.
  eapply (once_then (fun _ => True)); [|done|intros _ _; split; [apply none_await_opt | by apply fine_succeeds]].
  destruct writable; [|count]. apply once_after; [auto with counting|]. intros cors. unfold stream. count.
Qed.

Lemma once_exec_endpoint ep status extra ka origin :
  calm_app -> awaited_calm (ep_result ep) ->
  once (exec_endpoint app ep status extra ka origin) ∧ gives calm (exec_endpoint app ep status extra ka origin).
Proof.
  intros Ha Hd. unfold exec_endpoint.
  set (tail := fun raw : Raw => let* _ := await_opt (raw_cpp_bg raw) in mret raw).
  assert (Ht : ∀ r, calm r -> none (tail r) ∧ succeeds (tail r)).
  { intros r (_ & Hr & _). split; [unfold tail; count|]. intros w. unfold tail, mbnd.
    destruct (fine_succeeds _ Hr w) as [[] E]. destruct (await_opt _ w) as [x w']. simpl in E. subst x. by eexists. }
  assert (Hg : ∀ r, calm r -> gives calm (tail r)).
  { intros r Hr. eapply (gives_with (fun _ => True)); [done|]. intros ? _. by intros w x [= <-]. }
  assert (Hmid : ∀ raw extra' status' cors, calm raw ->
    let mid := match dispatchers app, raw_mw_ran raw with
      | _ :: _, false => _run_http_middleware app raw (extra' ++ cors) status' ka
      | _, _ => let* _ := if raw_plain raw then respond_json app raw status' ka (extra' ++ cors)
                          else respond_any app raw status' ka extra' cors in mret raw
      end in once mid ∧ gives calm mid).
  { intros raw extra' status' cors Hc.
    assert (Hplain : let m := let* _ := if raw_plain raw then respond_json app raw status' ka (extra' ++ cors)
                          else respond_any app raw status' ka extra' cors in mret raw in once m ∧ gives calm m).
    { split.
      - eapply (once_then (fun _ => True)); [|done|intros; split; [apply none_ret | apply succeeds_ret]].
        destruct (raw_plain raw); [apply once_respond_json | apply once_respond_any].
      - eapply (gives_with (fun _ => True)); [done|]. intros ? _. by intros w x [= <-]. }
    cbv zeta in *. destruct (dispatchers app) eqn:Ed; [done|]. destruct (raw_mw_ran raw); [done|].
    by apply middleware_once. }
  split.
  - eapply (once_with calm); [apply none_await | by apply await_gives |]. intros raw Hc.
    destruct (match ep_response ep with Some _ => _ | None => _ end) as [extra' status'].
    apply once_after; [apply none_ask|]. intros writable. destruct (negb writable); [count|]. cbv zeta.
    apply once_after; [auto with counting|]. intros cors. destruct (Hmid raw extra' status' cors Hc) as [H1 H2].
    eapply (once_then calm); [exact H1 | exact H2 | exact Ht].
  - eapply (gives_with calm); [by apply await_gives|]. intros raw Hc.
    destruct (match ep_response ep with Some _ => _ | None => _ end) as [extra' status'].
    eapply (gives_with (fun _ => True)); [done|]. intros writable _. destruct (negb writable); [by intros w x [= <-]|]. cbv zeta.
    eapply (gives_with (fun _ => True)); [done|]. intros cors _. destruct (Hmid raw extra' status' cors Hc) as [H1 H2].
    eapply (gives_with calm); [exact H2 | exact Hg].
Qed.

Lemma once_run_endpoint ep status extra ka origin :
  calm_app -> awaited_calm (ep_result ep) -> fine (ep_bg ep) -> once (run_endpoint app ep status extra ka origin).
Proof.
  intros Ha Hd Hb. destruct (once_exec_endpoint ep status extra ka origin Ha Hd) as [H1 H2]. unfold run_endpoint.
  eapply (once_then calm); [exact H1 | exact H2 |]. intros r (Hr & _ & _). split; [count|].
  intros w. unfold mbnd. destruct (fine_succeeds _ Hr w) as [[] E]. destruct (await_opt (raw_background r) w) as [x w'].
  simpl in E. subst x. apply (fine_succeeds _ Hb).
Qed.

Lemma once_async_with aexit m : outcome (aexit None) = Ok false ∨ outcome (aexit None) = Ok true -> once m -> once (async_with aexit m).
Proof.
  intros Hx Hm w. unfold async_with. destruct (Hm w) as [H1 H2]. destruct (m w) as [[a|e] w'] eqn:E; cbn [fst snd] in *.
  - assert (Hn : none (let* _ := await (aexit None) in mret a)) by count. rewrite Hn. split; [done|].
    intros e. unfold mbnd, await. by destruct Hx as [-> | ->].
  - assert (Hn : none (let* suppressed := await (aexit (Some e)) in if suppressed then mret tt else mraise e)).
    { apply none_bind; [apply none_await|]. by intros []. }
    split; [rewrite Hn, (H2 e eq_refl); lia | intros ? _; by rewrite Hn, (H2 e eq_refl)].
Qed.

(** ** Answered *)

(** The client stays, so that the connection can be written to; nothing is
    written, or one response is unless it raises. *)
Definition keeps {A} (m : M A) : Prop :=
  ∀ w, is_writable w = true -> is_writable (m w).2 = true ∧ responses (m w).2 = responses w.
Definition answers {A} (m : M A) : Prop :=
  ∀ w, is_writable w = true ->
  is_writable (m w).2 = true
  ∧ responses (m w).2 = (responses w + match (m w).1 with Ok _ => 1 | Raise _ => 0 end)%nat.

Lemma answers_after {A B} (m : M A) (k : A -> M B) : keeps m -> (∀ a, answers (k a)) -> answers (mbnd m k).
Proof.
  intros Hm Hk w Hw. unfold mbnd. destruct (Hm w Hw) as [H1 H2]. destruct (m w) as [[a|e] w']; cbn [fst snd] in *.
  - rewrite <-H2. by apply Hk.
  - split; [done | lia].
Qed.

Lemma answers_then {A B} (m : M A) (k : A -> M B) :
  answers m -> (∀ a, keeps (k a) ∧ succeeds (k a)) -> answers (mbnd m k).
Proof.
  intros Hm Hk w Hw. unfold mbnd. destruct (Hm w Hw) as [H1 H2]. destruct (m w) as [[a|e] w']; cbn [fst snd] in *; [|done].
  destruct (Hk a) as [Hn Hs]. destruct (Hn w' H1) as [H3 H4]. destruct (Hs w') as [b Eb]. rewrite Eb, H4. split; [done | lia].
Qed.

Lemma answers_ask {A} (k : bool -> M A) : answers (k true) -> answers (mbnd ask_writable k).
Proof. intros Hk w Hw. unfold mbnd, ask_writable. rewrite Hw. by apply Hk. Qed.

Lemma answers_write bs : answers (write bs).
Proof. intros w Hw. unfold write, tell. cbn [fst snd]. rewrite responses_log. done. Qed.

Lemma keeps_lift {A} (r : result A) : keeps (lift r).
Proof. done. Qed.

Lemma keeps_stored e : keeps (tell (EStored e)).
Proof. intros w Hw. unfold tell. cbn [snd]. rewrite responses_log. split; [done | simpl; lia]. Qed.

Lemma keeps_await {A} (x : Awaited A) : leaves x = false -> keeps (await x).
Proof. intros Hx w Hw. split; [|apply none_await]. unfold await, is_writable. cbn [snd transport]. rewrite Hx. exact Hw. Qed.

Lemma keeps_mret {A} (a : A) : keeps (mret a).
Proof. done. Qed.

Lemma keeps_mbnd {A B} (m : M A) (k : A -> M B) : keeps m -> (∀ a, keeps (k a)) -> keeps (mbnd m k).
Proof.
  intros Hm Hk w Hw. unfold mbnd. destruct (Hm w Hw) as [H1 H2]. destruct (m w) as [[a|e] w']; cbn [snd] in *; [|done].
  rewrite <-H2. by apply Hk.
Qed.

(** Exception handlers answer, and the core builds the responses it is asked for,
    except for streaming responses, for which it returns [None]. *)
Record responsive : Prop := mkResponsive {
  rs_handler e h : find_handler app e = Some h ->
    leaves (h e) = false
    ∧ ∃ r, outcome (h e) = Ok (Some r) ∧ ∀ sc ka, ∃ b, build_response_from_any app r sc ka = Ok (Some b);
  rs_build v sc ka r : build_response app v sc ka = Ok r -> is_Some r;
  rs_any raw sc ka r : raw_plain raw = false -> build_response_from_any app raw sc ka = Ok r ->
    (r = None ↔ is_Some (raw_stream raw));
  rs_text json raw st r : text_response app json raw st = Ok r -> raw_plain r = false ∧ raw_stream r = None
}.

(** A response that is built is written. *)
Lemma answers_build v sc ka f :
  responsive -> answers (let* resp := lift (build_response app v sc ka) in
                         match resp with Some b => write [f b] | None => mret tt end).
Proof.
  intros Hr w Hw. unfold mbnd, lift. destruct (build_response app v sc ka) as [r|e] eqn:E; [|split; [done | simpl; lia]].
  destruct (rs_build Hr v sc ka r E) as [b ->]. by apply answers_write.
Qed.

Lemma answers_parts {A} (m : result A) sc hs (body : A -> bytes) ka :
  answers (let* x := lift m in
           let* resp := lift (build_response_from_parts app sc hs (body x) ka) in write [resp]).
Proof. do 2 (apply answers_after; [apply keeps_lift|intros ?]). apply answers_write. Qed.

Lemma answers_500 cors e : answers (respond_500 app cors e).
Proof.
  unfold respond_500. apply answers_after; [destruct (stores app false e); [apply keeps_stored | apply keeps_mret]|].
  intros _. apply answers_write.
Qed.

Lemma answers_try {A} (m : M A) h : answers m -> (∀ e, answers (h e)) -> answers (try_except m h).
Proof.
  intros Hm Hh w Hw. unfold try_except. destruct (Hm w Hw) as [H1 H2]. destruct (m w) as [[a|e] w']; cbn [fst snd] in *; [done|].
  rewrite Nat.add_0_r in H2. rewrite <-H2. by apply Hh.
Qed.

Lemma answers_exception_handler h cors ka e :
  responsive -> find_handler app e = Some h -> answers (run_exception_handler app h cors ka e).
Proof.
  intros Hr Hh. unfold run_exception_handler.
  apply answers_after; [destruct (stores app true e); [apply keeps_stored | apply keeps_mret]|]. intros _ w Hw.
  destruct (rs_handler Hr e h Hh) as (Hl & r & Er & Hb). destruct (Hb (get_or (raw_status r) 500) ka) as [b Eb].
  unfold try_except, mbnd, await, ask_writable. rewrite Er, Hl. cbn [fst snd].
  set (w' := mkWorld (transport w) (events w ++ [EAwait])). assert (Hw' : is_writable w' = true) by exact Hw. rewrite Hw'.
  unfold lift. rewrite Eb. unfold write, tell. cbn [fst snd]. split; [exact Hw'|]. rewrite responses_log.
  unfold responses, w'. cbn [events]. by rewrite List.filter_app, app_nil_r.
Qed.

Lemma answers_dispatch e ka : responsive -> answers (_dispatch_exception app e ka).
Proof.
  intros Hr. unfold _dispatch_exception. apply answers_ask. cbn [negb]. apply answers_after; [apply keeps_lift|]. intros cors.
  destruct (find_handler app e) eqn:Eh; [by apply answers_exception_handler|].
  assert (Hv : answers (if is_a $"RequestValidationError" e || is_a $"ValidationError" e
    then try_except (respond_422 app cors ka e) (fun _ => respond_500 app cors e) else respond_500 app cors e)).
  { destruct (_ || _); [|apply answers_500]. apply answers_try; [|intros; apply answers_500]. apply (answers_parts _ _ _ id). }
  destruct (http_status e); [|exact Hv]. unfold respond_http. destruct (exc_headers app e) as [[|h hs]|]; try by apply answers_build.
  do 2 (apply answers_after; [apply keeps_lift|intros ?]). apply answers_write.
Qed.

(** A handler that returns has answered once. *)
Lemma answered_once ka m w :
  responsive -> answers m -> is_writable w = true -> (handled app ka m w).1 = Ok tt ->
  responses (handled app ka m w).2 = S (responses w).
Proof.
  intros Hr Hm Hw. unfold handled, try_finally.
  destruct (answers_try m (fun e => _dispatch_exception app e ka) Hm (fun e => answers_dispatch e ka Hr) w Hw) as [_ H].
  destruct (try_except m _ w) as [r w']. cbn [fst snd] in *. intros ->. rewrite responses_log, H. simpl. lia.
Qed.

(** What is left to run does not fail and the client stays. *)
Definition steady_await (a : option (Awaited unit)) : Prop := match a with Some x => outcome x = Ok tt ∧ leaves x = false | None => True end.

(** A [dict] or [list] that the core can write. *)
Definition serializable (raw : Raw) : Prop :=
  raw_plain raw = true -> ∀ st ka, is_Some (write_async_result app (raw_value raw) st ka).

Definition steady (raw : Raw) : Prop :=
  steady_await (raw_background raw) ∧ steady_await (raw_cpp_bg raw) ∧ steady_await (raw_cpp_exit raw) ∧ serializable raw.
Definition awaited_steady (a : Awaited Raw) : Prop := leaves a = false ∧ ∀ raw, outcome a = Ok raw -> steady raw.

Lemma steady_end a : steady_await a -> keeps (await_opt a) ∧ succeeds (await_opt a).
Proof.
  destruct a as [x|]; [|intros _; split; [apply keeps_mret | apply succeeds_ret]]. simpl. intros [E Hl].
  split; [by apply keeps_await|]. intros w. exists tt. unfold await. by rewrite E.
Qed.

Lemma answers_with {A B} (P : A -> Prop) (m : M A) (k : A -> M B) :
  keeps m -> gives P m -> (∀ a, P a -> answers (k a)) -> answers (mbnd m k).
Proof.
  intros Hm Hp Hk w Hw. unfold mbnd. destruct (Hm w Hw) as [H1 H2]. pose proof (Hp w) as Hp'.
  destruct (m w) as [[a|e] w']; cbn [fst snd] in *.
  - rewrite <-H2. by apply Hk; [apply Hp'|].
  - split; [done | lia].
Qed.

Lemma answers_json raw st ka hs : serializable raw -> raw_plain raw = true -> answers (respond_json app raw st ka hs).
Proof.
  intros Hs Hp. unfold respond_json. destruct hs; [|apply (answers_parts _ _ _ id)].
  destruct (Hs Hp st ka) as [b ->]. apply answers_write.
Qed.

Lemma answers_any raw st ka extra cors : answers (respond_any app raw st ka extra cors).
Proof. unfold respond_any, stream. apply answers_after; [apply keeps_lift|]. intros [b|]; apply answers_write. Qed.

(** What follows a response: it neither fails nor loses the client. *)
Definition settled {A} (m : M A) : Prop := keeps m ∧ succeeds m.

Lemma settled_ret {A} (a : A) : settled (mret a).
Proof. split; [apply keeps_mret | apply succeeds_ret]. Qed.

Lemma settled_bind {A B} (m : M A) (k : A -> M B) : settled m -> (∀ a, settled (k a)) -> settled (mbnd m k).
Proof.
  intros [Hm Hs] Hk. split; [apply keeps_mbnd; [done | apply Hk]|]. intros w. unfold mbnd.
  destruct (Hs w) as [a E]. destruct (m w) as [r w']. simpl in E. subst r. apply Hk.
Qed.

Lemma answers_settled {A B} (P : A -> Prop) (m : M A) (k : A -> M B) :
  answers m -> gives P m -> (∀ a, P a -> settled (k a)) -> answers (mbnd m k).
Proof.
  intros Hm Hp Hk w Hw. unfold mbnd. destruct (Hm w Hw) as [H1 H2]. pose proof (Hp w) as Hp'.
  destruct (m w) as [[a|e] w']; cbn [fst snd] in *; [|by split].
  destruct (Hk a (Hp' a eq_refl)) as [Hn Hs]. destruct (Hn w' H1) as [H3 H4]. destruct (Hs w') as [b Eb]. rewrite Eb, H4.
  split; [done | lia].
Qed.

Lemma gives_ret {A} (a : A) : gives (eq a) (mret a).
Proof. by intros w x [= <-]. Qed.

Lemma gives_any {A B} (P : B -> Prop) (m : M A) (k : A -> M B) : (∀ a, gives P (k a)) -> gives P (mbnd m k).
Proof. intros Hk. eapply (gives_with (fun _ => True)); [done | auto]. Qed.

Context (no_middleware : dispatchers app = []).

Lemma answers_async driven st ka origin : awaited_steady driven -> answers (handle_async_body app driven st ka origin).
Proof.
  intros [Hl Hd]. unfold handle_async_body. eapply (answers_with steady); [by apply keeps_await | by apply await_gives |].
  intros raw (S1 & S2 & S3 & S4). apply answers_ask. cbn [negb]. apply answers_after; [apply keeps_lift|]. intros cors.
  destruct (raw_plain raw) eqn:Ep; [by apply answers_json|]. rewrite no_middleware.
  apply (answers_settled (eq raw)); [| |intros _ <-; by apply steady_end].
  - do 2 (apply answers_after; [by apply steady_end|intros _]).
    apply answers_then; [apply answers_any | intros _; apply settled_ret].
  - do 3 (apply gives_any; intros ?). apply gives_ret.
Qed.

Lemma answers_stream raw ka origin :
  steady raw ->
  answers (let* writable := ask_writable in
           let* _ := if writable then
                       let* cors := lift (cors_for app origin) in
                       match raw_file raw, raw_stream raw with
                       | Some content, None => write [file_response raw (get_or content []) cors ka]
                       | _, _ => stream raw cors
                       end
                     else mret tt in
           await_opt (raw_background raw)).
Proof.
  intros (S1 & _ & _). apply answers_ask. apply answers_then; [|intros _; by apply steady_end].
  apply answers_after; [apply keeps_lift|]. intros cors. unfold stream.
  destruct (raw_file raw), (raw_stream raw); apply answers_write.
Qed.

(** An endpoint with its dependencies. *)
Definition steady_endpoint (ep : Endpoint) : Prop := awaited_steady (ep_result ep) ∧ steady_await (ep_bg ep).

Lemma answers_exec ep status extra ka origin :
  awaited_steady (ep_result ep) ->
  answers (exec_endpoint app ep status extra ka origin) ∧ gives steady (exec_endpoint app ep status extra ka origin).
Proof.
  intros [Hl Hd]. unfold exec_endpoint. rewrite no_middleware. split.
  - eapply (answers_with steady); [by apply keeps_await | by apply await_gives |]. intros raw (S1 & S2 & S3 & S4).
    destruct (match ep_response ep with Some _ => _ | None => _ end) as [extra' status'].
    apply answers_ask. cbn [negb]. cbv zeta. apply answers_after; [apply keeps_lift|]. intros cors.
    apply (answers_settled (eq raw)).
    + apply answers_then; [destruct (raw_plain raw) eqn:Ep; [by apply answers_json | apply answers_any]
                          | intros _; apply settled_ret].
    + apply gives_any. intros _. apply gives_ret.
    + intros _ <-. apply settled_bind; [by apply steady_end | intros _; apply settled_ret].
  - eapply (gives_with steady); [by apply await_gives|]. intros raw Hr.
    destruct (match ep_response ep with Some _ => _ | None => _ end) as [extra' status'].
    apply gives_any. intros writable. destruct (negb writable); [by intros w x [= <-]|]. cbv zeta.
    apply gives_any. intros cors. eapply (gives_with steady).
    + apply gives_any. intros _. by intros ? ? [= <-].
    + intros r Hr'. apply gives_any. intros _. by intros ? ? [= <-].
Qed.

Lemma answers_run_endpoint ep status extra ka origin :
  steady_endpoint ep -> answers (run_endpoint app ep status extra ka origin).
Proof.
  intros [Hd Hb]. destruct (answers_exec ep status extra ka origin Hd) as [Ha Hg]. unfold run_endpoint.
  apply (answers_settled steady); [done | done |]. intros r (S1 & _ & _).
  apply settled_bind; [by apply steady_end | intros _; by apply steady_end].
Qed.

(** An exit stack that does not fail after the response and hides no exception. *)
Definition steady_stack (x : exit_stack) : Prop :=
  match x with
  | Stack aexit =>
      (∀ o, leaves (aexit o) = false) ∧ (∃ b, outcome (aexit None) = Ok b) ∧ (∀ e, outcome (aexit (Some e)) ≠ Ok true)
  | _ => True
  end.

Lemma answers_async_with aexit m : steady_stack (Stack aexit) -> answers m -> answers (async_with aexit m).
Proof.
  intros (Hl & [b Hb] & Hs) Hm w Hw. unfold async_with. destruct (Hm w Hw) as [H1 H2].
  destruct (m w) as [[a|e] w'] eqn:E; cbn [fst snd] in *.
  - assert (Hset : settled (let* _ := await (aexit None) in mret a)).
    { apply settled_bind; [|intros _; apply settled_ret]. split; [by apply keeps_await|].
      intros w0. exists b. unfold await. by rewrite Hb. }
    destruct Hset as [Hk Hok]. destruct (Hk w' H1) as [H3 H4]. destruct (Hok w') as [x Ex]. rewrite Ex, H4. by split.
  - destruct (keeps_await (aexit (Some e)) (Hl _) w' H1) as [H3 H4]. unfold mbnd, await, mraise in *. cbn [snd] in *.
    destruct (outcome (aexit (Some e))) as [[]|e'] eqn:Ee; cbn [fst snd]; [by destruct (Hs e)| |]; rewrite H4; by split.
Qed.

(** The end of a request is recorded last. *)
Definition ended (w : World) : Prop := ∃ es, events w = es ++ [EEnd].

Lemma handled_ended ka m w : ended (handled app ka m w).2.
Proof. unfold handled, try_finally. destruct (try_except m _ w) as [r w']. by eexists. Qed.

Definition answered {A} (m : M A) (w : World) : Prop := (∃ a, (m w).1 = Ok a) -> responses (m w).2 = S (responses w) ∧ ended (m w).2.

Lemma handled_answered ka m w : responsive -> answers m -> is_writable w = true -> answered (handled app ka m) w.
Proof. intros Hr Hm Hw [[] E]. split; [by apply answered_once | apply handled_ended]. Qed.
End facts.

(** C16: without HTTP middleware, each handler that returns has written exactly
    one response and then recorded the end of the request, whether the endpoint,
    its dependencies or its validation succeeded or raised.  This is so as long
    as the client stays, exception handlers return a response that the core can
    build, background tasks and exit stacks do not fail after the response, exit
    stacks hide no exception, and a [dict] or [list] is JSON; the examples below
    show each of these failing, with no response or two.  The handler of results
    for middleware answers, where there is none, all but streaming responses: for
    these it returns and has written nothing. *)
Theorem requests_answered_once app w :
  dispatchers app = [] -> responsive app -> is_writable w = true ->
  (∀ driven st ka origin, awaited_steady app driven -> answered (_handle_async app driven st ka origin) w)
  ∧ (∀ raw ka origin, steady app raw -> answered (_handle_stream app raw ka origin) w)
  ∧ (∀ raw st ka hs path,
       raw_plain raw = true ∨ raw_stream raw = None ∨ raw_str raw = true ∧ raw_is_response raw = false ->
       answered (_handle_middleware_result app raw st ka hs path) w)
  ∧ (∀ raw st ka hs path cors,
       raw_plain raw = false -> is_Some (raw_stream raw) -> raw_str raw = false ->
       cors_for app (_extract_origin (or_current app hs)) = Ok cors ->
       build_response_from_any app raw st ka = Ok None ->
       _handle_middleware_result app raw st ka hs path w = (Ok tt, log EEnd w))
  ∧ (∀ validated ep st, leaves validated = false -> awaited_steady app ep -> answered (_handle_pydantic app validated ep st) w)
  ∧ (∀ driven ep st ka origin,
       leaves driven = false -> (∀ sv, outcome driven = Ok (Some sv) -> steady_stack (sv_stack sv)) -> steady_endpoint app ep ->
       answered (_handle_async_di app driven ep st ka origin) w).
Proof.
  intros Hn Hr Hw. split_and!.
  - intros. by apply handled_answered; [|apply answers_async|].
  - intros. by apply handled_answered; [|eapply answers_stream|].
  - intros raw st ka hs path Hb. apply handled_answered; [done| |done]. apply answers_after; [apply keeps_lift|]. intros cors.
    eapply (answers_with (fun r => raw_plain r = true ∨ raw_stream r = None)); [by destruct (_ && _)| |].
    { destruct (raw_str raw && negb (raw_is_response raw)) eqn:Et.
      - intros w' r E. right. by apply (rs_text _ Hr _ _ _ _ E).
      - intros w' r [= <-]. destruct Hb as [?|[?|[Hs Hi]]]; [by left|by right|]. by rewrite Hs, Hi in Et. }
    intros raw' Hb'. rewrite Hn. apply answers_ask. simpl.
    destruct (raw_plain raw') eqn:Ep; [by apply answers_build|]. intros w' Hw'. unfold mbnd, lift.
    destruct (build_response_from_any app raw' st ka) as [[b|]|e] eqn:E; [by apply answers_write | |split; [done | simpl; lia]].
    destruct Hb' as [?|Hb']; [done|]. destruct (proj1 (rs_any _ Hr _ _ _ _ Ep E) eq_refl). congruence.
  - intros raw st ka hs path cors Hp Hst Hs Hc Hb. unfold _handle_middleware_result, handled, try_finally, try_except.
    unfold mbnd at 1, lift at 1. rewrite Hc, Hs. cbn [andb]. unfold mbnd, mret, lift, ask_writable. rewrite Hn, Hw, Hp, Hb. done.
  - intros validated ep st Hl [Hle He]. apply handled_answered; [done| |done]. apply answers_after; [apply keeps_lift|]. intros cors.
    apply answers_after; [by apply keeps_await|]. intros [u|errors]; [|apply answers_ask; by apply answers_build].
    eapply (answers_with (steady app)); [by apply keeps_await | by apply await_gives |]. intros raw (S1 & _ & _). apply answers_ask.
    cbn [negb]. destruct (raw_plain raw); [by apply answers_build|].
    apply answers_then; [apply answers_any | intros _; by apply steady_end].
  - intros driven ep st ka origin Hl Hst Hep. apply handled_answered; [done| |done].
    eapply (answers_with (fun o => ∀ sv, o = Some sv -> steady_stack (sv_stack sv)));
      [by apply keeps_await | apply await_gives; intros [sv|] E; [intros ? [= <-]; by apply Hst | done] |].
    intros [sv|] Hsv; (apply answers_after; [apply keeps_lift|]; intros _); [|by apply answers_run_endpoint].
    destruct (match sv_response sv with Some _ => _ | None => _ end) as [extra status].
    destruct (sv_errors sv); [apply answers_ask; apply (answers_build app _ _ _ id Hr)|]. specialize (Hsv sv eq_refl).
    destruct (sv_stack sv); [by apply answers_run_endpoint | by apply answers_run_endpoint |].
    by apply answers_async_with; [|apply answers_run_endpoint].
Qed.

(** With or without HTTP middleware, whether the client stays or leaves, a
    handler writes at most one response if nothing fails after it. *)
Theorem one_response_at_most app :
  calm_app app ->
  (∀ driven st ka origin, awaited_calm driven -> at_most_one (_handle_async app driven st ka origin))
  ∧ (∀ raw ka origin, calm raw -> at_most_one (_handle_stream app raw ka origin))
  ∧ (∀ driven ep st ka origin,
       awaited_calm (ep_result ep) -> fine (ep_bg ep) ->
       (∀ sv aexit, outcome driven = Ok (Some sv) -> sv_stack sv = Stack aexit -> ∃ b, outcome (aexit None) = Ok b) ->
       at_most_one (_handle_async_di app driven ep st ka origin)).
Proof.
  intros Ha. split_and!.
  - intros. by apply one_handled, once_handle_async.
  - intros. by apply one_handled, once_handle_stream.
  - intros driven ep st ka origin Hep Hbg Hst. apply one_handled.
    assert (Hrun : ∀ status extra, once (run_endpoint app ep status extra ka origin)) by (intros; by apply once_run_endpoint).
    eapply (once_with (fun o => ∀ sv aexit, o = Some sv -> sv_stack sv = Stack aexit -> ∃ b, outcome (aexit None) = Ok b));
      [apply none_await | apply await_gives; intros [sv|] E; [intros ? ? [= <-]; by apply Hst | done] |].
    intros [sv|] Hsv; (apply once_after; [apply none_lift|]; intros _); [|apply Hrun].
    destruct (match sv_response sv with Some _ => _ | None => _ end) as [extra status].
    destruct (sv_errors sv); [count|]. destruct (sv_stack sv) as [| |aexit] eqn:Es; [apply Hrun | apply Hrun |].
    destruct (Hsv sv aexit eq_refl Es) as [[] Hb]; (apply once_async_with; [|apply Hrun]); auto.
Qed.

(** ** Examples *)
Definition plain_raw (v : Z) : Raw := mkRaw v true false false None None [] None None None None None false.
Definition object_raw (background : option (Awaited unit)) (items : option (list stream_item)) : Raw :=
  mkRaw 7 false false true None (Some 200) [] items None background None None false.

Definition sample_app (ds : list (Raw -> Awaited (option Raw))) : App :=
  mkApp [] [] (fun _ => Ok []) ds false no_context
    (fun _ _ _ => Ok (Some $"built"))
    (fun raw _ _ => Ok (match raw_stream raw with Some _ => None | None => Some $"any" end))
    (fun _ _ _ _ => Ok $"parts") (fun _ => Ok $"json") (fun v _ _ => if (0 <=? v)%Z then Some $"async" else None)
    (fun _ => None) (fun _ => 0) (fun _ => $"detail") (fun _ => Ok $"invalid") (fun _ _ => Ok (plain_raw 0)) (fun _ _ _ => Ok (object_raw None None)).

Definition open_world : World := mkWorld (Some false) [].

Definition gave {A} (a : A) : Awaited A := mkAwaited (Ok a) false.
Definition failed {A} : Awaited A := mkAwaited (Raise (ValueError $"late")) false.

Lemma sample_responsive ds : responsive (sample_app ds).
Proof.
  split; [intros e h H | by intros v sc ka r [= <-] | | by intros json raw st r [= <-]].
  - unfold find_handler in H. cbn in H. destruct (list_find _ _) as [[? ?]|] in H; [done|]. by destruct (http_status e).
  - intros raw sc ka r _ [= <-]. destruct (raw_stream raw); split; [done.. |by intros [? ?]].
Qed.

Lemma requests_answered_once_witness :
  responses (_handle_async (sample_app []) (gave (object_raw (Some (gave tt)) None)) 200 true [] open_world).2 = 1%nat
  ∧ responses (_handle_pydantic (sample_app []) failed (gave (plain_raw 1)) 200 open_world).2 = 1%nat.
Proof.
  destruct (requests_answered_once (sample_app []) open_world eq_refl (sample_responsive []) eq_refl) as (H1 & _ & _ & _ & H4 & _).
  split.
  - apply (H1 (gave (object_raw (Some (gave tt)) None)) 200 true []); [split; [done|] | by eexists].
    intros raw. simpl. intros [= <-]. by repeat split.
  - apply (H4 failed (gave (plain_raw 1)) 200); [done | split; [done|] | by eexists]. intros raw. simpl. intros [= <-].
    repeat split. intros _ st ka. by eexists.
Defined.

Lemma one_response_at_most_witness :
  (responses (_handle_stream (sample_app []) (object_raw (Some (gave tt)) (Some [ItemBytes $"x"])) true [] open_world).2 <= 1)%nat.
Proof.
  apply (one_response_at_most (sample_app [])); [|by repeat split]. split; [intros d raw r Hd; by apply elem_of_nil in Hd|].
  intros raw status r [= <-]. by repeat split.
Defined.

(** A background task that fails after the response: a second response is
    written on the same connection. *)
Example second_response_after_failed_task :
  responses (_handle_pydantic (sample_app []) (gave (inl tt)) (gave (object_raw (Some failed) None)) 200 open_world).2 = 2%nat.
Proof. reflexivity. Qed.

(** With HTTP middleware a streaming response of an async endpoint is never
    written, and a plain result skips the middleware. *)
Example middleware_loses_stream :
  let app := sample_app [fun _ => gave None] in
  responses (_handle_async app (gave (object_raw None (Some [ItemBytes $"x"]))) 200 true [] open_world).2 = 0%nat
  ∧ events (_handle_async app (gave (plain_raw 1)) 200 true [] open_world).2 = [EAwait; EWrite [$"async"]; EEnd].
Proof. split; reflexivity. Qed.

(** A [dict] that is no JSON is not answered: the core writes nothing and raises
    nothing. *)
Example unserializable_unanswered :
  events (_handle_async (sample_app []) (gave (plain_raw (-1))) 200 true [] open_world).2 = [EAwait; EEnd].
Proof. reflexivity. Qed.

(** An exit stack that hides the exception leaves the request unanswered. *)
Example hidden_exception_unanswered :
  responses (_handle_async_di (sample_app [])
    (gave (Some (mkSolved None None (Stack (fun o => gave (match o with Some _ => true | None => false end))))))
    (mkEndpoint failed None None None) 200 true [] open_world).2 = 0%nat.
Proof. reflexivity. Qed.

(** So does an exception handler that fails or returns nothing. *)
Example failed_handler_unanswered :
  let app := mkApp [($"ValueError", fun _ => failed)] [] (fun _ => Ok []) [] false no_context
    (fun _ _ _ => Ok (Some $"built")) (fun _ _ _ => Ok (Some $"any")) (fun _ _ _ _ => Ok $"parts") (fun _ => Ok $"json")
    (fun _ _ _ => Some $"async") (fun _ => None) (fun _ => 0) (fun _ => $"detail") (fun _ => Ok $"invalid") (fun raw _ => Ok raw) (fun _ raw _ => Ok raw) in
  responses (_handle_async app failed 200 true [] open_world).2 = 0%nat.
Proof. reflexivity. Qed.
