(* ===== verification/CppWs.v ===== *)
(** * CppWs: frames, [CppWebSocket] of [_cpp_server.py] and [_ws_groups.py]

    The unmasked server frames of RFC 6455, the connection object that buffers
    and writes them, and the broadcast groups.  The frame builders of the
    compiled core are parameters; what is relied on is that a frame they build
    decodes to its opcode and payload. *)

From S2P Require Import Prelude PyStr Asgi MutableHeaders Responses ExceptionHandler Middleware WebSocketConn ServerCore.

(** ** Frames *)

(** [k] bytes, most significant first. *)
Fixpoint be_bytes (k : nat) (n : N) : bytes :=
  match k with
  | O => []
  | S k' => be_bytes k' (n / 256) ++ [(n mod 256)%N]
  end.

Definition be_value (b : bytes) : N := foldl (fun acc c => (acc * 256 + c)%N) 0%N b.

Definition _build_frame_py (opcode : N) (payload : bytes) : bytes :=
  let plen := N.of_nat (length payload) in
  [N.lor 128 opcode]
  ++ (if (plen <? 126)%N then [plen]
      else if (plen <=? 65535)%N then 126%N :: be_bytes 2 plen
      else 127%N :: be_bytes 8 plen)
  ++ payload.

(** A reader of unmasked frames: final bit, opcode, payload and the rest. *)
Definition split_payload (n : N) (b : bytes) : option (bytes * bytes) :=
  if (N.of_nat (length b) <? n)%N then None else Some (take (N.to_nat n) b, drop (N.to_nat n) b).

Definition parse_length (l : N) (b : bytes) : option (N * bytes) :=
  if (l <? 126)%N then Some (l, b)
  else
    let k := if (l =? 126)%N then 2%nat else 8%nat in
    if (length b <? k)%nat then None else Some (be_value (take k b), drop k b).

Definition parse_frame (b : bytes) : option (bool * N * bytes * bytes) :=
  match b with
  | h :: l :: rest =>
      if (128 <=? l)%N then None
      else
        match parse_length l rest with
        | Some (n, rest') =>
            match split_payload n rest' with
            | Some (p, rest'') => Some (N.testbit h 7, N.land h 15, p, rest'')
            | None => None
            end
        | None => None
        end
  | _ => None
  end.

(** Reads a stream of whole frames; one unit of fuel per frame. *)
Fixpoint parse_stream (fuel : nat) (b : bytes) : option (list (N * bytes)) :=
  match b with
  | [] => Some []
  | _ =>
      match fuel with
      | O => None
      | S f =>
          match parse_frame b with
          | Some (_, op, p, rest) =>
              match parse_stream f rest with Some l => Some ((op, p) :: l) | None => None end
          | None => None
          end
      end
  end.

Lemma be_bytes_length k n : length (be_bytes k n) = k.
Proof. revert n. induction k as [|k IH]; intros n; simpl; [done|]. rewrite length_app, IH. simpl. lia. Qed.

Lemma be_value_bytes k n : (n < 256 ^ N.of_nat k)%N -> be_value (be_bytes k n) = n.
Proof.
  revert n. induction k as [|k IH]; intros n Hn; [change (256 ^ N.of_nat 0)%N with 1%N in Hn; cbn; lia|].
  cbn [be_bytes]. unfold be_value. rewrite foldl_app. cbn [foldl]. fold (be_value (be_bytes k (n / 256))).
  rewrite IH; [symmetry; rewrite N.mul_comm; apply N.div_mod'|].
  apply N.Div0.div_lt_upper_bound. rewrite Nat2N.inj_succ, N.pow_succ_r' in Hn. lia.
Qed.

Lemma split_payload_app p rest : split_payload (N.of_nat (length p)) (p ++ rest) = Some (p, rest).
Proof.
  unfold split_payload. rewrite length_app. destruct (N.ltb_spec (N.of_nat (length p + length rest)) (N.of_nat (length p))); [lia|].
  by rewrite Nat2N.id, take_app_length, drop_app_length.
Qed.

Lemma parse_length_long l k n p rest :
  (l =? 126)%N = (k =? 2)%nat -> k = 2%nat ∨ k = 8%nat -> (126 <= l)%N -> (n < 256 ^ N.of_nat k)%N ->
  parse_length l (be_bytes k n ++ p ++ rest) = Some (n, p ++ rest).
Proof.
  intros Hl Hk H126 Hn. unfold parse_length. destruct (N.ltb_spec l 126); [lia|].
  assert ((if (l =? 126)%N then 2%nat else 8%nat) = k) as -> by (rewrite Hl; by destruct Hk as [->| ->]).
  rewrite length_app, be_bytes_length. destruct (Nat.ltb_spec (k + length (p ++ rest)) k); [lia|].
  rewrite take_app_length', drop_app_length' by (by rewrite be_bytes_length). by rewrite be_value_bytes.
Qed.

Lemma header_byte op : (op < 16)%N -> N.testbit (N.lor 128 op) 7 = true ∧ N.land (N.lor 128 op) 15 = op.
Proof.
  intros H. split; [by rewrite N.lor_spec|].
  assert (Hin : op ∈ [0;1;2;3;4;5;6;7;8;9;10;11;12;13;14;15]%N).
  { rewrite !elem_of_cons, elem_of_nil. lia. }
  rewrite !elem_of_cons, elem_of_nil in Hin. destruct_or! Hin; subst; done.
Qed.

Lemma parse_built op p rest :
  (op < 16)%N -> (N.of_nat (length p) < 2 ^ 64)%N ->
  parse_frame (_build_frame_py op p ++ rest) = Some (true, op, p, rest).
Proof.
  intros Hop Hlen. unfold _build_frame_py. destruct (header_byte op Hop) as [Ht Hl].
  assert (Hfin : ∀ l r, (l < 128)%N -> parse_length l r = Some (N.of_nat (length p), p ++ rest) ->
            parse_frame (N.lor 128 op :: l :: r) = Some (true, op, p, rest)).
  { intros l r Hl128 Hp. unfold parse_frame. destruct (N.leb_spec 128 l); [lia|].
    by rewrite Hp, split_payload_app, Ht, Hl. }
  rewrite <-!app_assoc. cbn [app]. destruct (N.ltb_spec (N.of_nat (length p)) 126) as [H1|H1].
  - apply Hfin; [lia|]. unfold parse_length. destruct (N.ltb_spec (N.of_nat (length p)) 126); [done|lia].
  - destruct (N.leb_spec (N.of_nat (length p)) 65535) as [H2|H2]; cbn [app].
    + apply Hfin; [done|]. apply parse_length_long; [done|by left|done|]. simpl. lia.
    + apply Hfin; [done|]. apply parse_length_long; [done|by right|done|]. simpl. lia.
Qed.

(** C22: a frame built for a message is read back as that message: final bit,
    opcode and payload, for all three length encodings, and nothing of what
    follows is consumed; so a sequence of frames reads back as the sequence of
    messages. *)
Theorem frame_roundtrip msgs fuel rest_op rest :
  Forall (fun m => (m.1 < 16)%N ∧ (N.of_nat (length m.2) < 2 ^ 64)%N) ((rest_op, rest) :: msgs) ->
  (length msgs <= fuel)%nat ->
  parse_frame (_build_frame_py rest_op rest ++ concat ((fun m => _build_frame_py m.1 m.2) <$> msgs))
    = Some (true, rest_op, rest, concat ((fun m => _build_frame_py m.1 m.2) <$> msgs))
  ∧ parse_stream fuel (concat ((fun m => _build_frame_py m.1 m.2) <$> msgs)) = Some msgs.
Proof.
  intros [[H1 H2] Hall]%Forall_cons Hf. split; [by apply parse_built|].
  clear H1 H2. revert fuel Hf. induction Hall as [|[op p] msgs [Hop Hp] _ IH]; intros [|f] Hf; simpl in Hf; try done; try lia.
  rewrite fmap_cons. cbn [concat fst snd parse_stream]. rewrite parse_built by done.
  rewrite IH by lia. by unfold _build_frame_py.
Qed.

Lemma frame_roundtrip_witness :
  parse_stream 2 (_build_frame_py 1 $"hi" ++ _build_frame_py 2 []) = Some [(1%N, $"hi"); (2%N, [])].
Proof.
  destruct (frame_roundtrip [(1%N, $"hi"); (2%N, [])] 2 8 [] ltac:(repeat constructor) ltac:(simpl; lia)) as [_ H].
  simpl in H. exact H.
Defined.

(** ** The native connection object *)
Module Cpp.

(** Functions of the compiled core that build frames. *)
Class WsCore (J : Type) : Type := {
  core_frame : N -> bytes -> bytes;
  core_batch : list (N * bytes) -> bytes;
  core_json_frame : J -> N -> result bytes;
  core_close_frame : Z -> bytes;
  json_bytes : J -> bytes
}.

(** The bytes are one frame carrying the message. *)
Definition encodes (b : bytes) (m : N * bytes) : Prop :=
  ∀ rest, parse_frame (b ++ rest) = Some (true, m.1, m.2, rest).

(** What is relied on: each builder builds the frames its name says. *)
Class WsCoreLaws (J : Type) `{WsCore J} : Prop := {
  law_frame op p : (op < 16)%N -> (N.of_nat (length p) < 2 ^ 64)%N -> encodes (core_frame op p) (op, p);
  law_batch l : core_batch l = concat ((fun m => core_frame m.1 m.2) <$> l);
  law_json j op f : core_json_frame j op = Ok f -> f = core_frame op (json_bytes j);
  law_close code : 0 <= code < 65536 -> encodes (core_close_frame code) (8%N, be_bytes 2 (Z.to_N code))
}.

Section cpp.
Context {J : Type} `{WsCore J}.

(** The attributes; [written] is everything written to the transport.  The echo
    detection counter starts at [-1] and is only ever compared with [0] from
    below, so its branches are dead and left out. *)
Record CppWebSocket : Type := mkCpp {
  closing : bool;
  written : bytes;
  _closed : bool;
  _close_code : Z;
  c_client_state : WebSocketState;
  c_application_state : WebSocketState;
  _corked : bool;
  _cork_buf : list (option N * bytes);
  _pending_sends : list (N * bytes);
  _flush_scheduled : bool;
  _channel : Channel._WsFastChannel
}.

Definition cpp_init (ch : Channel._WsFastChannel) : CppWebSocket :=
  mkCpp false [] false 1000 CONNECTED CONNECTING false [] [] false ch.

(** [transport.write] *)
Definition write (s : CppWebSocket) (b : bytes) : CppWebSocket :=
  mkCpp (closing s) (if closing s then written s else written s ++ b) (_closed s) (_close_code s)
    (c_client_state s) (c_application_state s) (_corked s) (_cork_buf s) (_pending_sends s)
    (_flush_scheduled s) (_channel s).

Definition with_pending (s : CppWebSocket) (l : list (N * bytes)) (sched : bool) : CppWebSocket :=
  mkCpp (closing s) (written s) (_closed s) (_close_code s) (c_client_state s) (c_application_state s)
    (_corked s) (_cork_buf s) l sched (_channel s).

Definition with_cork (s : CppWebSocket) (corked : bool) (buf : list (option N * bytes)) : CppWebSocket :=
  mkCpp (closing s) (written s) (_closed s) (_close_code s) (c_client_state s) (c_application_state s)
    corked buf (_pending_sends s) (_flush_scheduled s) (_channel s).

Definition cpp_accept (s : CppWebSocket) : CppWebSocket :=
  mkCpp (closing s) (written s) (_closed s) (_close_code s) (c_client_state s) CONNECTED
    (_corked s) (_cork_buf s) (_pending_sends s) (_flush_scheduled s) (_channel s).

Definition _queue_send (s : CppWebSocket) (opcode : N) (payload : bytes) : CppWebSocket :=
  if closing s then s
  else if negb (_flush_scheduled s) && bool_decide (_pending_sends s = []) then
    write s (core_frame opcode payload)
  else with_pending s (_pending_sends s ++ [(opcode, payload)]) true.

Definition _flush_pending (s : CppWebSocket) : CppWebSocket :=
  match _pending_sends s with
  | [] => with_pending s [] false
  | [(op, p)] =>
      if closing s then with_pending s [] false else with_pending (write s (core_frame op p)) [] false
  | l => if closing s then with_pending s [] false else with_pending (write s (core_batch l)) [] false
  end.

Definition _write_frame (s : CppWebSocket) (f : bytes) : CppWebSocket := if closing s then s else write s f.

(** The loop of [_flush_cork]: [raw] are the entries waiting for a batch. *)
Definition flush_raw (s : CppWebSocket) (raw : list (N * bytes)) : CppWebSocket :=
  match raw with [] => s | _ => write s (core_batch raw) end.

Fixpoint flush_entries (s : CppWebSocket) (raw : list (N * bytes)) (buf : list (option N * bytes))
    : CppWebSocket :=
  match buf with
  | [] => flush_raw s raw
  | (None, f) :: buf' => flush_entries (write (flush_raw s raw) f) [] buf'
  | (Some op, p) :: buf' => flush_entries s (raw ++ [(op, p)]) buf'
  end.

Definition _flush_cork (s : CppWebSocket) : CppWebSocket :=
  match _cork_buf s with
  | [] => s
  | buf => if closing s then with_cork s (_corked s) [] else with_cork (flush_entries s [] buf) (_corked s) []
  end.

Definition cork (s : CppWebSocket) : CppWebSocket := with_cork s true (_cork_buf s).
Definition uncork (s : CppWebSocket) : CppWebSocket :=
  let s' := _flush_cork s in with_cork s' false (_cork_buf s').

Definition closed_error : exn := RuntimeError $"WebSocket is closed".

(** The common part of the senders. *)
Definition send_payload (s : CppWebSocket) (opcode : N) (payload : bytes) : CppWebSocket :=
  if _corked s then with_cork s true (_cork_buf s ++ [(Some opcode, payload)])
  else _queue_send s opcode payload.

Definition cpp_send_text (s : CppWebSocket) (data : str) : CppWebSocket * result unit :=
  if _closed s then (s, Raise closed_error)
  else match utf8_encode data with
       | Ok payload => (send_payload s 1 payload, Ok tt)
       | Raise e => (s, Raise e)
       end.

Definition cpp_send_bytes (s : CppWebSocket) (data : bytes) : CppWebSocket * result unit :=
  if _closed s then (s, Raise closed_error) else (send_payload s 2 data, Ok tt).

Definition cpp_send_json (s : CppWebSocket) (data : J) (text : bool) : CppWebSocket * result unit :=
  if _closed s then (s, Raise closed_error)
  else match core_json_frame data (if text then 1%N else 2%N) with
       | Raise e => (s, Raise e)
       | Ok f =>
           (if _corked s then with_cork s true (_cork_buf s ++ [(None, f)]) else _write_frame s f, Ok tt)
       end.

Definition struct_error : exn := UserException ($"struct.error" :: base_mro) 0.

(** [struct.pack("!H", code)] *)
Definition pack_code (code : Z) : result bytes :=
  if bool_decide (0 <= code < 65536) then Ok (be_bytes 2 (Z.to_N code)) else Raise struct_error.

(** The close code and reason that go on the wire: 1006 travels in the reason. *)
Definition wire_close (code : Z) (reason : option str) : Z * option str :=
  if decide (code = 1006) then
    (1000, Some match reason with Some ((_ :: _) as r) => $"1006:" ++ r | _ => $"1006:" end)
  else (code, reason).

(** [close] up to the wait for the peer's answer, which changes nothing more. *)
Definition cpp_close (s : CppWebSocket) (code : Z) (reason : option str) : CppWebSocket * result unit :=
  if _closed s then (s, Ok tt)
  else
    let s1 := mkCpp (closing s) (written s) true code (c_client_state s) DISCONNECTED
                (_corked s) (_cork_buf s) (_pending_sends s) (_flush_scheduled s) (_channel s) in
    let '(code', reason') := wire_close code reason in
    let s2 := if _corked s1 then _flush_cork s1 else s1 in
    let s3 := match _pending_sends s2 with [] => s2 | _ => _flush_pending s2 end in
    match reason' with
    | Some ((_ :: _) as r) =>
        match (let! c := pack_code code' in let! u := utf8_encode r in Ok (c ++ u)) with
        | Ok payload => (write s3 (_build_frame_py 8 payload), Ok tt)
        | Raise e => (s3, Raise e)
        end
    | _ => (write s3 (core_close_frame code'), Ok tt)
    end.

Definition _parse_close_code (payload : bytes) : Z :=
  if (2 <=? length payload)%nat then Z.of_N (be_value (take 2 payload)) else 1000.

(** *** Sending preserves order *)
Inductive sop : Type :=
  | SText (s : str) | SBytes (b : bytes) | SJson (j : J) (text : bool)
  | SCork | SUncork | SFlush | SClose (code : Z) (reason : option str).

Definition cpp_exec (o : sop) (s : CppWebSocket) : CppWebSocket * result unit :=
  match o with
  | SText d => cpp_send_text s d
  | SBytes d => cpp_send_bytes s d
  | SJson j t => cpp_send_json s j t
  | SCork => (cork s, Ok tt)
  | SUncork => (uncork s, Ok tt)
  | SFlush => (_flush_pending s, Ok tt)
  | SClose c r => cpp_close s c r
  end.

(** The message a successful call stands for, in a state before the call. *)
Definition message_of (s : CppWebSocket) (o : sop) : list (N * bytes) :=
  match o with
  | SText d => match utf8_encode d with Ok p => [(1%N, p)] | Raise _ => [] end
  | SBytes d => [(2%N, d)]
  | SJson j t => [(if t then 1%N else 2%N, json_bytes j)]
  | SClose c r =>
      if _closed s then []
      else
        let '(c', r') := wire_close c r in
        [(8%N, be_bytes 2 (Z.to_N c') ++ match r' with
            | Some ((_ :: _) as t) => match utf8_encode t with Ok u => u | Raise _ => [] end
            | _ => [] end)]
  | _ => []
  end.

(** Runs calls in order, recording the messages of those that returned. *)
Fixpoint run_sends (os : list sop) (s : CppWebSocket) : CppWebSocket * list (N * bytes) :=
  match os with
  | [] => (s, [])
  | o :: os' =>
      let '(s', r) := cpp_exec o s in
      let '(s'', log) := run_sends os' s' in
      (s'', (if is_ok r then message_of s o else []) ++ log)
  end.

Context `{!WsCoreLaws J}.

Definition sendable (m : N * bytes) : Prop := (m.1 < 16)%N ∧ (N.of_nat (length m.2) < 2 ^ 64)%N.

(** A corked entry holds the message. *)
Definition entry_ok (e : option N * bytes) (m : N * bytes) : Prop :=
  match e with
  | (Some op, p) => m = (op, p) ∧ sendable m
  | (None, f) => encodes f m
  end.

Lemma write_write s a b : closing s = false -> write (write s a) b = write s (a ++ b).
Proof. intros Hc. unfold write. cbn. rewrite Hc. by rewrite app_assoc. Qed.

Lemma write_nil s : closing s = false -> write s [] = s.
Proof. intros Hc. unfold write. rewrite Hc, app_nil_r, <-Hc. by destruct s. Qed.

Lemma batch_encodes raw : Forall sendable raw ->
  ∃ bs, core_batch raw = concat bs ∧ Forall2 encodes bs raw.
Proof.
  intros Hr. exists ((fun m => core_frame m.1 m.2) <$> raw). split; [apply law_batch|].
  induction Hr as [|[op p] raw [Hop Hp] _ IH]; csimpl; constructor; [by apply law_frame|done].
Qed.

Lemma flush_raw_write s raw : closing s = false -> Forall sendable raw ->
  ∃ bs, flush_raw s raw = write s (concat bs) ∧ Forall2 encodes bs raw.
Proof.
  intros Hc Hr. destruct raw as [|m raw]; [exists []; by rewrite write_nil|].
  destruct (batch_encodes _ Hr) as (bs & Hb & Hf). exists bs. cbn [flush_raw]. by rewrite Hb.
Qed.

Lemma flush_entries_write buf : ∀ s raw l,
  closing s = false -> Forall sendable raw -> Forall2 entry_ok buf l ->
  ∃ bs, flush_entries s raw buf = write s (concat bs) ∧ Forall2 encodes bs (raw ++ l).
Proof.
  induction buf as [|[[op|] p] buf IH]; intros s raw l Hc Hr Hl; cbn [flush_entries].
  - apply Forall2_nil_inv_l in Hl as ->. rewrite app_nil_r. by apply flush_raw_write.
  - apply Forall2_cons_inv_l in Hl as (m & l' & [-> Hs] & Hl & ->).
    destruct (IH s (raw ++ [(op, p)]) l') as (bs & Hb & Hf); [done|apply Forall_app; split; [done|by constructor]|done|].
    exists bs. by rewrite <-app_assoc in Hf.
  - apply Forall2_cons_inv_l in Hl as (m & l' & Hm & Hl & ->).
    destruct (flush_raw_write s raw Hc Hr) as (bs1 & Hb1 & Hf1). rewrite Hb1, write_write by done.
    destruct (IH (write s (concat bs1 ++ p)) [] l') as (bs2 & Hb2 & Hf2); [done|constructor|done|].
    exists (bs1 ++ [p] ++ bs2). rewrite Hb2, write_write by done. split.
    + rewrite !concat_app. cbn [concat]. by rewrite !app_nil_r, <-!app_assoc.
    + apply Forall2_app; [done|]. cbn [app]. by constructor.
Qed.

(** The bytes written, then the corked entries, are the messages of the log. *)
Definition inv (s : CppWebSocket) (log : list (N * bytes)) : Prop :=
  closing s = false ∧ _pending_sends s = [] ∧ _flush_scheduled s = false
  ∧ (_corked s = false -> _cork_buf s = [])
  ∧ ∃ bs l1 l2, written s = concat bs ∧ Forall2 encodes bs l1 ∧ Forall2 entry_ok (_cork_buf s) l2
    ∧ log = l1 ++ l2.

Lemma inv_write s log b m :
  inv s log -> _cork_buf s = [] -> encodes b m -> inv (write s b) (log ++ [m]).
Proof.
  intros (Hc & Hp & Hf & Hk & bs & l1 & l2 & Hw & Hb & He & ->) Hnil Hm.
  unfold inv, write. cbn. split_and!; [done|done|done|done|]. rewrite Hc, Hw, Hnil in *.
  apply Forall2_nil_inv_l in He as ->. exists (bs ++ [b]), (l1 ++ [m]), [].
  rewrite concat_app. cbn [concat]. rewrite !app_nil_r. split_and!; [done| |constructor|done].
  apply Forall2_app; [done|]. by repeat constructor.
Qed.

Lemma inv_entry s log e m : inv s log -> entry_ok e m -> inv (with_cork s true (_cork_buf s ++ [e])) (log ++ [m]).
Proof.
  intros (Hc & Hp & Hf & Hk & bs & l1 & l2 & Hw & Hb & He & ->) Hm. unfold inv. cbn.
  split_and!; [done|done|done|done|]. exists bs, l1, (l2 ++ [m]). rewrite app_assoc.
  split_and!; [done|done| |done]. apply Forall2_app; [done|]. by repeat constructor.
Qed.

Lemma inv_send s log op p : inv s log -> sendable (op, p) -> inv (send_payload s op p) (log ++ [(op, p)]).
Proof.
  intros Hi [Hop Hp]. unfold send_payload. destruct (_corked s) eqn:Ec; [by apply inv_entry|].
  pose proof Hi as (Hc & Hpe & Hf & Hk & _). unfold _queue_send. rewrite Hc, Hf, Hpe. cbn.
  apply inv_write; [done|by apply Hk|by apply law_frame].
Qed.

Lemma inv_flush_cork s log : inv s log -> inv (_flush_cork s) log ∧ _cork_buf (_flush_cork s) = []
  ∧ _closed (_flush_cork s) = _closed s ∧ _corked (_flush_cork s) = _corked s.
Proof.
  intros Hi. unfold _flush_cork. destruct (_cork_buf s) as [|e buf] eqn:Eb; [by rewrite Eb|].
  destruct Hi as (Hc & Hp & Hf & Hk & bs & l1 & l2 & Hw & Hb & He & ->). rewrite Hc, Eb in *.
  destruct (flush_entries_write (e :: buf) s [] l2) as (bs2 & Hb2 & Hf2); [done|constructor|done|].
  rewrite Hb2. cbn [app] in Hf2. split_and!; [|done|done|done]. unfold inv. cbn. split_and!; try done.
  exists (bs ++ bs2), (l1 ++ l2), []. rewrite Hc, Hw, concat_app, app_nil_r.
  split_and!; [done|by apply Forall2_app|constructor|done].
Qed.

(** Calls whose payloads fit a frame and whose close codes fit two bytes. *)
Definition sop_ok (o : sop) : Prop :=
  match o with
  | SText d => ∀ p, utf8_encode d = Ok p -> (N.of_nat (length p) < 2 ^ 64)%N
  | SBytes d => (N.of_nat (length d) < 2 ^ 64)%N
  | SJson j _ => (N.of_nat (length (json_bytes j)) < 2 ^ 64)%N
  | SClose c r => 0 <= c < 65536 ∧ ∀ t p, (wire_close c r).2 = Some t -> utf8_encode t = Ok p ->
                    (N.of_nat (length p) + 2 < 2 ^ 64)%N
  | _ => True
  end.

Lemma inv_close s log c r :
  inv s log -> sop_ok (SClose c r) ->
  inv (cpp_close s c r).1
    (log ++ if is_ok (cpp_close s c r).2 then message_of s (SClose c r) else []).
Proof.
  intros Hi [Hcode Hlen]. unfold cpp_close, message_of. destruct (_closed s) eqn:Ecl; cbn [fst snd is_ok].
  { by rewrite app_nil_r. }
  set (s1 := mkCpp _ _ _ _ _ _ _ _ _ _ _).
  assert (Hi1 : inv s1 log) by exact Hi.
  assert (Hcode' : 0 <= (wire_close c r).1 < 65536) by (unfold wire_close; case_decide; simpl; lia).
  destruct (wire_close c r) as [c' r'] eqn:Ew. cbn [fst snd] in *.
  set (s2 := if _corked s1 then _flush_cork s1 else s1).
  assert (inv s2 log ∧ _cork_buf s2 = []) as [Hi2 Hb2].
  { subst s2. destruct (_corked s1) eqn:Ek.
    - destruct (inv_flush_cork _ _ Hi1) as (Hx & Hy & _). done.
    - split; [done|]. by apply Hi1. }
  assert (_pending_sends s2 = []) as Hp2 by apply Hi2. rewrite Hp2.
  assert (Hclose : inv (write s2 (core_close_frame c')) (log ++ [(8%N, be_bytes 2 (Z.to_N c') ++ [])])).
  { rewrite app_nil_r. apply inv_write; [done|done|by apply law_close]. }
  destruct r' as [[|x t]|]; cbn [fst snd is_ok]; [exact Hclose| |exact Hclose].
  unfold pack_code. rewrite bool_decide_true by done. cbn [rbind].
  destruct (utf8_encode (x :: t)) as [u|e] eqn:Eu; cbn [rbind fst snd is_ok]; [|by rewrite app_nil_r].
  apply inv_write; [done|done|]. intros rest. apply parse_built; [done|].
  cbn [fst snd]. rewrite length_app, be_bytes_length. specialize (Hlen _ _ eq_refl Eu). lia.
Qed.

Lemma inv_exec s log o :
  inv s log -> sop_ok o ->
  inv (cpp_exec o s).1 (log ++ if is_ok (cpp_exec o s).2 then message_of s o else []).
Proof.
  intros Hi Ho. destruct o as [d|d|j t| | | |c r]; cbn [cpp_exec].
  - unfold cpp_send_text. destruct (_closed s); cbn [fst snd is_ok]; [by rewrite app_nil_r|].
    cbn [message_of]. destruct (utf8_encode d) as [p|] eqn:E; cbn [fst snd is_ok]; [|by rewrite app_nil_r].
    apply inv_send; [done|]. split; [done|]. by apply Ho.
  - unfold cpp_send_bytes. destruct (_closed s); cbn [fst snd is_ok]; [by rewrite app_nil_r|].
    by apply inv_send.
  - unfold cpp_send_json. destruct (_closed s); cbn [fst snd is_ok]; [by rewrite app_nil_r|].
    cbn [message_of]. set (op := if t then 1%N else 2%N).
    assert (Hop : (op < 16)%N) by (by destruct t).
    destruct (core_json_frame j op) as [f|] eqn:E; cbn [fst snd is_ok]; [|by rewrite app_nil_r].
    apply law_json in E as ->. assert (He : encodes (core_frame op (json_bytes j)) (op, json_bytes j)) by (by apply law_frame).
    destruct (_corked s) eqn:Ek; [by apply inv_entry|]. pose proof Hi as (Hc & _ & _ & Hk & _).
    unfold _write_frame. rewrite Hc. apply inv_write; [done|by apply Hk|done].
  - cbn [fst snd is_ok message_of]. rewrite app_nil_r. by destruct Hi as (? & ? & ? & ? & ?).
  - cbn [fst snd is_ok message_of]. rewrite app_nil_r. unfold uncork.
    destruct (inv_flush_cork _ _ Hi) as ((Hc & Hp & Hf & Hk & Hrest) & Hb & _ & _).
    unfold inv. cbn. split_and!; done.
  - cbn [fst snd is_ok message_of]. rewrite app_nil_r. unfold _flush_pending.
    pose proof Hi as (Hc & Hp & Hf & Hk & Hrest). rewrite Hp. unfold inv. cbn. split_and!; done.
  - by apply inv_close.
Qed.

Lemma inv_run os : ∀ s log,
  inv s log -> Forall sop_ok os -> inv (run_sends os s).1 (log ++ (run_sends os s).2).
Proof.
  induction os as [|o os IH]; intros s log Hi Ho; cbn [run_sends]; [by rewrite app_nil_r|].
  apply Forall_cons in Ho as [Ho Hos]. pose proof (inv_exec s log o Hi Ho) as Hi'.
  destruct (cpp_exec o s) as [s' r]. cbn [fst snd] in Hi'. specialize (IH s' _ Hi' Hos).
  destruct (run_sends os s') as [s'' log']. cbn [fst snd] in *. by rewrite app_assoc.
Qed.

Lemma parse_stream_encodes bs l : Forall2 encodes bs l -> ∀ fuel, (length l <= fuel)%nat ->
  parse_stream fuel (concat bs) = Some l.
Proof.
  induction 1 as [|b [op p] bs l Hb _ IH]; intros fuel Hf; [by destruct fuel|].
  destruct fuel as [|f]; simpl in Hf; [lia|]. cbn [concat]. specialize (Hb (concat bs)).
  destruct (b ++ concat bs) as [|x y] eqn:E; [done|]. cbn [parse_stream]. rewrite Hb. cbn [fst snd].
  rewrite IH by lia. done.
Qed.

(** C23: a connection writes the messages of its successful send calls in the
    order of the calls, whatever mixture of text, bytes, JSON, corking,
    uncorking, flushing and closing: read as frames, the written bytes followed
    by the corked entries are exactly those messages; nothing is ever left in
    the batch queue, and nothing is held back when the connection is not corked. *)
Theorem cpp_sends_in_order os ch :
  Forall sop_ok os ->
  let '(s, log) := run_sends os (cpp_init ch) in
  _pending_sends s = [] ∧ _flush_scheduled s = false
  ∧ (∃ l1 l2, log = l1 ++ l2 ∧ Forall2 entry_ok (_cork_buf s) l2
      ∧ ∀ fuel, (length l1 <= fuel)%nat -> parse_stream fuel (written s) = Some l1)
  ∧ (_corked s = false -> parse_stream (length log) (written s) = Some log).
Proof.
  intros Ho. assert (Hinit : inv (cpp_init ch) []).
  { unfold inv. cbn. split_and!; try done. exists [], [], []. split_and!; done || constructor. }
  pose proof (inv_run os _ [] Hinit Ho) as Hi. destruct (run_sends os (cpp_init ch)) as [s log]. cbn [fst snd app] in Hi.
  destruct Hi as (Hc & Hp & Hf & Hk & bs & l1 & l2 & Hw & Hb & He & ->). split_and!; [done|done| |].
  - exists l1, l2. split_and!; [done|done|]. intros fuel Hfu. rewrite Hw. by apply parse_stream_encodes.
  - intros Hu. rewrite (Hk Hu) in He. apply Forall2_nil_inv_l in He as ->. rewrite app_nil_r, Hw.
    by apply parse_stream_encodes.
Qed.
End cpp.

(** The Python frame builder satisfies the laws. *)
#[global] Instance py_core : WsCore bytes :=
  {| core_frame := _build_frame_py;
     core_batch := fun l => concat ((fun m => _build_frame_py m.1 m.2) <$> l);
     core_json_frame := fun j op => Ok (_build_frame_py op j);
     core_close_frame := fun code => _build_frame_py 8 (be_bytes 2 (Z.to_N code));
     json_bytes := fun j => j |}.

#[global] Instance py_core_laws : WsCoreLaws bytes.
Proof.
  split.
  - intros op p Hop Hp rest. by apply parse_built.
  - done.
  - by intros j op f [= <-].
  - intros code Hc rest. by apply parse_built.
Qed.

Definition sample_sends : list (@sop bytes) :=
  [SText $"a"; SCork; SJson $"{}" true; SBytes $"b"; SUncork; SClose 1000 None].

Lemma cpp_sends_in_order_witness :
  let '(s, log) := run_sends sample_sends (cpp_init (Channel.init true 256 64)) in
  log = [(1%N, $"a"); (1%N, $"{}"); (2%N, $"b"); (8%N, [3%N; 232%N])]
  ∧ parse_stream 4 (written s) = Some log.
Proof.
  pose proof (cpp_sends_in_order (J := bytes) sample_sends (Channel.init true 256 64)) as H.
  assert (Hok : Forall sop_ok sample_sends).
  { repeat constructor; try done. intros p [= <-]. done. }
  specialize (H Hok). destruct (run_sends sample_sends (cpp_init (Channel.init true 256 64))) as [s log] eqn:E.
  destruct H as (_ & _ & _ & H). vm_compute in E. injection E as <- <-. split; [reflexivity|].
  exact (H eq_refl).
Defined.
End Cpp.

(** ** Receiving on the native connection *)
Module CppReceive.
Import Cpp.

Definition with_channel (s : CppWebSocket) (c : Channel._WsFastChannel) : CppWebSocket :=
  mkCpp (closing s) (written s) (_closed s) (_close_code s) (c_client_state s) (c_application_state s)
    (_corked s) (_cork_buf s) (_pending_sends s) (_flush_scheduled s) c.

(** The peer has closed. *)
Definition peer_closed (s : CppWebSocket) : CppWebSocket :=
  mkCpp (closing s) (written s) true (_close_code s) DISCONNECTED (c_application_state s)
    (_corked s) (_cork_buf s) (_pending_sends s) (_flush_scheduled s) (_channel s).

Definition payload_code (p : Channel.payload) : result Z :=
  match p with
  | Channel.PBin b => Ok (_parse_close_code b)
  | Channel.PText _ => Raise (TypeError $"cannot convert 'str' object to bytes")
  end.

Definition payload_text (p : Channel.payload) : result str :=
  match p with
  | Channel.PText t => Ok t
  | Channel.PBin b => utf8_decode_strict b
  end.

(** The common shape of the receivers: the next frame, a close frame handled. *)
Definition next {A} (on_close : Z -> result A) (on_data : Channel.frame -> result A)
    (s : CppWebSocket) : CppWebSocket * outcome A :=
  let '(c, r) := Channel.get (_channel s) in
  let s1 := with_channel s c in
  match r with
  | None => (s1, Blocked)
  | Some (op, p) =>
      if (op =? 8)%Z then
        (peer_closed s1, Done (let! code := payload_code p in on_close code))
      else (s1, Done (on_data (op, p)))
  end.

Definition disconnect {A} (code : Z) : result A := Raise (WebSocketDisconnect code []).

Definition receive_text : CppWebSocket -> CppWebSocket * outcome str :=
  next disconnect (fun f => payload_text f.2).
Definition receive_bytes : CppWebSocket -> CppWebSocket * outcome Channel.payload :=
  next disconnect (fun f => Ok f.2).

(** [receive]: ASGI events. *)
Definition receive (s : CppWebSocket) : CppWebSocket * outcome event :=
  if decide (c_application_state s = CONNECTING) then (s, Done (Ok WsConnect))
  else
    next (fun code => Ok (WsDisconnect (Some code) None))
      (fun '(op, p) =>
         if (op =? 1)%Z then let! t := payload_text p in Ok (WsReceive (Some t) None)
         else match p with
              | Channel.PBin b => Ok (WsReceive None (Some b))
              | Channel.PText t => Ok (WsReceive (Some t) None)
              end) s.

(** [iter_binary_chunks] over the frames as they arrive; text payloads are
    skipped. *)
Fixpoint cut (fuel : nat) (size : nat) (asm : bytes) : list bytes * bytes :=
  match fuel with
  | O => ([], asm)
  | S f =>
      if (size <=? length asm)%nat then
        let '(l, rest) := cut f size (drop size asm) in (take size asm :: l, rest)
      else ([], asm)
  end.

Fixpoint binary_chunks (size : nat) (frames : list Channel.frame) (asm : bytes) : list bytes :=
  match frames with
  | [] => match asm with [] => [] | _ => [asm] end
  | (op, p) :: frames' =>
      if (op =? 8)%Z then match asm with [] => [] | _ => [asm] end
      else
        match p with
        | Channel.PBin b =>
            let '(l, rest) := cut (length (asm ++ b)) size (asm ++ b) in
            l ++ binary_chunks size frames' rest
        | Channel.PText _ => binary_chunks size frames' asm
        end
  end.

(** The binary payloads before the close frame. *)
Fixpoint binary_payloads (frames : list Channel.frame) : list bytes :=
  match frames with
  | [] => []
  | (op, p) :: frames' =>
      if (op =? 8)%Z then []
      else match p with Channel.PBin b => b :: binary_payloads frames' | _ => binary_payloads frames' end
  end.

Lemma cut_spec fuel size asm l rest :
  (1 <= size)%nat -> (length asm <= fuel)%nat -> cut fuel size asm = (l, rest) ->
  concat l ++ rest = asm ∧ Forall (fun c => length c = size) l ∧ (length rest < size)%nat.
Proof.
  intros Hs. revert asm l rest. induction fuel as [|f IH]; intros asm l rest Hl Hc; simpl in Hc.
  - injection Hc as <- <-. split_and!; [done|done|lia].
  - destruct (Nat.leb_spec size (length asm)) as [Hle|Hlt]; [|injection Hc as <- <-; done].
    destruct (cut f size (drop size asm)) as [l' rest'] eqn:E. injection Hc as <- <-.
    apply IH in E as (He & Hf & Hr); [|rewrite length_drop; lia]. cbn [concat].
    rewrite <-app_assoc, He, take_drop. split_and!; [done| |done]. constructor; [|done].
    rewrite length_take. lia.
Qed.

(** Chunked iteration neither loses nor reorders binary data: the chunks
    concatenate to the binary payloads received before the close, and every
    chunk but possibly the last has exactly the requested size; the last is
    shorter only if it is what remained. *)
Theorem binary_chunks_correct size frames :
  (1 <= size)%nat ->
  concat (binary_chunks size frames []) = concat (binary_payloads frames)
  ∧ ∃ full lst, binary_chunks size frames [] = full ++ lst
      ∧ Forall (fun c => length c = size) full
      ∧ (lst = [] ∨ ∃ c, lst = [c] ∧ (0 < length c < size)%nat).
Proof.
  intros Hs.
  assert (Hgen : ∀ asm, (length asm < size)%nat ->
    concat (binary_chunks size frames asm) = asm ++ concat (binary_payloads frames)
    ∧ ∃ full lst, binary_chunks size frames asm = full ++ lst ∧ Forall (fun c => length c = size) full
      ∧ (lst = [] ∨ ∃ c, lst = [c] ∧ (0 < length c < size)%nat)).
  { assert (Hlast : ∀ asm : bytes, (length asm < size)%nat ->
      concat (match asm with [] => [] | _ => [asm] end) = asm ++ []
      ∧ ∃ full lst, (match asm with [] => [] | _ => [asm] end) = full ++ lst
        ∧ Forall (fun c => length c = size) full ∧ (lst = [] ∨ ∃ c, lst = [c] ∧ (0 < length c < size)%nat)).
    { intros [|x asm] Ha; [split; [done|]; exists [], []; auto|]. split; [done|].
      exists [], [x :: asm]. split_and!; [done|constructor|]. right. eexists. split; [done|]. simpl in *. lia. }
    induction frames as [|[op p] frames IH]; intros asm Ha; cbn [binary_chunks binary_payloads]; [by apply Hlast|].
    destruct (op =? 8)%Z; [by apply Hlast|]. destruct p as [t|b]; [by apply IH|].
    destruct (cut (length (asm ++ b)) size (asm ++ b)) as [l rest] eqn:E.
    apply cut_spec in E as (He & Hf & Hr); [|done|done].
    destruct (IH rest Hr) as (Hc & full & lst & Hb & Hfull & Hlst). split.
    - rewrite concat_app, Hc, app_assoc, He. cbn [concat]. by rewrite app_assoc.
    - exists (l ++ full), lst. rewrite Hb, app_assoc. split_and!; [done|by apply Forall_app|done]. }
  destruct (Hgen []) as [H1 H2]; [simpl; lia|]. done.
Qed.

Lemma binary_chunks_correct_witness :
  concat (binary_chunks 2 [(2, Channel.PBin $"abc"); (2, Channel.PBin $"d"); (8, Channel.PBin [])] []) = $"abcd".
Proof.
  destruct (binary_chunks_correct 2 [(2, Channel.PBin $"abc"); (2, Channel.PBin $"d"); (8, Channel.PBin [])]
    ltac:(lia)) as [H _]. rewrite H. reflexivity.
Defined.
End CppReceive.

(** ** Broadcast groups *)
Module Groups.

(** A member connection as a group sees it: whether it is closed, whether its
    transport is closing (writes are dropped) or its write raises, and the
    frames it has been written. *)
Record conn : Type := mkConn { closed : bool; closing : bool; failing : bool; frames : list bytes }.

Abbreviation store := (gmap nat conn).

(** [_groups]: group names to sets of connection identities. *)
Abbreviation groups := (list (str * gset nat)).

Definition join (g : groups) (ws : nat) (group : str) : groups :=
  dict_set g group (dict_getdefault g group ∅ ∪ {[ws]}).

Definition leave (g : groups) (ws : nat) (group : str) : groups :=
  match dict_get g group with
  | None => g
  | Some s =>
      if decide (s = ∅) then g
      else
        let s' := s ∖ {[ws]} in
        if decide (s' = ∅) then dict_del g group else dict_set g group s'
  end.

Definition leave_all (g : groups) (ws : nat) : groups :=
  filter (fun e => e.2 ≠ ∅) ((fun e => (e.1, e.2 ∖ {[ws]})) <$> g).

(** A collected connection disappears from the weak sets. *)
Definition collect (g : groups) (ws : nat) : groups := (fun e => (e.1, e.2 ∖ {[ws]})) <$> g.

Definition write_frame (c : conn) (f : bytes) : result conn :=
  if failing c then Raise (RuntimeError $"write failed")
  else Ok (if closing c then c else mkConn (closed c) (closing c) (failing c) (frames c ++ [f])).

(** One iteration of a broadcast loop. *)
Definition broadcast_step (f : bytes) (acc : store * Z) (ws : nat) : store * Z :=
  let '(st, count) := acc in
  match st !! ws with
  | Some c =>
      if closed c then acc
      else match write_frame c f with
           | Ok c' => (<[ws := c']> st, count + 1)
           | Raise _ => acc
           end
  | None => acc
  end.

Definition broadcast_frame (g : groups) (st : store) (group : str) (f : bytes) : store * Z :=
  match dict_get g group with
  | None => (st, 0)
  | Some s => foldl (broadcast_step f) (st, 0) (elements s)
  end.

Definition broadcast_text (g : groups) (st : store) (group : str) (data : str) : result (store * Z) :=
  match dict_get g group with
  | None => Ok (st, 0)
  | Some s =>
      if decide (s = ∅) then Ok (st, 0)
      else let! payload := utf8_encode data in Ok (broadcast_frame g st group (_build_frame_py 1 payload))
  end.

Definition broadcast_bytes (g : groups) (st : store) (group : str) (data : bytes) : store * Z :=
  broadcast_frame g st group (_build_frame_py 2 data).

Definition members (g : groups) (group : str) : nat :=
  match dict_get g group with Some s => size s | None => 0 end.

Definition groups_for (g : groups) (ws : nat) : list str :=
  (filter (fun e => ws ∈ e.2) g).*1.

(** *** Properties *)
Definition member (g : groups) (ws : nat) (group : str) : Prop :=
  ∃ s, dict_get g group = Some s ∧ ws ∈ s.

Definition wf (g : groups) : Prop := dict_wf g.
Definition no_empty (g : groups) : Prop := Forall (fun e => e.2 ≠ ∅) g.

Lemma dict_get_filter_ok (g : groups) (P : str * gset nat -> Prop) `{∀ x, Decision (P x)} k :
  dict_wf g ->
  dict_get (filter P g) k = match dict_get g k with
                            | Some s => if decide (P (k, s)) then Some s else None
                            | None => None end.
Proof.
  induction g as [|[k0 s0] g IH]; intros Hwf; [done|]. apply NoDup_cons in Hwf as [Hni Hwf].
  rewrite filter_cons. cbn [dict_get]. destruct (decide (k = k0)) as [->|Hne].
  - destruct (decide (P (k0, s0))); cbn [dict_get]; [by rewrite decide_True|].
    rewrite IH by done. by rewrite (proj2 (dict_get_None g k0)).
  - destruct (decide (P (k0, s0))); cbn [dict_get]; [rewrite decide_False by done|]; by rewrite IH.
Qed.

Lemma filter_wf (g : groups) (P : str * gset nat -> Prop) `{∀ x, Decision (P x)} : dict_wf g -> dict_wf (filter P g).
Proof.
  unfold dict_wf. induction g as [|[k s] g IH]; intros Hwf; [done|]. apply NoDup_cons in Hwf as [Hni Hwf].
  rewrite filter_cons. destruct (decide (P (k, s))); [|auto]. csimpl. apply NoDup_cons. split; [|auto].
  intros Hin. apply Hni. apply list_elem_of_fmap in Hin as ([k' s'] & -> & Hin).
  apply list_elem_of_filter in Hin as [_ Hin]. apply list_elem_of_fmap. by exists (k', s').
Qed.

Lemma member_join g ws group ws' group' :
  member (join g ws group) ws' group' ↔ member g ws' group' ∨ (ws' = ws ∧ group' = group).
Proof.
  unfold member, join. setoid_rewrite dict_get_set. unfold dict_getdefault.
  destruct (decide (group = group')) as [->|Hne].
  - split.
    + intros (s' & [= <-] & [Hin|Hin%elem_of_singleton]%elem_of_union); [left|by right].
      destruct (dict_get g group') as [s|]; [by exists s|set_solver].
    + intros [(s' & Hg & Hin)|[-> _]]; eexists; (split; [done|]); [rewrite Hg|]; set_solver.
  - naive_solver.
Qed.

Lemma member_leave g ws group ws' group' : dict_wf g ->
  (member (leave g ws group) ws' group' ↔ member g ws' group' ∧ ¬ (ws' = ws ∧ group' = group)).
Proof.
  intros Hwf. unfold member, leave. destruct (dict_get g group) as [s|] eqn:E.
  - destruct (decide (s = ∅)) as [->|Hs].
    + destruct (decide (group' = group)) as [->|]; [|naive_solver].
      rewrite E. split; [intros (s' & [= <-] & Hin); set_solver|by intros [Hm _]].
    + destruct (decide (s ∖ {[ws]} = ∅)) as [He|He].
      * setoid_rewrite dict_get_del; [|done]. destruct (decide (group = group')) as [<-|]; [|naive_solver].
        split; [naive_solver|]. intros [(s' & Hg & Hin) Hn]. simplify_eq. exfalso. apply Hn. set_solver.
      * setoid_rewrite dict_get_set. destruct (decide (group = group')) as [<-|]; [|naive_solver].
        rewrite E. split.
        -- intros (s' & [= <-] & [Hin Hn]%elem_of_difference). split; [by exists s|set_solver].
        -- intros [(s' & [= <-] & Hin) Hn]. eexists. split; [done|]. set_solver.
  - destruct (decide (group' = group)) as [->|]; [rewrite E; naive_solver|naive_solver].
Qed.

Lemma dict_get_discard (g : groups) ws k :
  dict_get ((fun e => (e.1, e.2 ∖ {[ws]})) <$> g) k = (fun s => s ∖ {[ws]}) <$> dict_get g k.
Proof. apply (dict_get_fmap (fun s : gset nat => s ∖ {[ws]})). Qed.

Lemma discard_wf (g : groups) ws : dict_wf g -> dict_wf ((fun e => (e.1, e.2 ∖ {[ws]})) <$> g).
Proof. unfold dict_wf. by rewrite (dict_keys_fmap (fun s : gset nat => s ∖ {[ws]})). Qed.

Lemma member_leave_all g ws ws' group' : dict_wf g ->
  (member (leave_all g ws) ws' group' ↔ member g ws' group' ∧ ws' ≠ ws).
Proof.
  intros Hwf. unfold member, leave_all. setoid_rewrite dict_get_filter_ok; [|by apply discard_wf].
  rewrite dict_get_discard. destruct (dict_get g group') as [s|]; cbn [fmap option_fmap option_map snd]; [|naive_solver].
  destruct (decide (s ∖ {[ws]} ≠ ∅)) as [D|D].
  - split.
    + intros (s' & [= <-] & [Hin Hn]%elem_of_difference). split; [by exists s|set_solver].
    + intros [(s' & [= <-] & Hin) Hn]. eexists. split; [done|]. set_solver.
  - split; [naive_solver|]. intros [(s' & [= <-] & Hin) Hn]. destruct D. set_solver.
Qed.

(** Groups are the membership relation they stand for: joining adds exactly
    one pair, leaving removes exactly one, leaving all groups removes exactly
    the pairs of that connection; a connection's groups are those it is a member
    of; joining and leaving never leave an empty group behind. *)
Theorem groups_membership g ws group :
  wf g -> no_empty g ->
  (∀ ws' group', member (join g ws group) ws' group' ↔ member g ws' group' ∨ (ws' = ws ∧ group' = group))
  ∧ (∀ ws' group', member (leave g ws group) ws' group' ↔ member g ws' group' ∧ ¬ (ws' = ws ∧ group' = group))
  ∧ (∀ ws' group', member (leave_all g ws) ws' group' ↔ member g ws' group' ∧ ws' ≠ ws)
  ∧ (∀ group', group' ∈ groups_for g ws ↔ member g ws group')
  ∧ wf (join g ws group) ∧ wf (leave g ws group) ∧ wf (leave_all g ws)
  ∧ no_empty (join g ws group) ∧ no_empty (leave g ws group) ∧ no_empty (leave_all g ws).
Proof.
  intros Hwf Hne. unfold wf, no_empty in *.
  assert (Hset : ∀ (d : groups) k (s : gset nat), Forall (fun e => e.2 ≠ ∅) d -> s ≠ ∅ ->
            Forall (fun e => e.2 ≠ ∅) (dict_set d k s)).
  { intros d k s Hd Hs. induction Hd as [|[k' s'] d Hx Hd' IH]; simpl; [by repeat constructor|].
    case_decide; constructor; done. }
  assert (Hdel : ∀ (d : groups) k, Forall (fun e => e.2 ≠ ∅) d -> Forall (fun e => e.2 ≠ ∅) (dict_del d k)).
  { intros d k Hd. induction Hd as [|[k' s'] d Hx Hd IH]; simpl; [done|]. case_decide; [done|by constructor]. }
  split_and!.
  - intros. apply member_join.
  - intros. by apply member_leave.
  - intros. by apply member_leave_all.
  - intros group'. unfold groups_for, member. rewrite list_elem_of_fmap. split.
    + intros ([k s] & -> & [Hin Hg]%list_elem_of_filter). exists s. split; [by apply dict_elem_get|done].
    + intros (s & Hg & Hin). exists (group', s). split; [done|]. apply list_elem_of_filter.
      split; [done|]. by apply dict_get_elem.
  - by apply dict_set_wf.
  - unfold leave. repeat case_match; auto using dict_del_wf, dict_set_wf.
  - unfold leave_all. by apply filter_wf, discard_wf.
  - unfold join. apply Hset; [done|]. set_solver.
  - unfold leave. repeat case_match; auto.
  - unfold leave_all. apply Forall_forall. intros e [He _]%list_elem_of_filter. done.
Qed.

Lemma groups_membership_witness :
  member (join [($"room", {[1%nat]})] 2 $"room") 2 $"room" ∧ ¬ member (leave [($"room", {[1%nat]})] 1 $"room") 1 $"room".
Proof.
  destruct (groups_membership [($"room", {[1%nat]})] 2 $"room") as (H & _).
  { repeat constructor; set_solver. } { constructor; [simpl; set_solver|constructor]. }
  destruct (groups_membership [($"room", {[1%nat]})] 1 $"room") as (_ & H' & _).
  { repeat constructor; set_solver. } { constructor; [simpl; set_solver|constructor]. }
  split; [apply H; by right|]. rewrite H'. naive_solver.
Defined.

(** What one broadcast does to a connection, and which ones are counted. *)
Definition receives (c : conn) : bool := negb (closed c) && negb (failing c).

Definition written_to (f : bytes) (c : conn) : conn :=
  if receives c && negb (closing c) then mkConn (closed c) (closing c) (failing c) (frames c ++ [f]) else c.

Definition counted (st : store) (ws : nat) : bool :=
  match st !! ws with Some c => receives c | None => false end.

Lemma broadcast_step_spec f st n ws :
  broadcast_step f (st, n) ws
  = (match st !! ws with Some c => if receives c then <[ws := written_to f c]> st else st | None => st end,
     if counted st ws then n + 1 else n).
Proof.
  unfold broadcast_step, counted, receives, write_frame, written_to, receives.
  destruct (st !! ws) as [c|]; [|done]. destruct (closed c); [done|]. cbn [negb andb].
  destruct (failing c); [done|]. cbn [negb andb]. by destruct (closing c).
Qed.

Lemma broadcast_fold f l : ∀ st n, NoDup l ->
  let '(st', n') := foldl (broadcast_step f) (st, n) l in
  (∀ ws, st' !! ws = if decide (ws ∈ l) then written_to f <$> st !! ws else st !! ws)
  ∧ n' = n + Z.of_nat (length (filter (fun ws => counted st ws = true) l)).
Proof.
  induction l as [|w l IH]; intros st n Hnd; cbn [foldl].
  { split; [|simpl; lia]. intros ws. rewrite decide_False; [done|set_solver]. }
  apply NoDup_cons in Hnd as [Hni Hnd]. rewrite broadcast_step_spec.
  set (st1 := match st !! w with Some c => _ | None => st end).
  assert (H1 : ∀ ws, st1 !! ws = if decide (ws = w) then written_to f <$> st !! ws else st !! ws).
  { intros ws. subst st1. destruct (decide (ws = w)) as [->|Hne].
    - destruct (st !! w) as [c|] eqn:E; [|done]. destruct (receives c) eqn:Er; [by rewrite lookup_insert_eq|].
      rewrite E. simpl. unfold written_to. by rewrite Er.
    - destruct (st !! w) as [c|]; [|done]. destruct (receives c); [by rewrite lookup_insert_ne|done]. }
  specialize (IH st1 (if counted st w then n + 1 else n) Hnd).
  destruct (foldl (broadcast_step f) _ l) as [st' n']. destruct IH as [Hst Hn]. split.
  - intros ws. rewrite Hst, H1. destruct (decide (ws = w)) as [->|Hne].
    + rewrite decide_False by done. by rewrite decide_True by set_solver.
    + destruct (decide (ws ∈ l)); [rewrite decide_True by set_solver|rewrite decide_False by set_solver]; done.
  - rewrite Hn, filter_cons.
    assert (Hc : filter (fun ws => counted st1 ws = true) l = filter (fun ws => counted st ws = true) l).
    { apply filter_ext_in. intros x Hx. unfold counted. rewrite H1. rewrite decide_False; [done|]. by intros ->. }
    rewrite Hc. destruct (counted st w); [rewrite decide_True by done|rewrite decide_False by done]; simpl; lia.
Qed.

(** A broadcast reaches exactly the members of its group that are open:
    each gets the frame once, after what it was sent before, every other
    connection is unchanged, and the count is the number of members that are
    neither closed nor failing; the frame reads back as the text. *)
Theorem broadcast_correct g st group data payload :
  utf8_encode data = Ok payload -> (N.of_nat (length payload) < 2 ^ 64)%N -> wf g ->
  let f := _build_frame_py 1 payload in
  ∃ st' n, broadcast_text g st group data = Ok (st', n)
    ∧ (∀ ws c, member g ws group -> st !! ws = Some c -> st' !! ws = Some (written_to f c))
    ∧ (∀ ws, ~ member g ws group -> st' !! ws = st !! ws)
    ∧ n = match dict_get g group with
          | Some s => Z.of_nat (length (filter (fun ws => counted st ws = true) (elements s)))
          | None => 0 end
    ∧ parse_frame f = Some (true, 1%N, payload, []).
Proof.
  intros He Hl Hwf f. assert (Hp : parse_frame f = Some (true, 1%N, payload, [])).
  { rewrite <-(app_nil_r f). by apply parse_built. }
  unfold broadcast_text, broadcast_frame, member. rewrite He. destruct (dict_get g group) as [s|] eqn:E.
  2: { exists st, 0. split_and!; try done. by intros ws c (s & ? & _). }
  destruct (decide (s = ∅)) as [->|Hne].
  { exists st, 0. split_and!; try done. intros ws c (s & [= <-] & Hin). set_solver. }
  cbn [rbind]. pose proof (broadcast_fold f (elements s) st 0 (NoDup_elements s)) as Hf. fold f.
  destruct (foldl (broadcast_step f) (st, 0) (elements s)) as [st' n]. destruct Hf as [Hst Hn].
  exists st', n. split_and!; [done| | |lia|done].
  - intros ws c (s' & [= <-] & Hin) Hc. rewrite Hst, decide_True by (by apply elem_of_elements). by rewrite Hc.
  - intros ws Hnm. rewrite Hst, decide_False; [done|]. intros Hin%elem_of_elements. apply Hnm. eauto.
Qed.

Lemma broadcast_correct_witness :
  ∃ st' n, broadcast_text [($"room", {[1%nat]})] {[1%nat := mkConn false false false []]} $"room" $"hi" = Ok (st', n)
    ∧ st' !! 1%nat = Some (mkConn false false false [_build_frame_py 1 $"hi"]).
Proof.
  destruct (broadcast_correct [($"room", {[1%nat]})] {[1%nat := mkConn false false false []]} $"room" $"hi" $"hi"
    eq_refl eq_refl) as (st' & n & Hb & Hm & _).
  { repeat constructor; set_solver. }
  exists st', n. split; [exact Hb|]. apply (Hm 1%nat (mkConn false false false [])); [|reflexivity].
  exists {[1%nat]}. split; [reflexivity|set_solver].
Defined.
End Groups.
