(* ===== verification/WsEndpoint.v ===== *)
(** * WsEndpoint: running a WebSocket endpoint on the compiled server

    [_handle_websocket_inner] of [_cpp_server.py] with what it looks up: the map
    from endpoints to applications and the cache of parameter names, which are
    keyed by addresses that can be reused.  Objects are addresses with a
    generation.  Applications, endpoints and handlers are parameters. *)

From S2P Require Import Prelude PyStr Asgi StaticFiles ExceptionHandler.

(** ** Objects and addresses *)
Record obj : Type := mkObj { addr : Z; generation : nat }.

#[global] Instance obj_eq_dec : EqDecision obj.
Proof. solve_decision. Defined.

(** ** The cache of parameter names *)
Definition sig_cache : Type := list (Z * (obj * str)).

(** A weak reference gives its object while that is alive. *)
Definition sig_get (alive : obj -> bool) (c : sig_cache) (ep : obj) : sig_cache * option str :=
  match dict_get c (addr ep) with
  | None => (c, None)
  | Some (o, name) => if alive o && bool_decide (o = ep) then (c, Some name) else (dict_del c (addr ep), None)
  end.

Definition sig_put (c : sig_cache) (ep : obj) (name : str) : sig_cache := dict_set c (addr ep) (ep, name).

(** The callback of the weak reference. *)
Definition sig_died (c : sig_cache) (o : obj) : sig_cache :=
  match dict_get c (addr o) with Some (o', _) => if bool_decide (o' = o) then dict_del c (addr o) else c | None => c end.

(** The first parameter called [websocket] or annotated with a class of that
    name. *)
Fixpoint ws_param_of (params : list (str * option str)) : str :=
  match params with
  | [] => $"websocket"
  | (n, a) :: params' =>
      if bool_decide (n = $"websocket") || bool_decide (a = Some $"WebSocket") then n else ws_param_of params'
  end.

Definition precompute_ws_signature (alive : obj -> bool) (c : sig_cache) (ep : obj) (params : list (str * option str)) : sig_cache :=
  let '(c', found) := sig_get alive c ep in
  match found with Some _ => c' | None => sig_put c' ep (ws_param_of params) end.

(** ** Dispatch *)
Section dispatch.
(** ASGI applications *)
Context {A : Type} `{EqDecision A}.

(** An entry of [_ws_app_map]: the application of the route, the endpoint it was
    stored for, and the application of the server. *)
Record ws_entry : Type := mkWsEntry { we_app : A; we_endpoint : obj; we_full : option A }.

(** [_build_ws_app_map]: entries of earlier servers stay. *)
Definition _build_ws_app_map (m : list (Z * ws_entry)) (full : A) (routes : list (obj * A)) : list (Z * ws_entry) :=
  foldl (fun m '(ep, app) => dict_set m (addr ep) (mkWsEntry app ep (Some full))) m routes.

(** The endpoint of a mount knows its application; otherwise it is looked for
    among the routes of the server. *)
Record ws_endpoint_info : Type := mkWsInfo {
  wi_mount : option (A * str);
  wi_params : list (str * str)
}.

Definition mount_path_key : str := $"__mount_path__".

Fixpoint find_mount (routes : list (str * option A)) (p : str) : option (A * str) :=
  match routes with
  | [] => None
  | (rp, app) :: routes' =>
      if bool_decide (rp ≠ []) && startswith p (rstrip 47 rp) then
        match app with Some a => Some (a, rp) | None => find_mount routes' p end
      else find_mount routes' p
  end.

Inductive dispatched : Type :=
  | ToApp (app : A)
  | ToMount (app : A) (sub_path root_path : str)
  | ToEndpoint (ws_param : str).

Definition choose (m : list (Z * ws_entry)) (routes : list (str * option A)) (c : sig_cache) (alive : obj -> bool) (ep : obj)
    (i : ws_endpoint_info) (full_path : str) : dispatched :=
  let entry := match dict_get m (addr ep) with Some e => if bool_decide (we_endpoint e = ep) then Some e else None | None => None end in
  match entry with
  | Some e =>
      match we_full e with
      | Some full => if bool_decide (full = we_app e) then ToApp (we_app e) else ToApp full
      | None => ToApp (we_app e)
      end
  | None =>
      let mount := match wi_mount i with
                   | Some x => Some x
                   | None => if dict_mem (wi_params i) mount_path_key then find_mount routes full_path else None
                   end in
      match mount with
      | Some (app, prefix) => ToMount app (mount_sub_path full_path prefix) (rstrip 47 prefix)
      | None => ToEndpoint (match (sig_get alive c ep).2 with Some ((_ :: _) as n) => n | _ => $"websocket" end)
      end
  end.

(** ** The call *)
Record ws_world : Type := mkWsWorld {
  ws_closed : bool;
  ws_transport : option bool;
  ws_errors : Z;
  ws_last : option exn;
  ws_codes : list Z
}.

(** What user code does to the connection. *)
Context (call : dispatched -> ws_world -> ws_world * result unit).
Context (handlers : list (str * (exn -> ws_world -> ws_world * result unit))).
(** [ws.close(code)] *)
Context (close : Z -> ws_world -> ws_world * result unit).

Definition count_error (w : ws_world) : ws_world := mkWsWorld (ws_closed w) (ws_transport w) (ws_errors w + 1) (ws_last w) (ws_codes w).
Definition keep_exception (e : exn) (w : ws_world) : ws_world := mkWsWorld (ws_closed w) (ws_transport w) (ws_errors w) (Some e) (ws_codes w).

(** [{**live, **handlers}] *)
Definition all_handlers (live : list (str * (exn -> ws_world -> ws_world * result unit))) := dict_update live handlers.

Definition unstored (e : exn) : bool :=
  isinstance e $"HTTPException" || isinstance e $"RequestValidationError" || isinstance e $"WebSocketException".

(** [except Exception as exc]: the handler of the first class of the MRO; one
    that raises counts as none. *)
Definition on_exception (live : list (str * (exn -> ws_world -> ws_world * result unit))) (e : exn) (w : ws_world) : ws_world * result unit :=
  let w := count_error w in
  let '(w, handled, r) :=
    match _lookup_exception_handler (all_handlers live) e with
    | None => (w, false, Ok tt)
    | Some h =>
        match h e w with
        | (w', Ok _) => (w', true, Ok tt)
        | (w', Raise e') => if isinstance e' $"Exception" then (w', false, Ok tt) else (w', false, Raise e')
        end
    end in
  match r with
  | Raise e' => (w, Raise e')
  | Ok _ => (if handled || unstored e then w else keep_exception e w, Ok tt)
  end.

(** [finally] *)
Definition close_transport (w : ws_world) : ws_world :=
  match ws_transport w with
  | Some false => mkWsWorld (ws_closed w) (Some true) (ws_errors w) (ws_last w) (ws_codes w)
  | _ => w
  end.

Definition finish (w : ws_world) : ws_world * result unit :=
  let '(w, r) := if ws_closed w then (w, Ok tt) else close 1000 w in
  match r with
  | Raise e => if isinstance e $"Exception" then (close_transport w, Ok tt) else (w, Raise e)
  | Ok _ => (close_transport w, Ok tt)
  end.

Definition _handle_websocket_inner (live : list (str * (exn -> ws_world -> ws_world * result unit))) (d : dispatched) (w : ws_world)
    : ws_world * result unit :=
  let '(w, r) :=
    match call d w with
    | (w', Ok _) => (w', Ok tt)
    | (w', Raise e) =>
        if isinstance e $"WebSocketDisconnect" then (w', Ok tt)
        else if isinstance e $"Exception" then on_exception live e w'
        else (w', Raise e)
    end in
  let '(w, f) := finish w in (w, match f with Raise e => Raise e | Ok _ => r end).
End dispatch.
Arguments ws_entry : clear implicits.
Arguments ws_endpoint_info : clear implicits.
Arguments dispatched : clear implicits.

(** ** A reused address is never mistaken *)

(** The cache after any sequence of signatures and deaths. *)
Inductive sig_event : Type := Computed (ep : obj) (params : list (str * option str)) | Died (o : obj).

Definition sig_step (st : sig_cache * list obj) (e : sig_event) : sig_cache * list obj :=
  match e with
  | Computed ep ps => (precompute_ws_signature (fun o => negb (bool_decide (o ∈ st.2))) st.1 ep ps, st.2)
  | Died o => (sig_died st.1 o, o :: st.2)
  end.

Definition sig_sound (sig : obj -> list (str * option str)) (c : sig_cache) : Prop :=
  ∀ a o n, dict_get c a = Some (o, n) -> addr o = a ∧ n = ws_param_of (sig o).

Lemma sig_sound_del sig c a : dict_wf c -> sig_sound sig c -> sig_sound sig (dict_del c a).
Proof. intros Hwf Hs a' o n. rewrite dict_get_del by done. case_decide; [done|]. apply Hs. Qed.

Lemma sig_get_keeps sig alive c ep : dict_wf c -> sig_sound sig c -> dict_wf (sig_get alive c ep).1 ∧ sig_sound sig (sig_get alive c ep).1.
Proof.
  intros Hwf Hs. unfold sig_get. destruct (dict_get c (addr ep)) as [[o n]|]; [|done].
  destruct (_ && _); [done|]. simpl. split; [auto with astra|by apply sig_sound_del].
Qed.

Lemma precompute_keeps sig alive c ep ps :
  dict_wf c -> sig_sound sig c -> ps = sig ep ->
  dict_wf (precompute_ws_signature alive c ep ps) ∧ sig_sound sig (precompute_ws_signature alive c ep ps).
Proof.
  intros Hwf Hs ->. unfold precompute_ws_signature. pose proof (sig_get_keeps sig alive c ep Hwf Hs) as [Hw Hs'].
  destruct (sig_get alive c ep) as [c' [m|]]; [done|]. simpl in *. split; [by apply dict_set_wf|].
  intros a o' n'. unfold sig_put. rewrite dict_get_set. case_decide; [|apply Hs']. by intros [= <- <-].
Qed.

Lemma died_keeps sig c o : dict_wf c -> sig_sound sig c -> dict_wf (sig_died c o) ∧ sig_sound sig (sig_died c o).
Proof.
  intros Hwf Hs. unfold sig_died. destruct (dict_get c (addr o)) as [[o' n']|]; [|done].
  case_bool_decide; [|done]. split; [auto with astra|by apply sig_sound_del].
Qed.

(** Endpoints have one signature each: after any sequence of computing
    signatures and of objects dying, with addresses reused in any way, the name
    found for an endpoint is the one of its own signature, never that of an
    object that lived at its address before. *)
Theorem sig_cache_sound sig events alive ep n :
  (∀ o ps, Computed o ps ∈ events -> ps = sig o) ->
  (sig_get alive (foldl sig_step ([], []) events).1 ep).2 = Some n -> n = ws_param_of (sig ep).
Proof.
  intros Hev. assert (H : ∀ st, dict_wf st.1 -> sig_sound sig st.1 ->
    dict_wf (foldl sig_step st events).1 ∧ sig_sound sig (foldl sig_step st events).1).
  { induction events as [|e events IH]; intros st Hwf Hs; simpl; [done|].
    assert (dict_wf (sig_step st e).1 ∧ sig_sound sig (sig_step st e).1) as [Hwf' Hs'].
    { destruct e as [o ps|o]; simpl.
      - apply precompute_keeps; [done|done|]. apply Hev. set_solver.
      - by apply died_keeps. }
    apply IH; [|done|done]. intros; apply Hev; set_solver. }
  destruct (H ([], [])) as [_ Hs]; [apply NoDup_nil_2|intros a o m H'; discriminate H'|]. unfold sig_get.
  destruct (dict_get _ (addr ep)) as [[o m]|] eqn:E; [|done]. destruct (_ && bool_decide (o = ep)) eqn:Eb; [|done].
  apply andb_true_iff in Eb as [_ Eb%bool_decide_eq_true]. subst. intros [= <-]. by apply Hs in E as [_ ->].
Qed.

(** ** The connection is always closed *)
Section closing.
Context {A : Type} (call : dispatched A -> ws_world -> ws_world * result unit).
Context (handlers live : list (str * (exn -> ws_world -> ws_world * result unit))).
Context (close : Z -> ws_world -> ws_world * result unit).

(** [ws.close] marks the connection closed, records the code and leaves the
    rest. *)
Definition close_spec : Prop := ∀ code w, match close code w with
  | (w', Ok _) => ws_closed w' = true ∧ ws_transport w' = ws_transport w ∧ ws_codes w' = ws_codes w ++ [code]
  | (w', Raise e) => isinstance e $"Exception" = true ∧ ws_transport w' = ws_transport w
  end.

Definition transport_closed (w : ws_world) : Prop := ws_transport w ≠ Some false.

Lemma close_transport_closed w : transport_closed (close_transport w).
Proof. unfold transport_closed, close_transport. destruct (ws_transport w) as [[]|] eqn:E; simpl; congruence. Qed.

Lemma close_transport_rest w :
  ws_closed (close_transport w) = ws_closed w ∧ ws_codes (close_transport w) = ws_codes w ∧ ws_errors (close_transport w) = ws_errors w
  ∧ ws_last (close_transport w) = ws_last w.
Proof. unfold close_transport. by destruct (ws_transport w) as [[]|]. Qed.

(** The socket the endpoint left open is closed with 1000; one it closed keeps
    its code. *)
Lemma finish_spec w :
  close_spec ->
  let '(w', r) := finish close w in
  r = Ok tt ∧ transport_closed w' ∧ (ws_closed w = true -> ws_codes w' = ws_codes w)
  ∧ (ws_closed w = false -> (close 1000 w).2 = Ok tt -> ws_closed w' = true ∧ ws_codes w' = ws_codes w ++ [1000]).
Proof.
  intros Hc. unfold finish. destruct (ws_closed w) eqn:Ew.
  - split_and!; [done|apply close_transport_closed| |done]. intros _. apply close_transport_rest.
  - specialize (Hc 1000 w). destruct (close 1000 w) as [w1 [[]|e]].
    + destruct Hc as (H1 & _ & H3). split_and!; [done|apply close_transport_closed|done|].
      intros _ _. destruct (close_transport_rest w1) as (-> & -> & _). done.
    + destruct Hc as [-> _]. split_and!; [done|apply close_transport_closed|done|done].
Qed.

(** Whatever the endpoint does, the transport is closed when the handler is
    done, and the socket too, with code 1000 unless the endpoint closed it; an
    exception never leaves the handler, unless it is no [Exception] and so
    none that applications handle. *)
Theorem websocket_endpoint_closed d w :
  close_spec ->
  let '(w1, r1) := call d w in
  let '(w', r) := _handle_websocket_inner call handlers close live d w in
  transport_closed w'
  ∧ (r1 = Ok tt -> r = Ok tt ∧ (ws_closed w1 = true -> ws_codes w' = ws_codes w1)
       ∧ (ws_closed w1 = false -> (close 1000 w1).2 = Ok tt -> ws_closed w' = true ∧ ws_codes w' = ws_codes w1 ++ [1000]))
  ∧ (∀ e, r = Raise e -> isinstance e $"Exception" = false).
Proof.
  intros Hc. destruct (call d w) as [w1 r1] eqn:Ec. unfold _handle_websocket_inner. rewrite Ec.
  assert (Hend : ∀ w2 r2, (∀ e, r2 = Raise e -> isinstance e $"Exception" = false) ->
    let '(w', f) := finish close w2 in
    transport_closed w' ∧ f = Ok tt ∧ ∀ e, (match f with Raise e => Raise e | Ok _ => r2 end : result unit) = Raise e -> isinstance e $"Exception" = false).
  { intros w2 r2 Hr. pose proof (finish_spec w2 Hc) as H. destruct (finish close w2) as [w' f].
    destruct H as (-> & Ht & _). auto. }
  assert (Hex : ∀ e w2, let '(_, r2) := on_exception handlers live e w2 in ∀ e', r2 = Raise e' -> isinstance e' $"Exception" = false).
  { intros e w2. unfold on_exception. destruct (_lookup_exception_handler _ e) as [h|]; [|done].
    destruct (h e (count_error w2)) as [w3 [[]|e']]; [done|]. destruct (isinstance e' $"Exception") eqn:E; [done|]. by intros ? [= <-]. }
  destruct r1 as [[]|e].
  - pose proof (finish_spec w1 Hc) as H. destruct (finish close w1) as [w' f]. destruct H as (-> & Ht & H1 & H2).
    split_and!; [done|done|done].
  - destruct (isinstance e $"WebSocketDisconnect").
    { specialize (Hend w1 (Ok tt)). destruct (finish close w1) as [w' f]. destruct Hend as (Ht & -> & Hr); [done|]. done. }
    destruct (isinstance e $"Exception") eqn:Ee.
    + specialize (Hex e w1). destruct (on_exception handlers live e w1) as [w2 r2]. specialize (Hend w2 r2 Hex).
      destruct (finish close w2) as [w' f]. destruct Hend as (Ht & -> & Hr). done.
    + specialize (Hend w1 (Raise e)). destruct (finish close w1) as [w' f].
      destruct Hend as (Ht & -> & Hr); [by intros ? [= <-]|]. done.
Qed.
End closing.
