(* ===== verification/Annotations.v ===== *)
(** * Annotations: Python annotations and the predicates of [_compat]

    Parameters of path operations are classified by their type annotations.
    This file models the annotations the code distinguishes ([ann]), the
    subclass tests it makes, the predicates of [_compat/shared.py] built on
    them, and the description of callables used by [dependencies/models.py]. *)

From S2P Require Import Prelude.

(** ** Classes and annotations *)

(** The classes the code tests for; [OtherC c hook] is any other class, with
    [hook] when it has a [__get_pydantic_core_schema__] attribute, and
    [BaseModelC None] is Pydantic's [BaseModel] itself. *)
Inductive cls : Type :=
  | StrC | BytesC | IntC | FloatC | BoolC | NoneTypeC
  | SequenceC | ListC | TupleC | SetC | FrozensetC | DequeC
  | MappingC | DictC | UploadFileC
  | BaseModelC (m : option Z)
  | DataclassC (d : Z)
  | RequestC | WebSocketC | HTTPConnectionC | ResponseC | BackgroundTasksC | SecurityScopesC
  | OtherC (c : Z) (hook : bool).

#[global] Instance cls_eq_dec : EqDecision cls.
Proof. solve_decision. Defined.

(** [issubclass(c, b)] *)
Definition issubclass (c b : cls) : bool :=
  bool_decide (c = b) ||
  match c, b with
  | BoolC, IntC => true
  | (StrC | BytesC | ListC | TupleC | DequeC), SequenceC => true
  | DictC, MappingC => true
  | BaseModelC _, BaseModelC None => true
  | (RequestC | WebSocketC), HTTPConnectionC => true
  | _, _ => false
  end.

(** [Generic o args] is [o[args]], [UnionA args] is [Union[args]] or
    [a | b], [AnnotatedA a] is [Annotated[a, ...]]. *)
Inductive ann : Type :=
  | Cls (c : cls)
  | Generic (origin : cls) (args : list ann)
  | UnionA (args : list ann)
  | AnnotatedA (a : ann)
  | AnyA
  | EllipsisA.

(** Induction that reaches the arguments of generics and unions. *)
Section ann_induction.
Context (P : ann -> Prop).
Context (HC : ∀ c, P (Cls c)) (HG : ∀ o args, Forall P args -> P (Generic o args)).
Context (HU : ∀ args, Forall P args -> P (UnionA args)) (HA : ∀ a, P a -> P (AnnotatedA a)).
Context (HY : P AnyA) (HE : P EllipsisA).

Fixpoint ann_nested_ind (a : ann) : P a :=
  let all := fix all (l : list ann) : Forall P l :=
    match l with
    | [] => Forall_nil_2 P
    | x :: l' => Forall_cons_2 P x l' (ann_nested_ind x) (all l')
    end in
  match a with
  | Cls c => HC c
  | Generic o args => HG o args (all args)
  | UnionA args => HU args (all args)
  | AnnotatedA a' => HA a' (ann_nested_ind a')
  | AnyA => HY
  | EllipsisA => HE
  end.
End ann_induction.

(** [lenient_issubclass]: [False] for what is not a class. *)
Definition lenient_issubclass (a : ann) (bases : list cls) : bool :=
  match a with
  | Cls c => existsb (issubclass c) bases
  | _ => false
  end.

Definition sequence_types : list cls := [SequenceC; ListC; TupleC; SetC; FrozensetC; DequeC].

Definition _annotation_is_sequence (a : ann) : bool :=
  if lenient_issubclass a [StrC; BytesC] then false else lenient_issubclass a sequence_types.

(** [get_origin(annotation)] of an annotation that is no union, as an
    annotation: the class of a generic; [Annotated] itself and [None] answer
    every subclass test with [False]. *)
Definition class_origin (a : ann) : ann :=
  match a with
  | Generic o _ => Cls o
  | _ => AnyA
  end.

Definition get_args (a : ann) : list ann :=
  match a with
  | Generic _ args | UnionA args => args
  | AnnotatedA a' => [a']
  | _ => []
  end.

Fixpoint field_annotation_is_sequence (a : ann) : bool :=
  match a with
  | UnionA args => existsb field_annotation_is_sequence args
  | _ => _annotation_is_sequence a || _annotation_is_sequence (class_origin a)
  end.

Definition is_dataclass (a : ann) : bool :=
  match a with Cls (DataclassC _) => true | _ => false end.

Definition _annotation_is_complex (a : ann) : bool :=
  lenient_issubclass a [BaseModelC None; MappingC; UploadFileC]
  || _annotation_is_sequence a
  || is_dataclass a.

(** [hasattr(origin, "__pydantic_core_schema__")] or its getter. *)
Definition has_core_schema (a : ann) : bool :=
  match a with
  | Cls (BaseModelC _) => true
  | Cls (OtherC _ hook) => hook
  | _ => false
  end.

Fixpoint field_annotation_is_complex (a : ann) : bool :=
  match a with
  | UnionA args => existsb field_annotation_is_complex args
  | AnnotatedA a' => field_annotation_is_complex a'
  | _ =>
      _annotation_is_complex a
      || _annotation_is_complex (class_origin a)
      || has_core_schema (class_origin a)
  end.

Definition field_annotation_is_scalar (a : ann) : bool :=
  match a with
  | EllipsisA => true
  | _ => negb (field_annotation_is_complex a)
  end.

(** The loop of the union case: [None] is the early [return False]. *)
Fixpoint field_annotation_is_scalar_sequence (a : ann) : bool :=
  match a with
  | UnionA args =>
      let loop := fix loop (args : list ann) (at_least_one : bool) : bool :=
        match args with
        | [] => at_least_one
        | arg :: args' =>
            if field_annotation_is_scalar_sequence arg then loop args' true
            else if negb (field_annotation_is_scalar arg) then false
            else loop args' at_least_one
        end in
      loop args false
  | _ => field_annotation_is_sequence a && forallb field_annotation_is_scalar (get_args a)
  end.

Definition is_bytes_or_nonable_bytes_annotation (a : ann) : bool :=
  if lenient_issubclass a [BytesC] then true
  else match a with
       | UnionA args => existsb (fun arg => lenient_issubclass arg [BytesC]) args
       | _ => false
       end.

Definition is_uploadfile_or_nonable_uploadfile_annotation (a : ann) : bool :=
  if lenient_issubclass a [UploadFileC] then true
  else match a with
       | UnionA args => existsb (fun arg => lenient_issubclass arg [UploadFileC]) args
       | _ => false
       end.

Fixpoint is_bytes_sequence_annotation (a : ann) : bool :=
  match a with
  | UnionA args => existsb is_bytes_sequence_annotation args
  | _ => field_annotation_is_sequence a && forallb is_bytes_or_nonable_bytes_annotation (get_args a)
  end.

Fixpoint is_uploadfile_sequence_annotation (a : ann) : bool :=
  match a with
  | UnionA args => existsb is_uploadfile_sequence_annotation args
  | _ =>
      field_annotation_is_sequence a
      && forallb is_uploadfile_or_nonable_uploadfile_annotation (get_args a)
  end.

(** [is_union_of_base_models] of [dependencies/utils.py]. *)
Definition is_union_of_base_models (a : ann) : bool :=
  match a with
  | UnionA args => forallb (fun arg => lenient_issubclass arg [BaseModelC None]) args
  | _ => false
  end.

(** ** Callables *)

(** What [inspect] finds in the code flags of a function. *)
Inductive fkind : Type := Sync | Gen | AsyncGen | Coro.

#[global] Instance fkind_eq_dec : EqDecision fkind.
Proof. solve_decision. Defined.

(** A callable: a function; a function with a [__wrapped__] attribute; a
    [functools.partial]; a class; an object with a [__call__] method, which may
    be an instance of [SecurityBase]. *)
Inductive pycall : Type :=
  | Function (k : fkind)
  | Decorated (k : fkind) (wrapped : pycall)
  | Partial (func : pycall)
  | PyClass
  | Object (dunder : pycall) (security : bool).

Fixpoint _impartial (f : pycall) : pycall :=
  match f with
  | Partial f' => _impartial f'
  | _ => f
  end.

(** [inspect.unwrap] follows [__wrapped__]. *)
Fixpoint unwrap (f : pycall) : pycall :=
  match f with
  | Decorated _ w => unwrap w
  | _ => f
  end.

Definition _unwrapped_call (f : pycall) : pycall := unwrap (_impartial f).

(** The code flags [inspect.isgeneratorfunction] and its variants look at:
    those of the function under any partials, none for classes and objects. *)
Definition code_flag (f : pycall) : fkind :=
  match _impartial f with
  | Function k | Decorated k _ => k
  | _ => Sync
  end.

(** [getattr(f, "__call__", None)]; that of a function, class or partial is a
    slot wrapper, which has no code flags. *)
Definition dunder_call (f : pycall) : pycall :=
  match f with
  | Object m _ => m
  | _ => Function Sync
  end.

Definition is_class (f : pycall) : bool := match f with PyClass => true | _ => false end.

Definition isroutine (f : pycall) : bool :=
  match f with Function _ | Decorated _ _ => true | _ => false end.

(** The common text of [is_gen_callable] and [is_async_gen_callable]. *)
Definition has_flag_callable (k : fkind) (call : pycall) : bool :=
  let flagged f := bool_decide (code_flag f = k) in
  if flagged (_impartial call) || flagged (_unwrapped_call call) then true
  else if is_class (_unwrapped_call call) then false
  else
    let dunder := dunder_call (_impartial call) in
    if flagged (_impartial dunder) || flagged (_unwrapped_call dunder) then true
    else
      let dunder_unwrapped := dunder_call (_unwrapped_call call) in
      flagged (_impartial dunder_unwrapped) || flagged (_unwrapped_call dunder_unwrapped).

Definition is_gen_callable (call : pycall) : bool := has_flag_callable Gen call.
Definition is_async_gen_callable (call : pycall) : bool := has_flag_callable AsyncGen call.

Definition is_coroutine_callable (call : pycall) : bool :=
  let flagged f := bool_decide (code_flag f = Coro) in
  if isroutine (_impartial call) && flagged (_impartial call) then true
  else if isroutine (_unwrapped_call call) && flagged (_unwrapped_call call) then true
  else if is_class (_unwrapped_call call) then false
  else
    let dunder := dunder_call (_impartial call) in
    if flagged (_impartial dunder) || flagged (_unwrapped_call dunder) then true
    else
      let dunder_unwrapped := dunder_call (_unwrapped_call call) in
      flagged (_impartial dunder_unwrapped) || flagged (_unwrapped_call dunder_unwrapped).

Definition is_security_scheme (call : pycall) : bool :=
  match _unwrapped_call call with Object _ security => security | _ => false end.
