(* ===== verification/Dependants.v ===== *)
(** * Dependants: how the parameters of a callable are classified

    The data model of [dependencies/models.py] and the functions of
    [dependencies/utils.py] that build it: [analyze_param], [get_dependant],
    [get_flat_dependant] and [get_flat_params]. *)

From S2P Require Import Prelude PyStr Asgi Annotations.

(** ** Values *)
Inductive seq_kind : Type := KList | KTuple | KSet | KFrozenset | KDeque.

(** The Python values that reach a path operation; [VUpload f] is the upload
    file with identity [f], [VObject o] any other object. *)
Inductive value : Type :=
  | VNone
  | VStr (s : str)
  | VBytes (b : bytes)
  | VBool (b : bool)
  | VInt (z : Z)
  | VFloat (f : float64)
  | VSeq (k : seq_kind) (l : list value)
  | VDict (d : list (str * value))
  | VUpload (f : nat)
  | VRequest
  | VResponse (r : Z)
  | VBackgroundTasks (b : Z)
  | VSecurityScopes (scopes : list str)
  | VObject (o : Z).

(** ** Field information and model fields *)
Inductive ParamTypes : Type := query | header | path | cookie.

#[global] Instance ParamTypes_eq_dec : EqDecision ParamTypes.
Proof. solve_decision. Defined.

Definition in_value (t : ParamTypes) : str :=
  match t with
  | query => $"query"
  | header => $"header"
  | path => $"path"
  | cookie => $"cookie"
  end.

(** The classes of [params.py]; [PlainInfo] is Pydantic's [FieldInfo]. *)
Inductive info_class : Type :=
  | ParamI | PathI | QueryI | HeaderI | CookieI | BodyI | FormI | FileI | PlainInfo.

#[global] Instance info_class_eq_dec : EqDecision info_class.
Proof. solve_decision. Defined.

Definition is_Param (c : info_class) : bool :=
  match c with ParamI | PathI | QueryI | HeaderI | CookieI => true | _ => false end.
Definition is_Form (c : info_class) : bool :=
  match c with FormI | FileI => true | _ => false end.
Definition is_Body (c : info_class) : bool :=
  match c with BodyI | FormI | FileI => true | _ => false end.

Definition class_name (c : info_class) : str :=
  match c with
  | ParamI => $"Param" | PathI => $"Path" | QueryI => $"Query" | HeaderI => $"Header"
  | CookieI => $"Cookie" | BodyI => $"Body" | FormI => $"Form" | FileI => $"File"
  | PlainInfo => $"FieldInfo"
  end.

(** [fi_default = None] is [PydanticUndefined]; [fi_convert_underscores] is
    [None] on the classes that have no such attribute, and so is [fi_embed];
    [fi_json] says that the metadata holds a [Json] marker; [fi_own_in] is the
    [in_] attribute of an instance of the base class [Param]. *)
Record FieldInfo : Type := mkInfo {
  fi_class : info_class;
  fi_own_in : option ParamTypes;
  fi_annotation : ann;
  fi_default : option value;
  fi_alias : option str;
  fi_validation_alias : option str;
  fi_convert_underscores : option bool;
  fi_embed : option bool;
  fi_json : bool
}.

(** [in_] is a class attribute of the subclasses of [Param]. *)
Definition fi_in (fi : FieldInfo) : option ParamTypes :=
  match fi_class fi with
  | PathI => Some path
  | QueryI => Some query
  | HeaderI => Some header
  | CookieI => Some cookie
  | ParamI => fi_own_in fi
  | _ => None
  end.

Record ModelField : Type := mkField { field_info : FieldInfo; field_name : str }.

Definition alias (f : ModelField) : str := get_or (fi_alias (field_info f)) (field_name f).

Definition validation_alias (f : ModelField) : option str :=
  match fi_validation_alias (field_info f) with
  | Some ((_ :: _) as va) => Some va
  | _ => None
  end.

Definition required (f : ModelField) : bool :=
  match fi_default (field_info f) with None => true | Some _ => false end.

(** [field.default]; only read when the field is not required. *)
Definition default (f : ModelField) : value := get_or (fi_default (field_info f)) VNone.

Definition type_ (f : ModelField) : ann := fi_annotation (field_info f).

Definition get_validation_alias (f : ModelField) : str := get_or (validation_alias f) (alias f).

Definition is_scalar_field (f : ModelField) : bool :=
  field_annotation_is_scalar (type_ f) && negb (is_Body (fi_class (field_info f))).
Definition is_sequence_field (f : ModelField) : bool := field_annotation_is_sequence (type_ f).
Definition is_scalar_sequence_field (f : ModelField) : bool :=
  field_annotation_is_scalar_sequence (type_ f).
Definition is_bytes_field (f : ModelField) : bool := is_bytes_or_nonable_bytes_annotation (type_ f).
Definition is_bytes_sequence_field (f : ModelField) : bool := is_bytes_sequence_annotation (type_ f).

Definition is_model_field (f : ModelField) : bool := lenient_issubclass (type_ f) [BaseModelC None].

(** ** Dependencies *)

(** Callables are named by a number; the world of user code says what each
    one is. *)
Abbreviation call := Z.

Inductive dep_scope : Type := function_scope | request_scope.

#[global] Instance dep_scope_eq_dec : EqDecision dep_scope.
Proof. solve_decision. Defined.

Definition scope_str (s : dep_scope) : str :=
  match s with function_scope => $"function" | request_scope => $"request" end.

(** [params.Depends]; [security_scopes] is [Some] for its subclass
    [params.Security]. *)
Record Depends : Type := mkDepends {
  dependency : option call;
  dep_use_cache : bool;
  dep_scope_ : option dep_scope;
  security_scopes : option (option (list str))
}.

(** The metadata of an [Annotated] parameter. *)
Inductive meta : Type :=
  | MField (fi : FieldInfo)
  | MDepends (d : Depends)
  | MOther (json : bool).

Inductive written : Type := Plain (a : ann) | AnnotatedP (a : ann) (metas : list meta).

(** The annotation of a parameter; [TypeAlias] is a PEP 695 alias. *)
Inductive param_ann : Type := EmptyA | Written (w : written) | TypeAlias (w : written).

Inductive param_default : Type :=
  | EmptyD
  | DDepends (d : Depends)
  | DField (fi : FieldInfo)
  | DValue (v : value).

(** The world the classification looks at: what the callables are, their
    signatures, which callable a class is, the fields of a Pydantic model and
    whether python-multipart is installed. *)
Record Program : Type := mkProgram {
  callable : call -> pycall;
  call_name : call -> str;
  signature : call -> list (str * (param_ann * param_default));
  class_call : ann -> call;
  model_fields : ann -> list (str * FieldInfo);
  multipart_installed : bool
}.

(** [get_model_fields] *)
Definition get_model_fields (pr : Program) (model : ann) : list ModelField :=
  (fun '(name, fi) => mkField fi name) <$> model_fields pr model.

(** The parameter lists of a [Dependant], the names of its special
    parameters, its remaining attributes, and the tree of sub-dependants. *)
Record DepParams : Type := mkParams {
  path_params : list ModelField;
  query_params : list ModelField;
  header_params : list ModelField;
  cookie_params : list ModelField;
  body_params : list ModelField
}.

Definition no_params : DepParams := mkParams [] [] [] [] [].

Record DepNames : Type := mkNames {
  request_param_name : option str;
  websocket_param_name : option str;
  http_connection_param_name : option str;
  response_param_name : option str;
  background_tasks_param_name : option str;
  security_scopes_param_name : option str
}.

Definition no_names : DepNames := mkNames None None None None None None.

Record DepInfo : Type := mkDepInfo {
  dep_name : option str;
  dep_call : call;
  own_oauth_scopes : option (list str);
  parent_oauth_scopes : option (list str);
  use_cache : bool;
  dep_path : str;
  scope : option dep_scope
}.

Inductive Dependant : Type :=
  mkDependant (info : DepInfo) (params : DepParams) (names : DepNames) (deps : list Dependant).

Definition info (d : Dependant) : DepInfo := let '(mkDependant i _ _ _) := d in i.
Definition params (d : Dependant) : DepParams := let '(mkDependant _ p _ _) := d in p.
Definition names (d : Dependant) : DepNames := let '(mkDependant _ _ n _) := d in n.
Definition dependencies (d : Dependant) : list Dependant := let '(mkDependant _ _ _ s) := d in s.

Section dependant_induction.
Context (P : Dependant -> Prop).
Context (H : ∀ i p n deps, Forall P deps -> P (mkDependant i p n deps)).

Fixpoint dependant_nested_ind (d : Dependant) : P d :=
  let all := fix all (l : list Dependant) : Forall P l :=
    match l with
    | [] => Forall_nil_2 P
    | x :: l' => Forall_cons_2 P x l' (dependant_nested_ind x) (all l')
    end in
  let '(mkDependant i p n deps) := d in H i p n deps (all deps).
End dependant_induction.

(** ** Properties of a dependant *)

(** [oauth_scopes]: the parent's scopes, then the own ones not yet there. *)
Definition oauth_scopes (d : Dependant) : list str :=
  foldl (fun scopes s => if bool_decide (s ∈ scopes) then scopes else scopes ++ [s])
    (get_or (parent_oauth_scopes (info d)) [])
    (get_or (own_oauth_scopes (info d)) []).

(** [sorted(set(l))] on strings: insertion into a list without repetitions. *)
Fixpoint str_ltb (a b : str) : bool :=
  match a, b with
  | [], _ :: _ => true
  | x :: a', y :: b' => (x <? y)%N || ((x =? y)%N && str_ltb a' b')
  | _, [] => false
  end.

Fixpoint insert_scope (s : str) (l : list str) : list str :=
  match l with
  | [] => [s]
  | t :: l' =>
      if str_ltb s t then s :: l
      else if bool_decide (s = t) then l
      else t :: insert_scope s l'
  end.

Definition sorted_set (l : list str) : list str := foldr insert_scope [] l.

Section program.
Context (pr : Program).

Definition _is_security_scheme (d : Dependant) : bool :=
  is_security_scheme (callable pr (dep_call (info d))).

Fixpoint _uses_scopes (d : Dependant) : bool :=
  let '(mkDependant i _ n deps) := d in
  match own_oauth_scopes i with
  | Some (_ :: _) => true
  | _ =>
      match security_scopes_param_name n with
      | Some _ => true
      | None =>
          if is_security_scheme (callable pr (dep_call i)) then true
          else existsb _uses_scopes deps
      end
  end.

Definition is_generator (c : call) : bool :=
  is_gen_callable (callable pr c) || is_async_gen_callable (callable pr c).

Definition computed_scope (i : DepInfo) : option dep_scope :=
  match scope i with
  | Some s => Some s
  | None => if is_generator (dep_call i) then Some request_scope else None
  end.

Definition CacheKey : Type := call * list str * str.

#[global] Instance CacheKey_eq_dec : EqDecision CacheKey.
Proof. solve_decision. Defined.

Definition cache_key (d : Dependant) : CacheKey :=
  let scopes_for_cache := if _uses_scopes d then sorted_set (oauth_scopes d) else [] in
  let computed :=
    match computed_scope (info d) with Some s => scope_str s | None => [] end in
  (dep_call (info d), scopes_for_cache, computed).
End program.

(** ** Classification of parameters *)

Definition special_types : list cls :=
  [RequestC; WebSocketC; HTTPConnectionC; ResponseC; BackgroundTasksC; SecurityScopesC].

Record ParamDetails : Type := mkDetails {
  type_annotation : ann;
  depends : option Depends;
  field : option ModelField
}.

(** [{name!r}] of a parameter name, an identifier. *)
Definition repr_name (name : str) : str := $"'" ++ name ++ $"'".

Definition special_repr (a : ann) : str :=
  match a with
  | Cls RequestC => $"<class 'astraapi._request.Request'>"
  | Cls WebSocketC => $"<class 'astraapi._websocket.WebSocket'>"
  | Cls HTTPConnectionC => $"<class 'astraapi._request.HTTPConnection'>"
  | Cls ResponseC => $"<class 'astraapi._response.Response'>"
  | Cls BackgroundTasksC => $"<class 'astraapi._background.BackgroundTasks'>"
  | _ => $"<class 'astraapi.security.oauth2.SecurityScopes'>"
  end.

Definition msg_default_in_annotated (fi : FieldInfo) (name : str) : str :=
  $"`" ++ class_name (fi_class fi) ++ $"` default value cannot be set in `Annotated` for "
  ++ repr_name name ++ $". Set the default value with `=` instead.".
Definition msg_path_default : str := $"Path parameters cannot have default values".
Definition msg_two_depends (name : str) : str :=
  $"Cannot specify `Depends` in `Annotated` and default value together for " ++ repr_name name.
Definition msg_annotated_depends (name : str) : str :=
  $"Cannot specify a AstraAPI annotation in `Annotated` and `Depends` as a default value together for "
  ++ repr_name name.
Definition msg_two_infos (name : str) : str :=
  $"Cannot specify AstraAPI annotations in `Annotated` and default value together for "
  ++ repr_name name.
Definition msg_special (a : ann) : str :=
  $"Cannot specify AstraAPI annotation for type " ++ special_repr a.
Definition msg_not_path (fi : FieldInfo) (name : str) : str :=
  $"Cannot use `" ++ class_name (fi_class fi) ++ $"` for path param " ++ repr_name name.
Definition msg_path_type : str := $"Path params must be of one of the supported types".
Definition msg_query_type (name : str) : str :=
  $"Query parameter " ++ repr_name name ++ $" must be one of the supported types".
Definition msg_multiple (name : str) : str :=
  $"Cannot specify multiple AstraAPI annotations for " ++ repr_name name.
Definition msg_not_param (f : ModelField) : str :=
  $"non-body parameters must be in path, query, header or cookie: " ++ field_name f.
Definition dquoted (s : str) : str := 34%N :: s ++ [34%N].
Definition multipart_not_installed_error : str :=
  $"Form data requires " ++ dquoted $"python-multipart" ++ $" to be installed. " ++ [10%N]
  ++ $"You can install " ++ dquoted $"python-multipart" ++ $" with: " ++ [10%N; 10%N]
  ++ $"pip install python-multipart" ++ [10%N].

(** The annotation and metadata of a parameter: [Any] without annotation, the
    type and metadata of [Annotated]. *)
Definition split_written (w : written) : ann * list meta :=
  match w with
  | Plain (AnnotatedA a) => (a, [])
  | Plain a => (a, [])
  | AnnotatedP a metas => (a, metas)
  end.

Definition split_annotation (p : param_ann) : ann * list meta :=
  match p with
  | EmptyA => (AnyA, [])
  | Written w | TypeAlias w => split_written w
  end.

(** [astraapi_specific_annotations[-1]], if any. *)
Definition is_specific (m : meta) : bool :=
  match m with
  | MField fi => is_Param (fi_class fi) || is_Body (fi_class fi)
  | MDepends _ => true
  | MOther _ => false
  end.

Definition specific_annotation (metas : list meta) : option meta :=
  last (filter (fun m => is_specific m = true) metas).

Definition metas_json (metas : list meta) : bool :=
  existsb (fun m => match m with MField fi => fi_json fi | MOther j => j | MDepends _ => false end)
    metas.

Definition info_with_default (fi : FieldInfo) (v : option value) : FieldInfo :=
  mkInfo (fi_class fi) (fi_own_in fi) (fi_annotation fi) v (fi_alias fi) (fi_validation_alias fi)
    (fi_convert_underscores fi) (fi_embed fi) (fi_json fi).
Definition info_with_in (fi : FieldInfo) (t : option ParamTypes) : FieldInfo :=
  mkInfo (fi_class fi) t (fi_annotation fi) (fi_default fi) (fi_alias fi) (fi_validation_alias fi)
    (fi_convert_underscores fi) (fi_embed fi) (fi_json fi).
Definition info_with_alias (fi : FieldInfo) (a : str) : FieldInfo :=
  mkInfo (fi_class fi) (fi_own_in fi) (fi_annotation fi) (fi_default fi) (Some a)
    (fi_validation_alias fi) (fi_convert_underscores fi) (fi_embed fi) (fi_json fi).
Definition info_with_annotation (fi : FieldInfo) (a : ann) : FieldInfo :=
  mkInfo (fi_class fi) (fi_own_in fi) a (fi_default fi) (fi_alias fi) (fi_validation_alias fi)
    (fi_convert_underscores fi) (fi_embed fi) (fi_json fi).

(** [copy_field_info]: the metadata and the annotation come from the
    [Annotated] annotation. *)
Definition copy_field_info (fi : FieldInfo) (a : ann) (metas : list meta) : FieldInfo :=
  mkInfo (fi_class fi) (fi_own_in fi) a (fi_default fi) (fi_alias fi) (fi_validation_alias fi)
    (fi_convert_underscores fi) (fi_embed fi) (metas_json metas).

(** [params.Path(annotation=a)] and the like. *)
Definition new_info (c : info_class) (a : ann) (d : option value) (json : bool) : FieldInfo :=
  mkInfo c None a d None None None None json.

(** The first half of [analyze_param]: the field information and the
    dependency found in the annotation. *)
Definition from_annotated (name : str) (a : ann) (metas : list meta) (value : param_default)
    (is_path_param : bool) : result (option FieldInfo * option Depends) :=
  match specific_annotation metas with
  | Some (MField fi0) =>
      let fi := copy_field_info fi0 a metas in
      let! _ := py_assert (match fi_default fi with None => true | Some _ => false end)
                  (msg_default_in_annotated fi name) in
      match value with
      | EmptyD => Ok (Some (info_with_default fi None), None)
      | _ =>
          let! _ := py_assert (negb is_path_param) msg_path_default in
          Ok (Some (match value with
                    | DValue v => info_with_default fi (Some v)
                    | _ => fi
                    end), None)
      end
  | Some (MDepends d) => Ok (None, Some d)
  | _ => Ok (None, None)
  end.

(** The dependency or field information given as default value. *)
Definition from_default (name : str) (a : ann) (value : param_default)
    (found : option FieldInfo * option Depends) : result (option FieldInfo * option Depends) :=
  let '(fi, dep) := found in
  match value with
  | DDepends d =>
      let! _ := py_assert (negb (bool_decide (is_Some dep))) (msg_two_depends name) in
      let! _ := py_assert (negb (bool_decide (is_Some fi))) (msg_annotated_depends name) in
      Ok (fi, Some d)
  | DField fi' =>
      let! _ := py_assert (negb (bool_decide (is_Some fi))) (msg_two_infos name) in
      Ok (Some (info_with_annotation fi' a), dep)
  | _ => Ok (fi, dep)
  end.

(** Neither given: the class of parameter the type and the path imply. *)
Definition implied_info (a : ann) (json : bool) (value : param_default) (is_path_param : bool)
    : FieldInfo :=
  let default_value := match value with DValue v => Some v | _ => None end in
  if is_path_param then new_info PathI a None json
  else if is_uploadfile_or_nonable_uploadfile_annotation a || is_uploadfile_sequence_annotation a
  then new_info FileI a default_value json
  else if negb (field_annotation_is_scalar a) then new_info BodyI a default_value json
  else new_info QueryI a default_value json.

Definition in_default (fi : FieldInfo) : FieldInfo :=
  match fi_in fi with
  | None => if is_Param (fi_class fi) then info_with_in fi (Some query) else fi
  | Some _ => fi
  end.

(** The alias a field gets from its information and its name. *)
Definition param_alias (fi : FieldInfo) (name : str) : str :=
  match fi_alias fi with
  | Some ((_ :: _) as a) => a
  | _ =>
      match fi_convert_underscores fi with
      | Some true => replace_char 95 45 name
      | _ => name
      end
  end.

(** The second half: the model field of a field information, for an annotation
    that Pydantic accepts. *)
Definition build_field (multipart : bool) (name : str) (fi0 : FieldInfo) (is_path_param : bool)
    : result ModelField :=
  let! fi1 :=
    if is_path_param then
      let! _ := py_assert (bool_decide (fi_class fi0 = PathI)) (msg_not_path fi0 name) in Ok fi0
    else Ok (in_default fi0) in
  let! _ :=
    if is_Form (fi_class fi1) && negb multipart then Raise (RuntimeError multipart_not_installed_error)
    else Ok tt in
  let f := mkField (info_with_alias fi1 (param_alias fi1 name)) name in
  let! _ :=
    if is_path_param then py_assert (is_scalar_field f) msg_path_type
    else if bool_decide (fi_class fi1 = QueryI) then
      py_assert (is_scalar_field f || is_scalar_sequence_field f || is_model_field f)
        (msg_query_type name)
    else Ok tt in
  Ok f.

Definition resolve_dependency (pr : Program) (a : ann) (d : Depends) : Depends :=
  match dependency d with
  | Some _ => d
  | None =>
      mkDepends (Some (class_call pr a)) (dep_use_cache d) (dep_scope_ d) (security_scopes d)
  end.

Definition analyze_param (pr : Program) (name : str) (annotation : param_ann)
    (value : param_default) (is_path_param : bool) : result ParamDetails :=
  let '(a, metas) := split_annotation annotation in
  let! found := from_annotated name a metas value is_path_param in
  let! (fi, dep) := from_default name a value found in
  let dep := resolve_dependency pr a <$> dep in
  if lenient_issubclass a special_types then
    let! _ :=
      match dep with
      | None => py_assert (negb (bool_decide (is_Some fi))) (msg_special a)
      | Some _ => Ok tt
      end in
    Ok (mkDetails a dep None)
  else
    let fi :=
      match fi, dep with
      | None, None => Some (implied_info a (metas_json metas) value is_path_param)
      | _, _ => fi
      end in
    match fi with
    | None => Ok (mkDetails a dep None)
    | Some fi =>
        let! f := build_field (multipart_installed pr) name fi is_path_param in
        Ok (mkDetails a dep (Some f))
    end.

(** ** Building the tree *)

(** [get_path_param_names]: the matches of [{(.*?)}], where the dot does not
    match a newline; [read_name s] reads up to the closing brace. *)
Fixpoint read_name (s : str) : option (str * str) :=
  match s with
  | [] => None
  | c :: s' =>
      if (c =? 125)%N then Some ([], s')
      else if (c =? 10)%N then None
      else match read_name s' with
           | Some (n, rest) => Some (c :: n, rest)
           | None => None
           end
  end.

Fixpoint scan_names (fuel : nat) (s : str) : list str :=
  match fuel, s with
  | S fuel', c :: s' =>
      if (c =? 123)%N then
        match read_name s' with
        | Some (n, rest) => n :: scan_names fuel' rest
        | None => scan_names fuel' s'
        end
      else scan_names fuel' s'
  | _, _ => []
  end.

Definition get_path_param_names (p : str) : list str := scan_names (length p) p.

(** [add_non_field_param_to_dependency] *)
Definition add_non_field_param_to_dependency (name : str) (a : ann) (n : DepNames)
    : option DepNames :=
  let '(mkNames r w h p b s) := n in
  if lenient_issubclass a [RequestC] then Some (mkNames (Some name) w h p b s)
  else if lenient_issubclass a [WebSocketC] then Some (mkNames r (Some name) h p b s)
  else if lenient_issubclass a [HTTPConnectionC] then Some (mkNames r w (Some name) p b s)
  else if lenient_issubclass a [ResponseC] then Some (mkNames r w h (Some name) b s)
  else if lenient_issubclass a [BackgroundTasksC] then Some (mkNames r w h p (Some name) s)
  else if lenient_issubclass a [SecurityScopesC] then Some (mkNames r w h p b (Some name))
  else None.

Definition add_param_to_fields (f : ModelField) (ps : DepParams) : result DepParams :=
  let '(mkParams pp qp hp cp bp) := ps in
  match fi_in (field_info f) with
  | Some path => Ok (mkParams (pp ++ [f]) qp hp cp bp)
  | Some query => Ok (mkParams pp (qp ++ [f]) hp cp bp)
  | Some header => Ok (mkParams pp qp (hp ++ [f]) cp bp)
  | Some cookie => Ok (mkParams pp qp hp (cp ++ [f]) bp)
  | None => Raise (AssertionError (msg_not_param f))
  end.

Definition add_body_param (f : ModelField) (ps : DepParams) : DepParams :=
  let '(mkParams pp qp hp cp bp) := ps in mkParams pp qp hp cp (bp ++ [f]).

Definition msg_scope (name : str) : str :=
  $"The dependency " ++ dquoted name ++ $" has a scope of " ++ dquoted $"request"
  ++ $", it cannot depend on dependencies with scope " ++ dquoted $"function" ++ $".".

(** The scopes a [Security] dependency adds. *)
Definition sub_scopes (d : Depends) : list str :=
  match security_scopes d with Some (Some l) => l | _ => [] end.

(** One parameter of the signature; [sub] builds a sub-dependant. *)
Definition dependant_param (pr : Program) (i : DepInfo)
    (sub : DepInfo -> result Dependant)
    (acc : DepParams * DepNames * list Dependant) (param : str * (param_ann * param_default))
    : result (DepParams * DepNames * list Dependant) :=
  let '(ps, ns, deps) := acc in
  let '(name, (annotation, value)) := param in
  let is_path_param := bool_decide (name ∈ get_path_param_names (dep_path i)) in
  let! details := analyze_param pr name annotation value is_path_param in
  match depends details with
  | Some d =>
      match dependency d with
      | None => Raise (AssertionError [])
      | Some c =>
          if is_generator pr (dep_call i) && bool_decide (computed_scope pr i = Some request_scope)
             && bool_decide (dep_scope_ d = Some function_scope)
          then Raise (DependencyScopeError (msg_scope (call_name pr (dep_call i))))
          else
            let current_scopes :=
              get_or (parent_oauth_scopes i) [] ++ get_or (own_oauth_scopes i) [] in
            let! sub_dependant :=
              sub (mkDepInfo (Some name) c (Some (sub_scopes d)) (Some current_scopes)
                     (dep_use_cache d) (dep_path i) (dep_scope_ d)) in
            Ok (ps, ns, deps ++ [sub_dependant])
      end
  | None =>
      match add_non_field_param_to_dependency name (type_annotation details) ns with
      | Some ns' =>
          let! _ := py_assert (negb (bool_decide (is_Some (field details)))) (msg_multiple name) in
          Ok (ps, ns', deps)
      | None =>
          match field details with
          | None => Raise (AssertionError [])
          | Some f =>
              if is_Body (fi_class (field_info f)) then Ok (add_body_param f ps, ns, deps)
              else let! ps' := add_param_to_fields f ps in Ok (ps', ns, deps)
          end
      end
  end.

(** [get_dependant]; a chain of dependencies deeper than the stack is a
    [RecursionError]. *)
Fixpoint get_dependant (pr : Program) (fuel : nat) (i : DepInfo) : result Dependant :=
  match fuel with
  | O => Raise RecursionError
  | S fuel' =>
      let! (ps, ns, deps) :=
        rfold (dependant_param pr i (get_dependant pr fuel')) (no_params, no_names, [])
          (signature pr (dep_call i)) in
      Ok (mkDependant i ps ns deps)
  end.

(** [get_parameterless_sub_dependant]: a dependency of the route itself. *)
Definition get_parameterless_sub_dependant (pr : Program) (fuel : nat) (d : Depends) (p : str)
    : result Dependant :=
  match dependency d with
  | None =>
      Raise (AssertionError $"A parameter-less dependency must have a callable dependency")
  | Some c =>
      get_dependant pr fuel (mkDepInfo None c (Some (sub_scopes d)) None true p (dep_scope_ d))
  end.

(** ** Flattening *)
Definition app_params (a b : DepParams) : DepParams :=
  mkParams (path_params a ++ path_params b) (query_params a ++ query_params b)
    (header_params a ++ header_params b) (cookie_params a ++ cookie_params b)
    (body_params a ++ body_params b).

Section flatten.
Context (pr : Program) (skip_repeats : bool).

(** The loop over the sub-dependants; [rec] flattens one of them. *)
Section loop.
Context (rec : list CacheKey -> Dependant -> Dependant * list CacheKey).

Fixpoint flat_loop (visited : list CacheKey) (acc : DepParams * list Dependant)
    (subs : list Dependant) : DepParams * list Dependant * list CacheKey :=
  match subs with
  | [] => (acc, visited)
  | sub :: subs' =>
      if skip_repeats && bool_decide (cache_key pr sub ∈ visited) then flat_loop visited acc subs'
      else
        let '(flat_sub, visited') := rec visited sub in
        flat_loop visited'
          (app_params acc.1 (params flat_sub), acc.2 ++ flat_sub :: dependencies flat_sub) subs'
  end.
End loop.

(** [get_flat_dependant] with its [visited] set, which the calls share. *)
Fixpoint get_flat_dependant (parent_scopes : option (list str)) (visited : list CacheKey)
    (d : Dependant) {struct d} : Dependant * list CacheKey :=
  let '(mkDependant i ps ns deps) := d in
  let use_parent := get_or (own_oauth_scopes i) [] ++ get_or parent_scopes [] in
  let flat_info :=
    mkDepInfo (dep_name i) (dep_call i) (own_oauth_scopes i) (Some use_parent) (use_cache i)
      (dep_path i) (scope i) in
  let flat_scopes := oauth_scopes (mkDependant flat_info ps ns []) in
  let '((flat_params, flat_deps), visited') :=
    flat_loop (get_flat_dependant (Some flat_scopes)) (cache_key pr d :: visited) (ps, []) deps in
  (mkDependant flat_info flat_params ns flat_deps, visited').
End flatten.

Definition _get_flat_fields_from_params (pr : Program) (fields : list ModelField)
    : list ModelField :=
  match fields with
  | [f] => if is_model_field f then get_model_fields pr (type_ f) else fields
  | _ => fields
  end.

Definition get_flat_params (pr : Program) (d : Dependant) : list ModelField :=
  let flat := params (get_flat_dependant pr true None [] d).1 in
  _get_flat_fields_from_params pr (path_params flat)
  ++ _get_flat_fields_from_params pr (query_params flat)
  ++ _get_flat_fields_from_params pr (header_params flat)
  ++ _get_flat_fields_from_params pr (cookie_params flat).
