(* ===== verification/DependantFacts.v ===== *)
(** * DependantFacts: flattening and classification

    The flattened dependant lists the parameters of the tree in preorder, each
    cache key once when repeats are skipped; cache keys identify sets of
    scopes; every parameter of a signature is classified once. *)

From S2P Require Import Prelude PyStr Asgi Annotations Dependants.

(** ** The tree in preorder *)
Fixpoint preorder (d : Dependant) : list Dependant :=
  let '(mkDependant _ _ _ deps) := d in d :: concat (preorder <$> deps).

(** The parameters of a list of dependants, in order. *)
Definition tree_params (ns : list Dependant) : DepParams :=
  foldr (fun n acc => app_params (params n) acc) no_params ns.

Lemma app_params_nil_r p : app_params p no_params = p.
Proof. destruct p. unfold app_params. simpl. by rewrite !app_nil_r. Qed.

Lemma app_params_assoc a b c : app_params (app_params a b) c = app_params a (app_params b c).
Proof. unfold app_params. simpl. by rewrite <-!app_assoc. Qed.

Lemma tree_params_app a b : tree_params (a ++ b) = app_params (tree_params a) (tree_params b).
Proof.
  induction a as [|n a IH]; simpl; [by destruct (tree_params b)|].
  by rewrite IH, app_params_assoc.
Qed.

Lemma preorder_cons d : preorder d = d :: concat (preorder <$> dependencies d).
Proof. by destruct d. Qed.

Lemma preorder_self d : d ∈ preorder d.
Proof. rewrite preorder_cons. set_solver. Qed.

Lemma preorder_sub d s n : s ∈ dependencies d -> n ∈ preorder s -> n ∈ preorder d.
Proof.
  intros Hs Hn. rewrite preorder_cons, elem_of_cons. right.
  apply elem_of_concat. exists (preorder s). split; [done|]. by apply list_elem_of_fmap_2.
Qed.

Lemma preorder_trans d a n : a ∈ preorder d -> n ∈ preorder a -> n ∈ preorder d.
Proof.
  induction d as [i p ns deps IH] using dependant_nested_ind. rewrite Forall_forall in IH.
  rewrite (preorder_cons (mkDependant _ _ _ _)). intros [->|Ha]%elem_of_cons Hn; [done|].
  apply elem_of_concat in Ha as (l & Ha & (s & -> & Hs)%list_elem_of_fmap).
  rewrite <-(preorder_cons (mkDependant i p ns deps)). eapply preorder_sub; [exact Hs|]. by apply IH.
Qed.

Section flat.
Context (pr : Program).
Local Abbreviation key := (cache_key pr).

(** What flattening one dependant does: the nodes [ns] it visits. *)
Definition visits (skip : bool) (visited : list CacheKey) (d : Dependant)
    (r : Dependant * list CacheKey) (ns : list Dependant) : Prop :=
  params r.1 = tree_params ns
  ∧ (dep_call ∘ info <$> r.1 :: dependencies r.1) = dep_call ∘ info <$> ns
  ∧ r.2 = reverse (key <$> ns) ++ visited
  ∧ head ns = Some d
  ∧ ns `sublist_of` preorder d
  ∧ (skip = false -> ns = preorder d)
  ∧ (skip = true -> ∀ n s, n ∈ ns -> s ∈ dependencies n -> key s ∈ r.2)
  ∧ (skip = true -> NoDup visited -> key d ∉ visited -> NoDup r.2).

(** The same for the loop over sub-dependants. *)
Definition loop_visits (skip : bool) (visited : list CacheKey) (acc : DepParams * list Dependant)
    (subs : list Dependant) (r : DepParams * list Dependant * list CacheKey)
    (ns : list Dependant) : Prop :=
  r.1.1 = app_params acc.1 (tree_params ns)
  ∧ dep_call ∘ info <$> r.1.2 = (dep_call ∘ info <$> acc.2) ++ (dep_call ∘ info <$> ns)
  ∧ r.2 = reverse (key <$> ns) ++ visited
  ∧ ns `sublist_of` concat (preorder <$> subs)
  ∧ (skip = false -> ns = concat (preorder <$> subs))
  ∧ (skip = true -> ∀ n s, n ∈ ns -> s ∈ dependencies n -> key s ∈ r.2)
  ∧ (skip = true -> ∀ s, s ∈ subs -> key s ∈ r.2)
  ∧ (skip = true -> NoDup visited -> NoDup r.2).

Lemma flat_loop_visits skip (rec : list CacheKey -> Dependant -> Dependant * list CacheKey) subs :
  Forall (fun s => ∀ v, ∃ ns, visits skip v s (rec v s) ns) subs ->
  ∀ v acc, ∃ ns, loop_visits skip v acc subs (flat_loop pr skip rec v acc subs) ns.
Proof.
  induction 1 as [|s subs Hs _ IH]; intros v acc; simpl.
  { exists []. unfold loop_visits. simpl. rewrite app_params_nil_r, app_nil_r. set_solver. }
  destruct (skip && bool_decide (key s ∈ v)) eqn:E.
  - apply andb_true_iff in E as [-> Hv%bool_decide_eq_true].
    destruct (IH v acc) as (ns & Hp & Hc & Hr & Hsub & _ & Hd & Hin & Hnd). exists ns.
    split_and!; try done.
    + simpl. by apply sublist_inserts_l.
    + intros _ x [->|Hx]%elem_of_cons; [|by apply Hin]. rewrite Hr. set_solver.
  - destruct (Hs v) as (ns1 & Hp1 & Hc1 & Hr1 & Hh1 & Hsub1 & Hall1 & Hd1 & Hnd1).
    destruct (rec v s) as [fs v'] eqn:Erec. simpl in *.
    destruct (IH v' (app_params acc.1 (params fs), acc.2 ++ fs :: dependencies fs))
      as (ns2 & Hp2 & Hc2 & Hr2 & Hsub2 & Hall2 & Hd2 & Hin2 & Hnd2). simpl in *.
    exists (ns1 ++ ns2). unfold loop_visits. simpl. split_and!.
    + by rewrite Hp2, Hp1, tree_params_app, app_params_assoc.
    + by rewrite Hc2, !fmap_app, <-app_assoc, <-Hc1.
    + by rewrite Hr2, Hr1, fmap_app, reverse_app, app_assoc.
    + by apply sublist_app.
    + intros Hk. by rewrite Hall1, Hall2.
    + intros Hk n x [Hn|Hn]%elem_of_app Hx; [|by eapply Hd2].
      rewrite Hr2. apply elem_of_app. right. by eapply Hd1.
    + intros Hk x [->|Hx]%elem_of_cons; [|by apply Hin2].
      rewrite Hr2, Hr1. destruct ns1; simplify_eq/=. rewrite reverse_cons. set_solver.
    + intros Hk Hv. apply Hnd2; [done|]. apply Hnd1; [done..|].
      rewrite Hk in E. simpl in E. by apply bool_decide_eq_false in E.
Qed.

Lemma get_flat_visits skip d :
  ∀ ps v, ∃ ns, visits skip v d (get_flat_dependant pr skip ps v d) ns.
Proof.
  induction d as [i p n deps IH] using dependant_nested_ind; intros ps v. simpl.
  set (rec := get_flat_dependant pr skip _).
  destruct (flat_loop_visits skip rec deps) with
    (v := key (mkDependant i p n deps) :: v) (acc := (p, [] : list Dependant))
    as (ns & Hp & Hc & Hr & Hsub & Hall & Hd & Hin & Hnd).
  { eapply Forall_impl; [exact IH|]. intros s Hs v'. apply Hs. }
  destruct (flat_loop _ _ _ _ _ _) as [[fp fd] v'] eqn:E. simpl in *.
  exists (mkDependant i p n deps :: ns). unfold visits. simpl. split_and!; try done.
  - simpl. f_equal. exact Hc.
  - rewrite Hr, reverse_cons, <-app_assoc. done.
  - by apply sublist_skip.
  - intros Hk. by rewrite Hall.
  - intros Hk m s [->|Hm]%elem_of_cons Hs; [by apply Hin|]. by eapply Hd.
  - intros Hk Hv Hni. apply Hnd; [done|]. by constructor.
Qed.

(** Dependants with the same key have the same sub-dependants: so it is when
    they were built from the same callable. *)
Definition coherent (d : Dependant) : Prop :=
  ∀ a b, a ∈ preorder d -> b ∈ preorder d -> key a = key b -> dependencies a = dependencies b.

Lemma closed_keys root (keys : list CacheKey) (ns : list Dependant) :
  coherent root -> (∀ n, n ∈ ns -> n ∈ preorder root) ->
  (∀ k, k ∈ keys -> ∃ n, n ∈ ns ∧ key n = k) ->
  (∀ n s, n ∈ ns -> s ∈ dependencies n -> key s ∈ keys) ->
  ∀ d, (∀ x, x ∈ preorder d -> x ∈ preorder root) -> key d ∈ keys ->
  ∀ x, x ∈ preorder d -> key x ∈ keys.
Proof.
  intros Hco Hns Hk Hcl d. induction d as [i p n deps IH] using dependant_nested_ind.
  intros Hroot Hd x. rewrite preorder_cons. intros [->|Hx]%elem_of_cons; [done|].
  apply elem_of_concat in Hx as (l & Hx & Hl). apply list_elem_of_fmap in Hl as (s & -> & Hs).
  rewrite Forall_forall in IH.
  assert (Hsub : ∀ y, y ∈ preorder s -> y ∈ preorder root).
  { intros y Hy. apply Hroot. by eapply preorder_sub. }
  apply (IH s); [done..| |done].
  destruct (Hk _ Hd) as (m & Hm & Hkm). apply (Hcl m); [done|].
  rewrite (Hco m (mkDependant i p n deps)); auto using preorder_self.
Qed.
End flat.

(** Flattening.  Without skipping, the flattened dependant has the
    parameters of all the dependants of the tree in preorder and lists all of
    them.  With skipping, the parameters are those of a sublist of the preorder
    with one dependant per cache key, starting with the root; and when equal
    keys mean equal sub-dependants, every key of the tree is represented. *)
Theorem flat_dependant_correct pr d :
  (let f := (get_flat_dependant pr false None [] d).1 in
   params f = tree_params (preorder d)
   ∧ (dep_call ∘ info <$> f :: dependencies f) = dep_call ∘ info <$> preorder d)
  ∧ (let f := (get_flat_dependant pr true None [] d).1 in
     ∃ ns, ns `sublist_of` preorder d ∧ head ns = Some d ∧ NoDup (cache_key pr <$> ns)
       ∧ params f = tree_params ns
       ∧ (dep_call ∘ info <$> f :: dependencies f) = dep_call ∘ info <$> ns
       ∧ (coherent pr d -> ∀ n, n ∈ preorder d -> cache_key pr n ∈ cache_key pr <$> ns)).
Proof.
  split; simpl.
  - destruct (get_flat_visits pr false d None []) as (ns & Hp & Hc & _ & _ & _ & Hall & _).
    rewrite <-(Hall eq_refl). done.
  - destruct (get_flat_visits pr true d None [])
      as (ns & Hp & Hc & Hr & Hh & Hsub & _ & Hd & Hnd). exists ns.
    specialize (Hd eq_refl). specialize (Hnd eq_refl).
    rewrite app_nil_r in Hr. split_and!; try done.
    + apply NoDup_reverse. rewrite <-Hr.
      apply Hnd; [constructor|set_solver].
    + intros Hco n Hn.
      apply (closed_keys pr d (cache_key pr <$> ns) ns Hco) with (d := d); try done.
      * intros m Hm. by eapply elem_of_sublist.
      * intros k Hk. apply list_elem_of_fmap in Hk as (m & -> & Hm). eauto.
      * intros m s Hm Hs. specialize (Hd m s Hm Hs). rewrite Hr in Hd. set_solver.
      * destruct ns; simplify_eq/=. set_solver.
Qed.

(** ** Classification of the parameters of a signature *)
Section classify.
Context (pr : Program).

(** The role [analyze_param] gives to a parameter of the callable [i]. *)
Definition details_of (i : DepInfo) (param : str * (param_ann * param_default))
    : result ParamDetails :=
  analyze_param pr param.1 param.2.1 param.2.2
    (bool_decide (param.1 ∈ get_path_param_names (dep_path i))).

(** Parameters of a special type that are not dependencies. *)
Definition special_param (i : DepInfo) (param : str * (param_ann * param_default)) : bool :=
  match details_of i param with
  | Ok details =>
      negb (bool_decide (is_Some (depends details)))
      && lenient_issubclass (type_annotation details) special_types
  | Raise _ => false
  end.

Definition all_fields (p : DepParams) : list ModelField :=
  path_params p ++ query_params p ++ header_params p ++ cookie_params p ++ body_params p.

Definition special_names (n : DepNames) : list str :=
  omap id [request_param_name n; websocket_param_name n; http_connection_param_name n;
           response_param_name n; background_tasks_param_name n; security_scopes_param_name n].

(** Every field is in the list its class or location says. *)
Definition fields_placed (p : DepParams) : Prop :=
  Forall (fun f => fi_in (field_info f) = Some path) (path_params p)
  ∧ Forall (fun f => fi_in (field_info f) = Some query) (query_params p)
  ∧ Forall (fun f => fi_in (field_info f) = Some header) (header_params p)
  ∧ Forall (fun f => fi_in (field_info f) = Some cookie) (cookie_params p)
  ∧ Forall (fun f => is_Body (fi_class (field_info f)) = true) (body_params p)
  ∧ Forall (fun f => is_Body (fi_class (field_info f)) = false)
      (path_params p ++ query_params p ++ header_params p ++ cookie_params p).

(** A dependency of [i] inherits its scopes and path, and a generator that
    lives as long as the request has no dependency of the function scope. *)
Definition sub_placed (i : DepInfo) (s : Dependant) : Prop :=
  dep_path (info s) = dep_path i
  ∧ parent_oauth_scopes (info s)
    = Some (get_or (parent_oauth_scopes i) [] ++ get_or (own_oauth_scopes i) [])
  ∧ (is_generator pr (dep_call i) = true -> computed_scope pr i = Some request_scope ->
     scope (info s) ≠ Some function_scope).

(** The parameters [sig] of [i] are distributed over fields, dependencies and
    special names: each has exactly one role. *)
Definition distributed (i : DepInfo) (sig : list (str * (param_ann * param_default)))
    (acc : DepParams * DepNames * list Dependant) : Prop :=
  let '(ps, ns, deps) := acc in
  (field_name <$> all_fields ps) ++ omap (dep_name ∘ info) deps
    ++ (filter (fun p => special_param i p = true) sig).*1 ≡ₚ sig.*1
  ∧ fields_placed ps
  ∧ (∀ x, x ∈ special_names ns -> x ∈ (filter (fun p => special_param i p = true) sig).*1)
  ∧ Forall (sub_placed i) deps
  ∧ (∀ f, f ∈ all_fields ps -> field_name f ∈ get_path_param_names (dep_path i) ->
     f ∈ path_params ps).

Lemma build_field_facts mp name fi is_path f :
  build_field mp name fi is_path = Ok f ->
  field_name f = name ∧ (is_path = true -> fi_class (field_info f) = PathI).
Proof.
  unfold build_field. intros H. inv_ok. simpl. split; [done|]. intros ->.
  inv_ok. by match goal with H : bool_decide _ = true |- _ => apply bool_decide_eq_true in H end.
Qed.

(** What [analyze_param] can return. *)
Lemma analyze_param_shape name an v is_path details :
  analyze_param pr name an v is_path = Ok details ->
  (is_Some (depends details) -> ∃ d c, depends details = Some d ∧ dependency d = Some c)
  ∧ (lenient_issubclass (type_annotation details) special_types = true -> field details = None)
  ∧ (∀ f, field details = Some f ->
     field_name f = name ∧ (is_path = true -> fi_class (field_info f) = PathI)).
Proof.
  unfold analyze_param. destruct (split_annotation an) as [a metas]. intros H. inv_ok.
  match goal with fd : option FieldInfo * option Depends, H : (let '(_, _) := ?x in _) = Ok details |- _ =>
    destruct x as [fi dep] end.
  assert (Hdep : ∀ dp : option Depends, is_Some (resolve_dependency pr a <$> dp) ->
    ∃ d c, resolve_dependency pr a <$> dp = Some d ∧ dependency d = Some c).
  { intros [d|] [? ?]; [|done]. simpl. exists (resolve_dependency pr a d).
    unfold resolve_dependency. destruct (dependency d) eqn:E; eauto. }
  destruct (lenient_issubclass a special_types) eqn:Es.
  { inv_ok. simpl. split_and!; auto. by intros. }
  destruct fi as [fi|], dep as [dep|]; simpl in *; inv_ok; simpl; rewrite ?Es; split_and!; auto;
    try done.
  all: first [exact (Hdep (Some dep)) | intros f' [= <-]; by eapply build_field_facts].
Qed.

(** The dependency a parameter declares, as its default value or in its
    annotation. *)
Definition declared_depends (an : param_ann) (v : param_default) : option Depends :=
  match v with
  | DDepends d => Some d
  | _ =>
      match specific_annotation (split_annotation an).2 with
      | Some (MDepends d) => Some d
      | _ => None
      end
  end.

Lemma analyze_param_depends name an v is_path details :
  analyze_param pr name an v is_path = Ok details ->
  depends details = resolve_dependency pr (split_annotation an).1 <$> declared_depends an v.
Proof.
  unfold analyze_param, declared_depends. destruct (split_annotation an) as [a metas]. simpl.
  intros ([fi1 dep1] & H1 & ([fi dep] & H2 & H)%rbind_Ok)%rbind_Ok.
  assert (Hdep : dep = match v with
    | DDepends d => Some d
    | _ => match specific_annotation metas with Some (MDepends d) => Some d | _ => None end
    end).
  { unfold from_annotated in H1. unfold from_default in H2.
    destruct (specific_annotation metas) as [[]|], v; inv_ok; by simplify_eq. }
  rewrite <-Hdep. destruct (lenient_issubclass _ _); [by inv_ok|].
  destruct fi, dep; simpl in *; inv_ok; done.
Qed.

(** A parameter of a special type gives its name to one of the special
    names. *)
Lemma add_non_field_spec name a ns :
  (is_Some (add_non_field_param_to_dependency name a ns)
   ↔ lenient_issubclass a special_types = true)
  ∧ ∀ ns', add_non_field_param_to_dependency name a ns = Some ns' ->
    ∀ x, x ∈ special_names ns' -> x = name ∨ x ∈ special_names ns.
Proof.
  destruct ns as [r w h p b s]. unfold add_non_field_param_to_dependency.
  destruct a as [c| | | | |]; try (split; [split; [by intros []|done]|done]).
  split.
  - destruct c; cbn; split; try done; by intros [? ?].
  - intros ns' Hns x. destruct c; cbn in Hns; simplify_eq; unfold special_names; simpl;
      destruct r, w, h, p, b, s; cbn; set_solver.
Qed.

Lemma perm_snoc3 {A} (a b c d : list A) x y z w :
  a ++ b ++ c ≡ₚ d -> x ++ y ++ z ≡ₚ w -> (a ++ x) ++ (b ++ y) ++ c ++ z ≡ₚ d ++ w.
Proof. intros <- <-. solve_Permutation. Qed.

Lemma add_param_placed f ps ps' :
  fields_placed ps ->
  (if is_Body (fi_class (field_info f)) then Ok (add_body_param f ps) else add_param_to_fields f ps)
    = Ok ps' ->
  fields_placed ps' ∧ all_fields ps' ≡ₚ all_fields ps ++ [f]
  ∧ (∀ g, g ∈ path_params ps -> g ∈ path_params ps')
  ∧ (fi_class (field_info f) = PathI -> f ∈ path_params ps').
Proof.
  destruct ps as [pp qp hp cp bp]. unfold fields_placed, all_fields. simpl.
  intros (H1 & H2 & H3 & H4 & H5 & H6) H. rewrite !Forall_app in H6.
  destruct (is_Body _) eqn:Eb.
  - injection H as <-. simpl. rewrite !Forall_app, Forall_singleton. split_and!; try naive_solver.
    + solve_Permutation.
    + intros Hc. by rewrite Hc in Eb.
  - destruct (fi_in (field_info f)) as [[]|] eqn:Ei; [..|done]; injection H as <-; simpl;
      rewrite !Forall_app, !Forall_singleton; (split_and!; try naive_solver); try solve_Permutation;
      try set_solver; intros Hc; unfold fi_in in Ei; rewrite Hc in Ei; simplify_eq; set_solver.
Qed.

Lemma special_snoc i seen p :
  (filter (fun p => special_param i p = true) (seen ++ [p])).*1
  = (filter (fun p => special_param i p = true) seen).*1
    ++ if special_param i p then [p.1] else [].
Proof. rewrite fmap_filter_snoc. by destruct (special_param i p). Qed.

Lemma distributed_dep i seen ps ns deps p d :
  distributed i seen (ps, ns, deps) -> special_param i p = false ->
  dep_name (info d) = Some p.1 -> sub_placed i d ->
  distributed i (seen ++ [p]) (ps, ns, deps ++ [d]).
Proof.
  intros (Hperm & Hpl & Hsp & Hsubs & Hpath) Hs Hn Hd. unfold distributed.
  rewrite special_snoc, Hs, app_nil_r, fmap_app. split_and!; try done.
  - rewrite omap_app. simpl. rewrite Hn. simpl. rewrite <-Hperm, <-!app_assoc. solve_Permutation.
  - apply Forall_app. split; [done|]. by apply Forall_singleton.
Qed.

Lemma distributed_special i seen ps ns ns' deps p :
  distributed i seen (ps, ns, deps) -> special_param i p = true ->
  (∀ x, x ∈ special_names ns' -> x = p.1 ∨ x ∈ special_names ns) ->
  distributed i (seen ++ [p]) (ps, ns', deps).
Proof.
  intros (Hperm & Hpl & Hsp & Hsubs & Hpath) Hs Hns. unfold distributed.
  rewrite special_snoc, Hs, fmap_app. split_and!; try done.
  - rewrite <-Hperm, <-!app_assoc. done.
  - intros x Hx. destruct (Hns x Hx) as [->|]; set_solver.
Qed.

Lemma distributed_field i seen ps ps' ns deps p f :
  distributed i seen (ps, ns, deps) -> special_param i p = false -> field_name f = p.1 ->
  (p.1 ∈ get_path_param_names (dep_path i) -> fi_class (field_info f) = PathI) ->
  (if is_Body (fi_class (field_info f)) then Ok (add_body_param f ps) else add_param_to_fields f ps)
    = Ok ps' ->
  distributed i (seen ++ [p]) (ps', ns, deps).
Proof.
  intros (Hperm & Hpl & Hsp & Hsubs & Hpath) Hs Hn Hp Hadd. unfold distributed.
  destruct (add_param_placed _ _ _ Hpl Hadd) as (Hpl' & Hall & Hkeep & Hnew).
  rewrite special_snoc, Hs, app_nil_r, fmap_app. split_and!; try done.
  - rewrite Hall, fmap_app. simpl. rewrite Hn, <-Hperm, <-!app_assoc. solve_Permutation.
  - intros g. rewrite Hall, elem_of_app, list_elem_of_singleton.
    intros [Hg| ->] Hin; [by apply Hkeep, Hpath|]. apply Hnew, Hp. by rewrite <-Hn.
Qed.

Lemma dependant_param_step i sub seen acc param acc' :
  (∀ j d, sub j = Ok d -> info d = j) ->
  distributed i seen acc -> dependant_param pr i sub acc param = Ok acc' ->
  distributed i (seen ++ [param]) acc'.
Proof.
  intros Hsub. destruct acc as [[ps ns] deps], param as [name [an v]]. intros Hd H.
  unfold dependant_param in H. apply rbind_Ok in H as (details & Ha & H).
  destruct (analyze_param_shape _ _ _ _ _ Ha) as (_ & _ & Hf).
  assert (Hspec : special_param i (name, (an, v))
    = negb (bool_decide (is_Some (depends details)))
      && lenient_issubclass (type_annotation details) special_types).
  { unfold special_param, details_of. simpl. by rewrite Ha. }
  destruct (depends details) as [d|] eqn:Ed.
  - rewrite bool_decide_true in Hspec by eauto.
    destruct (dependency d) as [c|] eqn:Ec; [|done].
    destruct (_ && _) eqn:Escope in H; [done|]. apply rbind_Ok in H as (sd & Hi%Hsub & [= <-]).
    apply distributed_dep; [done|done|by rewrite Hi|]. unfold sub_placed. rewrite Hi. simpl.
    split_and!; try done. intros Hg Hc Hfun. rewrite Hg, Hc, Hfun in Escope.
    by rewrite !bool_decide_true in Escope.
  - rewrite bool_decide_false in Hspec by (by intros []). simpl in Hspec.
    destruct (add_non_field_spec name (type_annotation details) ns) as [Hiff Hnew].
    destruct (add_non_field_param_to_dependency _ _ _) as [ns'|].
    + apply rbind_Ok in H as (_ & _ & [= <-]). rewrite (proj1 Hiff) in Hspec by eauto.
      eapply distributed_special; [done|done|]. by apply Hnew.
    + destruct (lenient_issubclass _ special_types) eqn:El in Hspec.
      { by destruct (proj2 Hiff El). }
      destruct (field details) as [f|] eqn:Ef; [|done]. destruct (Hf f eq_refl) as [Hfn Hfp].
      assert (∃ ps', (if is_Body (fi_class (field_info f)) then Ok (add_body_param f ps)
                      else add_param_to_fields f ps) = Ok ps' ∧ acc' = (ps', ns, deps))
        as (ps' & Hadd & ->).
      { destruct (is_Body _); inv_ok; eauto. }
      eapply distributed_field; [done..| |done]. intros Hin. by apply Hfp, bool_decide_eq_true.
Qed.

(** ** The tree *)
Definition node_ok (n : Dependant) : Prop :=
  distributed (info n) (signature pr (dep_call (info n))) (params n, names n, dependencies n).

Lemma get_dependant_info fuel i d : get_dependant pr fuel i = Ok d -> info d = i.
Proof. destruct fuel; [done|]. simpl. intros H. inv_ok. by destruct x as [[??]?]; inv_ok. Qed.

Lemma get_dependant_sub fuel i d s :
  get_dependant pr (S fuel) i = Ok d -> s ∈ dependencies d ->
  get_dependant pr fuel (info s) = Ok s.
Proof.
  simpl. intros ([[ps ns] deps] & Hr & [= <-])%rbind_Ok Hs. simpl in Hs. revert s Hs.
  cut (Forall (fun s => get_dependant pr fuel (info s) = Ok s) deps); [by rewrite Forall_forall|].
  apply (rfold_invariant (fun _ acc =>
    Forall (fun s => get_dependant pr fuel (info s) = Ok s) acc.2)) in Hr; [done|done|].
  intros _ [[ps1 ns1] deps1] [name [an v]] acc2 _ Hall Hp. simpl in Hall.
  unfold dependant_param in Hp. apply rbind_Ok in Hp as (details & _ & Hp).
  repeat (case_match; simplify_eq/=; try done); inv_ok; simpl; try done.
  apply Forall_app. split; [done|]. apply Forall_singleton.
  erewrite get_dependant_info; done.
Qed.

Lemma get_dependant_nodes fuel i d :
  get_dependant pr fuel i = Ok d -> ∀ n, n ∈ preorder d -> node_ok n.
Proof.
  revert i d. induction fuel as [|fuel IH]; intros i d Hd n; [done|].
  rewrite preorder_cons. intros [->|Hn]%elem_of_cons.
  - pose proof (get_dependant_info _ _ _ Hd) as Hi. simpl in Hd.
    apply rbind_Ok in Hd as ([[ps ns] deps] & Hr & [= <-]). unfold node_ok. simpl.
    refine (rfold_invariant (distributed i) _ _ _ (ps, ns, deps) _ _ Hr).
    + unfold distributed, fields_placed. simpl. set_solver.
    + intros seen s1 a s2 _ H1 H2. eapply dependant_param_step; eauto using get_dependant_info.
  - apply elem_of_concat in Hn as (l & Hn & (s & -> & Hs)%list_elem_of_fmap).
    eapply IH; [|exact Hn]. by eapply get_dependant_sub.
Qed.

(** ** Termination *)

(** The callable [c'] is a dependency of a parameter of [i]. *)
Definition depends_on (i : DepInfo) (c' : call) : Prop :=
  ∃ p details d, p ∈ signature pr (dep_call i) ∧ details_of i p = Ok details
    ∧ depends details = Some d ∧ dependency d = Some c'.

(** The dependencies of callables are well-founded. *)
Definition ranked (rank : call -> nat) : Prop :=
  ∀ i c', depends_on i c' -> (rank c' < rank (dep_call i))%nat.

Lemma dependant_param_ext i sub1 sub2 acc param :
  param ∈ signature pr (dep_call i) ->
  (∀ j, depends_on i (dep_call j) -> sub1 j = sub2 j) ->
  dependant_param pr i sub1 acc param = dependant_param pr i sub2 acc param.
Proof.
  intros Hp Hsub. destruct acc as [[ps ns] deps], param as [name [an v]].
  unfold dependant_param. destruct (analyze_param _ _ _ _ _) as [details|] eqn:Ha; [|done]. simpl.
  destruct (depends details) as [d|] eqn:Ed; [|done]. destruct (dependency d) as [c|] eqn:Ec; [|done].
  rewrite Hsub; [done|]. simpl. by exists (name, (an, v)), details, d.
Qed.

Lemma get_dependant_fuel rank : ranked rank ->
  ∀ f1 f2 i, (rank (dep_call i) < f1)%nat -> (rank (dep_call i) < f2)%nat ->
  get_dependant pr f1 i = get_dependant pr f2 i.
Proof.
  intros Hr f1. induction f1 as [|f1 IH]; intros [|f2] i H1 H2; [lia..|]. simpl.
  f_equal. apply rfold_ext. intros acc p Hp. apply dependant_param_ext; [done|].
  intros j Hj%Hr. apply IH; lia.
Qed.

Lemma py_assert_raises c m e : py_assert c m = Raise e -> e ≠ RecursionError.
Proof. destruct c; simpl; intros; by simplify_eq. Qed.

Lemma rbind_raises {A B} (m : result A) (k : A -> result B) e :
  rbind m k = Raise e -> m = Raise e ∨ ∃ a, m = Ok a ∧ k a = Raise e.
Proof. destruct m; simpl; naive_solver. Qed.

(** Opens the ways a block can raise. *)
Ltac raises :=
  repeat match goal with
  | H : rbind _ _ = Raise _ |- _ => apply rbind_raises in H as [H|(? & ? & H)]
  | H : py_assert _ _ = Raise _ |- _ => by apply py_assert_raises in H
  | H : Ok _ = Raise _ |- _ => discriminate H
  | H : Raise _ = Raise _ |- _ => injection H as <-; done
  | H : (match ?x with _ => _ end) = Raise _ |- _ => destruct x
  end.

Lemma analyze_param_raises name an v is_path e :
  analyze_param pr name an v is_path = Raise e -> e ≠ RecursionError.
Proof.
  unfold analyze_param, from_annotated, from_default, build_field. intros H. raises.
Qed.

Lemma get_dependant_raises rank : ranked rank ->
  ∀ fuel i e, (rank (dep_call i) < fuel)%nat -> get_dependant pr fuel i = Raise e ->
  e ≠ RecursionError.
Proof.
  intros Hr fuel. induction fuel as [|fuel IH]; intros i e Hf; [lia|]. simpl.
  intros [H|(x & _ & H)]%rbind_raises; [|by destruct x as [[??]?]].
  eapply (rfold_raises (fun e => e ≠ RecursionError)) in H; [done|].
  intros [[ps ns] deps] [name [an v]] e' Hp. unfold dependant_param.
  intros [Ha|(details & Ha & H')]%rbind_raises; [by eapply analyze_param_raises|].
  destruct (depends details) as [d|] eqn:Ed; [|unfold add_param_to_fields in H'; raises].
  destruct (dependency d) as [c|] eqn:Ec; [|raises]. case_match; [raises|].
  apply rbind_raises in H' as [H'|(? & _ & ?)]; [|done].
  eapply IH; [|exact H']. simpl.
  assert (rank c < rank (dep_call i))%nat; [|lia]. apply Hr. by exists (name, (an, v)), details, d.
Qed.
End classify.

(** ** A program

    [endpoint(item_id: int, q: list[str] = None, body: Item, user = Security(get_user,
    scopes=["me"]), tasks: BackgroundTasks)] with [get_user(request: Request, token: str =
    Depends(get_token))] and [get_token(x_token: str = Header())], a generator. *)
Module Sample.
Definition endpoint : call := 0.
Definition get_user : call := 1.
Definition get_token : call := 2.

Definition plain (a : ann) : param_ann := Written (Plain a).

Definition header_info : FieldInfo :=
  mkInfo HeaderI None AnyA None None None (Some true) None false.

Definition program : Program := mkProgram
  (fun c => if (c =? get_token)%Z then Function Gen else Function Coro)
  (fun _ => $"f")
  (fun c =>
     if (c =? endpoint)%Z then
       [($"item_id", (plain (Cls IntC), EmptyD));
        ($"q", (plain (Generic ListC [Cls StrC]), DField (mkInfo QueryI None AnyA (Some VNone)
                 None None None None false)));
        ($"body", (plain (Cls (BaseModelC (Some 7))), EmptyD));
        ($"user", (plain (Cls StrC),
                   DDepends (mkDepends (Some get_user) true None (Some (Some [$"me"])))));
        ($"tasks", (plain (Cls BackgroundTasksC), EmptyD))]
     else if (c =? get_user)%Z then
       [($"request", (plain (Cls RequestC), EmptyD));
        ($"token", (plain (Cls StrC), DDepends (mkDepends (Some get_token) true None None)))]
     else if (c =? get_token)%Z then
       [($"x_token", (plain (Cls StrC), DField header_info))]
     else [])
  (fun _ => 0)
  (fun _ => [])
  true.

Definition route : DepInfo := mkDepInfo None endpoint None None true $"/items/{item_id}" None.

(** The stack depth a callable needs. *)
Definition rank (c : call) : nat := Z.to_nat (2 - c).

Definition tree : Dependant :=
  match get_dependant program 3 route with
  | Ok d => d
  | Raise _ => mkDependant route no_params no_names []
  end.

Lemma program_ranked : ranked program rank.
Proof.
  intros i c' ([name [an v]] & details & d & Hp & Ha & Hd & Hc).
  apply analyze_param_depends in Ha. rewrite Hd in Ha. simpl in *. unfold rank.
  repeat case_match; try set_solver;
    repeat (apply elem_of_cons in Hp as [Hp|Hp]; [injection Hp as -> -> ->|]); try set_solver;
    simpl in Ha; simplify_eq/=; unfold get_user, get_token, endpoint in *; lia.
Qed.

Example tree_shape :
  (field_name <$> path_params (params tree)) = [$"item_id"]
  ∧ (field_name <$> query_params (params tree)) = [$"q"]
  ∧ (field_name <$> body_params (params tree)) = [$"body"]
  ∧ background_tasks_param_name (names tree) = Some $"tasks"
  ∧ (oauth_scopes <$> preorder tree) = [[]; [$"me"]; [$"me"]]
  ∧ (alias <$> header_params (tree_params (preorder tree))) = [$"x-token"].
Proof. vm_compute. done. Qed.
End Sample.

(** ** Analysing a declaration twice

    [analyze_param] writes into the object that declares a parameter: the
    annotation, the place and the alias.  Functions are analysed again (for
    overridden dependencies, for instance); the object as it was left gives the
    same field, so that the writes need not be modelled as long as every
    parameter has an object of its own. *)
Lemma param_alias_again fi n : n ≠ [] -> param_alias (info_with_alias fi (param_alias fi n)) n = param_alias fi n.
Proof.
  intros Hn. unfold param_alias, info_with_alias. cbn [fi_alias fi_convert_underscores].
  destruct (fi_alias fi) as [[|c a]|]; [|done|]; destruct (fi_convert_underscores fi) as [[]|];
    by destruct n.
Qed.

Lemma build_field_again multipart n fi is_path f :
  n ≠ [] -> build_field multipart n fi is_path = Ok f -> build_field multipart n (field_info f) is_path = Ok f.
Proof.
  intros Hn. unfold build_field. intros (fi1 & H1 & (u & H2 & (u' & H3 & [= <-])%rbind_Ok)%rbind_Ok)%rbind_Ok.
  cbn [field_info].
  assert ((if is_path
     then let! _ := py_assert (bool_decide (fi_class (info_with_alias fi1 (param_alias fi1 n)) = PathI))
                     (msg_not_path (info_with_alias fi1 (param_alias fi1 n)) n) in Ok (info_with_alias fi1 (param_alias fi1 n))
     else Ok (in_default (info_with_alias fi1 (param_alias fi1 n))))
    = Ok (info_with_alias fi1 (param_alias fi1 n))) as ->.
  { destruct is_path.
    - apply rbind_Ok in H1 as (? & Ha & [= <-]). unfold py_assert in *. cbn [info_with_alias fi_class].
      by destruct (bool_decide (fi_class fi = PathI)).
    - injection H1 as <-. f_equal. unfold in_default, fi_in, info_with_alias, info_with_in.
      by destruct fi as [[] []]. }
  cbn [rbind]. cbn [info_with_alias fi_class] in *. rewrite H2. cbn [rbind].
  change (mkInfo (fi_class fi1) (fi_own_in fi1) (fi_annotation fi1) (fi_default fi1) (Some (param_alias fi1 n))
    (fi_validation_alias fi1) (fi_convert_underscores fi1) (fi_embed fi1) (fi_json fi1))
    with (info_with_alias fi1 (param_alias fi1 n)).
  rewrite param_alias_again by done.
  change (info_with_alias (info_with_alias fi1 (param_alias fi1 n)) (param_alias fi1 n))
    with (info_with_alias fi1 (param_alias fi1 n)).
  by rewrite H3.
Qed.

(** An object shared by two parameters does not declare both: the second is
    read under the name of the first. *)
Example shared_info_keeps_alias :
  let fi := new_info QueryI (Cls IntC) None false in
  ∃ a b, build_field true $"limit" fi false = Ok a
    ∧ build_field true $"offset" (field_info a) false = Ok b ∧ alias b = $"limit".
Proof. do 2 eexists. split; [reflexivity|]. split; reflexivity. Qed.



Lemma flat_dependant_correct_witness :
  (alias <$> header_params (params (get_flat_dependant Sample.program true None [] Sample.tree).1))
  = [$"x-token"]
  ∧ ∃ ns, NoDup (cache_key Sample.program <$> ns)
      ∧ ∀ n, n ∈ preorder Sample.tree -> cache_key Sample.program n ∈ cache_key Sample.program <$> ns.
Proof.
  split; [vm_compute; reflexivity|].
  destruct (flat_dependant_correct Sample.program Sample.tree) as [_ (ns & _ & _ & Hnd & _ & _ & Hall)].
  exists ns. split; [exact Hnd|]. apply Hall.
  assert (Hkeys : NoDup (cache_key Sample.program <$> preorder Sample.tree))
    by (apply (bool_decide_eq_true_1 _); vm_compute; reflexivity).
  intros a b Ha Hb Hk. by rewrite (NoDup_fmap_elem _ _ a b Hkeys Ha Hb Hk).
Defined.
