(* ===== verification/Params.v ===== *)
(** * Params: the declarations of parameters

    The classes of [params.py] and the functions of [param_functions.py] that
    create them: the keyword arguments they pass to Pydantic's [FieldInfo] and
    the attributes they set, and what the construction of the dependant relies
    on.  Values only Pydantic interprets are identified by numbers; aliases
    are strings. *)

From S2P Require Import Prelude PyStr Asgi Annotations Dependants DependantFacts.

(** ** Keyword arguments *)

(** [_Unset] is Pydantic's [Undefined]; [...] is a default of its own. *)
Inductive maybe (A : Type) : Type := Unset | Is (a : A).
Arguments Unset {A}.
Arguments Is {A} a.

Inductive given_default : Type := Ellipsis | Value (v : value).

Inductive kwval : Type :=
  | KwNone
  | KwDefault (d : given_default)
  | KwStr (s : str)
  | KwBool (b : bool)
  | KwAnn (a : ann)
  | KwOpaque (z : Z)
  | KwDict (d : list (str * Z)).

Record FieldKwargs : Type := mkKwargs {
  k_default : maybe given_default;
  k_default_factory : maybe (option Z);
  k_annotation : option ann;
  k_alias : option str;
  k_alias_priority : maybe (option Z);
  k_validation_alias : option str;
  k_serialization_alias : option str;
  k_title : option str;
  k_description : option str;
  k_gt : option Z; k_ge : option Z; k_lt : option Z; k_le : option Z;
  k_min_length : option Z; k_max_length : option Z;
  k_pattern : option str;
  k_regex : option str;
  k_discriminator : option str;
  k_strict : maybe (option bool);
  k_multiple_of : maybe (option Z);
  k_allow_inf_nan : maybe (option bool);
  k_max_digits : maybe (option Z);
  k_decimal_places : maybe (option Z);
  k_examples : option Z;
  k_example : maybe Z;
  k_openapi_examples : option Z;
  k_deprecated : option Z;
  k_include_in_schema : bool;
  k_json_schema_extra : option (list (str * Z));
  k_extra : list (str * Z)
}.

Definition kw_str (o : option str) : maybe kwval := Is (match o with Some s => KwStr s | None => KwNone end).
Definition kw_num (o : option Z) : maybe kwval := Is (match o with Some z => KwOpaque z | None => KwNone end).
Definition kw_bool (o : option bool) : maybe kwval := Is (match o with Some b => KwBool b | None => KwNone end).
Definition kw_maybe {A} (f : A -> maybe kwval) (m : maybe A) : maybe kwval :=
  match m with Unset => Unset | Is a => f a end.

(** [a or b] for texts and dictionaries. *)
Definition or_str (a b : option str) : option str := match a with None | Some [] => b | _ => a end.
Definition or_dict (a : option (list (str * Z))) (b : list (str * Z)) : list (str * Z) :=
  match a with None | Some [] => b | Some d => d end.

(** [{k: v for k, v in kwargs.items() if v is not _Unset}] *)
Definition set_only (d : list (str * maybe kwval)) : list (str * kwval) :=
  omap (fun '(k, m) => match m with Is v => Some (k, v) | Unset => None end) d.

(** [kwargs] as [Param.__init__] and [Body.__init__] build it. *)
Definition field_kwargs (k : FieldKwargs) : list (str * kwval) :=
  let serialization_alias :=
    match k_serialization_alias k, k_alias k with None, Some a => Some a | s, _ => s end in
  let validation_alias := match k_validation_alias k with None => k_alias k | v => v end in
  let base : list (str * maybe kwval) :=
    [($"default", kw_maybe (fun d => Is (KwDefault d)) (k_default k));
     ($"default_factory", kw_maybe kw_num (k_default_factory k));
     ($"alias", kw_str (k_alias k));
     ($"title", kw_str (k_title k)); ($"description", kw_str (k_description k));
     ($"gt", kw_num (k_gt k)); ($"ge", kw_num (k_ge k)); ($"lt", kw_num (k_lt k)); ($"le", kw_num (k_le k));
     ($"min_length", kw_num (k_min_length k)); ($"max_length", kw_num (k_max_length k));
     ($"discriminator", kw_str (k_discriminator k));
     ($"multiple_of", kw_maybe kw_num (k_multiple_of k));
     ($"allow_inf_nan", kw_maybe kw_bool (k_allow_inf_nan k));
     ($"max_digits", kw_maybe kw_num (k_max_digits k));
     ($"decimal_places", kw_maybe kw_num (k_decimal_places k))]
    ++ ((fun '(n, z) => (n, Is (KwOpaque z))) <$> k_extra k) in
  let kwargs := match k_examples k with Some z => dict_set base $"examples" (Is (KwOpaque z)) | None => base end in
  let kwargs := dict_set kwargs $"deprecated" (kw_num (k_deprecated k)) in
  let kwargs := dict_update kwargs
    [($"annotation", Is (match k_annotation k with Some a => KwAnn a | None => KwNone end));
     ($"alias_priority", kw_maybe kw_num (k_alias_priority k));
     ($"validation_alias", kw_str validation_alias);
     ($"serialization_alias", kw_str serialization_alias);
     ($"strict", kw_maybe kw_bool (k_strict k));
     ($"json_schema_extra", Is (KwDict (or_dict (k_json_schema_extra k) (k_extra k))))] in
  set_only (dict_set kwargs $"pattern" (kw_str (or_str (k_pattern k) (k_regex k)))).

(** ** Field informations *)

(** The object: what Pydantic's constructor was given, the attributes read by
    the rest of the code, and the warnings issued. *)
Record ParamInfo : Type := mkParamInfo {
  pi_class : info_class;
  pi_kwargs : list (str * kwval);
  pi_example : maybe Z;
  pi_include_in_schema : bool;
  pi_openapi_examples : option Z;
  pi_convert_underscores : option bool;
  pi_embed : option bool;
  pi_media_type : option str;
  pi_warnings : list str
}.

Definition kwarg_str (d : list (str * kwval)) (key : str) : option str :=
  match dict_get d key with Some (KwStr s) => Some s | _ => None end.

(** [FieldInfo.__init__] of Pydantic: [...] and a missing default mean that
    there is none. *)
Definition as_field_info (p : ParamInfo) (a : ann) : FieldInfo :=
  mkInfo (pi_class p) None
    (match dict_get (pi_kwargs p) $"annotation" with Some (KwAnn a') => a' | _ => a end)
    (match dict_get (pi_kwargs p) $"default" with Some (KwDefault (Value v)) => Some v | _ => None end)
    (kwarg_str (pi_kwargs p) $"alias") (kwarg_str (pi_kwargs p) $"validation_alias")
    (pi_convert_underscores p) (pi_embed p) false.

Definition example_warning : str := $"`example` has been deprecated, please use `examples` instead".
Definition regex_warning : str := $"`regex` has been deprecated, please use `pattern` instead".

Definition field_warnings (k : FieldKwargs) : list str :=
  (match k_example k with Unset => [] | Is _ => [example_warning] end)
  ++ (match k_regex k with None => [] | Some _ => [regex_warning] end).

(** [Param.__init__], for a subclass that sets [convert_underscores] or not. *)
Definition param_init (c : info_class) (convert : option bool) (k : FieldKwargs) : ParamInfo :=
  mkParamInfo c (field_kwargs k) (k_example k) (k_include_in_schema k) (k_openapi_examples k) convert
    None None (field_warnings k).

Definition body_init (c : info_class) (embed : option bool) (media_type : str) (k : FieldKwargs) : ParamInfo :=
  mkParamInfo c (field_kwargs k) (k_example k) (k_include_in_schema k) (k_openapi_examples k) None
    embed (Some media_type) (field_warnings k).

Definition Path_init (k : FieldKwargs) : result ParamInfo :=
  let! _ := py_assert (match k_default k with Is Ellipsis => true | _ => false end)
              $"Path parameters cannot have a default value" in
  Ok (param_init PathI None k).
Definition Query_init (k : FieldKwargs) : ParamInfo := param_init QueryI None k.
Definition Header_init (convert_underscores : bool) (k : FieldKwargs) : ParamInfo :=
  param_init HeaderI (Some convert_underscores) k.
Definition Cookie_init (k : FieldKwargs) : ParamInfo := param_init CookieI None k.
Definition Body_init (embed : option bool) (media_type : str) (k : FieldKwargs) : ParamInfo :=
  body_init BodyI embed media_type k.
Definition Form_init (media_type : str) (k : FieldKwargs) : ParamInfo := body_init FormI None media_type k.
Definition File_init (media_type : str) (k : FieldKwargs) : ParamInfo := body_init FileI None media_type k.

(** ** [param_functions.py]: no annotation is passed on *)
Definition without_annotation (k : FieldKwargs) : FieldKwargs :=
  mkKwargs (k_default k) (k_default_factory k) None (k_alias k) (k_alias_priority k)
    (k_validation_alias k) (k_serialization_alias k) (k_title k) (k_description k)
    (k_gt k) (k_ge k) (k_lt k) (k_le k) (k_min_length k) (k_max_length k) (k_pattern k) (k_regex k)
    (k_discriminator k) (k_strict k) (k_multiple_of k) (k_allow_inf_nan k) (k_max_digits k)
    (k_decimal_places k) (k_examples k) (k_example k) (k_openapi_examples k) (k_deprecated k)
    (k_include_in_schema k) (k_json_schema_extra k) (k_extra k).

Definition Path (k : FieldKwargs) : result ParamInfo := Path_init (without_annotation k).
Definition Query (k : FieldKwargs) : ParamInfo := Query_init (without_annotation k).
Definition Header (convert_underscores : bool) (k : FieldKwargs) : ParamInfo :=
  Header_init convert_underscores (without_annotation k).
Definition Cookie (k : FieldKwargs) : ParamInfo := Cookie_init (without_annotation k).
Definition Body (embed : option bool) (media_type : str) (k : FieldKwargs) : ParamInfo :=
  Body_init embed media_type (without_annotation k).
Definition Form (media_type : str) (k : FieldKwargs) : ParamInfo := Form_init media_type (without_annotation k).
Definition File (media_type : str) (k : FieldKwargs) : ParamInfo := File_init media_type (without_annotation k).

Definition Depends_ (dep : option call) (cache : bool) (sc : option dep_scope) : Depends :=
  mkDepends dep cache sc None.
Definition Security (dep : option call) (scopes : option (list str)) (cache : bool) : Depends :=
  mkDepends dep cache None (Some scopes).

(** ** Well-typed field informations *)

(** What holds of every field information a program can write down. *)
Definition info_ok (fi : FieldInfo) : Prop :=
  (fi_class fi = HeaderI ↔ is_Some (fi_convert_underscores fi))
  ∧ (is_Some (fi_embed fi) -> is_Body (fi_class fi) = true)
  ∧ fi_own_in fi = None
  ∧ (fi_class fi = PathI -> fi_default fi = None).

(** What the declaration [k] of class [c] says: the object is of that class, and
    has the default, the alias, the validation alias (by default the alias) and
    the options that were written. *)
Definition written_as (c : info_class) (convert embed : option bool) (k : FieldKwargs) (fi : FieldInfo) : Prop :=
  fi_class fi = c ∧ fi_convert_underscores fi = convert ∧ fi_embed fi = embed
  ∧ (∀ v, k_default k = Is (Value v) -> fi_default fi = Some v)
  ∧ (k_default k = Is Ellipsis -> fi_default fi = None)
  ∧ fi_alias fi = k_alias k
  ∧ fi_validation_alias fi = (if k_validation_alias k is Some v then Some v else k_alias k).

(** What holds of a field of a dependant for the path [p]. *)
Definition field_ok (p : str) (f : ModelField) : Prop :=
  (is_Some (fi_convert_underscores (field_info f)) -> fi_class (field_info f) = HeaderI)
  ∧ (is_Some (fi_embed (field_info f)) -> is_Body (fi_class (field_info f)) = true)
  ∧ is_Some (fi_alias (field_info f)) ∧ alias f ≠ []
  ∧ (field_name f ∈ get_path_param_names p -> fi_class (field_info f) = PathI ∧ required f = true).

Inductive written_infos : meta -> Prop :=
  | WrittenField fi : info_ok fi -> written_infos (MField fi)
  | WrittenDepends d : written_infos (MDepends d)
  | WrittenOther j : written_infos (MOther j).

Definition ann_metas (a : param_ann) : list meta := (split_annotation a).2.

(** The signatures of a program: its field informations are well typed, its
    parameters have names. *)
Definition signature_ok (pr : Program) : Prop :=
  ∀ c name an v, (name, (an, v)) ∈ signature pr c ->
    name ≠ [] ∧ Forall written_infos (ann_metas an) ∧ ∀ fi, v = DField fi -> info_ok fi.

(** ** Facts *)
Lemma dict_set_head {V} (k k' : str) (v v' : V) d :
  k ≠ k' -> dict_set ((k', v') :: d) k v = (k', v') :: dict_set d k v.
Proof. intros H. simpl. by rewrite decide_False. Qed.

Lemma dict_update_head {V} (k' : str) (v' : V) d o :
  Forall (fun kv => kv.1 ≠ k') o -> dict_update ((k', v') :: d) o = (k', v') :: dict_update d o.
Proof.
  unfold dict_update. revert d. induction o as [|[k v] o IH]; intros d Ho; [done|].
  inversion Ho; subst. cbn [foldl]. rewrite dict_set_head by done. by apply IH.
Qed.

(** A given default is among the keyword arguments. *)
Lemma field_kwargs_default k d :
  k_default k = Is d -> dict_get (field_kwargs k) $"default" = Some (KwDefault d).
Proof.
  intros E. unfold field_kwargs. rewrite E. cbn [kw_maybe app].
  match goal with |- context [($"default_factory", ?x) :: ?l] => generalize (($"default_factory", x) :: l) end.
  intros rest. destruct (k_examples k) as [z|]; rewrite ?(dict_set_head $"examples" $"default") by done;
    rewrite (dict_set_head $"deprecated" $"default") by done;
    rewrite (dict_update_head $"default") by (repeat constructor; done);
    rewrite (dict_set_head $"pattern" $"default") by done; reflexivity.
Qed.

Lemma dict_get_set_only d key v : dict_get d key = Some (Is v) -> dict_get (set_only d) key = Some v.
Proof.
  induction d as [|[k m] d IH]; [done|]. cbn [dict_get]. unfold set_only. case_decide as Hk.
  - intros [= ->]. simpl. by rewrite decide_True.
  - intros H. destruct m as [|w]; simpl; [by apply IH|]. rewrite decide_False by done. by apply IH.
Qed.

Ltac dict_get_step := first [rewrite dict_get_set_eq | rewrite dict_get_set_ne by done].

(** So are the alias and the validation alias. *)
Lemma field_kwargs_alias k : kwarg_str (field_kwargs k) $"alias" = k_alias k.
Proof.
  unfold kwarg_str, field_kwargs, kw_str. cbn zeta.
  erewrite dict_get_set_only; last first.
  - unfold dict_update. cbn [foldl]. destruct (k_examples k); repeat dict_get_step; reflexivity.
  - by destruct (k_alias k).
Qed.

Lemma field_kwargs_validation_alias k :
  kwarg_str (field_kwargs k) $"validation_alias" = if k_validation_alias k is Some v then Some v else k_alias k.
Proof.
  unfold kwarg_str, field_kwargs, kw_str. cbn zeta.
  erewrite dict_get_set_only; last first.
  - unfold dict_update. cbn [foldl]. repeat dict_get_step. reflexivity.
  - by destruct (k_validation_alias k), (k_alias k).
Qed.

Lemma param_init_written c convert k a :
  written_as c convert None k (as_field_info (param_init c convert (without_annotation k)) a).
Proof.
  unfold written_as, as_field_info, param_init. cbn -[field_kwargs].
  split_and!; try done; rewrite ?field_kwargs_alias, ?field_kwargs_validation_alias; try done.
  - intros v Hv. by rewrite (field_kwargs_default _ (Value v)).
  - intros Hv. by rewrite (field_kwargs_default _ Ellipsis).
Qed.

Lemma body_init_written c embed mt k a :
  written_as c None embed k (as_field_info (body_init c embed mt (without_annotation k)) a).
Proof. destruct (param_init_written c None k a) as (? & ? & ? & H). by split_and!; [| | |apply H..]. Qed.

Lemma param_init_ok c convert k a :
  c ≠ HeaderI ∧ convert = None ∨ c = HeaderI ∧ is_Some convert ->
  is_Param c = true -> (c = PathI -> k_default k = Is Ellipsis) ->
  info_ok (as_field_info (param_init c convert k) a).
Proof.
  intros Hc Hp Hd. unfold info_ok, as_field_info, param_init.
  cbn [fi_class fi_convert_underscores fi_embed fi_own_in fi_default pi_class pi_kwargs pi_convert_underscores pi_embed].
  split_and!.
  - destruct Hc as [[? ->]|[-> ?]]; split; try done; by intros [? ?].
  - by intros [? ?].
  - done.
  - intros ->. by rewrite (field_kwargs_default k Ellipsis (Hd eq_refl)).
Qed.

Lemma body_init_ok c embed mt k a :
  is_Body c = true -> info_ok (as_field_info (body_init c embed mt k) a).
Proof.
  intros Hb. unfold info_ok, as_field_info, body_init.
  cbn [fi_class fi_convert_underscores fi_embed fi_own_in fi_default pi_class pi_kwargs pi_convert_underscores pi_embed].
  split_and!; [|done|done|by intros ->]. split; [by intros ->|by intros [? ?]].
Qed.

(** What analysis keeps of it. *)
Definition half_ok (is_path : bool) (fi : FieldInfo) : Prop :=
  (is_Some (fi_convert_underscores fi) -> fi_class fi = HeaderI)
  ∧ (is_Some (fi_embed fi) -> is_Body (fi_class fi) = true)
  ∧ (is_path = true -> fi_class fi = PathI -> fi_default fi = None).

Lemma info_half_ok is_path fi : info_ok fi -> half_ok is_path fi.
Proof. intros (H1 & H2 & _ & H3). split_and!; [apply H1|done|auto]. Qed.

Lemma from_annotated_ok name a metas v is_path fi dep :
  Forall written_infos metas -> from_annotated name a metas v is_path = Ok (Some fi, dep) -> half_ok is_path fi.
Proof.
  intros Hm. unfold from_annotated. destruct (specific_annotation metas) as [m|] eqn:Es; [|done].
  assert (Hw : written_infos m).
  { unfold specific_annotation in Es. apply last_Some in Es as [l Hl].
    assert (m ∈ filter (fun m => is_specific m = true) metas) as [_ Hin]%list_elem_of_filter by (rewrite Hl; set_solver).
    by apply (proj1 (Forall_forall _ _) Hm). }
  destruct m as [fi0| |]; try done. inversion Hw as [? (H1 & H2 & _ & H3)| |]; subst.
  intros H. inv_ok. destruct v; inv_ok; simplify_eq; unfold half_ok; cbn; split_and!; try apply H1; try done;
    try (intros ->; done); auto.
Qed.

Lemma from_default_ok name a v found is_path fi dep :
  (∀ fi0, found.1 = Some fi0 -> half_ok is_path fi0) -> (∀ fi0, v = DField fi0 -> info_ok fi0) ->
  from_default name a v found = Ok (Some fi, dep) -> half_ok is_path fi.
Proof.
  intros Hf Hv. unfold from_default. destruct found as [f0 d0]. destruct v; intros H; inv_ok; simplify_eq; try (by apply Hf).
  exact (info_half_ok is_path _ (Hv _ eq_refl)).
Qed.

Lemma implied_half_ok a json v is_path : half_ok is_path (implied_info a json v is_path).
Proof.
  unfold implied_info, half_ok. destruct is_path; [cbn; by split_and!; try intros [? ?]|].
  repeat case_match; cbn; split_and!; try done; by intros [? ?].
Qed.

Lemma replace_char_nil c d s : replace_char c d s = [] -> s = [].
Proof. by destruct s. Qed.

Lemma param_alias_nonempty fi name : name ≠ [] -> param_alias fi name ≠ [].
Proof. intros Hn. unfold param_alias. repeat case_match; try done; by intros ?%replace_char_nil. Qed.

Lemma build_field_ok mp name fi is_path f p :
  name ≠ [] -> half_ok is_path fi -> (name ∈ get_path_param_names p -> is_path = true) ->
  build_field mp name fi is_path = Ok f -> field_ok p f ∧ field_name f = name.
Proof.
  intros Hn (H1 & H2 & H3) Hpath. unfold build_field. intros H. inv_ok.
  assert (Hx : fi_convert_underscores x = fi_convert_underscores fi ∧ fi_embed x = fi_embed fi
    ∧ fi_class x = fi_class fi ∧ fi_default x = fi_default fi ∧ (is_path = true -> fi_class fi = PathI)).
  { destruct is_path; inv_ok.
    - split_and!; try done. intros _. by eapply bool_decide_eq_true_1.
    - unfold in_default. by repeat case_match. }
  destruct Hx as (Hc & He & Hk & Hd & Hp). split; [|done]. unfold field_ok. cbn. rewrite Hc, He, Hk.
  split_and!; try done.
  - by apply param_alias_nonempty.
  - intros Hin. specialize (Hpath Hin). split; [by apply Hp|].
    unfold required. cbn. by rewrite Hd, H3 by auto.
Qed.

Lemma analyze_param_ok pr name an v is_path p details f :
  name ≠ [] -> Forall written_infos (ann_metas an) -> (∀ fi, v = DField fi -> info_ok fi) ->
  (name ∈ get_path_param_names p -> is_path = true) ->
  analyze_param pr name an v is_path = Ok details -> field details = Some f -> field_ok p f.
Proof.
  intros Hn Hm Hv Hp. unfold ann_metas in Hm. unfold analyze_param.
  destruct (split_annotation an) as [a metas]. cbn [snd] in Hm.
  intros (found & Hf & ([fi dep] & Hd & H)%rbind_Ok)%rbind_Ok Hfield.
  assert (Hhalf : ∀ fi0, fi = Some fi0 -> half_ok is_path fi0).
  { intros fi0 ->. eapply (from_default_ok name a v found is_path fi0 dep); [|exact Hv|exact Hd].
    intros fi1 Hfi1. destruct found as [g1 g2]. cbn in Hfi1. subst g1. by eapply from_annotated_ok. }
  destruct (lenient_issubclass a special_types); [by inv_ok|].
  destruct (match fi, resolve_dependency pr a <$> dep with None, None => _ | _, _ => _ end) as [fi1|] eqn:E; [|by inv_ok].
  assert (Hok : half_ok is_path fi1).
  { destruct fi, (resolve_dependency pr a <$> dep); simplify_eq; try by apply Hhalf. apply implied_half_ok. }
  inv_ok. cbn in Hfield. injection Hfield as ->. by eapply build_field_ok.
Qed.

Lemma dependant_param_fields pr i sub acc param acc' :
  signature_ok pr -> param ∈ signature pr (dep_call i) ->
  Forall (field_ok (dep_path i)) (all_fields acc.1.1) ->
  dependant_param pr i sub acc param = Ok acc' -> Forall (field_ok (dep_path i)) (all_fields acc'.1.1).
Proof.
  intros Hsig Hin Hacc. unfold dependant_param. destruct acc as [[ps ns] deps], param as [name [an v]].
  destruct (Hsig _ _ _ _ Hin) as (Hn & Hm & Hv). intros (details & Ha & H)%rbind_Ok.
  destruct (depends details) as [d|].
  { destruct (dependency d); [|done]. destruct (_ && _ && _); [done|]. by inv_ok. }
  destruct (add_non_field_param_to_dependency _ _ _); [by inv_ok|].
  destruct (field details) as [f|] eqn:Ef; [|done].
  assert (Hf : field_ok (dep_path i) f).
  { eapply (analyze_param_ok pr name an v _ (dep_path i)); [done..| |exact Ha|done]. intros ?. by apply bool_decide_eq_true. }
  destruct ps as [pp qp hp cp bp]. unfold all_fields in *. cbn in Hacc.
  rewrite !Forall_app in Hacc. destruct_and!.
  destruct (is_Body _); [|unfold add_param_to_fields in H; destruct (fi_in _) as [[]|]]; inv_ok; simplify_eq; cbn;
    rewrite ?Forall_app, ?Forall_singleton; by split_and!.
Qed.

Lemma get_dependant_fields pr fuel i d :
  signature_ok pr -> get_dependant pr fuel i = Ok d ->
  ∀ n, n ∈ preorder d -> Forall (field_ok (dep_path (info n))) (all_fields (params n)).
Proof.
  intros Hsig. revert i d. induction fuel as [|fuel IH]; intros i d; [done|]. cbn [get_dependant].
  intros ([[ps ns] deps] & Hf & [= <-])%rbind_Ok n Hn.
  assert (Hinv : Forall (field_ok (dep_path i)) (all_fields ps)
    ∧ ∀ s, s ∈ deps -> ∃ j, get_dependant pr fuel j = Ok s).
  { revert Hf. apply (rfold_invariant (fun _ acc => Forall (field_ok (dep_path i)) (all_fields acc.1.1)
      ∧ ∀ s, s ∈ acc.2 -> ∃ j, get_dependant pr fuel j = Ok s)); [split; [by repeat constructor|set_solver]|].
    intros seen s1 a s2 Hin [Hs1 Hd1] Hstep. split.
    - by eapply dependant_param_fields.
    - intros s Hs. unfold dependant_param in Hstep. destruct s1 as [[ps1 ns1] deps1], a as [name [an v]].
      apply rbind_Ok in Hstep as (details & _ & Hstep). cbn in Hd1.
      destruct (depends details) as [dd|].
      + destruct (dependency dd); [|done]. destruct (_ && _ && _); [done|].
        apply rbind_Ok in Hstep as (sd & Hsd & [= <-]). cbn in Hs.
        apply elem_of_app in Hs as [Hs|Hs%list_elem_of_singleton]; [by apply Hd1|subst; eauto].
      + destruct (add_non_field_param_to_dependency _ _ _); [inv_ok; by apply Hd1|].
        destruct (field details); [|done]. destruct (is_Body _); inv_ok; by apply Hd1. }
  destruct Hinv as [Hps Hdeps]. rewrite preorder_cons in Hn. cbn [dependencies] in Hn.
  apply elem_of_cons in Hn as [->|Hn]; [exact Hps|].
  apply elem_of_concat in Hn as (l & Hl & (s & -> & Hs)%list_elem_of_fmap).
  destruct (Hdeps s Hs) as [j Hj]. by eapply (IH j s Hj).
Qed.

(** ** Properties *)

(** C14: field informations are well typed from their declaration to the
    dependant.  Every function of [param_functions.py] makes an object of the
    class it is named after, with the default, the aliases and the options
    ([convert_underscores], [embed], [media_type]) it was given, and with no
    options of another class; path parameters have no default, because [Path]
    refuses any default but [...].  In the tree built for a program whose
    parameters are declared with such objects, every field of every dependant has
    a non-empty alias, converts underscores only in headers and embeds only
    bodies, and a field named in the path is a path parameter and required. *)
Theorem field_infos_typed pr fuel i d :
  (∀ k a,
     written_as QueryI None None k (as_field_info (Query k) a)
     ∧ written_as CookieI None None k (as_field_info (Cookie k) a)
     ∧ (∀ b, written_as HeaderI (Some b) None k (as_field_info (Header b k) a))
     ∧ (∀ e mt, written_as BodyI None e k (as_field_info (Body e mt k) a) ∧ pi_media_type (Body e mt k) = Some mt)
     ∧ (∀ mt, written_as FormI None None k (as_field_info (Form mt k) a) ∧ pi_media_type (Form mt k) = Some mt)
     ∧ (∀ mt, written_as FileI None None k (as_field_info (File mt k) a) ∧ pi_media_type (File mt k) = Some mt)
     ∧ (∀ pi, Path k = Ok pi -> written_as PathI None None k (as_field_info pi a))
     ∧ (is_ok (Path k) = true ↔ k_default k = Is Ellipsis))
  ∧ (∀ k a, info_ok (as_field_info (Query k) a) ∧ info_ok (as_field_info (Cookie k) a)
     ∧ (∀ b, info_ok (as_field_info (Header b k) a))
     ∧ (∀ e mt, info_ok (as_field_info (Body e mt k) a))
     ∧ (∀ mt, info_ok (as_field_info (Form mt k) a) ∧ info_ok (as_field_info (File mt k) a))
     ∧ (∀ pi, Path k = Ok pi -> info_ok (as_field_info pi a)))
  ∧ (signature_ok pr -> get_dependant pr fuel i = Ok d ->
     ∀ n f, n ∈ preorder d -> f ∈ all_fields (params n) -> field_ok (dep_path (info n)) f).
Proof.
  split_and!.
  - intros k a. split_and!; try (intros; apply param_init_written); try (intros; split; [apply body_init_written|done]).
    + unfold Path, Path_init. intros pi H. inv_ok. apply param_init_written.
    + unfold Path, Path_init. cbn [k_default without_annotation].
      destruct (k_default k) as [|[]]; cbn; split; try done; by intros [=].
  - intros k a. split_and!.
    + apply param_init_ok; [by left|done|done].
    + apply param_init_ok; [by left|done|done].
    + intros b. apply param_init_ok; [right; split; [done|by eexists]|done|done].
    + intros e mt. by apply body_init_ok.
    + intros mt. split; by apply body_init_ok.
    + unfold Path, Path_init. cbn [k_default without_annotation]. intros pi H. inv_ok.
      apply param_init_ok; [by left|done|]. intros _. cbn. by destruct (k_default k) as [|[]].
  - intros Hsig Hd n f Hn Hf.
    by apply (proj1 (Forall_forall _ _) (get_dependant_fields pr fuel i d Hsig Hd n Hn)).
Qed.

Definition query_kwargs (al : str) : FieldKwargs :=
  mkKwargs Unset Unset None (Some al) Unset None None None None None None None None None None None None None
    Unset Unset Unset Unset Unset None Unset None None true None [].

Definition search_program : Program :=
  mkProgram (fun _ => Function Sync) (fun _ => $"search")
    (fun c => if bool_decide (c = 0) then
       [($"item", (Written (Plain (Cls IntC)), EmptyD));
        ($"page", (Written (Plain (Cls IntC)), DField (as_field_info (Query (query_kwargs $"p")) AnyA)))]
     else []) (fun _ => 0) (fun _ => []) true.

Definition search_info : DepInfo := mkDepInfo None 0 None None true $"/search/{item}" None.

Lemma field_infos_typed_witness :
  ∃ d, get_dependant search_program 3 search_info = Ok d
    ∧ (alias <$> query_params (params d)) = [$"p"]
    ∧ ∀ f, f ∈ all_fields (params d) -> field_ok $"/search/{item}" f.
Proof.
  eexists. split; [vm_compute; reflexivity|]. split; [vm_compute; reflexivity|].
  intros f Hf. destruct (field_infos_typed search_program 3 search_info
    (match get_dependant search_program 3 search_info with Ok d => d | Raise _ => mkDependant search_info no_params no_names [] end))
    as (_ & Hctor & Htree).
  refine (Htree _ _ _ f (preorder_self _) _); [|vm_compute; reflexivity|exact Hf].
  intros c name an v. simpl. case_bool_decide; [|by intros ?%elem_of_nil].
  intros [Hp|[Hp|Hp%elem_of_nil]%elem_of_cons]%elem_of_cons; try done; injection Hp as -> -> ->;
    (split; [done|]); (split; [by constructor|]); intros fi Hfi; [done|].
  injection Hfi as <-. apply (proj1 (Hctor (query_kwargs $"p") AnyA)).
Defined.
