(* ===== verification/ParamArgs.v ===== *)
(** * ParamArgs: from request parameters to arguments

    The functions of [dependencies/utils.py] that look up the fields of a
    dependant in the parameters of a request and validate them:
    [request_params_to_args] over any mapping, and the variants over the
    dictionaries the compiled core parses. *)

From S2P Require Import Prelude PyStr Asgi DataStructures Annotations Dependants.

(** ** Validation *)

(** An entry of a validation error list. *)
Record error : Type := mkError {
  err_type : str;
  err_loc : list str;
  err_msg : str;
  err_input : value
}.

(** The arguments found so far and the errors. *)
Abbreviation args_state := (list (str * value) * list error)%type.

(** What [TypeAdapter.validate_python] does: a value, a [ValidationError] with
    its entries, a [TypeError] or [AttributeError] with its text, or any other
    exception. *)
Inductive validation : Type :=
  | Valid (v : value)
  | Invalid (errors : list error)
  | Fails (msg : str)
  | Crashes (e : exn).

(** Pydantic: validation of a value by the type adapter of a field, and the
    core schema of the field, when it is a dictionary, as its type and its
    keys. *)
Record Pydantic : Type := mkPydantic {
  validate_python : ModelField -> value -> validation;
  core_schema : ModelField -> option (str * list str)
}.

(** [_regenerate_error_with_loc] *)
Definition _regenerate_error_with_loc (errors : list error) (loc_prefix : list str) : list error :=
  (fun e => mkError (err_type e) (loc_prefix ++ err_loc e) (err_msg e) (err_input e)) <$> errors.

Definition get_missing_field_error (loc : list str) : error :=
  mkError $"missing" loc $"Field required" VNone.

Definition _TRIVIAL_CONSTRAINT_KEYS : list str :=
  [$"min_length"; $"max_length"; $"pattern"; $"ge"; $"le"; $"gt"; $"lt"; $"multiple_of";
   $"strict"; $"max_digits"; $"decimal_places"].

Section pydantic.
Context (py : Pydantic).

(** [ModelField.validate] *)
Definition validate (f : ModelField) (v : value) (loc : list str) : result (value * list error) :=
  match validate_python py f v with
  | Valid v' => Ok (v', [])
  | Invalid errors => Ok (VNone, _regenerate_error_with_loc errors loc)
  | Fails msg =>
      Ok (VNone, _regenerate_error_with_loc
                   [mkError $"response_validation_error" loc msg v] loc)
  | Crashes e => Raise e
  end.

(** The value already has the type of an unconstrained scalar schema; a
    [bool] is an [int]. *)
Definition type_matches (st : str) (v : value) : bool :=
  match v with
  | VStr _ => bool_decide (st = $"str")
  | VBool _ => bool_decide (st = $"int") || bool_decide (st = $"bool")
  | VInt _ => bool_decide (st = $"int") || bool_decide (st = $"float")
  | VFloat _ => bool_decide (st = $"float")
  | _ => false
  end.

Definition trivial_schema (f : ModelField) : option str :=
  match core_schema py f with
  | Some (st, keys) =>
      if bool_decide (st ∈ [$"str"; $"int"; $"float"; $"bool"])
         && forallb (fun k => negb (bool_decide (k ∈ keys))) _TRIVIAL_CONSTRAINT_KEYS
      then Some st else None
  | None => None
  end.

Definition _validate_value_with_model_field (f : ModelField) (v : value) (loc : list str)
    : result (value * list error) :=
  match v with
  | VNone => if required f then Ok (VNone, [get_missing_field_error loc]) else Ok (default f, [])
  | _ =>
      let loc0 := match loc with l :: _ => l | [] => [] end in
      match trivial_schema f with
      | Some st =>
          if negb (bool_decide (loc0 = $"body")) && type_matches st v then Ok (v, [])
          else validate f v loc
      | None => validate f v loc
      end
  end.

(** ** Mappings *)

(** What the code uses of the parameters it receives: lookup, keys, [getlist]
    when there is one, and the two [isinstance] tests it makes. *)
Record Mapping : Type := mkMapping {
  m_get : str -> value;
  m_keys : list str;
  m_getlist : option (str -> list value);
  m_is_multidict : bool;
  m_is_headers : bool
}.

Definition opt_value (o : option value) : value := get_or o VNone.
Definition opt_str (o : option str) : value := match o with Some s => VStr s | None => VNone end.

(** A plain dictionary. *)
Definition of_dict (d : list (str * value)) : Mapping :=
  mkMapping (fun k => opt_value (dict_get d k)) (dict_keys d) None false false.

(** [QueryParams] and [Headers] of [_datastructures_impl.py]. *)
Definition of_query_params (q : DsQueryParams.QueryParams) : Mapping :=
  mkMapping (fun k => opt_str (DsQueryParams.get q k None)) (DsQueryParams.keys q)
    (Some (fun k => VStr <$> DsQueryParams.getlist q k)) true false.

Definition of_headers (h : DsHeaders.Headers) : Mapping :=
  mkMapping (fun k => opt_str (DsHeaders.get h k None)) (DsHeaders.keys h)
    (Some (fun k => VStr <$> DsHeaders.getlist h k)) true true.

(** [Headers] of [_request.py], which is what [request.headers] is: no
    subclass of the former. *)
Definition of_request_headers (h : ReqHeaders.Headers) : Mapping :=
  mkMapping (fun k => opt_str (ReqHeaders.get h k None)) (ReqHeaders.keys h)
    (Some (fun k => VStr <$> ReqHeaders.getlist h k)) false false.

(** [FormData]: a mapping with [getlist] that is neither. *)
Definition of_fvalue (v : Form.fvalue) : value :=
  match v with Form.FText s => VStr s | Form.FBytes b => VBytes b | Form.FFile i => VUpload i end.

Definition of_form (f : Form.FormData) : Mapping :=
  mkMapping (fun k => opt_value (of_fvalue <$> Form.get f k)) (Form.keys f)
    (Some (fun k => of_fvalue <$> Form.getlist f k)) false false.

(** ** Lookup of a field *)
Definition _is_json_field (f : ModelField) : bool := fi_json (field_info f).

(** [len(value)] *)
Definition py_len (v : value) : result nat :=
  match v with
  | VStr s => Ok (length s)
  | VBytes b => Ok (length b)
  | VSeq _ l => Ok (length l)
  | VDict d => Ok (length d)
  | _ => Raise (TypeError $"object has no len()")
  end.

Definition list_value (l : list value) : value := VSeq KList l.

(** [is_sequence_field(field) and len(value) == 0] *)
Definition empty_sequence (f : ModelField) (v : value) : result bool :=
  if is_sequence_field f then let! n := py_len v in Ok (n =? 0)%nat else Ok false.

Definition empty_form_str (f : ModelField) (v : value) : bool :=
  match v with VStr [] => is_Form (fi_class (field_info f)) | _ => false end.

Definition is_none (v : value) : bool := match v with VNone => true | _ => false end.

Definition absent (f : ModelField) : value := if required f then VNone else default f.

Definition _get_multidict_value (f : ModelField) (values : Mapping) (al : option str)
    : result value :=
  let key := match al with Some ((_ :: _) as a) => a | _ => get_validation_alias f end in
  let v :=
    match m_getlist values with
    | Some getlist =>
        if negb (_is_json_field f) && is_sequence_field f && m_is_multidict values
        then list_value (getlist key) else m_get values key
    | None => m_get values key
    end in
  if is_none v || empty_form_str f v then Ok (absent f)
  else
    let! empty := empty_sequence f v in
    Ok (if empty then absent f else v).

(** ** The generic extraction *)
Definition msg_params : str := $"Params must be subclasses of Param".

(** The location of a field: where it is looked up and under which name. *)
Definition param_loc (f : ModelField) : result (list str) :=
  let! _ := py_assert (is_Param (fi_class (field_info f))) msg_params in
  match fi_in (field_info f) with
  | Some t => Ok [in_value t]
  | None => Raise (AttributeError $"'Param' object has no attribute 'in_'")
  end.

(** [if errors_: errors.extend(errors_) else: values[field.name] = v_] *)
Definition record_outcome (st : args_state) (f : ModelField) (o : value * list error)
    : args_state :=
  match o.2 with
  | [] => (dict_set st.1 (field_name f) o.1, st.2)
  | errs => (st.1, st.2 ++ errs)
  end.

(** The alias a header field is looked up under. *)
Definition header_alias (dflt : bool) (f : ModelField) : option str :=
  if get_or (fi_convert_underscores (field_info f)) dflt then
    let a := get_validation_alias f in
    Some (if bool_decide (a = field_name f) then replace_char 95 45 a else a)
  else None.

(** The dictionary a single model field is validated against: its fields, then
    the parameters that belong to no field. *)
Definition model_input_step (received : Mapping) (dflt : bool)
    (st : list (str * value) * list str) (f : ModelField)
    : result (list (str * value) * list str) :=
  let al := if m_is_headers received then header_alias dflt f else None in
  let! v := _get_multidict_value f received al in
  let d := if is_none v then st.1 else dict_set st.1 (get_validation_alias f) v in
  let key := match al with Some ((_ :: _) as a) => a | _ => get_validation_alias f end in
  Ok (d, st.2 ++ [key]).

Definition extra_param (received : Mapping) (processed : list str) (d : list (str * value))
    (key : str) : list (str * value) :=
  if bool_decide (key ∈ processed) then d
  else dict_set d key
         (match m_getlist received with
          | Some getlist =>
              match getlist key with [v] => v | l => list_value l end
          | None => m_get received key
          end).

Definition model_input (received : Mapping) (dflt : bool) (fields : list ModelField)
    : result (list (str * value)) :=
  let! (d, processed) := rfold (model_input_step received dflt) ([], []) fields in
  Ok (foldl (extra_param received processed) d (m_keys received)).

(** One field of the last loop. *)
Definition arg_step (received : Mapping) (st : args_state) (f : ModelField) : result args_state :=
  let! v := _get_multidict_value f received None in
  let! loc := param_loc f in
  let! o := _validate_value_with_model_field f v (loc ++ [get_validation_alias f]) in
  Ok (record_outcome st f o).

Definition request_params_to_args (pr : Program) (fields : list ModelField) (received : Mapping)
    : result args_state :=
  match fields with
  | [] => Ok ([], [])
  | first :: _ =>
      let single := match fields with [f] => is_model_field f | _ => false end in
      let fields_to_extract := if single then get_model_fields pr (type_ first) else fields in
      let dflt :=
        if single then get_or (fi_convert_underscores (field_info first)) true else true in
      let! input := model_input received dflt fields_to_extract in
      if single then
        let! loc := param_loc first in
        let! o := _validate_value_with_model_field first (VDict input) loc in
        Ok ([(field_name first, o.1)], o.2)
      else rfold (arg_step received) ([], []) fields
  end.

(** ** Extraction from the dictionaries of the core *)

Definition _get_scalar_type_tag (f : ModelField) : option str :=
  match fi_annotation (field_info f) with
  | Cls IntC => Some $"int"
  | Cls FloatC => Some $"float"
  | Cls BoolC => Some $"bool"
  | Cls StrC => Some $"str"
  | _ => None
  end.

(** [batch_coerce_scalars] of the core: from raw values and the specifications
    (alias, type tag, field name) to coerced values by field name. *)
Context (batch_coerce_scalars :
  list (str * value) -> list (str * str * str) -> result (list (str * value))).

(** [try: coerced = batch_coerce_scalars(...) except Exception: pass] *)
Definition coerce (raw : list (str * value)) (specs : list (str * str * str))
    : list (str * value) :=
  match specs with
  | [] => []
  | _ => match batch_coerce_scalars raw specs with Ok c => c | Raise _ => [] end
  end.

(** The common end of the three loops: validation of the value found, or of
    the coerced value. *)
Definition validate_found (coerced : list (str * value)) (st : args_state) (f : ModelField)
    (v : value) : result args_state :=
  let v := dict_getdefault coerced (field_name f) v in
  let! loc := param_loc f in
  let! o := _validate_value_with_model_field f v (loc ++ [get_validation_alias f]) in
  Ok (record_outcome st f o).

(** [values[field.name] = _safe_default(field.default); continue] *)
Definition use_default (st : args_state) (f : ModelField) : args_state :=
  (dict_set st.1 (field_name f) (default f), st.2).

(** Query parameters. *)
Definition raw_query_step (core_parsed : list (str * list str))
    (acc : list (str * value) * list (str * str * str)) (f : ModelField)
    : list (str * value) * list (str * str * str) :=
  let al := get_validation_alias f in
  match dict_get core_parsed al with
  | None => acc
  | Some field_values =>
      if is_sequence_field f && negb (_is_json_field f) then
        (dict_set acc.1 al (list_value (VStr <$> field_values)), acc.2)
      else
        let v := opt_str (head field_values) in
        (dict_set acc.1 al v,
         match _get_scalar_type_tag f with
         | Some tag => if is_none v then acc.2 else acc.2 ++ [(al, tag, field_name f)]
         | None => acc.2
         end)
  end.

Definition core_query_step (raw coerced : list (str * value)) (st : args_state) (f : ModelField)
    : result args_state :=
  let v := opt_value (dict_get raw (get_validation_alias f)) in
  let! nothing := if is_none v then Ok true else empty_sequence f v in
  if nothing then
    if required f then validate_found coerced st f VNone else Ok (use_default st f)
  else validate_found coerced st f v.

(** The dictionary a single model field is validated against. *)
Definition flat_step (d : list (str * value)) (kv : str * list str) : list (str * value) :=
  match kv.2 with
  | [] => d
  | [v] => dict_set d kv.1 (VStr v)
  | vs => dict_set d kv.1 (list_value (VStr <$> vs))
  end.

Definition _core_query_params_to_args (pr : Program) (fields : list ModelField)
    (core_parsed : list (str * list str)) : result args_state :=
  match fields with
  | [] => Ok ([], [])
  | first :: _ =>
      if (match fields with [f] => is_model_field f | _ => false end) then
        request_params_to_args pr fields (of_dict (foldl flat_step [] core_parsed))
      else
        let '(raw, specs) := foldl (raw_query_step core_parsed) ([], []) fields in
        rfold (core_query_step raw (coerce raw specs)) ([], []) fields
  end.

(** Header parameters: the keys of [core_headers] are lower-cased. *)
Definition header_key (dflt : bool) (f : ModelField) : str :=
  let a := get_validation_alias f in
  str_lower
    (if get_or (fi_convert_underscores (field_info f)) dflt && bool_decide (a = field_name f)
     then replace_char 95 45 a else a).

Definition raw_header_step (core_headers : list (str * str)) (dflt : bool)
    (d : list (str * value)) (f : ModelField) : list (str * value) :=
  match dict_get core_headers (header_key dflt f) with
  | Some v => dict_set d (get_validation_alias f) (VStr v)
  | None => d
  end.

Definition header_specs (d : list (str * value)) (fields : list ModelField)
    : list (str * str * str) :=
  omap (fun f =>
    match _get_scalar_type_tag f with
    | Some tag =>
        if dict_mem d (get_validation_alias f)
        then Some (get_validation_alias f, tag, field_name f) else None
    | None => None
    end) fields.

Definition core_scalar_step (lookup : ModelField -> option str) (coerced : list (str * value))
    (st : args_state) (f : ModelField) : result args_state :=
  match lookup f with
  | None => if required f then validate_found coerced st f VNone else Ok (use_default st f)
  | Some v => validate_found coerced st f (VStr v)
  end.

Definition extra_header (processed : list str) (d : list (str * value)) (kv : str * str)
    : list (str * value) :=
  if bool_decide (kv.1 ∈ processed) then d else dict_set d kv.1 (VStr kv.2).

Definition _core_header_params_to_args (pr : Program) (fields : list ModelField)
    (core_headers : list (str * str)) : result args_state :=
  match fields with
  | [] => Ok ([], [])
  | first :: _ =>
      let single := match fields with [f] => is_model_field f | _ => false end in
      let fields_to_extract := if single then get_model_fields pr (type_ first) else fields in
      let dflt :=
        if single then get_or (fi_convert_underscores (field_info first)) true else true in
      let input := foldl (raw_header_step core_headers dflt) [] fields_to_extract in
      if single then
        let processed := header_key dflt <$> fields_to_extract in
        let input := foldl (extra_header processed) input core_headers in
        let! loc := param_loc first in
        let! o := _validate_value_with_model_field first (VDict input) loc in
        Ok ([(field_name first, o.1)], o.2)
      else
        let coerced := coerce input (header_specs input fields) in
        rfold (core_scalar_step (fun f => dict_get core_headers (header_key dflt f)) coerced)
          ([], []) fields
  end.

(** Cookie parameters. *)
Definition cookie_specs (core_cookies : list (str * str)) (fields : list ModelField)
    : list (str * str * str) :=
  omap (fun f =>
    match _get_scalar_type_tag f with
    | Some tag =>
        if dict_mem core_cookies (get_validation_alias f)
        then Some (get_validation_alias f, tag, field_name f) else None
    | None => None
    end) fields.

Definition _core_cookie_params_to_args (fields : list ModelField)
    (core_cookies : list (str * str)) : result args_state :=
  let coerced :=
    coerce ((fun kv => (kv.1, VStr kv.2)) <$> core_cookies) (cookie_specs core_cookies fields) in
  rfold (core_scalar_step (fun f => dict_get core_cookies (get_validation_alias f)) coerced)
    ([], []) fields.
End pydantic.
