(* ===== verification/CoreQuery.v ===== *)
(** * CoreQuery: the query functions of the compiled core that the extraction
    of parameters calls

    [parse_query_string] and [batch_coerce_scalars] of
    [src/cpp_core/src/utils.cpp], with [percent_decode_into] of
    [percent_decode.hpp].  Strings of the core are their UTF-8 bytes. *)

From S2P Require Import Prelude PyStr Base64 DataStructures Responses Annotations Dependants ParamArgs.

(** ** Percent decoding *)
Definition hex_val (c : N) : Z :=
  if in_range 48 57 c then Z.of_N c - 48
  else if in_range 97 102 c then 10 + (Z.of_N c - 97)
  else if in_range 65 70 c then 10 + (Z.of_N c - 65)
  else -1.

Definition plus_space (c : N) : N := if (c =? 43)%N then 32%N else c.

(** An escape needs both digits to be there ([i + 2 < len]). *)
Fixpoint percent_decode (b : bytes) : bytes :=
  match b with
  | [] => []
  | c :: b' =>
      match b' with
      | h :: l :: b'' =>
          let hi := hex_val h in
          let lo := hex_val l in
          if (c =? 37)%N && (0 <=? hi) && (0 <=? lo)
          then Z.to_N (Z.lor (Z.shiftl hi 4) lo) :: percent_decode b''
          else plus_space c :: percent_decode b'
      | _ => plus_space c :: percent_decode b'
      end
  end.

(** ** [parse_query_string] *)

(** One turn of the loop, on the bytes up to the next ["&"]: the name ends at
    the first ["="]; [PyUnicode_FromStringAndSize] refuses bytes that are not
    UTF-8. *)
Definition core_piece (d : list (str * list str)) (piece : bytes)
    : result (list (str * list str)) :=
  let '(k, eq, v) := partition 61 piece in
  let! key := utf8_decode_strict (percent_decode k) in
  let! val := utf8_decode_strict (if eq then percent_decode v else []) in
  Ok (match dict_get d key with
      | Some existing => dict_set d key (existing ++ [val])
      | None => dict_set d key [val]
      end).

(** The loop [while (p < end)]; every turn consumes a byte at least, so the
    number of bytes is enough fuel. *)
Fixpoint core_pieces_loop (fuel : nat) (b : bytes) (d : list (str * list str))
    : result (list (str * list str)) :=
  match fuel, b with
  | _, [] => Ok d
  | O, _ => Ok d
  | S fuel', _ =>
      let '(piece, _, rest) := partition 38 b in
      let! d' := core_piece d piece in
      core_pieces_loop fuel' rest d'
  end.

Definition core_parse_query_string (query : str) : result (list (str * list str)) :=
  let! b := utf8_encode query in
  core_pieces_loop (length b) b [].

(** ** [batch_coerce_scalars]

    The result starts as a copy of the dictionary, and a specification that is
    no dictionary is skipped ([if (!PyDict_Check(spec)) continue]).  The code
    that extracts parameters passes tuples, so nothing is coerced and the keys
    are those of the dictionary passed, the aliases. *)
Definition batch_coerce_scalars (params : list (str * value)) (field_specs : list (str * str * str))
    : result (list (str * value)) :=
  Ok (foldl (fun result _ => result) params field_specs).

Lemma batch_coerce_copies params specs : batch_coerce_scalars params specs = Ok params.
Proof. unfold batch_coerce_scalars. f_equal. by induction specs. Qed.

(** ** The parser of the core and the one in Python *)
Lemma hex_val_spec c : hex_val c = if is_hex c then Z.of_N (hex_value c) else -1.
Proof. unfold hex_val, is_hex, hex_value, is_digit, ascii_upper_letter, ascii_lower_letter. char_cases. Qed.

Lemma hex_value_small c : is_hex c = true -> (hex_value c < 16)%N.
Proof. unfold is_hex, hex_value, is_digit. char_cases. Qed.

Lemma nibbles hi lo : 0 <= lo < 2 ^ 4 -> Z.lor (Z.shiftl hi 4) lo = hi * 16 + lo.
Proof.
  intros Hl. assert (Hland : Z.land (Z.shiftl hi 4) lo = 0).
  { apply Z.bits_inj'. intros n Hn. rewrite Z.land_spec, Z.bits_0, Z.shiftl_spec by done.
    destruct (decide (n < 4)); [by rewrite Z.testbit_neg_r by lia|].
    assert (Z.testbit lo n = false) as ->; [|by rewrite andb_false_r].
    destruct (decide (lo = 0)) as [->|]; [by rewrite Z.bits_0|]. apply Z.bits_above_log2; [lia|].
    eapply Z.lt_le_trans; [apply (Z.log2_lt_pow2 lo 4); lia|lia]. }
  pose proof (Z.add_lor_land (Z.shiftl hi 4) lo) as H. rewrite Hland, Z.shiftl_mul_pow2 in H by lia.
  rewrite Z.shiftl_mul_pow2 by lia. lia.
Qed.

Lemma plus_space_hex c : is_hex (plus_space c) = is_hex c ∧ (is_hex c = true -> plus_space c = c).
Proof. unfold plus_space. destruct (N.eqb_spec c 43) as [->|]; [split; [done|discriminate]|done]. Qed.

(** [unquote_to_bytes] of an escape, and of anything else. *)
Definition is_escape (s : bytes) : bool :=
  match s with c :: h :: l :: _ => (c =? 37)%N && is_hex h && is_hex l | _ => false end.

Lemma unquote_plain c s : is_escape (c :: s) = false -> unquote_to_bytes (c :: s) = c :: unquote_to_bytes s.
Proof.
  intros H. cbn [unquote_to_bytes]. destruct (N.eqb_spec c 37) as [->|]; [|done].
  destruct s as [|h [|l s]]; [done..|]. cbn [is_escape andb N.eqb Pos.eqb] in H. by rewrite H.
Qed.

Lemma decode_plain c s : is_escape (c :: s) = false -> percent_decode (c :: s) = plus_space c :: percent_decode s.
Proof.
  destruct s as [|h [|l s]]; [done..|]. cbn [is_escape]. intros H.
  change (percent_decode (c :: h :: l :: s)) with
    (if (c =? 37)%N && (0 <=? hex_val h) && (0 <=? hex_val l)
     then Z.to_N (Z.lor (Z.shiftl (hex_val h) 4) (hex_val l)) :: percent_decode s
     else plus_space c :: percent_decode (h :: l :: s)).
  rewrite !hex_val_spec. destruct (is_hex h), (is_hex l), (c =? 37)%N; try done;
    rewrite ?andb_false_r; try done; by rewrite (proj2 (Z.leb_gt _ _)) by lia.
Qed.

Lemma escape_plus s : is_escape (plus_space <$> s) = is_escape s.
Proof.
  destruct s as [|c [|h [|l s]]]; [done..|]. cbn. rewrite !(proj1 (plus_space_hex _)).
  unfold plus_space. by destruct (N.eqb_spec c 43) as [->|].
Qed.

(** Percent decoding is [unquote_to_bytes] after [replace("+", " ")]. *)
Lemma percent_decode_unquote s : percent_decode s = unquote_to_bytes (replace_char 43 32 s).
Proof.
  change (replace_char 43 32 s) with (plus_space <$> s).
  assert (H : ∀ n s, (length s <= n)%nat -> percent_decode s = unquote_to_bytes (plus_space <$> s));
    [|by eapply H].
  clear s. induction n as [|n IH]; intros [|c s] Hn; simpl in Hn; [done|lia|done|].
  destruct (is_escape (c :: s)) eqn:E.
  - destruct s as [|h [|l s]]; [done..|]. cbn [is_escape] in E.
    apply andb_true_iff in E as [[->%N.eqb_eq Hh]%andb_true_iff Hl]. csimpl.
    rewrite (proj2 (plus_space_hex h)), (proj2 (plus_space_hex l)), Hh, Hl, !hex_val_spec, Hh, Hl by done.
    cbn [andb]. pose proof (hex_value_small l Hl).
    rewrite !(proj2 (Z.leb_le _ _)), nibbles by lia. cbn. f_equal; [lia|]. apply IH. simpl in Hn. lia.
  - rewrite decode_plain, fmap_cons by done. rewrite unquote_plain; [f_equal; apply IH; lia|].
    by rewrite <-fmap_cons, escape_plus.
Qed.

(** ** Texts of ASCII characters *)
Lemma utf8_decode_ascii b : is_ascii b = true -> utf8_decode_strict b = Ok b.
Proof.
  intros H. assert (Hd : utf8_decode b = b).
  { unfold utf8_decode. induction b as [|c b IH]; [done|]. simpl in *. apply andb_true_iff in H as [-> Hb]. by rewrite IH. }
  unfold utf8_decode_strict. rewrite Hd, utf8_encode_ascii; [by rewrite bool_decide_eq_true_2|].
  by apply is_ascii_Forall.
Qed.

Lemma unquote_runs_ascii s run : is_ascii s = true -> unquote_runs s run = utf8_decode (unquote_to_bytes (run ++ s)).
Proof.
  revert run. induction s as [|c s IH]; intros run H; simpl in *; [by rewrite app_nil_r|].
  apply andb_true_iff in H as [-> H]. by rewrite IH, <-app_assoc.
Qed.

Lemma unquote_none s : contains_char 37 s = false -> unquote_to_bytes s = s.
Proof.
  induction s as [|c s IH]; [done|]. rewrite contains_char_false. intros H.
  rewrite unquote_plain; [|destruct s as [|? [|? ?]]; [done..|]; cbn [is_escape]; by rewrite (proj2 (N.eqb_neq _ _)) by set_solver].
  rewrite IH; [done|]. apply contains_char_false. set_solver.
Qed.

(** What the core reads is what Python reads. *)
Lemma unquote_strict s t :
  is_ascii s = true -> utf8_decode_strict (unquote_to_bytes s) = Ok t -> unquote s = t.
Proof.
  intros Ha Ht. unfold unquote. destruct (contains_char 37 s) eqn:E.
  - rewrite unquote_runs_ascii by done. unfold utf8_decode_strict in Ht. simpl. by case_bool_decide; simplify_eq.
  - rewrite unquote_none, utf8_decode_ascii in Ht by done. by injection Ht.
Qed.

Lemma split_on_partition c s :
  split_on c s = (let '(a, f, b) := partition c s in if f then a :: split_on c b else [a]).
Proof.
  induction s as [|d s IH]; [done|]. cbn [split_on partition]. destruct (d =? c)%N; [done|].
  rewrite IH. by destruct (partition c s) as [[a []] b].
Qed.

Lemma partition_parts c s a f b :
  partition c s = (a, f, b) ->
  f = contains_char c s ∧ (f = false -> a = s ∧ b = []) ∧ (length b <= length s)%nat
  ∧ (f = true -> (length b < length s)%nat) ∧ (is_ascii s = true -> is_ascii a = true ∧ is_ascii b = true).
Proof.
  revert a f b. induction s as [|d s IH]; intros a f b; cbn [partition contains_char existsb is_ascii forallb]; [by intros [= <- <- <-]|].
  rewrite (N.eqb_sym c d). destruct (d =? c)%N.
  - intros [= <- <- <-]. split_and!; [done..|simpl; lia|simpl; lia|]. intros [? ?]%andb_true_iff. done.
  - destruct (partition c s) as [[a' f'] b']. destruct (IH _ _ _ eq_refl) as (Hf & Hn & Hl & Ht & Hs). intros [= <- <- <-].
    split_and!; [done| |simpl; lia|simpl; intros; specialize (Ht H); lia|].
    + intros [-> ->]%Hn. done.
    + intros [Hd [Ha Hb]%Hs]%andb_true_iff. simpl. by rewrite Hd.
Qed.

(** The name and the value of a piece decode as UTF-8. *)
Definition decodes (w : str) : Prop :=
  let '(k, _, v) := partition 61 w in
  is_ok (utf8_decode_strict (unquote_to_bytes (replace_char 43 32 k))) = true
  ∧ is_ok (utf8_decode_strict (unquote_to_bytes (replace_char 43 32 v))) = true.

(** A query string both parsers read alike: ASCII, no empty piece between two
    ampersands, escapes that spell UTF-8. *)
Record plain_query (qs : str) : Prop := {
  pq_ascii : is_ascii qs = true;
  pq_pieces : [] ∉ removelast (split_on 38 qs);
  pq_decodes : Forall decodes (split_on 38 qs)
}.

Lemma ascii_plus s : is_ascii s = true -> is_ascii (replace_char 43 32 s) = true.
Proof.
  rewrite !is_ascii_Forall. unfold replace_char. rewrite Forall_fmap. intros H. eapply Forall_impl; [exact H|].
  intros c Hc. simpl. by destruct (c =? 43)%N.
Qed.

Lemma core_piece_step d w :
  w ≠ [] -> is_ascii w = true -> decodes w -> core_piece d w = Ok (qs_step d w).
Proof.
  intros Hw Ha Hd. unfold core_piece, qs_step, qs_part, decodes in *.
  destruct w as [|c w]; [done|]. remember (c :: w) as s. clear Hw.
  destruct (partition 61 s) as [[k f] v] eqn:E. destruct (partition_parts _ _ _ _ _ E) as (Hf & Hn & _ & _ & Hs).
  destruct (Hs Ha) as [Hk Hv]. destruct Hd as [Hdk Hdv]. rewrite <-Hf.
  assert ((if f then (k, v) else (s, [])) = (k, v)) as -> by (destruct f; [done|by destruct (Hn eq_refl) as [-> ->]]).
  assert ((if f then percent_decode v else []) = percent_decode v) as -> by (destruct f; [done|by destruct (Hn eq_refl) as [_ ->]]).
  rewrite !percent_decode_unquote.
  destruct (utf8_decode_strict (unquote_to_bytes (replace_char 43 32 k))) as [k'|] eqn:Ek; [|done].
  destruct (utf8_decode_strict (unquote_to_bytes (replace_char 43 32 v))) as [v'|] eqn:Ev; [|done].
  rewrite (unquote_strict _ k'), (unquote_strict _ v') by auto using ascii_plus. simpl. f_equal.
  unfold multi_append, dict_getdefault. by destruct (dict_get d k').
Qed.

Lemma core_pieces_python fuel b d :
  (length b <= fuel)%nat -> plain_query b ->
  core_pieces_loop fuel b d = Ok (foldl qs_step d (split_on 38 b)).
Proof.
  revert b d. induction fuel as [|fuel IH]; intros [|c b] d Hn Hp; simpl in Hn; [done|lia|done|].
  cbn [core_pieces_loop]. remember (c :: b) as s.
  assert (Hs : s ≠ [] ∧ (length s <= S fuel)%nat) by (subst; simpl; split; [done|lia]). clear Heqs Hn.
  destruct Hs as [Hs Hn]. destruct Hp as [Ha Hpc Hd]. rewrite split_on_partition in Hpc, Hd |- *.
  destruct (partition 38 s) as [[w f] r] eqn:E. destruct (partition_parts _ _ _ _ _ E) as (_ & Hnf & _ & Hl & Has).
  destruct (Has Ha) as [Hw Hr]. destruct f.
  - inversion Hd as [|?? Hdw Hdr]; subst. pose proof (split_on_nonempty 38 r).
    destruct (split_on 38 r) as [|x xs] eqn:Er; [done|]. change (removelast (w :: x :: xs)) with (w :: removelast (x :: xs)) in Hpc.
    rewrite core_piece_step; [|set_solver|done|done]. cbn [rbind foldl]. specialize (Hl eq_refl).
    rewrite IH, Er; [done|lia|]. split; rewrite ?Er; [done|set_solver|done].
  - destruct (Hnf eq_refl) as [-> ->]. apply Forall_cons in Hd as [Hd _].
    rewrite core_piece_step by done. cbn [rbind foldl]. by destruct fuel.
Qed.

(** The core's parser returns what the parser in Python returns. *)
Lemma core_parse_python qs : plain_query qs -> core_parse_query_string qs = Ok (_parse_qs_python qs).
Proof.
  intros H. unfold core_parse_query_string. rewrite utf8_encode_ascii by (apply is_ascii_Forall, H).
  simpl. rewrite core_pieces_python by done. unfold _parse_qs_python. by destruct qs.
Qed.

(** Where they part: an empty piece is a parameter without a name for the core,
    and an escape that spells no UTF-8 makes it raise. *)
Example core_reads_empty_piece :
  core_parse_query_string $"a=1&&b=2" = Ok [($"a", [$"1"]); ([], [[]]); ($"b", [$"2"])]
  ∧ _parse_qs_python $"a=1&&b=2" = [($"a", [$"1"]); ($"b", [$"2"])].
Proof. split; reflexivity. Qed.

Example core_refuses_bytes :
  core_parse_query_string $"a=%ff" = Raise UnicodeDecodeError
  ∧ _parse_qs_python $"a=%ff" = [($"a", [[65533%N]])].
Proof. split; reflexivity. Qed.
