(* ===== verification/ParamFacts.v ===== *)
(** * ParamFacts: what the extraction of parameters guarantees

    All extraction loops are instances of one scheme, an outcome per field; the
    extraction from the core's dictionary agrees with the generic one. *)

From S2P Require Import Prelude PyStr Asgi Base64 DataStructures Annotations Dependants ParamArgs CoreQuery.

(** ** One outcome per field *)

Abbreviation outcome := (value * list error)%type.

(** The arguments and errors of a list of fields with their outcomes. *)
Definition collect (st : args_state) (l : list (ModelField * outcome)) : args_state :=
  foldl (fun st fo => record_outcome st fo.1 fo.2) st l.

Lemma fields_loop (step : args_state -> ModelField -> result args_state)
    (out : ModelField -> result outcome) st fields :
  (∀ st f, f ∈ fields -> step st f = rmap (record_outcome st f) (out f)) ->
  rfold step st fields
  = rmap (fun os => collect st (zip fields os)) (rmapM out fields).
Proof.
  revert st. induction fields as [|f fields IH]; intros st Hstep; simpl; [done|].
  rewrite Hstep by set_solver. unfold rmap. destruct (out f) as [o|]; simpl; [|done].
  rewrite IH by (intros; apply Hstep; set_solver). unfold rmap.
  by destruct (rmapM out fields).
Qed.

Lemma collect_errors st l : (collect st l).2 = st.2 ++ concat ((fun fo => fo.2.2) <$> l).
Proof.
  revert st. induction l as [|[f [v es]] l IH]; intros st; simpl; [by rewrite app_nil_r|].
  rewrite IH. unfold record_outcome. destruct es; simpl; [done|]. by rewrite <-app_assoc.
Qed.

Lemma collect_get st l x :
  NoDup ((field_name ∘ fst) <$> l) ->
  dict_get (collect st l).1 x
  = match list_find (fun fo => field_name fo.1 = x ∧ fo.2.2 = []) l with
    | Some (_, fo) => Some fo.2.1
    | None => dict_get st.1 x
    end.
Proof.
  revert st. induction l as [|[f [v es]] l IH]; intros st Hnd; [done|]. csimpl in Hnd.
  inversion Hnd as [|?? Hni Hnd']; subst. cbn [collect foldl]. fold (collect (record_outcome st f (v, es)) l).
  rewrite IH by done. cbn [list_find]. unfold record_outcome. simpl.
  case_decide as Hd; simpl in Hd.
  - destruct Hd as [<- ->]. simpl.
    destruct (list_find _ l) as [[i fo]|] eqn:E; simpl.
    + apply list_find_Some in E as (Hl & [Hn _] & _). exfalso. apply Hni.
      apply list_elem_of_fmap. exists fo. split; [by simpl|]. by eapply list_elem_of_lookup_2.
    + by rewrite dict_get_set_eq.
  - destruct es as [|e es]; simpl; [rewrite dict_get_set_ne by naive_solver|];
      by destruct (list_find _ l) as [[i fo]|].
Qed.

(** The names that got a value. *)
Lemma collect_mem l f o :
  NoDup ((field_name ∘ fst) <$> l) -> (f, o) ∈ l ->
  dict_get (collect ([], []) l).1 (field_name f) = if decide (o.2 = []) then Some o.1 else None.
Proof.
  intros Hnd Hin. rewrite collect_get by done.
  assert (Huniq : ∀ fo, fo ∈ l -> field_name fo.1 = field_name f -> fo = (f, o)).
  { intros fo Hfo Hn. by apply (NoDup_fmap_elem (field_name ∘ fst) l). }
  destruct (list_find _ l) as [[i fo]|] eqn:E.
  - apply list_find_Some in E as (Hl & [Hn He] & _).
    rewrite (Huniq fo) in He |- *; [|by eapply list_elem_of_lookup_2|done|by eapply list_elem_of_lookup_2|done].
    by rewrite decide_True.
  - apply list_find_None in E. rewrite Forall_forall in E. specialize (E _ Hin). simpl in E.
    rewrite decide_False; [done|]. naive_solver.
Qed.

Lemma collect_spec fields os values errors :
  NoDup (field_name <$> fields) -> length fields = length os ->
  collect ([], []) (zip fields os) = (values, errors) ->
  errors = concat (os.*2)
  ∧ (∀ i f o, fields !! i = Some f -> os !! i = Some o ->
       dict_get values (field_name f) = if decide (o.2 = []) then Some o.1 else None)
  ∧ (∀ x, x ∉ field_name <$> fields -> dict_get values x = None)
  ∧ (errors = [] ↔ ∀ f, f ∈ fields -> is_Some (dict_get values (field_name f))).
Proof.
  intros Hnd Hlen Hv.
  assert (Hfst : (zip fields os).*1 = fields) by (apply fst_zip; lia).
  assert (Hnd' : NoDup ((field_name ∘ fst) <$> zip fields os)) by by rewrite list_fmap_compose, Hfst.
  assert (Herr : errors = concat (os.*2)).
  { replace errors with ((collect ([], []) (zip fields os)).2) by by rewrite Hv.
    rewrite collect_errors. simpl. f_equal.
    transitivity (((zip fields os).*2).*2); [by rewrite <-list_fmap_compose|].
    rewrite snd_zip by lia. done. }
  assert (Hval : ∀ i f o, fields !! i = Some f -> os !! i = Some o ->
    dict_get values (field_name f) = if decide (o.2 = []) then Some o.1 else None).
  { intros i f o Hf Ho. replace values with ((collect ([], []) (zip fields os)).1) by by rewrite Hv.
    apply collect_mem; [done|]. apply list_elem_of_lookup. exists i.
    by rewrite lookup_zip_with, Hf, Ho. }
  split_and!; [done|done| |].
  - intros x Hx. replace values with ((collect ([], []) (zip fields os)).1) by by rewrite Hv.
    rewrite collect_get by done. destruct (list_find _ _) as [[i fo]|] eqn:E; [|done].
    apply list_find_Some in E as (Hl & [<- _] & _). exfalso. apply Hx, list_elem_of_fmap.
    exists fo.1. split; [done|]. rewrite <-Hfst. apply list_elem_of_fmap.
    exists fo. split; [done|]. by eapply list_elem_of_lookup_2.
  - rewrite Herr. split.
    + intros He f [i Hi]%list_elem_of_lookup.
      destruct (lookup_lt_is_Some_2 os i) as [o Ho]; [apply lookup_lt_Some in Hi; lia|].
      rewrite (Hval i f o Hi Ho), decide_True; [done|].
      apply concat_nil_elem with (os.*2); [done|]. apply list_elem_of_fmap.
      exists o. split; [done|]. by eapply list_elem_of_lookup_2.
    + intros Hall. apply concat_nil_intro. intros l (o & -> & [i Ho]%list_elem_of_lookup)%list_elem_of_fmap.
      destruct (lookup_lt_is_Some_2 fields i) as [f Hf]; [apply lookup_lt_Some in Ho; lia|].
      destruct (Hall f) as [v Hvf]; [by eapply list_elem_of_lookup_2|].
      rewrite (Hval i f o Hf Ho) in Hvf. by case_decide.
Qed.

(** ** The generic extraction *)
Section generic.
Context (py : Pydantic).

(** The outcome of one field: looked up, then validated. *)
Definition generic_out (received : Mapping) (f : ModelField) : result outcome :=
  let! v := _get_multidict_value f received None in
  let! loc := param_loc f in
  _validate_value_with_model_field py f v (loc ++ [get_validation_alias f]).

Lemma arg_step_out received st f :
  arg_step py received st f = rmap (record_outcome st f) (generic_out received f).
Proof.
  unfold arg_step, generic_out, rmap. destruct (_get_multidict_value _ _ _); simpl; [|done].
  by destruct (param_loc f).
Qed.

Definition single_model (fields : list ModelField) : bool :=
  match fields with [f] => is_model_field f | _ => false end.

Lemma request_params_loop pr fields received d :
  single_model fields = false -> model_input received true fields = Ok d ->
  request_params_to_args py pr fields received
  = rmap (fun os => collect ([], []) (zip fields os)) (rmapM (generic_out received) fields).
Proof.
  intros Hs Hd. destruct fields as [|f fields]; [done|].
  rewrite <-(fields_loop (arg_step py received)) by (intros; apply arg_step_out).
  unfold request_params_to_args, single_model in *. rewrite Hs. by rewrite Hd.
Qed.

(** A required field that is absent is reported as missing. *)
Lemma generic_out_missing received f t :
  required f = true -> m_get received (get_validation_alias f) = VNone ->
  (m_is_multidict received = true -> is_sequence_field f = false) ->
  is_Param (fi_class (field_info f)) = true -> fi_in (field_info f) = Some t ->
  generic_out received f
  = Ok (VNone, [get_missing_field_error [in_value t; get_validation_alias f]]).
Proof.
  intros Hr Hg Hs Hp Hi. unfold generic_out, _get_multidict_value.
  assert (Hv : (match m_getlist received with
    | Some getlist =>
        if negb (_is_json_field f) && is_sequence_field f && m_is_multidict received
        then list_value (getlist (get_validation_alias f)) else m_get received (get_validation_alias f)
    | None => m_get received (get_validation_alias f)
    end) = VNone).
  { destruct (m_getlist received); [|done]. destruct (m_is_multidict received); [|by rewrite andb_false_r].
    by rewrite Hs, andb_false_r by done. }
  rewrite Hv. simpl. unfold absent. rewrite Hr. unfold param_loc. rewrite Hp, Hi. simpl.
  by rewrite Hr.
Qed.
End generic.

(** The generic extraction ([request_params_to_args], several fields or a
    single one that is no model).  When it returns, every field has one outcome
    (its lookup, validated): a field without errors is in the arguments with its
    validated value, one with errors is not, and all errors are reported in
    field order; so there are no errors exactly when every field has a value,
    and nothing but the fields is in the arguments.  A required scalar field the
    request does not have is reported as missing, at its location and alias. *)
Theorem request_params_complete py pr fields received values errors :
  single_model fields = false -> NoDup (field_name <$> fields) ->
  request_params_to_args py pr fields received = Ok (values, errors) ->
  (∃ os, Forall2 (fun f o => generic_out py received f = Ok o) fields os
     ∧ errors = concat (os.*2)
     ∧ ∀ i f o, fields !! i = Some f -> os !! i = Some o ->
         dict_get values (field_name f) = if decide (o.2 = []) then Some o.1 else None)
  ∧ (errors = [] ↔ ∀ f, f ∈ fields -> is_Some (dict_get values (field_name f)))
  ∧ (∀ x, x ∉ field_name <$> fields -> dict_get values x = None)
  ∧ (∀ f t, f ∈ fields -> required f = true -> is_Param (fi_class (field_info f)) = true ->
       fi_in (field_info f) = Some t -> is_sequence_field f = false ->
       m_get received (get_validation_alias f) = VNone ->
       get_missing_field_error [in_value t; get_validation_alias f] ∈ errors
       ∧ dict_get values (field_name f) = None).
Proof.
  intros Hs Hnd Hr.
  assert (∃ d, model_input received true fields = Ok d) as [d Hd].
  { destruct fields as [|f fields]; [by eexists|]. unfold request_params_to_args, single_model in *.
    rewrite Hs in Hr. destruct (model_input received true (f :: fields)); [by eexists|done]. }
  rewrite (request_params_loop py pr fields received d Hs Hd) in Hr. unfold rmap in Hr.
  apply rbind_Ok in Hr as (os & Hos%rmapM_Ok & [= Hv]).
  destruct (collect_spec fields os values errors) as (Herr & Hval & Hnone & Hiff);
    [done|by eapply Forall2_length|done|].
  split_and!; [by exists os|done|done|].
  intros f t Hf Hreq Hp Hi Hsq Hg. apply list_elem_of_lookup in Hf as [j Hj].
  destruct (Forall2_lookup_l _ _ _ _ _ Hos Hj) as (o & Ho & Hout).
  rewrite (generic_out_missing py received f t) in Hout by done. injection Hout as <-.
  split; [|by rewrite (Hval j f _ Hj Ho)].
  rewrite Herr. apply elem_of_concat. exists [get_missing_field_error [in_value t; get_validation_alias f]].
  split; [set_solver|]. apply list_elem_of_fmap. eexists. split; [|by eapply list_elem_of_lookup_2]. done.
Qed.

(** ** The extraction from the core's query dictionary *)

(** What the core dictionary holds for a field. *)
Definition raw_query (multi : list (str * list str)) (f : ModelField) : option value :=
  (fun vs => if is_sequence_field f && negb (_is_json_field f)
             then list_value (VStr <$> vs) else opt_str (head vs))
  <$> dict_get multi (get_validation_alias f).

Lemma raw_query_step_get multi acc f g :
  dict_get (raw_query_step multi acc f).1 (get_validation_alias g)
  = if decide (get_validation_alias f = get_validation_alias g)
    then match raw_query multi f with
         | Some v => Some v
         | None => dict_get acc.1 (get_validation_alias g)
         end
    else dict_get acc.1 (get_validation_alias g).
Proof.
  unfold raw_query_step, raw_query.
  destruct (dict_get multi (get_validation_alias f)); simpl; [|by case_decide].
  destruct (_ && _); simpl; apply dict_get_set.
Qed.

Lemma raw_query_fold_other multi fields acc g :
  get_validation_alias g ∉ get_validation_alias <$> fields ->
  dict_get (foldl (raw_query_step multi) acc fields).1 (get_validation_alias g)
  = dict_get acc.1 (get_validation_alias g).
Proof.
  revert acc. induction fields as [|f fields IH]; intros acc Hni; [done|]. cbn [foldl].
  csimpl in Hni. rewrite IH by set_solver. rewrite raw_query_step_get.
  by rewrite decide_False by set_solver.
Qed.

Lemma raw_query_fold multi fields acc g :
  NoDup (get_validation_alias <$> fields) -> g ∈ fields ->
  dict_get acc.1 (get_validation_alias g) = None ->
  dict_get (foldl (raw_query_step multi) acc fields).1 (get_validation_alias g)
  = raw_query multi g.
Proof.
  revert acc. induction fields as [|f fields IH]; intros acc Hnd Hg Hacc; [set_solver|].
  csimpl in Hnd. inversion Hnd as [|?? Hni Hnd']; subst. cbn [foldl].
  apply elem_of_cons in Hg as [->|Hg].
  - rewrite raw_query_fold_other, raw_query_step_get, decide_True by done.
    by destruct (raw_query multi f).
  - apply IH; [done|done|]. rewrite raw_query_step_get, decide_False; [done|].
    intros He. apply Hni. rewrite He. by apply list_elem_of_fmap_2.
Qed.

(** The dictionary has aliases for keys. *)
Lemma raw_query_fold_keys multi fields acc k v :
  dict_get (foldl (raw_query_step multi) acc fields).1 k = Some v ->
  dict_get acc.1 k = Some v ∨ ∃ g, g ∈ fields ∧ get_validation_alias g = k.
Proof.
  revert acc. induction fields as [|f fields IH]; intros acc; cbn [foldl]; [by left|].
  intros [H|(g & ? & ?)]%IH; [|right; exists g; set_solver].
  destruct (decide (get_validation_alias f = k)) as [<-|Hne]; [right; exists f; set_solver|].
  left. unfold raw_query_step in H. destruct (dict_get multi _); [|done].
  by destruct (_ && _); simpl in H; rewrite dict_get_set_ne in H.
Qed.

Section query.
Context (py : Pydantic).

(** Defaults are valid values of their fields. *)
Definition defaults_valid (fields : list ModelField) : Prop :=
  ∀ f, f ∈ fields -> required f = false ->
  ∀ loc, _validate_value_with_model_field py f (default f) loc = Ok (default f, []).

(** Query fields for which the dictionary of the core can stand in for the
    query string: distinct names and aliases, no name that is the alias of
    another field, no sequence read from one JSON text, valid defaults. *)
Record query_fields (fields : list ModelField) : Prop := {
  qf_names : NoDup (field_name <$> fields);
  qf_aliases : NoDup (get_validation_alias <$> fields);
  qf_apart : ∀ f g, f ∈ fields -> g ∈ fields -> get_validation_alias g = field_name f -> f = g;
  qf_query : Forall (fun f => fi_class (field_info f) = QueryI) fields;
  qf_json : Forall (fun f => is_sequence_field f && _is_json_field f = false) fields;
  qf_defaults : defaults_valid fields
}.

(** The outcome of a field in the core's loop. *)
Definition core_out (raw coerced : list (str * value)) (f : ModelField) : result outcome :=
  let v := opt_value (dict_get raw (get_validation_alias f)) in
  let! nothing := if is_none v then Ok true else empty_sequence f v in
  if nothing && negb (required f) then Ok (default f, [])
  else
    let v := dict_getdefault coerced (field_name f) (if nothing then VNone else v) in
    let! loc := param_loc f in
    _validate_value_with_model_field py f v (loc ++ [get_validation_alias f]).

Lemma core_query_step_out raw coerced st f :
  core_query_step py raw coerced st f = rmap (record_outcome st f) (core_out raw coerced f).
Proof.
  unfold core_query_step, core_out, validate_found, use_default, rmap.
  destruct (if is_none _ then _ else _) as [[]|]; simpl; [|by destruct (param_loc f)|done].
  destruct (required f); simpl; [by destruct (param_loc f)|done].
Qed.

(** Both lookups of a query field find the same, when a scalar is given at most
    once. *)
Lemma lookup_agree qs f :
  let q := DsQueryParams.init qs in
  let multi := DsQueryParams.the_multi q in
  let cv := opt_value (raw_query multi f) in
  fi_class (field_info f) = QueryI ->
  (is_sequence_field f && negb (_is_json_field f) = false ->
   (length (DsQueryParams.getlist q (get_validation_alias f)) <= 1)%nat) ->
  ∃ b, (if is_none cv then Ok true else empty_sequence f cv) = Ok b
    ∧ _get_multidict_value f (of_query_params q) None = Ok (if b then absent f else cv).
Proof.
  intros q multi cv Hc Hone.
  destruct (DsQueryFacts.query_the_parsed q I) as [Hm Hd]. fold multi in Hm.
  set (k := get_validation_alias f) in *.
  assert (Hget : DsQueryParams.get q k None = dict_get multi k ≫= last).
  { unfold DsQueryParams.get. rewrite Hd, last_values_get, <-Hm by apply group_wf.
    by destruct (dict_get multi k ≫= last). }
  assert (Hlist : DsQueryParams.getlist q k = get_or (dict_get multi k) []) by done.
  assert (Hne : dict_get multi k ≠ Some []).
  { rewrite Hm, group_get. by destruct (values_of _ _). }
  unfold _get_multidict_value. cbn [m_getlist m_get m_is_multidict of_query_params].
  fold k. rewrite andb_true_r, (andb_comm (negb _)). unfold cv, raw_query. fold k.
  destruct (is_sequence_field f && negb (_is_json_field f)) eqn:Eq.
  - rewrite Hlist. apply andb_true_iff in Eq as [Eseq _]. unfold empty_sequence. rewrite Eseq.
    destruct (dict_get multi k) as [[|v vs]|]; [done| |]; simpl; by eexists.
  - specialize (Hone eq_refl). rewrite Hlist in Hone. rewrite Hget.
    destruct (dict_get multi k) as [[|v [|]]|]; [done| |simpl in Hone; lia|by exists true].
    simpl. rewrite Hc. simpl. unfold empty_sequence.
    destruct (is_sequence_field f), v; simpl; by eexists.
Qed.

(** What the core found of a field is no empty sequence. *)
Lemma found_not_empty multi f v b :
  dict_get multi (get_validation_alias f) ≠ Some [] -> is_sequence_field f && _is_json_field f = false ->
  raw_query multi f = Some v -> (if is_none v then Ok true else empty_sequence f v) = Ok b -> b = false.
Proof.
  unfold raw_query, empty_sequence. intros Hne Hj Hv Hb.
  destruct (dict_get multi _) as [[|w ws]|]; [done| |done]. injection Hv as <-.
  destruct (is_sequence_field f), (_is_json_field f); try done; simpl in Hb; congruence.
Qed.

Lemma outs_agree fields qs f :
  let q := DsQueryParams.init qs in
  let multi := DsQueryParams.the_multi q in
  let rs := foldl (raw_query_step multi) ([], []) fields in
  query_fields fields -> f ∈ fields ->
  (is_sequence_field f && negb (_is_json_field f) = false ->
   (length (DsQueryParams.getlist q (get_validation_alias f)) <= 1)%nat) ->
  core_out rs.1 (coerce batch_coerce_scalars rs.1 rs.2) f = generic_out py (of_query_params q) f.
Proof.
  intros q multi rs [Hnames Hals Hap Hc Hj Hdef] Hf Hone. rewrite Forall_forall in Hc, Hj.
  specialize (Hc f Hf). specialize (Hj f Hf).
  destruct (lookup_agree qs f Hc Hone) as (b & Hb & Hg). fold q in Hb, Hg. fold multi in Hb, Hg.
  assert (Hraw : dict_get rs.1 (get_validation_alias f) = raw_query multi f)
    by by apply raw_query_fold.
  assert (Hne : dict_get multi (get_validation_alias f) ≠ Some []).
  { unfold multi. rewrite (proj1 (DsQueryFacts.query_the_parsed q I)), group_get. by destruct (values_of _ _). }
  assert (Hcoerced : ∀ v, dict_get (coerce batch_coerce_scalars rs.1 rs.2) (field_name f) = Some v ->
    b = false ∧ v = opt_value (raw_query multi f)).
  { intros v Hv. unfold coerce in Hv. rewrite batch_coerce_copies in Hv. destruct rs.2 as [|sp sps]; [done|].
    destruct (raw_query_fold_keys _ _ _ _ _ Hv) as [?|(g & Hgf & Hgn)]; [done|].
    rewrite <-(Hap f g Hf Hgf Hgn) in Hgn. rewrite <-Hgn, Hraw in Hv. rewrite Hv in Hb |- *. simpl in Hb.
    split; [by eapply found_not_empty|done]. }
  unfold core_out, generic_out. rewrite Hraw, Hb, Hg. simpl.
  unfold param_loc, fi_in. rewrite Hc. simpl. unfold dict_getdefault.
  destruct (dict_get (coerce _ _ _) (field_name f)) as [v|] eqn:Ev.
  - by destruct (Hcoerced v eq_refl) as [-> ->].
  - destruct b; cbn [andb]; [|done]. unfold absent.
    destruct (required f) eqn:Er; cbn [negb]; [done|]. by rewrite Hdef.
Qed.

Lemma query_input_ok qs fields :
  let q := DsQueryParams.init qs in
  Forall (fun f => fi_class (field_info f) = QueryI) fields ->
  (∀ f, f ∈ fields -> is_sequence_field f && negb (_is_json_field f) = false ->
   (length (DsQueryParams.getlist q (get_validation_alias f)) <= 1)%nat) ->
  ∃ d, model_input (of_query_params q) true fields = Ok d.
Proof.
  intros q Hc Hone. rewrite Forall_forall in Hc. unfold model_input.
  destruct (rfold_total (model_input_step (of_query_params q) true) ([], []) fields) as [[d ks] ->].
  - intros st f Hf. unfold model_input_step. simpl.
    destruct (lookup_agree qs f) as (b & _ & Hg); [by apply Hc|by apply Hone|].
    fold q in Hg. rewrite Hg. by eexists.
  - by eexists.
Qed.
End query.

(** C13: for a query string of ASCII characters without an empty piece between
    ampersands and whose escapes spell UTF-8, the parser of the core returns the
    dictionary the [QueryParams] in Python holds, and the extraction of query
    parameters from it ([_core_query_params_to_args], with the coercion of the
    core) returns what the generic extraction ([request_params_to_args] on the
    [QueryParams]) returns, arguments and errors alike.  This holds for query
    fields with distinct names and aliases, no name that is another field's
    alias, no sequence read from a JSON text and valid defaults, when no scalar
    is repeated.  A repeated scalar is where they part: the core's dictionary
    gives the first value, the generic lookup the last. *)
Theorem core_query_agrees py pr fields qs :
  let q := DsQueryParams.init qs in
  plain_query qs ->
  ∃ parsed, core_parse_query_string qs = Ok parsed ∧ parsed = DsQueryParams.the_multi q
  ∧ (single_model fields = false -> query_fields py fields ->
     (∀ f, f ∈ fields -> is_sequence_field f && negb (_is_json_field f) = false ->
        (length (DsQueryParams.getlist q (get_validation_alias f)) <= 1)%nat) ->
     _core_query_params_to_args py batch_coerce_scalars pr fields parsed
     = request_params_to_args py pr fields (of_query_params q))
  ∧ ∀ (f : ModelField) v vs w, is_sequence_field f = false -> fi_class (field_info f) = QueryI ->
      DsQueryParams.getlist q (get_validation_alias f) = v :: vs ++ [w] ->
      (raw_query_step parsed ([], []) f).1 = [(get_validation_alias f, VStr v)]
      ∧ _get_multidict_value f (of_query_params q) None = Ok (VStr w).
Proof.
  intros q Hq. destruct (DsQueryFacts.query_the_parsed q I) as [Hm Hd].
  exists (DsQueryParams.the_multi q). split; [by rewrite core_parse_python, Hm, <-parse_qs_group|].
  split; [done|]. split.
  - intros Hs Hqf Hone. destruct (query_input_ok qs fields (qf_query _ _ Hqf) Hone) as [d Hi].
    rewrite (request_params_loop _ _ _ _ d Hs Hi).
    unfold _core_query_params_to_args, single_model in *. destruct fields as [|f0 fields]; [done|].
    rewrite Hs. destruct (foldl _ _ _) as [raw specs] eqn:E.
    rewrite (fields_loop _ (core_out py raw (coerce batch_coerce_scalars raw specs)))
      by (intros; apply core_query_step_out).
    f_equal. apply rmapM_ext. intros f Hf.
    pose proof (outs_agree py (f0 :: fields) qs f Hqf Hf (Hone f Hf)) as H. fold q in H. rewrite E in H. exact H.
  - intros f v vs w Hsq Hcl Hl.
    assert (Hg : dict_get (DsQueryParams.the_multi q) (get_validation_alias f) = Some (v :: vs ++ [w])).
    { unfold DsQueryParams.getlist, dict_getdefault in Hl.
      destruct (dict_get _ _); [by rewrite Hl|done]. }
    split; [unfold raw_query_step; by rewrite Hg, Hsq|].
    unfold _get_multidict_value. cbn [m_getlist m_get m_is_multidict of_query_params].
    rewrite Hsq, andb_false_r. unfold DsQueryParams.get. simpl.
    rewrite Hd, last_values_get, <-Hm, Hg by apply group_wf. simpl.
    rewrite app_comm_cons, last_snoc. simpl. rewrite Hcl. unfold empty_sequence. rewrite Hsq.
    by destruct w.
Qed.

(** ** Concrete fields *)
Module SampleArgs.
(** Integers are parsed from text, everything else is accepted. *)
Definition pydantic : Pydantic := mkPydantic
  (fun f v =>
     match type_ f, v with
     | Cls IntC, VStr s =>
         match py_int s with
         | Ok z => Valid (VInt z)
         | Raise _ => Invalid [mkError $"int_parsing" [] $"not an integer" v]
         end
     | _, _ => Valid v
     end)
  (fun _ => None).

Definition program : Program :=
  mkProgram (fun _ => Function Sync) (fun _ => []) (fun _ => []) (fun _ => 0) (fun _ => []) true.

Definition limit : ModelField := mkField (new_info QueryI (Cls IntC) None false) $"limit".
Definition tags : ModelField :=
  mkField (new_info QueryI (Generic ListC [Cls StrC]) (Some (list_value [])) false) $"tags".
Definition fields : list ModelField := [limit; tags].

Lemma sample_defaults : defaults_valid pydantic fields.
Proof.
  intros f Hf Hr loc. apply elem_of_cons in Hf as [->|Hf]; [done|].
  by apply list_elem_of_singleton in Hf as ->.
Qed.

Lemma sample_fields : query_fields pydantic fields.
Proof.
  split.
  1-2: by apply (bool_decide_eq_true_1 _); vm_compute.
  - assert (H : ∀ f, f ∈ fields -> get_validation_alias f = field_name f).
    { intros f [->|[->|[]%elem_of_nil]%elem_of_cons]%elem_of_cons; reflexivity. }
    intros f g [->|[->|[]%elem_of_nil]%elem_of_cons]%elem_of_cons [->|[->|[]%elem_of_nil]%elem_of_cons]%elem_of_cons;
      vm_compute; congruence.
  - repeat constructor.
  - repeat constructor.
  - exact sample_defaults.
Qed.

Definition qs : str := $"limit=5&tags=a&tags=%62".

Lemma sample_query : plain_query qs.
Proof.
  split; [reflexivity|by apply (bool_decide_eq_true_1 _); vm_compute|].
  repeat constructor.
Qed.
End SampleArgs.

Lemma core_query_agrees_witness :
  ∃ parsed, core_parse_query_string SampleArgs.qs = Ok parsed
  ∧ _core_query_params_to_args SampleArgs.pydantic batch_coerce_scalars SampleArgs.program
      SampleArgs.fields parsed
    = Ok ([($"limit", VInt 5); ($"tags", list_value [VStr $"a"; VStr $"b"])], []).
Proof.
  destruct (core_query_agrees SampleArgs.pydantic SampleArgs.program SampleArgs.fields SampleArgs.qs
    SampleArgs.sample_query) as (parsed & Hp & _ & Hagree & _).
  exists parsed. split; [exact Hp|]. rewrite Hagree.
  - vm_compute. reflexivity.
  - reflexivity.
  - exact SampleArgs.sample_fields.
  - intros f [->|[->|[]%elem_of_nil]%elem_of_cons]%elem_of_cons; [vm_compute; lia|done].
Defined.

(** Two fields, the name of one being the alias of the other: the coercion
    returns the values under their aliases, and the first field is given the
    value of the second. *)
Example alias_crosses_name :
  let f := mkField (info_with_alias (new_info QueryI (Cls IntC) None false) $"b") $"a" in
  let g := mkField (info_with_alias (new_info QueryI (Cls IntC) None false) $"a") $"c" in
  _core_query_params_to_args SampleArgs.pydantic batch_coerce_scalars SampleArgs.program [f; g]
    [($"a", [$"1"]); ($"b", [$"2"])]
  = Ok ([($"a", VInt 1); ($"c", VInt 1)], [])
  ∧ request_params_to_args SampleArgs.pydantic SampleArgs.program [f; g]
      (of_query_params (DsQueryParams.init $"a=1&b=2"))
    = Ok ([($"a", VInt 2); ($"c", VInt 1)], []).
Proof. vm_compute. split; reflexivity. Qed.

Lemma request_params_complete_witness :
  get_missing_field_error [$"query"; $"limit"]
  ∈ [get_missing_field_error [$"query"; $"limit"]]
  ∧ dict_get [($"tags", list_value [VStr $"a"])] $"limit" = None.
Proof.
  destruct (request_params_complete SampleArgs.pydantic SampleArgs.program SampleArgs.fields
    (of_query_params (DsQueryParams.init $"tags=a"))
    [($"tags", list_value [VStr $"a"])] [get_missing_field_error [$"query"; $"limit"]])
    as (_ & _ & _ & Hmissing).
  - reflexivity.
  - apply (bool_decide_eq_true_1 _). vm_compute. reflexivity.
  - vm_compute. reflexivity.
  - apply (Hmissing SampleArgs.limit query); try (vm_compute; reflexivity). set_solver.
Defined.
