(* ===== verification/Solve.v ===== *)
(** * Solve: running the dependencies of a request

    [request_body_to_args], [solve_dependencies] and what they use.  User
    callables are a parameter: what a call returns or raises may depend on the
    calls made before it.  The state is what the code shares between the
    recursive calls: the dependency cache, the uploaded files, and identities
    for the objects it creates; it also records the calls made, in order. *)

From S2P Require Import Prelude PyStr Asgi DataStructures Annotations Dependants ParamArgs.

(** ** Request bodies *)

(** [body]: absent, the value of a JSON body, or a form. *)
Inductive body_data : Type := NoBody | JsonBody (v : value) | FormBody (f : Form.FormData).

Definition _should_embed_body_fields (fields : list ModelField) : bool :=
  match fields with
  | [] => false
  | first :: _ =>
      if (1 <? length (remove_dups (field_name <$> fields)))%nat then true
      else if get_or (fi_embed (field_info first)) false then true
      else is_Form (fi_class (field_info first)) && negb (is_model_field first)
           && negb (is_union_of_base_models (type_ first))
  end.

(** [value_is_sequence]: the list, tuple, set, frozenset and deque values. *)
Definition value_is_sequence (v : value) : bool := match v with VSeq _ _ => true | _ => false end.

Definition seq_kind_of (c : cls) : option seq_kind :=
  match c with
  | SequenceC | ListC => Some KList
  | TupleC => Some KTuple
  | SetC => Some KSet
  | FrozensetC => Some KFrozenset
  | DequeC => Some KDeque
  | _ => None
  end.

(** [get_origin(a) or a], when it is a class. *)
Definition origin_or_self (a : ann) : option cls :=
  match a with
  | Generic o _ => Some o
  | Cls c => Some c
  | _ => None
  end.

(** For a union, that of its first member other than [None]. *)
Fixpoint first_member (args : list ann) : option cls :=
  match args with
  | [] => None
  | Cls NoneTypeC :: args' => first_member args'
  | arg :: _ => origin_or_self arg
  end.

Definition sequence_origin (a : ann) : option cls :=
  match a with
  | UnionA args => first_member args
  | _ => origin_or_self a
  end.

Definition serialize_sequence_value (f : ModelField) (l : list value) : result value :=
  match sequence_origin (type_ f) ≫= seq_kind_of with
  | Some k => Ok (VSeq k l)
  | None => Raise (AssertionError [])
  end.

(** [await file.read()] on the store of uploaded files. *)
Definition read_upload (files : Form.store) (i : nat) : result (bytes * Form.store) :=
  match files !! i with
  | None => Raise (AttributeError $"read")
  | Some u => let! (data, u') := Upload.read u (-1) in Ok (data, <[i := u']> files)
  end.

Definition read_item (acc : list value * Form.store) (v : value)
    : result (list value * Form.store) :=
  match v with
  | VUpload i => let! (data, files) := read_upload acc.2 i in Ok (acc.1 ++ [VBytes data], files)
  | _ => Raise (AttributeError $"read")
  end.

(** One field of [_extract_form_body]; the reads of a sequence of files are
    run in order. *)
Definition form_field (form : Form.FormData) (acc : list (str * value) * Form.store)
    (f : ModelField) : result (list (str * value) * Form.store) :=
  let! v := _get_multidict_value f (of_form form) None in
  let is_file := bool_decide (fi_class (field_info f) = FileI) in
  let! (v, files) :=
    match v with
    | VUpload i =>
        if is_file && is_bytes_field f then
          let! (data, files) := read_upload acc.2 i in Ok (VBytes data, files)
        else Ok (v, acc.2)
    | VSeq _ l =>
        if is_bytes_sequence_field f && is_file then
          let! (results, files) := rfold read_item ([], acc.2) l in
          let! v := serialize_sequence_value f results in
          Ok (v, files)
        else Ok (v, acc.2)
    | _ => Ok (v, acc.2)
    end in
  Ok (if is_none v then acc.1 else dict_set acc.1 (get_validation_alias f) v, files).

Definition extra_form_value (form : Form.FormData) (aliases : list str)
    (d : list (str * value)) (key : str) : list (str * value) :=
  if bool_decide (key ∈ aliases) then d
  else dict_set d key
         (match Form.getlist form key with
          | [v] => of_fvalue v
          | l => list_value (of_fvalue <$> l)
          end).

Definition _extract_form_body (fields : list ModelField) (form : Form.FormData)
    (files : Form.store) : result (list (str * value) * Form.store) :=
  let! (d, files) := rfold (form_field form) ([], files) fields in
  Ok (foldl (extra_form_value form (get_validation_alias <$> fields)) d (Form.keys form), files).

Section body.
Context (py : Pydantic) (pr : Program).

(** One field of an embedded body; [None] is an absent body, and what is not a
    dictionary has no [get]. *)
Definition body_field (body : option value) (st : args_state) (f : ModelField)
    : result args_state :=
  let loc := [$"body"; get_validation_alias f] in
  let validated v :=
    let! o := _validate_value_with_model_field py f v loc in Ok (record_outcome st f o) in
  match body with
  | None | Some VNone => validated VNone
  | Some (VDict d) => validated (opt_value (dict_get d (get_validation_alias f)))
  | Some _ => Ok (st.1, st.2 ++ [get_missing_field_error loc])
  end.

Definition request_body_to_args (fields : list ModelField) (body : body_data) (embed : bool)
    (files : Form.store) : result (args_state * Form.store) :=
  match fields with
  | [] => Raise (AssertionError $"request_body_to_args() should be called with fields")
  | first :: _ =>
      let single := (length fields =? 1)%nat && negb embed in
      let! (to_process, files) :=
        match body with
        | NoBody => Ok (None, files)
        | JsonBody v => Ok (Some v, files)
        | FormBody form =>
            let to_extract :=
              if single && is_model_field first then get_model_fields pr (type_ first) else fields in
            let! (d, files) := _extract_form_body to_extract form files in
            Ok (Some (VDict d), files)
        end in
      if single then
        let! o := _validate_value_with_model_field py first (get_or to_process VNone) [$"body"] in
        Ok (([(field_name first, o.1)], o.2), files)
      else
        let! st := rfold (body_field to_process) ([], []) fields in
        Ok (st, files)
  end.
End body.

(** ** The environment of a request *)

(** The functions of the compiled core. *)
Record Core : Type := mkCore {
  parse_query_string : str -> list (str * list str);
  parse_cookie_header : str -> list (str * str);
  parse_scope_headers : raw_headers -> bool -> list (str * str);
  batch_coerce_scalars :
    list (str * value) -> list (str * str * str) -> result (list (str * value));
  batch_extract_params_inline :
    list (str * list str) -> list (str * str) -> list (str * str) -> list (str * value) ->
    list (str * str * option str * Z * Z * bool) -> result (list (str * value))
}.

(** What is read of the request: its class, the path parameters, the entries
    the server may have left in the scope, the raw headers and query string,
    whether the exit stacks are there, and the body. *)
Record Req : Type := mkReq {
  rq_is_request : bool;
  rq_path_params : list (str * value);
  rq_query_string : option bytes;
  rq_headers : option raw_headers;
  rq_core_query : option (list (str * list str));
  rq_core_headers : option (list (str * str));
  rq_core_cookies : option (list (str * str));
  rq_inner_astack : bool;
  rq_function_astack : bool;
  rq_body : body_data;
  rq_embed : bool
}.

(** How a dependency is called: its generator entered on one of the exit
    stacks, awaited, or run in the thread pool. *)
Inductive call_mode : Type := OnRequestStack | OnFunctionStack | Awaited | InThreadpool.

(** A call that was made: the key it is cached under and whether it is. *)
Record call_entry : Type := mkEntry {
  ce_key : CacheKey;
  ce_cached : bool;
  ce_mode : call_mode;
  ce_call : call;
  ce_kwargs : list (str * value)
}.

(** [run_call] is the user's code. *)
Record Env : Type := mkEnv {
  env_program : Program;
  env_pydantic : Pydantic;
  env_core : Core;
  env_overrides : list (call * call);
  env_stack : nat;
  run_call : list call_entry -> call -> list (str * value) -> result value
}.

(** ** Own parameters of a dependant *)
Section params.
Context (env : Env) (rq : Req).
Local Abbreviation pr := (env_program env).
Local Abbreviation py := (env_pydantic env).
Local Abbreviation core := (env_core env).

Definition query_dict : list (str * list str) :=
  match rq_core_query rq with
  | Some q => q
  | None => parse_query_string core (decode_latin1 (get_or (rq_query_string rq) []))
  end.

(** The cookie header lines, in order. *)
Definition cookie_parts : list str :=
  omap (fun '(nb, vb) => if bool_decide (nb = $"cookie") then Some (decode_latin1 vb) else None)
    (get_or (rq_headers rq) []).

Definition cookie_dict : list (str * str) :=
  match rq_core_cookies rq with
  | Some c => c
  | None =>
      match cookie_parts with
      | [] => []
      | parts => parse_cookie_header core (join $"; " parts)
      end
  end.

Definition type_tag (f : ModelField) : Z :=
  match _get_scalar_type_tag f with
  | Some t =>
      if bool_decide (t = $"int") then 1
      else if bool_decide (t = $"float") then 2
      else if bool_decide (t = $"bool") then 3 else 0
  | None => 0
  end.

(** A specification for the batch extraction: names, header key, location,
    type tag and whether the field is a sequence. *)
Definition batch_spec (location : Z) (f : ModelField) : str * str * option str * Z * Z * bool :=
  let al := match get_validation_alias f with [] => field_name f | a => a end in
  (field_name f, al, if (location =? 1)%Z then Some al else None, location, type_tag f,
   if (location =? 0)%Z then is_sequence_field f else false).

Definition batch_specs (p : DepParams) : list (str * str * option str * Z * Z * bool) :=
  (batch_spec 0 <$> query_params p) ++ (batch_spec 1 <$> header_params p)
  ++ (batch_spec 2 <$> cookie_params p) ++ (batch_spec 3 <$> path_params p).

Definition batch_extract (p : DepParams) : result (list (str * value)) :=
  let qp :=
    match rq_core_query rq, query_params p with
    | None, [] => []
    | _, _ => query_dict
    end in
  let hdrs :=
    match header_params p with
    | [] => []
    | _ => parse_scope_headers core (get_or (rq_headers rq) []) false
    end in
  let cookies :=
    match rq_core_cookies rq, cookie_params p with
    | None, [] => []
    | _, _ => cookie_dict
    end in
  batch_extract_params_inline core qp hdrs cookies (rq_path_params rq) (batch_specs p).

(** One field of the batch loop. *)
Definition batch_field (extracted : list (str * value)) (st : args_state) (f : ModelField)
    : result args_state :=
  let v := opt_value (dict_get extracted (field_name f)) in
  let v :=
    match v with
    | VSeq KList [] => if is_sequence_field f then VNone else v
    | _ => v
    end in
  let! loc := param_loc f in
  let! o := _validate_value_with_model_field py f v (loc ++ [get_validation_alias f]) in
  Ok (record_outcome st f o).

(** The loop inside [try]: how far it got, and whether it got to the end. *)
Fixpoint try_fold (step : args_state -> ModelField -> result args_state) (st : args_state)
    (fields : list ModelField) : args_state * bool :=
  match fields with
  | [] => (st, true)
  | f :: fields' =>
      match step st f with
      | Ok st' => try_fold step st' fields'
      | Raise _ => (st, false)
      end
  end.

Definition _has_model_header (p : DepParams) : bool :=
  match header_params p with [f] => is_model_field f | _ => false end.

Definition _has_sequence_header (p : DepParams) : bool :=
  existsb (fun f => is_sequence_field f && negb (_is_json_field f)) (header_params p).

Definition has_params (p : DepParams) : bool :=
  match p with
  | mkParams [] [] [] [] _ => false
  | _ => true
  end.

Definition batch_args (p : DepParams) (st : args_state) : args_state * bool :=
  if negb (_has_model_header p) && negb (_has_sequence_header p) && has_params p then
    match batch_extract p with
    | Ok extracted =>
        try_fold (batch_field extracted) st
          (path_params p ++ query_params p ++ header_params p ++ cookie_params p)
    | Raise _ => (st, false)
    end
  else (st, false).

(** The four lookups used when the batch extraction was not. *)
Definition single_args (p : DepParams) (st : args_state) : result args_state :=
  let coerce := batch_coerce_scalars core in
  let! ps := request_params_to_args py pr (path_params p) (of_dict (rq_path_params rq)) in
  let! qs :=
    match query_params p with
    | [] => Ok ([], [])
    | fields => _core_query_params_to_args py coerce pr fields query_dict
    end in
  let! hs :=
    match header_params p with
    | [] => Ok ([], [])
    | fields =>
        if negb (_has_sequence_header p) then
          let core_headers :=
            match rq_core_headers rq with
            | Some h => h
            | None => parse_scope_headers core (get_or (rq_headers rq) []) true
            end in
          _core_header_params_to_args py coerce pr fields core_headers
        else
          request_params_to_args py pr fields
            (of_request_headers (ReqHeaders.init (Some (get_or (rq_headers rq) [])) None))
    end in
  let! cs :=
    match cookie_params p with
    | [] => Ok ([], [])
    | fields => _core_cookie_params_to_args py coerce fields cookie_dict
    end in
  Ok (dict_update (dict_update (dict_update (dict_update st.1 ps.1) qs.1) hs.1) cs.1,
      st.2 ++ ps.2 ++ qs.2 ++ hs.2 ++ cs.2).

Definition param_args (p : DepParams) (st : args_state) : result args_state :=
  let '(st', ok) := batch_args p st in
  if ok then Ok st' else single_args p st'.
End params.

(** ** The solver *)

(** The state shared by the recursive calls. *)
Record sstate : Type := mkState {
  dependency_cache : list (CacheKey * value);
  files : Form.store;
  next_id : Z;
  calls : list call_entry
}.

Definition with_cache (st : sstate) (c : list (CacheKey * value)) : sstate :=
  mkState c (files st) (next_id st) (calls st).
Definition with_files (st : sstate) (f : Form.store) : sstate :=
  mkState (dependency_cache st) f (next_id st) (calls st).
Definition fresh_id (st : sstate) : sstate :=
  mkState (dependency_cache st) (files st) (next_id st + 1) (calls st).
Definition with_call (st : sstate) (e : call_entry) : sstate :=
  mkState (dependency_cache st) (files st) (next_id st) (calls st ++ [e]).

(** Computations that change the state and can raise; the state survives an
    exception. *)
Definition M (A : Type) : Type := sstate -> sstate * result A.

Definition ret {A} (a : A) : M A := fun st => (st, Ok a).
Definition raise {A} (e : exn) : M A := fun st => (st, Raise e).
Definition lift {A} (r : result A) : M A := fun st => (st, r).
Definition mbnd {A B} (m : M A) (f : A -> M B) : M B := fun st =>
  match m st with
  | (st', Ok a) => f a st'
  | (st', Raise e) => (st', Raise e)
  end.
Notation "'do!' x := m 'in' k" := (mbnd m (fun x => k))
  (at level 10, x pattern, m at level 100, k at level 200).

Fixpoint mfold {A S} (f : S -> A -> M S) (s : S) (l : list A) : M S :=
  match l with
  | [] => ret s
  | a :: l' => do! s' := f s a in mfold f s' l'
  end.

(** A new object. *)
Definition new_object : M Z := fun st => (fresh_id st, Ok (next_id st)).

(** [SolvedDependency], without the cache, which the state holds. *)
Record SolvedDependency : Type := mkSolved {
  s_values : list (str * value);
  s_errors : list error;
  s_background_tasks : option Z;
  s_response : Z
}.

Definition depth_error : exn := RuntimeError
  ($"Maximum dependency resolution depth (100) exceeded. "
   ++ $"This likely indicates circular dependencies in your dependency tree.").

(** Nothing to solve. *)
Definition trivial_dependant (d : Dependant) : bool :=
  match params d, names d, dependencies d with
  | mkParams [] [] [] [] [], mkNames None None None None None None, [] => true
  | _, _, _ => false
  end.

Section solve.
Context (env : Env) (rq : Req).
Local Abbreviation pr := (env_program env).

(** The call of a dependency, recorded before it runs. *)
Definition invoke (key : CacheKey) (cached : bool) (mode : call_mode) (c : call)
    (kwargs : list (str * value)) : M value := fun st =>
  (with_call st (mkEntry key cached mode c kwargs), run_call env (calls st) c kwargs).

(** The callable used for a sub-dependant, and the dependant solved for it. *)
Definition overridden (c : call) : call := dict_getdefault (env_overrides env) c c.

Definition use_dependant (sub : Dependant) : result Dependant :=
  match env_overrides env with
  | [] => Ok sub
  | _ =>
      let i := info sub in
      get_dependant pr (env_stack env)
        (mkDepInfo (dep_name i) (overridden (dep_call i)) None (Some (oauth_scopes sub)) true
           (dep_path i) (scope i))
  end.

Definition mode_of (sub_scope : option dep_scope) (c : call) : call_mode :=
  if is_generator pr c then
    if bool_decide (sub_scope = Some function_scope) then OnFunctionStack else OnRequestStack
  else if is_coroutine_callable (callable pr c) then Awaited else InThreadpool.

(** From the arguments of a sub-dependant without errors to its value. *)
Definition solved_value (sub use_sub : Dependant) (kwargs : list (str * value)) : M value :=
  fun st =>
  let key := cache_key pr sub in
  let cached := use_cache (info sub) in
  match (if cached then dict_get (dependency_cache st) key else None) with
  | Some v => (st, Ok v)
  | None =>
      let c := dep_call (info use_sub) in
      (do! v := invoke key cached (mode_of (scope (info sub)) c) c kwargs in
       fun st => (if cached then with_cache st (dict_set (dependency_cache st) key v) else st, Ok v))
        st
  end.

(** [values[sub_dependant.name] = solved] *)
Definition bind_name (name : option str) (v : value) (values : list (str * value))
    : list (str * value) :=
  match name with Some n => dict_set values n v | None => values end.

(** One sub-dependant of the loop; [rec] solves a dependant. *)
Definition solve_sub (rec : Dependant -> option Z -> M SolvedDependency)
    (acc : args_state * option Z) (sub : Dependant) : M (args_state * option Z) :=
  let '((values, errors), bg) := acc in
  do! use_sub := lift (use_dependant sub) in
  do! r := rec use_sub bg in
  match s_errors r with
  | [] =>
      do! v := solved_value sub use_sub (s_values r) in
      ret ((bind_name (dep_name (info sub)) v values, errors), s_background_tasks r)
  | errs => ret ((values, errors ++ errs), s_background_tasks r)
  end.

(** The special parameters, after the fields. *)
Definition special_values (d : Dependant) (response : Z) (bg : option Z)
    (values : list (str * value)) : list (str * value) :=
  let n := names d in
  let put name v vs := match name with Some x => dict_set vs x v | None => vs end in
  let vs := put (http_connection_param_name n) VRequest values in
  let vs :=
    match request_param_name n, rq_is_request rq with
    | Some x, true => dict_set vs x VRequest
    | _, _ =>
        match websocket_param_name n, rq_is_request rq with
        | Some x, false => dict_set vs x VRequest
        | _, _ => vs
        end
    end in
  let vs := match bg with Some b => put (background_tasks_param_name n) (VBackgroundTasks b) vs
            | None => vs end in
  let vs := put (response_param_name n) (VResponse response) vs in
  put (security_scopes_param_name n) (VSecurityScopes (oauth_scopes d)) vs.

(** Fields of the dependant itself: parameters, then the body. *)
Definition own_args (d : Dependant) (acc : args_state) : M args_state := fun st =>
  (do! acc := lift (param_args env rq (params d) acc) in
   match body_params (params d) with
   | [] => ret acc
   | fields => fun st =>
       match request_body_to_args (env_pydantic env) pr fields (rq_body rq) (rq_embed rq) (files st)
       with
       | Ok ((values, errors), files') =>
           (with_files st files', Ok (dict_update acc.1 values, acc.2 ++ errors))
       | Raise e => (st, Raise e)
       end
   end) st.

(** [if background_tasks is None: background_tasks = BackgroundTasks()] *)
Definition ensure_tasks (d : Dependant) (bg : option Z) : M (option Z) :=
  match background_tasks_param_name (names d), bg with
  | Some _, None => do! b := new_object in ret (Some b)
  | _, _ => ret bg
  end.

Definition check_stacks : result unit :=
  let! _ := py_assert (rq_inner_astack rq) $"astraapi_inner_astack not found in request scope" in
  py_assert (rq_function_astack rq) $"astraapi_function_astack not found in request scope".

(** [solve_dependencies]; [fuel] is 101 at depth 0, so it runs out at the
    depth the code refuses. *)
Fixpoint solve_dependencies (fuel : nat) (response : option Z) (d : Dependant) (bg : option Z)
    {struct fuel} : M SolvedDependency :=
  match fuel with
  | O => raise depth_error
  | S fuel' =>
      let the_response := match response with Some r => ret r | None => new_object end in
      if trivial_dependant d then
        do! r := the_response in
        ret (mkSolved [] [] bg r)
      else
        do! _ := lift check_stacks in
        do! r := the_response in
        do! (acc, bg) :=
          mfold (solve_sub (solve_dependencies fuel' (Some r))) (([], []), bg) (dependencies d) in
        do! (values, errors) := own_args d acc in
        do! bg := ensure_tasks d bg in
        ret (mkSolved (special_values d r bg values) errors bg r)
  end.

(** The call of a request handler. *)
Definition solve_request (d : Dependant) (bg : option Z) : M SolvedDependency :=
  solve_dependencies 101 None d bg.
End solve.
