(* ===== verification/SolveFacts.v ===== *)
(** * SolveFacts: dependencies run once, and the cache is transparent

    A cached dependency is called at most once in a request, an overridden one
    never; for callables that are functions of their arguments, solving with the
    cache returns what the cache-free reading of the tree says. *)

From S2P Require Import Prelude PyStr Asgi DataStructures Annotations Dependants DependantFacts.
From S2P Require Import ParamArgs Solve.

(** ** What a run does to the cache and the calls *)

(** The keys of the calls whose results are cached. *)
Definition cached_keys (l : list call_entry) : list CacheKey :=
  ce_key <$> filter (fun e => ce_cached e = true) l.

Definition cache_lookup (st : sstate) (k : CacheKey) : option value :=
  dict_get (dependency_cache st) k.

Lemma mbnd_run {A B} (m : M A) (f : A -> M B) st :
  mbnd m f st
  = match m st with
    | (st', Ok a) => f a st'
    | (st', Raise e) => (st', Raise e)
    end.
Proof. done. Qed.

Section once.
Context (env : Env) (rq : Req).
Local Abbreviation pr := (env_program env).

(** From [st] to [st'], without an exception if [ok]: new calls are appended;
    the cached ones have distinct keys that were not in the cache, and are in
    it afterwards; what was in the cache stays; only chosen callables run. *)
Definition extends (st st' : sstate) (ok : bool) : Prop :=
  ∃ new, calls st' = calls st ++ new
    ∧ NoDup (cached_keys new)
    ∧ (∀ k, k ∈ cached_keys new -> cache_lookup st k = None)
    ∧ (∀ k v, cache_lookup st k = Some v -> cache_lookup st' k = Some v)
    ∧ (ok = true -> ∀ k, k ∈ cached_keys new -> is_Some (cache_lookup st' k))
    ∧ (∀ e, e ∈ new -> ∃ c, ce_call e = overridden env c).

Definition disciplined {A} (m : M A) : Prop :=
  ∀ st, extends st (m st).1 (is_ok (m st).2).

Lemma cached_keys_app a b : cached_keys (a ++ b) = cached_keys a ++ cached_keys b.
Proof. unfold cached_keys. by rewrite filter_app, fmap_app. Qed.

Lemma extends_refl st st' ok :
  calls st' = calls st -> dependency_cache st' = dependency_cache st -> extends st st' ok.
Proof.
  intros Hc Hd. exists []. unfold cache_lookup. rewrite app_nil_r, Hd.
  split_and!; try done; [apply NoDup_nil_2|..]; cbn; set_solver.
Qed.

Lemma extends_trans st st1 st2 ok :
  extends st st1 true -> extends st1 st2 ok -> extends st st2 ok.
Proof.
  intros (n1 & C1 & D1 & F1 & K1 & I1 & O1) (n2 & C2 & D2 & F2 & K2 & I2 & O2).
  exists (n1 ++ n2). rewrite C2, C1, app_assoc, !cached_keys_app. split_and!; [done| | | | |].
  - apply NoDup_app. split_and!; [done| |done]. intros k Hk1 Hk2.
    destruct (I1 eq_refl k Hk1) as [v Hv]. rewrite (F2 k Hk2) in Hv. done.
  - intros k [Hk|Hk]%elem_of_app; [by apply F1|]. specialize (F2 k Hk).
    destruct (cache_lookup st k) as [v|] eqn:E; [|done]. rewrite (K1 k v E) in F2. done.
  - intros k v Hv. by apply K2, K1.
  - intros Hok k [Hk|Hk]%elem_of_app; [|by apply I2].
    destruct (I1 eq_refl k Hk) as [v Hv]. exists v. by apply K2.
  - set_solver.
Qed.

Lemma disciplined_ret {A} (a : A) : disciplined (ret a).
Proof. intros st. by apply extends_refl. Qed.

Lemma disciplined_raise {A} e : disciplined (raise (A := A) e).
Proof. intros st. by apply extends_refl. Qed.

Lemma disciplined_lift {A} (r : result A) : disciplined (lift r).
Proof. intros st. by apply extends_refl. Qed.

Lemma disciplined_new : disciplined new_object.
Proof. intros st. by apply extends_refl. Qed.

Lemma disciplined_bind {A B} (m : M A) (f : A -> M B) :
  disciplined m -> (∀ a st st', m st = (st', Ok a) -> disciplined (f a)) -> disciplined (mbnd m f).
Proof.
  intros Hm Hf st. specialize (Hm st). unfold mbnd.
  destruct (m st) as [st' [a|e]] eqn:E; simpl in *; [|done].
  eapply extends_trans; [exact Hm|]. by eapply Hf.
Qed.

Lemma disciplined_mfold {A S} (f : S -> A -> M S) s l :
  (∀ s a, a ∈ l -> disciplined (f s a)) -> disciplined (mfold f s l).
Proof.
  revert s. induction l as [|a l IH]; intros s Hf; simpl; [apply disciplined_ret|].
  apply disciplined_bind; [apply Hf; set_solver|]. intros s' _ _ _. apply IH. set_solver.
Qed.
End once.

Create HintDb disciplined.
#[export] Hint Resolve disciplined_ret disciplined_raise disciplined_lift disciplined_new
  disciplined_bind disciplined_mfold : disciplined.

Section solver_once.
Context (env : Env) (rq : Req).
Local Abbreviation pr := (env_program env).

Lemma disciplined_own_args d acc : disciplined env (own_args env rq d acc).
Proof.
  intros st. unfold own_args. apply disciplined_bind; [auto with disciplined|].
  intros acc' _ _ _. destruct (body_params _); [auto with disciplined|].
  intros st1. destruct (request_body_to_args _ _ _ _ _ _) as [[[vs es] fs]|]; by apply extends_refl.
Qed.

Lemma disciplined_ensure_tasks d bg : disciplined env (ensure_tasks d bg).
Proof.
  unfold ensure_tasks. repeat case_match; eauto using disciplined_bind, disciplined_new, disciplined_ret.
Qed.

(** The use of the cache. *)
Lemma disciplined_solved_value sub use_sub kwargs :
  (∃ c, dep_call (info use_sub) = overridden env c) ->
  disciplined env (solved_value env sub use_sub kwargs).
Proof.
  intros Hc st. unfold solved_value. set (key := cache_key pr sub).
  destruct (if use_cache (info sub) then _ else None) as [v|] eqn:E; [by apply extends_refl|].
  unfold mbnd, invoke. set (entry := mkEntry _ _ _ _ _).
  assert (Hnew : ∀ e, e ∈ [entry] -> ∃ c, ce_call e = overridden env c) by set_solver.
  destruct (use_cache (info sub)) eqn:Eu.
  - assert (Hk : cached_keys [entry] = [key]) by done.
    destruct (run_call env (calls st) _ kwargs) as [v|e]; exists [entry];
      rewrite Hk; unfold cache_lookup; simpl; (split_and!; [done|apply NoDup_singleton| | | |done]).
    + by intros k ->%list_elem_of_singleton.
    + intros k v' Hv'. rewrite dict_get_set. case_decide as Hd; [|done]. subst k. by rewrite E in Hv'.
    + intros _ k ->%list_elem_of_singleton. rewrite dict_get_set_eq. by eexists.
    + by intros k ->%list_elem_of_singleton.
    + done.
    + done.
  - assert (Hk : cached_keys [entry] = []) by done.
    destruct (run_call env (calls st) _ kwargs) as [v|e]; exists [entry]; rewrite Hk;
      (split_and!; [done|apply NoDup_nil_2|set_solver|done|set_solver|done]).
Qed.

Lemma use_dependant_call sub use_sub :
  use_dependant env sub = Ok use_sub ->
  dep_call (info use_sub) = overridden env (dep_call (info sub)).
Proof.
  unfold use_dependant, overridden. destruct (env_overrides env) eqn:E; [by intros [= <-]|].
  intros H%get_dependant_info. by rewrite H.
Qed.

Lemma disciplined_solve_sub rec acc sub :
  (∀ d bg, disciplined env (rec d bg)) -> disciplined env (solve_sub env rec acc sub).
Proof.
  intros Hrec. destruct acc as [[values errors] bg]. unfold solve_sub.
  apply disciplined_bind; [auto with disciplined|]. intros use_sub st st' Hu.
  apply disciplined_bind; [apply Hrec|]. intros r _ _ _.
  destruct (s_errors r); [|auto with disciplined].
  apply disciplined_bind; [|auto with disciplined]. apply disciplined_solved_value.
  injection Hu as _ Hu. apply use_dependant_call in Hu. eauto.
Qed.

Lemma disciplined_solve fuel :
  ∀ response d bg, disciplined env (solve_dependencies env rq fuel response d bg).
Proof.
  induction fuel as [|fuel IH]; intros response d bg; simpl; [auto with disciplined|].
  assert (Hr : disciplined env (match response with Some r => ret r | None => new_object end))
    by (destruct response; auto with disciplined).
  destruct (trivial_dependant d); [eauto with disciplined|].
  apply disciplined_bind; [auto with disciplined|]. intros _ _ _ _.
  apply disciplined_bind; [done|]. intros r _ _ _.
  apply disciplined_bind.
  { apply disciplined_mfold. intros s a _. by apply disciplined_solve_sub. }
  intros [acc bg1] _ _ _. apply disciplined_bind; [apply disciplined_own_args|].
  intros [values errors] _ _ _. apply disciplined_bind; [apply disciplined_ensure_tasks|].
  auto with disciplined.
Qed.
End solver_once.


(** ** The cache-free reading of a tree *)
Section reference.
Context (env : Env) (rq : Req).
(** What the callables compute, and the identities of the response and of the
    background tasks of the request. *)
Context (pure : call -> list (str * value) -> result value) (response tasks : Z).

(** Own fields, for a body that is no form. *)
Definition ref_own (d : Dependant) (acc : args_state) : result args_state :=
  let! acc := param_args env rq (params d) acc in
  match body_params (params d) with
  | [] => Ok acc
  | fields =>
      let! (o, _) := request_body_to_args (env_pydantic env) (env_program env) fields (rq_body rq)
                       (rq_embed rq) ∅ in
      Ok (dict_update acc.1 o.1, acc.2 ++ o.2)
  end.

(** The arguments of a dependant: the values of its dependencies, each called
    with its own arguments, then its fields and special parameters; a dependency
    with errors is not called. *)
Fixpoint ref_solve (d : Dependant) : result args_state :=
  if trivial_dependant d then Ok ([], [])
  else
    let '(mkDependant _ _ _ deps) := d in
    let! _ := check_stacks rq in
    let! acc :=
      rfold (fun acc sub =>
        let! o := ref_solve sub in
        match o.2 with
        | [] =>
            let! v := pure (dep_call (info sub)) o.1 in
            Ok (bind_name (dep_name (info sub)) v acc.1, acc.2)
        | errs => Ok (acc.1, acc.2 ++ errs)
        end) ([], []) deps in
    let! acc := ref_own d acc in
    Ok (special_values rq d response (Some tasks) acc.1, acc.2).
End reference.

Fixpoint height (d : Dependant) : nat :=
  let '(mkDependant _ _ _ deps) := d in
  foldr (fun s h => Nat.max (S (height s)) h) 0%nat deps.

Lemma height_sub d s : s ∈ dependencies d -> (S (height s) <= height d)%nat.
Proof.
  destruct d as [i p n deps]. simpl. induction deps as [|x deps IH]; [set_solver|].
  simpl. intros [->|Hs]%elem_of_cons; [lia|]. specialize (IH Hs). lia.
Qed.

(** Two dependants that are solved alike: they differ at most in scopes that no
    parameter asks for, caching and lifetime. *)
Inductive same : Dependant -> Dependant -> Prop :=
  | same_intro i j p n da db :
      (is_Some (security_scopes_param_name n) ->
       oauth_scopes (mkDependant i p n da) = oauth_scopes (mkDependant j p n db)) ->
      Forall2 (fun x y => dep_call (info x) = dep_call (info y)
                          ∧ dep_name (info x) = dep_name (info y) ∧ same x y) da db ->
      same (mkDependant i p n da) (mkDependant j p n db).

(** Equal cache keys stand for dependants that are solved alike. *)
Definition coherent_keys (pr : Program) (d : Dependant) : Prop :=
  ∀ a b, a ∈ preorder d -> b ∈ preorder d -> cache_key pr a = cache_key pr b -> same a b.

Section equivalence.
Context (env : Env) (rq : Req).
Context (pure : call -> list (str * value) -> result value) (response tasks : Z).
Local Abbreviation pr := (env_program env).
Local Abbreviation ref := (ref_solve env rq pure response tasks).

(** The reference for one sub-dependant. *)
Definition ref_sub (acc : args_state) (sub : Dependant) : result args_state :=
  let! o := ref sub in
  match o.2 with
  | [] =>
      let! v := pure (dep_call (info sub)) o.1 in
      Ok (bind_name (dep_name (info sub)) v acc.1, acc.2)
  | errs => Ok (acc.1, acc.2 ++ errs)
  end.

Lemma ref_solve_unfold d :
  ref d
  = if trivial_dependant d then Ok ([], [])
    else
      let! _ := check_stacks rq in
      let! acc := rfold ref_sub ([], []) (dependencies d) in
      let! acc := ref_own env rq d acc in
      Ok (special_values rq d response (Some tasks) acc.1, acc.2).
Proof. by destruct d. Qed.

Lemma special_values_same i j p n da db r bg vs :
  (is_Some (security_scopes_param_name n) ->
   oauth_scopes (mkDependant i p n da) = oauth_scopes (mkDependant j p n db)) ->
  special_values rq (mkDependant i p n da) r bg vs = special_values rq (mkDependant j p n db) r bg vs.
Proof.
  intros H. unfold special_values. simpl. destruct (security_scopes_param_name n); [|done].
  by rewrite H by eauto.
Qed.

Lemma same_ref a b : same a b -> ref a = ref b.
Proof.
  revert b. induction a as [i p n da IH] using dependant_nested_ind. intros b Hs.
  inversion Hs as [? j ? ? ? db Hsc Hdeps]; subst. rewrite !ref_solve_unfold.
  assert (Ht : trivial_dependant (mkDependant i p n da) = trivial_dependant (mkDependant j p n db)).
  { unfold trivial_dependant. simpl. by inversion Hdeps. }
  rewrite <-Ht. destruct (trivial_dependant _); [done|].
  assert (Hf : ∀ acc, rfold ref_sub acc da = rfold ref_sub acc db).
  { clear Hs Ht Hsc. induction Hdeps as [|x y da db (Hc & Hn & Hxy) _ IHd]; intros acc; [done|].
    apply Forall_cons in IH as [IHx IH]. simpl. unfold ref_sub at 1 3.
    rewrite (IHx y Hxy), Hc, Hn. destruct (ref y) as [o|]; simpl; [|done].
    destruct o.2; simpl; [|by apply IHd]. destruct (pure _ _); simpl; [by apply IHd|done]. }
  simpl. rewrite Hf. destruct (check_stacks rq); simpl; [|done].
  destruct (rfold ref_sub ([], []) db) as [acc|]; simpl; [|done].
  replace (ref_own env rq (mkDependant i p n da) acc) with (ref_own env rq (mkDependant j p n db) acc)
    by done.
  destruct (ref_own _ _ _ _); simpl; [|done]. by rewrite (special_values_same i j p n da db).
Qed.

(** ** The two solvers side by side *)
Context (Hpure : ∀ h c kw, run_call env h c kw = pure c kw).
Context (Hover : env_overrides env = []).
Context (Hform : ∀ f, rq_body rq ≠ FormBody f).

Lemma body_files fields fs :
  request_body_to_args (env_pydantic env) pr fields (rq_body rq) (rq_embed rq) fs
  = rmap (fun x => (x.1, fs))
      (request_body_to_args (env_pydantic env) pr fields (rq_body rq) (rq_embed rq) ∅).
Proof.
  unfold request_body_to_args, rmap. destruct fields as [|f fields]; [done|].
  destruct (rq_body rq) as [|v|form] eqn:E; [| |by destruct (Hform form)];
    cbn [rbind]; (case_match; [destruct (_validate_value_with_model_field _ _ _ _)|destruct (rfold _ _ _)]);
    done.
Qed.

Lemma own_args_ref d acc st : own_args env rq d acc st = (st, ref_own env rq d acc).
Proof.
  unfold own_args, ref_own, mbnd, lift.
  destruct (param_args _ _ _ _) as [acc'|]; cbn [rbind]; [|done].
  destruct (body_params (params d)) as [|f fs]; [done|]. rewrite body_files. unfold rmap.
  destruct (request_body_to_args _ _ _ _ _ ∅) as [[[vs es] fl]|]; cbn; [|done]. by destruct st.
Qed.

Context (root : Dependant) (Hroot : coherent_keys pr root).

(** The cache holds what the reference computes. *)
Definition consistent (st : sstate) : Prop :=
  ∀ n v, n ∈ preorder root -> cache_lookup st (cache_key pr n) = Some v ->
  ∃ vs, ref n = Ok (vs, []) ∧ pure (dep_call (info n)) vs = Ok v.

(** The background tasks of the request exist, or will be the next object. *)
Definition tasks_ok (st : sstate) (bg : option Z) : Prop :=
  bg = Some tasks ∨ bg = None ∧ next_id st = tasks.

Definition agrees (res : sstate * result SolvedDependency) (o : result args_state) : Prop :=
  match o with
  | Ok acc =>
      ∃ bg, res.2 = Ok (mkSolved acc.1 acc.2 bg response) ∧ consistent res.1 ∧ tasks_ok res.1 bg
  | Raise e => res.2 = Raise e
  end.

Lemma solved_value_ref sub vs st bg :
  sub ∈ preorder root -> ref sub = Ok (vs, []) -> consistent st -> tasks_ok st bg ->
  let res := solved_value env sub sub vs st in
  res.2 = pure (dep_call (info sub)) vs ∧ consistent res.1 ∧ tasks_ok res.1 bg.
Proof.
  intros Hs Hr Hc Ht. unfold solved_value.
  destruct (if use_cache (info sub) then _ else None) as [v|] eqn:E.
  { destruct (use_cache (info sub)); [|done]. destruct (Hc sub v Hs E) as (vs' & Hr' & Hp).
    rewrite Hr in Hr'. injection Hr' as <-. by rewrite Hp. }
  unfold mbnd, invoke. rewrite Hpure.
  destruct (pure (dep_call (info sub)) vs) as [v|e] eqn:Ep; [|done].
  destruct (use_cache (info sub)); [|done]. split_and!; [done| |done].
  intros n w Hn. unfold cache_lookup. simpl. rewrite dict_get_set. case_decide as Hk; [|by apply Hc].
  intros [= <-]. pose proof (Hroot _ _ Hs Hn Hk) as Hsame. exists vs.
  rewrite <-(same_ref _ _ Hsame). split; [done|].
  assert (Hcall : dep_call (info sub) = dep_call (info n)) by (by injection Hk).
  by rewrite <-Hcall.
Qed.

Lemma solve_sub_ref rec values errors bg sub st :
  sub ∈ preorder root ->
  (∀ st bg, consistent st -> tasks_ok st bg -> agrees (rec sub bg st) (ref sub)) ->
  consistent st -> tasks_ok st bg ->
  let res := solve_sub env rec ((values, errors), bg) sub st in
  match ref_sub (values, errors) sub with
  | Ok acc => ∃ bg', res.2 = Ok (acc, bg') ∧ consistent res.1 ∧ tasks_ok res.1 bg'
  | Raise e => res.2 = Raise e
  end.
Proof.
  intros Hs Hrec Hc Ht. unfold solve_sub, ref_sub, use_dependant, mbnd, lift. rewrite Hover.
  specialize (Hrec st bg Hc Ht). unfold agrees in Hrec.
  destruct (rec sub bg st) as [st1 r] eqn:Er. cbn [fst snd] in Hrec.
  destruct (ref sub) as [[vs es]|e] eqn:Eref; [|by rewrite Hrec].
  destruct Hrec as (bg1 & -> & Hc1 & Ht1). cbn [rbind s_errors s_values s_background_tasks fst snd].
  destruct es as [|e es]; [|by exists bg1].
  destruct (solved_value_ref sub vs st1 bg1 Hs Eref Hc1 Ht1) as (Hv & Hc2 & Ht2).
  destruct (solved_value env sub sub vs st1) as [st2 o]. cbn [fst snd] in *. subst o.
  destruct (pure (dep_call (info sub)) vs) as [v|e]; [|done]. by exists bg1.
Qed.

Lemma solve_loop_ref rec subs :
  (∀ s, s ∈ subs -> s ∈ preorder root) ->
  (∀ s st bg, s ∈ subs -> consistent st -> tasks_ok st bg -> agrees (rec s bg st) (ref s)) ->
  ∀ acc bg st, consistent st -> tasks_ok st bg ->
  let res := mfold (solve_sub env rec) (acc, bg) subs st in
  match rfold ref_sub acc subs with
  | Ok acc' => ∃ bg', res.2 = Ok (acc', bg') ∧ consistent res.1 ∧ tasks_ok res.1 bg'
  | Raise e => res.2 = Raise e
  end.
Proof.
  induction subs as [|s subs IH]; intros Hin Hrec acc bg st Hc Ht;
    cbn [mfold rfold]; [by exists bg|].
  destruct acc as [values errors]. rewrite mbnd_run.
  pose proof (solve_sub_ref rec values errors bg s st (Hin s ltac:(set_solver))
    (fun st bg => Hrec s st bg ltac:(set_solver)) Hc Ht) as Hsub. cbv zeta in Hsub.
  destruct (solve_sub env rec ((values, errors), bg) s st) as [st1 r]. cbn [fst snd] in Hsub.
  destruct (ref_sub (values, errors) s) as [acc1|e]; [|by subst r].
  destruct Hsub as (bg1 & -> & Hc1 & Ht1). cbn [rbind].
  apply IH; [set_solver|set_solver|done|done].
Qed.

(** Background tasks are created when a dependant asks for them. *)
Lemma ensure_tasks_ref d bg st acc :
  consistent st -> tasks_ok st bg ->
  let res := ensure_tasks d bg st in
  ∃ bg', res.2 = Ok bg' ∧ consistent res.1 ∧ tasks_ok res.1 bg'
    ∧ special_values rq d response bg' acc = special_values rq d response (Some tasks) acc.
Proof.
  intros Hc Ht. unfold ensure_tasks, special_values.
  destruct (background_tasks_param_name (names d)) as [x|] eqn:En.
  - destruct Ht as [->|[-> Hn]]; [by exists (Some tasks); split_and!; [..|left|]|].
    exists (Some tasks). cbn. rewrite Hn. split_and!; [done|exact Hc|by left|done].
  - exists bg. split_and!; [done|done|done|]. by destruct bg.
Qed.

Lemma solve_ref fuel d :
  (height d < fuel)%nat -> (∀ n, n ∈ preorder d -> n ∈ preorder root) ->
  ∀ st bg, consistent st -> tasks_ok st bg ->
  agrees (solve_dependencies env rq fuel (Some response) d bg st) (ref d).
Proof.
  revert d. induction fuel as [|fuel IH]; intros d Hh Hin st bg Hc Ht; [lia|].
  rewrite ref_solve_unfold. cbn [solve_dependencies].
  destruct (trivial_dependant d); [by exists bg|].
  rewrite mbnd_run. unfold lift. destruct (check_stacks rq) as [|e]; [|done]. cbn [rbind].
  rewrite mbnd_run. unfold ret at 1. rewrite mbnd_run.
  pose proof (solve_loop_ref (solve_dependencies env rq fuel (Some response)) (dependencies d)
    (fun s Hs => Hin s (preorder_sub d s s Hs (preorder_self s)))) as Hloop.
  specialize (Hloop (fun s st bg Hs => IH s ltac:(pose proof (height_sub d s Hs); lia)
    (fun n Hn => Hin n (preorder_sub d s n Hs Hn)) st bg) ([], []) bg st Hc Ht). cbv zeta in Hloop.
  destruct (mfold _ _ _ _) as [st1 r]. cbn [fst snd] in Hloop.
  destruct (rfold ref_sub ([], []) (dependencies d)) as [acc|e]; [|by subst r].
  destruct Hloop as (bg1 & -> & Hc1 & Ht1). cbn [rbind]. rewrite mbnd_run, own_args_ref. destruct (ref_own env rq d acc) as [[values errors]|e]; [|done].
  cbn [rbind]. rewrite mbnd_run.
  destruct (ensure_tasks_ref d bg1 st1 values Hc1 Ht1) as (bg2 & Hbg & Hc2 & Ht2 & Hsv).
  destruct (ensure_tasks d bg1 st1) as [st2 r2]. cbn [fst snd] in *. subst r2.
  exists bg2. by rewrite Hsv.
Qed.
End equivalence.

(** ** Trees deeper than the limit *)
Lemma solve_too_deep env rq fuel :
  env_overrides env = [] ->
  ∀ d response bg st s, (fuel <= height d)%nat ->
  (solve_dependencies env rq fuel response d bg st).2 ≠ Ok s.
Proof.
  intros Hover. induction fuel as [|fuel IH]; intros d response bg st s Hh; [done|].
  assert (∃ x, x ∈ dependencies d ∧ (fuel <= height x)%nat) as (x & Hx & Hfx).
  { destruct d as [i p n deps]. cbn [height dependencies] in *. clear -Hh.
    induction deps as [|y deps IHd]; cbn [foldr] in Hh; [lia|].
    destruct (decide (fuel <= height y)%nat); [exists y; set_solver|].
    destruct IHd as (z & Hz & Hfz); [lia|]. exists z. set_solver. }
  cbn [solve_dependencies]. assert (trivial_dependant d = false) as ->.
  { destruct d as [i [[] [] [] [] []] [[] [] [] [] [] []] []]; try done. set_solver. }
  rewrite mbnd_run. unfold lift. destruct (check_stacks rq); [|done]. rewrite mbnd_run.
  destruct (match response with Some r => ret r | None => new_object end st) as [st1 [r|e]]; [|done].
  rewrite mbnd_run.
  assert (Hloop : ∀ subs acc st res, x ∈ subs ->
    (mfold (solve_sub env (solve_dependencies env rq fuel (Some r))) acc subs st).2 ≠ Ok res).
  { induction subs as [|y subs IHs]; intros acc st2 res Hin; [set_solver|].
    cbn [mfold]. rewrite mbnd_run.
    destruct (solve_sub _ _ acc y st2) as [st3 [acc'|e]] eqn:E; [|done].
    apply elem_of_cons in Hin as [->|Hin]; [|by apply IHs]. exfalso.
    destruct acc as [[vs es] bg2]. unfold solve_sub, use_dependant in E. rewrite Hover in E.
    unfold lift in E. rewrite !mbnd_run in E.
    destruct (solve_dependencies env rq fuel (Some r) y bg2 st2) as [st4 [s'|e]] eqn:E'; [|done].
    eapply (IH y (Some r) bg2 st2 s' Hfx). by rewrite E'. }
  specialize (Hloop (dependencies d) ([], [], bg) st1).
  destruct (mfold _ _ _ _) as [st2 [[acc bg1]|e]]; [|done].
  by destruct (Hloop (acc, bg1) Hx).
Qed.

(** Without a response the solver creates one first. *)
Lemma solve_none env rq fuel d bg st :
  (solve_dependencies env rq (S fuel) None d bg st).2
  = (solve_dependencies env rq (S fuel) (Some (next_id st)) d bg (fresh_id st)).2.
Proof.
  cbn [solve_dependencies]. destruct (trivial_dependant d); [done|].
  rewrite !mbnd_run. unfold lift. destruct (check_stacks rq); [|done]. by rewrite !mbnd_run.
Qed.

(** ** Trees without scopes have coherent keys *)
Section no_scopes.
Context (pr : Program).

Lemma rfold_related {A S T} (R : S -> T -> Prop) (f : S -> A -> result S) (g : T -> A -> result T) l :
  (∀ s t a s' t', a ∈ l -> R s t -> f s a = Ok s' -> g t a = Ok t' -> R s' t') ->
  ∀ s t s' t', R s t -> rfold f s l = Ok s' -> rfold g t l = Ok t' -> R s' t'.
Proof.
  induction l as [|a l IH]; intros Hstep s t s' t' HR; simpl; [by intros [= <-] [= <-]|].
  intros (s1 & Hf & Hs)%rbind_Ok (t1 & Hg & Ht)%rbind_Ok.
  apply (IH (fun s t x s' t' Hx => Hstep s t x s' t' (list_elem_of_further x a l Hx)) s1 t1 s' t');
    [|done|done]. by apply (Hstep s t a s1 t1 (list_elem_of_here a l)).
Qed.

(** Sub-dependants that correspond. *)
Definition alike (x y : Dependant) : Prop :=
  dep_call (info x) = dep_call (info y) ∧ dep_name (info x) = dep_name (info y)
  ∧ dep_path (info x) = dep_path (info y).

Lemma dependant_param_related i j sub1 sub2 acc1 acc2 p acc1' acc2' :
  dep_path i = dep_path j -> (∀ k d, sub1 k = Ok d -> info d = k) ->
  (∀ k d, sub2 k = Ok d -> info d = k) ->
  (acc1.1 = acc2.1 ∧ Forall2 alike acc1.2 acc2.2) ->
  dependant_param pr i sub1 acc1 p = Ok acc1' -> dependant_param pr j sub2 acc2 p = Ok acc2' ->
  acc1'.1 = acc2'.1 ∧ Forall2 alike acc1'.2 acc2'.2.
Proof.
  intros Hp Hs1 Hs2. destruct acc1 as [[ps ns] d1], acc2 as [[ps2 ns2] d2], p as [name [an v]].
  simpl. intros [[= <- <-] Hd]. unfold dependant_param. rewrite Hp.
  intros (det & Ha & H1)%rbind_Ok (det' & Ha' & H2)%rbind_Ok. rewrite Ha in Ha'. injection Ha' as <-.
  destruct (depends det) as [dp|].
  - destruct (dependency dp) as [c|]; [|done]. do 2 (case_match; [done|]).
    apply rbind_Ok in H1 as (x & Hx%Hs1 & [= <-]), H2 as (y & Hy%Hs2 & [= <-]).
    split; [done|]. apply Forall2_app; [done|]. apply Forall2_cons. split; [|done].
    unfold alike. by rewrite Hx, Hy.
  - destruct (add_non_field_param_to_dependency _ _ _).
    + apply rbind_Ok in H1 as (_ & _ & [= <-]), H2 as (_ & _ & [= <-]). done.
    + destruct (field det) as [f|]; [|done]. destruct (is_Body _); [by simplify_eq/=|].
      apply rbind_Ok in H1 as (q & Hq & [= <-]), H2 as (q' & Hq' & [= <-]).
      rewrite Hq in Hq'. by injection Hq' as <-.
Qed.

Lemma get_dependant_alike f1 f2 i j a b :
  get_dependant pr f1 i = Ok a -> get_dependant pr f2 j = Ok b ->
  dep_call i = dep_call j -> dep_path i = dep_path j ->
  (∀ n, n ∈ preorder a ++ preorder b -> oauth_scopes n = []) -> same a b.
Proof.
  revert f2 i j a b. induction f1 as [|f1 IH]; intros [|f2] i j a b Ha Hb Hc Hp Hsc; [done..|].
  pose proof (fun s => get_dependant_sub pr f1 i a s Ha) as Hsa.
  pose proof (fun s => get_dependant_sub pr f2 j b s Hb) as Hsb.
  simpl in Ha, Hb. apply rbind_Ok in Ha as ([[ps ns] d1] & Hr1 & [= <-]).
  apply rbind_Ok in Hb as ([[ps2 ns2] d2] & Hr2 & [= <-]). rewrite Hc in Hr1.
  assert (H : (ps, ns, d1).1 = (ps2, ns2, d2).1 ∧ Forall2 alike (ps, ns, d1).2 (ps2, ns2, d2).2).
  { refine (rfold_related (fun s t : DepParams * DepNames * list Dependant =>
      s.1 = t.1 ∧ Forall2 alike s.2 t.2) _ _ _ _ _ _ _ _ _ Hr1 Hr2); [|by split; [|constructor]].
    intros s t p s' t' _ HR. by apply dependant_param_related; eauto using get_dependant_info. }
  destruct H as [Heq Hd].
  simpl in Heq, Hd. injection Heq as <- <-. constructor.
  - intros _. rewrite !Hsc; [done|..]; rewrite elem_of_app; auto using preorder_self.
  - simpl in Hsa, Hsb. apply Forall2_same_length_lookup_2; [by eapply Forall2_length|].
    intros k x y Hx Hy. destruct (Forall2_lookup_lr _ _ _ _ _ _ Hd Hx Hy) as (Hxc & Hxn & Hxp).
    apply list_elem_of_lookup_2 in Hx, Hy. split_and!; [done|done|].
    eapply IH; [by apply Hsa|by apply Hsb|done|done|].
    intros n [Hn|Hn]%elem_of_app; apply Hsc, elem_of_app; [left|right]; by eapply preorder_sub.
Qed.

Lemma preorder_built fuel i d :
  get_dependant pr fuel i = Ok d ->
  ∀ n, n ∈ preorder d -> dep_path (info n) = dep_path i ∧ ∃ f, get_dependant pr f (info n) = Ok n.
Proof.
  revert i d. induction fuel as [|fuel IH]; intros i d Hd n; [done|].
  pose proof (get_dependant_info _ _ _ _ Hd) as Hi.
  rewrite preorder_cons. intros [->|Hn]%elem_of_cons; [rewrite Hi; eauto|].
  apply elem_of_concat in Hn as (l & Hn & (s & -> & Hs)%list_elem_of_fmap).
  destruct (IH _ _ (get_dependant_sub _ _ _ _ _ Hd Hs) n Hn) as [Hp ?]. split; [|done].
  rewrite Hp. pose proof (get_dependant_nodes _ _ _ _ Hd d (preorder_self d)) as Hok.
  destruct Hok as (_ & _ & _ & Hsubs & _). rewrite Forall_forall in Hsubs.
  destruct (Hsubs s Hs) as (-> & _). by rewrite Hi.
Qed.

Lemma no_scopes_coherent fuel i d :
  get_dependant pr fuel i = Ok d -> (∀ n, n ∈ preorder d -> oauth_scopes n = []) ->
  coherent_keys pr d.
Proof.
  intros Hd Hsc a b Ha Hb Hk.
  destruct (preorder_built _ _ _ Hd a Ha) as (Hpa & fa & Hfa).
  destruct (preorder_built _ _ _ Hd b Hb) as (Hpb & fb & Hfb).
  eapply get_dependant_alike; [exact Hfa|exact Hfb| |congruence|].
  { exact (f_equal (fun k : CacheKey => k.1.1) Hk). }
  intros n [Hn|Hn]%elem_of_app; apply Hsc;
    [exact (preorder_trans d a n Ha Hn)|exact (preorder_trans d b n Hb Hn)].
Qed.
End no_scopes.

(** C10: the dependency cache is transparent.  For callables that are functions
    of their arguments, a body that is no form, no overrides, a tree of depth at
    most 100 and an empty cache, and when equal cache keys stand for dependants
    that are solved alike, solving a request returns exactly the arguments and
    errors of the cache-free reading of the tree ([ref_solve], where every
    dependency is called anew), and raises exactly the exception it raises; all
    dependants see the same response and background tasks.  A deeper tree never
    returns. *)
Theorem solving_is_reference env rq pure d bg st :
  (∀ h c kw, run_call env h c kw = pure c kw) -> env_overrides env = [] ->
  (∀ f, rq_body rq ≠ FormBody f) -> coherent_keys (env_program env) d ->
  dependency_cache st = [] ->
  ((height d <= 100)%nat ->
   match ref_solve env rq pure (next_id st) (get_or bg (next_id st + 1)) d with
   | Ok acc =>
       ∃ bg', (solve_request env rq d bg st).2 = Ok (mkSolved acc.1 acc.2 bg' (next_id st))
   | Raise e => (solve_request env rq d bg st).2 = Raise e
   end)
  ∧ ((100 < height d)%nat -> ∀ s, (solve_request env rq d bg st).2 ≠ Ok s).
Proof.
  intros Hpure Hover Hform Hco Hc. unfold solve_request. split.
  - intros Hh. rewrite solve_none.
    pose proof (solve_ref env rq pure (next_id st) (get_or bg (next_id st + 1)) Hpure Hover Hform
      d Hco 101 d ltac:(lia) ltac:(done) (fresh_id st) bg) as H.
    unfold agrees in H. specialize (H ltac:(intros n v _; unfold cache_lookup; simpl; by rewrite Hc)).
    specialize (H ltac:(destruct bg; [by left|by right])).
    destruct (ref_solve _ _ _ _ _ _); [|done]. destruct H as (bg' & -> & _). eauto.
  - intros Hh s. by apply solve_too_deep.
Qed.

(** ** A request

    [endpoint(a=Depends(left), b=Depends(right), q: str)], both of which
    depend on [session]. *)
Module SampleRequest.
Definition endpoint : call := 0.
Definition left : call := 1.
Definition right : call := 2.
Definition session : call := 3.

Definition dep (c : call) : param_ann * param_default :=
  (EmptyA, DDepends (mkDepends (Some c) true None None)).

Definition program : Program := mkProgram
  (fun c => if (c =? session)%Z then Function Gen else Function Coro) (fun _ => $"f")
  (fun c =>
     if (c =? endpoint)%Z then
       [($"a", dep left); ($"b", dep right); ($"q", (Written (Plain (Cls StrC)), EmptyD))]
     else if (c =? left)%Z || (c =? right)%Z then [($"db", dep session)]
     else if (c =? session)%Z then [($"tasks", (Written (Plain (Cls BackgroundTasksC)), EmptyD))]
     else [])
  (fun _ => 0) (fun _ => []) true.

Definition pure (c : call) (kwargs : list (str * value)) : result value :=
  Ok (VDict (($"callable", VInt c) :: kwargs)).

Definition core : Core := mkCore
  (fun _ => [($"q", [$"hello"])]) (fun _ => []) (fun _ _ => []) (fun _ _ => Ok [])
  (fun _ _ _ _ _ => Raise (RuntimeError [])).

Definition env : Env := mkEnv program
  (mkPydantic (fun _ v => Valid v) (fun _ => None)) core [] 10 (fun _ => pure).

Definition request : Req :=
  mkReq true [] None None None None None true true NoBody false.

Definition route : DepInfo := mkDepInfo None endpoint None None true $"/" None.

Definition tree : Dependant :=
  match get_dependant program 3 route with
  | Ok d => d
  | Raise _ => mkDependant route no_params no_names []
  end.

Definition start : sstate := mkState [] ∅ 0 [].

Lemma tree_coherent : coherent_keys program tree.
Proof.
  apply (no_scopes_coherent program 3 route); [vm_compute; reflexivity|].
  rewrite <-Forall_forall. apply (bool_decide_eq_true_1 _). vm_compute. reflexivity.
Qed.
End SampleRequest.

Lemma solving_is_reference_witness :
  ∃ bg, (solve_request SampleRequest.env SampleRequest.request SampleRequest.tree None
           SampleRequest.start).2
  = Ok (mkSolved
      [($"a", VDict [($"callable", VInt 1);
                     ($"db", VDict [($"callable", VInt 3); ($"tasks", VBackgroundTasks 1)])]);
       ($"b", VDict [($"callable", VInt 2);
                     ($"db", VDict [($"callable", VInt 3); ($"tasks", VBackgroundTasks 1)])]);
       ($"q", VStr $"hello")] [] bg 0).
Proof.
  destruct (solving_is_reference SampleRequest.env SampleRequest.request SampleRequest.pure
    SampleRequest.tree None SampleRequest.start) as [H _].
  - reflexivity.
  - reflexivity.
  - done.
  - exact SampleRequest.tree_coherent.
  - reflexivity.
  - exact (H ltac:(vm_compute; lia)).
Defined.

