(* ===== verification/FastDeps.v ===== *)
(** * FastDeps: the dependency solvers of the compiled server

    The part of [routing.py] that prepares the dependencies of a route for the
    compiled server: the flattening of the tree into nodes, leaves first, and
    the solvers for small trees of plain dependencies, synchronous and
    asynchronous.  They look parameters up in the dictionary of arguments the
    server has extracted.  Sets of names are listed in the order of insertion.
    What a dependency does when called is a parameter. *)

From S2P Require Import Prelude PyStr Asgi ExceptionHandler Annotations Dependants ParamArgs Solve.

(** ** Nodes

    Less what only the solvers for other trees read: the class of a security
    scheme, its credentials and the lifetime of a dependency. *)
Record dep_node : Type := mkNode {
  n_name : str;
  n_call : call;
  n_key : CacheKey;
  n_use_cache : bool;
  n_is_coro : bool;
  n_is_gen : bool;
  n_child_names : list str;
  n_child_keys : list (str * CacheKey);
  n_param_names : list str;
  n_required_query : list str;
  n_required_header : list str;
  n_required_cookie : list str;
  n_required_body : list str;
  n_has_form_body : bool;
  n_defaults : list (str * value);
  n_special : DepNames;
  n_is_security : bool;
  n_oauth_scopes : list str;
  n_aliases : list str
}.

Definition add_alias (n : dep_node) (a : str) : dep_node :=
  mkNode (n_name n) (n_call n) (n_key n) (n_use_cache n) (n_is_coro n) (n_is_gen n) (n_child_names n)
    (n_child_keys n) (n_param_names n) (n_required_query n) (n_required_header n) (n_required_cookie n)
    (n_required_body n) (n_has_form_body n) (n_defaults n) (n_special n) (n_is_security n) (n_oauth_scopes n)
    (if bool_decide (a ∈ n_aliases n) then n_aliases n else n_aliases n ++ [a]).

(** [s.add(x)] *)
Definition add_name (s : list str) (x : str) : list str := if bool_decide (x ∈ s) then s else s ++ [x].

(** [a or b] for a text that may be absent. *)
Definition text_or (o : option str) (b : str) : str := match o with Some ((_ :: _) as s) => s | _ => b end.

Section flatten.
Context (pr : Program).
(** [call.__name__], if there is one, [id(call)], and whether the callable is
    an instance of [HTTPBase]. *)
Context (dunder_name : call -> option str) (addr : call -> Z) (is_http_scheme : call -> bool).

Definition node_name (i : nat) (sub : Dependant) : str :=
  let c := dep_call (info sub) in
  text_or (dep_name (info sub))
    (text_or (dunder_name c) ($"__dep_" ++ N_to_str (N.of_nat i) ++ $"_" ++ Z_to_str (addr c))).

Definition child_name (child : Dependant) : str :=
  let c := dep_call (info child) in
  text_or (dep_name (info child)) (text_or (dunder_name c) ($"__dep_" ++ Z_to_str (addr c))).

Definition required_names (name_of : ModelField -> str) (fields : list ModelField) : list str :=
  foldl add_name [] (name_of <$> filter (fun f => required f = true) fields).

(** [f.alias or f.name] *)
Definition alias_or_name (f : ModelField) : str := match alias f with [] => field_name f | a => a end.

(** The defaults of the optional fields, a later one of the same name last. *)
Definition optional_defaults (fields : list ModelField) : list (str * value) :=
  foldl (fun d f => if required f then d else dict_set d (field_name f) (default f)) [] fields.

Definition make_node (i : nat) (sub : Dependant) : dep_node :=
  let p := params sub in
  let c := dep_call (info sub) in
  mkNode (node_name i sub) c (cache_key pr sub) (use_cache (info sub)) (is_coroutine_callable (callable pr c))
    (is_generator pr c) (child_name <$> dependencies sub)
    (foldl (fun d ch => dict_set d (child_name ch) (cache_key pr ch)) [] (dependencies sub))
    (foldl add_name [] (field_name <$> query_params p ++ header_params p ++ cookie_params p ++ path_params p ++ body_params p))
    (required_names field_name (query_params p)) (required_names alias_or_name (header_params p))
    (required_names alias_or_name (cookie_params p)) (required_names field_name (body_params p))
    (existsb (fun f => is_Form (fi_class (field_info f))) (body_params p))
    (optional_defaults (query_params p ++ header_params p ++ cookie_params p ++ body_params p))
    (names sub) (is_http_scheme c)
    (get_or (parent_oauth_scopes (info sub)) [] ++ get_or (own_oauth_scopes (info sub)) []) [].

(** The first cached node of a key gets the name of a repeat as an alias. *)
Fixpoint alias_node (result : list dep_node) (key : CacheKey) (name : str) : list dep_node :=
  match result with
  | [] => []
  | n :: result' =>
      if bool_decide (n_key n = key) && n_use_cache n then add_alias n name :: result'
      else n :: alias_node result' key name
  end.

Abbreviation flat_state := (list dep_node * list CacheKey)%type.

(** One dependency of the loop; [rec] flattens its own dependencies. *)
Definition flatten_sub (rec : flat_state -> flat_state) (i : nat) (sub : Dependant) (st : flat_state) : flat_state :=
  let key := cache_key pr sub in
  let cached := use_cache (info sub) in
  if bool_decide (key ∈ st.2) && cached then
    (match dep_name (info sub) with Some ((_ :: _) as n) => alias_node st.1 key n | _ => st.1 end, st.2)
  else
    let visited := if cached then st.2 ++ [key] else st.2 in
    let st' := if cached || negb (bool_decide (key ∈ visited)) then rec (st.1, visited) else (st.1, visited) in
    (st'.1 ++ [make_node i sub], st'.2).

Fixpoint _flatten_deps (d : Dependant) (st : flat_state) {struct d} : flat_state :=
  let '(mkDependant _ _ _ deps) := d in
  (fix go (i : nat) (subs : list Dependant) (st : flat_state) : flat_state :=
     match subs with
     | [] => st
     | sub :: subs' => go (S i) subs' (flatten_sub (_flatten_deps sub) i sub st)
     end) 0%nat deps st.

(** ** The graph for the core *)
Definition graph_name (prefix : str) (i : nat) (d : Dependant) : str :=
  text_or (dep_name (info d)) (text_or (dunder_name (dep_call (info d))) (prefix ++ N_to_str (N.of_nat i))).

Fixpoint _collect_deps (d : Dependant) (st : list (str * list str) * list str) {struct d}
    : list (str * list str) * list str :=
  let '(mkDependant _ _ _ deps) := d in
  (fix go (i : nat) (subs : list Dependant) st :=
     match subs with
     | [] => st
     | sub :: subs' =>
         let name := graph_name $"__dep_" i sub in
         let st' :=
           if bool_decide (name ∈ st.2) then st
           else
             let sub_names := imap (graph_name $"__subdep_") (dependencies sub) in
             _collect_deps sub (st.1 ++ [(name, sub_names)], st.2 ++ [name]) in
         go (S i) subs' st'
     end) 0%nat deps st.

Definition _build_dependency_graph (d : Dependant) : list (str * list str) := (_collect_deps d ([], [])).1.

(** ** Small trees of plain dependencies *)

(** [_node_is_trivial] *)
Definition node_is_trivial (n : dep_node) : bool :=
  match n_special n with
  | mkNames None _ None None None None => negb (n_is_security n) && negb (n_has_form_body n)
  | _ => false
  end.

Definition can_fast_dep (nodes : list dep_node) : bool :=
  (length nodes <=? 3)%nat && forallb node_is_trivial nodes && negb (existsb n_is_gen nodes).

(** The names the endpoint gets, and the parameters that are taken away from
    its arguments: those of dependencies that are no path parameter of a direct
    one. *)
Definition injectable_names (d : Dependant) : list str :=
  omap (fun sub => match dep_name (info sub) with Some ((_ :: _) as n) => Some n | _ => None end) (dependencies d).

Definition is_path_name (d : Dependant) (p : str) : bool :=
  existsb (fun sub => existsb (fun f => bool_decide (field_name f = p)) (path_params (params sub))) (dependencies d).

Definition dep_consumed_params (d : Dependant) (nodes : list dep_node) : list str :=
  filter (fun p => is_path_name d p = false) (concat (n_param_names <$> nodes)).
End flatten.

(** ** Solving *)

Definition missing (loc name : str) : error := mkError $"missing" [loc; name] $"Field required" VNone.

Definition present (kd : list (str * value)) (n : str) : bool := dict_mem kd n.

(** [_check_node_required] *)
Definition check_node_required (kd : list (str * value)) (n : dep_node) : list error :=
  (missing $"query" <$> filter (fun rp => match dict_get kd rp with None | Some VNone => true | _ => false end = true)
                                (n_required_query n))
  ++ (missing $"header" <$> filter (fun rp => negb (present kd rp) && negb (present kd (replace_char 45 95 rp)) = true)
                                (n_required_header n))
  ++ (missing $"cookie" <$> filter (fun rp => negb (present kd rp) = true) (n_required_cookie n))
  ++ (missing $"body" <$> filter (fun rp => negb (present kd rp) = true) (n_required_body n)).

(** [_build_node_kwargs]: parameters, then children, then defaults. *)
Definition take_present (src : list (str * value)) (dk : list (str * value)) (n : str) : list (str * value) :=
  match dict_get src n with Some v => dict_set dk n v | None => dk end.

Definition build_node_kwargs (kd : list (str * value)) (n : dep_node) (resolved : list (str * value))
    : list (str * value) :=
  let dk := foldl (take_present kd) [] (n_param_names n) in
  let dk := foldl (take_present resolved) dk (n_child_names n) in
  foldl (fun dk '(p, v) => dict_setdefault dk p v) dk (n_defaults n).

(** A call: what it gives, and, for a coroutine, whether it gets there without
    suspending; or the exception of binding arguments that do not fit, before
    there is a coroutine. *)
Inductive progress : Type := Finished | Suspended | Unbound (e : exn).

Abbreviation call_log := (list (call * list (str * value))).

Section solve.
Context (run : call_log -> call -> list (str * value) -> progress * result value) (exn_str : exn -> str).

(** Exceptions other than [HTTPException] become one. *)
Definition convert (e : exn) : exn :=
  if isinstance e $"HTTPException" then e else HTTPException 500 (Some (exn_str e)) None.

Record fstate : Type := mkF { f_log : call_log; f_resolved : list (str * value); f_errors : list error }.

Definition record_value (s : fstate) (n : dep_node) (v : value) : list (str * value) :=
  foldl (fun d a => dict_set d a v) (dict_set (f_resolved s) (n_name n) v) (n_aliases n).

(** How the loop over the nodes goes on: it reached the end, raised, or met a
    coroutine that suspends. *)
Inductive loop_end : Type := LoopDone (s : fstate) | LoopRaise (log : call_log) (e : exn) | LoopSuspend (s : fstate).

(** The coroutine is made outside of the [try], so that an exception of binding
    the arguments is raised as it is. *)
Fixpoint fast_loop (kd : list (str * value)) (nodes : list dep_node) (s : fstate) : loop_end :=
  match nodes with
  | [] => LoopDone s
  | n :: nodes' =>
      match check_node_required kd n with
      | [] =>
          let dk := build_node_kwargs kd n (f_resolved s) in
          let log := f_log s ++ [(n_call n, dk)] in
          match run (f_log s) (n_call n) dk with
          | (Finished, Ok v) => fast_loop kd nodes' (mkF log (record_value s n v) (f_errors s))
          | (Finished, Raise e) => LoopRaise log (convert e)
          | (Suspended, _) => LoopSuspend (mkF log (f_resolved s) (f_errors s))
          | (Unbound e, _) => LoopRaise (f_log s) e
          end
      | errs => fast_loop kd nodes' (mkF (f_log s) (f_resolved s) (f_errors s ++ errs))
      end
  end.

(** [_yield_fallback]: every node is run from the beginning, and awaited;
    required parameters are not looked at. *)
Fixpoint fallback_loop (kd : list (str * value)) (nodes : list dep_node) (s : fstate) : fstate * option exn :=
  match nodes with
  | [] => (s, None)
  | n :: nodes' =>
      let dk := build_node_kwargs kd n (f_resolved s) in
      let log := f_log s ++ [(n_call n, dk)] in
      match run (f_log s) (n_call n) dk with
      | (Unbound e, _) => (s, Some (convert e))
      | (_, Ok v) => fallback_loop kd nodes' (mkF log (record_value s n v) (f_errors s))
      | (_, Raise e) => (mkF log (f_resolved s) (f_errors s), Some (convert e))
      end
  end.

(** What a solver gives back: the injected values, the errors and the
    remaining arguments of the endpoint, after the calls it made. *)
Record solved_deps : Type := mkSolvedDeps {
  sd_injected : list (str * value);
  sd_errors : list error;
  sd_kwargs : list (str * value)
}.

Definition give_back (d : Dependant) (nodes : list dep_node) (kd : list (str * value)) (s : fstate) : solved_deps :=
  mkSolvedDeps (filter (fun kv => kv.1 ∈ injectable_names d) (f_resolved s)) (f_errors s)
    (foldl dict_del kd (dep_consumed_params d nodes)).

(** [_fast_solve_multi_inline] without overrides. *)
Definition fast_solve_multi_inline (d : Dependant) (nodes : list dep_node) (kd : list (str * value))
    : call_log * result solved_deps :=
  match fast_loop kd nodes (mkF [] [] []) with
  | LoopDone s => (f_log s, Ok (give_back d nodes kd s))
  | LoopRaise log e => (log, Raise e)
  | LoopSuspend s =>
      match fallback_loop kd nodes (mkF (f_log s) [] (f_errors s)) with
      | (s', None) => (f_log s', Ok (give_back d nodes kd s'))
      | (s', Some e) => (f_log s', Raise e)
      end
  end.
End solve.

(** [_fast_solve_multi_sync] without overrides: plain functions, which always
    finish, and whose arguments are bound inside of the [try]. *)
Definition fast_solve_multi_sync (run : call_log -> call -> list (str * value) -> result value)
    (exn_str : exn -> str) : Dependant -> list dep_node -> list (str * value) -> call_log * result solved_deps :=
  fast_solve_multi_inline (fun log c kwargs => (Finished, run log c kwargs)) exn_str.
