(* ===== verification/FastDepsFacts.v ===== *)
(** * FastDepsFacts: the fast solvers against the dependency tree

    Flattening lists every cache key once, children before parents, with every
    parameter name under which it is used; the fast solvers then compute what
    the tree stands for, as long as no two dependencies share a name. *)

From S2P Require Import Prelude PyStr Asgi ExceptionHandler Annotations Dependants DependantFacts ParamArgs Solve.
From S2P Require Import SolveFacts FastDeps.

(** ** Aliases *)
Definition with_aliases (n : dep_node) (l : list str) : dep_node :=
  mkNode (n_name n) (n_call n) (n_key n) (n_use_cache n) (n_is_coro n) (n_is_gen n) (n_child_names n)
    (n_child_keys n) (n_param_names n) (n_required_query n) (n_required_header n) (n_required_cookie n)
    (n_required_body n) (n_has_form_body n) (n_defaults n) (n_special n) (n_is_security n) (n_oauth_scopes n) l.

Definition names_of (n : dep_node) : list str := n_name n :: n_aliases n.

(** The same node with more aliases. *)
Definition alias_le (n n' : dep_node) : Prop :=
  n' = with_aliases n (n_aliases n') ∧ n_aliases n ⊆ n_aliases n'.

Lemma alias_le_refl n : alias_le n n.
Proof. split; [by destruct n|done]. Qed.

Lemma alias_le_trans a b c : alias_le a b -> alias_le b c -> alias_le a c.
Proof. intros [-> H] [-> H']. split; [done|]. simpl in *. set_solver. Qed.

Lemma alias_le_add n x : alias_le n (add_alias n x).
Proof. split; [by destruct n|]. simpl. case_bool_decide; set_solver. Qed.

Lemma alias_node_le R k x : Forall2 alias_le R (alias_node R k x).
Proof.
  assert (∀ l, Forall2 alias_le l l) as Hr by (induction l; constructor; auto using alias_le_refl).
  induction R as [|n R IH]; simpl; [constructor|]. case_match; constructor; auto using alias_le_add, alias_le_refl.
Qed.

Lemma alias_le_key n n' : alias_le n n' -> n_key n' = n_key n.
Proof. by intros [-> _]. Qed.

Lemma alias_le_keys R R' : Forall2 alias_le R R' -> n_key <$> R' = n_key <$> R.
Proof. induction 1 as [|n n' R R' H _ IH]; csimpl; [done|]. by rewrite IH, (alias_le_key n n'). Qed.

(** ** Binding results *)
Lemma dict_get_set_all (names : list str) d (v : value) x :
  dict_get (foldl (fun d a => dict_set d a v) d names) x = if bool_decide (x ∈ names) then Some v else dict_get d x.
Proof.
  revert d. induction names as [|a names IH]; intros d; simpl; [done|]. rewrite IH, dict_get_set.
  repeat case_bool_decide; repeat case_decide; subst; set_solver.
Qed.

Definition bind_all (resolved : list (str * value)) (n : dep_node) (v : value) : list (str * value) :=
  foldl (fun d a => dict_set d a v) (dict_set resolved (n_name n) v) (n_aliases n).

Lemma bind_all_get resolved n v x :
  dict_get (bind_all resolved n v) x = if bool_decide (x ∈ names_of n) then Some v else dict_get resolved x.
Proof.
  unfold bind_all, names_of. rewrite dict_get_set_all, dict_get_set.
  repeat case_bool_decide; repeat case_decide; subst; set_solver.
Qed.

Section flat_facts.
Context (pr : Program) (dunder_name : call -> option str) (addr : call -> Z) (is_http_scheme : call -> bool).
Local Abbreviation key := (cache_key pr).
Local Abbreviation mk := (make_node pr dunder_name addr is_http_scheme).
Local Abbreviation flat := (_flatten_deps pr dunder_name addr is_http_scheme).
Local Abbreviation cname := (child_name dunder_name addr).

Fixpoint flatten_subs (i : nat) (subs : list Dependant) (st : list dep_node * list CacheKey)
    : list dep_node * list CacheKey :=
  match subs with
  | [] => st
  | sub :: subs' =>
      flatten_subs (S i) subs' (flatten_sub pr dunder_name addr is_http_scheme (flat sub) i sub st)
  end.

Lemma flatten_unfold d st : flat d st = flatten_subs 0 (dependencies d) st.
Proof.
  destruct d as [inf p n deps]. simpl. generalize 0%nat. revert st.
  induction deps as [|s deps IH]; intros st i; simpl; [done|]. apply IH.
Qed.

(** ** The tree *)
Context (T : list Dependant).
(** The dependants of [T] are closed under dependencies, cached, and equal
    keys stand for dependants that are solved alike. *)
Context (T_sub : ∀ s c, s ∈ T -> c ∈ dependencies s -> c ∈ T).
Context (T_cached : ∀ s, s ∈ T -> use_cache (info s) = true).
Context (T_same : ∀ a b, a ∈ T -> b ∈ T -> key a = key b -> same a b).

(** A node of [R] has the key of [s] and, if [s] is named, its name. *)
Definition has_name (R : list dep_node) (s : Dependant) : Prop :=
  ∃ n, n ∈ R ∧ n_key n = key s ∧ ∀ x, dep_name (info s) = Some x -> x ≠ [] -> x ∈ names_of n.

(** A node with what precedes it: it is that of a dependant of the tree whose
    dependencies precede it, and its aliases are names under the same key. *)
Definition good_at (pre : list dep_node) (n : dep_node) : Prop :=
  ∃ s i, s ∈ T ∧ n = with_aliases (mk i s) (n_aliases n) ∧
    (∀ a, a ∈ n_aliases n -> ∃ s', s' ∈ T ∧ dep_name (info s') = Some a ∧ a ≠ [] ∧ key s' = key s) ∧
    ∀ c, c ∈ dependencies s -> has_name pre c.

Fixpoint good (pre R : list dep_node) : Prop :=
  match R with
  | [] => True
  | n :: R' => good_at pre n ∧ good (pre ++ [n]) R'
  end.

Lemma has_name_mono R R' s : Forall2 alias_le R R' -> has_name R s -> has_name R' s.
Proof.
  intros HR (n & Hn & Hk & Hx). apply list_elem_of_lookup in Hn as [j Hj].
  destruct (Forall2_lookup_l _ _ _ _ _ HR Hj) as (n' & Hj' & Hle). exists n'.
  split_and!; [by eapply list_elem_of_lookup_2|by rewrite (alias_le_key n n')|].
  intros x Hname Hne. specialize (Hx x Hname Hne). destruct Hle as [-> Hsub]. unfold names_of in *. simpl in *.
  set_solver.
Qed.

Lemma has_name_app R new s : has_name R s -> has_name (R ++ new) s.
Proof. intros (n & Hn & H). exists n. split; [set_solver|done]. Qed.

Lemma good_mono pre pre' R : Forall2 alias_le pre pre' -> good pre R -> good pre' R.
Proof.
  revert pre pre'. induction R as [|n R IH]; intros pre pre' Hp; [done|]. simpl. intros [(s & i & Hs & Hn & Ha & Hc) HR].
  split.
  - exists s, i. split_and!; [done..|]. intros c Hin. eapply has_name_mono; [done|]. by apply Hc.
  - eapply IH; [|done]. apply Forall2_app; [done|]. constructor; [apply alias_le_refl|constructor].
Qed.

Lemma good_snoc pre R n : good pre R -> good_at (pre ++ R) n -> good pre (R ++ [n]).
Proof.
  revert pre. induction R as [|m R IH]; intros pre; simpl; [by rewrite app_nil_r|].
  intros [Hm HR] Hn. split; [done|]. apply IH; [done|]. by rewrite <-app_assoc.
Qed.

Lemma good_alias pre R k x s' :
  good pre R -> s' ∈ T -> dep_name (info s') = Some x -> x ≠ [] -> key s' = k -> good pre (alias_node R k x).
Proof.
  intros HR Hs' Hx Hne Hk. revert pre HR. induction R as [|n R IH]; intros pre; [done|]. simpl. intros [Hn HR].
  destruct (bool_decide (n_key n = k) && n_use_cache n) eqn:E; simpl.
  - split; [|eapply good_mono; [|exact HR]].
    + apply andb_true_iff in E as [E%bool_decide_eq_true_1 _].
      destruct Hn as (s & i & Hs & Hn & Ha & Hc). exists s, i. split_and!; [done| | |done].
      * transitivity (with_aliases n (n_aliases (add_alias n x))); [by destruct n|]. by rewrite Hn at 1.
      * assert (key s = k) as Hks by (rewrite <-E, Hn; done).
        intros a Hin. simpl in Hin. case_bool_decide; [by apply Ha|].
        apply elem_of_app in Hin as [Hin| ->%list_elem_of_singleton]; [by apply Ha|].
        exists s'. split_and!; [done..|congruence].
    + apply Forall2_app; [clear; induction pre; constructor; auto using alias_le_refl|].
      constructor; [apply alias_le_add|constructor].
  - split; [done|]. by apply IH.
Qed.

Lemma same_height a b : same a b -> height a = height b.
Proof.
  revert b. induction a as [i p n da IH] using dependant_nested_ind. intros b Hs.
  inversion Hs as [? j ? ? ? db _ Hdeps]; subst. simpl. clear Hs.
  induction Hdeps as [|x y da db (_ & _ & Hxy) _ IHd]; [done|]. apply Forall_cons in IH as [Hx IH]. simpl.
  by rewrite (Hx y Hxy), IHd.
Qed.

(** The state of the flattening below the dependants [anc] in progress. *)
Definition flat_inv (anc : list Dependant) (st : list dep_node * list CacheKey) : Prop :=
  good [] st.1 ∧ NoDup (n_key <$> st.1) ∧
  (∀ k, k ∈ st.2 <-> k ∈ n_key <$> st.1 ∨ k ∈ key <$> anc) ∧
  (∀ a, a ∈ anc -> key a ∉ n_key <$> st.1).

(** Nodes get aliases and new ones follow. *)
Definition grows (R R' : list dep_node) : Prop := ∃ R1 new, R' = R1 ++ new ∧ Forall2 alias_le R R1.

Lemma grows_refl R : grows R R.
Proof. exists R, []. rewrite app_nil_r. split; [done|]. induction R; constructor; auto using alias_le_refl. Qed.

Lemma Forall2_alias_trans R1 R2 R3 : Forall2 alias_le R1 R2 -> Forall2 alias_le R2 R3 -> Forall2 alias_le R1 R3.
Proof.
  intros H. revert R3. induction H as [|a b R1 R2 Hab _ IH]; intros R3; inversion 1; subst; constructor;
    eauto using alias_le_trans.
Qed.

Lemma grows_trans R1 R2 R3 : grows R1 R2 -> grows R2 R3 -> grows R1 R3.
Proof.
  intros (A & new & -> & HA) (B & new' & -> & HB). apply Forall2_app_inv_l in HB as (B1 & B2 & HB1 & HB2 & ->).
  exists B1, (B2 ++ new'). split; [by rewrite <-app_assoc|]. by eapply Forall2_alias_trans.
Qed.

Lemma grows_has_name R R' s : grows R R' -> has_name R s -> has_name R' s.
Proof. intros (R1 & new & -> & H) Hs. apply has_name_app. by eapply has_name_mono. Qed.

Lemma alias_node_has R k x :
  k ∈ n_key <$> R -> (∀ n, n ∈ R -> n_use_cache n = true) ->
  ∃ n, n ∈ alias_node R k x ∧ n_key n = k ∧ x ∈ n_aliases n.
Proof.
  induction R as [|n R IH]; intros Hk Hc; [set_solver|]. simpl. rewrite (Hc n) by set_solver. rewrite andb_true_r.
  case_bool_decide as E.
  - exists (add_alias n x). split_and!; [set_solver|done|]. simpl. case_bool_decide; set_solver.
  - destruct IH as (m & Hm & ? & ?); [csimpl in Hk; set_solver|set_solver|]. exists m. split_and!; [set_solver|done..].
Qed.

Lemma good_cached pre R n : good pre R -> n ∈ R -> n_use_cache n = true.
Proof.
  revert pre. induction R as [|m R IH]; intros pre; [set_solver|]. simpl.
  intros [(s & i & Hs & Hn & _) HR] [->|Hin]%elem_of_cons; [|by eapply IH].
  rewrite Hn. simpl. by apply T_cached.
Qed.

Lemma flatten_sub_ok s i anc st :
  s ∈ T -> (∀ a, a ∈ anc -> a ∈ T ∧ (height s < height a)%nat) -> flat_inv anc st ->
  let st' := flatten_sub pr dunder_name addr is_http_scheme (flat s) i s st in
  flat_inv anc st' ∧ grows st.1 st'.1 ∧ has_name st'.1 s.
Proof.
  revert i anc st. induction s as [inf p n deps IH] using dependant_nested_ind.
  set (s := mkDependant inf p n deps). intros i anc st Hs Hanc (Hg & Hnd & HV & HA). cbn zeta.
  unfold flatten_sub. rewrite (T_cached s Hs), andb_true_r. case_bool_decide as Hk.
  - assert (key s ∈ n_key <$> st.1) as Hin.
    { apply HV in Hk as [?|(a & Ha & Hin)%list_elem_of_fmap]; [done|]. destruct (Hanc a Hin) as [HaT Hh].
      rewrite (same_height s a) in Hh by (by apply T_same). lia. }
    assert (∃ m, m ∈ st.1 ∧ n_key m = key s) as (m & Hm & Hmk).
    { apply list_elem_of_fmap in Hin as (m & ? & ?). by exists m. }
    destruct (dep_name (info s)) as [[|c0 x0]|] eqn:Hname;
      try (split_and!; [by split_and!|apply grows_refl|exists m; split_and!; [done..|congruence]]).
    set (x := c0 :: x0) in *. set (R' := alias_node st.1 (key s) x).
    pose proof (alias_node_le st.1 (key s) x) as Hle. fold R' in Hle.
    split_and!.
    + unfold flat_inv. cbn [fst snd]. rewrite (alias_le_keys _ _ Hle). split_and!; [|done..].
      eapply good_alias; [done|exact Hs|done|done|done].
    + exists R', []. rewrite app_nil_r. done.
    + destruct (alias_node_has st.1 (key s) x Hin) as (m' & Hm' & Hk' & Hx').
      { intros q Hq. by eapply good_cached. }
      exists m'. split_and!; [done..|]. intros y Hy _. rewrite Hname in Hy. simplify_eq. unfold names_of. set_solver.
  - cbn [orb].
    assert (∀ subs j st1, (∀ c, c ∈ subs -> c ∈ deps) -> flat_inv (s :: anc) st1 ->
              flat_inv (s :: anc) (flatten_subs j subs st1) ∧ grows st1.1 (flatten_subs j subs st1).1 ∧
              ∀ c, c ∈ subs -> has_name (flatten_subs j subs st1).1 c) as Hsubs.
    { induction subs as [|c subs IHs]; intros j st1 Hin H1; simpl; [split_and!; [done|apply grows_refl|set_solver]|].
      assert (c ∈ deps) as Hc by set_solver.
      rewrite Forall_forall in IH. destruct (IH c Hc j (s :: anc) st1) as (Hi & Hgr & Hh).
      - by apply (T_sub s).
      - intros a [->|Ha]%elem_of_cons.
        + split; [done|]. pose proof (height_sub s c Hc). lia.
        + destruct (Hanc a Ha). split; [done|]. pose proof (height_sub s c Hc). lia.
      - done.
      - destruct (IHs (Datatypes.S j) _ ltac:(set_solver) Hi) as (Hi' & Hgr' & Hh'). split_and!; [done| |].
        + by eapply grows_trans.
        + intros c' [->|?]%elem_of_cons; [by eapply grows_has_name|by apply Hh']. }
    rewrite flatten_unfold. cbn [fst snd].
    destruct (Hsubs deps 0%nat (st.1, st.2 ++ [key s])) as ((Hg2 & Hnd2 & HV2 & HA2) & Hgr2 & Hh2); [done| |].
    { split_and!; cbn [fst snd]; [done..| |].
      - intros k. rewrite elem_of_app, list_elem_of_singleton, HV, fmap_cons, elem_of_cons. tauto.
      - intros a [->|Ha]%elem_of_cons; [|by apply HA]. intros Hin. apply Hk, HV. by left. }
    set (st2 := flatten_subs 0 deps (st.1, st.2 ++ [key s])) in *.
    cbn [dependencies s]. fold st2. split_and!.
    + split_and!; cbn [fst snd].
      * apply good_snoc; [done|]. exists s, i. split_and!; [done|done| |done]. simpl. set_solver.
      * rewrite fmap_app. apply NoDup_app. split_and!; [done| |by apply NoDup_singleton].
        intros k Hin ->%list_elem_of_singleton. apply (HA2 s); [by left|done].
      * intros k. rewrite HV2, fmap_app, elem_of_app, fmap_cons, elem_of_cons. csimpl.
        rewrite list_elem_of_singleton. tauto.
      * intros a Ha. rewrite fmap_app, elem_of_app. intros [Hin|Hin%list_elem_of_singleton].
        -- apply (HA2 a); [by right|done].
        -- destruct (Hanc a Ha) as [HaT Hh]. rewrite (same_height s a) in Hh by (by apply T_same). lia.
    + cbn [fst] in *. destruct Hgr2 as (R1 & new & HR & HF). exists R1, (new ++ [mk i s]). rewrite HR.
      split; [by rewrite <-app_assoc|done].
    + exists (mk i s). split_and!; [set_solver|done|]. intros x Hx Hne. unfold names_of. simpl.
      unfold node_name, text_or. rewrite Hx. destruct x; [done|]. set_solver.
Qed.

Lemma flatten_subs_ok subs i st :
  (∀ c, c ∈ subs -> c ∈ T) -> flat_inv [] st ->
  flat_inv [] (flatten_subs i subs st) ∧ grows st.1 (flatten_subs i subs st).1
  ∧ ∀ c, c ∈ subs -> has_name (flatten_subs i subs st).1 c.
Proof.
  revert i st. induction subs as [|c subs IH]; intros i st Hin Hi; simpl.
  { split_and!; [done|apply grows_refl|set_solver]. }
  destruct (flatten_sub_ok c i [] st) as (Hi1 & Hg1 & Hh1); [set_solver|set_solver|done|].
  destruct (IH (S i) _ ltac:(set_solver) Hi1) as (Hi2 & Hg2 & Hh2). split_and!; [done| |].
  - by eapply grows_trans.
  - intros c' [->|?]%elem_of_cons; [by eapply grows_has_name|by apply Hh2].
Qed.

(** ** Resolving *)

(** How a solver builds the arguments of a dependency from the names of its own
    dependencies, its parameters and defaults, and the results so far, of which
    it looks at those names only. *)
Context (kwargs_of : list str -> list str -> list (str * value) -> list (str * value) -> list (str * value)).
Context (kwargs_local : ∀ children ps ds r r',
  (∀ x, x ∈ children -> dict_get r x = dict_get r' x) -> kwargs_of children ps ds r = kwargs_of children ps ds r').
Context (f : call -> list (str * value) -> result value).

Definition kwargs_of_node (n : dep_node) : list (str * value) -> list (str * value) :=
  kwargs_of (n_child_names n) (n_param_names n) (n_defaults n).

(** What a dependency stands for: its callable, applied to the arguments built
    from what its own dependencies stand for. *)
Fixpoint eval (d : Dependant) : result value :=
  let '(mkDependant i p n deps) := d in
  let! kids := rmapM (fun c => let! v := eval c in Ok (cname c, v)) deps in
  f (dep_call i) (kwargs_of_node (mk 0 (mkDependant i p n deps)) kids).

Definition eval_kid (c : Dependant) : result (str * value) := let! v := eval c in Ok (cname c, v).

Lemma eval_unfold d :
  eval d = (let! kids := rmapM eval_kid (dependencies d) in f (dep_call (info d)) (kwargs_of_node (mk 0 d) kids)).
Proof. by destruct d. Qed.

Lemma same_eval a b : same a b -> dep_call (info a) = dep_call (info b) -> eval a = eval b.
Proof.
  revert b. induction a as [i p n da IH] using dependant_nested_ind. intros b Hs Hc.
  inversion Hs as [? j ? ? ? db _ Hdeps]; subst. rewrite !eval_unfold. simpl in Hc |- *. rewrite Hc.
  assert (cname <$> da = cname <$> db) as Hnames.
  { clear -Hdeps. induction Hdeps as [|x y da db (Hc & Hn & _) _ IHd]; csimpl; [done|].
    unfold child_name at 1 3. by rewrite Hc, Hn, IHd. }
  assert (∀ kids, kwargs_of_node (mk 0 (mkDependant i p n da)) kids = kwargs_of_node (mk 0 (mkDependant j p n db)) kids) as Hkw.
  { intros kids. unfold kwargs_of_node. simpl. by rewrite Hnames. }
  assert (rmapM eval_kid da = rmapM eval_kid db) as ->; [|destruct (rmapM _ _); simpl; [by rewrite Hkw|done]].
  clear Hs Hkw Hnames Hc. induction Hdeps as [|x y da db (Hc & Hn & Hxy) _ IHd]; [done|].
  apply Forall_cons in IH as [IHx IH]. simpl. rewrite (IHd IH). unfold eval_kid at 1 3, child_name.
  by rewrite (IHx y Hxy Hc), Hn, Hc.
Qed.

Lemma key_eval a b : a ∈ T -> b ∈ T -> key a = key b -> eval a = eval b.
Proof.
  intros Ha Hb Hk. apply same_eval; [by apply T_same|]. exact (f_equal (fun k : CacheKey => k.1.1) Hk).
Qed.

(** Every name of a node is bound to what the dependants of its key stand for. *)
Definition resolves (nodes : list dep_node) (resolved : list (str * value)) : Prop :=
  ∀ n x s, n ∈ nodes -> x ∈ names_of n -> s ∈ T -> key s = n_key n ->
    ∃ v, eval s = Ok v ∧ dict_get resolved x = Some v.

Lemma kids_lookup (kids resolved : list (str * value)) x :
  (∀ x v, (x, v) ∈ kids -> dict_get resolved x = Some v) -> x ∈ kids.*1 -> dict_get resolved x = dict_get kids x.
Proof.
  intros H Hx. destruct (dict_get kids x) as [v|] eqn:E; [by apply H, dict_get_elem|].
  by apply dict_get_None in E.
Qed.

(** Dependencies of dependencies have a parameter's name. *)
Context (T_named : ∀ s c, s ∈ T -> c ∈ dependencies s -> ∃ x, dep_name (info c) = Some x ∧ x ≠ []).

Lemma named_child c x : dep_name (info c) = Some x -> x ≠ [] -> cname c = x.
Proof. intros H Hx. unfold child_name, text_or. rewrite H. by destruct x. Qed.

Lemma kids_resolved pre s resolved :
  s ∈ T -> resolves pre resolved -> (∀ c, c ∈ dependencies s -> has_name pre c) ->
  ∃ kids, rmapM eval_kid (dependencies s) = Ok kids ∧ kids.*1 = cname <$> dependencies s
          ∧ ∀ x v, (x, v) ∈ kids -> dict_get resolved x = Some v.
Proof.
  intros Hs Hr Hh.
  assert (∀ c, c ∈ dependencies s -> ∃ v, eval c = Ok v ∧ dict_get resolved (cname c) = Some v) as Hc.
  { intros c Hin. destruct (Hh c Hin) as (n & Hn & Hk & Hx). destruct (T_named s c Hs Hin) as (x & Hname & Hne).
    rewrite (named_child c x) by done. eapply Hr; eauto. }
  clear Hh. revert Hc. generalize (dependencies s). intros deps.
  induction deps as [|c deps IH]; intros Hc; [exists []; split_and!; [done..|set_solver]|].
  destruct IH as (kids & Hk & Hn & Hv); [set_solver|]. destruct (Hc c) as (v & Hev & Hget); [set_solver|].
  exists ((cname c, v) :: kids). simpl. unfold eval_kid at 1. rewrite Hev. simpl. rewrite Hk. csimpl. rewrite Hn.
  split_and!; [done..|]. intros x w [[= -> ->]|?]%elem_of_cons; [done|by apply Hv].
Qed.

(** One node: its callable is applied as the tree says. *)
Lemma node_applied pre n resolved :
  good_at pre n -> resolves pre resolved ->
  ∃ s, s ∈ T ∧ key s = n_key n ∧ f (n_call n) (kwargs_of_node n resolved) = eval s.
Proof.
  intros (s & i & Hs & Hn & _ & Hc) Hr. exists s.
  destruct (kids_resolved pre s resolved Hs Hr Hc) as (kids & Hk & Hnames & Hv). split_and!; [done|by rewrite Hn|].
  rewrite eval_unfold, Hk, Hn. cbn [rbind]. f_equal. apply kwargs_local. simpl. intros x Hx.
  apply kids_lookup; [done|]. by rewrite Hnames.
Qed.

(** No name stands for two dependencies. *)
Definition names_distinct (R : list dep_node) : Prop :=
  ∀ n m x, n ∈ R -> m ∈ R -> x ∈ names_of n -> x ∈ names_of m -> n_key n = n_key m.

Lemma resolves_step pre n s v resolved :
  names_distinct (pre ++ [n]) -> resolves pre resolved -> s ∈ T -> key s = n_key n -> eval s = Ok v ->
  resolves (pre ++ [n]) (bind_all resolved n v).
Proof.
  intros Hd Hr Hs Hk Hv m x t Hm Hx Ht Hkt. rewrite bind_all_get.
  case_bool_decide as Hxn.
  - exists v. split; [|done]. rewrite <-Hv. apply key_eval; [done..|]. rewrite Hkt, Hk. apply (Hd m n x); set_solver.
  - apply elem_of_app in Hm as [Hm| ->%list_elem_of_singleton]; [by eapply Hr|done].
Qed.

End flat_facts.

(** ** The fast solvers *)

(** Parameters, then dependencies, then defaults. *)
Definition fast_kwargs (kd : list (str * value)) (children ps : list str) (ds resolved : list (str * value)) : list (str * value) :=
  foldl (fun dk '(p, v) => dict_setdefault dk p v) (foldl (take_present resolved) (foldl (take_present kd) [] ps) children) ds.

Lemma take_present_local (r r' dk : list (str * value)) l :
  (∀ x, x ∈ l -> dict_get r x = dict_get r' x) -> foldl (take_present r) dk l = foldl (take_present r') dk l.
Proof.
  revert dk. induction l as [|x l IH]; intros dk H; simpl; [done|].
  rewrite (IH _) by set_solver. unfold take_present at 2 4. by rewrite (H x) by set_solver.
Qed.

Lemma fast_kwargs_local kd children ps ds r r' :
  (∀ x, x ∈ children -> dict_get r x = dict_get r' x) -> fast_kwargs kd children ps ds r = fast_kwargs kd children ps ds r'.
Proof. intros H. unfold fast_kwargs. by rewrite (take_present_local r r'). Qed.

Section fast_facts.
Context (pr : Program) (dunder_name : call -> option str) (addr : call -> Z) (is_http_scheme : call -> bool).
Context (T : list Dependant) (kd : list (str * value)) (f : call -> list (str * value) -> result value).
Local Abbreviation eval := (eval pr dunder_name addr is_http_scheme (fast_kwargs kd) f).
Local Abbreviation good := (good pr dunder_name addr is_http_scheme T).
Local Abbreviation resolves := (resolves pr dunder_name addr is_http_scheme T (fast_kwargs kd) f).
Context (T_sub : ∀ s c, s ∈ T -> c ∈ dependencies s -> c ∈ T).
Context (T_cached : ∀ s, s ∈ T -> use_cache (info s) = true).
Context (T_same : ∀ a b, a ∈ T -> b ∈ T -> cache_key pr a = cache_key pr b -> same a b).
Context (T_named : ∀ s c, s ∈ T -> c ∈ dependencies s -> ∃ x, dep_name (info c) = Some x ∧ x ≠ []).
Context (run : call_log -> call -> list (str * value) -> progress * result value) (exn_str : exn -> str).
Context (run_f : ∀ log c kw, run log c kw = (Finished, f c kw)).

Lemma fast_loop_eval pre R st :
  good pre R -> names_distinct (pre ++ R) -> (∀ n, n ∈ R -> check_node_required kd n = []) ->
  resolves pre (f_resolved st) ->
  match fast_loop run exn_str kd R st with
  | LoopDone st' =>
      resolves (pre ++ R) (f_resolved st') ∧ f_errors st' = f_errors st
      ∧ (f_log st').*1 = (f_log st).*1 ++ (n_call <$> R)
  | LoopRaise _ e => ∃ s e', s ∈ T ∧ eval s = Raise e' ∧ e = convert exn_str e'
  | LoopSuspend _ => False
  end.
Proof.
  revert pre st. induction R as [|n R IH]; intros pre st Hg Hd Hq Hr; simpl.
  { rewrite !app_nil_r. done. }
  destruct Hg as [Hn Hg]. rewrite (Hq n) by set_solver. rewrite run_f.
  destruct (node_applied _ _ _ _ T T_sub T_cached T_same _ (fast_kwargs_local kd) f T_named pre n _ Hn Hr) as (s & Hs & Hk & E).
  change (build_node_kwargs kd n (f_resolved st)) with (kwargs_of_node (fast_kwargs kd) n (f_resolved st)). rewrite E. clear E.
  destruct (eval s) as [v|e] eqn:Hev; [|by exists s, e].
  assert (pre ++ n :: R = (pre ++ [n]) ++ R) as Happ by by rewrite <-app_assoc.
  rewrite Happ in Hd |- *. set (st1 := mkF _ _ _). specialize (IH (pre ++ [n]) st1 Hg Hd).
  destruct (fast_loop _ _ _ _ st1) as [st'|log e|st'].
  - destruct IH as (H1 & H2 & H3); [set_solver| |].
    + eapply (resolves_step _ _ _ _ T T_sub T_cached T_same _ (fast_kwargs_local kd) f T_named); [|done..]. intros a b x Ha Hb. apply Hd; set_solver.
    + split_and!; [done..|]. rewrite H3. simpl. rewrite fmap_app, <-app_assoc. done.
  - apply IH; [set_solver|]. eapply (resolves_step _ _ _ _ T T_sub T_cached T_same _ (fast_kwargs_local kd) f T_named); [|done..]. intros a b x Ha Hb. apply Hd; set_solver.
  - apply IH; [set_solver|]. eapply (resolves_step _ _ _ _ T T_sub T_cached T_same _ (fast_kwargs_local kd) f T_named); [|done..]. intros a b x Ha Hb. apply Hd; set_solver.
Qed.
End fast_facts.

(** ** The solvers *)

Lemma dict_get_filter_keys (l : list str) (d : list (str * value)) x :
  x ∈ l -> dict_get (filter (fun kv => kv.1 ∈ l) d) x = dict_get d x.
Proof.
  intros Hx. induction d as [|[k v] d IH]; [done|]. rewrite filter_cons. simpl.
  repeat (case_decide; simpl); subst; by try rewrite decide_True by done.
Qed.

(** The dependencies below a dependant. *)
Definition below (d : Dependant) : list Dependant := concat (preorder <$> dependencies d).

Lemma below_direct d c : c ∈ dependencies d -> c ∈ below d.
Proof.
  intros Hc. apply elem_of_concat. exists (preorder c). split; [apply preorder_self|]. by apply list_elem_of_fmap_2.
Qed.

Lemma below_preorder d s : s ∈ below d -> s ∈ preorder d.
Proof. intros Hs. rewrite preorder_cons. by right. Qed.

Lemma below_sub d s c : s ∈ below d -> c ∈ dependencies s -> c ∈ below d.
Proof.
  intros (l & Hs & (r & -> & Hr)%list_elem_of_fmap)%elem_of_concat Hc.
  apply elem_of_concat. exists (preorder r). split; [|by apply list_elem_of_fmap_2].
  eapply preorder_trans; [exact Hs|]. eapply preorder_sub; [exact Hc|]. apply preorder_self.
Qed.

Lemma injectable_direct d c x :
  c ∈ dependencies d -> dep_name (info c) = Some x -> x ≠ [] -> x ∈ injectable_names d.
Proof.
  intros Hc Hn Hx. apply list_elem_of_omap. exists c. split; [done|]. rewrite Hn. by destruct x.
Qed.

Section fast_solver.
Context (pr : Program) (dunder_name : call -> option str) (addr : call -> Z) (is_http_scheme : call -> bool).

(** The nodes of a route. *)
Definition route_nodes (root : Dependant) : list dep_node :=
  (_flatten_deps pr dunder_name addr is_http_scheme root ([], [])).1.

(** What the fast solvers can rely on: the dependencies are cached, equal keys
    stand for dependencies that are solved alike, a dependency of a dependency
    fills a parameter, and no name stands for two dependencies. *)
Record plain_tree (root : Dependant) : Prop := mkPlain {
  pt_cached : ∀ s, s ∈ below root -> use_cache (info s) = true;
  pt_keys : coherent_keys pr root;
  pt_named : ∀ s c, s ∈ below root -> c ∈ dependencies s -> ∃ x, dep_name (info c) = Some x ∧ x ≠ [];
  pt_names : names_distinct (route_nodes root)
}.

Lemma route_nodes_good root :
  plain_tree root ->
  good pr dunder_name addr is_http_scheme (below root) [] (route_nodes root)
  ∧ NoDup (n_key <$> route_nodes root)
  ∧ ∀ c, c ∈ dependencies root -> has_name pr (route_nodes root) c.
Proof.
  intros [Hca Hk Hna _]. unfold route_nodes. rewrite flatten_unfold.
  destruct (flatten_subs_ok pr dunder_name addr is_http_scheme (below root) (below_sub root) Hca) with
    (subs := dependencies root) (i := 0%nat) (st := ([] : list dep_node, [] : list CacheKey)) as ((Hg & Hnd & _) & _ & Hh).
  - intros a b Ha Hb. apply Hk; by apply below_preorder.
  - intros c. apply below_direct.
  - unfold flat_inv. simpl. split_and!; [done|apply NoDup_nil_2|intros k; set_solver|set_solver].
  - done.
Qed.
End fast_solver.

(** C29: the fast solvers of the compiled server compute the dependency tree.
    For a tree whose dependencies are cached, whose equal cache keys stand for
    dependencies that are solved alike, and in which no parameter name stands
    for two dependencies, and when every required parameter is there, the
    arguments fit the dependencies and no coroutine suspends, flattening the tree
    into nodes and running them in order gives every direct dependency exactly what the tree stands for (its
    callable applied to its parameters, to what its own dependencies stand for,
    and to the defaults), with no errors, each cache key called once; the only
    exceptions are those of a dependency of the tree, turned into an
    [HTTPException]. *)
Theorem fast_solver_is_tree pr dunder_name addr is_http_scheme run f exn_str root kd :
  let nodes := route_nodes pr dunder_name addr is_http_scheme root in
  let tree_value := eval pr dunder_name addr is_http_scheme (fast_kwargs kd) f in
  plain_tree pr dunder_name addr is_http_scheme root ->
  (∀ n, n ∈ nodes -> check_node_required kd n = []) ->
  (∀ log c kw, run log c kw = (Finished, f c kw)) ->
  NoDup (n_key <$> nodes) ∧
  match fast_solve_multi_inline run exn_str root nodes kd with
  | (log, Ok solved) =>
      log.*1 = n_call <$> nodes ∧ sd_errors solved = []
      ∧ ∀ d x, d ∈ dependencies root -> dep_name (info d) = Some x -> x ≠ [] ->
          ∃ v, tree_value d = Ok v ∧ dict_get (sd_injected solved) x = Some v
  | (_, Raise e) => ∃ s e', s ∈ below root ∧ tree_value s = Raise e' ∧ e = convert exn_str e'
  end.
Proof.
  intros nodes tree_value Hp Hq Hrun. destruct (route_nodes_good _ _ _ _ _ Hp) as (Hg & Hnd & Hh).
  split; [done|]. destruct Hp as [Hca Hk Hna Hnm]. unfold fast_solve_multi_inline.
  pose proof (fast_loop_eval pr dunder_name addr is_http_scheme (below root) kd f
    (below_sub root) Hca
    (fun a b Ha Hb => Hk a b (below_preorder _ _ Ha) (below_preorder _ _ Hb)) Hna run exn_str Hrun
    [] nodes (mkF [] [] []) Hg Hnm Hq ltac:(intros ???; set_solver)) as H.
  destruct (fast_loop _ _ _ _ _) as [st|log e|st]; [|done|done].
  destruct H as (Hr & He & Hl). simpl in He, Hl. split_and!; [done..|].
  intros d x Hd Hx Hne. destruct (Hh d Hd) as (n & Hn & Hkn & Hnames).
  destruct (Hr n x d) as (v & Hv & Hget); [done|by apply Hnames|by apply below_direct|done|].
  exists v. split; [done|]. simpl. rewrite dict_get_filter_keys; [done|]. by eapply injectable_direct.
Qed.

(** ** Coroutines that suspend *)

Lemma fallback_loop_log run exn_str kd nodes st st' :
  fallback_loop run exn_str kd nodes st = (st', None) -> (f_log st').*1 = (f_log st).*1 ++ (n_call <$> nodes).
Proof.
  revert st. induction nodes as [|n nodes IH]; intros st; simpl; [intros [= <-]; by rewrite app_nil_r|].
  destruct (run _ _ _) as [[| |e] [v|e']]; try done; intros H; rewrite (IH _ H); csimpl; by rewrite fmap_app, <-app_assoc.
Qed.

(** Once a dependency suspends, all of them are called, those that were called
    before a second time, and those whose required parameters are missing as
    well. *)
Lemma suspended_dependencies_restart run exn_str d nodes kd st log solved :
  fast_loop run exn_str kd nodes (mkF [] [] []) = LoopSuspend st ->
  fast_solve_multi_inline run exn_str d nodes kd = (log, Ok solved) ->
  log.*1 = (f_log st).*1 ++ (n_call <$> nodes).
Proof.
  unfold fast_solve_multi_inline. intros ->. destruct (fallback_loop _ _ _ _ _) as [st' [e|]] eqn:H; [done|].
  intros [= <- <-]. by rewrite (fallback_loop_log _ _ _ _ _ _ H).
Qed.

(** ** Routes *)

Lemma distinct_by_computation R :
  Forall (fun n => Forall (fun m => Forall (fun x => x ∈ names_of m -> n_key n = n_key m) (names_of n)) R) R ->
  names_distinct R.
Proof.
  intros H n m x Hn Hm Hx. rewrite Forall_forall in H. specialize (H n Hn). rewrite Forall_forall in H.
  specialize (H m Hm). rewrite Forall_forall in H. by apply H.
Qed.

Lemma plain_by_computation pr dunder_name addr is_http_scheme root :
  coherent_keys pr root ->
  Forall (fun s => use_cache (info s) = true ∧ Forall (fun c => get_or (dep_name (info c)) [] ≠ []) (dependencies s)) (below root) ->
  names_distinct (route_nodes pr dunder_name addr is_http_scheme root) ->
  plain_tree pr dunder_name addr is_http_scheme root.
Proof.
  intros Hk H Hd. rewrite Forall_forall in H. split; [by intros s [Hs _]%H|done| |done].
  intros s c [_ Hs]%H Hc. rewrite Forall_forall in Hs. specialize (Hs c Hc).
  destruct (dep_name (info c)) as [x|]; [by exists x|done].
Qed.

(** [endpoint(a=Depends(left), b=Depends(right))], both of which depend on
    [session], [right] with [limit: str = ...] too; and
    [clash(a=Depends(session), b=Depends(nested))], where [nested] depends on
    [right] under the name [a]. *)
Module FastRoute.
Definition endpoint : call := 0.
Definition left : call := 1.
Definition right : call := 2.
Definition session : call := 3.
Definition clash : call := 4.
Definition nested : call := 5.

Definition dep (c : call) : param_ann * param_default :=
  (EmptyA, DDepends (mkDepends (Some c) true None None)).

Definition program : Program := mkProgram (fun _ => Function Coro) (fun _ => $"f")
  (fun c =>
     if (c =? endpoint)%Z then [($"a", dep left); ($"b", dep right)]
     else if (c =? left)%Z then [($"db", dep session)]
     else if (c =? right)%Z then [($"db", dep session); ($"limit", (Written (Plain (Cls StrC)), EmptyD))]
     else if (c =? clash)%Z then [($"a", dep session); ($"b", dep nested)]
     else if (c =? nested)%Z then [($"a", dep right)]
     else [])
  (fun _ => 0) (fun _ => []) true.

Definition tree (c : call) : Dependant :=
  let route := mkDepInfo None c None None true $"/" None in
  match get_dependant program 5 route with Ok d => d | Raise _ => mkDependant route no_params no_names [] end.

Definition nodes (c : call) : list dep_node := route_nodes program (fun _ => None) id (fun _ => false) (tree c).

Definition f (c : call) (kwargs : list (str * value)) : result value := Ok (VDict (($"callable", VInt c) :: kwargs)).

Definition kd : list (str * value) := [($"limit", VStr $"10"); ($"other", VInt 0)].

Lemma plain : plain_tree program (fun _ => None) id (fun _ => false) (tree endpoint).
Proof.
  apply plain_by_computation.
  - apply (no_scopes_coherent program 5 (info (tree endpoint))); [vm_compute; reflexivity|].
    rewrite <-Forall_forall. apply (bool_decide_eq_true_1 _). vm_compute. reflexivity.
  - apply (bool_decide_eq_true_1 _). vm_compute. reflexivity.
  - apply distinct_by_computation, (bool_decide_eq_true_1 _). vm_compute. reflexivity.
Qed.

Lemma plain_required n : n ∈ nodes endpoint -> check_node_required kd n = [].
Proof. revert n. rewrite <-Forall_forall. apply (bool_decide_eq_true_1 _). vm_compute. reflexivity. Qed.
End FastRoute.

(** The session is opened once, for both dependencies, and [limit] is no longer
    an argument of the endpoint. *)
Lemma fast_solver_is_tree_witness :
  can_fast_dep (FastRoute.nodes FastRoute.endpoint) = true
  ∧ fast_solve_multi_inline (fun _ c kw => (Finished, FastRoute.f c kw)) (fun _ => [])
      (FastRoute.tree FastRoute.endpoint) (FastRoute.nodes FastRoute.endpoint) FastRoute.kd
    = ([(3, []); (1, [($"db", VDict [($"callable", VInt 3)])]);
        (2, [($"limit", VStr $"10"); ($"db", VDict [($"callable", VInt 3)])])],
       Ok (mkSolvedDeps
         [($"a", VDict [($"callable", VInt 1); ($"db", VDict [($"callable", VInt 3)])]);
          ($"b", VDict [($"callable", VInt 2); ($"limit", VStr $"10"); ($"db", VDict [($"callable", VInt 3)])])]
         [] [($"other", VInt 0)]))
  ∧ NoDup (n_key <$> FastRoute.nodes FastRoute.endpoint).
Proof.
  split_and!; [vm_compute; reflexivity|vm_compute; reflexivity|].
  exact (proj1 (fast_solver_is_tree FastRoute.program (fun _ => None) id (fun _ => false)
    (fun _ c kw => (Finished, FastRoute.f c kw)) FastRoute.f (fun _ => []) (FastRoute.tree FastRoute.endpoint)
    FastRoute.kd FastRoute.plain FastRoute.plain_required (fun _ _ _ => eq_refl))).
Defined.

(** Where a name stands for two dependencies the endpoint may get the value of
    the wrong one: here its parameter [a], declared as [Depends(session)], is
    given what [right], a dependency of its other dependency, returned. *)
Lemma fast_solver_name_clash :
  ∃ log solved,
    fast_solve_multi_inline (fun _ c kw => (Finished, FastRoute.f c kw)) (fun _ => [])
      (FastRoute.tree FastRoute.clash) (FastRoute.nodes FastRoute.clash) FastRoute.kd = (log, Ok solved)
    ∧ dict_get (sd_injected solved) $"a"
      = Some (VDict [($"callable", VInt 2); ($"limit", VStr $"10"); ($"db", VDict [($"callable", VInt 3)])])
    ∧ eval FastRoute.program (fun _ => None) id (fun _ => false) (fast_kwargs FastRoute.kd) FastRoute.f
        (nth 0 (dependencies (FastRoute.tree FastRoute.clash)) (FastRoute.tree 0))
      = Ok (VDict [($"callable", VInt 3)]).
Proof. do 2 eexists. split_and!; vm_compute; reflexivity. Qed.
