(* ===== verification/DepResolve.v ===== *)
(** * DepResolve: the dependency resolvers of the compiled server

    The solvers of [routing.py] for every tree that the fast ones do not take:
    [_resolve_deps_sync], [_resolve_deps_async] and [_resolve_deps_gen] with the
    request object they make, the native extraction of HTTP credentials, the
    exit stacks of generator dependencies, and [_make_dep_solver], which chooses
    among them and applies overrides.  What a dependency does when called or
    left, Pydantic validation and the parsers of the core are parameters. *)

From S2P Require Import Prelude ExitStack PyStr Asgi DataStructures Base64 Security Multipart ExceptionHandler HttpWire.
From S2P Require Import Annotations Dependants ParamArgs Solve FastDeps.

(** [if text:] *)
Definition truthy (o : option str) : option str := match o with Some [] => None | _ => o end.

Abbreviation kwargs := (list (str * value)).

(** ** The request object *)

(** What the core puts besides the parameters into the arguments; the resolvers
    take it out. *)
Record injected : Type := mkInjected {
  in_raw_headers : option raw_headers;
  in_method : str;
  in_path : str;
  in_auth_scheme : option str;
  in_auth_credentials : option str;
  in_body : option bytes;
  in_content_type : str
}.

(** Where the headers were taken out before, the context variables stand in. *)
Definition request_line_of (ctx : ReqContext) (inj : injected) : option raw_headers * str * str :=
  match in_raw_headers inj with
  | Some hs => (Some hs, in_method inj, in_path inj)
  | None =>
      (cx_raw_headers ctx,
       if bool_decide (in_method inj = $"GET") then cx_method ctx else in_method inj,
       if bool_decide (in_path inj = $"/") then cx_path ctx else in_path inj)
  end.

Definition lower_name (h : bytes * bytes) : bytes * bytes := (bytes_lower h.1, h.2).

(** The length announced by the first content-length header is positive. *)
Definition has_body (hs : raw_headers) : bool :=
  match dict_get hs $"content-length" with
  | Some v => match py_int (decode_latin1 v) with Ok z => 0 <? z | Raise _ => false end
  | None => false
  end.

(** The body [receive] gives on its [count]-th call: what is there, or, while
    a body is announced, what is there after the loop has run once more. *)
Definition light_receive (hs : raw_headers) (count : nat) (now later : bytes) : bytes :=
  match now with [] => if has_body hs && (count <=? 2)%nat then later else now | _ => now end.

(** The last header of a name. *)
Definition last_header (hs : raw_headers) (name : bytes) : option bytes := dict_get (reverse hs) name.

(** [host.rsplit(":", 1)] *)
Definition rsplit_colon (s : str) : str * option str :=
  let '(last_part, found, rest) := partition 58 (reverse s) in
  if found then (reverse rest, Some (reverse last_part)) else (s, None).

Definition server_of (hs : raw_headers) (sch : str) : result (option (str * Z)) :=
  match last_header hs $"host" with
  | None | Some [] => Ok None
  | Some h =>
      let '(name, port) := rsplit_colon (decode_latin1 h) in
      let! port := match port with
                   | Some p => py_int p
                   | None => Ok (if bool_decide (sch = $"https") then 443 else 80)
                   end in
      Ok (Some (name, port))
  end.

Definition light_path (ctx : ReqContext) (path : str) : result (str * bytes) :=
  let '(p, found, q) := partition 63 path in
  let! qs := if found then encode_latin1 q else Ok [] in
  Ok (if found then p else path, match qs with [] => cx_query_string ctx | _ => qs end).

Definition is_testclient (hs : raw_headers) : bool :=
  existsb (fun h => bool_decide (h.1 = $"user-agent") && bool_decide (str_lower (decode_latin1 h.2) = $"testclient")) hs.

(** [_make_lightweight_request]: the scope, less the state of the lifespan and
    the route. *)
Definition _make_lightweight_request (root_path : str) (has_app has_router : bool) (ctx : ReqContext)
    (hs : option raw_headers) (method path : str) : result Scope :=
  let hs := lower_name <$> get_or hs [] in
  let sch := get_or (decode_latin1 <$> last_header hs $"x-forwarded-proto") $"http" in
  let! server := server_of hs sch in
  let! (path, qs) := light_path ctx path in
  Ok (mkScope Http (text_or (Some path) $"/") (Some root_path) None (Some (text_or (Some method) $"GET")) (Some sch) server
        (Some (if is_testclient hs then ($"testclient", 50000) else ($"127.0.0.1", 0))) (Some qs) (Some hs) None None
        has_app (has_app && has_router)).

(** ** Native credentials *)

(** [type(call).__name__] of a security scheme, where the resolvers know it. *)
Inductive security_type : Type := HTTPBearerT | HTTPBaseT | HTTPBasicT | OtherT.

Definition native_headers (b : HTTPBase) : list (str * str) :=
  challenge (str_title (text_or (Some (model_scheme b)) $"Bearer")).

Definition native_bearer (needs_bearer : bool) (b : HTTPBase) (auth_scheme auth_credentials : option str)
    : result (option HTTPAuthorizationCredentials) :=
  match truthy auth_scheme, truthy auth_credentials with
  | Some sch, Some cred =>
      if needs_bearer && negb (bool_decide (str_lower sch = $"bearer"))
      then refuse (auto_error b) (unauthorized (native_headers b))
      else Ok (Some (mkCredentials sch cred))
  | _, _ => refuse (auto_error b) (unauthorized (native_headers b))
  end.

(** What the header says: no Basic credentials, malformed ones, or these. *)
Inductive basic_read : Type := BasicAbsent | BasicUndecodable | BasicNoColon | BasicGiven (c : HTTPBasicCredentials).

Definition read_basic (auth_scheme auth_credentials : option str) : basic_read :=
  match truthy auth_scheme, truthy auth_credentials with
  | Some sch, Some cred =>
      if negb (bool_decide (str_lower sch = $"basic")) then BasicAbsent
      else
        match (let! data := b64decode cred in utf8_decode_strict data) with
        | Raise _ => BasicUndecodable
        | Ok decoded =>
            let '(user, sep, pass) := partition 58 decoded in
            if sep then BasicGiven (mkBasic user pass) else BasicNoColon
        end
  | _, _ => BasicAbsent
  end.

(** Malformed credentials are always refused. *)
Definition native_basic (b : HTTPBase) (r : basic_read) : result (option HTTPBasicCredentials) :=
  let error := unauthorized (basic_authenticate_headers b) in
  match r with
  | BasicAbsent => refuse (auto_error b) error
  | BasicUndecodable | BasicNoColon => Raise error
  | BasicGiven c => Ok (Some c)
  end.

(** The resolver for generators refuses them only if the scheme does, and
    where they cannot be decoded it binds the name and not the aliases. *)
Definition gen_basic (b : HTTPBase) (r : basic_read) : result (option HTTPBasicCredentials * bool) :=
  let error := unauthorized (basic_authenticate_headers b) in
  match r with
  | BasicAbsent | BasicNoColon => let! c := refuse (auto_error b) error in Ok (c, true)
  | BasicUndecodable => let! c := refuse (auto_error b) error in Ok (c, false)
  | BasicGiven c => Ok (Some c, true)
  end.

(** ** The state of a resolver *)

(** How a dependency was called: plainly, or entered on one of the stacks; and
    whether it came back. *)
Inductive how : Type := Plainly | OnFunction | OnRequest.

#[global] Instance how_eq_dec : EqDecision how.
Proof. solve_decision. Defined.

Record called : Type := mkCalled { c_call : call; c_kwargs : kwargs; c_how : how; c_ok : bool }.

(** The objects made for a request: the request, the response, and, in the
    arguments themselves, the background tasks. *)
Record objects : Type := mkObjects {
  o_kwargs : kwargs;
  o_request : option Scope;
  o_response : option Z;
  o_next : Z
}.

Record rstate : Type := mkR {
  r_log : list called;
  r_objects : objects;
  r_resolved : kwargs;
  r_by_key : list (CacheKey * value);
  r_errors : list error;
  r_function_stack : list called;
  r_request_stack : list called
}.

Definition with_log (s : rstate) (x : list called) : rstate :=
  mkR x (r_objects s) (r_resolved s) (r_by_key s) (r_errors s) (r_function_stack s) (r_request_stack s).
Definition with_objects (s : rstate) (x : objects) : rstate :=
  mkR (r_log s) x (r_resolved s) (r_by_key s) (r_errors s) (r_function_stack s) (r_request_stack s).
Definition with_resolved (s : rstate) (x : kwargs) : rstate :=
  mkR (r_log s) (r_objects s) x (r_by_key s) (r_errors s) (r_function_stack s) (r_request_stack s).
Definition with_by_key (s : rstate) (x : list (CacheKey * value)) : rstate :=
  mkR (r_log s) (r_objects s) (r_resolved s) x (r_errors s) (r_function_stack s) (r_request_stack s).
Definition with_errors (s : rstate) (x : list error) : rstate :=
  mkR (r_log s) (r_objects s) (r_resolved s) (r_by_key s) x (r_function_stack s) (r_request_stack s).
(** A context manager is entered. *)
Definition push (h : how) (c : called) (s : rstate) : rstate :=
  match h with
  | Plainly => s
  | OnFunction => mkR (r_log s) (r_objects s) (r_resolved s) (r_by_key s) (r_errors s) (r_function_stack s ++ [c]) (r_request_stack s)
  | OnRequest => mkR (r_log s) (r_objects s) (r_resolved s) (r_by_key s) (r_errors s) (r_function_stack s) (r_request_stack s ++ [c])
  end.

Definition start (kd : kwargs) : rstate := mkR [] (mkObjects kd None None 0) [] [] [] [] [].

(** ** Arguments of a dependency *)

(** Results of child dependencies, by name, or first by cache key. *)
Definition child_kwargs (resolved : kwargs) (n : dep_node) : kwargs := foldl (take_present resolved) [] (n_child_names n).

Definition child_by_key (s : rstate) (n : dep_node) (dk : kwargs) (c : str) : kwargs :=
  match dict_get (n_child_keys n) c ≫= dict_get (r_by_key s) with
  | Some v => dict_set dk c v
  | None => take_present (r_resolved s) dk c
  end.

Definition child_kwargs_by_key (s : rstate) (n : dep_node) : kwargs := foldl (child_by_key s n) [] (n_child_names n).

(** Parameters of the request, then fields of the form, then defaults. *)
Definition form_kwargs (form : option kwargs) (n : dep_node) (dk : kwargs) : kwargs :=
  if n_has_form_body n then
    foldl (fun dk p => if dict_mem dk p then dk else take_present (get_or form []) dk p) dk (n_param_names n)
  else dk.

Definition default_kwargs (n : dep_node) (dk : kwargs) : kwargs :=
  foldl (fun dk '(p, v) => dict_setdefault dk p v) dk (n_defaults n).

Definition node_kwargs (kd : kwargs) (form : option kwargs) (n : dep_node) (children : kwargs) : kwargs :=
  default_kwargs n (form_kwargs form n (foldl (take_present kd) children (n_param_names n))).

(** ** Required parameters *)
Definition missing_query (dk : kwargs) (n : dep_node) : list error :=
  missing $"query" <$> filter (fun rp => match dict_get dk rp with None | Some VNone => true | _ => false end = true)
                         (n_required_query n).
Definition missing_body (dk : kwargs) (n : dep_node) : list error :=
  missing $"body" <$> filter (fun rp => negb (dict_mem dk rp) = true) (n_required_body n).
Definition missing_header (dk : kwargs) (n : dep_node) : list error :=
  missing $"header" <$> filter (fun rp => negb (dict_mem dk rp) && negb (dict_mem dk (replace_char 45 95 rp)) = true)
                          (n_required_header n).
Definition missing_cookie (dk : kwargs) (n : dep_node) : list error :=
  missing $"cookie" <$> filter (fun rp => negb (dict_mem dk rp) = true) (n_required_cookie n).

(** The errors of the first place in which something is missing. *)
Definition first_missing (dk : kwargs) (n : dep_node) : list error :=
  match missing_query dk n, missing_body dk n, missing_header dk n with
  | (_ :: _) as q, _, _ => q
  | [], (_ :: _) as b, _ => b
  | [], [], (_ :: _) as h => h
  | [], [], [] => missing_cookie dk n
  end.

(** The resolver for generators gives a dependency up as soon as there is any
    error, of this one or of an earlier one; headers and cookies are not
    looked at.  The errors, and whether the dependency is given up. *)
Definition gen_missing (errors : list error) (dk : kwargs) (n : dep_node) : list error * bool :=
  let some_error (required : list str) (errs : list error) := match required, errs with _ :: _, _ :: _ => true | _, _ => false end in
  let errors := errors ++ missing_query dk n in
  if some_error (n_required_query n) errors then (errors, true)
  else
    let errors := errors ++ missing_body dk n in
    (errors, some_error (n_required_body n) errors).

(** ** Resolving *)

(** The world of a resolver: user code, what the schemes are, the parsers and
    validators, and how the request object is made. *)
Record World : Type := mkWorld {
  w_run : list called -> call -> kwargs -> result value;
  w_is_coroutine : value -> bool;
  w_scheme : call -> security_type * HTTPBase;
  w_credentials : HTTPAuthorizationCredentials -> value;
  w_basic : HTTPBasicCredentials -> value;
  w_urlencoded : bytes -> result (list (str * value));
  w_tokenize : bytes -> bytes -> result (list mp_event);
  w_body_fields : call -> option (list ModelField);
  w_type_errors : ModelField -> value -> list error;
  w_context : ReqContext;
  w_root_path : str;
  w_has_app : bool
}.

Section resolve.
Context (w : World).

(** The form of a request, parsed once, if a dependency needs it. *)
Definition dict_of_form (f : Form.FormData) : kwargs :=
  omap (fun k => (fun v => (k, of_fvalue v)) <$> Form.get f k) (Form.keys f).

Definition parsed_form (inj : injected) (nodes : list dep_node) : result (option kwargs) :=
  match in_body inj with
  | Some ((_ :: _) as body) =>
      if existsb n_has_form_body nodes then
        if contains $"application/x-www-form-urlencoded" (in_content_type inj) then
          let! pairs := w_urlencoded w body in Ok (Some (foldl (fun d kv => dict_set d kv.1 kv.2) [] pairs))
        else if contains $"multipart/form-data" (in_content_type inj) then
          match truthy (_extract_boundary (in_content_type inj)) with
          | Some bnd => let! (fd, _) := _parse_multipart_streaming (w_tokenize w) body bnd in Ok (Some (dict_of_form fd))
          | None => Ok None
          end
        else Ok None
      else Ok None
  | _ => Ok None
  end.

(** Special parameters. *)
Definition inject_request (inj : injected) (n : dep_node) (o : objects) (dk : kwargs) : objects * result kwargs :=
  match truthy (request_param_name (n_special n)), truthy (http_connection_param_name (n_special n)) with
  | None, None => (o, Ok dk)
  | p, q =>
      let name := match p with Some x => x | None => get_or q [] end in
      match o_request o with
      | Some _ => (o, Ok (dict_set dk name VRequest))
      | None =>
          let '(hs, method, pth) := request_line_of (w_context w) inj in
          match _make_lightweight_request (w_root_path w) (w_has_app w) true (w_context w) hs method pth with
          | Raise e => (o, Raise e)
          | Ok sc => (mkObjects (o_kwargs o) (Some sc) (o_response o) (o_next o), Ok (dict_set dk name VRequest))
          end
      end
  end.

Definition inject_response (n : dep_node) (o : objects) (dk : kwargs) : objects * kwargs :=
  match truthy (response_param_name (n_special n)) with
  | None => (o, dk)
  | Some p =>
      match o_response o with
      | Some r => (o, dict_set dk p (VResponse r))
      | None => (mkObjects (o_kwargs o) (o_request o) (Some (o_next o)) (o_next o + 1), dict_set dk p (VResponse (o_next o)))
      end
  end.

Definition bg_key : str := $"__bg_tasks__".

Definition inject_background (n : dep_node) (o : objects) (dk : kwargs) : objects * kwargs :=
  match truthy (background_tasks_param_name (n_special n)) with
  | None => (o, dk)
  | Some p =>
      match dict_get (o_kwargs o) bg_key with
      | Some b => (o, dict_set dk p b)
      | None =>
          let b := VBackgroundTasks (o_next o) in
          (mkObjects (dict_set (o_kwargs o) bg_key b) (o_request o) (o_response o) (o_next o + 1), dict_set dk p b)
      end
  end.

Definition inject_scopes (n : dep_node) (dk : kwargs) : kwargs :=
  match truthy (security_scopes_param_name (n_special n)) with
  | None => dk
  | Some p => dict_set dk p (VSecurityScopes (n_oauth_scopes n))
  end.

Definition inject_special (inj : injected) (n : dep_node) (o : objects) (dk : kwargs) : objects * result kwargs :=
  match inject_request inj n o dk with
  | (o, Raise e) => (o, Raise e)
  | (o, Ok dk) =>
      let '(o, dk) := inject_response n o dk in
      let '(o, dk) := inject_background n o dk in
      (o, Ok (inject_scopes n dk))
  end.

(** Binding a result: every name of the node, or those not bound yet. *)
Definition bind_names (resolved : kwargs) (n : dep_node) (v : value) : kwargs :=
  foldl (fun d a => dict_set d a v) (dict_set resolved (n_name n) v) (n_aliases n).

Definition bind_first (resolved : kwargs) (n : dep_node) (v : value) : kwargs :=
  foldl (fun d a => dict_setdefault d a v) (dict_setdefault resolved (n_name n) v) (n_aliases n).

(** Credentials of a scheme that is read natively; [None] for other nodes. *)
Definition opt_cred {A} (f : A -> value) (o : option A) : value := match o with Some a => f a | None => VNone end.

Definition native_security (inj : injected) (n : dep_node) : option (result value) :=
  if n_is_security n then
    let '(t, b) := w_scheme w (n_call n) in
    let bearer needs :=
      Some (let! c := native_bearer needs b (in_auth_scheme inj) (in_auth_credentials inj) in Ok (opt_cred (w_credentials w) c)) in
    match t with
    | HTTPBearerT => bearer true
    | HTTPBaseT => bearer false
    | HTTPBasicT =>
        Some (let! c := native_basic b (read_basic (in_auth_scheme inj) (in_auth_credentials inj)) in Ok (opt_cred (w_basic w) c))
    | OtherT => None
    end
  else None.

(** The same in the resolver for generators: the value and whether aliases are
    bound as well. *)
Definition native_security_gen (inj : injected) (n : dep_node) : option (result (value * bool)) :=
  if n_is_security n then
    let '(t, b) := w_scheme w (n_call n) in
    match t with
    | HTTPBasicT =>
        Some (let! (c, aliases) := gen_basic b (read_basic (in_auth_scheme inj) (in_auth_credentials inj)) in
              Ok (opt_cred (w_basic w) c, aliases))
    | _ => (fun r => let! v := r in Ok (v, true)) <$> native_security inj n
    end
  else None.

(** A call and its entry in the log. *)
Definition call_dep (h : how) (n : dep_node) (dk : kwargs) (s : rstate) : rstate * result value :=
  let r := w_run w (r_log s) (n_call n) dk in
  (with_log s (r_log s ++ [mkCalled (n_call n) dk h (is_ok r)]), r).

Definition coroutine_msg (n : dep_node) : str :=
  $"Dependency '" ++ n_name n ++ $"' returned a coroutine but was called from the synchronous resolver. "
  ++ $"Ensure dependency overrides remain synchronous, or use an async endpoint.".

(** The constraints of form fields; the dependency is given up if there is any
    error, also one of an earlier dependency. *)
Definition form_errors (form : kwargs) (n : dep_node) : list error :=
  match w_body_fields w (n_call n) with
  | None => []
  | Some fields =>
      fields ≫= fun f =>
        match dict_get form (field_name f) with
        | None | Some VNone => []
        | Some v =>
            (fun e => mkError (err_type e) ($"body" :: field_name f :: err_loc e) (err_msg e) (err_input e))
            <$> w_type_errors w f v
        end
  end.

Definition form_check (form : option kwargs) (n : dep_node) (errors : list error) : list error * bool :=
  match n_has_form_body n, form, w_body_fields w (n_call n) with
  | true, Some form, Some (_ :: _) =>
      let errors := errors ++ form_errors form n in (errors, negb (bool_decide (errors = [])))
  | _, _, _ => (errors, false)
  end.

(** One node of [_resolve_deps_sync]. *)
Definition call_sync (n : dep_node) (dk : kwargs) (s : rstate) : rstate * result unit :=
  match call_dep Plainly n dk s with
  | (s, Raise e) => (s, Raise e)
  | (s, Ok v) =>
      if w_is_coroutine w v then (s, Raise (RuntimeError (coroutine_msg n)))
      else (with_resolved (with_by_key s (dict_set (r_by_key s) (n_key n) v)) (bind_first (r_resolved s) n v), Ok tt)
  end.

Definition sync_node (inj : injected) (form : option kwargs) (n : dep_node) (s : rstate) : rstate * result unit :=
  match native_security inj n with
  | Some (Raise e) => (s, Raise e)
  | Some (Ok v) => (with_resolved s (bind_names (r_resolved s) n v), Ok tt)
  | None =>
      let dk := node_kwargs (o_kwargs (r_objects s)) form n (child_kwargs_by_key s n) in
      match first_missing dk n with
      | (_ :: _) as errs => (with_errors s (r_errors s ++ errs), Ok tt)
      | [] =>
          match inject_special inj n (r_objects s) dk with
          | (o, Raise e) => (with_objects s o, Raise e)
          | (o, Ok dk) =>
              let s := with_objects s o in
              let '(errors, skip) := form_check form n (r_errors s) in
              let s := with_errors s errors in
              if skip then (s, Ok tt) else call_sync n dk s
          end
      end
  end.

(** One node of [_resolve_deps_async]: awaited where it is a coroutine. *)
Definition call_async (n : dep_node) (dk : kwargs) (s : rstate) : rstate * result unit :=
  match call_dep Plainly n dk s with
  | (s, Raise e) => (s, Raise e)
  | (s, Ok v) => (with_resolved s (bind_names (r_resolved s) n v), Ok tt)
  end.

Definition async_node (inj : injected) (form : option kwargs) (n : dep_node) (s : rstate) : rstate * result unit :=
  match native_security inj n with
  | Some (Raise e) => (s, Raise e)
  | Some (Ok v) => (with_resolved s (bind_names (r_resolved s) n v), Ok tt)
  | None =>
      let dk := node_kwargs (o_kwargs (r_objects s)) form n (child_kwargs (r_resolved s) n) in
      match first_missing dk n with
      | (_ :: _) as errs => (with_errors s (r_errors s ++ errs), Ok tt)
      | [] =>
          match inject_special inj n (r_objects s) dk with
          | (o, Raise e) => (with_objects s o, Raise e)
          | (o, Ok dk) => call_async n dk (with_objects s o)
          end
      end
  end.

(** One node of [_resolve_deps_gen]: a generator is entered on the stack of its
    scope. *)
Definition how_of (n : dep_node) : how :=
  if n_is_gen n then if bool_decide ((n_key n).2 = $"request") then OnRequest else OnFunction else Plainly.

Definition call_gen (n : dep_node) (dk : kwargs) (s : rstate) : rstate * result unit :=
  match call_dep (how_of n) n dk s with
  | (s, Raise e) => (s, Raise e)
  | (s, Ok v) =>
      let s := push (how_of n) (mkCalled (n_call n) dk (how_of n) true) s in
      (with_resolved s (bind_names (r_resolved s) n v), Ok tt)
  end.

Definition gen_node (inj : injected) (n : dep_node) (s : rstate) : rstate * result unit :=
  match native_security_gen inj n with
  | Some (Raise e) => (s, Raise e)
  | Some (Ok (v, aliases)) =>
      (with_resolved s (if aliases then bind_names (r_resolved s) n v else dict_set (r_resolved s) (n_name n) v), Ok tt)
  | None =>
      let dk := default_kwargs n (foldl (take_present (o_kwargs (r_objects s))) (child_kwargs (r_resolved s) n) (n_param_names n)) in
      let '(errors, skip) := gen_missing (r_errors s) dk n in
      let s := with_errors s errors in
      if skip then (s, Ok tt)
      else
        match inject_special inj n (r_objects s) dk with
        | (o, Raise e) => (with_objects s o, Raise e)
        | (o, Ok dk) => call_gen n dk (with_objects s o)
        end
  end.

Fixpoint resolve_loop (node : dep_node -> rstate -> rstate * result unit) (nodes : list dep_node) (s : rstate)
    : rstate * result unit :=
  match nodes with
  | [] => (s, Ok tt)
  | n :: nodes' => match node n s with (s, Ok _) => resolve_loop node nodes' s | (s, Raise e) => (s, Raise e) end
  end.

(** The resolvers: the state they leave, with what they return in it, or the
    exception. *)
Definition _resolve_deps_sync (inj : injected) (nodes : list dep_node) (kd : kwargs) : rstate * result unit :=
  match parsed_form inj nodes with
  | Raise e => (start kd, Raise e)
  | Ok form => resolve_loop (sync_node inj form) nodes (start kd)
  end.

Definition _resolve_deps_async (inj : injected) (nodes : list dep_node) (kd : kwargs) : rstate * result unit :=
  match parsed_form inj nodes with
  | Raise e => (start kd, Raise e)
  | Ok form => resolve_loop (async_node inj form) nodes (start kd)
  end.

(** ** Generators *)

Context (exit_gen : called -> option exn -> exit_result exn).

(** [_cleanup_on_error]: both stacks are closed as if nothing had happened, and
    what this raises is dropped. *)
Definition cleanup (s : rstate) : list called :=
  (aexit exit_gen (r_function_stack s) None).1 ++ (aexit exit_gen (r_request_stack s) None).1.

(** The state, the generators left, and the two stacks or the exception. *)
Definition _resolve_deps_gen (inj : injected) (nodes : list dep_node) (kd : kwargs)
    : rstate * list called * result (list called * list called) :=
  match resolve_loop (gen_node inj) nodes (start kd) with
  | (s, Ok _) => (s, [], Ok (r_function_stack s, r_request_stack s))
  | (s, Raise e) => (s, cleanup s, Raise e)
  end.
End resolve.

(** ** Overrides

    [_build_nodes] works on a deep copy of the dependant.  The copy has the
    values of the properties that were computed before, among them the cache key
    and whether the callable is a generator; they are those of the callable that
    is overridden. *)
Inductive cached_dep : Type :=
  mkCachedDep (key : CacheKey) (gen : bool) (i : DepInfo) (p : DepParams) (n : DepNames) (deps : list cached_dep).

Definition ct_key (t : cached_dep) : CacheKey := let '(mkCachedDep k _ _ _ _ _) := t in k.
Definition ct_gen (t : cached_dep) : bool := let '(mkCachedDep _ g _ _ _ _) := t in g.
Definition ct_info (t : cached_dep) : DepInfo := let '(mkCachedDep _ _ i _ _ _) := t in i.
Definition ct_deps (t : cached_dep) : list cached_dep := let '(mkCachedDep _ _ _ _ _ d) := t in d.
Definition ct_own (t : cached_dep) : Dependant := let '(mkCachedDep _ _ i p n _) := t in mkDependant i p n [].

(** Functions and classes are their own copies; partials and objects are
    copied, and the copy is not the key of an override. *)
Definition own_copy (f : pycall) : bool := match f with Function _ | Decorated _ _ | PyClass => true | _ => false end.

Section overrides.
Context (pr : Program) (fuel : nat) (overrides : list (call * call)).
Context (dunder_name : call -> option str) (addr : call -> Z) (is_http_scheme : call -> bool).

Fixpoint cache_all (d : Dependant) : cached_dep :=
  let '(mkDependant i p n deps) := d in
  mkCachedDep (cache_key pr d) (is_generator pr (dep_call i)) i p n (cache_all <$> deps).

Definition override_for (c : call) : option call :=
  if own_copy (callable pr c) then
    match dict_get overrides c with Some o => if bool_decide (o = c) then None else Some o | None => None end
  else None.

(** The callable, its parameters and its dependencies are those of the
    override. *)
Definition with_call (i : DepInfo) (c : call) : DepInfo :=
  mkDepInfo (dep_name i) c (own_oauth_scopes i) (parent_oauth_scopes i) (use_cache i) (dep_path i) (scope i).

Definition new_names (old new : DepNames) : DepNames :=
  mkNames (request_param_name new) (websocket_param_name old) (http_connection_param_name new)
    (response_param_name new) (background_tasks_param_name new) (security_scopes_param_name new).

Definition overridden (k : CacheKey) (g : bool) (i : DepInfo) (n : DepNames) (o : call) : result cached_dep :=
  let! new := get_dependant pr fuel (mkDepInfo (dep_name i) o None None true (text_or (Some (dep_path i)) $"/") None) in
  Ok (mkCachedDep k g (with_call i o) (params new) (new_names n (names new)) (cache_all <$> dependencies new)).

Fixpoint apply_override (t : cached_dep) : result cached_dep :=
  let '(mkCachedDep k g i p n deps) := t in
  match override_for (dep_call i) with
  | Some o => overridden k g i n o
  | None => let! deps := rmapM apply_override deps in Ok (mkCachedDep k g i p n deps)
  end.

Definition _apply_overrides (t : cached_dep) : result cached_dep :=
  let '(mkCachedDep k g i p n deps) := t in
  let! deps := rmapM apply_override deps in Ok (mkCachedDep k g i p n deps).

(** [_flatten_deps] on the copy. *)
Definition cached_node (i : nat) (t : cached_dep) : dep_node :=
  let n := make_node pr dunder_name addr is_http_scheme i (ct_own t) in
  let cname c := child_name dunder_name addr (ct_own c) in
  mkNode (n_name n) (n_call n) (ct_key t) (n_use_cache n) (n_is_coro n) (ct_gen t) (cname <$> ct_deps t)
    (foldl (fun d c => dict_set d (cname c) (ct_key c)) [] (ct_deps t)) (n_param_names n) (n_required_query n)
    (n_required_header n) (n_required_cookie n) (n_required_body n) (n_has_form_body n) (n_defaults n) (n_special n)
    (n_is_security n) (n_oauth_scopes n) [].

Definition flatten_cached_sub (rec : list dep_node * list CacheKey -> list dep_node * list CacheKey) (i : nat)
    (t : cached_dep) (st : list dep_node * list CacheKey) : list dep_node * list CacheKey :=
  let cached := use_cache (ct_info t) in
  if bool_decide (ct_key t ∈ st.2) && cached then
    (match dep_name (ct_info t) with Some ((_ :: _) as n) => alias_node st.1 (ct_key t) n | _ => st.1 end, st.2)
  else
    let visited := if cached then st.2 ++ [ct_key t] else st.2 in
    let st' := if cached || negb (bool_decide (ct_key t ∈ visited)) then rec (st.1, visited) else (st.1, visited) in
    (st'.1 ++ [cached_node i t], st'.2).

Fixpoint flatten_cached (t : cached_dep) (st : list dep_node * list CacheKey) {struct t} : list dep_node * list CacheKey :=
  let '(mkCachedDep _ _ _ _ _ deps) := t in
  (fix go (i : nat) (subs : list cached_dep) (st : list dep_node * list CacheKey) :=
     match subs with
     | [] => st
     | sub :: subs' => go (S i) subs' (flatten_cached_sub (flatten_cached sub) i sub st)
     end) 0%nat deps st.

(** The nodes, the names the endpoint gets, and the parameters taken away. *)
Definition _build_nodes (d : Dependant) (orig_consumed : list str) : result (list dep_node * list str * list str) :=
  let! t := match overrides with [] => Ok (cache_all d) | _ => _apply_overrides (cache_all d) end in
  let nodes := (flatten_cached t ([], [])).1 in
  Ok (nodes, omap (fun c => truthy (dep_name (ct_info c))) (ct_deps t), orig_consumed ++ concat (n_param_names <$> nodes)).

(** ** [_make_dep_solver] *)
Inductive solver_kind : Type := SolveEmpty | SolveGen | FastInline | FastSync | SolveAsync | SolveSync.

Definition choose_solver (nodes : list dep_node) : solver_kind :=
  match nodes with
  | [] => SolveEmpty
  | _ =>
      if existsb n_is_gen nodes then SolveGen
      else if can_fast_dep nodes && forallb n_is_coro nodes then FastInline
      else if can_fast_dep nodes && negb (existsb n_is_coro nodes) then FastSync
      else if existsb n_is_coro nodes then SolveAsync else SolveSync
  end.

(** The tuple a solver returns, with the arguments as it leaves them. *)
Record solver_result : Type := mkSolverResult {
  sr_injected : kwargs;
  sr_errors : list error;
  sr_background : option value;
  sr_response : option Z;
  sr_kwargs : kwargs;
  sr_stacks : option (list called * list called)
}.

Definition solver_tuple (inj_names consumed : list str) (s : rstate) (stacks : option (list called * list called)) : solver_result :=
  let kd := foldl dict_del (o_kwargs (r_objects s)) consumed in
  mkSolverResult (filter (fun kv => kv.1 ∈ inj_names) (r_resolved s)) (r_errors s) (dict_get kd bg_key)
    (o_response (r_objects s)) kd stacks.

(** The parameters an override needs may not have been extracted. *)
Definition add_query (qs : bytes) (kd : kwargs) : kwargs :=
  foldl (fun kd '(k, vs) => dict_setdefault kd k (match vs with [v] => VStr v | _ => VSeq KList (VStr <$> vs) end)) kd
    (_parse_qs_python (decode_latin1 qs)).

Context (w : World) (exit_gen : called -> option exn -> exit_result exn).

(** The resolver of a kind of solver, and the generators it left. *)
Definition resolve_by (k : solver_kind) (inj : injected) (nodes : list dep_node) (inj_names consumed : list str) (kd : kwargs)
    : rstate * list called * result solver_result :=
  let done '(s, r) := (s, [], let! _ := r in Ok (solver_tuple inj_names consumed s None)) in
  match k with
  | SolveGen =>
      let '(s, exits, r) := _resolve_deps_gen w exit_gen inj nodes kd in
      (s, exits, let! stacks := r in Ok (solver_tuple inj_names consumed s (Some stacks)))
  | FastInline | SolveAsync => done (_resolve_deps_async w inj nodes kd)
  | _ => done (_resolve_deps_sync w inj nodes kd)
  end.

(** A small tree is solved as in [FastDeps] unless there are overrides. *)
Inductive solved : Type :=
  | NoDependencies
  | BySmall (r : call_log * result solved_deps)
  | ByResolver (s : rstate) (exits : list called) (r : result solver_result)
  | NotBuilt (e : exn).

Definition _make_dep_solver (small : Dependant -> list dep_node -> kwargs -> call_log * result solved_deps)
    (d : Dependant) (inj : injected) (kd : kwargs) : solved :=
  let nodes := (_flatten_deps pr dunder_name addr is_http_scheme d ([], [])).1 in
  let consumed := dep_consumed_params d nodes in
  let resolved_by k nodes inj_names consumed kd :=
    let '(s, exits, r) := resolve_by k inj nodes inj_names consumed kd in ByResolver s exits r in
  match choose_solver nodes, overrides with
  | SolveEmpty, _ => NoDependencies
  | (FastInline | FastSync), [] => BySmall (small d nodes kd)
  | k, [] => resolved_by k nodes (injectable_names d) consumed kd
  | k, _ =>
      match _build_nodes d consumed with
      | Raise e => NotBuilt e
      | Ok (nodes, inj_names, consumed) =>
          resolved_by k nodes inj_names consumed (match k with SolveGen => kd | _ => add_query (cx_query_string (w_context w)) kd end)
      end
  end.
End overrides.
