(* ===== verification/DepResolveFacts.v ===== *)
(** * DepResolveFacts: what the resolvers guarantee

    Generators that were entered are left; the three resolvers agree where their
    texts mean the same; they compute what the dependency tree stands for; the
    credentials they read themselves are those of the security schemes. *)

From S2P Require Import Prelude ExitStack PyStr Asgi DataStructures Requests Base64 Security Multipart Responses ExceptionHandler HttpWire.
From S2P Require Import Annotations Dependants DependantFacts ParamArgs CoreQuery Solve SolveFacts FastDeps FastDepsFacts DepResolve.

(** ** Generators *)

(** The generators that were entered on a stack, in the order of entry. *)
Definition entered (h : how) (log : list called) : list called := filter (fun c => c_how c = h ∧ c_ok c = true) log.

(** The stacks hold what was entered; the calls made are those of nodes. *)
Record gen_inv (pre : list dep_node) (s : rstate) : Prop := mkGenInv {
  gi_function : r_function_stack s = entered OnFunction (r_log s);
  gi_request : r_request_stack s = entered OnRequest (r_log s);
  gi_calls : (fun c => (c_call c, c_how c)) <$> r_log s `sublist_of` (fun n => (n_call n, how_of n)) <$> pre
}.

Lemma entered_snoc h log c :
  entered h (log ++ [c]) = entered h log ++ if decide (c_how c = h ∧ c_ok c = true) then [c] else [].
Proof. unfold entered. rewrite filter_app, filter_cons, filter_nil. by case_decide. Qed.

Lemma sublist_snoc_l {A} (l k : list A) x : l `sublist_of` k -> l `sublist_of` k ++ [x].
Proof. apply sublist_inserts_r. Qed.

Section generators.
Context (w : World) (exit_gen : called -> option exn -> exit_result exn) (inj : injected).

Lemma gen_inv_start kd : gen_inv [] (start kd).
Proof. split; [done..|]. apply sublist_nil_l. Qed.

Lemma gen_inv_skip pre n s : gen_inv pre s -> gen_inv (pre ++ [n]) s.
Proof. intros [H1 H2 H3]. split; [done..|]. rewrite fmap_app. by apply sublist_snoc_l. Qed.

Lemma gen_inv_log pre s s' :
  r_log s' = r_log s -> r_function_stack s' = r_function_stack s -> r_request_stack s' = r_request_stack s ->
  gen_inv pre s -> gen_inv pre s'.
Proof. intros E1 E2 E3 [H1 H2 H3]. split; by rewrite ?E1, ?E2, ?E3. Qed.

Lemma call_gen_inv pre n dk s s' r : gen_inv pre s -> call_gen w n dk s = (s', r) -> gen_inv (pre ++ [n]) s'.
Proof.
  intros [H1 H2 H3] E. unfold call_gen, call_dep in E.
  assert (Hsub : (fun c => (c_call c, c_how c)) <$> r_log s ++ [mkCalled (n_call n) dk (how_of n) (is_ok (w_run w (r_log s) (n_call n) dk))]
    `sublist_of` (fun n => (n_call n, how_of n)) <$> pre ++ [n]).
  { rewrite !fmap_app. by apply sublist_app. }
  destruct (w_run w (r_log s) (n_call n) dk) as [v|e]; simplify_eq; destruct (how_of n) eqn:Eh; split; simpl in *;
    rewrite ?entered_snoc; simpl; rewrite ?decide_False, ?decide_True by naive_solver; rewrite ?app_nil_r; congruence || done.
Qed.

Lemma gen_node_inv pre n s s' r : gen_inv pre s -> gen_node w inj n s = (s', r) -> gen_inv (pre ++ [n]) s'.
Proof.
  intros H E. unfold gen_node in E.
  assert (Hk : ∀ s1, r_log s1 = r_log s -> r_function_stack s1 = r_function_stack s -> r_request_stack s1 = r_request_stack s ->
    gen_inv (pre ++ [n]) s1) by (intros; by eapply gen_inv_skip, gen_inv_log).
  destruct (native_security_gen w inj n) as [[[v al]|e]|]; [simplify_eq; by apply Hk..|].
  destruct (gen_missing _ _ _) as [errors [|]]; [simplify_eq; by apply Hk|].
  destruct (inject_special _ _ _ _ _) as [o [dk'|e]]; [|simplify_eq; by apply Hk].
  eapply call_gen_inv; [|exact E]. by eapply gen_inv_log; [..|exact H].
Qed.

Lemma gen_loop_inv pre nodes s s' r :
  gen_inv pre s -> resolve_loop (gen_node w inj) nodes s = (s', r) -> gen_inv (pre ++ nodes) s'.
Proof.
  revert pre s. induction nodes as [|n nodes IH]; intros pre s H E; simpl in E.
  { simplify_eq. by rewrite app_nil_r. }
  destruct (gen_node w inj n s) as [s1 [[]|e]] eqn:En; pose proof (gen_node_inv _ _ _ _ _ H En) as H1.
  - apply (IH (pre ++ [n])) in E; [|done]. by rewrite <-app_assoc in E.
  - simplify_eq. clear -H1. destruct H1 as [H1 H2 H3]. split; [done..|]. etrans; [exact H3|].
    change (n :: nodes) with ([n] ++ nodes). rewrite (app_assoc pre [n] nodes), (fmap_app _ (pre ++ [n])).
    by apply sublist_inserts_r.
Qed.
End generators.

(** C31: generator dependencies are left.  Whatever the dependencies do, each is
    called at most once and in the order of the nodes.  If the resolver returns,
    nothing has been left and the two stacks it hands over hold exactly the
    generators that were entered, in order; if it raises, every generator that
    was entered has been left exactly once, those of scope [function] before
    those of scope [request], each in reverse order. *)
Theorem generators_left (w : World) (exit_gen : called -> option exn -> exit_result exn) (inj : injected)
    (nodes : list dep_node) (kd : kwargs) (s : rstate) (exits : list called) (r : result (list called * list called))
    (Hrun : _resolve_deps_gen w exit_gen inj nodes kd = (s, exits, r)) :
  let function_scoped := entered OnFunction (r_log s) in
  let request_scoped := entered OnRequest (r_log s) in
  (fun c => (c_call c, c_how c)) <$> r_log s `sublist_of` (fun n => (n_call n, how_of n)) <$> nodes ∧
  match r with
  | Ok stacks => exits = [] ∧ stacks = (function_scoped, request_scoped)
  | Raise _ => exits = reverse function_scoped ++ reverse request_scoped
  end.
Proof.
  unfold _resolve_deps_gen in Hrun. destruct (resolve_loop _ _ _) as [s1 [[]|e]] eqn:E; simplify_eq;
    destruct (gen_loop_inv w inj [] nodes _ _ _ (gen_inv_start kd) E) as [H1 H2 H3]; cbv zeta; (split; [done|]).
  - by rewrite H1, H2.
  - unfold cleanup, aexit. by rewrite !unwind_all, H1, H2.
Qed.

(** ** Agreement of the resolvers *)

(** No name is bound by two nodes, and a child that is looked up by its cache key is
    one that is bound under its name. *)
Definition unambiguous (nodes : list dep_node) : Prop :=
  (∀ i j n m x, nodes !! i = Some n -> nodes !! j = Some m -> x ∈ names_of n -> x ∈ names_of m -> i = j) ∧
  ∀ n m c k, n ∈ nodes -> m ∈ nodes -> dict_get (n_child_keys n) c = Some k -> n_key m = k -> c ∈ names_of m.

Lemma bind_names_get resolved n v x :
  dict_get (bind_names resolved n v) x = if bool_decide (x ∈ names_of n) then Some v else dict_get resolved x.
Proof. apply bind_all_get. Qed.

Lemma dict_set_same (d : kwargs) x v : dict_get d x = Some v -> dict_set d x v = d.
Proof.
  induction d as [|[y u] d IH]; simpl; [done|]. case_decide; [by intros [= ->]|]. intros Hd. by rewrite IH.
Qed.

Lemma setdefault_unbound (d : kwargs) x v :
  dict_get d x = None ∨ dict_get d x = Some v -> dict_setdefault d x v = dict_set d x v.
Proof. unfold dict_setdefault, dict_mem. intros [H|H]; rewrite H; [done|]. by rewrite dict_set_same. Qed.

Lemma bind_aliases_fresh (l : list str) (d : kwargs) v :
  (∀ x, x ∈ l -> dict_get d x = None ∨ dict_get d x = Some v) ->
  foldl (fun d a => dict_setdefault d a v) d l = foldl (fun d a => dict_set d a v) d l.
Proof.
  revert d. induction l as [|x l IH]; intros d Hd; simpl; [done|].
  rewrite setdefault_unbound by (apply Hd; set_solver). apply IH. intros y Hy. rewrite dict_get_set.
  case_decide; [by right|]. apply Hd. set_solver.
Qed.

Lemma bind_first_fresh resolved n v :
  (∀ x, x ∈ names_of n -> dict_get resolved x = None) -> bind_first resolved n v = bind_names resolved n v.
Proof. intros Hd. apply (bind_aliases_fresh (names_of n) resolved v). auto. Qed.

Record sync_inv (pre : list dep_node) (s : rstate) : Prop := mkSyncInv {
  si_bound x : x ∉ (pre ≫= names_of) -> dict_get (r_resolved s) x = None;
  si_keys k v : dict_get (r_by_key s) k = Some v ->
    ∃ m, m ∈ pre ∧ n_key m = k ∧ ∀ x, x ∈ names_of m -> dict_get (r_resolved s) x = Some v
}.

Section agreement.
Context (w : World) (inj : injected) (form : option kwargs).
Context (no_coroutine : ∀ log c kw v, w_run w log c kw = Ok v -> w_is_coroutine w v = false).

Lemma child_kwargs_agree pre n s :
  sync_inv pre s -> (∀ m c k, m ∈ pre -> dict_get (n_child_keys n) c = Some k -> n_key m = k -> c ∈ names_of m) ->
  child_kwargs_by_key s n = child_kwargs (r_resolved s) n.
Proof.
  intros [_ Hk] Hc. unfold child_kwargs_by_key, child_kwargs. generalize ([] : kwargs).
  induction (n_child_names n) as [|c l IH]; intros dk; simpl; [done|]. rewrite IH. f_equal.
  unfold child_by_key. destruct (dict_get (n_child_keys n) c) as [k|] eqn:Ek; simpl; [|done].
  destruct (dict_get (r_by_key s) k) as [v|] eqn:Ev; [|done].
  destruct (Hk k v Ev) as (m & Hm & Hmk & Hx). unfold take_present. by rewrite (Hx c) by eauto.
Qed.

Lemma sync_inv_bind pre n s s' v :
  sync_inv pre s -> (∀ x, x ∈ names_of n -> x ∉ (pre ≫= names_of)) ->
  r_resolved s' = bind_names (r_resolved s) n v ->
  (r_by_key s' = r_by_key s ∨ r_by_key s' = dict_set (r_by_key s) (n_key n) v) ->
  sync_inv (pre ++ [n]) s'.
Proof.
  intros [Hb Hk] Hfresh Er Ek. split.
  - intros x Hx. rewrite Er, bind_names_get. rewrite bind_app, elem_of_app in Hx. simpl in Hx. rewrite app_nil_r in Hx.
    rewrite bool_decide_eq_false_2 by tauto. apply Hb. tauto.
  - assert (Hold : ∀ k u, dict_get (r_by_key s) k = Some u ->
      ∃ m, m ∈ pre ++ [n] ∧ n_key m = k ∧ ∀ x, x ∈ names_of m -> dict_get (r_resolved s') x = Some u).
    { intros k u Hu. destruct (Hk k u Hu) as (m & Hm & Hmk & Hx). exists m. split_and!; [set_solver|done|].
      intros x Hxm. rewrite Er, bind_names_get, bool_decide_eq_false_2; [by apply Hx|].
      intros Hxn. apply (Hfresh x Hxn), list_elem_of_bind. eauto. }
    intros k u. destruct Ek as [-> | ->]; [apply Hold|]. rewrite dict_get_set. case_decide; [|apply Hold].
    subst k. intros [= <-]. exists n. split_and!; [set_solver|done|]. intros x Hx.
    rewrite Er, bind_names_get. by rewrite bool_decide_eq_true_2.
Qed.

Lemma sync_inv_skip pre n s s' :
  sync_inv pre s -> r_resolved s' = r_resolved s -> r_by_key s' = r_by_key s -> sync_inv (pre ++ [n]) s'.
Proof.
  intros [Hb Hk] Er Ek. split.
  - intros x Hx. rewrite Er. apply Hb. rewrite bind_app in Hx. set_solver.
  - intros k v. rewrite Ek, Er. intros Hv. destruct (Hk k v Hv) as (m & ? & ? & ?). exists m. split_and!; [set_solver|done..].
Qed.

Lemma sync_async_node pre n s s' r :
  sync_inv pre s -> (∀ x, x ∈ names_of n -> x ∉ (pre ≫= names_of)) ->
  (∀ m c k, m ∈ pre -> dict_get (n_child_keys n) c = Some k -> n_key m = k -> c ∈ names_of m) ->
  n_has_form_body n = false ->
  sync_node w inj form n s = (s', r) ->
  async_node w inj form n (with_by_key s []) = (with_by_key s' [], r) ∧ (r = Ok tt -> sync_inv (pre ++ [n]) s').
Proof.
  intros Hi Hfresh Hc Hf E. unfold sync_node in E. unfold async_node. cbn [r_objects r_resolved r_errors with_by_key].
  destruct (native_security w inj n) as [[v|e]|]; [simplify_eq; split; [done|]..|].
  { intros _. by eapply sync_inv_bind; [..|left]. }
  { done. }
  rewrite (child_kwargs_agree pre) in E by done. set (dk := node_kwargs _ _ _ _) in *.
  destruct (first_missing dk n) as [|er errs]; [|simplify_eq; split; [done|intros _; by eapply sync_inv_skip]].
  destruct (inject_special w inj n (r_objects s) dk) as [o [dk'|e]]; [|by simplify_eq].
  unfold form_check in E. rewrite Hf in E. unfold call_sync, call_dep in E. unfold call_async, call_dep. simpl in *.
  destruct (w_run w (r_log s) (n_call n) dk') as [v|e] eqn:Ew; [|by simplify_eq].
  rewrite (no_coroutine _ _ _ _ Ew) in E. simplify_eq. rewrite bind_first_fresh;
    [|intros x Hx; by apply (si_bound _ _ Hi), Hfresh]. split; [done|].
  intros _. by eapply sync_inv_bind; [..|right].
Qed.
Lemma sync_async_loop pre nodes s s' r :
  sync_inv pre s -> unambiguous (pre ++ nodes) -> (∀ n, n ∈ nodes -> n_has_form_body n = false) ->
  resolve_loop (sync_node w inj form) nodes s = (s', r) ->
  resolve_loop (async_node w inj form) nodes (with_by_key s []) = (with_by_key s' [], r).
Proof.
  revert pre s. induction nodes as [|n nodes IH]; intros pre s Hi Hu Hf E; simpl in *; [by simplify_eq|].
  destruct (sync_node w inj form n s) as [s1 r1] eqn:En. pose proof Hu as [Hnd Hc].
  destruct (sync_async_node pre n s s1 r1) as [-> Hi1]; [done..| | |set_solver|done|].
  - intros x Hx (m & Hxm & [i Hm]%list_elem_of_lookup)%list_elem_of_bind. pose proof (lookup_lt_Some _ _ _ Hm) as Hlt.
    assert (i = length pre); [|lia]. eapply (Hnd _ _ m n x); [by apply lookup_app_l_Some|by apply list_lookup_middle|done..].
  - intros m c k Hm. apply Hc; set_solver.
  - destruct r1 as [[]|e]; [|by simplify_eq]. apply (IH (pre ++ [n])); [by apply Hi1| |set_solver|done].
    by rewrite <-app_assoc.
Qed.

(** Errors are only added, and no generator is entered. *)
Lemma async_node_grows n s s' r :
  async_node w inj form n s = (s', r) ->
  (∃ l, r_errors s' = r_errors s ++ l) ∧ r_function_stack s' = r_function_stack s ∧ r_request_stack s' = r_request_stack s.
Proof.
  assert (Hnil : ∃ l, r_errors s = r_errors s ++ l) by (exists []; by rewrite app_nil_r).
  unfold async_node, call_async, call_dep. intros E.
  repeat case_match; simplify_eq; simpl; split_and!; eauto.
Qed.

Lemma async_loop_grows nodes s s' r :
  resolve_loop (async_node w inj form) nodes s = (s', r) ->
  (∃ l, r_errors s' = r_errors s ++ l) ∧ r_function_stack s' = r_function_stack s ∧ r_request_stack s' = r_request_stack s.
Proof.
  revert s. induction nodes as [|n nodes IH]; intros s E; simpl in E.
  { simplify_eq. split_and!; [exists []; by rewrite app_nil_r|done..]. }
  destruct (async_node w inj form n s) as [s1 [[]|e]] eqn:En; [|simplify_eq; by eapply async_node_grows].
  destruct (async_node_grows _ _ _ _ En) as ([l Hl] & Hf & Hr). destruct (IH _ E) as ([l' Hl'] & Hf' & Hr').
  split_and!; [|congruence..]. exists (l ++ l'). by rewrite Hl', Hl, app_assoc.
Qed.

(** What the resolver for generators reads in another way. *)
Definition plainly_read (n : dep_node) : Prop :=
  n_is_gen n = false ∧ n_has_form_body n = false ∧ n_required_header n = [] ∧ n_required_cookie n = [].

Definition well_formed_basic : Prop :=
  match read_basic (in_auth_scheme inj) (in_auth_credentials inj) with BasicAbsent | BasicGiven _ => True | _ => False end.

Lemma native_security_agree n :
  well_formed_basic -> native_security_gen w inj n = (fun r => let! v := r in Ok (v, true)) <$> native_security w inj n.
Proof.
  unfold well_formed_basic, native_security_gen, native_security. intros H.
  destruct (n_is_security n); [|done]. destruct (w_scheme w (n_call n)) as [[] b]; [done..| |done]. simpl. f_equal.
  destruct (read_basic _ _); [|done..|]; simpl; [|done]. by destruct (refuse _ _).
Qed.

Lemma with_errors_id s : with_errors s (r_errors s) = s.
Proof. by destruct s. Qed.

Lemma async_gen_node n s s' r :
  plainly_read n -> well_formed_basic -> r_errors s = [] -> r_errors s' = [] ->
  async_node w inj form n s = (s', r) -> gen_node w inj n s = (s', r).
Proof.
  intros (Hg & Hf & Hh & Hc) Hb He He' E. unfold gen_node. rewrite (native_security_agree n Hb). unfold async_node in E.
  destruct (native_security w inj n) as [[v|e]|]; simpl; [by simplify_eq..|].
  unfold node_kwargs, form_kwargs in E. rewrite Hf in E. set (dk := default_kwargs _ _) in *.
  destruct (first_missing dk n) as [|er errs] eqn:Em.
  - unfold first_missing in Em. destruct (missing_query dk n) as [|] eqn:Eq; [|done].
    destruct (missing_body dk n) as [|] eqn:Ebd; [|by destruct (missing_header dk n)].
    unfold gen_missing. rewrite He, Eq, Ebd. simpl.
    replace (match n_required_query n with _ :: _ => false | _ => false end) with false by by destruct (n_required_query n).
    replace (match n_required_body n with _ :: _ => false | _ => false end) with false by by destruct (n_required_body n).
    rewrite <-He, with_errors_id. destruct (inject_special _ _ _ _ _) as [o [dk'|e]]; [|done].
    unfold call_async in E. unfold call_gen. assert (how_of n = Plainly) as -> by (unfold how_of; by rewrite Hg).
    exact E.
  - simplify_eq. simpl in He'. by destruct (r_errors s).
Qed.

Lemma async_gen_loop nodes s s' r :
  (∀ n, n ∈ nodes -> plainly_read n) -> well_formed_basic -> r_errors s' = [] ->
  resolve_loop (async_node w inj form) nodes s = (s', r) -> resolve_loop (gen_node w inj) nodes s = (s', r).
Proof.
  intros Hp Hb He. revert s. induction nodes as [|n nodes IH]; intros s E; [done|].
  destruct (async_loop_grows _ _ _ _ E) as ([l Hl] & _). rewrite He in Hl. symmetry in Hl. apply app_nil in Hl as [Hs _].
  simpl in *. destruct (async_node w inj form n s) as [s1 r1] eqn:En.
  assert (r_errors s1 = []) as Hs1.
  { destruct r1; [|by simplify_eq]. destruct (async_loop_grows _ _ _ _ E) as ([l' Hl'] & _). rewrite He in Hl'.
    symmetry in Hl'. by apply app_nil in Hl' as [? _]. }
  rewrite (async_gen_node n s s1 r1); [|set_solver|done..]. destruct r1; [|done]. apply IH; [set_solver|done].
Qed.
End agreement.

(** C32: the three resolvers agree.  For dependencies without form fields whose
    names are unambiguous, none of which returns a coroutine it does not await,
    the synchronous and the asynchronous resolver make the same calls with the
    same arguments, bind the same results, make the same objects, report the
    same errors and end alike.  If nothing is missing, no dependency is a
    generator or requires a header or cookie, and no malformed Basic credentials
    are sent, the resolver for generators does the same and enters nothing. *)
Theorem resolvers_agree (w : World) (exit_gen : called -> option exn -> exit_result exn) (inj : injected)
    (nodes : list dep_node) (kd : kwargs)
    (Hnames : unambiguous nodes) (Hform : ∀ n, n ∈ nodes -> n_has_form_body n = false)
    (Hcoro : ∀ log c kw v, w_run w log c kw = Ok v -> w_is_coroutine w v = false) :
  let '(s, r) := _resolve_deps_sync w inj nodes kd in
  _resolve_deps_async w inj nodes kd = (with_by_key s [], r) ∧
  (r_errors s = [] -> (∀ n, n ∈ nodes -> plainly_read n) -> well_formed_basic inj ->
   _resolve_deps_gen w exit_gen inj nodes kd = (with_by_key s [], [], let! _ := r in Ok ([], []))).
Proof.
  assert (Hnf : parsed_form w inj nodes = Ok None).
  { unfold parsed_form. destruct (in_body inj) as [[|b bs]|]; [done| |done].
    replace (existsb n_has_form_body nodes) with false; [done|]. symmetry.
    apply not_true_is_false. intros (n & Hn%list_elem_of_In & Hb)%existsb_exists. by rewrite (Hform n Hn) in Hb. }
  unfold _resolve_deps_sync, _resolve_deps_async. rewrite Hnf.
  destruct (resolve_loop (sync_node w inj None) nodes (start kd)) as [s r] eqn:E.
  assert (Ha : resolve_loop (async_node w inj None) nodes (start kd) = (with_by_key s [], r)).
  { apply (sync_async_loop w inj None Hcoro [] nodes (start kd)); [|done..]. by split. }
  split; [done|]. intros He Hp Hb. unfold _resolve_deps_gen.
  rewrite (async_gen_loop w inj None Hcoro nodes _ (with_by_key s []) _ Hp Hb He Ha).
  destruct (async_loop_grows _ _ _ _ _ _ _ Ha) as (_ & Hf & Hr). simpl in Hf, Hr. unfold cleanup. simpl. rewrite Hf, Hr.
  by destruct r.
Qed.

(** ** The resolvers and the tree *)

(** Dependencies, then parameters, then defaults. *)
Definition resolver_kwargs (kd : kwargs) (children ps : list str) (ds resolved : kwargs) : kwargs :=
  foldl (fun dk '(p, v) => dict_setdefault dk p v) (foldl (take_present kd) (foldl (take_present resolved) [] children) ps) ds.

Lemma resolver_kwargs_local kd children ps ds r r' :
  (∀ x, x ∈ children -> dict_get r x = dict_get r' x) -> resolver_kwargs kd children ps ds r = resolver_kwargs kd children ps ds r'.
Proof. intros H. unfold resolver_kwargs. by rewrite (take_present_local r r'). Qed.

(** The required parameters of a node are among the arguments. *)
Definition supplied (kd : kwargs) (n : dep_node) : Prop :=
  let has x := x ∈ n_param_names n ∧ ∃ v, dict_get kd x = Some v ∧ v ≠ VNone in
  (∀ x, x ∈ n_required_query n -> has x) ∧ (∀ x, x ∈ n_required_body n -> has x)
  ∧ (∀ x, x ∈ n_required_header n -> has x ∨ has (replace_char 45 95 x)) ∧ (∀ x, x ∈ n_required_cookie n -> has x).

Lemma take_present_keep (kd dk : kwargs) l x : dict_get kd x = dict_get dk x -> dict_get (foldl (take_present kd) dk l) x = dict_get dk x.
Proof.
  revert dk. induction l as [|y l IH]; intros dk H; simpl; [done|].
  assert (dict_get (take_present kd dk y) x = dict_get dk x) as E.
  { unfold take_present. destruct (dict_get kd y) as [v|] eqn:Ey; [|done]. rewrite dict_get_set. case_decide; [|done].
    subst. by rewrite <-H. }
  rewrite IH; by rewrite E.
Qed.

Lemma take_present_get (kd dk : kwargs) l x v :
  x ∈ l -> dict_get kd x = Some v -> dict_get (foldl (take_present kd) dk l) x = Some v.
Proof.
  intros Hx Hv. revert dk. induction l as [|y l IH]; intros dk; [set_solver|]. simpl.
  destruct (decide (x = y)) as [->|Hne]; [|apply IH; set_solver].
  assert (dict_get (take_present kd dk y) y = Some v) as E.
  { unfold take_present. rewrite Hv, dict_get_set. by rewrite decide_True. }
  rewrite take_present_keep; by rewrite E.
Qed.

Lemma setdefaults_keep (ds dk : kwargs) x v :
  dict_get dk x = Some v -> dict_get (foldl (fun dk '(p, u) => dict_setdefault dk p u) dk ds) x = Some v.
Proof.
  revert dk. induction ds as [|[p u] ds IH]; intros dk H; simpl; [done|]. apply IH. unfold dict_setdefault, dict_mem.
  destruct (dict_get dk p) eqn:Ep; [done|]. rewrite dict_get_set. case_decide; [|done]. subst. congruence.
Qed.

Lemma no_missing {A} (f : str -> A) (P : str -> Prop) `{∀ x, Decision (P x)} l :
  (∀ x, x ∈ l -> ~ P x) -> f <$> filter P l = [].
Proof.
  intros H0. induction l as [|x l IH]; [done|]. rewrite filter_cons, decide_False by (apply H0; set_solver).
  apply IH. set_solver.
Qed.

Lemma supplied_nothing_missing kd n children :
  supplied kd n -> n_has_form_body n = false -> first_missing (node_kwargs kd None n children) n = [].
Proof.
  intros (Hq & Hb & Hh & Hc) Hf. unfold node_kwargs, form_kwargs. rewrite Hf. set (dk := default_kwargs _ _).
  assert (Hget : ∀ x, x ∈ n_param_names n ∧ (∃ v, dict_get kd x = Some v ∧ v ≠ VNone) -> ∃ v, dict_get dk x = Some v ∧ v ≠ VNone).
  { intros x [Hx (v & Hv & Hne)]. exists v. split; [|done]. apply setdefaults_keep. by apply take_present_get. }
  assert (Hmem : ∀ x, x ∈ n_param_names n ∧ (∃ v, dict_get kd x = Some v ∧ v ≠ VNone) -> dict_mem dk x = true).
  { intros x [v [Hv _]]%Hget. unfold dict_mem. by rewrite Hv. }
  unfold first_missing, missing_query, missing_body, missing_header, missing_cookie. rewrite !no_missing; [done|..].
  - intros x Hx. by rewrite (Hmem x) by auto.
  - intros x Hx. destruct (Hh x Hx) as [H|H]; rewrite (Hmem _ H); [done|]. by rewrite andb_false_r.
  - intros x Hx. by rewrite (Hmem x) by auto.
  - intros x Hx. destruct (Hget x (Hq x Hx)) as (v & -> & Hne). by destruct v.
Qed.

Lemma trivial_special w inj n o dk : node_is_trivial n = true -> inject_special w inj n o dk = (o, Ok dk).
Proof.
  unfold node_is_trivial, inject_special, inject_request, inject_response, inject_background, inject_scopes.
  by destruct (n_special n) as [[] ? [] [] [] []].
Qed.

Lemma trivial_flags n : node_is_trivial n = true -> n_is_security n = false ∧ n_has_form_body n = false.
Proof. unfold node_is_trivial. destruct (n_special n) as [[] ? [] [] [] []]; by destruct (n_is_security n), (n_has_form_body n). Qed.

Section tree.
Context (pr : Program) (dunder_name : call -> option str) (addr : call -> Z) (is_http_scheme : call -> bool).
Context (T : list Dependant) (kd : kwargs) (f : call -> kwargs -> result value).
Local Abbreviation eval := (eval pr dunder_name addr is_http_scheme (resolver_kwargs kd) f).
Local Abbreviation good := (good pr dunder_name addr is_http_scheme T).
Local Abbreviation resolves := (resolves pr dunder_name addr is_http_scheme T (resolver_kwargs kd) f).
Context (T_sub : ∀ s c, s ∈ T -> c ∈ dependencies s -> c ∈ T).
Context (T_cached : ∀ s, s ∈ T -> use_cache (info s) = true).
Context (T_same : ∀ a b, a ∈ T -> b ∈ T -> cache_key pr a = cache_key pr b -> same a b).
Context (T_named : ∀ s c, s ∈ T -> c ∈ dependencies s -> ∃ x, dep_name (info c) = Some x ∧ x ≠ []).
Context (w : World) (inj : injected) (run_f : ∀ log c kw, w_run w log c kw = f c kw).

Lemma async_node_plain n s :
  node_is_trivial n = true -> supplied kd n -> o_kwargs (r_objects s) = kd ->
  async_node w inj None n s =
    call_async w n (kwargs_of_node (resolver_kwargs kd) n (r_resolved s)) s.
Proof.
  intros Ht Hs Ho. destruct (trivial_flags n Ht) as [Hsec Hf]. unfold async_node, native_security.
  rewrite Hsec, Ho, supplied_nothing_missing, trivial_special by done.
  unfold node_kwargs, form_kwargs. rewrite Hf. by destruct s.
Qed.

Lemma async_loop_eval pre R s :
  good pre R -> names_distinct (pre ++ R) -> (∀ n, n ∈ R -> node_is_trivial n = true ∧ supplied kd n) ->
  o_kwargs (r_objects s) = kd -> resolves pre (r_resolved s) ->
  match resolve_loop (async_node w inj None) R s with
  | (s', Ok _) =>
      resolves (pre ++ R) (r_resolved s') ∧ r_errors s' = r_errors s ∧ r_objects s' = r_objects s
      ∧ c_call <$> r_log s' = (c_call <$> r_log s) ++ (n_call <$> R)
  | (_, Raise e) => ∃ d, d ∈ T ∧ eval d = Raise e
  end.
Proof.
  revert pre s. induction R as [|n R IH]; intros pre s Hg Hd Hq Ho Hr; cbn [resolve_loop].
  { rewrite !app_nil_r. done. }
  destruct Hg as [Hn Hg]. destruct (Hq n) as [Ht Hs]; [set_solver|]. rewrite async_node_plain by done.
  destruct (node_applied _ _ _ _ T T_sub T_cached T_same _ (resolver_kwargs_local kd) f T_named pre n _ Hn Hr) as (d & HdT & Hk & E).
  unfold call_async, call_dep. rewrite run_f, E. destruct (eval d) as [v|e] eqn:Hev; [|by exists d].
  cbn [is_ok]. set (s1 := with_resolved _ _).
  assert (pre ++ n :: R = (pre ++ [n]) ++ R) as Happ by by rewrite <-app_assoc.
  rewrite Happ in Hd |- *. specialize (IH (pre ++ [n]) s1 Hg Hd (fun m Hm => Hq m (list_elem_of_further _ _ _ Hm)) Ho).
  assert (resolves (pre ++ [n]) (r_resolved s1)) as Hr1.
  { eapply (resolves_step _ _ _ _ T T_sub T_cached T_same _ (resolver_kwargs_local kd) f T_named); [|done..].
    intros a b x Ha Hb. apply Hd; set_solver. }
  specialize (IH Hr1). destruct (resolve_loop _ R s1) as [s' [u|e]]; [|done].
  destruct IH as (H1 & H2 & H3 & H4). split_and!; [done..|]. rewrite H4. simpl. by rewrite fmap_app, <-app_assoc.
Qed.
End tree.

(** C30: the asynchronous resolver computes the dependency tree, whatever its
    size.  For a route that is given to it, with cached dependencies without
    special parameters, unambiguous names and every required parameter there,
    the solver gives every direct dependency exactly what the tree stands for,
    without errors, and calls every node once in order; it takes away the
    parameters of dependencies; and an exception is that of a dependency of the
    tree, as it was raised. *)
Theorem large_tree_resolved (pr : Program) (fuel : nat) (dunder_name : call -> option str) (addr : call -> Z)
    (is_http_scheme : call -> bool) (w : World) (exit_gen : called -> option exn -> exit_result exn)
    (small : Dependant -> list dep_node -> kwargs -> call_log * result solved_deps)
    (f : call -> kwargs -> result value) (root : Dependant) (inj : injected) (kd : kwargs)
    (nodes := route_nodes pr dunder_name addr is_http_scheme root)
    (tree_value := eval pr dunder_name addr is_http_scheme (resolver_kwargs kd) f)
    (Hkind : choose_solver nodes = SolveAsync)
    (Htree : plain_tree pr dunder_name addr is_http_scheme root)
    (Hplain : ∀ n, n ∈ nodes -> node_is_trivial n = true ∧ supplied kd n)
    (Hrun : ∀ log c kw, w_run w log c kw = f c kw) :
  match _make_dep_solver pr fuel [] dunder_name addr is_http_scheme w exit_gen small root inj kd with
  | ByResolver s exits (Ok sr) =>
      c_call <$> r_log s = n_call <$> nodes ∧ exits = [] ∧ sr_errors sr = []
      ∧ sr_kwargs sr = foldl dict_del kd (dep_consumed_params root nodes)
      ∧ ∀ d x, d ∈ dependencies root -> dep_name (info d) = Some x -> x ≠ [] ->
          ∃ v, tree_value d = Ok v ∧ dict_get (sr_injected sr) x = Some v
  | ByResolver _ exits (Raise e) => exits = [] ∧ ∃ d, d ∈ below root ∧ tree_value d = Raise e
  | _ => False
  end.
Proof.
  destruct (route_nodes_good _ _ _ _ _ Htree) as (Hg & Hnd & Hh). destruct Htree as [Hca Hk Hna Hnm].
  unfold _make_dep_solver. fold (route_nodes pr dunder_name addr is_http_scheme root). fold nodes. rewrite Hkind. simpl.
  assert (Hnf : parsed_form w inj nodes = Ok None).
  { unfold parsed_form. destruct (in_body inj) as [[|b bs]|]; [done| |done].
    replace (existsb n_has_form_body nodes) with false; [done|]. symmetry.
    apply not_true_is_false. intros (n & Hn%list_elem_of_In & Hb)%existsb_exists.
    destruct (trivial_flags n) as [_ Hf]; [by apply Hplain|congruence]. }
  unfold _resolve_deps_async. rewrite Hnf.
  pose proof (async_loop_eval pr dunder_name addr is_http_scheme (below root) kd f (below_sub root) Hca
    (fun a b Ha Hb => Hk a b (below_preorder _ _ Ha) (below_preorder _ _ Hb)) Hna w inj Hrun
    [] nodes (start kd) Hg Hnm Hplain eq_refl ltac:(intros ???; set_solver)) as H.
  destruct (resolve_loop _ _ _) as [s [[]|e]]; [|done].
  destruct H as (Hr & He & Ho & Hl). cbn [rbind]. split_and!; [done..| |].
  - unfold solver_tuple. cbn [sr_kwargs]. by rewrite Ho.
  - intros d x Hd Hx Hne. destruct (Hh d Hd) as (n & Hn & Hkn & Hnames).
    destruct (Hr n x d) as (v & Hv & Hget); [done|by apply Hnames|by apply below_direct|done|].
    exists v. split; [done|]. simpl. rewrite dict_get_filter_keys; [done|]. by eapply injectable_direct.
Qed.

(** ** Credentials *)
Lemma truthy_get o : truthy o = match get_or o [] with [] => None | s => Some s end.
Proof. by destruct o as [[]|]. Qed.

Section credentials.
Context (b : HTTPBase) (c : HTTPConn.HTTPConnection) (auth_scheme auth_credentials : option str).
(** The core splits the header as the Python code does. *)
Context (split : (get_or auth_scheme [], get_or auth_credentials []) = get_authorization_scheme_param (authorization c)).

Lemma falsy_split : falsy (authorization c) = true -> get_or auth_scheme [] = [].
Proof. destruct (authorization c) as [[|a l]|]; [|done|]; intros _; by injection split. Qed.

Lemma bearer_agrees (Hm : model_scheme b ≠ []) : native_bearer true b auth_scheme auth_credentials = bearer_call b c.
Proof.
  unfold native_bearer, bearer_call, scheme_call. rewrite <-split, !truthy_get. pose proof falsy_split as Hf.
  assert (native_headers b = base_authenticate_headers b) as ->.
  { unfold native_headers, base_authenticate_headers, text_or. by destruct (model_scheme b). }
  destruct (falsy (authorization c)); [by rewrite Hf|].
  destruct (get_or auth_scheme []) as [|x sch]; [done|]. destruct (get_or auth_credentials []) as [|y cred]; [done|].
  simpl. by destruct (negb _).
Qed.

Lemma base_agrees (Hm : model_scheme b ≠ []) : native_bearer false b auth_scheme auth_credentials = base_call b c.
Proof.
  unfold native_bearer, base_call. rewrite <-split, !truthy_get. pose proof falsy_split as Hf.
  assert (native_headers b = base_authenticate_headers b) as ->.
  { unfold native_headers, base_authenticate_headers, text_or. by destruct (model_scheme b). }
  destruct (falsy (authorization c)); [by rewrite Hf|].
  destruct (get_or auth_scheme []) as [|x sch]; [done|]. by destruct (get_or auth_credentials []) as [|y cred].
Qed.

Lemma basic_agrees :
  (auto_error b = true ∨ get_or auth_credentials [] ≠ []) ->
  (∀ data, b64decode (get_or auth_credentials []) = Ok data -> is_ascii data = true) ->
  native_basic b (read_basic auth_scheme auth_credentials) = basic_call b c.
Proof.
  intros Ha Hd. unfold native_basic, read_basic, basic_call. rewrite <-split, !truthy_get. pose proof falsy_split as Hf.
  destruct (falsy (authorization c)); [by rewrite Hf|].
  destruct (get_or auth_scheme []) as [|x sch] eqn:Es; [done|]. simpl orb.
  destruct (get_or auth_credentials []) as [|y cred] eqn:Ec.
  { destruct Ha as [Ha|Ha]; [|done]. unfold refuse. rewrite Ha. destruct (negb _); [done|]. by vm_compute (b64decode []). }
  destruct (negb _); [done|]. destruct (b64decode (y :: cred)) as [data|e] eqn:Eb; simpl; [|done].
  unfold decode_ascii. rewrite utf8_decode_ascii, Hd by auto.
  destruct (partition 58 data) as [[user []] pass]; done.
Qed.
End credentials.

(** The credentials the resolvers extract themselves are those of the
    security schemes.  When the core splits the [Authorization] header as
    [get_authorization_scheme_param] does, the native extraction gives for
    [HTTPBearer] and [HTTPBase] what calling the scheme gives, refusals with
    their status and challenge included, and for [HTTPBasic] as well if the
    decoded credentials are ASCII and, for a scheme that does not raise, there
    are any. *)
Theorem native_credentials_agree (b : HTTPBase) (c : HTTPConn.HTTPConnection) (auth_scheme auth_credentials : option str)
    (Hsplit : (get_or auth_scheme [], get_or auth_credentials []) = get_authorization_scheme_param (authorization c)) :
  (model_scheme b ≠ [] ->
   native_bearer true b auth_scheme auth_credentials = bearer_call b c
   ∧ native_bearer false b auth_scheme auth_credentials = base_call b c) ∧
  ((auto_error b = true ∨ get_or auth_credentials [] ≠ []) ->
   (∀ data, b64decode (get_or auth_credentials []) = Ok data -> is_ascii data = true) ->
   native_basic b (read_basic auth_scheme auth_credentials) = basic_call b c).
Proof.
  split; [intros Hm; split; [by apply bearer_agrees|by apply base_agrees]|]. by apply basic_agrees.
Qed.

(** ** Overrides *)
Section override_facts.
Context (pr : Program) (dunder_name : call -> option str) (addr : call -> Z) (is_http_scheme : call -> bool).

Lemma ct_own_info d : info (ct_own (cache_all pr d)) = info d ∧ ct_info (cache_all pr d) = info d
  ∧ ct_key (cache_all pr d) = cache_key pr d ∧ ct_deps (cache_all pr d) = cache_all pr <$> dependencies d.
Proof. by destruct d. Qed.

Lemma cached_children (deps : list Dependant) :
  (fun c => child_name dunder_name addr (ct_own c)) <$> (cache_all pr <$> deps) = child_name dunder_name addr <$> deps.
Proof. rewrite <-list_fmap_compose. apply list_fmap_ext. intros j c _. by destruct c. Qed.

Lemma cached_child_keys (deps : list Dependant) l :
  foldl (fun d c => dict_set d (child_name dunder_name addr (ct_own c)) (ct_key c)) l (cache_all pr <$> deps)
  = foldl (fun d ch => dict_set d (child_name dunder_name addr ch) (cache_key pr ch)) l deps.
Proof. revert l. induction deps as [|[] deps IH]; intros l; [done|]. csimpl. apply IH. Qed.

Lemma cached_node_same i d :
  cached_node pr dunder_name addr is_http_scheme i (cache_all pr d) = make_node pr dunder_name addr is_http_scheme i d.
Proof.
  destruct d as [inf p n deps]. unfold cached_node, make_node. cbn [cache_all ct_deps ct_own].
  rewrite cached_children, cached_child_keys. reflexivity.
Qed.

(** Without overrides the copy is flattened to the nodes of the dependant. *)
Lemma flatten_cached_same d st :
  flatten_cached pr dunder_name addr is_http_scheme (cache_all pr d) st
  = _flatten_deps pr dunder_name addr is_http_scheme d st.
Proof.
  revert st. induction d as [inf p n deps IH] using dependant_nested_ind. intros st. simpl. generalize 0%nat. revert st.
  induction IH as [|s deps Hs _ IHd]; intros st i; [done|]. csimpl. rewrite IHd. f_equal. unfold flatten_cached_sub, flatten_sub.
  destruct (ct_own_info s) as (_ & -> & -> & _). rewrite cached_node_same. by repeat case_match; rewrite ?Hs.
Qed.

(** The node of an overridden dependency calls the override, with the
    parameters and dependencies of the override, but keeps the cache key, and is
    entered as a generator exactly if what it replaces is one. *)
Lemma override_keeps_lifetime fuel overrides d o t i :
  override_for pr overrides (dep_call (info d)) = Some o ->
  apply_override pr fuel overrides (cache_all pr d) = Ok t ->
  let n := cached_node pr dunder_name addr is_http_scheme i t in
  n_call n = o ∧ n_key n = cache_key pr d ∧ how_of n = how_of (make_node pr dunder_name addr is_http_scheme i d)
  ∧ ∃ new, get_dependant pr fuel (mkDepInfo (dep_name (info d)) o None None true (text_or (Some (dep_path (info d))) $"/") None) = Ok new
           ∧ n_param_names n = n_param_names (make_node pr dunder_name addr is_http_scheme i new)
           ∧ n_child_names n = n_child_names (make_node pr dunder_name addr is_http_scheme i new).
Proof.
  destruct d as [inf p ns deps]. simpl. intros -> E. unfold overridden in E.
  destruct (get_dependant _ _ _) as [new|e]; simplify_eq/=. split_and!; [done..|]. exists new. split_and!; [done..|].
  destruct new as [inf' p' n' deps']. apply cached_children.
Qed.
End override_facts.

(** ** Routes

    [endpoint], [left], [right] and [session] are those of [FastRoute]; besides
    them [profile(user=Depends(current_user))], where [current_user] depends on
    [token], which requires the query parameter [limit]. *)
Module ResolveRoute.
Import FastRoute.
Definition profile : call := 10.
Definition current_user : call := 11.
Definition token : call := 12.
Definition fake_session : call := 13.

Definition program (session_kind : fkind) : Program := mkProgram
  (fun c => Function (if (c =? session)%Z then session_kind else if (c =? fake_session)%Z then Sync else Coro)) (fun _ => $"f")
  (fun c =>
     if (c =? profile)%Z then [($"user", dep current_user)]
     else if (c =? current_user)%Z then [($"token", dep token)]
     else if (c =? token)%Z then [($"limit", (Written (Plain (Cls StrC)), EmptyD))]
     else signature FastRoute.program c)
  (fun _ => 0) (fun _ => []) true.

Definition tree (k : fkind) (c : call) : Dependant :=
  let route := mkDepInfo None c None None true $"/" None in
  match get_dependant (program k) 5 route with Ok d => d | Raise _ => mkDependant route no_params no_names [] end.

Definition nodes (k : fkind) (c : call) : list dep_node := route_nodes (program k) (fun _ => None) id (fun _ => false) (tree k c).

Definition world (run : call -> kwargs -> result value) : World :=
  mkWorld (fun _ => run) (fun _ => false) (fun _ => (OtherT, bearer_init None true)) (fun _ => VObject 0) (fun _ => VObject 1)
    (fun _ => Ok []) (fun _ _ => Ok []) (fun _ => None) (fun _ _ => []) no_context [] true.

Definition request : injected := mkInjected (Some []) $"GET" $"/" None None None [].

Definition leave (c : called) (pending : option exn) : exit_result exn := ExitReturns false.

Definition no_small (d : Dependant) (ns : list dep_node) (kd : kwargs) : call_log * result solved_deps := ([], Raise IndexError).

Definition solve (k : fkind) (overrides : list (call * call)) (run : call -> kwargs -> result value) (c : call) (kd : kwargs) : solved :=
  _make_dep_solver (program k) 5 overrides (fun _ => None) id (fun _ => false) (world run) leave no_small (tree k c) request kd.

Lemma resolve_plain : plain_tree (program Sync) (fun _ => None) id (fun _ => false) (tree Sync endpoint).
Proof.
  apply plain_by_computation.
  - apply (no_scopes_coherent (program Sync) 5 (info (tree Sync endpoint))); [vm_compute; reflexivity|].
    rewrite <-Forall_forall. apply (bool_decide_eq_true_1 _). vm_compute. reflexivity.
  - apply (bool_decide_eq_true_1 _). vm_compute. reflexivity.
  - apply distinct_by_computation, (bool_decide_eq_true_1 _). vm_compute. reflexivity.
Qed.

(** [right] fails. *)
Definition failing (c : call) (kw : kwargs) : result value :=
  if (c =? right)%Z then Raise (HTTPException 403 None None) else f c kw.
End ResolveRoute.

(** The failure of [right] closes the session. *)
Lemma generators_left_witness :
  match _resolve_deps_gen (ResolveRoute.world ResolveRoute.failing) ResolveRoute.leave ResolveRoute.request
    (ResolveRoute.nodes Gen FastRoute.endpoint) FastRoute.kd with
  | (s, exits, r) =>
      r = Raise (HTTPException 403 None None) ∧ c_call <$> exits = [FastRoute.session]
      ∧ c_call <$> r_log s = [FastRoute.session; FastRoute.left; FastRoute.right]
      ∧ exits = reverse (entered OnFunction (r_log s)) ++ reverse (entered OnRequest (r_log s))
  end.
Proof.
  destruct (_resolve_deps_gen _ _ _ _ _) as [[s exits] r] eqn:E.
  destruct (generators_left _ _ _ _ _ _ _ _ E) as [_ H]. vm_compute in E. injection E as <- <- <-.
  split_and!; [reflexivity..|]. exact H.
Defined.

Lemma large_tree_resolved_witness :
  choose_solver (ResolveRoute.nodes Sync FastRoute.endpoint) = SolveAsync
  ∧ match ResolveRoute.solve Sync [] FastRoute.f FastRoute.endpoint FastRoute.kd with
    | ByResolver s exits (Ok sr) =>
        c_call <$> r_log s = n_call <$> ResolveRoute.nodes Sync FastRoute.endpoint ∧ exits = [] ∧ sr_errors sr = []
        ∧ sr_kwargs sr = [($"other", VInt 0)]
        ∧ dict_get (sr_injected sr) $"a" = Some (VDict [($"callable", VInt 1); ($"db", VDict [($"callable", VInt 3)])])
    | _ => False
    end.
Proof.
  split; [vm_compute; reflexivity|].
  assert (Hp : ∀ n, n ∈ ResolveRoute.nodes Sync FastRoute.endpoint -> node_is_trivial n = true ∧ supplied FastRoute.kd n).
  { apply (proj1 (Forall_forall (fun n => node_is_trivial n = true ∧ supplied FastRoute.kd n) _)). vm_compute ResolveRoute.nodes.
    repeat (apply Forall_cons; split; [split; [reflexivity|]|]); [..|apply Forall_nil; exact I];
      (split_and!; intros x Hx; try by apply not_elem_of_nil in Hx).
    apply list_elem_of_singleton in Hx as ->. split; [by apply list_elem_of_singleton|]. by eexists. }
  pose proof (large_tree_resolved (ResolveRoute.program Sync) 5 (fun _ => None) id (fun _ => false)
    (ResolveRoute.world FastRoute.f) ResolveRoute.leave ResolveRoute.no_small FastRoute.f (ResolveRoute.tree Sync FastRoute.endpoint)
    ResolveRoute.request FastRoute.kd ltac:(vm_compute; reflexivity) ResolveRoute.resolve_plain Hp (fun _ _ _ => eq_refl)) as H.
  unfold ResolveRoute.solve. destruct (_make_dep_solver _ _ _ _ _ _ _ _ _ _ _ _) as [|r|s exits [sr|e]|e] eqn:E; try done.
  destruct H as (H1 & H2 & H3 & _). split_and!; [exact H1|exact H2|exact H3|..];
    vm_compute in E; injection E as <- <- <-; reflexivity.
Defined.

(** The resolvers on the same route, nothing of which is a generator. *)
Lemma resolvers_agree_witness :
  match _resolve_deps_sync (ResolveRoute.world FastRoute.f) ResolveRoute.request (ResolveRoute.nodes Sync FastRoute.endpoint) FastRoute.kd with
  | (s, r) =>
      c_call <$> r_log s = [FastRoute.session; FastRoute.left; FastRoute.right]
      ∧ _resolve_deps_async (ResolveRoute.world FastRoute.f) ResolveRoute.request (ResolveRoute.nodes Sync FastRoute.endpoint) FastRoute.kd
        = (with_by_key s [], r)
      ∧ _resolve_deps_gen (ResolveRoute.world FastRoute.f) ResolveRoute.leave ResolveRoute.request
          (ResolveRoute.nodes Sync FastRoute.endpoint) FastRoute.kd
        = (with_by_key s [], [], let! _ := r in Ok ([], []))
  end.
Proof.
  assert (Hu : unambiguous (ResolveRoute.nodes Sync FastRoute.endpoint)).
  { split.
    - intros i j n m x Hn Hm Hxn Hxm. vm_compute in Hn, Hm.
      destruct i as [|[|[|]]]; simplify_eq/=; destruct j as [|[|[|]]]; simplify_eq/=; vm_compute in Hxn, Hxm; set_solver.
    - intros n m c k Hn Hm Hk Hmk.
    assert (Forall (fun n => Forall (fun m => Forall (fun ck => n_key m = ck.2 -> ck.1 ∈ names_of m) (n_child_keys n))
      (ResolveRoute.nodes Sync FastRoute.endpoint)) (ResolveRoute.nodes Sync FastRoute.endpoint)) as H
      by (apply (bool_decide_eq_true_1 _); vm_compute; reflexivity).
    rewrite Forall_forall in H. specialize (H n Hn). rewrite Forall_forall in H. specialize (H m Hm).
    rewrite Forall_forall in H. exact (H (c, k) (dict_get_elem _ _ _ Hk) Hmk). }
  assert (Hp : ∀ n, n ∈ ResolveRoute.nodes Sync FastRoute.endpoint -> plainly_read n).
  { apply (proj1 (Forall_forall plainly_read _)). vm_compute ResolveRoute.nodes. repeat constructor. }
  pose proof (resolvers_agree (ResolveRoute.world FastRoute.f) ResolveRoute.leave ResolveRoute.request
    (ResolveRoute.nodes Sync FastRoute.endpoint) FastRoute.kd Hu (fun n Hn => proj1 (proj2 (Hp n Hn))) (fun _ _ _ _ _ => eq_refl)) as H.
  destruct (_resolve_deps_sync _ _ _ _) as [s r] eqn:E. destruct H as [H1 H2].
  assert (r_errors s = [] ∧ c_call <$> r_log s = [FastRoute.session; FastRoute.left; FastRoute.right]) as [He Hl]
    by (vm_compute in E; injection E as <- <-; done).
  split_and!; [exact Hl|exact H1|exact (H2 He Hp I)].
Defined.

Lemma native_credentials_agree_witness :
  let c := HTTPConn.mkConn (auth_scope $"Basic YWxpY2U6c2VjcmV0OjE=") None None None in
  native_basic (basic_init None None true) (read_basic (Some $"Basic") (Some $"YWxpY2U6c2VjcmV0OjE="))
  = basic_call (basic_init None None true) c
  ∧ native_bearer true (bearer_init None true) (Some $"Basic") (Some $"YWxpY2U6c2VjcmV0OjE=") = bearer_call (bearer_init None true) c
  ∧ basic_call (basic_init None None true) c = Ok (Some (mkBasic $"alice" $"secret:1")).
Proof.
  intros c. split_and!; [| |vm_compute; reflexivity].
  - apply (native_credentials_agree (basic_init None None true) c (Some $"Basic") (Some $"YWxpY2U6c2VjcmV0OjE=")).
    + vm_compute. reflexivity.
    + by left.
    + intros data E. vm_compute in E. injection E as <-. reflexivity.
  - apply (native_credentials_agree (bearer_init None true) c (Some $"Basic") (Some $"YWxpY2U6c2VjcmV0OjE=")); [|done].
    vm_compute. reflexivity.
Defined.

(** ** What the resolvers do in other cases *)

(** Credentials that are not ASCII are accepted natively and refused by the
    scheme. *)
Example native_basic_accepts_utf8 :
  native_basic (basic_init None None true) (read_basic (Some $"Basic") (Some $"w7w6cA==")) = Ok (Some (mkBasic [252%N] $"p"))
  ∧ basic_call (basic_init None None true) (HTTPConn.mkConn (auth_scope $"Basic w7w6cA==") None None None)
    = Raise (unauthorized (challenge $"Basic")).
Proof. split; vm_compute; reflexivity. Qed.

(** [token] is given up because [limit] is missing; [current_user] is called all
    the same, without the argument [token]. *)
Example parent_called_without_child :
  ∃ s, _resolve_deps_async (ResolveRoute.world FastRoute.f) ResolveRoute.request (ResolveRoute.nodes Sync ResolveRoute.profile) [] = (s, Ok tt)
    ∧ r_errors s = [missing $"query" $"limit"] ∧ r_log s = [mkCalled ResolveRoute.current_user [] Plainly true].
Proof. eexists. split_and!; [vm_compute; reflexivity|reflexivity..]. Qed.

(** A plain function that overrides a generator is entered as one. *)
Example override_entered_as_generator :
  match ResolveRoute.solve Gen [(FastRoute.session, ResolveRoute.fake_session)] FastRoute.f FastRoute.endpoint FastRoute.kd with
  | ByResolver s _ _ => head ((fun c => (c_call c, c_how c)) <$> r_log s) = Some (ResolveRoute.fake_session, OnRequest)
  | _ => False
  end.
Proof. vm_compute. reflexivity. Qed.

(** Where two dependencies have the same name the first result is kept by the
    synchronous resolver and the last by the asynchronous one. *)
Example ambiguous_names_differ :
  let run := FastRoute.f in
  let ns := FastRoute.nodes FastRoute.clash in
  dict_get (r_resolved (_resolve_deps_sync (ResolveRoute.world run) ResolveRoute.request ns FastRoute.kd).1) $"a"
  ≠ dict_get (r_resolved (_resolve_deps_async (ResolveRoute.world run) ResolveRoute.request ns FastRoute.kd).1) $"a".
Proof. vm_compute. discriminate. Qed.

(** An IPv6 address without a port as the host makes the request object
    impossible. *)
Example ipv6_host_refused :
  _make_lightweight_request [] true true no_context (Some [($"Host", $"[::1]")]) $"GET" $"/" = Raise (int_error $"1]").
Proof. vm_compute. reflexivity. Qed.
