(* ===== verification/ParamValidator.v ===== *)
(** * ParamValidator: parameters of a route on the compiled server

    What [routing.py] and [applications.py] prepare at registration for the
    parameters of an endpoint that the compiled core extracts: the
    specifications of its fields, the validator of the extracted values, with
    its short form for routes whose schemas are trivial, and the two wrappers
    that run it before the endpoint.  Pydantic validation, cookie parsing and
    user code are parameters. *)

From S2P Require Import Prelude PyStr Asgi DataStructures ExceptionHandler Convertors HttpWire.
From S2P Require Import Annotations Dependants ParamArgs FastDeps.

Abbreviation kwargs := (list (str * value)).

(** ** Specifications for the core *)

(** Location, alias, type tag, field name, whether it is a sequence or JSON,
    whether underscores are converted, whether it is required, its default. *)
Record field_spec : Type := mkSpec {
  fs_location : str;
  fs_alias : str;
  fs_tag : str;
  fs_name : str;
  fs_sequence : bool;
  fs_json : bool;
  fs_convert : bool;
  fs_required : bool;
  fs_default : value
}.

(** [field.name in names], where there are names to look at. *)
Definition is_endpoint_param (names : option (list str)) (f : ModelField) : bool :=
  match names with None => true | Some l => bool_decide (field_name f ∈ l) end.

(** A required parameter has no default, also where a dependency requires it. *)
Definition spec_default (f : ModelField) : value := if required f then VNone else default f.

Definition tag_of (f : ModelField) : str := get_or (_get_scalar_type_tag f) [].

Definition query_spec (names : option (list str)) (f : ModelField) : option field_spec :=
  if is_model_field f then None
  else Some (mkSpec $"query" (get_validation_alias f) (tag_of f) (field_name f)
               (is_sequence_field f && negb (_is_json_field f)) (_is_json_field f) false
               (required f && is_endpoint_param names f) (spec_default f)).

Definition header_spec (names : option (list str)) (f : ModelField) : option field_spec :=
  if is_model_field f then None
  else Some (mkSpec $"header" (get_validation_alias f) (tag_of f) (field_name f)
               (is_sequence_field f && negb (_is_json_field f)) false
               (get_or (fi_convert_underscores (field_info f)) true)
               (required f && is_endpoint_param names f) (spec_default f)).

(** A cookie is looked up under its alias, if there is one. *)
Definition cookie_spec (names : option (list str)) (f : ModelField) : option field_spec :=
  if is_model_field f then None
  else Some (mkSpec $"cookie" (get_validation_alias f) (tag_of f)
               (text_or (Some (get_validation_alias f)) (field_name f)) false false false
               (required f && is_endpoint_param names f) (spec_default f)).

Definition path_spec (f : ModelField) : field_spec :=
  mkSpec $"path" (get_validation_alias f) (tag_of f) (field_name f) false false false true VNone.

Definition _build_field_specs (d : Dependant) (endpoint_only : option Dependant) : list field_spec :=
  let p := params d in
  let names get := (fun e => field_name <$> get (params e)) <$> endpoint_only in
  omap (query_spec (names query_params)) (query_params p) ++ omap (header_spec (names header_params)) (header_params p)
  ++ omap (cookie_spec (names cookie_params)) (cookie_params p) ++ (path_spec <$> path_params p).

(** [_convert_batch_specs]: the dictionary the core is given. *)
Record core_spec : Type := mkCoreSpec {
  cs_field_name : str;
  cs_alias : str;
  cs_header_key : str;
  cs_location : Z;
  cs_type_tag : Z;
  cs_required : bool;
  cs_default : value;
  cs_convert : bool;
  cs_sequence : bool
}.

Definition _BATCH_SPEC_LOC : list (str * Z) := [($"query", 0); ($"header", 1); ($"cookie", 2); ($"path", 3)].
Definition _BATCH_SPEC_TYPE : list (str * Z) := [([], 0); ($"str", 0); ($"int", 1); ($"float", 2); ($"bool", 3)].

Definition header_key (s : field_spec) : str :=
  if bool_decide (fs_location s = $"header") then
    let lookup := text_or (Some (fs_alias s)) (fs_name s) in
    if fs_convert s then replace_char 45 95 (str_lower lookup) else str_lower lookup
  else [].

Definition convert_spec (s : field_spec) : core_spec :=
  mkCoreSpec (fs_name s) (fs_alias s) (header_key s) (get_or (dict_get _BATCH_SPEC_LOC (fs_location s)) 0)
    (get_or (dict_get _BATCH_SPEC_TYPE (fs_tag s)) 0) (fs_required s) (fs_default s) (fs_convert s) (fs_sequence s).

Definition _convert_batch_specs (specs : list field_spec) : list core_spec := convert_spec <$> specs.

(** What the core does with them, given what it extracts for each field ([None]
    where the request has nothing): it stores the values under the names, and
    then the defaults of fields that have no value. *)
Definition core_store (ext : field_spec -> value) (d : kwargs) (s : field_spec) : kwargs :=
  match ext s with VNone => d | v => dict_set d (fs_name s) v end.

Definition fill_default (d : kwargs) (s : field_spec) : kwargs :=
  match fs_default s with VNone => d | v => dict_setdefault d (fs_name s) v end.

Definition core_kwargs (ext : field_spec -> value) (d : kwargs) (specs : list field_spec) : kwargs :=
  foldl fill_default (foldl (core_store ext) d specs) specs.

(** ** The validator *)

(** A core schema: its type, its keys, and the schema under [schema] or
    [items_schema]; not every schema is a dictionary. *)
Inductive schema : Type := NoSchema | SNode (st : str) (keys : list str) (inner : option schema).

Definition _CONSTRAINT_KEYS : list str :=
  [$"min_length"; $"max_length"; $"pattern"; $"ge"; $"le"; $"gt"; $"lt"; $"multiple_of"; $"strict"; $"coerce_float_to_int";
   $"max_digits"; $"decimal_places"; $"union_mode"].

Definition scalar_types : list str := [$"str"; $"int"; $"float"; $"bool"].

Fixpoint _is_trivial_schema (s : schema) : bool :=
  match s with
  | NoSchema => false
  | SNode st keys inner =>
      if bool_decide (st ∈ scalar_types) then forallb (fun k => negb (bool_decide (k ∈ keys))) _CONSTRAINT_KEYS
      else if bool_decide (st = $"nullable") || bool_decide (st = $"list") then
        match inner with Some s' => _is_trivial_schema s' | None => false end
      else false
  end.

Definition schema_type (s : schema) : str := match s with SNode st _ _ => st | NoSchema => $"str" end.

(** What the validator needs besides Pydantic validation: schemas, [str] of a
    value, and the cookies [SimpleCookie] finds in a header. *)
Record Adapters : Type := mkAdapters {
  ad_pydantic : Pydantic;
  ad_program : Program;
  ad_schema : ModelField -> schema;
  ad_str : value -> str;
  ad_cookies : str -> result (list (str * str));
  ad_context : ReqContext
}.

(** The fields by place, in the order of the loop. *)
Definition located (p : DepParams) : list (str * ModelField) :=
  ((fun f => ($"query", f)) <$> query_params p) ++ ((fun f => ($"header", f)) <$> header_params p)
  ++ ((fun f => ($"cookie", f)) <$> cookie_params p) ++ ((fun f => ($"path", f)) <$> path_params p).

Definition param_info (p : DepParams) : list (str * ModelField) := filter (fun lf => is_model_field lf.2 = false) (located p).
Definition model_param_info (p : DepParams) : list (str * ModelField) := filter (fun lf => is_model_field lf.2 = true) (located p).

(** The core stores query parameters and cookies under the name of the field,
    headers and path parameters under its alias; the other name is tried where
    nothing is found. *)
Definition find_value (kd : kwargs) (loc : str) (f : ModelField) : value :=
  let al := get_validation_alias f in
  let name := field_name f in
  let '(first, second) :=
    if bool_decide (loc = $"query") || bool_decide (loc = $"cookie") then (name, al) else (al, name) in
  match opt_value (dict_get kd first) with
  | VNone => if bool_decide (al = name) then VNone else opt_value (dict_get kd second)
  | v => v
  end.

Definition missing_param (loc : str) (f : ModelField) : error := missing loc (get_validation_alias f).

(** [values[name] = default], or the error of a required field. *)
Definition absent_param (st : args_state) (loc : str) (f : ModelField) : args_state :=
  if required f then (st.1, st.2 ++ [missing_param loc f]) else (dict_set st.1 (field_name f) (default f), st.2).

Section validator.
Context (ad : Adapters).

(** *** Trivial schemas *)

(** [int(v)] and [float(v)] *)
Definition int_of_value (v : value) : result Z :=
  match v with
  | VStr s => py_int s
  | VBytes b => py_int b
  | VFloat x => int_of (PFloat x)
  | _ => Raise (TypeError $"int() argument must be a string, a bytes-like object or a real number")
  end.

Definition float_of_value (v : value) : result float64 :=
  match v with
  | VStr s => float_of_str s
  | VBytes b => float_of_str b
  | _ => Raise (TypeError $"float() argument must be a string or a real number")
  end.

Definition is_int (v : value) : bool := match v with VInt _ | VBool _ => true | _ => false end.
Definition is_number (v : value) : bool := match v with VInt _ | VBool _ | VFloat _ => true | _ => false end.
Definition is_bool (v : value) : bool := match v with VBool _ => true | _ => false end.

(** [except (ValueError, TypeError)] *)
Definition conversion_error (e : exn) : bool := isinstance e $"ValueError" || isinstance e $"TypeError".

(** A coerced value, the type, message and input of an error, or an exception
    that is not caught. *)
Definition parse_error (t msg : str) (input : value) : result (value + str * str * value) := Ok (inr (t, msg, input)).

Definition coerced {A} (mk : A -> value) (r : result A) (err : result (value + str * str * value)) : result (value + str * str * value) :=
  match r with
  | Ok a => Ok (inl (mk a))
  | Raise e => if conversion_error e then err else Raise e
  end.

Definition bool_words (s : str) : option bool :=
  let vl := str_lower s in
  if bool_decide (vl ∈ [$"true"; $"1"; $"yes"; $"on"]) then Some true
  else if bool_decide (vl ∈ [$"false"; $"0"; $"no"; $"off"]) then Some false else None.

Definition fast_coerce (st : str) (v : value) : result (value + str * str * value) :=
  if bool_decide (st = $"int") && negb (is_int v) then
    coerced VInt (int_of_value v)
      (parse_error $"int_parsing" $"Input should be a valid integer, unable to parse string as an integer" (VStr (ad_str ad v)))
  else if bool_decide (st = $"float") && negb (is_number v) then
    coerced VFloat (float_of_value v)
      (parse_error $"float_parsing" $"Input should be a valid number, unable to parse string as a number" (VStr (ad_str ad v)))
  else if bool_decide (st = $"bool") && negb (is_bool v) then
    let msg := $"Input should be a valid boolean, unable to interpret input" in
    match v with
    | VStr s => match bool_words s with Some b => Ok (inl (VBool b)) | None => parse_error $"bool_parsing" msg v end
    | _ => parse_error $"bool_parsing" msg (VStr (ad_str ad v))
    end
  else Ok (inl v).

Definition fast_step (kd : kwargs) (st : args_state) (lf : str * ModelField) : result args_state :=
  let '(loc, f) := lf in
  match find_value kd loc f with
  | VNone => Ok (absent_param st loc f)
  | v =>
      let! c := fast_coerce (schema_type (ad_schema ad f)) v in
      Ok (match c with
          | inl v => (dict_set st.1 (field_name f) v, st.2)
          | inr (t, msg, input) => (st.1, st.2 ++ [mkError t [loc; get_validation_alias f] msg input])
          end)
  end.

Definition _fast_validate (p : DepParams) (kd : kwargs) : result args_state := rfold (fast_step kd) ([], []) (param_info p).

(** *** Any schema *)
Definition validate_step (kd : kwargs) (st : args_state) (lf : str * ModelField) : result args_state :=
  let '(loc, f) := lf in
  match find_value kd loc f with
  | VNone => Ok (absent_param st loc f)
  | v =>
      match validate_python (ad_pydantic ad) f v with
      | Valid v => Ok (dict_set st.1 (field_name f) v, st.2)
      | Invalid errors => Ok (st.1, st.2 ++ _regenerate_error_with_loc errors [loc; get_validation_alias f])
      | Fails msg => Raise (TypeError msg)
      | Crashes e => Raise e
      end
  end.

(** *** Models *)

(** The headers the core put aside, or those of the context. *)
Definition the_headers (saved : option raw_headers) : raw_headers :=
  match saved with Some ((_ :: _) as hs) => hs | _ => get_or (cx_raw_headers (ad_context ad)) [] end.

(** A repeated name becomes a list. *)
Definition add_multi (d : kwargs) (k : str) (v : str) : kwargs :=
  dict_set d k (match dict_get d k with
                | Some (VSeq KList l) => VSeq KList (l ++ [VStr v])
                | Some existing => VSeq KList [existing; VStr v]
                | None => VStr v
                end).

Definition header_entry (d : kwargs) (h : bytes * bytes) : kwargs :=
  let hn := str_lower (decode_latin1 h.1) in
  let us := replace_char 45 95 hn in
  let d := add_multi d hn (decode_latin1 h.2) in
  if bool_decide (us = hn) then d else add_multi d us (decode_latin1 h.2).

Fixpoint cookie_entries (put : kwargs -> str -> value -> kwargs) (hs : raw_headers) (d : kwargs) : kwargs :=
  match hs with
  | [] => d
  | (n, v) :: hs' =>
      if bool_decide (str_lower (decode_latin1 n) = $"cookie") then
        match ad_cookies ad (decode_latin1 v) with
        | Raise _ => d
        | Ok cs => cookie_entries put hs' (foldl (fun d kv => put d kv.1 (VStr kv.2)) d cs)
        end
      else cookie_entries put hs' d
  end.

Definition query_entries : kwargs :=
  (fun '(k, vs) => (k, match vs with [v] => VStr v | _ => VSeq KList (VStr <$> vs) end))
  <$> _parse_qs_python (decode_latin1 (cx_query_string (ad_context ad))).

Definition raw_values (saved : option raw_headers) (loc : str) : kwargs :=
  if bool_decide (loc = $"header") then foldl header_entry [] (the_headers saved)
  else if bool_decide (loc = $"cookie") then cookie_entries dict_set (the_headers saved) []
  else if bool_decide (loc = $"query") then query_entries
  else [].

(** [a or b] *)
Definition is_falsy (v : value) : bool :=
  match v with VNone | VStr [] | VSeq _ [] => true | _ => false end.
Definition value_or (a b : value) : value := if is_falsy a then b else a.

Definition raw_lookup (raw : kwargs) (loc : str) (cu : bool) (f : ModelField) : value :=
  let al := get_validation_alias f in
  let name := field_name f in
  let get k := opt_value (dict_get raw k) in
  if bool_decide (loc = $"header") then
    if negb (bool_decide (al = name)) then
      value_or (get (str_lower al)) (get (if cu then replace_char 95 45 (str_lower al) else str_lower al))
    else if cu then value_or (get (str_lower name)) (get (replace_char 95 45 (str_lower name)))
    else match get (replace_char 95 45 (str_lower name)) with VSeq KList l => get_or (last l) VNone | v => v end
  else get al.

Definition wrap_list (cu : bool) (f : ModelField) (v : value) : value :=
  match v with VStr _ => if is_sequence_field f && cu then VSeq KList [v] else v | _ => v end.

Definition inner_step (kd raw : kwargs) (loc : str) (cu : bool) (d : kwargs) (f : ModelField) : kwargs :=
  let al := get_validation_alias f in
  let v := opt_value (dict_get kd (field_name f)) in
  let v := match v with VNone => if bool_decide (al = field_name f) then VNone else opt_value (dict_get kd al) | _ => v end in
  let v := match v, raw with VNone, _ :: _ => raw_lookup raw loc cu f | _, _ => v end in
  match v with VNone => d | _ => dict_set d al (wrap_list cu f v) end.

(** Parameters that belong to no field of the model. *)
Definition ignored_headers : list str :=
  [$"content-length"; $"content-type"; $"accept"; $"accept-encoding"; $"user-agent"; $"connection"].

Definition extra_header (d : kwargs) (h : bytes * bytes) : kwargs :=
  let hn := str_lower (decode_latin1 h.1) in
  if bool_decide (hn ∈ ignored_headers) then d else add_multi d (replace_char 45 95 hn) (decode_latin1 h.2).

Definition add_extras (saved : option raw_headers) (loc : str) (d : kwargs) : kwargs :=
  let put d k v := dict_setdefault d k v in
  if bool_decide (loc = $"query") then foldl (fun d kv => put d kv.1 kv.2) d query_entries
  else if bool_decide (loc = $"cookie") then cookie_entries put (the_headers saved) d
  else if bool_decide (loc = $"header") then
    foldl (fun d kv => put d kv.1 kv.2) d (foldl extra_header [] (the_headers saved))
  else d.

(** Defaults of a header model that were not sent. *)
Definition add_defaults (loc : str) (fields : list ModelField) (d : kwargs) : kwargs :=
  if bool_decide (loc = $"header") then
    foldl (fun d f =>
      let al := text_or (fi_alias (field_info f)) (field_name f) in
      if dict_mem d al || dict_mem d (field_name f) then d
      else match fi_default (field_info f) with None | Some VNone => d | Some v => dict_set d al v end) d fields
  else d.

Definition model_dict (saved : option raw_headers) (kd : kwargs) (loc : str) (f : ModelField) : kwargs :=
  let fields := get_model_fields (ad_program ad) (type_ f) in
  let cu := get_or (fi_convert_underscores (field_info f)) true in
  let raw := raw_values saved loc in
  add_defaults loc fields (add_extras saved loc (foldl (inner_step kd raw loc cu) [] fields)).

(** A forbidden extra parameter is reported as a missing one, except for
    headers. *)
Definition model_errors (loc : str) (f : ModelField) (errors : list error) : list error :=
  let cookie := bool_decide (loc = $"cookie") in
  if (bool_decide (loc = $"query") || cookie) && existsb (fun e => bool_decide (err_type e = $"extra_forbidden")) errors then
    let name :=
      if cookie then match get_model_fields (ad_program ad) (type_ f) with g :: _ => field_name g | [] => field_name f end
      else field_name f in
    [mkError $"missing" [loc; name] $"Field required" (if cookie then VDict [] else VNone)]
  else _regenerate_error_with_loc errors [loc].

Definition model_step (saved : option raw_headers) (kd : kwargs) (st : args_state) (lf : str * ModelField) : result args_state :=
  let '(loc, f) := lf in
  match validate_python (ad_pydantic ad) f (VDict (model_dict saved kd loc f)) with
  | Valid v => Ok (dict_set st.1 (field_name f) v, st.2)
  | Invalid errors => Ok (st.1, st.2 ++ model_errors loc f errors)
  | Fails msg => Raise (TypeError msg)
  | Crashes e => Raise e
  end.

(** Keys the core adds to the arguments, which are no parameters: [_validate]
    takes them out of the dictionary it is given. *)
Definition injected_keys : list str :=
  [$"__raw_headers__"; $"__method__"; $"__path__"; $"__auth_scheme__"; $"__auth_credentials__"].

Definition pop_keys (ks : list str) (kd : kwargs) : kwargs := foldl dict_del kd ks.

(** A list of pairs of bytes *)
Definition headers_of (v : value) : option raw_headers :=
  match v with
  | VSeq _ l => Some (omap (fun h => match h with VSeq KTuple [VBytes n; VBytes x] => Some (n, x) | _ => None end) l)
  | _ => None
  end.

Definition saved_headers (kd : kwargs) : option raw_headers := headers_of (opt_value (dict_get kd $"__raw_headers__")).

Definition _validate (p : DepParams) (kd : kwargs) : result args_state :=
  let saved := saved_headers kd in
  let kd := pop_keys injected_keys kd in
  let! st := rfold (validate_step kd) ([], []) (param_info p) in
  rfold (model_step saved kd) st (model_param_info p).

(** The keys the validated values replace. *)
Definition names_of_field (f : ModelField) : list str := [get_validation_alias f; field_name f].

Definition consumed (p : DepParams) : list str :=
  ((param_info p) ≫= fun lf => names_of_field lf.2)
  ++ ((model_param_info p) ≫= fun lf => get_model_fields (ad_program ad) (type_ lf.2) ≫= names_of_field).

(** [_make_param_validator]: [None] when there is nothing to validate. *)
Definition all_trivial (p : DepParams) : bool :=
  forallb (fun lf => _is_trivial_schema (ad_schema ad lf.2)) (param_info p)
  && match model_param_info p with [] => true | _ => false end.

(** The values, the errors, the keys consumed, and what is left in the
    dictionary. *)
Record validated : Type := mkValidated {
  vd_values : kwargs;
  vd_errors : list error;
  vd_consumed : list str;
  vd_kwargs : kwargs
}.

Definition _make_param_validator (p : DepParams) : option (kwargs -> result validated) :=
  match located p with
  | [] => None
  | _ =>
      Some (fun kd =>
        if all_trivial p then
          let! st := _fast_validate p kd in Ok (mkValidated st.1 st.2 (consumed p) kd)
        else
          let! st := _validate p kd in Ok (mkValidated st.1 st.2 (consumed p) (pop_keys injected_keys kd)))
  end.
End validator.
