(* ===== verification/ParamValidatorFacts.v ===== *)
(** * ParamValidatorFacts: what the validator of a route returns

    From the specifications of the fields to the validated values: every
    parameter is judged on the value the core extracted for it, whichever of
    the two validators is used, the errors come in the order of the parameters,
    and the dictionary of values holds what the judgements say. *)

From S2P Require Import Prelude PyStr Asgi DataStructures ExceptionHandler Convertors HttpWire.
From S2P Require Import Annotations Dependants ParamArgs FastDeps ParamValidator.

(** ** The abstract specification: one parameter at a time *)
Section judgement.
Context (ad : Adapters).

(** What a present value becomes, or its errors. *)
Definition converter : Type := (str * ModelField) -> value -> result (value + list error).

Definition fast_conv : converter := fun lf v =>
  let! c := fast_coerce ad (schema_type (ad_schema ad lf.2)) v in
  Ok (match c with
      | inl v => inl v
      | inr (t, msg, input) => inr [mkError t [lf.1; get_validation_alias lf.2] msg input]
      end).

Definition pydantic_conv : converter := fun lf v =>
  match validate_python (ad_pydantic ad) lf.2 v with
  | Valid v => Ok (inl v)
  | Invalid errors => Ok (inr (_regenerate_error_with_loc errors [lf.1; get_validation_alias lf.2]))
  | Fails msg => Raise (TypeError msg)
  | Crashes e => Raise e
  end.

(** The judgement on a parameter: an absent one has its default, or is missing. *)
Definition judge (conv : converter) (lf : str * ModelField) (v : value) : result (value + list error) :=
  match v with
  | VNone => Ok (if required lf.2 then inr [missing_param lf.1 lf.2] else inl (default lf.2))
  | _ => conv lf v
  end.

Definition value_of (o : value + list error) : option value := match o with inl v => Some v | inr _ => None end.
Definition errors_in (o : value + list error) : list error := match o with inl _ => [] | inr es => es end.

Definition record_judgement (st : args_state) (name : str) (o : value + list error) : args_state :=
  match o with inl v => (dict_set st.1 name v, st.2) | inr es => (st.1, st.2 ++ es) end.

(** Both loops judge the value they find. *)
Lemma fast_step_judges kd st lf :
  fast_step ad kd st lf
  = let! o := judge fast_conv lf (find_value kd lf.1 lf.2) in Ok (record_judgement st (field_name lf.2) o).
Proof.
  destruct lf as [loc f]. unfold fast_step, judge, absent_param. simpl.
  destruct (find_value kd loc f); simpl; [by destruct (required f)|..];
    unfold fast_conv; simpl; (destruct (fast_coerce _ _ _) as [[?|[[??]?]]|]; done).
Qed.

Lemma validate_step_judges kd st lf :
  validate_step ad kd st lf
  = let! o := judge pydantic_conv lf (find_value kd lf.1 lf.2) in Ok (record_judgement st (field_name lf.2) o).
Proof.
  destruct lf as [loc f]. unfold validate_step, judge, absent_param. simpl.
  destruct (find_value kd loc f); simpl; [by destruct (required f)|..];
    unfold pydantic_conv; simpl; (destruct (validate_python _ _ _); done).
Qed.

(** A loop of such steps: outcomes in order, errors concatenated. *)
Lemma rfold_judged {A} (name : A -> str) (j : A -> result (value + list error)) (l : list A) st0 os :
  Forall2 (fun a o => j a = Ok o) l os ->
  rfold (fun st a => let! o := j a in Ok (record_judgement st (name a) o)) st0 l
  = Ok (foldl (fun st ao => record_judgement st (name ao.1) ao.2) st0 (zip l os)).
Proof.
  intros H. revert st0. induction H as [|a o l os Ha _ IH]; intros st0; simpl; [done|].
  rewrite Ha. simpl. apply IH.
Qed.

Lemma recorded_errors {A} (name : A -> str) (l : list (A * (value + list error))) st0 :
  (foldl (fun st ao => record_judgement st (name ao.1) ao.2) st0 l).2 = st0.2 ++ concat ((fun ao => errors_in ao.2) <$> l).
Proof.
  revert st0. induction l as [|[a o] l IH]; intros st0; simpl; [by rewrite app_nil_r|].
  rewrite IH. destruct o; simpl; by rewrite <-?app_assoc.
Qed.

Lemma recorded_other {A} (name : A -> str) (l : list (A * (value + list error))) st0 k :
  k ∉ (fun ao => name ao.1) <$> l ->
  dict_get (foldl (fun st ao => record_judgement st (name ao.1) ao.2) st0 l).1 k = dict_get st0.1 k.
Proof.
  revert st0. induction l as [|[a o] l IH]; intros st0 Hk; simpl; [done|].
  rewrite fmap_cons in Hk. apply not_elem_of_cons in Hk as [Hne Hk]. simpl in *.
  rewrite IH by done. destruct o; simpl; [|done]. by apply dict_get_set_ne.
Qed.

Lemma recorded_value {A} (name : A -> str) (l : list (A * (value + list error))) st0 i a o :
  NoDup ((fun ao => name ao.1) <$> l) -> l !! i = Some (a, o) -> dict_get st0.1 (name a) = None ->
  dict_get (foldl (fun st ao => record_judgement st (name ao.1) ao.2) st0 l).1 (name a) = value_of o.
Proof.
  revert st0 i. induction l as [|[a' o'] l IH]; intros st0 [|i] Hnd Hi H0; csimpl in *; simplify_eq;
    apply NoDup_cons in Hnd as [Hnin Hnd].
  - rewrite recorded_other by done. destruct o; simpl; [apply dict_get_set_eq | done].
  - apply (IH _ i); [done..|]. destruct o'; simpl; [|done]. rewrite dict_get_set_ne; [done|].
    intros E. apply Hnin. rewrite E. apply (list_elem_of_fmap_2' _ l (a, o)); [by eapply list_elem_of_lookup_2|done].
Qed.

Lemma recorded_wf {A} (name : A -> str) (l : list (A * (value + list error))) st0 :
  dict_wf st0.1 -> dict_wf (foldl (fun st ao => record_judgement st (name ao.1) ao.2) st0 l).1.
Proof.
  revert st0. induction l as [|[a o] l IH]; intros st0 H0; simpl; [done|].
  apply IH. destruct o; simpl; auto with astra.
Qed.
End judgement.

(** ** From the specifications to the values *)

(** The key under which the core stores a parameter, and its default. *)
Definition core_key (lf : str * ModelField) : str :=
  if bool_decide (lf.1 = $"cookie") then text_or (Some (get_validation_alias lf.2)) (field_name lf.2) else field_name lf.2.

Definition core_default (lf : str * ModelField) : value :=
  if bool_decide (lf.1 = $"path") then VNone else spec_default lf.2.

Definition spec_matches (lf : str * ModelField) (s : field_spec) : Prop :=
  fs_location s = lf.1 ∧ fs_alias s = get_validation_alias lf.2 ∧ fs_name s = core_key lf ∧ fs_default s = core_default lf.

Lemma omap_specs (loc : str) (spec : ModelField -> option field_spec) fs :
  (∀ f, is_model_field f = false -> ∃ s, spec f = Some s ∧ spec_matches (loc, f) s) ->
  Forall (fun f => is_model_field f = false) fs ->
  Forall2 spec_matches ((fun f => (loc, f)) <$> fs) (omap spec fs).
Proof.
  intros Hspec H. induction H as [|f fs Hf _ IH]; csimpl; [constructor|].
  destruct (Hspec f Hf) as (s & -> & Hs). by constructor.
Qed.

(** Without models there is one specification per parameter, in order. *)
Lemma specs_of_params d eo :
  model_param_info (params d) = [] ->
  param_info (params d) = located (params d) ∧ Forall2 spec_matches (param_info (params d)) (_build_field_specs d eo).
Proof.
  intros Hm.
  assert (Hall : Forall (fun lf => is_model_field lf.2 = false) (located (params d))).
  { apply Forall_forall. intros lf Hlf. destruct (is_model_field lf.2) eqn:E; [|done].
    assert (lf ∈ model_param_info (params d)) as Hin by (apply list_elem_of_filter; done).
    rewrite Hm in Hin. by apply not_elem_of_nil in Hin. }
  assert (Hp : param_info (params d) = located (params d)).
  { unfold param_info. clear Hm. induction Hall as [|lf l Hlf _ IH]; [done|].
    rewrite filter_cons_True by done. by rewrite IH. }
  split; [done|]. rewrite Hp. unfold located in *. rewrite !Forall_app, !Forall_fmap in Hall.
  destruct Hall as (Hq & Hh & Hc & _). unfold _build_field_specs.
  repeat apply Forall2_app.
  - apply omap_specs; [|done]. intros f Hf. unfold query_spec. rewrite Hf. by eexists.
  - apply omap_specs; [|done]. intros f Hf. unfold header_spec. rewrite Hf. by eexists.
  - apply omap_specs; [|done]. intros f Hf. unfold cookie_spec. rewrite Hf. by eexists.
  - apply Forall2_fmap_l, Forall2_fmap_r, Forall_Forall2_diag, Forall_forall. done.
Qed.

Lemma specs_names d eo :
  model_param_info (params d) = [] -> fs_name <$> _build_field_specs d eo = core_key <$> param_info (params d).
Proof.
  intros Hm. destruct (specs_of_params d eo Hm) as [_ Hspecs].
  induction Hspecs as [|lf s l l' (_ & _ & E & _) _ IH]; [done|]. csimpl. by rewrite E, IH.
Qed.

(** A value as it is kept: [None] is not stored. *)
Definition kept (v : value) : option value := match v with VNone => None | v => Some v end.

Lemma opt_kept v : opt_value (kept v) = v.
Proof. by destruct v. Qed.

(** What the core holds for a field: the value it extracted, or the default. *)
Definition stored (ext : field_spec -> value) (s : field_spec) : value :=
  match ext s with VNone => fs_default s | v => v end.

Section core.
Context (ext : field_spec -> value).

Lemma core_store_other specs d k :
  k ∉ fs_name <$> specs -> dict_get (foldl (core_store ext) d specs) k = dict_get d k.
Proof.
  revert d. induction specs as [|s specs IH]; intros d Hk; csimpl in *; [done|].
  apply not_elem_of_cons in Hk as [Hne Hk]. rewrite IH by done.
  unfold core_store. destruct (ext s); [done|by apply dict_get_set_ne..].
Qed.

Lemma core_store_value specs d i s :
  NoDup (fs_name <$> specs) -> specs !! i = Some s -> dict_get d (fs_name s) = None ->
  dict_get (foldl (core_store ext) d specs) (fs_name s) = kept (ext s).
Proof.
  revert d i. induction specs as [|s' specs IH]; intros d [|i] Hnd Hi Hd; csimpl in *; simplify_eq;
    apply NoDup_cons in Hnd as [Hnin Hnd].
  - rewrite core_store_other by done. unfold core_store.
    destruct (ext s) eqn:E; rewrite ?Hd, ?dict_get_set_eq; done.
  - apply (IH _ i); [done..|]. unfold core_store. rewrite <-Hd.
    assert (fs_name s' ≠ fs_name s).
    { intros E. apply Hnin. rewrite E. apply list_elem_of_fmap_2. by eapply list_elem_of_lookup_2. }
    destruct (ext s'); [done|by apply dict_get_set_ne..].
Qed.

Lemma fill_default_other specs d k :
  k ∉ fs_name <$> specs -> dict_get (foldl fill_default d specs) k = dict_get d k.
Proof.
  revert d. induction specs as [|s specs IH]; intros d Hk; csimpl in *; [done|].
  apply not_elem_of_cons in Hk as [Hne Hk]. rewrite IH by done.
  unfold fill_default. destruct (fs_default s); [done|rewrite dict_get_setdefault, decide_False by done; done..].
Qed.

Lemma fill_default_value specs d i s :
  NoDup (fs_name <$> specs) -> specs !! i = Some s ->
  dict_get (foldl fill_default d specs) (fs_name s)
  = match dict_get d (fs_name s) with Some v => Some v | None => kept (fs_default s) end.
Proof.
  revert d i. induction specs as [|s' specs IH]; intros d [|i] Hnd Hi; csimpl in *; simplify_eq;
    apply NoDup_cons in Hnd as [Hnin Hnd].
  - rewrite fill_default_other by done. unfold fill_default, kept.
    destruct (fs_default s); [by destruct (dict_get d (fs_name s))|..];
      rewrite dict_get_setdefault, decide_True by done; unfold dict_getdefault; by destruct (dict_get d (fs_name s)).
  - rewrite (IH _ i) by done. unfold fill_default.
    assert (fs_name s' ≠ fs_name s).
    { intros E. apply Hnin. rewrite E. apply list_elem_of_fmap_2. by eapply list_elem_of_lookup_2. }
    destruct (fs_default s'); [done|rewrite dict_get_setdefault, decide_False by done; done..].
Qed.

Lemma core_kwargs_value specs d i s :
  NoDup (fs_name <$> specs) -> specs !! i = Some s -> dict_get d (fs_name s) = None ->
  dict_get (core_kwargs ext d specs) (fs_name s) = kept (stored ext s).
Proof.
  intros Hnd Hi Hd. unfold core_kwargs, stored.
  rewrite (fill_default_value _ _ i), (core_store_value _ _ i) by done. by destruct (ext s).
Qed.

Lemma core_kwargs_other specs d k :
  k ∉ fs_name <$> specs -> dict_get (core_kwargs ext d specs) k = dict_get d k.
Proof. intros Hk. unfold core_kwargs. by rewrite fill_default_other, core_store_other. Qed.

Lemma core_kwargs_wf specs d : dict_wf d -> dict_wf (core_kwargs ext d specs).
Proof.
  assert (Hs : ∀ l d, dict_wf d -> dict_wf (foldl (core_store ext) d l)).
  { induction l as [|s l IH]; intros d0 H0; simpl; [done|]. apply IH. unfold core_store.
    destruct (ext s); auto with astra. }
  assert (Hf : ∀ l d, dict_wf d -> dict_wf (foldl fill_default d l)).
  { induction l as [|s l IH]; intros d0 H0; simpl; [done|]. apply IH. unfold fill_default.
    destruct (fs_default s); auto with astra. }
  unfold core_kwargs. auto.
Qed.
End core.

(** No name or alias of a parameter is the key of another one, or one of the
    keys that carry no parameter. *)
Definition keys_apart (l : list (str * ModelField)) (d : kwargs) : Prop :=
  NoDup (core_key <$> l)
  ∧ (∀ lf lf', lf ∈ l -> lf' ∈ l -> core_key lf' ∈ names_of_field lf.2 -> lf' = lf)
  ∧ (∀ lf k, lf ∈ l -> k ∈ names_of_field lf.2 -> dict_get d k = None ∧ k ∉ injected_keys).

Lemma core_key_own lf : core_key lf ∈ names_of_field lf.2.
Proof.
  unfold core_key, names_of_field, text_or. case_bool_decide; [|set_solver].
  destruct (get_validation_alias lf.2); set_solver.
Qed.

(** The value is found where the core put it. *)
Lemma find_value_stored kd lf v :
  dict_get kd (core_key lf) = kept v ->
  (∀ k, k ∈ names_of_field lf.2 -> k ≠ core_key lf -> dict_get kd k = None) ->
  find_value kd lf.1 lf.2 = v.
Proof.
  intros Hv Ho. pose proof (core_key_own lf) as Hown. unfold names_of_field, find_value in *.
  set (al := get_validation_alias lf.2) in *. set (nm := field_name lf.2) in *.
  assert (Hk : ∀ k, k = al ∨ k = nm -> opt_value (dict_get kd k) = if decide (k = core_key lf) then v else VNone).
  { intros k Hk. case_decide as E; [by rewrite E, Hv, opt_kept|]. rewrite Ho; [done| |done].
    destruct Hk; set_solver. }
  destruct (bool_decide (lf.1 = $"query") || bool_decide (lf.1 = $"cookie"));
    rewrite !Hk by auto; apply list_elem_of_In in Hown; simpl in Hown;
    repeat case_decide; repeat case_bool_decide; destruct v; try done; intuition congruence.
Qed.

Lemma pop_keys_get ks kd k : dict_wf kd -> k ∉ ks -> dict_get (pop_keys ks kd) k = dict_get kd k.
Proof.
  unfold pop_keys. revert kd. induction ks as [|k' ks IH]; intros kd Hwf Hk; simpl; [done|].
  apply not_elem_of_cons in Hk as [Hne Hk]. rewrite IH by auto with astra.
  rewrite dict_get_del by done. by rewrite decide_False.
Qed.

(** ** Conversions that return *)
Definition infinite (v : value) : bool := match v with VFloat (Infinite _) => true | _ => false end.

Lemma py_int_error s e : py_int s = Raise e -> conversion_error e = true.
Proof.
  unfold py_int. destruct (int_sign (strip s)) as [neg u]. repeat case_match; intros; simplify_eq; done.
Qed.

Lemma float_of_str_error s e : float_of_str s = Raise e -> conversion_error e = true.
Proof.
  unfold float_of_str. destruct (int_sign (strip s)) as [neg u]. repeat case_match; intros; simplify_eq; done.
Qed.

Lemma int_of_value_error v e : infinite v = false -> int_of_value v = Raise e -> conversion_error e = true.
Proof.
  destruct v as [| | | | |x| | | | | | | |]; simpl; intros Hv; intros; simplify_eq; eauto using py_int_error.
  destruct x; simpl in *; repeat case_match; simplify_eq; done.
Qed.

Lemma float_of_value_error v e : float_of_value v = Raise e -> conversion_error e = true.
Proof. destruct v; simpl; intros; simplify_eq; eauto using float_of_str_error. Qed.

Lemma coerced_returns {A} (mk : A -> value) r err :
  (∀ e, r = Raise e -> conversion_error e = true) -> (∃ o, err = Ok o) -> ∃ o, coerced mk r err = Ok o.
Proof. intros He [o ->]. destruct r as [a|e]; simpl; [by eexists|]. rewrite (He e) by done. by eexists. Qed.

Lemma fast_conv_returns ad lf v : infinite v = false -> ∃ o, fast_conv ad lf v = Ok o.
Proof.
  intros Hv. unfold fast_conv.
  assert (∃ c, fast_coerce ad (schema_type (ad_schema ad lf.2)) v = Ok c) as [c ->].
  { unfold fast_coerce. destruct (_ && _).
    { apply coerced_returns; [|by eexists]. intros e. by apply int_of_value_error. }
    destruct (_ && _).
    { apply coerced_returns; [|by eexists]. intros e. by apply float_of_value_error. }
    destruct (_ && _); [|by eexists]. destruct v; try (by eexists). destruct (bool_words s); by eexists. }
  simpl. by eexists.
Qed.

(** Validation either accepts a value or lists errors. *)
Definition only_validation_errors (pd : Pydantic) : Prop :=
  ∀ f v, match validate_python pd f v with Valid _ | Invalid _ => True | _ => False end.

Lemma pydantic_conv_returns ad lf v : only_validation_errors (ad_pydantic ad) -> ∃ o, pydantic_conv ad lf v = Ok o.
Proof. intros H. unfold pydantic_conv. specialize (H lf.2 v). destruct (validate_python _ _ _); try done; by eexists. Qed.

(** The conversion a route uses. *)
Definition route_conv (ad : Adapters) (p : DepParams) : converter :=
  if all_trivial ad p then fast_conv ad else pydantic_conv ad.

Lemma judge_returns ad p lf v :
  only_validation_errors (ad_pydantic ad) -> infinite v = false -> ∃ o, judge (route_conv ad p) lf v = Ok o.
Proof.
  intros Hp Hv. unfold judge, route_conv.
  destruct v; try (by eexists); destruct (all_trivial ad p); auto using fast_conv_returns, pydantic_conv_returns.
Qed.

(** ** The whole route *)
Section route.
Context (ad : Adapters) (d : Dependant) (eo : option Dependant) (ext : field_spec -> value) (d0 : kwargs).

Local Abbreviation p := (params d).
Local Abbreviation specs := (_build_field_specs d eo).
Local Abbreviation kd := (core_kwargs ext d0 specs).

(** Every parameter is found. *)
Lemma route_finds :
  model_param_info p = [] -> keys_apart (param_info p) d0 -> dict_wf d0 ->
  Forall2 (fun lf s => find_value kd lf.1 lf.2 = stored ext s ∧ find_value (pop_keys injected_keys kd) lf.1 lf.2 = stored ext s)
    (param_info p) specs.
Proof.
  intros Hm (Hnd & Hown & Hd0) Hwf. destruct (specs_of_params d eo Hm) as [_ Hspecs].
  pose proof (specs_names d eo Hm) as Hnames.
  apply Forall2_same_length_lookup_2; [by eapply Forall2_length|]. intros i lf s Hlf Hs.
  destruct (Forall2_lookup_lr _ _ _ _ _ _ Hspecs Hlf Hs) as (_ & _ & Hname & _).
  assert (Hin : lf ∈ param_info p) by (by eapply list_elem_of_lookup_2).
  assert (Hget : dict_get kd (core_key lf) = kept (stored ext s)).
  { rewrite <-Hname. apply (core_kwargs_value _ _ _ i); [by rewrite Hnames|done|].
    rewrite Hname. by apply (Hd0 lf), core_key_own. }
  assert (Hoth : ∀ k, k ∈ names_of_field lf.2 -> k ≠ core_key lf -> dict_get kd k = None).
  { intros k Hk Hne. rewrite core_kwargs_other; [by apply (Hd0 lf)|]. rewrite Hnames.
    intros (lf' & -> & Hin')%list_elem_of_fmap. apply Hne. by rewrite (Hown lf lf'). }
  assert (Hwf' : dict_wf kd) by (by apply core_kwargs_wf).
  assert (Hpop : ∀ k, k ∈ names_of_field lf.2 -> dict_get (pop_keys injected_keys kd) k = dict_get kd k).
  { intros k Hk. apply pop_keys_get; [done|]. by apply (Hd0 lf). }
  split; apply find_value_stored; [done|done|by rewrite Hpop by apply core_key_own|].
  intros k Hk Hne. rewrite Hpop by done. auto.
Qed.

(** Both loops, from what is found to the outcomes. *)
Lemma loop_judged kd' conv step :
  (∀ st lf, step st lf = let! o := judge conv lf (find_value kd' lf.1 lf.2) in Ok (record_judgement st (field_name lf.2) o)) ->
  (∀ lf s, s ∈ specs -> ∃ o, judge conv lf (stored ext s) = Ok o) ->
  Forall2 (fun lf s => find_value kd' lf.1 lf.2 = stored ext s) (param_info p) specs ->
  ∃ os, Forall2 (fun ls o => judge conv ls.1 (stored ext ls.2) = Ok o) (zip (param_info p) specs) os
    ∧ rfold step ([], []) (param_info p)
      = Ok (foldl (fun st ao => record_judgement st (field_name ao.1.2) ao.2) ([], []) (zip (param_info p) os)).
Proof.
  intros Hstep Hret Hfind.
  assert (∃ os, Forall2 (fun ls o => judge conv ls.1 (stored ext ls.2) = Ok o) (zip (param_info p) specs) os
            ∧ Forall2 (fun lf o => judge conv lf (find_value kd' lf.1 lf.2) = Ok o) (param_info p) os) as (os & Ho & Hj).
  { clear -Hret Hfind. induction Hfind as [|lf s l l' E Hf IH]; [by exists []|].
    destruct IH as (os & Ho & Hj); [intros; apply Hret; set_solver|].
    destruct (Hret lf s) as [o E']; [set_solver|]. exists (o :: os). split; constructor; simpl; [done..| |done].
    by rewrite E. }
  exists os. split; [done|]. erewrite rfold_ext by (intros; apply Hstep).
  by rewrite (rfold_judged (fun lf => field_name lf.2) _ _ _ _ Hj).
Qed.

(** The two validators run one of the loops. *)
Lemma judged_run run :
  model_param_info p = [] -> _make_param_validator ad p = Some run ->
  Forall2 (fun lf s => find_value kd lf.1 lf.2 = stored ext s ∧ find_value (pop_keys injected_keys kd) lf.1 lf.2 = stored ext s)
    (param_info p) specs ->
  only_validation_errors (ad_pydantic ad) -> (∀ s, s ∈ specs -> infinite (stored ext s) = false) ->
  ∃ r os, run kd = Ok r
    ∧ Forall2 (fun ls o => judge (route_conv ad p) ls.1 (stored ext ls.2) = Ok o) (zip (param_info p) specs) os
    ∧ (vd_values r, vd_errors r)
      = foldl (fun st ao => record_judgement st (field_name ao.1.2) ao.2) ([], []) (zip (param_info p) os).
Proof.
  intros Hm Hrun Hfind Hp Hinf. unfold _make_param_validator in Hrun.
  destruct (located p) as [|lf0 lfs]; [done|]. simplify_eq.
  assert (Hret : ∀ lf s, s ∈ specs -> ∃ o, judge (route_conv ad p) lf (stored ext s) = Ok o) by auto using judge_returns.
  unfold route_conv in *. destruct (all_trivial ad p).
  - destruct (loop_judged kd _ (fast_step ad kd) (fast_step_judges ad kd) Hret) as (os & Hos & E).
    { eapply Forall2_impl; [exact Hfind|]. by intros ?? [? _]. }
    unfold _fast_validate. rewrite E. simpl. eexists _, os. split_and!; [done|done|]. by destruct (foldl _ _ _).
  - destruct (loop_judged (pop_keys injected_keys kd) _ (validate_step ad _) (validate_step_judges ad _) Hret) as (os & Hos & E).
    { eapply Forall2_impl; [exact Hfind|]. by intros ?? [_ ?]. }
    unfold _validate. rewrite E. simpl. rewrite Hm. simpl. eexists _, os. split_and!; [done|done|]. by destruct (foldl _ _ _).
Qed.

(** A route whose parameters are not models is validated one parameter at a
    time, when no name or alias of a parameter is the key of another: the
    validator returns, the errors are those of the parameters in their order,
    and the values are those of the judgements on what the core extracted. *)
Lemma route_run run :
  model_param_info p = [] -> keys_apart (param_info p) d0 -> dict_wf d0 ->
  NoDup ((fun lf => field_name lf.2) <$> param_info p) ->
  only_validation_errors (ad_pydantic ad) -> (∀ s, s ∈ specs -> infinite (stored ext s) = false) ->
  _make_param_validator ad p = Some run ->
  ∃ r os, run kd = Ok r
    ∧ Forall2 (fun ls o => judge (route_conv ad p) ls.1 (stored ext ls.2) = Ok o) (zip (param_info p) specs) os
    ∧ vd_errors r = concat (errors_in <$> os)
    ∧ Forall2 (fun lf o => dict_get (vd_values r) (field_name lf.2) = value_of o) (param_info p) os
    ∧ (∀ k, k ∉ (fun lf => field_name lf.2) <$> param_info p -> dict_get (vd_values r) k = None)
    ∧ dict_wf (vd_values r).
Proof.
  intros Hm Hk Hwf Hnd Hp Hinf Hrun. pose proof (route_finds Hm Hk Hwf) as Hfind.
  destruct (judged_run run Hm Hrun Hfind) as (r & os & Hr & Hos & Hst); [done..|].
  assert (Hlen : length os = length (param_info p)).
  { apply Forall2_length in Hos, Hfind. rewrite length_zip in Hos. lia. }
  pose proof (f_equal fst Hst) as Hvals. pose proof (f_equal snd Hst) as Herrs. simpl in Hvals, Herrs.
  pose proof (list_fmap_compose fst (fun lf : str * ModelField => field_name lf.2) (zip (param_info p) os)) as E.
  unfold compose in E. rewrite fst_zip in E by lia.
  exists r, os. split_and!; [done|done| | | |].
  - rewrite Herrs, (recorded_errors (fun lf => field_name lf.2)). simpl. f_equal.
    rewrite <-(snd_zip (param_info p) os) at 2 by lia. by rewrite <-list_fmap_compose.
  - apply Forall2_same_length_lookup_2; [done|]. intros i lf o Hlf Ho. rewrite Hvals.
    apply (recorded_value (fun lf => field_name lf.2) _ _ i); [by rewrite E|by apply lookup_zip_Some|done].
  - intros k Hk'. rewrite Hvals. apply (recorded_other (fun lf => field_name lf.2)). by rewrite E.
  - rewrite Hvals. apply (recorded_wf (fun lf => field_name lf.2)), NoDup_nil_2.
Qed.
End route.

(** ** Concrete routes *)
Module SampleRoute.
(** The schema Pydantic builds for the annotations below. *)
Definition schema_for (a : ann) : schema :=
  match a with
  | Cls IntC => SNode $"int" [$"type"] None
  | Cls BoolC => SNode $"bool" [$"type"] None
  | Cls StrC => SNode $"str" [$"type"] None
  | Generic ListC [Cls IntC] => SNode $"list" [$"type"; $"items_schema"] (Some (SNode $"int" [$"type"] None))
  | _ => NoSchema
  end.

(** A field with a default has a schema of its own kind. *)
Definition schema_of (f : ModelField) : schema :=
  match fi_default (field_info f) with
  | None => schema_for (type_ f)
  | Some _ => SNode $"default" [$"type"; $"schema"; $"default"] (Some (schema_for (type_ f)))
  end.

(** Integers and lists of integers are parsed, texts have two characters. *)
Definition check_int (v : value) : option value :=
  match v with VStr s => match py_int s with Ok z => Some (VInt z) | Raise _ => None end | VInt _ => Some v | _ => None end.

Definition too_short : error := mkError $"string_too_short" [] $"String should have at least 2 characters" VNone.

Definition check (f : ModelField) (v : value) : validation :=
  match type_ f, v with
  | Cls IntC, _ =>
      match check_int v with Some v' => Valid v' | None => Invalid [mkError $"int_parsing" [] $"not an integer" v] end
  | Generic ListC [Cls IntC], VSeq KList l =>
      match mapM check_int l with Some l' => Valid (VSeq KList l') | None => Invalid [mkError $"int_parsing" [] $"not an integer" v] end
  | Cls StrC, VStr s => if bool_decide (2 ≤ length s)%nat then Valid v else Invalid [too_short]
  | _, _ => Valid v
  end.

Definition program : Program :=
  mkProgram (fun _ => Function Sync) (fun _ => []) (fun _ => []) (fun _ => 0) (fun _ => []) true.

Definition adapters : Adapters :=
  mkAdapters (mkPydantic check (fun _ => None)) program schema_of
    (fun v => match v with VStr s => s | _ => [] end) (fun _ => Ok []) no_context.

Definition field (c : info_class) (a : ann) (dflt : option value) (al : option str) (name : string) : ModelField :=
  mkField (mkInfo c None a dflt al None None None false) ($name).

Definition item_id : ModelField := field PathI (Cls IntC) None None "item_id".
Definition skip : ModelField := field QueryI (Cls IntC) None None "skip".
Definition ids : ModelField := field QueryI (Generic ListC [Cls IntC]) None None "ids".
Definition flag : ModelField := field QueryI (Cls BoolC) None None "flag".
Definition mode : ModelField := field QueryI (Cls StrC) (Some (VStr $"x")) None "mode".
Definition q : ModelField := field QueryI (Cls StrC) (Some VNone) (Some $"item_id") "q".

Definition route (query : list ModelField) : Dependant :=
  mkDependant (mkDepInfo None 1 None None true [] None) (mkParams [item_id] query [] [] []) no_names [].

(** What the core extracts: a value per name. *)
Definition extracted (found : kwargs) (s : field_spec) : value := opt_value (dict_get found (fs_name s)).

Definition validate (query : list ModelField) (found : kwargs) : option (kwargs * list error) :=
  match _make_param_validator adapters (params (route query)) with
  | Some run =>
      match run (core_kwargs (extracted found) [] (_build_field_specs (route query) None)) with
      | Ok r => Some (vd_values r, vd_errors r)
      | Raise _ => None
      end
  | None => None
  end.

Lemma adapters_only_validate : only_validation_errors (ad_pydantic adapters).
Proof. intros f v. simpl. unfold check. repeat case_match; done. Qed.
End SampleRoute.

Import SampleRoute.

(** A list of integers is trivial by its items, and no item is converted: the
    endpoint gets texts. *)
Example list_items_unconverted :
  validate [ids] [($"item_id", VStr $"5"); ($"ids", VSeq KList [VStr $"1"; VStr $"x"])]
  = Some ([($"ids", VSeq KList [VStr $"1"; VStr $"x"]); ($"item_id", VInt 5)], []).
Proof. vm_compute. reflexivity. Qed.

(** A query parameter that is absent takes the value of the path parameter its
    alias names. *)
Example absent_query_reads_path :
  validate [q] [($"item_id", VStr $"42")] = Some ([($"q", VStr $"42"); ($"item_id", VInt 42)], []).
Proof. vm_compute. reflexivity. Qed.

(** The default of an absent parameter is validated, and can be refused. *)
Example absent_default_refused :
  validate [mode] [($"item_id", VStr $"5")]
  = Some ([($"item_id", VInt 5)], [mkError $"string_too_short" [$"query"; $"mode"] $"String should have at least 2 characters" VNone]).
Proof. vm_compute. reflexivity. Qed.

(** The short validator knows eight words for booleans. *)
Example short_boolean_words :
  validate [flag] [($"item_id", VStr $"5"); ($"flag", VStr $"t")]
  = Some ([($"item_id", VInt 5)],
          [mkError $"bool_parsing" [$"query"; $"flag"] $"Input should be a valid boolean, unable to interpret input" (VStr $"t")]).
Proof. vm_compute. reflexivity. Qed.
