(* ===== verification/ParamShims.v ===== *)
(** * ParamShims: the wrappers around endpoints on the compiled server

    [applications.py] registers with the core not the endpoint of a route but a
    wrapper: [_make_param_validation_shim] validates the parameters,
    [_make_fast_dep_shim] does so when the core has resolved the dependencies,
    [_make_response_model_shim] serializes the result with the response model,
    and [_make_asgi_route_shim] runs the ASGI application of a route class of
    the user.  User code, Pydantic and serialization are parameters. *)

From S2P Require Import Prelude PyStr Asgi DataStructures MutableHeaders Responses StaticFiles ExceptionHandler Convertors HttpWire.
From S2P Require Import Annotations Dependants ParamArgs FastDeps DepResolve ParamValidator ParamValidatorFacts.

(** ** Exceptions *)
Inductive raised : Type :=
  | Raised (e : exn)
  | InvalidRequest (errors : list error) (body : value)
  | InvalidResponse (errors : list error).

Definition raised_mro (x : raised) : list str :=
  match x with
  | Raised e => exn_mro e
  | InvalidRequest _ _ => $"RequestValidationError" :: $"ValidationException" :: base_mro
  | InvalidResponse _ => $"ResponseValidationError" :: $"ValidationException" :: base_mro
  end.

Definition instance_of (x : raised) (cls : str) : bool := bool_decide (cls ∈ raised_mro x).

(** [raise] of what a helper raises *)
Definition lift_result {A} (r : result A) : A + raised := match r with Ok a => inl a | Raise e => inr (Raised e) end.

Section shims.
(** What endpoints and handlers return. *)
Context {R : Type} (ad : Adapters) (root_path : str).

Record Route : Type := mkRoute {
  r_dependant : Dependant;
  r_flat : option Dependant;
  r_handlers : list (str * (Scope -> raised -> R + raised));
  r_endpoint : kwargs -> R + raised
}.

(** The endpoint's calls, in order, and what the wrapper returns or raises. *)
Abbreviation shim_run := (list kwargs * (R + raised))%type.

(** The first handler, in the order of registration, for a class the exception
    is an instance of.  It gets a request that is not the one that failed. *)
Fixpoint first_handler (hs : list (str * (Scope -> raised -> R + raised))) (x : raised) : option (Scope -> raised -> R + raised) :=
  match hs with
  | [] => None
  | (cls, h) :: hs' => if instance_of x cls then Some h else first_handler hs' x
  end.

Definition handler_request : result Scope :=
  _make_lightweight_request root_path true false (ad_context ad) None $"GET" $"/".

Definition handle (hs : list (str * (Scope -> raised -> R + raised))) (x : raised) : R + raised :=
  match first_handler hs x with
  | None => inr x
  | Some h => match lift_result handler_request with inl sc => h sc x | inr y => inr y end
  end.

(** [try: return endpoint(...) except Exception: ...] *)
Definition call_endpoint (r : Route) (kw : kwargs) : R + raised :=
  match r_endpoint r kw with
  | inl v => inl v
  | inr x => if instance_of x $"Exception" then handle (r_handlers r) x else inr x
  end.

(** [exc.body]: the first body parameter, or all of them. *)
Definition error_body (bp : list ModelField) (kw : kwargs) : value :=
  match bp with
  | [] => VNone
  | f :: bp' =>
      match opt_value (dict_get kw (field_name f)), bp' with
      | VNone, _ :: _ =>
          VDict (foldl (fun d g => match dict_get kw (field_name g) with Some v => dict_set d (field_name g) v | None => d end) [] bp)
      | v, _ => v
      end
  end.

(** The validated arguments for the call, or the validation error. *)
Definition validated_call (r : Route) (d : Dependant) (call : kwargs -> R + raised) (validator : kwargs -> result validated)
    (kw : kwargs) : shim_run :=
  match validator kw with
  | Raise e => ([], inr (Raised e))
  | Ok v =>
      match vd_errors v with
      | [] =>
          let kw' := dict_update (pop_keys (vd_consumed v) (vd_kwargs v)) (vd_values v) in ([kw'], call kw')
      | errors => ([], handle (r_handlers r) (InvalidRequest errors (error_body (body_params (params d)) (vd_kwargs v))))
      end
  end.

Definition flat_of (r : Route) : Dependant := get_or (r_flat r) (r_dependant r).

(** Without parameters the endpoint is registered as it is. *)
Definition _make_param_validation_shim (r : Route) (kw : kwargs) : shim_run :=
  match _make_param_validator ad (params (flat_of r)) with
  | None => ([kw], r_endpoint r kw)
  | Some validator => validated_call r (flat_of r) (call_endpoint r) validator kw
  end.

(** *** Dependencies resolved by the core *)
Definition _META_KEYS : list str :=
  [$"__raw_headers__"; $"__method__"; $"__path__"; $"__auth_scheme__"; $"__auth_credentials__"; $"__body__"; $"__content_type__";
   $"__deps_ran__"; $"__bg_tasks__"; $"__exit_stack__"; $"__gen_deps_ran__"].

(** [model_dump_json(by_alias=True)] of a result that has it; the result itself
    is returned when it fails. *)
Definition dump_answer (has_response_model : bool) (dump : R -> option (result R)) (r : Route) (kw : kwargs) : R + raised :=
  match r_endpoint r kw with
  | inr x => if instance_of x $"Exception" then handle (r_handlers r) x else inr x
  | inl v =>
      match has_response_model, dump v with
      | true, Some (Ok j) => inl j
      | true, Some (Raise e) => if isinstance e $"Exception" then inl v else inr (Raised e)
      | _, _ => inl v
      end
  end.

Definition _make_fast_dep_shim (has_response_model : bool) (dump : R -> option (result R)) (r : Route) (kw : kwargs) : shim_run :=
  let kw := pop_keys _META_KEYS kw in
  match _make_param_validator ad (params (r_dependant r)) with
  | None => ([kw], dump_answer has_response_model dump r kw)
  | Some validator => validated_call r (r_dependant r) (dump_answer has_response_model dump r) validator kw
  end.

(** *** Response models *)
Record ResponseModel : Type := mkModel {
  (** the class's own serializer, when there are no options and the result is of exactly this class *)
  rm_fast : R -> option (result R);
  rm_is_response : R -> bool;
  rm_validate : R -> result (R * list error);
  rm_serialize : R -> result R;
  (** the result as the input of an error *)
  rm_input : R -> value;
  rm_message : exn -> str
}.

(** [except (TypeError, AttributeError)] *)
Definition serialization_error (e : exn) : bool := isinstance e $"TypeError" || isinstance e $"AttributeError".

Definition response_value (m : ResponseModel) (raw : R) : R + raised :=
  if rm_is_response m raw then inl raw
  else
    match rm_validate m raw with
    | Raise e => inr (Raised e)
    | Ok (v, []) =>
        match rm_serialize m v with
        | Ok j => inl j
        | Raise e =>
            inr (if serialization_error e
                 then InvalidResponse [mkError $"response_serialization_error" [$"response"] (rm_message m e) (rm_input m raw)]
                 else Raised e)
        end
    | Ok (_, errors) => inr (InvalidResponse errors)
    end.

Definition _make_response_model_shim (m : ResponseModel) (r : Route) (kw : kwargs) : shim_run :=
  ([kw],
   match r_endpoint r kw with
   | inr x => inr x
   | inl raw =>
       match rm_fast m raw with
       | Some (Ok j) => inl j
       | Some (Raise e) => if isinstance e $"Exception" then response_value m raw else inr (Raised e)
       | None => response_value m raw
       end
   end).
End shims.
Arguments Route : clear implicits.
Arguments ResponseModel : clear implicits.

(** ** Route classes of the user *)
Section asgi.
(** [str] of a detail as JSON. *)
Context (ad : Adapters) (root_path : str) (has_app has_router : bool) (detail_json : option str -> result bytes).

(** The application, given the scope and the body its [receive] delivers. *)
Context (asgi_app : Scope -> bytes -> run).

(** [kwargs.pop(key, None) or context] *)
Definition or_headers (kw : kwargs) : raw_headers :=
  match saved_headers kw with Some ((_ :: _) as hs) => hs | _ => get_or (cx_raw_headers (ad_context ad)) [] end.
Definition value_text (v : value) (s : str) (dflt : str) : str :=
  match v with VStr ((_ :: _) as t) => t | _ => text_or (Some s) dflt end.
Definition or_body (v : value) : bytes := match v with VBytes b => b | _ => cx_body (ad_context ad) end.

(** What was sent, as a response. *)
Definition collected_response (c : collected) : result Response :=
  let! r := response (CBytes (c_body c)) (c_status c) [] None None in rfold copy_header r (c_headers c).

Definition http_error_response (status : Z) (detail : option str) (headers : option (list (str * str))) : result Response :=
  let! b := detail_json detail in
  let! r := init_response render (Some $"application/json") (CBytes b) status [] None None in
  rfold (fun r h => set_header r h.1 h.2) r (get_or headers []).

Definition asgi_scope (kw : kwargs) : result Scope :=
  let get k := opt_value (dict_get kw k) in
  let! sc := _make_lightweight_request root_path has_app has_router (ad_context ad) (Some (or_headers kw))
               (value_text (get $"__method__") (cx_method (ad_context ad)) $"GET")
               (value_text (get $"__path__") (cx_path (ad_context ad)) $"/") in
  Ok (mkScope (sc_type sc) (sc_path sc) (sc_root_path sc) (sc_app_root_path sc) (sc_method sc) (sc_scheme sc) (sc_server sc)
        (sc_client sc) (Some (cx_query_string (ad_context ad))) (sc_headers sc) (sc_path_params sc) (sc_endpoint sc) (sc_app sc)
        (sc_router sc)).

Definition _make_asgi_route_shim (kw : kwargs) : result Response :=
  let! sc := asgi_scope kw in
  let out := asgi_app sc (or_body (opt_value (dict_get kw $"__body__"))) in
  match ended out with
  | Ok _ => collected_response (foldl collect (mkCollected 200 [] []) (sent out))
  | Raise (HTTPException status detail headers) => http_error_response status detail headers
  | Raise e => Raise e
  end.
End asgi.

(** ** What the endpoint is called with *)
Section facts.
Context {R : Type} (ad : Adapters) (root_path : str) (r : Route R).

Lemma validator_rest p run kd v :
  _make_param_validator ad p = Some run -> run kd = Ok v ->
  vd_consumed v = consumed ad p ∧ (vd_kwargs v = kd ∨ vd_kwargs v = pop_keys injected_keys kd).
Proof.
  unfold _make_param_validator. destruct (located p); [done|]. intros [= <-] H.
  destruct (all_trivial ad p); inv_ok; simpl; auto.
Qed.

Lemma pop_keys_wf ks kd : dict_wf kd -> dict_wf (pop_keys ks kd).
Proof. unfold pop_keys. revert kd. induction ks; simpl; auto with astra. Qed.

Lemma pop_keys_gone ks kd k : dict_wf kd -> k ∈ ks -> dict_get (pop_keys ks kd) k = None.
Proof.
  unfold pop_keys. revert kd. induction ks as [|k' ks IH]; intros kd Hwf Hk; [by apply not_elem_of_nil in Hk|].
  simpl. destruct (decide (k ∈ ks)); [apply IH; auto with astra|].
  apply elem_of_cons in Hk as [->|]; [|done]. fold (pop_keys ks (dict_del kd k')).
  rewrite pop_keys_get by auto with astra. by rewrite dict_get_del, decide_True.
Qed.

Lemma name_consumed p lf : lf ∈ param_info p -> field_name lf.2 ∈ consumed ad p.
Proof.
  intros H. unfold consumed. apply elem_of_app. left. apply list_elem_of_bind. exists lf. split; [|done].
  unfold names_of_field. set_solver.
Qed.

Context (d : Dependant) (eo : option Dependant) (ext : field_spec -> value) (d0 : kwargs).
Local Abbreviation p := (params d).
Local Abbreviation specs := (_build_field_specs d eo).

(** The outcome of the parameters of a route on what the core extracted. *)
Definition judged (os : list (value + list error)) : Prop :=
  Forall2 (fun ls o => judge (route_conv ad p) ls.1 (stored ext ls.2) = Ok o) (zip (param_info p) specs) os.

(** What a wrapper does with such a route: one call with the values of the
    judgements and the other arguments as they were, or no call and the error. *)
Definition validated_run (call : kwargs -> R + raised) (out : list kwargs * (R + raised)) : Prop :=
  ∃ os, judged os
    ∧ match concat (errors_in <$> os) with
      | [] =>
          ∃ kw, out = ([kw], call kw)
            ∧ Forall2 (fun lf o => dict_get kw (field_name lf.2) = value_of o) (param_info p) os
            ∧ (∀ k, k ∉ consumed ad p -> k ∉ injected_keys -> dict_get kw k = dict_get d0 k)
      | errors => ∃ b, out = ([], handle ad root_path (r_handlers r) (InvalidRequest errors b))
      end.

(** Parameters that can be told apart, and adapters that only raise validation
    errors. *)
Record valid_route : Prop := mkValidRoute {
  vr_some : located p ≠ [];
  vr_plain : model_param_info p = [];
  vr_apart : keys_apart (param_info p) d0;
  vr_wf : dict_wf d0;
  vr_names : NoDup ((fun lf => field_name lf.2) <$> param_info p);
  vr_errors : only_validation_errors (ad_pydantic ad);
  vr_finite : ∀ s, s ∈ specs -> infinite (stored ext s) = false
}.

Lemma spec_consumed k : model_param_info p = [] -> k ∉ consumed ad p -> k ∉ fs_name <$> specs.
Proof.
  intros Hm Hk. rewrite specs_names by done. intros (lf & -> & Hlf)%list_elem_of_fmap. apply Hk.
  unfold consumed. apply elem_of_app. left. apply list_elem_of_bind. exists lf. split; [|done]. apply core_key_own.
Qed.

Lemma validated_call_sound call run :
  valid_route -> _make_param_validator ad p = Some run ->
  validated_run call (validated_call ad root_path r d call run (core_kwargs ext d0 specs)).
Proof.
  intros [_ Hm Hk Hwf Hnd Hp Hinf] Hrun.
  destruct (route_run ad d eo ext d0 run Hm Hk Hwf Hnd Hp Hinf Hrun) as (v & os & Hr & Hos & Herr & Hvals & Hoth & Hvwf).
  destruct (validator_rest _ _ _ _ Hrun Hr) as [Hc Hkw].
  assert (Hkwf : dict_wf (vd_kwargs v)).
  { destruct Hkw as [->| ->]; auto using pop_keys_wf, core_kwargs_wf. }
  exists os. split; [done|]. unfold validated_call. rewrite Hr, <-Herr, Hc.
  destruct (vd_errors v); [|by eexists]. eexists. split; [done|]. split.
  - apply Forall2_same_length_lookup_2; [by eapply Forall2_length|]. intros i lf o Hlf Ho.
    rewrite dict_get_update by done. rewrite (Forall2_lookup_lr _ _ _ _ _ _ Hvals Hlf Ho).
    rewrite pop_keys_gone; [by destruct o|done|]. eapply name_consumed, list_elem_of_lookup_2, Hlf.
  - intros k Hk1 Hk2. pose proof (spec_consumed k Hm Hk1). rewrite dict_get_update by done. rewrite Hoth.
    { rewrite pop_keys_get by done. destruct Hkw as [->| ->]; rewrite ?pop_keys_get, core_kwargs_other; auto using core_kwargs_wf. }
    intros (lf & -> & Hlf)%list_elem_of_fmap. by apply Hk1, name_consumed.
Qed.

Lemma valid_validator : valid_route -> ∃ run, _make_param_validator ad p = Some run.
Proof. intros [H _]. unfold _make_param_validator. destruct (located p); [done|]. by eexists. Qed.
End facts.

(** *** Keys taken out before the core's arguments are read *)
Lemma dict_del_set (kd : kwargs) k k' v : k ≠ k' -> dict_del (dict_set kd k v) k' = dict_set (dict_del kd k') k v.
Proof.
  intros Hne. induction kd as [|[k0 v0] kd IH]; simpl; repeat (case_decide; simplify_eq; simpl); try done; by rewrite IH.
Qed.

Lemma dict_del_setdefault (kd : kwargs) k k' v :
  dict_wf kd -> k ≠ k' -> dict_del (dict_setdefault kd k v) k' = dict_setdefault (dict_del kd k') k v.
Proof.
  intros Hwf Hne. unfold dict_setdefault, dict_mem. rewrite dict_get_del, decide_False by done.
  destruct (dict_get kd k); [done|by apply dict_del_set].
Qed.

Lemma core_kwargs_del ext d0 specs k :
  dict_wf d0 -> k ∉ fs_name <$> specs -> dict_del (core_kwargs ext d0 specs) k = core_kwargs ext (dict_del d0 k) specs.
Proof.
  intros Hwf Hk.
  assert (Hs : ∀ l d, k ∉ fs_name <$> l -> dict_del (foldl (core_store ext) d l) k = foldl (core_store ext) (dict_del d k) l).
  { induction l as [|s l IH]; intros d Hl; csimpl in *; [done|]. apply not_elem_of_cons in Hl as [Hne Hl].
    rewrite IH by done. f_equal. unfold core_store. destruct (ext s); [done|by rewrite dict_del_set..]. }
  assert (Hf : ∀ l d, dict_wf d -> k ∉ fs_name <$> l -> dict_del (foldl fill_default d l) k = foldl fill_default (dict_del d k) l).
  { induction l as [|s l IH]; intros d Hd Hl; csimpl in *; [done|]. apply not_elem_of_cons in Hl as [Hne Hl].
    rewrite IH; [|unfold fill_default; destruct (fs_default s); auto with astra|done].
    f_equal. unfold fill_default. destruct (fs_default s); [done|by rewrite dict_del_setdefault..]. }
  unfold core_kwargs. rewrite Hf, Hs; [done|done| |done].
  clear -Hwf. revert d0 Hwf. induction specs as [|s l IH]; intros d Hd; simpl; [done|]. apply IH. unfold core_store.
  destruct (ext s); auto with astra.
Qed.

Lemma core_kwargs_pop ext d0 specs ks :
  dict_wf d0 -> (∀ k, k ∈ ks -> k ∉ fs_name <$> specs) ->
  pop_keys ks (core_kwargs ext d0 specs) = core_kwargs ext (pop_keys ks d0) specs.
Proof.
  unfold pop_keys. revert d0. induction ks as [|k ks IH]; intros d0 Hwf Hks; simpl; [done|].
  rewrite core_kwargs_del; [|done|apply Hks; set_solver]. apply IH; [auto with astra|]. intros; apply Hks; set_solver.
Qed.

Lemma pop_keys_absent ks kd k : dict_wf kd -> dict_get kd k = None -> dict_get (pop_keys ks kd) k = None.
Proof.
  intros Hwf Hk. destruct (decide (k ∈ ks)); [by apply pop_keys_gone|by rewrite pop_keys_get].
Qed.

(** C33: The wrappers call the endpoint with validated arguments only.  For a
    route whose parameters can be told apart, on the arguments the core builds
    from the specifications of its fields: if a parameter has errors, the
    endpoint is not called and the request is answered by the handler of the
    validation error, which carries the errors of all parameters in order, or
    it is raised; otherwise the endpoint is called once, every parameter has
    the value its judgement gives (its converted value, or its default when it
    is absent), and the arguments that are no parameters are unchanged.  The
    wrapper for resolved dependencies also removes the keys of the core. *)
Theorem shims_call_validated {R} ad root_path (r : Route R) d eo ext d0 has_model dump :
  valid_route ad d eo ext d0 ->
  (flat_of r = d ->
     validated_run ad root_path r d eo ext d0 (call_endpoint ad root_path r)
       (_make_param_validation_shim ad root_path r (core_kwargs ext d0 (_build_field_specs d eo))))
  ∧ (r_dependant r = d -> (∀ k, k ∈ _META_KEYS -> k ∉ fs_name <$> _build_field_specs d eo) ->
     validated_run ad root_path r d eo ext (pop_keys _META_KEYS d0) (dump_answer ad root_path has_model dump r)
       (_make_fast_dep_shim ad root_path has_model dump r (core_kwargs ext d0 (_build_field_specs d eo)))).
Proof.
  intros Hv. destruct (valid_validator _ _ _ _ _ Hv) as [run Hrun]. split.
  - intros Hd. unfold _make_param_validation_shim. rewrite Hd, Hrun. by apply validated_call_sound.
  - intros Hd Hmeta. unfold _make_fast_dep_shim. rewrite Hd, Hrun.
    destruct Hv as [H1 H2 (Hk1 & Hk2 & Hk3) H4 H5 H6 H7]. rewrite core_kwargs_pop by done.
    apply validated_call_sound; [|done]. split; try done; [|by apply pop_keys_wf].
    split_and!; [done|done|]. intros lf k Hlf Hk. destruct (Hk3 lf k Hlf Hk). split; [by apply pop_keys_absent|done].
Qed.

(** ** Concrete routes *)
Module SampleShims.
Import SampleRoute.

Definition sample_spec (s : field_spec) : value := extracted [($"item_id", VStr $"5"); ($"skip", VStr $"7")] s.

(** Handlers answer with the path of the request they are given. *)
Definition say (text : string) : Scope -> raised -> str + raised := fun sc _ => inl ($text ++ sc_path sc).

Definition teapot : raised := Raised (HTTPException 418 None None).

Definition sample (endpoint : kwargs -> str + raised) : Route str :=
  mkRoute (route [skip]) None [($"Exception", say "general "); ($"HTTPException", say "specific ")] endpoint.

Lemma sample_valid : valid_route adapters (route [skip]) None sample_spec [].
Proof.
  split.
  - discriminate.
  - reflexivity.
  - split_and!.
    + apply (bool_decide_eq_true_1 _). vm_compute. reflexivity.
    + intros lf lf' H H'. apply list_elem_of_In in H as [<-|[<-|[]]]; apply list_elem_of_In in H' as [<-|[<-|[]]];
        intros K%list_elem_of_In; vm_compute in K; try done; destruct K as [K|[K|[]]]; discriminate K.
    + intros lf k H. apply list_elem_of_In in H as [<-|[<-|[]]];
        intros K%list_elem_of_In; vm_compute in K; destruct K as [<-|[<-|[]]];
        (split; [reflexivity | apply (bool_decide_eq_true_1 _); vm_compute; reflexivity]).
  - apply NoDup_nil_2.
  - apply (bool_decide_eq_true_1 _). vm_compute. reflexivity.
  - exact adapters_only_validate.
  - intros s H. apply list_elem_of_In in H as [<-|[<-|[]]]; reflexivity.
Qed.
End SampleShims.

Import SampleRoute SampleShims.

Lemma shims_call_validated_witness :
  let r := sample (fun _ => inl $"done") in
  let kw := core_kwargs sample_spec [] (_build_field_specs (route [skip]) None) in
  validated_run adapters [] r (route [skip]) None sample_spec [] (call_endpoint adapters [] r)
    (_make_param_validation_shim adapters [] r kw)
  ∧ _make_param_validation_shim adapters [] r kw = ([[($"skip", VInt 7); ($"item_id", VInt 5)]], inl $"done").
Proof.
  intros r kw.
  destruct (shims_call_validated adapters [] r (route [skip]) None sample_spec [] true (fun _ => None) sample_valid) as [H _].
  split; [apply H; reflexivity | vm_compute; reflexivity].
Defined.

(** The handler registered first answers, although another one is for the class
    of the exception, and its request is not the one of the client. *)
Example first_registered_handler :
  call_endpoint adapters [] (sample (fun _ => inr teapot)) [] = inl $"general /"
  ∧ _lookup_exception_handler (r_handlers (sample (fun _ => inr teapot))) (HTTPException 418 None None) = Some (say "specific ").
Proof. split; vm_compute; reflexivity. Qed.

(** A route class that sends two cookies: the wrapper keeps one of them. *)
Example asgi_shim_keeps_one_cookie :
  let app := fun _ _ => run_ok [ResponseStart 200 [($"set-cookie", $"a=1"); ($"set-cookie", $"b=2")]; ResponseBody $"ok" false] in
  _make_asgi_route_shim adapters [] true true (fun _ => Ok []) app []
  = Ok (mkResponse 200 None $"ok" [($"content-length", $"2"); ($"set-cookie", $"b=2")] None).
Proof. vm_compute. reflexivity. Qed.
