(* ===== verification/ResponseShim.v ===== *)
(** * ResponseShim: the wrapper that builds the response

    [_make_response_class_shim] of [applications.py]: around endpoints that are
    not on the short path it assembles the arguments (models, path parameters,
    background tasks, request and response objects, dependencies, body), calls
    the endpoint inside the exit stacks of its generator dependencies, runs the
    middleware, turns the result into a response and leaves the dependencies.
    Objects that are shared with the endpoint and the dependencies (responses,
    background tasks) live in a store.  User code, Pydantic, JSON and the file
    system are parameters. *)

From S2P Require Import Prelude ExitStack PyStr Asgi DataStructures MutableHeaders Responses StaticFiles ExceptionHandler Convertors HttpWire.
From S2P Require Import Annotations Dependants ParamArgs Solve FastDeps DepResolve ParamValidator ParamShims.

(** ** Leaving an exit stack *)
Section leaving.
Context {E X : Type} (exit_gen : E -> option X -> exit_result X).

(** [AsyncExitStack.__aexit__]: a callback that raises replaces the exception,
    one that returns true suppresses it; what is pending at the end is raised
    when it came from a callback. *)
Fixpoint leave (entries : list E) (pending : option X) (raising suppressed : bool) : bool + X :=
  match entries with
  | [] => match raising, pending with true, Some x => inr x | _, _ => inl suppressed end
  | e :: entries' =>
      match exit_gen e pending with
      | ExitReturns true => leave entries' None false true
      | ExitReturns false => leave entries' pending raising suppressed
      | ExitRaises x => leave entries' (Some x) true suppressed
      end
  end.

(** Its result: whether the exception received is suppressed. *)
Definition leave_stack (entered : list E) (received : option X) : bool + X :=
  match leave (reverse entered) received false false with
  | inl suppressed => inl (match received with Some _ => suppressed | None => false end)
  | inr x => inr x
  end.
End leaving.

(** ** Objects *)

(** Generator dependencies, background tasks. *)
Section shim.
Context {E T : Type}.

(** Results of endpoints: the response classes the wrapper knows, objects of
    other frameworks that have a body, and everything else. *)
Inductive returned : Type :=
  | RFile (file : str) (r : Response)
  | RStream (r : Response) (chunks : list chunk) (fin : result unit)
  | RResponse (r : Response)
  | RLike (r : Response)
  | RPlain (v : value).

Definition is_response (x : returned) : bool := match x with RFile _ _ | RStream _ _ _ | RResponse _ => true | _ => false end.

Record heap : Type := mkHeap { h_responses : list (Z * Response); h_tasks : list (Z * list T); h_next : Z }.

(** The two stacks of the dependencies, or the single one of older callers. *)
Inductive stacks : Type := Dual (function request : list E) | Single (request : list E).

(** The state: the store, the managers still on the stacks, those left so far,
    the tasks that ran, and the exception kept for the test client. *)
Record world : Type := mkWorld {
  w_heap : heap;
  w_function : list E;
  w_request : list E;
  w_left : list E;
  w_ran : list T;
  w_last : option raised
}.

Definition Sh (A : Type) : Type := world -> (A + raised) * world.
Definition sret {A} (a : A) : Sh A := fun w => (inl a, w).
Definition sraise {A} (x : raised) : Sh A := fun w => (inr x, w).
Definition sbind {A B} (m : Sh A) (k : A -> Sh B) : Sh B :=
  fun w => match m w with (inl a, w') => k a w' | (inr x, w') => (inr x, w') end.
Notation "'shim!' x := m 'in' k" := (sbind m (fun x => k)) (at level 10, x pattern, m at level 100, k at level 200).

Definition slift {A} (r : result A) : Sh A := fun w => (lift_result r, w).

Definition with_heap (w : world) (h : heap) : world := mkWorld h (w_function w) (w_request w) (w_left w) (w_ran w) (w_last w).
Definition set_last (x : raised) (w : world) : world := mkWorld (w_heap w) (w_function w) (w_request w) (w_left w) (w_ran w) (Some x).

Definition on_heap {A} (f : heap -> heap * (A + raised)) : Sh A :=
  fun w => let '(h, r) := f (w_heap w) in (r, with_heap w h).

(** [_Response()] and [BackgroundTasks()] *)
Definition new_response : Sh Z :=
  shim! r := slift (response CNone 200 [] None None) in
  on_heap (fun h => (mkHeap (dict_set (h_responses h) (h_next h) r) (h_tasks h) (h_next h + 1), inl (h_next h))).

Definition new_tasks : Sh Z :=
  on_heap (fun h => (mkHeap (h_responses h) (dict_set (h_tasks h) (h_next h) []) (h_next h + 1), inl (h_next h))).

Definition response_at (h : heap) (i : Z) : option Response := dict_get (h_responses h) i.
Definition tasks_at (h : heap) (i : Z) : list T := get_or (dict_get (h_tasks h) i) [].

(** [for k, v in b.headers.items(): a.headers[k] = v] *)
Definition set_headers (r : Response) (hs : raw_headers) : result Response :=
  rfold (fun r h => set_header r (decode_latin1 h.1) (decode_latin1 h.2)) r hs.

Definition merge_headers (a b : Z) : Sh unit :=
  on_heap (fun h =>
    match response_at h a, response_at h b with
    | Some ra, Some rb =>
        match set_headers ra (_raw_headers rb) with
        | Ok r => (mkHeap (dict_set (h_responses h) a r) (h_tasks h) (h_next h), inl tt)
        | Raise e => (h, inr (Raised e))
        end
    | _, _ => (h, inl tt)
    end).

(** [a.tasks.extend(b.tasks)] *)
Definition extend_tasks (a b : Z) : Sh unit :=
  on_heap (fun h => (mkHeap (h_responses h) (dict_set (h_tasks h) a (tasks_at h a ++ tasks_at h b)) (h_next h), inl tt)).

(** ** The route *)
Record solver_out : Type := mkSolverOut {
  so_injected : kwargs;
  so_stacks : option stacks;
  so_errors : list error;
  so_bg : option Z;
  so_response : option Z
}.

Record env : Type := mkEnv {
  ev_adapters : Adapters;
  ev_root_path : str;
  ev_exit : E -> option raised -> exit_result raised;
  ev_task : T -> option raised;
  (** a class called with a text *)
  ev_construct : ann -> str -> result value;
  ev_json_loads : bytes -> result value;
  ev_read_file : str -> option bytes;
  (** a JSON response of errors, or of a result *)
  ev_errors_json : list error -> result Response;
  ev_result_json : returned -> Z -> result Response;
  (** the middleware, given what [call_next] returns; [None] is falling through *)
  ev_middleware : list (returned -> option returned + raised);
  ev_raise_server_exceptions : bool
}.

Inductive response_class : Type :=
  | RedirectClass
  | FileClass
  | OtherClass.

Record shim_route : Type := mkShimRoute {
  rs_dependant : Dependant;
  rs_flat : option Dependant;
  rs_methods : list str;
  rs_fast_path : bool;
  rs_embed : bool;
  rs_status : option Z;
  rs_class : response_class;
  (** [actual_rc(content=result, status_code=...)], [actual_rc(url)] with the class's own status *)
  rs_wrap : returned -> Z -> result Response;
  rs_wrap_default : value -> result Response;
  rs_text : value -> str;
  rs_model : option (value -> result (value * list error));
  rs_serialize : value -> result value;
  rs_message : exn -> str;
  rs_handlers : list (str * (Scope -> raised -> returned + raised));
  (** the dependency solver: what is left of the arguments and its result, if that is a tuple *)
  rs_solver : option (kwargs -> heap -> heap * (kwargs * option solver_out + raised));
  rs_endpoint : kwargs -> heap -> heap * (returned + raised)
}.

Context (ev : env) (r : shim_route).
Local Abbreviation ad := (ev_adapters ev).
Local Abbreviation ctx := (ad_context ad).

(** [route.status_code or 200] *)
Definition status_of : Z := match rs_status r with Some 0 | None => 200 | Some z => z end.

(** *** Computed once *)
Fixpoint _collect_resp_params (d : Dependant) : list str :=
  let '(mkDependant _ _ _ deps) := d in
  foldr (fun sub acc =>
    match truthy (response_param_name (names sub)) with Some n => [n] | None => [] end ++ _collect_resp_params sub ++ acc) [] deps.

Definition _path_coercions : list (str * ann) :=
  omap (fun f => match type_ f with Cls StrC => None | a => Some (field_name f, a) end) (path_params (params (rs_dependant r))).

Definition _param_validator_shim : option (kwargs -> result validated) :=
  let p := params (rs_dependant r) in
  if existsb is_model_field (header_params p ++ query_params p ++ cookie_params p)
  then _make_param_validator ad (params (get_or (rs_flat r) (rs_dependant r))) else None.

Definition other_name (o : option str) (f : ModelField) : bool :=
  match o with Some a => negb (bool_decide (a = field_name f)) | None => false end.

Definition _body_params_shim : list ModelField :=
  let bp := body_params (params (rs_dependant r)) in
  let has_alias := negb (rs_fast_path r)
    && existsb (fun f => other_name (fi_alias (field_info f)) f || other_name (fi_validation_alias (field_info f)) f) bp in
  let get_with_body := match rs_methods r with [] => false | ms => forallb (fun m => negb (bool_decide (m ∈ [$"POST"; $"PUT"; $"PATCH"; $"DELETE"]))) ms end in
  if has_alias || get_with_body then bp else [].

(** *** The arguments *)

(** The loop of the coercions. *)
Definition coerce_path (kw : kwargs) (c : str * ann) : result kwargs :=
  match dict_get kw c.1 with
  | Some (VStr s) =>
      match ev_construct ev c.2 s with
      | Ok v => Ok (dict_set kw c.1 v)
      | Raise e => if conversion_error e then Ok kw else Raise e
      end
  | _ => Ok kw
  end.

Definition special (get : DepNames -> option str) : option str := truthy (get (names (rs_dependant r))).

Definition inject_tasks (kw : kwargs) : Sh (kwargs * option Z) :=
  match special background_tasks_param_name with
  | None => sret (kw, None)
  | Some n => shim! b := new_tasks in sret (dict_set kw n (VBackgroundTasks b), Some b)
  end.

(** The request, for the endpoint that wants one. *)
Definition inject_request_objects (kw : kwargs) : Sh kwargs :=
  match special request_param_name, special http_connection_param_name with
  | None, None => sret kw
  | rq, hc =>
      let get k := opt_value (dict_get kw k) in
      let hs := match saved_headers kw with Some ((_ :: _) as hs) => Some hs | _ => cx_raw_headers ctx end in
      let method := value_text (get $"__method__") (cx_method ctx) $"GET" in
      let path := value_text (get $"__path__") (cx_path ctx) $"/" in
      let kw := pop_keys [$"__raw_headers__"; $"__method__"; $"__path__"] kw in
      shim! _ := slift (_make_lightweight_request (ev_root_path ev) true true ctx hs method path) in
      let kw := match rq with Some n => dict_set kw n VRequest | None => kw end in
      sret (match hc with Some n => dict_set kw n VRequest | None => kw end)
  end.

(** A response object joins the one that collects headers. *)
Definition join_response (sub : option Z) (other : Z) : Sh (option Z) :=
  match sub with
  | None => sret (Some other)
  | Some a => shim! _ := merge_headers a other in sret sub
  end.

Definition inject_response_object (kw : kwargs) : Sh (kwargs * option Z) :=
  shim! (kw, sub) :=
    match special response_param_name with
    | None => sret (kw, None)
    | Some n => shim! i := new_response in sret (dict_set kw n (VResponse i), Some i)
    end in
  shim! sub :=
    match dict_get kw $"__sub_response__" with
    | Some (VResponse i) => join_response sub i
    | _ => sret sub
    end in
  let kw := dict_del kw $"__sub_response__" in
  shim! sub :=
    foldl (fun (m : Sh (option Z)) n =>
      shim! sub := m in
      match dict_get kw n with Some (VResponse i) => join_response sub i | _ => sret sub end)
      (sret sub) (_collect_resp_params (rs_dependant r)) in
  sret (pop_keys [$"__auth_scheme__"; $"__auth_credentials__"] kw, sub).

(** Background tasks of dependencies join those of the endpoint. *)
Definition join_tasks (kw : kwargs) (bg : option Z) (other : Z) : Sh (kwargs * option Z) :=
  match bg with
  | None => sret (match special background_tasks_param_name with Some n => dict_set kw n (VBackgroundTasks other) | None => kw end, Some other)
  | Some a => shim! _ := extend_tasks a other in sret (kw, bg)
  end.

Definition is_true (o : option value) : bool :=
  match o with None | Some VNone | Some (VBool false) => false | _ => true end.

(** The arguments with what goes with them, or a response with the errors. *)
Record prepared : Type := mkPrepared {
  pr_kwargs : kwargs;
  pr_stacks : option stacks;
  pr_bg : option Z;
  pr_sub : option Z
}.

Definition run_solver (p : prepared) : Sh (Response + prepared) :=
  match rs_solver r with
  | None => sret (inr p)
  | Some solver =>
      let kw := match pr_bg p with Some b => dict_set (pr_kwargs p) $"__bg_tasks__" (VBackgroundTasks b) | None => pr_kwargs p end in
      shim! (kw, out) := on_heap (solver kw) in
      match out with
      | None => sret (inr (mkPrepared kw (pr_stacks p) (pr_bg p) (pr_sub p)))
      | Some o =>
          match so_errors o with
          | _ :: _ => shim! resp := slift (ev_errors_json ev (so_errors o)) in sret (inl resp)
          | [] =>
              let kw := dict_del (dict_update kw (so_injected o)) $"__bg_tasks__" in
              let st := match so_stacks o with Some x => Some x | None => pr_stacks p end in
              shim! (kw, bg) := match so_bg o with Some b => join_tasks kw (pr_bg p) b | None => sret (kw, pr_bg p) end in
              shim! sub := match so_response o with Some i => join_response (pr_sub p) i | None => sret (pr_sub p) end in
              sret (inr (mkPrepared kw st bg sub))
          end
      end
  end.

(** The core may have resolved the dependencies: then only their tasks are
    taken over. *)
Definition resolve (p : prepared) : Sh (Response + prepared) :=
  let kw := pop_keys [$"__bg_tasks__"; $"__deps_ran__"] (pr_kwargs p) in
  let ran := is_true (dict_get (pr_kwargs p) $"__deps_ran__") in
  let p' := mkPrepared kw (pr_stacks p) (pr_bg p) (pr_sub p) in
  let take b := shim! (kw, bg) := join_tasks kw (pr_bg p) b in sret (inr (mkPrepared kw (pr_stacks p) bg (pr_sub p))) in
  match dict_get (pr_kwargs p) $"__bg_tasks__" with
  | Some (VBackgroundTasks b) => take b
  | _ =>
      if ran && match rs_solver r with Some _ => true | None => false end then sret (inr p')
      else if is_true (dict_get kw $"__gen_deps_ran__") then sret (inr p')
      else run_solver p'
  end.

(** *** The body *)
Definition parse_body (kw : kwargs) (raw : value) : Sh (Response + kwargs) :=
  match _body_params_shim with
  | [] => sret (inr kw)
  | bp =>
      let b := match raw with VBytes ((_ :: _) as b) => b | _ => cx_body ctx end in
      let parsed :=
        let! body := match b with [] => Ok NoBody | _ => let! v := ev_json_loads ev b in Ok (match v with VNone => NoBody | _ => JsonBody v end) end in
        request_body_to_args (ad_pydantic ad) (ad_program ad) bp body (rs_embed r) ∅ in
      match parsed with
      | Raise e => if conversion_error e then sret (inr kw) else sraise (Raised e)
      | Ok (vs, [], _) => sret (inr (dict_update kw vs))
      | Ok (_, errors, _) =>
          match ev_errors_json ev errors with
          | Ok resp => sret (inl resp)
          | Raise e => if conversion_error e then sret (inr kw) else sraise (Raised e)
          end
      end
  end.

(** Dictionaries where a model is expected are validated, if they can be. *)
Definition validate_raw (kw : kwargs) (f : ModelField) : kwargs :=
  match dict_get kw (field_name f) with
  | Some (VDict d) =>
      if is_model_field f then
        match validate_python (ad_pydantic ad) f (VDict d) with Valid v => dict_set kw (field_name f) v | _ => kw end
      else kw
  | _ => kw
  end.

(** Everything before the call. *)
Definition prepare (kw : kwargs) (st : option stacks) : Sh (Response + prepared) :=
  shim! early :=
    match _param_validator_shim with
    | None => sret (inr kw)
    | Some validator =>
        shim! v := slift (validator kw) in
        match vd_errors v with
        | [] => sret (inr (dict_update (pop_keys (vd_consumed v) (vd_kwargs v)) (vd_values v)))
        | errors => shim! resp := slift (ev_errors_json ev errors) in sret (inl resp)
        end
    end in
  match early with
  | inl resp => sret (inl resp)
  | inr kw =>
      shim! kw := slift (rfold coerce_path kw _path_coercions) in
      shim! (kw, bg) := inject_tasks kw in
      shim! kw := inject_request_objects kw in
      shim! (kw, sub) := inject_response_object kw in
      shim! solved := resolve (mkPrepared kw st bg sub) in
      match solved with
      | inl resp => sret (inl resp)
      | inr p =>
          let raw := opt_value (dict_get (pr_kwargs p) $"__body__") in
          let kw := pop_keys (injected_keys ++ [$"__body__"; $"__content_type__"]) (pr_kwargs p) in
          shim! parsed := parse_body kw raw in
          match parsed with
          | inl resp => sret (inl resp)
          | inr kw =>
              let kw := foldl validate_raw kw (body_params (params (rs_dependant r))) in
              sret (inr (mkPrepared (pop_keys [$"__exit_stack__"; $"__deps_ran__"; $"__gen_deps_ran__"] kw) (pr_stacks p) (pr_bg p) (pr_sub p)))
          end
      end
  end.

(** *** The stacks *)
Definition enter_stacks (st : option stacks) : Sh unit := fun w =>
  let '(f, q) := match st with None => ([], []) | Some (Dual f q) => (f, q) | Some (Single q) => ([], q) end in
  (inl tt, mkWorld (w_heap w) f q (w_left w) (w_ran w) (w_last w)).

(** [stack.__aexit__(...)]: the callbacks are popped, whatever they do. *)
Definition leave_function (pending : option raised) : Sh bool := fun w =>
  (leave_stack (ev_exit ev) (w_function w) pending,
   mkWorld (w_heap w) [] (w_request w) (w_left w ++ reverse (w_function w)) (w_ran w) (w_last w)).

Definition leave_request (pending : option raised) : Sh bool := fun w =>
  (leave_stack (ev_exit ev) (w_request w) pending,
   mkWorld (w_heap w) (w_function w) [] (w_left w ++ reverse (w_request w)) (w_ran w) (w_last w)).

Definition _exit_stack_on_error (x : raised) : Sh bool :=
  shim! s1 := leave_function (Some x) in
  shim! s2 := leave_request (Some x) in
  sret (s2 || s1).

(** *** The call *)
Definition not_awaited : raised := Raised (AstraAPIError
  ($"Response not awaited. There's a high chance that the application code is raising an exception and a dependency with yield "
   ++ $"has a block with a bare except, or a block with except Exception, and is not raising the exception again.")).

Definition is_http_or_validation (x : raised) : bool := instance_of x $"HTTPException" || instance_of x $"RequestValidationError".

Definition first_shim_handler (hs : list (str * (Scope -> raised -> returned + raised))) (x : raised)
    : option (Scope -> raised -> returned + raised) := first_handler hs x.

Definition handle_raised (x : raised) : Sh returned := fun w =>
  match first_shim_handler (rs_handlers r) x with
  | None => (inr x, w)
  | Some h =>
      let w' := if negb (is_http_or_validation x) && ev_raise_server_exceptions ev then set_last x w else w in
      (match lift_result (handler_request ad (ev_root_path ev)) with inl sc => h sc x | inr y => inr y end, w')
  end.

Definition _call_with_exc_handling (kw : kwargs) : Sh returned := fun w =>
  match on_heap (rs_endpoint r kw) w with
  | (inl v, w') => (inl v, w')
  | (inr x, w') =>
      if instance_of x $"Exception" then
        sbind (_exit_stack_on_error x) (fun suppressed => if suppressed then sraise not_awaited else handle_raised x) w'
      else (inr x, w')
  end.

(** *** The middleware *)
Fixpoint run_middleware (mws : list (returned -> option returned + raised)) (resp : returned) : option returned + raised :=
  match mws with
  | [] => inl (Some resp)
  | mw :: mws' =>
      match mw resp with
      | inl (Some resp') => run_middleware mws' resp'
      | other => other
      end
  end.

(** An exception of the middleware leaves the result as it was. *)
Definition apply_middleware (x : returned) : returned :=
  match ev_middleware ev with
  | [] => x
  | mws =>
      let out :=
        match _make_lightweight_request (ev_root_path ev) false false ctx (cx_raw_headers ctx)
                (text_or (Some (cx_method ctx)) $"GET") (text_or (Some (cx_path ctx)) $"/") with
        | Raise e => inr (Raised e)
        | Ok _ =>
            if is_response x then run_middleware (reverse mws) x
            else match ev_result_json ev x status_of with
                 | Ok j => run_middleware (reverse mws) (RResponse j)
                 | Raise e => inr (Raised e)
                 end
        end in
      match out with inl (Some y) => y | _ => x end
  end.

(** *** The response *)
Definition not_found : raised := Raised (HTTPException 404 (Some $"File not found") None).

Definition file_content (file : str) (status : Z) (mt : option str) : Sh Response :=
  match ev_read_file ev file with
  | Some b => slift (response (CBytes b) status [] mt None)
  | None => sraise not_found
  end.

(** The chunks up to the first that cannot be had. *)
Fixpoint collect_chunks (cs : list chunk) (fin : result unit) : bytes * option exn :=
  match cs with
  | [] => ([], match fin with Ok _ => None | Raise e => Some e end)
  | c :: cs' =>
      match chunk_bytes c with
      | Raise e => ([], Some e)
      | Ok b => let '(rest, x) := collect_chunks cs' fin in (b ++ rest, x)
      end
  end.

Definition note_last (x : option exn) : Sh unit := fun w => (inl tt, match x with Some e => set_last (Raised e) w | None => w end).

(** Dependencies of the function are left before the body is read, those of
    the request after it. *)
Definition stream_response (resp : Response) (cs : list chunk) (fin : result unit) : Sh Response :=
  shim! _ := leave_function None in
  let '(b, x) := collect_chunks cs fin in
  match x with
  | Some e => if negb (isinstance e $"Exception") then sraise (Raised e) else
      shim! _ := leave_request None in
      shim! _ := note_last x in
      slift (response (CBytes b) (status_code resp) [] (media_type resp) None)
  | None =>
      shim! _ := leave_request None in
      slift (response (CBytes b) (status_code resp) [] (media_type resp) None)
  end.

Definition fail_response (errors : list error) : Sh value := fun w =>
  (inr (InvalidResponse errors), set_last (InvalidResponse errors) w).

Definition apply_model (v : value) : Sh value :=
  match rs_model r with
  | None => sret v
  | Some validate =>
      shim! (v', errors) := slift (validate v) in
      match errors with
      | _ :: _ => fail_response errors
      | [] =>
          match rs_serialize r v' with
          | Ok j => sret j
          | Raise e =>
              if serialization_error e
              then fail_response [mkError $"response_serialization_error" [$"response"] (rs_message r e) v]
              else sraise (Raised e)
          end
      end
  end.

Definition wrap_value (v : value) : Sh Response :=
  match rs_class r with
  | RedirectClass => if status_of =? 200 then slift (rs_wrap_default r v) else slift (rs_wrap r (RPlain v) status_of)
  | FileClass => file_content (rs_text r v) status_of None
  | OtherClass => slift (rs_wrap r (RPlain v) status_of)
  end.

(** The response, and the result it was made of. *)
Definition finish_result (x : returned) : Sh (Response * returned) :=
  match x with
  | RFile file resp => shim! f := file_content file (status_code resp) (media_type resp) in sret (f, x)
  | RStream resp cs fin => shim! f := stream_response resp cs fin in sret (f, x)
  | RResponse resp | RLike resp => sret (resp, x)
  | RPlain v => shim! v := apply_model v in shim! f := wrap_value v in sret (f, RPlain v)
  end.

(** Headers and status set on the response object of the endpoint. *)
Definition with_status (resp : Response) (z : Z) : Response :=
  mkResponse z (media_type resp) (body resp) (_raw_headers resp) (background resp).

Definition apply_sub (sub : option Z) (fv : Response * returned) : Sh Response := fun w =>
  match sub ≫= response_at (w_heap w) with
  | None => (inl fv.1, w)
  | Some s =>
      let hs := filter (fun h => bytes_lower h.1 ≠ $"content-length" ∧ bytes_lower h.1 ≠ $"content-type") (_raw_headers s) in
      match set_headers fv.1 hs with
      | Raise e => (inr (Raised e), w)
      | Ok f =>
          if status_code s =? 200 then (inl f, w)
          else
            let f := with_status f (status_code s) in
            if bool_decide (status_of = 204) && negb (bool_decide (status_code s ∈ [204; 205])) && bool_decide (body f = [])
            then slift (rs_wrap r fv.2 (status_code s)) w else (inl f, w)
      end
  end.

(** The background tasks run before the response is returned. *)
Fixpoint run_tasks (ts : list T) (w : world) : option raised * world :=
  match ts with
  | [] => (None, w)
  | t :: ts' =>
      let w' := mkWorld (w_heap w) (w_function w) (w_request w) (w_left w) (w_ran w ++ [t]) (w_last w) in
      match ev_task ev t with Some x => (Some x, w') | None => run_tasks ts' w' end
  end.

Definition run_background_tasks (bg : option Z) : Sh unit := fun w =>
  match bg with
  | None => (inl tt, w)
  | Some b => match run_tasks (tasks_at (w_heap w) b) w with (Some x, w') => (inr x, w') | (None, w') => (inl tt, w') end
  end.

(** Leaving the dependencies at the end: an [HTTPException] of the function's
    is raised, other exceptions are kept for the test client. *)
Definition close_function : Sh unit := fun w =>
  match leave_function None w with
  | (inl _, w') => (inl tt, w')
  | (inr x, w') =>
      if instance_of x $"HTTPException" then (inr x, w')
      else if instance_of x $"Exception" then (inl tt, set_last x w') else (inr x, w')
  end.

Definition close_request : Sh unit := fun w =>
  match leave_request None w with
  | (inl _, w') => (inl tt, w')
  | (inr x, w') => if instance_of x $"Exception" then (inl tt, set_last x w') else (inr x, w')
  end.

Definition respond (p : prepared) : Sh Response :=
  shim! _ := enter_stacks (pr_stacks p) in
  shim! x := _call_with_exc_handling (pr_kwargs p) in
  shim! fv := finish_result (apply_middleware x) in
  shim! f := apply_sub (pr_sub p) fv in
  shim! _ := run_background_tasks (pr_bg p) in
  shim! _ := close_function in
  shim! _ := close_request in
  sret f.

Definition _response_shim (kw : kwargs) (st : option stacks) : Sh Response :=
  shim! p := prepare kw st in
  match p with inl resp => sret resp | inr p => respond p end.
End shim.
