(* ===== verification/ResponseShimFacts.v ===== *)
(** * ResponseShimFacts: dependencies are left around the response

    Whatever the endpoint, the middleware, the response model and the tasks do,
    the wrapper leaves the generator dependencies of the function before those
    of the request, each in reverse order and never twice; when it returns a
    response all of them have been left. *)

From S2P Require Import Prelude ExitStack PyStr Asgi DataStructures MutableHeaders Responses StaticFiles ExceptionHandler Convertors HttpWire.
From S2P Require Import Annotations Dependants ParamArgs Solve FastDeps DepResolve ParamValidator ParamValidatorFacts ParamShims ResponseShim.

Section logic.
Context {E T : Type}.
Abbreviation world := (@world E T).

(** ** Conditions before and after a step, for a result and for an exception *)
Definition triple {A} (P : world -> Prop) (m : @Sh E T A) (Q : A -> world -> Prop) (X : raised -> world -> Prop) : Prop :=
  ∀ w, P w -> match m w with (inl a, w') => Q a w' | (inr x, w') => X x w' end.

Lemma triple_bind {A B} P (m : @Sh E T A) (k : A -> @Sh E T B) Q R X :
  triple P m Q X -> (∀ a, triple (Q a) (k a) R X) -> triple P (sbind m k) R X.
Proof.
  intros Hm Hk w Hw. unfold sbind. specialize (Hm w Hw). destruct (m w) as [[a|x] w']; [|done]. by apply Hk.
Qed.

Lemma triple_weaken {A} P P' (m : @Sh E T A) Q Q' X X' :
  triple P m Q X -> (∀ w, P' w -> P w) -> (∀ a w, Q a w -> Q' a w) -> (∀ x w, X x w -> X' x w) -> triple P' m Q' X'.
Proof.
  intros Hm HP HQ HX w Hw. specialize (Hm w (HP w Hw)). destruct (m w) as [[a|x] w']; auto.
Qed.

(** A step that does not look at the stacks. *)
Definition same_stacks (w w' : world) : Prop :=
  w_function w' = w_function w ∧ w_request w' = w_request w ∧ w_left w' = w_left w.

Definition quiet {A} (m : @Sh E T A) : Prop := ∀ w, same_stacks w (m w).2.

Definition about_stacks (P : world -> Prop) : Prop := ∀ w w', same_stacks w w' -> P w -> P w'.

Lemma triple_quiet {A} P (m : @Sh E T A) : about_stacks P -> quiet m -> triple P m (fun _ => P) (fun _ => P).
Proof.
  intros HP Hm w Hw. specialize (Hm w). destruct (m w) as [[a|x] w']; simpl in Hm; eauto.
Qed.

Lemma quiet_ret {A} (a : A) : quiet (sret a).
Proof. intros w. done. Qed.
Lemma quiet_raise {A} x : quiet (@sraise E T A x).
Proof. intros w. done. Qed.
Lemma quiet_lift {A} (r : result A) : quiet (slift r).
Proof. intros w. done. Qed.
Lemma quiet_heap {A} f : quiet (@on_heap E T A f).
Proof. intros w. unfold on_heap. by destruct (f (w_heap w)). Qed.
Lemma quiet_bind {A B} (m : @Sh E T A) (k : A -> @Sh E T B) : quiet m -> (∀ a, quiet (k a)) -> quiet (sbind m k).
Proof.
  intros Hm Hk w. unfold sbind. specialize (Hm w). destruct (m w) as [[a|x] w']; [|done].
  specialize (Hk a w'). unfold same_stacks in *. simpl in *. intuition congruence.
Qed.
End logic.

#[export] Hint Resolve quiet_ret quiet_raise quiet_lift quiet_heap : astra.

Section order.
Context {E T : Type} (ev : @env E T) (r : @shim_route E T).
Context (managers : list E).

(** Left so far, then the stacks: the managers in the order they are left. *)
Definition ordered (w : @world E T) : Prop := w_left w ++ reverse (w_function w) ++ reverse (w_request w) = managers.
Definition function_left (w : @world E T) : Prop := ordered w ∧ w_function w = [].
Definition all_left (w : @world E T) : Prop := function_left w ∧ w_request w = [].

Lemma ordered_about : about_stacks ordered.
Proof. intros w w' (Hf & Hq & Hl) Hw. unfold ordered in *. by rewrite Hf, Hq, Hl. Qed.
Lemma function_left_about : about_stacks function_left.
Proof. intros w w' Hs [Ho Hf]. split; [by eapply ordered_about|]. destruct Hs as (-> & _). done. Qed.
Lemma all_left_about : about_stacks all_left.
Proof. intros w w' Hs [Ho Hf]. split; [by eapply function_left_about|]. destruct Hs as (_ & -> & _). done. Qed.

Lemma leave_function_left p : triple ordered (leave_function ev p) (fun _ => function_left) (fun _ => function_left).
Proof.
  intros w Hw. unfold leave_function. assert (function_left (mkWorld (w_heap w) [] (w_request w) (w_left w ++ reverse (w_function w)) (w_ran w) (w_last w))).
  { split; [|done]. unfold ordered in *. simpl. rewrite <-Hw, <-app_assoc. done. }
  by destruct (leave_stack _ _ _).
Qed.

Lemma leave_request_left p : triple function_left (leave_request ev p) (fun _ => all_left) (fun _ => all_left).
Proof.
  intros w [Hw Hf]. unfold leave_request.
  assert (all_left (mkWorld (w_heap w) (w_function w) [] (w_left w ++ reverse (w_request w)) (w_ran w) (w_last w))).
  { split; [split; [|done]|done]. unfold ordered in *. simpl. rewrite <-Hw, Hf. simpl. by rewrite app_nil_r. }
  by destruct (leave_stack _ _ _).
Qed.

Lemma left_ordered w : function_left w -> ordered w.
Proof. by intros [? _]. Qed.
Lemma all_left_function w : all_left w -> function_left w.
Proof. by intros [? _]. Qed.
Hint Resolve left_ordered all_left_function : core.

Lemma error_leaves x : triple ordered (_exit_stack_on_error ev x) (fun _ => all_left) (fun _ => function_left).
Proof.
  eapply (triple_bind _ _ _ (fun _ => function_left)); [apply leave_function_left|]. intros s1.
  eapply (triple_bind _ _ _ (fun _ => all_left)).
  - eapply triple_weaken; [apply leave_request_left|..]; simpl; eauto.
  - intros s2. eapply triple_weaken; [apply (triple_quiet all_left); [apply all_left_about|apply quiet_ret]|..]; simpl; eauto.
Qed.

Lemma handle_quiet x : quiet (handle_raised ev r x).
Proof.
  intros w. unfold handle_raised. destruct (first_shim_handler _ _); [|done]. simpl. by destruct (_ && _).
Qed.

Lemma call_ordered kw : triple ordered (_call_with_exc_handling ev r kw) (fun _ => ordered) (fun _ => ordered).
Proof.
  intros w Hw. unfold _call_with_exc_handling. pose proof (quiet_heap (rs_endpoint r kw) w) as Hq.
  destruct (on_heap _ w) as [[v|x] w']; simpl in Hq; pose proof (ordered_about _ _ Hq Hw) as Hw'; [done|].
  destruct (instance_of x _); [|done].
  apply (triple_bind ordered _ _ (fun _ => all_left) (fun _ => ordered) (fun _ => ordered)); [..|done].
  - eapply triple_weaken; [apply error_leaves|..]; eauto.
  - intros sup. eapply triple_weaken; [apply (triple_quiet all_left); [apply all_left_about|]|..]; eauto.
    destruct sup; [apply quiet_raise|apply handle_quiet].
Qed.

Lemma quiet_ordered {A} (m : @Sh E T A) : quiet m -> triple ordered m (fun _ => ordered) (fun _ => ordered).
Proof. apply triple_quiet, ordered_about. Qed.

Lemma file_quiet file status mt : quiet (file_content (T := T) ev file status mt).
Proof. unfold file_content. destruct (ev_read_file ev file); auto with astra. Qed.

Lemma note_quiet x : quiet (@note_last E T x).
Proof. intros w. by destruct x. Qed.

Lemma stream_ordered resp cs fin : triple ordered (stream_response ev resp cs fin) (fun _ => ordered) (fun _ => ordered).
Proof.
  unfold stream_response. eapply (triple_bind _ _ _ (fun _ => function_left)).
  { eapply triple_weaken; [apply leave_function_left|..]; eauto. }
  intros _. destruct (collect_chunks cs fin) as [b x].
  assert (Hend : ∀ k : @Sh E T Response, quiet k ->
    triple function_left (sbind (leave_request ev None) (fun _ => k)) (fun _ => ordered) (fun _ => ordered)).
  { intros k Hk. eapply (triple_bind _ _ _ (fun _ => all_left)); [eapply triple_weaken; [apply leave_request_left|..]; eauto|].
    intros _. eapply triple_weaken; [by apply (triple_quiet all_left); [apply all_left_about|]|..]; eauto. }
  destruct x as [e|]; [destruct (negb _)|]; [|apply Hend..].
  - eapply triple_weaken; [apply (triple_quiet function_left); [apply function_left_about|apply quiet_raise]|..]; eauto.
  - apply quiet_bind; [apply note_quiet|auto with astra].
  - apply quiet_lift.
Qed.

Lemma model_quiet v : quiet (apply_model (E := E) (T := T) r v).
Proof.
  unfold apply_model. destruct (rs_model r); [|auto with astra]. apply quiet_bind; [auto with astra|].
  intros [v' [|]]; [|done]. destruct (rs_serialize r v'); [auto with astra|]. destruct (serialization_error e); [done|auto with astra].
Qed.

Lemma wrap_quiet v : quiet (wrap_value ev r v).
Proof.
  unfold wrap_value. destruct (rs_class r); [destruct (_ =? _)| |]; auto using file_quiet with astra.
Qed.

Lemma finish_ordered x : triple ordered (finish_result ev r x) (fun _ => ordered) (fun _ => ordered).
Proof.
  destruct x; simpl.
  - apply quiet_ordered, quiet_bind; [apply file_quiet|auto with astra].
  - eapply (triple_bind _ _ _ (fun _ => ordered)); [apply stream_ordered|]. intros f. apply quiet_ordered, quiet_ret.
  - apply quiet_ordered, quiet_ret.
  - apply quiet_ordered, quiet_ret.
  - apply quiet_ordered, quiet_bind; [apply model_quiet|]. intros v'. apply quiet_bind; [apply wrap_quiet|auto with astra].
Qed.

Lemma sub_quiet sub fv : quiet (apply_sub (E := E) (T := T) r sub fv).
Proof.
  intros w. unfold apply_sub. destruct (_ ≫= _); [|done]. destruct (set_headers _ _); [|done].
  destruct (_ =? _); [done|]. by destruct (_ && _).
Qed.

Lemma run_tasks_quiet ts w : same_stacks w (run_tasks ev ts w).2.
Proof.
  revert w. induction ts as [|t ts IH]; intros w; simpl; [done|]. destruct (ev_task ev t); [done|].
  match goal with |- same_stacks _ (run_tasks _ _ ?w').2 => exact (IH w') end.
Qed.

Lemma tasks_quiet bg : quiet (run_background_tasks ev bg).
Proof.
  intros w. unfold run_background_tasks. destruct bg as [b|]; [|done].
  pose proof (run_tasks_quiet (tasks_at (w_heap w) b) w) as H. destruct (run_tasks _ _ _) as [[x|] w']; exact H.
Qed.

Lemma close_function_left : triple ordered (close_function ev) (fun _ => function_left) (fun _ => ordered).
Proof.
  intros w Hw. unfold close_function. pose proof (leave_function_left None w Hw) as H.
  destruct (leave_function ev None w) as [[b|x] w']; [done|].
  destruct (instance_of x _); [by apply left_ordered|]. destruct (instance_of x _); [|by apply left_ordered].
  by apply (function_left_about w').
Qed.

Lemma close_request_left : triple function_left (close_request ev) (fun _ => all_left) (fun _ => ordered).
Proof.
  intros w Hw. unfold close_request. pose proof (leave_request_left None w Hw) as H.
  destruct (leave_request ev None w) as [[b|x] w']; [done|].
  destruct (instance_of x _); [by apply (all_left_about w')|auto].
Qed.

(** After the call. *)
Definition after_call (p : @prepared E) (x : returned) : @Sh E T Response :=
  sbind (finish_result ev r (apply_middleware ev r x)) (fun fv =>
  sbind (apply_sub r (pr_sub p) fv) (fun f =>
  sbind (run_background_tasks ev (pr_bg p)) (fun _ =>
  sbind (close_function ev) (fun _ => sbind (close_request ev) (fun _ => sret f))))).

Lemma after_call_left p x : triple ordered (after_call p x) (fun _ => all_left) (fun _ => ordered).
Proof.
  unfold after_call.
  eapply (triple_bind _ _ _ (fun _ => ordered)); [apply finish_ordered|]. intros fv.
  eapply (triple_bind _ _ _ (fun _ => ordered)); [apply quiet_ordered, sub_quiet|]. intros f.
  eapply (triple_bind _ _ _ (fun _ => ordered)); [apply quiet_ordered, tasks_quiet|]. intros _.
  eapply (triple_bind _ _ _ (fun _ => function_left)); [apply close_function_left|]. intros _.
  eapply (triple_bind _ _ _ (fun _ => all_left)); [apply close_request_left|]. intros _ w Hw. exact Hw.
Qed.
End order.

(** ** Stacks never fill up again *)
Section shrinking.
Context {E T : Type} (ev : @env E T) (r : @shim_route E T).

Definition shrinks {A} (m : @Sh E T A) : Prop := ∀ w,
  (w_function w = [] -> w_function (m w).2 = []) ∧ (w_request w = [] -> w_request (m w).2 = []).

Lemma shrinks_quiet {A} (m : @Sh E T A) : quiet m -> shrinks m.
Proof. intros H w. by destruct (H w) as (-> & -> & _). Qed.

Lemma shrinks_bind {A B} (m : @Sh E T A) (k : A -> @Sh E T B) : shrinks m -> (∀ a, shrinks (k a)) -> shrinks (sbind m k).
Proof.
  intros Hm Hk w. unfold sbind. specialize (Hm w). destruct (m w) as [[a|x] w']; [|done].
  specialize (Hk a w'). simpl in *. naive_solver.
Qed.

Lemma shrinks_leave_function p : shrinks (leave_function ev p).
Proof. intros w. done. Qed.
Lemma shrinks_leave_request p : shrinks (leave_request ev p).
Proof. intros w. done. Qed.

Lemma shrinks_finish x : shrinks (finish_result ev r x).
Proof.
  destruct x; simpl; try (apply shrinks_quiet; apply quiet_ret).
  - apply shrinks_quiet, quiet_bind; [apply file_quiet|intros; apply quiet_ret].
  - apply shrinks_bind; [|intros; apply shrinks_quiet, quiet_ret]. unfold stream_response.
    apply shrinks_bind; [apply shrinks_leave_function|]. intros _. destruct (collect_chunks _ _) as [b [e|]]; [destruct (negb _)|].
    + apply shrinks_quiet, quiet_raise.
    + apply shrinks_bind; [apply shrinks_leave_request|]. intros _.
      apply shrinks_quiet, quiet_bind; [apply note_quiet|intros; apply quiet_lift].
    + apply shrinks_bind; [apply shrinks_leave_request|]. intros _. apply shrinks_quiet, quiet_lift.
  - apply shrinks_quiet, quiet_bind; [apply model_quiet|]. intros v'. apply quiet_bind; [apply wrap_quiet|intros; apply quiet_ret].
Qed.

Lemma shrinks_close_function : shrinks (close_function ev).
Proof.
  intros w. unfold close_function. pose proof (shrinks_leave_function None w) as H.
  destruct (leave_function ev None w) as [[b|x] w']; [done|]. destruct (instance_of x _); [done|]. by destruct (instance_of x _).
Qed.

Lemma shrinks_close_request : shrinks (close_request ev).
Proof.
  intros w. unfold close_request. pose proof (shrinks_leave_request None w) as H.
  destruct (leave_request ev None w) as [[b|x] w']; [done|]. by destruct (instance_of x _).
Qed.

Lemma shrinks_after_call p x : shrinks (after_call ev r p x).
Proof.
  unfold after_call. apply shrinks_bind; [apply shrinks_finish|]. intros fv.
  apply shrinks_bind; [apply shrinks_quiet, sub_quiet|]. intros f.
  apply shrinks_bind; [apply shrinks_quiet, tasks_quiet|]. intros _.
  apply shrinks_bind; [apply shrinks_close_function|]. intros _.
  apply shrinks_bind; [apply shrinks_close_request|]. intros _. apply shrinks_quiet, quiet_ret.
Qed.
End shrinking.

(** ** The wrapper *)

(** The stacks the dependencies were entered on. *)
Definition entered {E} (st : option (@stacks E)) : list E * list E :=
  match st with None => ([], []) | Some (Dual f q) => (f, q) | Some (Single q) => ([], q) end.

Definition in_order {E} (st : option (@stacks E)) : list E := reverse (entered st).1 ++ reverse (entered st).2.

Section respond.
Context {E T : Type} (ev : @env E T) (r : @shim_route E T) (p : @prepared E).

Definition entered_world (w : @world E T) : @world E T := (enter_stacks (pr_stacks p) w).2.

Lemma respond_split w :
  respond ev r p w = sbind (_call_with_exc_handling ev r (pr_kwargs p)) (after_call ev r p) (entered_world w).
Proof. unfold respond, entered_world, enter_stacks, sbind. by destruct (pr_stacks p) as [[]|]. Qed.

Lemma entered_ordered w : w_left w = [] -> ordered (in_order (pr_stacks p)) (entered_world w).
Proof.
  intros Hw. unfold ordered, entered_world, enter_stacks, in_order, entered.
  destruct (pr_stacks p) as [[]|]; simpl; by rewrite Hw.
Qed.

(** The endpoint raised, and leaving the dependencies of the function did not
    raise another exception: all are left when the call is over. *)
Lemma raised_call_left managers w x w1 s :
  ordered managers w -> on_heap (rs_endpoint r (pr_kwargs p)) w = (inr x, w1) -> instance_of x $"Exception" = true ->
  leave_stack (ev_exit ev) (w_function w) (Some x) = inl s ->
  all_left managers (_call_with_exc_handling ev r (pr_kwargs p) w).2.
Proof.
  intros Hw Hep Hexc Hf. pose proof (quiet_heap (rs_endpoint r (pr_kwargs p)) w) as Hq. rewrite Hep in Hq. simpl in Hq.
  pose proof (ordered_about managers _ _ Hq Hw) as Hw1. destruct Hq as (Ef & _ & _).
  unfold _call_with_exc_handling. rewrite Hep, Hexc. unfold sbind, _exit_stack_on_error, sbind.
  pose proof (leave_function_left ev managers (Some x) w1 Hw1) as H1.
  unfold leave_function in *. rewrite Ef, Hf in *.
  match goal with |- context [leave_request ev (Some x) ?w2] => pose proof (leave_request_left ev managers (Some x) w2 H1) as H2 end.
  destruct (leave_request _ _ _) as [[s2|y] w3]; [|done]. simpl.
  destruct (s2 || s); [done|]. apply (all_left_about managers w3); [apply handle_quiet|done].
Qed.

Lemma raised_call_exception w x w1 :
  on_heap (rs_endpoint r (pr_kwargs p)) w = (inr x, w1) -> instance_of x $"Exception" = true ->
  leave_stack (ev_exit ev) (w_function w) (Some x) = inl false ->
  leave_stack (ev_exit ev) (w_request w) (Some x) = inl false ->
  first_shim_handler (rs_handlers r) x = None ->
  (_call_with_exc_handling ev r (pr_kwargs p) w).1 = inr x.
Proof.
  intros Hep Hexc Hf Hrq Hh. pose proof (quiet_heap (rs_endpoint r (pr_kwargs p)) w) as (Ef & Eq & _).
  rewrite Hep in Ef, Eq. simpl in Ef, Eq. unfold _call_with_exc_handling. rewrite Hep, Hexc.
  unfold _exit_stack_on_error, sbind, leave_function. rewrite Ef, Hf. unfold leave_request. simpl. rewrite Eq, Hrq.
  simpl. unfold handle_raised. by rewrite Hh.
Qed.
End respond.

(** C34: The response wrapper and the generator dependencies of an endpoint.
    Whatever the endpoint, the handlers, the middleware, the response model,
    the tasks and the dependencies themselves do, dependencies of the function
    are left before those of the request, each stack in reverse order of entry,
    and none twice; when the wrapper returns a response all of them have been
    left, also after a streamed body; when the endpoint raises and leaving the
    dependencies of the function does not raise anew, all of them have been
    left, and the exception reaches the caller unless a dependency suppresses
    it or a handler is registered for it. *)
Theorem response_shim_leaves_dependencies {E T} (ev : @env E T) r p w :
  w_left w = [] ->
  let '(out, w') := respond ev r p w in
  w_left w' ++ reverse (w_function w') ++ reverse (w_request w') = in_order (pr_stacks p)
  ∧ ((∃ resp, out = inl resp) -> w_left w' = in_order (pr_stacks p))
  ∧ (∀ x w1 s, on_heap (rs_endpoint r (pr_kwargs p)) (entered_world p w) = (inr x, w1) -> instance_of x $"Exception" = true ->
       leave_stack (ev_exit ev) (entered (pr_stacks p)).1 (Some x) = inl s ->
       w_left w' = in_order (pr_stacks p)
       ∧ (s = false -> leave_stack (ev_exit ev) (entered (pr_stacks p)).2 (Some x) = inl false ->
          first_shim_handler (rs_handlers r) x = None -> out = inr x)).
Proof.
  intros Hw. rewrite respond_split. pose proof (entered_ordered p w Hw) as Ho. set (managers := in_order (pr_stacks p)) in *.
  set (w0 := entered_world p w) in *.
  assert (Hall : ∀ w' : @world E T, all_left managers w' -> w_left w' = managers).
  { intros w' [[H Hf] Hq]. unfold ordered in H. rewrite Hf, Hq in H. by rewrite !app_nil_r in H. }
  assert (Hst : w_function w0 = (entered (pr_stacks p)).1 ∧ w_request w0 = (entered (pr_stacks p)).2).
  { unfold w0, entered_world, enter_stacks, entered. by destruct (pr_stacks p) as [[]|]. }
  destruct Hst as [Hf Hq].
  pose proof (triple_bind (ordered managers) _ _ _ _ _ (call_ordered ev r managers (pr_kwargs p)) (after_call_left ev r managers p) w0 Ho) as H.
  destruct (sbind _ _ w0) as [out w'] eqn:Eb. split_and!.
  - destruct out; [apply left_ordered, all_left_function|]; exact H.
  - intros [resp ->]. by apply Hall.
  - intros x w1 s Hep Hexc Hl. rewrite <-Hf in Hl. split.
    + apply Hall. pose proof (raised_call_left ev r p managers w0 x w1 s Ho Hep Hexc Hl) as Hc. unfold sbind in Eb.
      destruct (_call_with_exc_handling _ _ _ w0) as [[v|y] wc]; simplify_eq; [|exact Hc]. simpl in Hc.
      destruct Hc as [[_ Hcf] Hcq]. destruct (shrinks_after_call ev r p v wc) as [Sf Sq]. rewrite Eb in Sf, Sq. simpl in *.
      split; [split|]; auto. destruct out; [apply left_ordered, all_left_function|]; exact H.
    + intros -> Hl2 Hh. rewrite <-Hq in Hl2.
      pose proof (raised_call_exception ev r p w0 x w1 Hep Hexc Hl Hl2 Hh) as Hx. unfold sbind in Eb.
      destruct (_call_with_exc_handling _ _ _ w0) as [[v|y] wc]; simpl in Hx; simplify_eq. done.
Qed.

(** ** Concrete routes *)
Module SampleResponse.
Import SampleRoute.

(** Dependencies are numbers; those above ten raise when they are left. *)
Definition exits (e : Z) (pending : option raised) : exit_result raised :=
  if 10 <? e then ExitRaises (Raised (HTTPException 409 None None)) else ExitReturns false.

Definition plain_response (b : bytes) (status : Z) : Response := mkResponse status None b [($"content-length", $"0")] None.

(** Task 0 fails. *)
Definition sample_env : @env Z Z :=
  mkEnv adapters [] exits (fun t => if t =? 0 then Some (Raised (ValueError $"task")) else None) (fun _ _ => Ok VNone)
    (fun _ => Raise (ValueError [])) (fun _ => None) (fun _ => Ok (plain_response [] 422)) (fun _ z => Ok (plain_response [] z)) [] false.

Definition no_dependant (names : DepNames) : Dependant := mkDependant (mkDepInfo None 1 None None true [] None) no_params names [].

Definition sample_route (model : option (value -> result (value * list error))) (answer : returned + raised) : @shim_route Z Z :=
  mkShimRoute (no_dependant no_names) None [$"GET"] false false None OtherClass (fun _ z => Ok (plain_response [] z))
    (fun _ => Ok (plain_response [] 307)) (fun _ => []) model (fun v => Ok v) (fun _ => []) [] None (fun _ h => (h, answer)).

Definition sample_world : @world Z Z := mkWorld (mkHeap [] [(7, [0])] 8) [] [] [] [] None.

Definition sample_call (st : stacks) (bg : option Z) : @prepared Z := mkPrepared [] (Some st) bg None.

(** What was left, and what never was. *)
Definition left_of (route : @shim_route Z Z) (st : stacks) (bg : option Z) : list Z * list Z :=
  let w := (respond sample_env route (sample_call st bg) sample_world).2 in (w_left w, w_function w ++ w_request w).

Definition refuse (v : value) : result (value * list error) := Ok (VNone, [missing $"response" $"id"]).
End SampleResponse.

Import SampleResponse.

Lemma response_shim_leaves_dependencies_witness :
  let r := sample_route None (inl (RPlain (VInt 1))) in
  let out := respond sample_env r (sample_call (Dual [1; 2] [3; 4]) None) sample_world in
  out.1 = inl (plain_response [] 200) ∧ w_left out.2 = [2; 1; 4; 3].
Proof.
  intros r out.
  pose proof (response_shim_leaves_dependencies sample_env r (sample_call (Dual [1; 2] [3; 4]) None) sample_world eq_refl) as H.
  assert (Hout : out.1 = inl (plain_response [] 200)) by (vm_compute; reflexivity).
  split; [exact Hout|]. subst out. destruct (respond _ _ _ _) as [o w']. destruct H as (_ & Hl & _). simpl in *.
  rewrite Hl; [reflexivity|]. by exists (plain_response [] 200).
Defined.

(** Dependencies that are never left: when the response does not validate, when
    a file is missing, when a background task fails, and when leaving a
    dependency of the function raises. *)
Example invalid_response_leaks : left_of (sample_route (Some refuse) (inl (RPlain VNone))) (Dual [1] [2]) None = ([], [1; 2]).
Proof. vm_compute. reflexivity. Qed.

Example missing_file_leaks :
  left_of (sample_route None (inl (RFile $"/gone" (plain_response [] 200)))) (Dual [1] [2]) None = ([], [1; 2]).
Proof. vm_compute. reflexivity. Qed.

Example failing_task_leaks : left_of (sample_route None (inl (RPlain VNone))) (Dual [1] [2]) (Some 7) = ([], [1; 2]).
Proof. vm_compute. reflexivity. Qed.

Example failing_exit_leaks : left_of (sample_route None (inl (RPlain VNone))) (Dual [11] [2]) None = ([11], [2]).
Proof. vm_compute. reflexivity. Qed.

(** The tasks of dependencies, which share the object of the endpoint, are
    added to it once more. *)
Example dependency_tasks_doubled :
  let solver := fun (kw : kwargs) (h : @heap Z) =>
    (mkHeap (h_responses h) (dict_set (h_tasks h) 8 [1; 2]) (h_next h), inl (kw, Some (mkSolverOut [] None [] (Some 8) None))) in
  let r := mkShimRoute (no_dependant (mkNames None None None None (Some $"tasks") None)) None [$"GET"] false false None OtherClass
             (fun _ z => Ok (plain_response [] z)) (fun _ => Ok (plain_response [] 307)) (fun _ => []) None (fun v => Ok v) (fun _ => []) []
             (Some solver) (fun _ h => (h, inl (RPlain VNone))) in
  w_ran (_response_shim sample_env r [] None sample_world).2 = [1; 2; 1; 2].
Proof. vm_compute. reflexivity. Qed.

(** The headers of a streamed response are lost. *)
Example streamed_headers_lost :
  (respond sample_env (sample_route None (inl (RStream (mkResponse 200 None [] [($"x-total", $"3")] None) [ChStr $"abc"] (Ok tt))))
     (sample_call (Single []) None) sample_world).1
  = inl (mkResponse 200 None $"abc" [($"content-length", $"3")] None).
Proof. vm_compute. reflexivity. Qed.
