(* ===== verification/FormShim.v ===== *)
(** * FormShim: the wrapper for endpoints with files

    [_make_form_endpoint_shim] of [applications.py]: the core hands uploaded
    files over as [UploadFile] objects or as dictionaries with their data,
    under the alias of the field; the wrapper checks the required fields,
    renames aliases, makes the files what the endpoint declares and closes them
    after the call.  Files live in a store.  Endpoints are parameters. *)

From S2P Require Import Prelude PyStr Asgi DataStructures ExceptionHandler.
From S2P Require Import Annotations Dependants ParamArgs FastDeps ParamValidator.

(** ** What a file parameter wants *)
Record file_param : Type := mkFileParam {
  fp_name : str;
  fp_upload : bool;
  fp_list : bool;
  fp_alias : str;
  fp_info_alias : option str
}.

Definition _is_upload_type (a : ann) : bool := match a with Cls c => issubclass c UploadFileC | _ => false end.

(** The first list, or upload, among the members of a union. *)
Fixpoint union_kind (args : list ann) : bool * bool :=
  match args with
  | [] => (false, false)
  | Generic ListC xs :: _ => (existsb _is_upload_type xs, true)
  | a :: args' => if _is_upload_type a then (true, false) else union_kind args'
  end.

(** Does it want uploads, and a list of them? *)
Definition file_kind (a : ann) : bool * bool :=
  match a with
  | Generic ListC xs => (existsb _is_upload_type xs, true)
  | UnionA args => if existsb _is_upload_type args then (true, false) else union_kind args
  | _ => (_is_upload_type a, false)
  end.

Definition is_file (f : ModelField) : bool := bool_decide (fi_class (field_info f) = FileI).

Definition file_param_of (f : ModelField) : file_param :=
  let '(u, l) := file_kind (type_ f) in mkFileParam (field_name f) u l (get_validation_alias f) (fi_alias (field_info f)).

Section form.
Context (body : list ModelField).

Definition file_params : list file_param := file_param_of <$> List.filter is_file body.

Definition _required_form_params : list (str * str) :=
  (fun f => (field_name f, get_validation_alias f)) <$> List.filter required body.

Definition _optional_form_defaults : list (str * str * value) :=
  (fun f => (field_name f, get_validation_alias f, default f)) <$> List.filter (fun f => negb (required f)) body.

(** Alias and name of the fields that are no files. *)
Definition _alias_to_name : list (str * str) :=
  foldl (fun d f => dict_set d (get_validation_alias f) (field_name f)) []
    (List.filter (fun f => negb (is_file f) && negb (bool_decide (get_validation_alias f = field_name f))) body).

(** Aliases that are not accepted because there is a validation alias. *)
Definition extra_alias (f : ModelField) : option str :=
  match fi_alias (field_info f) with
  | Some ((_ :: _) as a) =>
      if negb (is_file f) && negb (bool_decide (a = field_name f)) && negb (bool_decide (a = get_validation_alias f)) then Some a else None
  | _ => None
  end.

Definition _extra_aliases_to_remove : list str := omap extra_alias body.

(** ** The arguments *)

(** The arguments and the names given by their alias. *)
Abbreviation alias_state := (kwargs * list str)%type.

Definition pre_scan (kw : kwargs) : list str :=
  omap (fun p => if bool_decide (fp_alias p = fp_name p) then None
                 else match opt_value (dict_get kw (fp_alias p)) with VNone => None | _ => Some (fp_name p) end) file_params.

Definition remap_alias (st : alias_state) (an : str * str) : alias_state :=
  let '(al, name) := an in
  match dict_get st.1 al with
  | Some v => (dict_set (dict_del st.1 al) name v, st.2 ++ [name])
  | None => if bool_decide (name ∈ _required_form_params.*1) then st else (dict_del st.1 name, st.2)
  end.

Definition is_missing (st : alias_state) (na : str * str) : bool :=
  let '(name, al) := na in
  if bool_decide (al = name) then match opt_value (dict_get st.1 name) with VNone => true | _ => false end
  else negb (bool_decide (name ∈ st.2)).

Definition missing_fields (st : alias_state) : list str := (List.filter (is_missing st) _required_form_params).*2.

Definition add_default (kw : kwargs) (d : str * str * value) : kwargs :=
  let '(name, al, v) := d in if dict_mem kw al || dict_mem kw name then kw else dict_set kw name v.

(** ** Files *)

(** File objects of the core that are no [UploadFile]. *)
Context (file_of : Z -> Upload.file).

Record fstate : Type := mkFState { f_store : Form.store; f_next : nat; f_created : list nat }.

Definition new_upload (st : fstate) (u : Upload.UploadFile) : fstate * value :=
  (mkFState (<[f_next st := u]> (f_store st)) (S (f_next st)) (f_created st ++ [f_next st]), VUpload (f_next st)).

(** [file.seek(0); file.read()] *)
Definition read_all (st : fstate) (i : nat) : result (fstate * value) :=
  match f_store st !! i with
  | None => Ok (st, VNone)
  | Some u =>
      let! u1 := Upload.seek u 0 in
      let! (b, u2) := Upload.read u1 (-1) in
      Ok (mkFState (<[i := u2]> (f_store st)) (f_next st) (f_created st), VBytes b)
  end.

(** [item.get('data') or b''] as a value, as a file, and its size. *)
Definition item_value (item : kwargs) : value :=
  match dict_get item $"data" with Some (VBytes b) => VBytes b | Some (VObject o) => VObject o | _ => VBytes [] end.

Definition item_file (item : kwargs) : Upload.file :=
  match item_value item with VObject o => file_of o | VBytes b => Upload.mkFile b 0 false | _ => Upload.mkFile [] 0 false end.

Definition item_size (item : kwargs) : Z :=
  match dict_get item $"size" with
  | Some (VInt z) => if z =? 0 then (match item_value item with VBytes b => Z.of_nat (length b) | _ => 0 end) else z
  | _ => match item_value item with VBytes b => Z.of_nat (length b) | _ => 0 end
  end.

Definition text_at (item : kwargs) (k : str) (dflt : str) : str :=
  match dict_get item k with Some (VStr ((_ :: _) as s)) => s | _ => dflt end.

Definition item_upload (item : kwargs) : Upload.UploadFile :=
  Upload.mkUpload (Some (text_at item $"filename" [])) (text_at item $"content_type" $"application/octet-stream")
    (Some (item_size item)) (item_file item).

Definition bytes_upload (b : bytes) : Upload.UploadFile :=
  Upload.mkUpload (Some []) $"application/octet-stream" (Some (Z.of_nat (length b))) (Upload.mkFile b 0 false).

(** An item of a list. *)
Definition convert_item (upload : bool) (st : fstate) (item : value) : result (fstate * value) :=
  match item with
  | VUpload i => if upload then Ok (st, item) else read_all st i
  | VDict d =>
      if dict_mem d $"data" then if upload then Ok (new_upload st (item_upload d)) else Ok (st, item_value d)
      else Ok (st, item)
  | VBytes b => if upload then Ok (new_upload st (bytes_upload b)) else Ok (st, item)
  | _ => Ok (st, item)
  end.

Definition convert_list (upload : bool) (st : fstate) (l : list value) : result (fstate * list value) :=
  rfold (fun acc item => let! (st, v) := convert_item upload acc.1 item in Ok (st, acc.2 ++ [v])) (st, []) l.

Definition in_list (p : file_param) (v : value) : value := if fp_list p then VSeq KList [v] else v.

(** What the endpoint gets for the raw value, if it is one of those known. *)
Definition convert_raw (p : file_param) (st : fstate) (raw : value) : result (fstate * option value) :=
  match raw with
  | VUpload i =>
      if fp_upload p then Ok (st, Some (in_list p raw)) else let! (st, v) := read_all st i in Ok (st, Some (in_list p v))
  | VSeq KList l => let! (st, l') := convert_list (fp_upload p) st l in Ok (st, Some (VSeq KList l'))
  | VDict d =>
      if dict_mem d $"data" then
        if fp_upload p then let '(st, v) := new_upload st (item_upload d) in Ok (st, Some (in_list p v))
        else Ok (st, Some (in_list p (item_value d)))
      else Ok (st, None)
  | _ => Ok (st, None)
  end.

Definition convert_file (acc : kwargs * fstate) (p : file_param) : result (kwargs * fstate) :=
  let '(kw, st) := acc in
  let same := bool_decide (fp_alias p = fp_name p) in
  let raw := opt_value (dict_get kw (if same then fp_name p else fp_alias p)) in
  let! (st, v) := convert_raw p st raw in
  let kw := match v with Some v => dict_set kw (fp_name p) v | None => kw end in
  if same then Ok (kw, st)
  else
    let kw := dict_del kw (fp_alias p) in
    let kw := match fp_info_alias p with
              | Some ((_ :: _) as a) => if bool_decide (a = fp_name p) || bool_decide (a = fp_alias p) then kw else dict_del kw a
              | _ => kw
              end in
    Ok (match raw with VNone => dict_del kw (fp_name p) | _ => kw end, st).

(** ** The wrapper *)
Context {R : Type} (endpoint : kwargs -> Form.store -> Form.store * (R + exn)).
Context (invalid : list error -> R + exn).

(** [finally]: the files made here, then those that are arguments. *)
Definition close_all (ids : list nat) (s : Form.store) : Form.store := foldl (fun s i => alter Upload.close i s) s ids.

Definition uploads_in (kw : kwargs) (created : list nat) : list nat :=
  omap (fun kv => match kv.2 with VUpload i => if bool_decide (i ∈ created) then None else Some i | _ => None end) kw.

(** The arguments of the call, if there is one, the result, the files made and
    the store at the end. *)
Record form_run : Type := mkFormRun {
  fr_call : option kwargs;
  fr_result : R + exn;
  fr_created : list nat;
  fr_store : Form.store
}.

Definition _form_shim (kw : kwargs) (s : Form.store) (next : nat) : form_run :=
  let st := foldl remap_alias (kw, pre_scan kw) _alias_to_name in
  let st := (pop_keys _extra_aliases_to_remove st.1, st.2) in
  match missing_fields st with
  | (_ :: _) as names => mkFormRun None (invalid (missing $"body" <$> names)) [] s
  | [] =>
      let kw := foldl add_default st.1 _optional_form_defaults in
      match rfold convert_file (kw, mkFState s next []) file_params with
      | Raise e => mkFormRun None (inr e) [] s
      | Ok (kw, fs) =>
          let '(s', out) := endpoint kw (f_store fs) in
          mkFormRun (Some kw) out (f_created fs) (close_all (uploads_in kw (f_created fs)) (close_all (f_created fs) s'))
      end
  end.
End form.

(** ** Files are closed *)
Definition is_closed (s : Form.store) (i : nat) : Prop := ∀ u, s !! i = Some u -> Upload.closed (Upload.the_file u) = true.

Lemma close_all_keeps ids s i : is_closed s i -> is_closed (close_all ids s) i.
Proof.
  unfold close_all. revert s. induction ids as [|j ids IH]; intros s Hs; simpl; [done|]. apply IH.
  intros u Hu. destruct (decide (j = i)) as [->|Hne].
  - rewrite lookup_alter_eq in Hu. apply fmap_Some in Hu as (u' & _ & ->). done.
  - rewrite lookup_alter_ne in Hu by done. by apply Hs.
Qed.

Lemma close_all_closes ids s i : i ∈ ids -> is_closed (close_all ids s) i.
Proof.
  revert s. induction ids as [|j ids IH]; intros s Hi; [by apply not_elem_of_nil in Hi|].
  change (is_closed (close_all ids (alter Upload.close j s)) i).
  apply elem_of_cons in Hi as [->|Hi]; [|by apply IH]. apply close_all_keeps.
  intros u Hu. rewrite lookup_alter_eq in Hu. apply fmap_Some in Hu as (u' & _ & ->). done.
Qed.

(** When the endpoint was called, whether it returned or raised, every file made
    for it and every file among its arguments is closed at the end. *)
Theorem form_files_closed {R} body file_of (endpoint : kwargs -> Form.store -> Form.store * (R + exn)) invalid kw s next call i :
  let run := _form_shim body file_of endpoint invalid kw s next in
  fr_call run = Some call -> i ∈ fr_created run ∨ (∃ k, (k, VUpload i) ∈ call) -> is_closed (fr_store run) i.
Proof.
  intros run. unfold run, _form_shim. destruct (missing_fields _ _); [|done].
  destruct (rfold _ _ _) as [[kw' fs]|e]; [|done]. destruct (endpoint kw' (f_store fs)) as [s' out]. simpl.
  intros [= <-] Hi. destruct (decide (i ∈ f_created fs)) as [Hc|Hc]; [by apply close_all_keeps, close_all_closes|].
  apply close_all_closes. destruct Hi as [|[k Hk]]; [done|]. unfold uploads_in. apply list_elem_of_omap.
  exists (k, VUpload i). split; [done|]. simpl. by rewrite bool_decide_false.
Qed.

(** ** Concrete forms *)
Module SampleForm.
Definition field (a : ann) (dflt : option value) (al : option str) (name : string) : ModelField :=
  mkField (mkInfo FileI None a dflt al None None None false) ($name).

Definition one : ModelField := field (Cls UploadFileC) None (Some $"upload") "file".
Definition many : ModelField := field (Generic ListC [Cls UploadFileC]) None None "files".
Definition raw : ModelField := field (Cls BytesC) None None "raw".

Definition core_file : Upload.UploadFile := Upload.mkUpload (Some $"a.txt") $"text/plain" (Some 2) (Upload.mkFile $"hi" 0 false).
Definition files : Form.store := {[ 1%nat := core_file ]}.

Definition run (body : list ModelField) (kw : kwargs) : form_run :=
  _form_shim body (fun _ => Upload.mkFile [] 0 false) (fun kw s => (s, inl kw)) (fun es => inl [($"errors", VInt (Z.of_nat (length es)))])
    kw files 7.

Definition open_files (r : @form_run kwargs) : list nat :=
  (List.filter (fun iu => negb (Upload.closed (Upload.the_file iu.2))) (map_to_list (fr_store r))).*1.
End SampleForm.

Import SampleForm.

Lemma form_files_closed_witness :
  let r := run [one] [($"upload", VDict [($"data", VBytes $"abc")])] in
  fr_call r = Some [($"file", VUpload 7)] ∧ is_closed (fr_store r) 7.
Proof.
  intros r. split; [vm_compute; reflexivity|].
  apply (form_files_closed [one] (fun _ => Upload.mkFile [] 0 false) (fun kw s => (s, inl kw)) (fun es => inl [($"errors", VInt (Z.of_nat (length es)))])
    [($"upload", VDict [($"data", VBytes $"abc")])] files 7 [($"file", VUpload 7)] 7); [vm_compute; reflexivity|].
  left. vm_compute. left.
Defined.

(** Bytes are read from an upload, and a field sent under its name instead of
    its alias is missing. *)
Example bytes_are_read : fr_call (run [raw] [($"raw", VUpload 1)]) = Some [($"raw", VBytes $"hi")].
Proof. vm_compute. reflexivity. Qed.

Example alias_is_required : fr_result (run [one] [($"file", VUpload 1)]) = inl [($"errors", VInt 1)].
Proof. vm_compute. reflexivity. Qed.

(** Files of the core that are items of a list stay open. *)
Example listed_files_stay_open :
  fr_call (run [many] [($"files", VSeq KList [VUpload 1])]) = Some [($"files", VSeq KList [VUpload 1])]
  ∧ open_files (run [many] [($"files", VSeq KList [VUpload 1])]) = [1%nat].
Proof. split; vm_compute; reflexivity. Qed.
