(* ===== verification/Handler.v ===== *)
(** * Handler: running a path operation

    [get_request_handler] of [routing.py] with what it uses: the cached
    endpoint contexts, the reading of the body, [serialize_response] and the
    construction of the response; and [get_websocket_app].  The handler works
    on the request, the state of the dependency solver and the context cache.
    Pydantic, the compiled core, the multipart tokenizer and the user's code
    are parameters. *)

From S2P Require Import Prelude PyStr Asgi DataStructures Multipart Requests MutableHeaders Responses.
From S2P Require Import ExceptionHandler Annotations Dependants ParamArgs Solve.
Import Exceptions.

(** ** Endpoint contexts *)

(** The cache: identities of functions with the contexts built for them, the
    least recently used one first. *)
Abbreviation ctx_cache := (list (Z * EndpointContext)).

(** What introspection finds out about a function: its name, and what
    [inspect.getsourcefile] and [inspect.getsourcelines] return. *)
Record Introspection : Type := mkIntro {
  i_name : option str;
  i_file : result (option str);
  i_line : result Z
}.

Definition _ENDPOINT_CTX_CACHE_MAX : nat := 2048.

(** [cached.get("function_name")]: contexts have no such key. *)
Definition cached_name (_ : EndpointContext) : option str := None.

(** The context of a function: the line is looked up once the file is known. *)
Definition new_context (i : Introspection) : EndpointContext :=
  match i_file i with
  | Raise _ => mkCtx (i_name i) None None None
  | Ok file => mkCtx (i_name i) None file (match i_line i with Ok n => Some n | Raise _ => None end)
  end.

(** [popitem(last=False)] when the cache is full. *)
Definition make_room (c : ctx_cache) : ctx_cache :=
  if bool_decide (_ENDPOINT_CTX_CACHE_MAX ≤ length c)%nat then tail c else c.

Definition _extract_endpoint_context (c : ctx_cache) (func_id : Z) (i : Introspection)
    : ctx_cache * EndpointContext :=
  let rebuild c :=
    let ctx := new_context i in (dict_set (make_room c) func_id ctx, ctx) in
  match dict_get c func_id with
  | Some cached =>
      if bool_decide (cached_name cached = i_name i) then (dict_del c func_id ++ [(func_id, cached)], cached)
      else rebuild (dict_del c func_id)
  | None => rebuild c
  end.

(** [endpoint_ctx["path"] = ...]: the dictionary is the one in the cache. *)
Definition with_path (ctx : EndpointContext) (p : str) : EndpointContext :=
  mkCtx (ctx_function ctx) (Some p) (ctx_file ctx) (ctx_line ctx).

Definition set_path (c : ctx_cache) (func_id : Z) (ctx : EndpointContext) (p : str) : ctx_cache * EndpointContext :=
  let ctx' := with_path ctx p in (dict_set c func_id ctx', ctx').

(** The context of a request for the path [dep_path]. *)
Definition endpoint_context (c : ctx_cache) (func_id : Z) (i : Introspection) (label root path : str)
    : ctx_cache * EndpointContext :=
  let '(c1, ctx) := _extract_endpoint_context c func_id i in
  match path with
  | [] => (c1, ctx)
  | _ => set_path c1 func_id ctx (label ++ $" " ++ rstrip 47 root ++ path)
  end.

(** ** Outcomes *)
Inductive failure : Type :=
  | Failed (e : exn)
  | RequestValidationError (errors : list error) (body : body_data) (ctx : EndpointContext)
  | ResponseValidationError (errors : list error) (content : value) (ctx : EndpointContext)
  | WebSocketRequestValidationError (errors : list error) (ctx : EndpointContext).

(** A step of the handler returns, fails, or waits for ever for an event. *)
Inductive outcome (A : Type) : Type := Returns (a : A) | Fails (f : failure) | Blocks.
Arguments Returns {A} a.
Arguments Fails {A} f.
Arguments Blocks {A}.

(** Forms come with the files they refer to. *)
Abbreviation form_files := (Form.FormData * Form.store)%type.

(** The state: the request, the solver, the context cache, and the forms to
    be closed with the middleware's exit stack. *)
Record hstate : Type := mkH {
  h_request : Request value form_files;
  h_solver : sstate;
  h_contexts : ctx_cache;
  h_to_close : list Form.FormData
}.

Definition H (A : Type) : Type := hstate -> hstate * outcome A.

Definition hret {A} (a : A) : H A := fun s => (s, Returns a).
Definition hfail {A} (f : failure) : H A := fun s => (s, Fails f).
Definition hbind {A B} (m : H A) (k : A -> H B) : H B := fun s =>
  match m s with
  | (s', Returns a) => k a s'
  | (s', Fails f) => (s', Fails f)
  | (s', Blocks) => (s', Blocks)
  end.
Notation "'run!' x := m 'in' k" := (hbind m (fun x => k))
  (at level 10, x pattern, m at level 100, k at level 200).

Definition of_result {A} (r : result A) : H A := fun s =>
  (s, match r with Ok a => Returns a | Raise e => Fails (Failed e) end).

(** An operation of the request. *)
Definition on_request {A} (f : Request value form_files -> Request value form_files * awaited A) : H A :=
  fun s =>
  let '(r, a) := f (h_request s) in
  (mkH r (h_solver s) (h_contexts s) (h_to_close s),
   match a with Done x => Returns x | Raised e => Fails (Failed e) | Waits => Blocks end).

(** A computation of the solver. *)
Definition on_solver {A} (m : M A) : H A := fun s =>
  let '(st, r) := m (h_solver s) in
  (mkH (h_request s) st (h_contexts s) (h_to_close s),
   match r with Ok x => Returns x | Raise e => Fails (Failed e) end).

(** [file_stack.push_async_callback(body.close)]; the files of the form become
    those of the request. *)
Definition push_close (f : form_files) : H Form.FormData := fun s =>
  let st := h_solver s in
  (mkH (h_request s) (with_files st f.2) (h_contexts s) (h_to_close s ++ [f.1]), Returns f.1).

(** ** The environment *)

(** What [process_request] of the core returns. *)
Record processed : Type := mkProcessed {
  p_json_body : option value;
  p_query_params : list (str * list str);
  p_headers : list (str * str);
  p_cookies : list (str * str)
}.

Record BodyParsers : Type := mkParsers {
  tokenize : bytes -> bytes -> result (list mp_event);
  core_multipart : bytes -> str -> result form_files;
  multipart_fallback : bytes -> str -> result form_files;
  core_urlencoded_form : bytes -> result form_files;
  dict_form : list (str * list str) -> form_files;
  parse_urlencoded_body : bytes -> result (list (str * Form.fvalue));
  process_request : str -> raw_headers -> bytes -> result processed;
  decode_error_pos : exn -> option (Z * bytes)
}.

(** The options of the response model. *)
Record SerializeOptions : Type := mkSerialize {
  so_include : option Z;
  so_exclude : option Z;
  so_by_alias : bool;
  so_exclude_unset : bool;
  so_exclude_defaults : bool;
  so_exclude_none : bool
}.

(** Response classes: [JSONResponse], the text classes with their media type,
    and any other one. *)
Inductive response_class : Type :=
  | JsonClass
  | TextClass (media : str)
  | OtherClass (c : Z).

(** What the user's code and Pydantic do: serialization by a field, the
    [model_dump] of an object, [jsonable_encoder], the JSON encoders, other
    response classes; which values are [Response] objects; what the calls made
    have left in the response object given to dependencies (its status, [None]
    unless set, and its headers), and what running background tasks does. *)
Record Outputs : Type := mkOutputs {
  serialize : ModelField -> value -> SerializeOptions -> result value;
  model_dump : value -> option (result value);
  jsonable : value -> result value;
  encode_to_json_bytes : value -> result bytes;
  json_dumps : value -> result bytes;
  construct : Z -> value -> option Z -> option (result unit) -> result Response;
  returned_response : list call_entry -> value -> option Response;
  response_status : list call_entry -> Z -> option Z;
  response_headers : list call_entry -> Z -> raw_headers;
  run_tasks : list call_entry -> Z -> result unit
}.

(** The arguments of [get_request_handler]. *)
Record HandlerConfig : Type := mkConfig {
  hc_dependant : Dependant;
  hc_body_field : option ModelField;
  hc_status_code : option Z;
  hc_response_class : response_class;
  hc_response_field : option ModelField;
  hc_options : SerializeOptions;
  hc_embed_body_fields : bool;
  hc_func_id : Z;
  hc_intro : Introspection
}.

(** ** Reading the body *)
Section handler.
Context (env : Env) (bp : BodyParsers) (out : Outputs) (cfg : HandlerConfig).

Definition the_form : Request value form_files -> Request value form_files * awaited form_files :=
  Requests.form (core_multipart bp) (multipart_fallback bp) (core_urlencoded_form bp) (dict_form bp).

Definition read_form : H body_data :=
  run! b := on_request Requests.body in
  run! ct := (fun s => (s, Returns (Requests.content_type (h_request s)))) in
  if contains $"multipart/form-data" ct then
    match _extract_boundary ct, b with
    | Some ((_ :: _) as boundary), _ :: _ =>
        run! bnd := of_result (utf8_encode boundary) in
        run! f := of_result (_parse_multipart_streaming (tokenize bp) b bnd) in
        run! f := push_close f in
        hret (FormBody f)
    | _, _ =>
        run! f := on_request the_form in
        run! f := push_close f in
        hret (FormBody f)
    end
  else if contains $"application/x-www-form-urlencoded" ct then
    match b with
    | [] => hret (FormBody (Form.init [] []))
    | _ =>
        run! pairs := of_result (parse_urlencoded_body bp b) in
        hret (FormBody (Form.init pairs []))
    end
  else
    run! f := on_request the_form in
    run! f := push_close f in
    hret (FormBody f).

(** What reading a body adds to the scope. *)
Definition with_processed (rq : Req) (p : processed) : Req :=
  mkReq (rq_is_request rq) (rq_path_params rq) (rq_query_string rq) (rq_headers rq) (Some (p_query_params p))
    (Some (p_headers p)) (Some (p_cookies p)) (rq_inner_astack rq) (rq_function_astack rq) (rq_body rq) (rq_embed rq).

(** The name [parse_json_bytes] that is imported when the scope has been
    parsed before does not exist: the body then stays undecoded. *)
Definition read_json (rq : Req) : H (body_data * Req) :=
  run! b := on_request Requests.body in
  match b with
  | [] => hret (NoBody, rq)
  | _ =>
      match rq_core_query rq, rq_core_headers rq with
      | Some _, Some _ => hret (JsonBody (VBytes b), rq)
      | _, _ =>
          run! p := of_result (process_request bp (decode_latin1 (get_or (rq_query_string rq) []))
                                 (get_or (rq_headers rq) []) b) in
          hret (JsonBody (match p_json_body p with Some v => v | None => VBytes b end), with_processed rq p)
      end
  end.

Definition read_body (rq : Req) : H (body_data * Req) :=
  match hc_body_field cfg with
  | None => hret (NoBody, rq)
  | Some f => if is_Form (fi_class (field_info f)) then run! b := read_form in hret (b, rq) else read_json rq
  end.

Definition body_error : exn := HTTPException 400 (Some $"There was an error parsing the body") None.

Definition json_invalid (pos : Z) : error :=
  mkError $"json_invalid" [$"body"; Z_to_str pos] $"JSON decode error" (VDict []).

(** The [except] clauses around the reading of the body. *)
Definition body_failure (ctx : EndpointContext) (f : failure) : failure :=
  match f with
  | Failed e =>
      match decode_error_pos bp e with
      | Some (pos, doc) => RequestValidationError [json_invalid pos] (JsonBody (VBytes doc)) ctx
      | None =>
          if isinstance e $"HTTPException" then Failed e
          else if isinstance e $"Exception" then Failed body_error else Failed e
      end
  | _ => f
  end.

Definition guarded_body (ctx : EndpointContext) (rq : Req) : H (body_data * Req) := fun s =>
  match read_body rq s with
  | (s', Fails f) => (s', Fails (body_failure ctx f))
  | r => r
  end.

(** ** Serialization *)

(** The values whose type is exactly one that the JSON encoder of the core
    takes. *)
Definition plain_json (v : value) : bool :=
  match v with
  | VNone | VStr _ | VBool _ | VInt _ | VFloat _ | VDict _ | VSeq KList _ => true
  | _ => false
  end.

Definition serialize_response (ctx : EndpointContext) (content : value) : H value :=
  match hc_response_field cfg with
  | Some f =>
      run! (v, errors) := of_result (validate (env_pydantic env) f content [$"response"]) in
      match errors with
      | [] => of_result (serialize out f v (hc_options cfg))
      | _ => hfail (ResponseValidationError errors content ctx)
      end
  | None =>
      if plain_json content then hret content
      else
        match model_dump out content with
        | Some (Ok v) => hret v
        | _ => of_result (jsonable out content)
        end
  end.

(** [isinstance(raw_response, (dict, list, str, int, float, bool))] *)
Definition simple_value (v : value) : bool :=
  match v with VNone => false | _ => plain_json v end.

(** Simple values skip [serialize_response] when there is no response model. *)
Definition response_content (ctx : EndpointContext) (raw : value) : H value :=
  match hc_response_field cfg with
  | None => if simple_value raw then hret raw else serialize_response ctx raw
  | Some _ => serialize_response ctx raw
  end.

(** ** The response *)

(** [a or b] for status codes. *)
Definition or_status (a b : option Z) : option Z :=
  match a with
  | Some z => if z =? 0 then b else a
  | None => b
  end.

Definition content_of (v : value) : result content :=
  match v with
  | VNone => Ok CNone
  | VBytes b => Ok (CBytes b)
  | VStr s => Ok (CStr s)
  | _ => Raise (AttributeError $"encode")
  end.

Definition json_class (v : value) (status : option Z) (bg : option (result unit)) : result Response :=
  JSONResponse (json_dumps out) (match v with VNone => None | _ => Some v end) (get_or status 200) [] None bg.

Definition build_response (v : value) (status : option Z) (bg : option (result unit)) : result Response :=
  match hc_response_class cfg with
  | JsonClass =>
      let core :=
        let! b := encode_to_json_bytes out v in
        response (CBytes b) (get_or status 200) [] (Some $"application/json") bg in
      match core with
      | Raise e =>
          if isinstance e $"ValueError" || isinstance e $"TypeError" then json_class v status bg else Raise e
      | Ok r => Ok r
      end
  | TextClass mt => let! c := content_of v in init_response render (Some mt) c (get_or status 200) [] None bg
  | OtherClass c => construct out c v status bg
  end.

Definition with_body (r : Response) (b : bytes) : Response :=
  mkResponse (status_code r) (media_type r) b (_raw_headers r) (background r).

(** The body is dropped when the status allows none; the headers of the
    response object of the dependencies follow. *)
Definition finish_response (r : Response) (extra : raw_headers) : Response :=
  let r := if allowed_code (status_code r) then r else with_body r [] in
  with_headers r (_raw_headers r ++ extra).

Definition with_tasks (r : Response) (bg : option (result unit)) : Response :=
  mkResponse (status_code r) (media_type r) (Responses.body r) (_raw_headers r)
    (match background r with Some b => Some b | None => bg end).

(** From what the endpoint returned to the response. *)
Definition respond (ctx : EndpointContext) (solved : SolvedDependency) (raw : value) : H Response :=
  run! log := (fun s => (s, Returns (calls (h_solver s)))) in
  let bg := run_tasks out log <$> s_background_tasks solved in
  match returned_response out log raw with
  | Some r => hret (with_tasks r bg)
  | None =>
      let status := or_status (response_status out log (s_response solved)) (hc_status_code cfg) in
      run! v := response_content ctx raw in
      run! r := of_result (build_response v status bg) in
      hret (finish_response r (response_headers out log (s_response solved)))
  end.

(** ** The handler *)
Definition endpoint_mode : call_mode :=
  if is_coroutine_callable (callable (env_program env) (dep_call (info (hc_dependant cfg)))) then Awaited
  else InThreadpool.

Definition run_endpoint_function (values : list (str * value)) : M value :=
  invoke env (cache_key (env_program env) (hc_dependant cfg)) false endpoint_mode
    (dep_call (info (hc_dependant cfg))) values.

Definition stack_error (name : str) : exn := AssertionError (name ++ $" not found in request scope").

Definition for_solver (rq : Req) (b : body_data) (embed : bool) : Req :=
  mkReq (rq_is_request rq) (rq_path_params rq) (rq_query_string rq) (rq_headers rq) (rq_core_query rq)
    (rq_core_headers rq) (rq_core_cookies rq) (rq_inner_astack rq) (rq_function_astack rq) b embed.

(** [file_stack]: whether the scope holds the stack of the middleware. *)
Definition app (file_stack : bool) (rq : Req) : H Response :=
  run! _ := of_result (py_assert file_stack $"astraapi_middleware_astack not found in request scope") in
  run! ctx := (fun s =>
    let sc := r_scope (h_request s) in
    let '(c, ctx) := endpoint_context (h_contexts s) (hc_func_id cfg) (hc_intro cfg) (get_or (sc_method sc) [])
                       (get_or (sc_root_path sc) []) (dep_path (info (hc_dependant cfg))) in
    (mkH (h_request s) (h_solver s) c (h_to_close s), Returns ctx)) in
  run! (b, rq) := guarded_body ctx rq in
  run! _ := of_result (py_assert (rq_inner_astack rq) $"astraapi_inner_astack not found in request scope") in
  run! solved := on_solver (solve_request env (for_solver rq b (hc_embed_body_fields cfg)) (hc_dependant cfg) None) in
  match s_errors solved with
  | [] =>
      run! raw := on_solver (run_endpoint_function (s_values solved)) in
      respond ctx solved raw
  | errors => hfail (RequestValidationError errors b ctx)
  end.

(** ** WebSocket endpoints *)
Definition websocket_app (rq : Req) : H unit :=
  run! ctx := (fun s =>
    let sc := r_scope (h_request s) in
    let '(c, ctx) := endpoint_context (h_contexts s) (hc_func_id cfg) (hc_intro cfg) $"WS"
                       (get_or (sc_root_path sc) []) (dep_path (info (hc_dependant cfg))) in
    (mkH (h_request s) (h_solver s) c (h_to_close s), Returns ctx)) in
  run! _ := of_result (py_assert (rq_inner_astack rq) $"astraapi_inner_astack not found in request scope") in
  run! solved := on_solver (solve_request env (for_solver rq NoBody (hc_embed_body_fields cfg)) (hc_dependant cfg) None) in
  match s_errors solved with
  | [] => run! _ := on_solver (invoke env (cache_key (env_program env) (hc_dependant cfg)) false Awaited
                                 (dep_call (info (hc_dependant cfg))) (s_values solved)) in
          hret tt
  | errors => hfail (WebSocketRequestValidationError errors ctx)
  end.
End handler.
