(* ===== verification/HandlerFacts.v ===== *)
(** * HandlerFacts: properties of the request handler

    The order in which it reads the body, solves the dependencies and calls the
    endpoint, the framing of its responses, and the cache of endpoint contexts. *)

From S2P Require Import Prelude PyStr Asgi DataStructures Multipart Requests MutableHeaders Responses.
From S2P Require Import ExceptionHandler Annotations Dependants ParamArgs Solve SolveFacts Handler.
Import Exceptions.

(** ** Steps that run no user code *)
Definition keeps_calls {A} (m : H A) : Prop := ∀ s, calls (h_solver (m s).1) = calls (h_solver s).

Create HintDb handler.

Lemma keeps_ret {A} (a : A) : keeps_calls (hret a).
Proof. done. Qed.
Lemma keeps_fail {A} f : keeps_calls (hfail (A := A) f).
Proof. done. Qed.
Lemma keeps_result {A} (r : result A) : keeps_calls (of_result r).
Proof. done. Qed.
Lemma keeps_read {A} (f : hstate -> A) : keeps_calls (fun s => (s, Returns (f s))).
Proof. done. Qed.
Lemma keeps_request {A} f : keeps_calls (on_request (A := A) f).
Proof. intros s. unfold on_request. by destruct (f (h_request s)). Qed.
Lemma keeps_push f : keeps_calls (push_close f).
Proof. done. Qed.
Lemma keeps_bind {A B} (m : H A) (k : A -> H B) :
  keeps_calls m -> (∀ a, keeps_calls (k a)) -> keeps_calls (hbind m k).
Proof.
  intros Hm Hk s. unfold hbind. specialize (Hm s). destruct (m s) as [s' [a|f|]]; simpl in *; [|done..].
  by rewrite (Hk a s').
Qed.

#[export] Hint Resolve keeps_ret keeps_fail keeps_result keeps_read keeps_request keeps_push keeps_bind : handler.

Section facts.
Context (env : Env) (bp : BodyParsers) (out : Outputs) (cfg : HandlerConfig).

Lemma keeps_read_form : keeps_calls (read_form bp).
Proof.
  unfold read_form. apply keeps_bind; [auto with handler|]. intros b.
  apply keeps_bind; [auto with handler|]. intros ct.
  repeat case_match; auto 8 with handler.
Qed.

Lemma keeps_read_json rq : keeps_calls (read_json bp rq).
Proof.
  unfold read_json. apply keeps_bind; [auto with handler|]. intros b.
  repeat case_match; auto 8 with handler.
Qed.

Lemma keeps_body ctx rq : keeps_calls (guarded_body bp cfg ctx rq).
Proof.
  assert (keeps_calls (read_body bp cfg rq)) as Hr.
  { unfold read_body. repeat case_match; auto using keeps_read_json, keeps_read_form with handler. }
  intros s. unfold guarded_body. specialize (Hr s). by destruct (read_body bp cfg rq s) as [s' [a|f|]].
Qed.

Lemma keeps_serialize ctx v : keeps_calls (serialize_response env out cfg ctx v).
Proof.
  unfold serialize_response. repeat case_match; auto with handler.
  apply keeps_bind; [auto with handler|]. intros [v' errors]. case_match; auto with handler.
Qed.

Lemma keeps_respond ctx solved raw : keeps_calls (respond env out cfg ctx solved raw).
Proof.
  unfold respond. apply keeps_bind; [apply keeps_read|]. intros log. case_match; [auto with handler|].
  apply keeps_bind; [|auto 8 with handler]. unfold response_content.
  repeat case_match; auto using keeps_serialize with handler.
Qed.

(** ** Failures that are no validation errors of the request *)
Definition is_request_error (f : failure) : bool :=
  match f with RequestValidationError _ _ _ => true | _ => false end.

Definition no_request_error {A} (m : H A) : Prop :=
  ∀ s f, (m s).2 = Fails f -> is_request_error f = false.

Lemma no_error_bind {A B} (m : H A) (k : A -> H B) :
  no_request_error m -> (∀ a, no_request_error (k a)) -> no_request_error (hbind m k).
Proof.
  intros Hm Hk s f. unfold hbind. specialize (Hm s). destruct (m s) as [s' [a|g|]]; simpl in *; try done.
  - apply Hk.
  - intros [= <-]. by apply Hm.
Qed.

Lemma no_error_result {A} (r : result A) : no_request_error (of_result r).
Proof. intros s f. destruct r; simpl; [done|]. by intros [= <-]. Qed.

Lemma no_error_ret {A} (a : A) : no_request_error (hret a).
Proof. done. Qed.

Lemma no_error_serialize ctx v : no_request_error (serialize_response env out cfg ctx v).
Proof.
  unfold serialize_response. repeat case_match; auto using no_error_result, no_error_ret.
  apply no_error_bind; [apply no_error_result|]. intros [v' errors]. case_match; [apply no_error_result|].
  intros s f [= <-]. done.
Qed.

Lemma no_error_respond ctx solved raw : no_request_error (respond env out cfg ctx solved raw).
Proof.
  unfold respond. apply no_error_bind; [by intros s f|]. intros log. case_match; [apply no_error_ret|].
  apply no_error_bind; [unfold response_content; repeat case_match; auto using no_error_serialize, no_error_ret|].
  intros v. apply no_error_bind; [apply no_error_result|]. intros r. apply no_error_ret.
Qed.

(** The record of the call of the endpoint. *)
Definition endpoint_entry (values : list (str * value)) : call_entry :=
  mkEntry (cache_key (env_program env) (hc_dependant cfg)) false (endpoint_mode env cfg)
    (dep_call (info (hc_dependant cfg))) values.

(** What a run of the handler from [s] may be: without a call of the endpoint
    there is no response; with one, it came last, its arguments are those of
    the solver, which found no error, and the request is not reported invalid. *)
Definition endpoint_last (s s' : hstate) (o : outcome Response) : Prop :=
  ∃ deps, NoDup (cached_keys deps) ∧ (∀ e, e ∈ deps -> ∃ c, ce_call e = overridden env c) ∧
    ((calls (h_solver s') = calls (h_solver s) ++ deps ∧ ∀ r, o ≠ Returns r) ∨
     (∃ rq st st1 solved,
        solve_request env rq (hc_dependant cfg) None st = (st1, Ok solved) ∧
        calls st = calls (h_solver s) ∧ s_errors solved = [] ∧
        calls (h_solver s') = calls (h_solver s) ++ deps ++ [endpoint_entry (s_values solved)] ∧
        ∀ f, o = Fails f -> is_request_error f = false)).

Lemma endpoint_not_called s s' o :
  calls (h_solver s') = calls (h_solver s) -> (∀ r, o ≠ Returns r) -> endpoint_last s s' o.
Proof.
  intros Hc Ho. exists []. split_and!; [apply NoDup_nil_2|set_solver|]. left. by rewrite app_nil_r.
Qed.

(** The part of the handler after the body. *)
Lemma solve_and_respond rq b ctx s s1 s' o :
  calls (h_solver s1) = calls (h_solver s) ->
  (run! solved := on_solver (solve_request env (for_solver rq b (hc_embed_body_fields cfg)) (hc_dependant cfg) None) in
   match s_errors solved with
   | [] =>
       run! raw := on_solver (run_endpoint_function env cfg (s_values solved)) in
       respond env out cfg ctx solved raw
   | errors => hfail (RequestValidationError errors b ctx)
   end) s1 = (s', o) ->
  endpoint_last s s' o.
Proof.
  intros Hc. set (rq' := for_solver rq b (hc_embed_body_fields cfg)). unfold hbind at 1, on_solver at 1.
  pose proof (disciplined_solve env rq' 101 None (hc_dependant cfg) None (h_solver s1)) as Hd.
  fold (solve_request env rq' (hc_dependant cfg) None) in Hd.
  destruct (solve_request env rq' (hc_dependant cfg) None (h_solver s1)) as [st1 r] eqn:Es. cbn [fst snd] in Hd.
  destruct Hd as (new & Hcalls & Hnd & _ & _ & _ & Hov). rewrite Hc in Hcalls.
  destruct r as [solved|e].
  - destruct (s_errors solved) as [|err errs] eqn:Ee.
    + set (s2 := mkH (h_request s1) st1 (h_contexts s1) (h_to_close s1)).
      intros Hrun. exists new. split_and!; [done..|]. right.
      exists rq', (h_solver s1), st1, solved. split_and!; [done..| |].
      * assert (calls (h_solver s') = calls st1 ++ [endpoint_entry (s_values solved)]) as ->.
        { unfold hbind, on_solver, run_endpoint_function, invoke in Hrun. simpl in Hrun.
          destruct (run_call env _ _ _) as [raw|e]; [|by simplify_eq].
          match type of Hrun with respond _ _ _ _ _ _ ?s3 = _ => pose proof (keeps_respond ctx solved raw s3) as Hk end.
          rewrite Hrun in Hk. exact Hk. }
        rewrite Hcalls. by rewrite app_assoc.
      * intros f ->. unfold hbind, on_solver, run_endpoint_function, invoke in Hrun. simpl in Hrun.
        destruct (run_call env _ _ _) as [raw|e]; [|by simplify_eq].
        eapply (no_error_respond ctx solved raw). by rewrite Hrun.
    + intros [= <- <-]. exists new. split_and!; [done..|]. left. done.
  - intros [= <- <-]. exists new. split_and!; [done..|]. left. done.
Qed.

Lemma app_endpoint_last file_stack rq s s' o :
  app env bp out cfg file_stack rq s = (s', o) -> endpoint_last s s' o.
Proof.
  unfold app. unfold hbind at 1. unfold of_result at 1. destruct file_stack; cbn [py_assert].
  2: { intros [= <- <-]. by apply endpoint_not_called. }
  unfold hbind at 1. destruct (endpoint_context _ _ _ _ _ _) as [c ctx].
  set (s0 := mkH (h_request s) (h_solver s) c (h_to_close s)).
  unfold hbind at 1. pose proof (keeps_body ctx rq s0) as Hk.
  destruct (guarded_body bp cfg ctx rq s0) as [s1 [[b rq1]|f|]]; cbn [fst snd] in *;
    [|intros [= <- <-]; by apply endpoint_not_called..].
  unfold hbind at 1. unfold of_result at 1. destruct (rq_inner_astack rq1); cbn [py_assert].
  - by apply solve_and_respond.
  - intros [= <- <-]. by apply endpoint_not_called.
Qed.

(** *** The order of the work *)

(** Reading the body needs all of it, if the route has one. *)
Lemma guarded_body_reads ctx rq s s1 b rq1 :
  guarded_body bp cfg ctx rq s = (s1, Returns (b, rq1)) ->
  match hc_body_field cfg with
  | None => b = NoBody ∧ rq1 = rq ∧ s1 = s
  | Some _ => ∃ content, (Requests.body (h_request s)).2 = Done content ∧ (content = [] -> b ≠ NoBody -> ∃ f, b = FormBody f)
  end.
Proof.
  unfold guarded_body, read_body. destruct (hc_body_field cfg) as [f|]; [|by intros [= <- <- <-]].
  destruct (is_Form (fi_class (field_info f))).
  - unfold read_form, hbind, on_request. destruct (Requests.body (h_request s)) as [r [x|e|]]; cbn [fst snd]; [|done..].
    intros Hrun. exists x. split; [done|]. intros _ _. revert Hrun. unfold hret, of_result, push_close, on_request.
    repeat (case_match; simplify_eq/=; try done); intros; simplify_eq/=; eauto.
  - unfold read_json, hbind, on_request. destruct (Requests.body (h_request s)) as [r [x|e|]]; cbn [fst snd]; [|done..].
    intros Hrun. exists x. split; [done|]. intros -> Hb. by simplify_eq/=.
Qed.

(** What follows the body: the solver runs on the request as the body left it,
    and on the body; its result decides whether the endpoint is called. *)
Definition after_body (ctx : EndpointContext) (b : body_data) (rq1 : Req) (s s1 s' : hstate) (o : outcome Response) : Prop :=
  ∃ deps st1 res,
    solve_request env (for_solver rq1 b (hc_embed_body_fields cfg)) (hc_dependant cfg) None (h_solver s1) = (st1, res)
    ∧ calls st1 = calls (h_solver s) ++ deps
    ∧ NoDup (cached_keys deps) ∧ (∀ e, e ∈ deps -> ∃ c, ce_call e = overridden env c)
    ∧ h_request s' = h_request s1
    ∧ match res with
      | Raise e => h_solver s' = st1 ∧ o = Fails (Failed e)
      | Ok solved =>
          if decide (s_errors solved = []) then
            calls (h_solver s') = calls st1 ++ [endpoint_entry (s_values solved)]
            ∧ ∀ f, o = Fails f -> is_request_error f = false
          else h_solver s' = st1 ∧ o = Fails (RequestValidationError (s_errors solved) b ctx)
      end.

(** A run of the handler with an exit stack for files: the body is read first,
    by no call of the program; without it, the run ends. *)
Definition body_first (rq : Req) (s s' : hstate) (o : outcome Response) : Prop :=
  ∃ c ctx s1 r,
    guarded_body bp cfg ctx rq (mkH (h_request s) (h_solver s) c (h_to_close s)) = (s1, r)
    ∧ calls (h_solver s1) = calls (h_solver s)
    ∧ match r with
      | Fails f => s' = s1 ∧ o = Fails f
      | Blocks => s' = s1 ∧ o = Blocks
      | Returns (b, rq1) =>
          match hc_body_field cfg with
          | None => b = NoBody ∧ rq1 = rq ∧ h_request s1 = h_request s
          | Some _ => ∃ content, (Requests.body (h_request s)).2 = Done content
                        ∧ (content = [] -> b ≠ NoBody -> ∃ f, b = FormBody f)
          end
          ∧ (if rq_inner_astack rq1 then after_body ctx b rq1 s s1 s' o
             else s' = s1 ∧ o = Fails (Failed (stack_error $"astraapi_inner_astack")))
      end.

Definition keeps_req {A} (m : H A) : Prop := ∀ s, h_request (m s).1 = h_request s.
Lemma keeps_req_bind {A B} (m : H A) (k : A -> H B) :
  keeps_req m -> (∀ a, keeps_req (k a)) -> keeps_req (hbind m k).
Proof.
  intros Hm Hk s. unfold hbind. specialize (Hm s). destruct (m s) as [s' [a|f|]]; simpl in *; [|done..].
  by rewrite (Hk a s').
Qed.

Lemma keeps_req_respond ctx solved raw : keeps_req (respond env out cfg ctx solved raw).
Proof.
  unfold respond. apply keeps_req_bind; [done|]. intros log. case_match; [done|].
  apply keeps_req_bind; [|intros v; by apply keeps_req_bind].
  unfold response_content, serialize_response. repeat case_match; try done.
  apply keeps_req_bind; [done|]. intros [v' errors]. by case_match.
Qed.

Lemma solve_after_body ctx b rq1 s s1 s' o :
  calls (h_solver s1) = calls (h_solver s) ->
  (run! solved := on_solver (solve_request env (for_solver rq1 b (hc_embed_body_fields cfg)) (hc_dependant cfg) None) in
   match s_errors solved with
   | [] =>
       run! raw := on_solver (run_endpoint_function env cfg (s_values solved)) in
       respond env out cfg ctx solved raw
   | errors => hfail (RequestValidationError errors b ctx)
   end) s1 = (s', o) ->
  after_body ctx b rq1 s s1 s' o.
Proof.
  intros Hc. set (rq' := for_solver rq1 b (hc_embed_body_fields cfg)). unfold hbind at 1, on_solver at 1.
  pose proof (disciplined_solve env rq' 101 None (hc_dependant cfg) None (h_solver s1)) as Hd.
  fold (solve_request env rq' (hc_dependant cfg) None) in Hd.
  destruct (solve_request env rq' (hc_dependant cfg) None (h_solver s1)) as [st1 r] eqn:Es. cbn [fst snd] in Hd.
  destruct Hd as (new & Hcalls & Hnd & _ & _ & _ & Hov). rewrite Hc in Hcalls.
  intros Hrun. exists new, st1, r. unfold rq' in Es. do 4 (split; [done|]).
  destruct r as [solved|e]; [|by injection Hrun as <- <-].
  destruct (s_errors solved) as [|err errs] eqn:Ee; [rewrite decide_True by done
    |rewrite decide_False by done; by injection Hrun as <- <-].
  unfold hbind, on_solver, run_endpoint_function, invoke in Hrun. simpl in Hrun.
  destruct (run_call env _ _ _) as [raw|e]; [|injection Hrun as <- <-; split_and!; [done..|by intros f [= <-]]].
  match type of Hrun with respond _ _ _ _ _ _ ?s3 = _ =>
    pose proof (keeps_respond ctx solved raw s3) as Hk; pose proof (keeps_req_respond ctx solved raw s3) as Hq end.
  rewrite Hrun in Hk, Hq. split; [exact Hq|]. split; [exact Hk|].
  intros f ->. eapply (no_error_respond ctx solved raw). by rewrite Hrun.
Qed.

Lemma app_body_first rq s s' o : app env bp out cfg true rq s = (s', o) -> body_first rq s s' o.
Proof.
  unfold app. unfold hbind at 1. unfold of_result at 1. cbn [py_assert].
  unfold hbind at 1. destruct (endpoint_context _ _ _ _ _ _) as [c ctx].
  unfold hbind at 1. pose proof (keeps_body ctx rq (mkH (h_request s) (h_solver s) c (h_to_close s))) as Hk.
  destruct (guarded_body bp cfg ctx rq _) as [s1 [[b rq1]|f|]] eqn:Eb; cbn [fst snd] in *;
    intros Hrun; exists c, ctx, s1; eexists; (split; [exact Eb|]); (split; [exact Hk|]);
    [|by injection Hrun as <- <-..].
  split.
  - pose proof (guarded_body_reads _ _ _ _ _ _ Eb) as Hb. destruct (hc_body_field cfg); [done|].
    destruct Hb as (-> & -> & ->). done.
  - unfold hbind at 1, of_result at 1 in Hrun. destruct (rq_inner_astack rq1); cbn [py_assert] in Hrun.
    + by apply solve_after_body.
    + by simplify_eq.
Qed.

(** ** Responses built from values *)

(** How a response announces its body [b]: statuses 204 and 304 have neither
    body nor length. *)
Definition framed (r : Response) (b : bytes) : Prop :=
  if bool_decide (status_code r = 204 ∨ status_code r = 304)
  then Responses.body r = [] ∧ _raw_headers r = []
  else Responses.body r = b ∧ MH.raw_values (_raw_headers r) content_length = [N_to_str (N.of_nat (length b))].

Lemma init_response_framed rnd cmt c status mt bg r :
  init_response rnd cmt c status [] mt bg = Ok r ->
  ∃ b, rnd c = Ok b ∧ framed r b ∧ status_code r = status ∧ background r = bg.
Proof.
  unfold init_response. intros H. inv_ok. cbn in H1. simplify_eq. exists x. split; [done|].
  apply populate_content in H as (Hs & Hb & Hf). cbn [status_code background Responses.body _raw_headers] in *.
  split_and!; [|done..]. unfold framed. rewrite Hs. case_bool_decide; [done|]. by destruct Hf as (-> & -> & _).
Qed.

(** Classes whose responses the handler builds itself. *)
Definition own_class : bool := match hc_response_class cfg with OtherClass _ => false | _ => true end.

Lemma build_response_framed v status bg r :
  own_class = true -> build_response out cfg v status bg = Ok r ->
  ∃ b, framed r b ∧ status_code r = get_or status 200 ∧ background r = bg ∧
    (∀ b', hc_response_class cfg = JsonClass -> encode_to_json_bytes out v = Ok b' -> b' = b).
Proof.
  unfold own_class, build_response, response, json_class, JSONResponse. intros Hc H.
  destruct (hc_response_class cfg) as [|mt|]; [| |done].
  - destruct (encode_to_json_bytes out v) as [b'|e] eqn:E; cbn [rbind] in H.
    + assert (∃ r', init_response render None (CBytes b') (get_or status 200) [] (Some $"application/json") bg = Ok r')
        as [r' Hr'].
      { unfold init_response. cbn [render rbind raw_of_dict rmapM]. unfold _populate_content_headers.
        case_bool_decide; eexists; reflexivity. }
      rewrite Hr' in H. simplify_eq. apply init_response_framed in Hr' as (b & [= <-] & ? & ? & ?).
      exists b'. split_and!; [done..|]. congruence.
    + case_match; [|done]. inv_ok. apply init_response_framed in H as (b & ? & ? & ? & ?). by exists b.
  - inv_ok. apply init_response_framed in H as (b & ? & ? & ? & ?). by exists b.
Qed.
End facts.

(** ** The context cache *)
Definition ctx_wf (c : ctx_cache) : Prop := dict_wf c ∧ (length c ≤ _ENDPOINT_CTX_CACHE_MAX)%nat.

Lemma dict_set_length {K V} `{EqDecision K} (d : list (K * V)) k v :
  length (dict_set d k v) = if dict_mem d k then length d else S (length d).
Proof.
  rewrite <-(length_fmap fst), dict_keys_set. destruct (dict_mem d k); rewrite ?length_app, length_fmap; simpl; lia.
Qed.

Lemma dict_del_length_le {K V} `{EqDecision K} (d : list (K * V)) k :
  (length (dict_del d k) ≤ length d)%nat ∧ (dict_mem d k = true -> S (length (dict_del d k)) = length d).
Proof.
  unfold dict_mem. induction d as [|[k' v'] d [IH1 IH2]]; simpl; [done|]. case_decide; simpl; [lia|].
  split; [lia|]. intros H'. by rewrite IH2.
Qed.

Lemma make_room_wf c : ctx_wf c -> dict_wf (make_room c) ∧ (length (make_room c) < _ENDPOINT_CTX_CACHE_MAX)%nat.
Proof.
  unfold make_room, ctx_wf. intros [Hw Hl]. case_bool_decide; [|split; [done|lia]].
  destruct c as [|kv c]; simpl in *; [unfold _ENDPOINT_CTX_CACHE_MAX in *; lia|].
  unfold dict_wf in *. csimpl in Hw. apply NoDup_cons in Hw as [_ Hw]. split; [done|lia].
Qed.

Lemma dict_set_room_wf c id (ctx : EndpointContext) :
  dict_wf c -> (length c < _ENDPOINT_CTX_CACHE_MAX)%nat -> ctx_wf (dict_set c id ctx).
Proof. intros Hw Hl. split; [by apply dict_set_wf|]. rewrite dict_set_length. case_match; lia. Qed.

Lemma extract_context_wf c id i :
  ctx_wf c -> let '(c', _) := _extract_endpoint_context c id i in ctx_wf c' ∧ dict_mem c' id = true.
Proof.
  intros Hc. unfold _extract_endpoint_context. destruct (dict_get c id) as [cached|] eqn:E.
  - case_bool_decide.
    + split; [|apply dict_mem_true; rewrite fmap_app; set_solver]. destruct Hc as [Hw Hl].
      assert (dict_mem c id = true) as Hm by (unfold dict_mem; by rewrite E).
      split; [|rewrite length_app; simpl; pose proof (proj2 (dict_del_length_le c id) Hm); lia].
      unfold dict_wf. rewrite fmap_app. apply NoDup_app. split_and!; [by apply dict_del_wf| |by apply NoDup_singleton].
      intros k Hk. rewrite dict_keys_del in Hk by done. apply list_elem_of_filter in Hk as [? _]. set_solver.
    + assert (ctx_wf (dict_del c id)) as Hd.
      { split; [by apply dict_del_wf, Hc|]. pose proof (proj1 (dict_del_length_le c id)). destruct Hc. lia. }
      destruct (make_room_wf _ Hd). split; [by apply dict_set_room_wf|]. unfold dict_mem. by rewrite dict_get_set_eq.
  - destruct (make_room_wf _ Hc). split; [by apply dict_set_room_wf|]. unfold dict_mem. by rewrite dict_get_set_eq.
Qed.

Lemma endpoint_context_wf c id i label root path :
  ctx_wf c -> ctx_wf (endpoint_context c id i label root path).1.
Proof.
  intros Hc. unfold endpoint_context. pose proof (extract_context_wf c id i Hc) as H.
  destruct (_extract_endpoint_context c id i) as [c' ctx]. destruct H as [[Hw Hl] Hm].
  destruct path; [done|]. simpl. split; [by apply dict_set_wf|]. rewrite dict_set_length. by rewrite Hm.
Qed.

(** ** Claims *)


(** The response the handler builds from a value, and its length.  Its
    status is the one a dependency has set, else that of the route, else 200.
    When the status allows a body the announced length is that of the body;
    204 and 304 announce none beyond what dependencies add.  For the statuses
    below 200 and for 205 the body is dropped after its length has been
    announced: the response has no body, but announces the length of the
    dropped one. *)
Theorem handler_response_framing (env : Env) (out : Outputs) (cfg : HandlerConfig) (ctx : EndpointContext)
    (solved : SolvedDependency) (raw : value) (s s' : hstate) (r : Response)
    (Hclass : own_class cfg = true) (Hraw : returned_response out (calls (h_solver s)) raw = None)
    (Hrun : respond env out cfg ctx solved raw s = (s', Returns r)) :
  let log := calls (h_solver s) in
  let extra := response_headers out log (s_response solved) in
  let lengths := MH.raw_values (_raw_headers r) content_length in
  status_code r = get_or (or_status (response_status out log (s_response solved)) (hc_status_code cfg)) 200 ∧
  background r = (run_tasks out log <$> s_background_tasks solved) ∧
  (allowed_code (status_code r) = true ->
     head lengths = Some (N_to_str (N.of_nat (length (Responses.body r))))) ∧
  (allowed_code (status_code r) = false -> Responses.body r = []) ∧
  (status_code r = 204 ∨ status_code r = 304 -> _raw_headers r = extra) ∧
  (∀ dropped : bytes, status_code r < 200 ∨ status_code r = 205 ->
     hc_response_class cfg = JsonClass -> hc_response_field cfg = None -> simple_value raw = true ->
     encode_to_json_bytes out raw = Ok dropped ->
     head lengths = Some (N_to_str (N.of_nat (length dropped)))).
Proof.
  intros log extra lengths. unfold respond, hbind in Hrun. cbn [fst snd] in Hrun.
  fold log in Hraw, Hrun. rewrite Hraw in Hrun.
  destruct (response_content env out cfg ctx raw s) as [s1 [v|f|]] eqn:Hv; [|by simplify_eq..].
  unfold of_result in Hrun. destruct (build_response _ _ _ _ _) as [r0|e] eqn:Hb; [|by simplify_eq].
  simplify_eq. apply build_response_framed in Hb as (b & Hf & Hs & Hbg & Hj); [|done].
  unfold hret in Hrun. injection Hrun as <- <-.
  assert (status_code (finish_response r0 extra) = status_code r0) as Hst.
  { unfold finish_response. by destruct (allowed_code _). }
  assert (background (finish_response r0 extra) = background r0) as Hbk.
  { unfold finish_response. by destruct (allowed_code _). }
  assert (_raw_headers (finish_response r0 extra) = _raw_headers r0 ++ extra) as Hr.
  { unfold finish_response. by destruct (allowed_code _). }
  assert (Responses.body (finish_response r0 extra)
          = if allowed_code (status_code r0) then Responses.body r0 else []) as Hbody.
  { unfold finish_response. by destruct (allowed_code _). }
  unfold lengths. fold extra. rewrite Hst, Hbk, Hr, Hbody. unfold framed in Hf.
  assert (∀ k, MH.raw_values (_raw_headers r0 ++ extra) k
             = MH.raw_values (_raw_headers r0) k ++ MH.raw_values extra k) as Happ.
  { intros k. unfold MH.raw_values. by rewrite filter_app, fmap_app. }
  rewrite Happ. split_and!; [done|done| | | |].
  - intros Ha. rewrite Ha. unfold allowed_code in Ha. apply negb_true_iff, bool_decide_eq_false in Ha.
    rewrite bool_decide_false in Hf by naive_solver. by destruct Hf as [-> ->].
  - by intros ->.
  - intros Hn. rewrite bool_decide_true in Hf by done. by destruct Hf as [_ ->].
  - intros dropped Hn Hcl Hfield Hsimple Henc. rewrite bool_decide_false in Hf by lia. destruct Hf as [_ ->].
    unfold response_content in Hv. rewrite Hfield, Hsimple in Hv. unfold hret in Hv. simplify_eq. by rewrite (Hj dropped).
Qed.

(** A route with status 205 whose endpoint returns a list. *)
Module SampleHandler.
Definition outputs : Outputs := mkOutputs (fun _ v _ => Ok v) (fun _ => None) (fun v => Ok v)
  (fun _ => Ok $"[1]") (fun _ => Ok $"[1]") (fun _ _ _ _ => Raise NotImplementedError)
  (fun _ _ => None) (fun _ _ => None) (fun _ _ => []) (fun _ _ => Ok tt).

Definition config : HandlerConfig := mkConfig SampleRequest.tree None (Some 205) JsonClass None
  (mkSerialize None None true false false false) false 1 (mkIntro (Some $"f") (Ok None) (Ok 1)).

Definition state : hstate := mkH
  (Requests.init (mkScope Http $"/" None None None None None None None None None None false false) None true [])
  SampleRequest.start [] [].

Definition solved : SolvedDependency := mkSolved [] [] None 0.
End SampleHandler.

Lemma handler_response_framing_witness :
  ∃ r, (respond SampleRequest.env SampleHandler.outputs SampleHandler.config no_context SampleHandler.solved
          (VSeq KList [VInt 1]) SampleHandler.state).2 = Returns r ∧
    Responses.body r = [] ∧ head (MH.raw_values (_raw_headers r) content_length) = Some $"3".
Proof.
  eexists. split; [vm_compute; reflexivity|].
  destruct (handler_response_framing SampleRequest.env SampleHandler.outputs SampleHandler.config no_context
    SampleHandler.solved (VSeq KList [VInt 1]) SampleHandler.state SampleHandler.state
    (mkResponse 205 (Some $"application/json") [] [($"content-type", $"application/json"); ($"content-length", $"3")]
       None) eq_refl eq_refl ltac:(vm_compute; reflexivity)) as (_ & _ & _ & Hb & _ & Hl).
  split; [exact (Hb eq_refl)|]. exact (Hl $"[1]" (or_intror eq_refl) eq_refl eq_refl eq_refl eq_refl).
Defined.

(** The contexts of a sequence of requests. *)
Record ctx_request : Type := mkCtxRequest {
  cr_func : Z; cr_intro : Introspection; cr_label : str; cr_root : str; cr_path : str
}.

Definition serve_context (acc : ctx_cache * list EndpointContext) (q : ctx_request)
    : ctx_cache * list EndpointContext :=
  let '(c, ctx) := endpoint_context acc.1 (cr_func q) (cr_intro q) (cr_label q) (cr_root q) (cr_path q) in
  (c, acc.2 ++ [ctx]).

(** The context built from scratch. *)
Definition fresh_context (q : ctx_request) : EndpointContext :=
  match cr_path q with
  | [] => new_context (cr_intro q)
  | p => with_path (new_context (cr_intro q)) (cr_label q ++ $" " ++ rstrip 47 (cr_root q) ++ p)
  end.

Lemma named_context_fresh c q n :
  i_name (cr_intro q) = Some n ->
  (endpoint_context c (cr_func q) (cr_intro q) (cr_label q) (cr_root q) (cr_path q)).2 = fresh_context q.
Proof.
  intros Hn. unfold endpoint_context, _extract_endpoint_context, fresh_context, cached_name. rewrite Hn.
  by destruct (dict_get c (cr_func q)), (cr_path q).
Qed.

(** The cache of endpoint contexts is bounded and never serves a named
    function.  After any sequence of requests it holds at most 2048 contexts,
    of distinct functions; and when the functions have names, every request is
    answered with a context built from scratch, since the names compared are
    those of a key the contexts do not have. *)
Theorem endpoint_contexts_bounded (qs : list ctx_request)
    (Hnames : Forall (fun q => is_Some (i_name (cr_intro q))) qs) :
  let '(c, ctxs) := foldl serve_context ([], []) qs in
  (length c ≤ 2048)%nat ∧ NoDup c.*1 ∧ ctxs = fresh_context <$> qs.
Proof.
  assert (∀ c0 l0, ctx_wf c0 -> let '(c, ctxs) := foldl serve_context (c0, l0) qs in
            ctx_wf c ∧ ctxs = l0 ++ (fresh_context <$> qs)) as H.
  { induction Hnames as [|q qs [n Hn] _ IH]; intros c0 l0 Hc; cbn [foldl]; [by rewrite app_nil_r|].
    unfold serve_context at 2. cbn [fst snd].
    pose proof (named_context_fresh c0 q n Hn) as Hq.
    pose proof (endpoint_context_wf c0 (cr_func q) (cr_intro q) (cr_label q) (cr_root q) (cr_path q) Hc) as Hw.
    destruct (endpoint_context _ _ _ _ _ _) as [c1 ctx]. simpl in *. subst ctx.
    specialize (IH c1 (l0 ++ [fresh_context q]) Hw). destruct (foldl _ _ _). by rewrite <-app_assoc in IH. }
  specialize (H [] []). destruct (foldl _ _ _) as [c ctxs]. destruct H as [[? ?] ?]; [|done].
  split; [by apply NoDup_nil_2|simpl; unfold _ENDPOINT_CTX_CACHE_MAX; lia].
Qed.

Lemma endpoint_contexts_bounded_witness :
  let q := mkCtxRequest 5 (mkIntro (Some $"f") (Ok (Some $"a.py")) (Ok 3)) $"GET" $"/api/" $"/x" in
  foldl serve_context ([], []) [q; q]
  = ([(5, mkCtx (Some $"f") (Some $"GET /api/x") (Some $"a.py") (Some 3))],
     [mkCtx (Some $"f") (Some $"GET /api/x") (Some $"a.py") (Some 3);
      mkCtx (Some $"f") (Some $"GET /api/x") (Some $"a.py") (Some 3)]).
Proof.
  intros q. pose proof (endpoint_contexts_bounded [q; q] ltac:(repeat constructor; by eexists)) as H.
  destruct (foldl serve_context ([], []) [q; q]) as [c ctxs] eqn:E. destruct H as (_ & _ & ->).
  by vm_compute in E; simplify_eq.
Defined.
