(* ===== verification/RequestApp.v ===== *)
(** * RequestApp: the ASGI application of a path operation

    [request_response] and [websocket_session] of [routing.py]: the handler run
    inside the two exit stacks that the generator dependencies are entered on,
    and the sending of the response between their closing.  What a dependency
    does when it is left is a parameter. *)

From S2P Require Import Prelude PyStr Asgi DataStructures Requests MutableHeaders Responses.
From S2P Require Import ExceptionHandler Annotations Dependants ParamArgs Solve SolveFacts Handler HandlerFacts ExitStack.

(** ** Exit stacks *)

(** The dependencies that have been entered on a stack: calls of the log that
    did not raise. *)
Fixpoint entered_from (env : Env) (pre log : list call_entry) : list call_entry :=
  match log with
  | [] => []
  | e :: log' =>
      (if is_ok (run_call env pre (ce_call e) (ce_kwargs e)) then [e] else []) ++ entered_from env (pre ++ [e]) log'
  end.

Definition on_stack (m : call_mode) (e : call_entry) : bool :=
  match m, ce_mode e with
  | OnRequestStack, OnRequestStack | OnFunctionStack, OnFunctionStack => true
  | _, _ => false
  end.

Definition stack_of (m : call_mode) (l : list call_entry) : list call_entry :=
  filter (fun e => on_stack m e = true) l.

(** ** Running a request *)
Inductive act : Type := Exit (e : call_entry) | Send (r : Response).

Definition not_awaited : exn := AstraAPIError $"Response not awaited.".

(** [response] read before it is assigned. *)
Definition unbound_response : exn :=
  UserException ($"UnboundLocalError" :: $"NameError" :: base_mro) 0.

Definition of_ended (r : result unit) : option failure :=
  match r with Ok _ => None | Raise e => Some (Failed e) end.

(** How the inner application ends: [None] while it waits for ever. *)
Inductive ending : Type := Completed | Raised (f : failure).

Section app.
Context (env : Env) (bp : BodyParsers) (out : Outputs) (cfg : HandlerConfig).
Context (exit_gen : call_entry -> option failure -> exit_result failure).

(** The body of the two [async with] blocks, from what the handler did. *)
Definition after_handler (entered : list call_entry) (o : outcome Response) : option (list act * ending) :=
  match o with
  | Blocks => None
  | _ =>
      let pending := match o with Fails f => Some f | _ => None end in
      let '(exited, pending) := aexit exit_gen (stack_of OnFunctionStack entered) pending in
      let '(sends, pending) :=
        match o, pending with
        | _, Some f => ([], Some f)
        | Returns r, None => ([Send r], of_ended (ended (send_response r)))
        | _, None => ([], Some (Failed unbound_response))
        end in
      let awaited := match sends, pending with [_], None => true | _, _ => false end in
      let '(exited', pending) := aexit exit_gen (stack_of OnRequestStack entered) pending in
      Some ((Exit <$> exited) ++ sends ++ (Exit <$> exited'),
            match pending with
            | Some f => Raised f
            | None => if awaited then Completed else Raised (Failed not_awaited)
            end)
  end.

Definition request_app (file_stack : bool) (rq : Req) (s : hstate) : hstate * option (list act * ending) :=
  let '(s', o) := app env bp out cfg file_stack rq s in
  (s', after_handler (entered_from env (calls (h_solver s))
                        (drop (length (calls (h_solver s))) (calls (h_solver s')))) o).

(** [websocket_session] *)
Definition after_session (entered : list call_entry) (o : outcome unit) : option (list act * ending) :=
  match o with
  | Blocks => None
  | _ =>
      let pending := match o with Fails f => Some f | _ => None end in
      let '(exited, pending) := aexit exit_gen (stack_of OnFunctionStack entered) pending in
      let '(exited', pending) := aexit exit_gen (stack_of OnRequestStack entered) pending in
      Some ((Exit <$> exited) ++ (Exit <$> exited'),
            match pending with Some f => Raised f | None => Completed end)
  end.

Definition websocket_session_app (rq : Req) (s : hstate) : hstate * option (list act * ending) :=
  let '(s', o) := websocket_app env cfg rq s in
  (s', after_session (entered_from env (calls (h_solver s))
                        (drop (length (calls (h_solver s))) (calls (h_solver s')))) o).
End app.

(** ** Properties *)
(** C28: the life of a request.  The generator dependencies that were entered
    are all left, once each and in the reverse order of entry: those of scope
    [function] before the response is sent, those of scope [request] after.
    The response is sent at most once, and exactly when the handler returned it
    and no dependency of scope [function] failed while being left.  The
    application completes only if the response has been sent without an
    exception: it never ends silently without an answer, even when a
    dependency suppresses the exception that prevented it. *)
Theorem request_lifecycle (env : Env) (bp : BodyParsers) (out : Outputs) (cfg : HandlerConfig)
    (exit_gen : call_entry -> option failure -> exit_result failure) (file_stack : bool) (rq : Req) (s s' : hstate)
    (acts : list act) (e : ending)
    (Hrun : request_app env bp out cfg exit_gen file_stack rq s = (s', Some (acts, e))) :
  ∃ new sends o, calls (h_solver s') = calls (h_solver s) ++ new ∧
    app env bp out cfg file_stack rq s = (s', o) ∧
    let entered := entered_from env (calls (h_solver s)) new in
    acts = (Exit <$> reverse (stack_of OnFunctionStack entered)) ++ (Send <$> sends)
           ++ (Exit <$> reverse (stack_of OnRequestStack entered)) ∧
    (length sends ≤ 1)%nat ∧
    (∀ r, sends = [r] <-> o = Returns r ∧ (aexit exit_gen (stack_of OnFunctionStack entered) None).2 = None) ∧
    (e = Completed -> ∃ r, sends = [r] ∧ ended (send_response r) = Ok tt).
Proof.
  unfold request_app in Hrun. pose proof (app_endpoint_last env bp out cfg file_stack rq s) as Hlast.
  destruct (app env bp out cfg file_stack rq s) as [s1 o]. injection Hrun as <- Hrun.
  assert (∃ new, calls (h_solver s1) = calls (h_solver s) ++ new) as [new Hnew].
  { destruct (Hlast s1 o eq_refl) as (deps & _ & _ & [[-> _]|(? & ? & ? & ? & _ & _ & _ & -> & _)]); eauto. }
  rewrite Hnew, drop_app_length in Hrun. set (entered := entered_from env (calls (h_solver s)) new) in *.
  unfold after_handler, aexit in Hrun.
  pose proof (unwind_all exit_gen (reverse (stack_of OnFunctionStack entered))) as Hf.
  pose proof (unwind_all exit_gen (reverse (stack_of OnRequestStack entered))) as Hr.
  destruct o as [r|f|]; [| |done].
  - specialize (Hf None). destruct (unwind _ _ None) as [x p1] eqn:E1. simpl in Hf. subst x.
    destruct p1 as [f|].
    + specialize (Hr (Some f)). destruct (unwind _ _ (Some f)) as [y p2]. simpl in Hr. subst y. simplify_eq.
      exists new, [], (Returns r). cbn zeta. unfold aexit. fold entered. rewrite E1. split_and!; [done..|simpl; lia| |].
      * intros r'. split; [done|]. by intros [_ ?].
      * by destruct p2.
    + specialize (Hr (of_ended (ended (send_response r)))).
      destruct (unwind _ _ (of_ended _)) as [y p2] eqn:E2. simpl in Hr. subst y. simplify_eq.
      exists new, [r], (Returns r). cbn zeta. unfold aexit. fold entered. rewrite E1. split_and!; [done..|simpl; lia| |].
      * intros r'. split; [by intros [= ->]|]. by intros [[= ->] _].
      * intros He. exists r. split; [done|]. destruct p2; [done|].
        destruct (ended (send_response r)) as [[]|]; simpl in *; done.
  - specialize (Hf (Some f)). destruct (unwind _ _ (Some f)) as [x p1]. simpl in Hf. subst x.
    assert (∃ g, (match p1 with Some f => ([], Some f) | None => ([], Some (Failed unbound_response)) end)
                 = (([] : list act), Some g)) as [g Hg] by (destruct p1; eauto).
    rewrite Hg in Hrun. specialize (Hr (Some g)). destruct (unwind _ _ (Some g)) as [y p2]. simpl in Hr. subst y.
    simplify_eq. exists new, [], (Fails f). cbn zeta. fold entered. split_and!; [done..|simpl; lia| |].
    * intros r'. split; [done|]. by intros [? _].
    * by destruct p2.
Qed.

(** The route of the sample request: its session is a generator dependency of
    scope [request], left after the response has been sent. *)
Definition sample_run : hstate * option (list act * ending) :=
  request_app SampleRequest.env
    (mkParsers (fun _ _ => Ok []) (fun _ _ => Raise IndexError) (fun _ _ => Raise IndexError)
       (fun _ => Raise IndexError) (fun _ => (Form.init [] [], ∅)) (fun _ => Ok [])
       (fun _ _ _ => Raise IndexError) (fun _ => None))
    SampleHandler.outputs SampleHandler.config (fun _ _ => ExitReturns false) true SampleRequest.request
    SampleHandler.state.

Definition act_call (a : act) : option call := match a with Exit e => Some (ce_call e) | Send _ => None end.

Lemma request_lifecycle_witness :
  ∃ s' acts sends pre post, sample_run = (s', Some (acts, Completed)) ∧
    acts = (Exit <$> pre) ++ (Send <$> sends) ++ (Exit <$> post) ∧ (length sends ≤ 1)%nat ∧
    (act_call <$> acts) = [None; Some 3].
Proof.
  assert (∃ s' acts, sample_run = (s', Some (acts, Completed)) ∧ (act_call <$> acts) = [None; Some 3])
    as (s' & acts & Hrun & Hacts) by (eexists _, _; split; [vm_compute; reflexivity|reflexivity]).
  destruct (request_lifecycle _ _ _ _ _ _ _ _ _ _ _ Hrun) as (new & sends & o & _ & _ & Ha & Hl & _).
  eexists s', acts, sends, _, _. split; [exact Hrun|]. split; [exact Ha|]. split; [exact Hl|exact Hacts].
Defined.
