(* ===== verification/ApiRouting.v ===== *)
(** * ApiRouting: path operations, [APIRoute] and [APIRouter]

    [routing.py] and the helpers of [utils.py] it uses: the construction of a
    path operation with its dependant and response fields, the registration
    on a router, and the inclusion of one router in another with the lifespan
    contexts it merges.  Routers are objects of a store, since an included
    router stays reachable through its lifespan context.  Pydantic (schema
    generation, body models), what introspection finds out about an endpoint
    and custom functions for operation ids are parameters. *)

From S2P Require Import Prelude PyStr Asgi ExceptionHandler Convertors Routing Annotations Dependants Solve.

(** ** [DefaultPlaceholder] *)
Inductive defaultable (A : Type) : Type := Given (a : A) | DefaultPlaceholder (a : A).
Arguments Given {A} a.
Arguments DefaultPlaceholder {A} a.

Definition is_given {A} (d : defaultable A) : bool :=
  match d with Given _ => true | DefaultPlaceholder _ => false end.

Definition placeholder_value {A} (d : defaultable A) : A :=
  match d with Given a => a | DefaultPlaceholder a => a end.

(** [get_value_or_default]: the first item that is not a placeholder, else the
    first item. *)
Fixpoint first_given {A} (items : list (defaultable A)) : option (defaultable A) :=
  match items with
  | [] => None
  | d :: items' => if is_given d then Some d else first_given items'
  end.
Definition get_value_or_default {A} (first : defaultable A) (extra : list (defaultable A))
    : defaultable A :=
  get_or (first_given (first :: extra)) first.

(** [a or b] for optional truth values. *)
Definition or_deprecated (a b : option bool) : option bool :=
  match a with Some true => a | _ => b end.

(** ** Path operations *)

(** Opaque values ([IncEx], enums, callbacks, extra OpenAPI) are identified by
    numbers, response classes and functions for operation ids too. *)
Record ResponseOptions : Type := mkOptions {
  response_model_include : option Z;
  response_model_exclude : option Z;
  response_model_by_alias : bool;
  response_model_exclude_unset : bool;
  response_model_exclude_defaults : bool;
  response_model_exclude_none : bool
}.

(** An entry of [responses]: its ["model"] and the rest of the dictionary. *)
Record AdditionalResponse : Type := mkAdditional { ad_model : option ann; ad_rest : Z }.

Abbreviation responses_dict := (list (status_key * AdditionalResponse)).

(** The keyword arguments of a path operation. *)
Record RouteArgs : Type := mkArgs {
  a_response_model : defaultable (option ann);
  a_status_code : option Z;
  a_tags : option (list str);
  a_dependencies : option (list Depends);
  a_summary : option str;
  a_description : option str;
  a_response_description : str;
  a_responses : option responses_dict;
  a_deprecated : option bool;
  a_methods : option (list str);
  a_operation_id : option str;
  a_options : ResponseOptions;
  a_include_in_schema : bool;
  a_response_class : defaultable Z;
  a_name : option str;
  a_callbacks : option (list Z);
  a_openapi_extra : option Z;
  a_generate_unique_id : defaultable Z
}.

(** A response field: the name and type of the [ModelField]. *)
Record ResponseField : Type := mkResponseField { rf_name : str; rf_type : ann }.

Record APIRoute : Type := mkAPIRoute {
  path : str;
  endpoint : call;
  response_model : option ann;
  summary : option str;
  response_description : str;
  deprecated : option bool;
  operation_id : option str;
  options : ResponseOptions;
  include_in_schema : bool;
  response_class : defaultable Z;
  dependency_overrides_provider : option Z;
  callbacks : option (list Z);
  openapi_extra : option Z;
  generate_unique_id_function : defaultable Z;
  tags : list str;
  responses : responses_dict;
  name : str;
  compiled : Compiled;
  methods : list str;
  unique_id : str;
  status_code : option Z;
  response_field : option ResponseField;
  route_dependencies : list Depends;
  description : str;
  response_fields : list (status_key * ResponseField);
  dependant : Dependant;
  flat_dependant : Dependant;
  embed_body_fields : bool;
  body_field : option ModelField
}.

(** What is known of the program beyond its signatures: the cleaned
    docstring and the return annotation of an endpoint, which annotations are
    Pydantic v1 models or have no schema, the body models Pydantic creates,
    custom functions for operation ids, the iteration order of a set of
    methods, and the word characters from U+0100 on. *)
Record World : Type := mkWorld {
  program : Program;
  convertors : list (str * Convertor);
  recursion_limit : nat;
  cleaned_doc : call -> str;
  return_annotation : call -> option ann;
  annotation_is_pydantic_v1 : ann -> bool;
  has_schema : ann -> bool;
  create_body_model : list ModelField -> str -> ann;
  custom_unique_id : Z -> str -> str -> list str -> result str;
  set_iter : list str -> list str;
  wide_word : N -> bool
}.

Section routes.
Context (w : World).

(** [\w] of a Unicode pattern. *)
Definition is_word (c : N) : bool :=
  if (c <? 256)%N then
    ascii_upper_letter c || ascii_lower_letter c || is_digit c || (c =? 95)%N
    || existsb (N.eqb c) [170; 178; 179; 181; 185; 186; 188; 189; 190]%N
    || (in_range 192 255 c && negb (c =? 215)%N && negb (c =? 247)%N)
  else wide_word w c.

(** [generate_unique_id] *)
Definition generate_unique_id (nm path_fmt : str) (ms : list str) : result str :=
  let operation_id := (fun c => if is_word c then c else 95%N) <$> nm ++ path_fmt in
  match set_iter w ms with
  | [] => Raise (AssertionError [])
  | m :: _ => Ok (operation_id ++ $"_" ++ str_lower m)
  end.

(** Function 0 is [generate_unique_id] itself. *)
Definition call_unique_id (f : Z) : str -> str -> list str -> result str :=
  if bool_decide (f = 0) then generate_unique_id else custom_unique_id w f.

Definition v1_error : exn :=
  PydanticV1NotSupportedError $"pydantic.v1 models are no longer supported by AstraAPI.".

(** [create_model_field] in serialization mode. *)
Definition create_model_field (nm : str) (t : ann) : result ResponseField :=
  if annotation_is_pydantic_v1 w t then Raise v1_error
  else if has_schema w t then Ok (mkResponseField nm t)
  else Raise (AstraAPIError $"Invalid args for response field!").

Definition key_str (k : status_key) : str :=
  match k with SNone => $"None" | SInt z => Z_to_str z | SStr s => s end.

Definition status_of (o : option Z) : status_key := match o with Some z => SInt z | None => SNone end.

Definition body_message (k : status_key) : str :=
  $"Status code " ++ key_str k ++ $" must not have a response body".

(** A field for the model of a response with the status [k]. *)
Definition make_response_field (k : status_key) (nm : str) (t : ann) : result ResponseField :=
  let! allowed := _is_body_allowed_for_status_code k in
  let! _ := py_assert allowed (body_message k) in
  create_model_field nm t.

Definition response_fields_step (uid : str) (acc : list (status_key * ResponseField))
    (kr : status_key * AdditionalResponse) : result (list (status_key * ResponseField)) :=
  match ad_model kr.2 with
  | None => Ok acc
  | Some t =>
      let! f := make_response_field kr.1 ($"Response_" ++ key_str kr.1 ++ $"_" ++ uid) t in
      Ok (dict_set acc kr.1 f)
  end.

(** [description or cleandoc(doc)], up to a form feed, stripped. *)
Definition clean_description (o : option str) (doc : str) : str :=
  strip (split_head 12 (match o with None | Some [] => doc | Some d => d end)).

Definition body_class (fields : list ModelField) : info_class :=
  if existsb (fun f => bool_decide (fi_class (field_info f) = FileI)) fields then FileI
  else if existsb (fun f => is_Form (fi_class (field_info f))) fields then FormI else BodyI.

(** [get_body_field]; the media type, which only the schema uses, is left out. *)
Definition get_body_field (flat : Dependant) (nm : str) (embed : bool) : result (option ModelField) :=
  match body_params (params flat) with
  | [] => Ok None
  | (first :: _) as fields =>
      if negb embed then Ok (Some first)
      else
        let model := create_body_model w fields ($"Body_" ++ nm) in
        let required := existsb required fields in
        let info := mkInfo (body_class fields) None model (if required then None else Some VNone)
                      (Some $"body") None None None false in
        if annotation_is_pydantic_v1 w model then Raise v1_error
        else if has_schema w model then Ok (Some (mkField info $"body"))
        else Raise (AstraAPIError $"Invalid args for response field!")
  end.

(** The dependant of an endpoint, with the dependencies of the route in front
    of its own; the route's are built last to first. *)
Definition with_dependencies (d : Dependant) (front : list Dependant) : Dependant :=
  mkDependant (info d) (params d) (names d) (front ++ dependencies d).

Definition route_dependant (ep : call) (path_fmt : str) (deps : list Depends) : result Dependant :=
  let! d := get_dependant (program w) (recursion_limit w)
              (mkDepInfo None ep None None true path_fmt (Some function_scope)) in
  let! subs := rmapM (fun dep => get_parameterless_sub_dependant (program w) (recursion_limit w) dep path_fmt)
                 (reverse deps) in
  Ok (with_dependencies d (reverse subs)).

Definition upper_methods (ms : list str) : list str := foldl set_add [] (str_upper <$> ms).

(** [APIRoute.__init__], up to the parts for the compiled server. *)
Definition api_route_init (p : str) (ep : call) (a : RouteArgs) (provider : option Z) : result APIRoute :=
  let model :=
    match a_response_model a with
    | Given m => m
    | DefaultPlaceholder _ =>
        match return_annotation w ep with
        | Some r => if lenient_issubclass r [ResponseC] then None else Some r
        | None => None
        end
    end in
  let nm := get_or (a_name a) (call_name (program w) ep) in
  let! cp := compile_path (convertors w) p in
  let ms := upper_methods (get_or (a_methods a) [$"GET"]) in
  let! uid :=
    match a_operation_id a with
    | Some ((_ :: _) as o) => Ok o
    | _ => call_unique_id (placeholder_value (a_generate_unique_id a)) nm (path_format cp) ms
    end in
  let! field :=
    match model with
    | Some t => let! f := make_response_field (status_of (a_status_code a)) ($"Response_" ++ uid) t in Ok (Some f)
    | None => Ok None
    end in
  let deps := get_or (a_dependencies a) [] in
  let rs := get_or (a_responses a) [] in
  let! fields := rfold (response_fields_step uid) [] rs in
  let! dep := route_dependant ep (path_format cp) deps in
  let flat := (get_flat_dependant (program w) false None [] dep).1 in
  let embed := _should_embed_body_fields (body_params (params flat)) in
  let! body := get_body_field flat uid embed in
  Ok (mkAPIRoute p ep model (a_summary a) (a_response_description a) (a_deprecated a)
        (a_operation_id a) (a_options a) (a_include_in_schema a) (a_response_class a) provider
        (a_callbacks a) (a_openapi_extra a) (a_generate_unique_id a) (get_or (a_tags a) []) rs nm cp ms
        uid (a_status_code a) field deps (clean_description (a_description a) (cleaned_doc w ep))
        fields dep flat embed body).
End routes.

(** ** WebSocket operations *)
Record APIWebSocketRoute : Type := mkAPIWs {
  aw_path : str;
  aw_endpoint : call;
  aw_name : str;
  aw_dependencies : list Depends;
  aw_compiled : Compiled;
  aw_dependant : Dependant;
  aw_provider : option Z
}.

Definition api_websocket_route_init (w : World) (p : str) (ep : call) (nm : option str)
    (deps : option (list Depends)) (provider : option Z) : result APIWebSocketRoute :=
  let nm := get_or nm (call_name (program w) ep) in
  let ds := get_or deps [] in
  let! cp := compile_path (convertors w) p in
  let! dep := route_dependant w ep (path_format cp) ds in
  Ok (mkAPIWs p ep nm ds cp dep provider).

(** ** Routers *)

(** Every kind of route a router holds; [PlainRoute] and [PlainWs] are the
    [Route] and [WebSocketRoute] of [_routing_base.py], with the endpoint they
    were made from, [Mounted] a [Mount]. *)
Inductive any_route : Type :=
  | ApiRoute (r : APIRoute)
  | PlainRoute (r : Route) (e : http_endpoint) (in_schema : bool)
  | ApiWs (r : APIWebSocketRoute)
  | PlainWs (r : WebSocketRoute) (e : ws_endpoint)
  | Mounted (path : str) (name : option str) (id : Z) (app : asgi_app) (cp : Compiled)
      (sub : list BaseRoute).

(** Lifespan contexts: [_DefaultLifespan] of a router, one of the user, and
    [_merge_lifespan_context]. *)
Inductive Lifespan : Type :=
  | DefaultLifespan (router : Z)
  | UserLifespan (cm : Z)
  | MergedLifespan (original nested : Lifespan).

Record APIRouter : Type := mkAPIRouter {
  ar_routes : list any_route;
  ar_redirect_slashes : bool;
  ar_default : option asgi_app;
  ar_on_startup : list Z;
  ar_on_shutdown : list Z;
  ar_lifespan : Lifespan;
  ar_prefix : str;
  ar_tags : list str;
  ar_dependencies : list Depends;
  ar_deprecated : option bool;
  ar_include_in_schema : bool;
  ar_responses : responses_dict;
  ar_callbacks : list Z;
  ar_provider : option Z;
  ar_response_class : defaultable Z;
  ar_generate_unique_id : defaultable Z
}.

Definition with_api_routes (r : APIRouter) (rs : list any_route) : APIRouter :=
  mkAPIRouter rs (ar_redirect_slashes r) (ar_default r) (ar_on_startup r) (ar_on_shutdown r)
    (ar_lifespan r) (ar_prefix r) (ar_tags r) (ar_dependencies r) (ar_deprecated r)
    (ar_include_in_schema r) (ar_responses r) (ar_callbacks r) (ar_provider r)
    (ar_response_class r) (ar_generate_unique_id r).
Definition with_handlers (r : APIRouter) (up down : list Z) : APIRouter :=
  mkAPIRouter (ar_routes r) (ar_redirect_slashes r) (ar_default r) up down
    (ar_lifespan r) (ar_prefix r) (ar_tags r) (ar_dependencies r) (ar_deprecated r)
    (ar_include_in_schema r) (ar_responses r) (ar_callbacks r) (ar_provider r)
    (ar_response_class r) (ar_generate_unique_id r).
Definition with_lifespan (r : APIRouter) (l : Lifespan) : APIRouter :=
  mkAPIRouter (ar_routes r) (ar_redirect_slashes r) (ar_default r) (ar_on_startup r) (ar_on_shutdown r)
    l (ar_prefix r) (ar_tags r) (ar_dependencies r) (ar_deprecated r)
    (ar_include_in_schema r) (ar_responses r) (ar_callbacks r) (ar_provider r)
    (ar_response_class r) (ar_generate_unique_id r).

Definition slash_start : str := $"A path prefix must start with '/'".
Definition slash_end : str :=
  $"A path prefix must not end with '/', as the routes will start with '/'".

Definition check_prefix (prefix : str) : result unit :=
  match prefix with
  | [] => Ok tt
  | _ =>
      let! _ := py_assert (startswith prefix $"/") slash_start in
      py_assert (negb (endswith prefix $"/")) slash_end
  end.

(** The keyword arguments of [APIRouter.__init__] and, without the first
    group, of [include_router]. *)
Record RouterArgs : Type := mkRouterArgs {
  ra_prefix : str;
  ra_tags : option (list str);
  ra_dependencies : option (list Depends);
  ra_response_class : defaultable Z;
  ra_responses : option responses_dict;
  ra_callbacks : option (list Z);
  ra_deprecated : option bool;
  ra_include_in_schema : bool;
  ra_generate_unique_id : defaultable Z
}.

(** [APIRouter.__init__] for the object [id]: [super().__init__], called
    without handlers, sets [on_startup] and [on_shutdown] to empty lists after
    the constructor has stored them. *)
Definition api_router_init (id : Z) (a : RouterArgs) (routes : option (list any_route))
    (redirect : bool) (dflt : option asgi_app) (provider : option Z)
    (on_startup on_shutdown : option (list Z)) (lifespan : option Z) : result APIRouter :=
  let stored := with_handlers
    (mkAPIRouter [] redirect dflt [] [] (match lifespan with Some cm => UserLifespan cm | None => DefaultLifespan id end)
      [] [] [] None true [] [] None (ra_response_class a) (ra_generate_unique_id a))
    (get_or on_startup []) (get_or on_shutdown []) in
  let super := with_handlers (with_api_routes stored (get_or routes [])) [] [] in
  let! _ := check_prefix (ra_prefix a) in
  Ok (mkAPIRouter (ar_routes super) redirect dflt (ar_on_startup super) (ar_on_shutdown super)
        (ar_lifespan super) (ra_prefix a) (get_or (ra_tags a) []) (get_or (ra_dependencies a) [])
        (ra_deprecated a) (ra_include_in_schema a) (get_or (ra_responses a) [])
        (get_or (ra_callbacks a) []) provider (ra_response_class a) (ra_generate_unique_id a)).

Section router.
Context (w : World).
Context (handlers_of : Scope -> list (str * handler) * list (Z * handler)).

(** The arguments [add_api_route] gives the route. *)
Definition combined_args (r : APIRouter) (a : RouteArgs) : RouteArgs :=
  mkArgs (a_response_model a) (a_status_code a)
    (Some (ar_tags r ++ get_or (a_tags a) []))
    (Some (ar_dependencies r ++ get_or (a_dependencies a) []))
    (a_summary a) (a_description a) (a_response_description a)
    (Some (dict_update (ar_responses r) (get_or (a_responses a) [])))
    (or_deprecated (a_deprecated a) (ar_deprecated r))
    (a_methods a) (a_operation_id a) (a_options a)
    (a_include_in_schema a && ar_include_in_schema r)
    (get_value_or_default (a_response_class a) [ar_response_class r])
    (a_name a)
    (Some (ar_callbacks r ++ get_or (a_callbacks a) []))
    (a_openapi_extra a)
    (get_value_or_default (a_generate_unique_id a) [ar_generate_unique_id r]).

Definition add_api_route (r : APIRouter) (p : str) (ep : call) (a : RouteArgs) : result APIRouter :=
  let! rt := api_route_init w (ar_prefix r ++ p) ep (combined_args r a) (ar_provider r) in
  Ok (with_api_routes r (ar_routes r ++ [ApiRoute rt])).

(** The decorators: [api_route] and the ones named after a method. *)
Definition api_route (r : APIRouter) (p : str) (a : RouteArgs) (func : call) : result APIRouter :=
  add_api_route r p func a.

Definition with_methods (a : RouteArgs) (ms : list str) : RouteArgs :=
  mkArgs (a_response_model a) (a_status_code a) (a_tags a) (a_dependencies a) (a_summary a)
    (a_description a) (a_response_description a) (a_responses a) (a_deprecated a) (Some ms)
    (a_operation_id a) (a_options a) (a_include_in_schema a) (a_response_class a) (a_name a)
    (a_callbacks a) (a_openapi_extra a) (a_generate_unique_id a).

Definition get (r : APIRouter) (p : str) (a : RouteArgs) := api_route r p (with_methods a [$"GET"]).
Definition put (r : APIRouter) (p : str) (a : RouteArgs) := api_route r p (with_methods a [$"PUT"]).
Definition post (r : APIRouter) (p : str) (a : RouteArgs) := api_route r p (with_methods a [$"POST"]).
Definition delete (r : APIRouter) (p : str) (a : RouteArgs) := api_route r p (with_methods a [$"DELETE"]).
Definition options_ (r : APIRouter) (p : str) (a : RouteArgs) := api_route r p (with_methods a [$"OPTIONS"]).
Definition head_ (r : APIRouter) (p : str) (a : RouteArgs) := api_route r p (with_methods a [$"HEAD"]).
Definition patch (r : APIRouter) (p : str) (a : RouteArgs) := api_route r p (with_methods a [$"PATCH"]).
Definition trace (r : APIRouter) (p : str) (a : RouteArgs) := api_route r p (with_methods a [$"TRACE"]).

Definition add_api_websocket_route (r : APIRouter) (p : str) (ep : call) (nm : option str)
    (deps : option (list Depends)) : result APIRouter :=
  let! rt := api_websocket_route_init w (ar_prefix r ++ p) ep nm
               (Some (ar_dependencies r ++ get_or deps [])) (ar_provider r) in
  Ok (with_api_routes r (ar_routes r ++ [ApiWs rt])).

Definition websocket (r : APIRouter) (p : str) (nm : option str) (deps : option (list Depends))
    (func : call) : result APIRouter :=
  add_api_websocket_route r p func nm deps.

(** [Router.add_route] and [add_websocket_route], inherited. *)
Definition api_add_route (r : APIRouter) (p : str) (e : http_endpoint) (ms : option (list str))
    (nm : option str) (in_schema : bool) : result APIRouter :=
  let! rt := route_init handlers_of (convertors w) p e ms nm None in
  Ok (with_api_routes r (ar_routes r ++ [PlainRoute rt e in_schema])).

Definition api_add_websocket_route (r : APIRouter) (p : str) (e : ws_endpoint) (nm : option str)
    : result APIRouter :=
  let! rt := ws_route_init handlers_of (convertors w) p e nm None in
  Ok (with_api_routes r (ar_routes r ++ [PlainWs rt e])).

Definition api_add_event_handler (r : APIRouter) (event_type : str) (h : Z) : result APIRouter :=
  let! _ := py_assert (bool_decide (event_type = $"startup" ∨ event_type = $"shutdown")) [] in
  Ok (if decide (event_type = $"startup")
      then with_handlers r (ar_on_startup r ++ [h]) (ar_on_shutdown r)
      else with_handlers r (ar_on_startup r) (ar_on_shutdown r ++ [h])).

(** ** Inclusion *)

(** The arguments [include_router] gives for a route of the included router. *)
Definition included_args (self router : APIRouter) (a : RouterArgs) (rt : APIRoute) : RouteArgs :=
  mkArgs (Given (response_model rt)) (status_code rt)
    (Some (get_or (ra_tags a) [] ++ tags rt))
    (Some (get_or (ra_dependencies a) [] ++ route_dependencies rt))
    (summary rt) (Some (description rt)) (response_description rt)
    (Some (dict_update (get_or (ra_responses a) []) (responses rt)))
    (or_deprecated (or_deprecated (deprecated rt) (ra_deprecated a)) (ar_deprecated self))
    (Some (methods rt)) (operation_id rt) (options rt)
    (include_in_schema rt && ar_include_in_schema self && ra_include_in_schema a)
    (get_value_or_default (response_class rt)
       [ar_response_class router; ra_response_class a; ar_response_class self])
    (Some (name rt))
    (Some (get_or (ra_callbacks a) [] ++ get_or (callbacks rt) []))
    (openapi_extra rt)
    (get_value_or_default (generate_unique_id_function rt)
       [ar_generate_unique_id router; ra_generate_unique_id a; ar_generate_unique_id self]).

Definition include_route (self router : APIRouter) (a : RouterArgs) (rt : any_route) : result APIRouter :=
  match rt with
  | ApiRoute rt => add_api_route self (ra_prefix a ++ path rt) (endpoint rt) (included_args self router a rt)
  | PlainRoute rt e in_schema =>
      api_add_route self (ra_prefix a ++ r_path rt) e (Some (get_or (r_methods rt) [])) (Some (r_name rt)) in_schema
  | ApiWs rt =>
      add_api_websocket_route self (ra_prefix a ++ aw_path rt) (aw_endpoint rt) (Some (aw_name rt))
        (Some (get_or (ra_dependencies a) [] ++ aw_dependencies rt))
  | PlainWs rt e => api_add_websocket_route self (ra_prefix a ++ w_path rt) e (Some (w_name rt))
  | Mounted _ _ _ _ _ _ => Ok self
  end.

Definition route_path (rt : any_route) : str :=
  match rt with
  | ApiRoute r => path r
  | PlainRoute r _ _ => r_path r
  | ApiWs r => aw_path r
  | PlainWs r _ => w_path r
  | Mounted p _ _ _ _ _ => p
  end.

Definition route_name (rt : any_route) : str :=
  match rt with
  | ApiRoute r => name r
  | PlainRoute r _ _ => r_name r
  | ApiWs r => aw_name r
  | PlainWs r _ => w_name r
  | Mounted _ n _ _ _ _ => get_or n []
  end.

Definition both_empty (nm : str) : exn :=
  AstraAPIError ($"Prefix and path cannot be both empty (path operation: " ++ nm ++ $")").

Definition include_check (a : RouterArgs) (router : APIRouter) : result unit :=
  match ra_prefix a with
  | [] =>
      match List.find (fun rt => bool_decide (route_path rt = [])) (ar_routes router) with
      | Some rt => Raise (both_empty (route_name rt))
      | None => Ok tt
      end
  | p => check_prefix p
  end.
End router.

(** The store of router objects. *)
Abbreviation store := (gmap Z APIRouter).

Definition dangling : exn := AttributeError $"no such router".

Definition read_router (h : store) (id : Z) : result APIRouter :=
  match h !! id with Some r => Ok r | None => Raise dangling end.
Definition write_router (h : store) (id : Z) (m : result APIRouter) : store * result unit :=
  match m with Ok r => (<[id := r]> h, Ok tt) | Raise e => (h, Raise e) end.

(** [for x in ...: ...] over a list that the body may extend: the list is read
    again at every step.  [None] when the fuel runs out. *)
Fixpoint live_loop {A} (fuel : nat) (items : store -> list A) (body : A -> store -> store * result unit)
    (i : nat) (h : store) : option (store * result unit) :=
  match items h !! i with
  | None => Some (h, Ok tt)
  | Some x =>
      match fuel with
      | O => None
      | S fuel' =>
          match body x h with
          | (h', Ok _) => live_loop fuel' items body (S i) h'
          | (h', Raise e) => Some (h', Raise e)
          end
      end
  end.

Definition then_do (m : option (store * result unit)) (k : store -> option (store * result unit))
    : option (store * result unit) :=
  match m with
  | Some (h, Ok _) => k h
  | m => m
  end.

Section inclusion.
Context (w : World).
Context (handlers_of : Scope -> list (str * handler) * list (Z * handler)).

Definition items_of {A} (f : APIRouter -> list A) (id : Z) (h : store) : list A :=
  match h !! id with Some r => f r | None => [] end.

Definition include_step (self router : Z) (a : RouterArgs) (rt : any_route) (h : store)
    : store * result unit :=
  match read_router h self, read_router h router with
  | Ok s, Ok r => write_router h self (include_route w handlers_of s r a rt)
  | Raise e, _ | _, Raise e => (h, Raise e)
  end.

Definition handler_step (self : Z) (event_type : str) (x : Z) (h : store) : store * result unit :=
  match read_router h self with
  | Ok s => write_router h self (api_add_event_handler s event_type x)
  | Raise e => (h, Raise e)
  end.

(** [self.include_router(router, ...)] *)
Definition include_router (fuel : nat) (self router : Z) (a : RouterArgs) (h : store)
    : option (store * result unit) :=
  match (let! r := read_router h router in include_check a r) with
  | Raise e => Some (h, Raise e)
  | Ok _ =>
      then_do (live_loop fuel (items_of ar_routes router) (include_step self router a) 0 h) (fun h1 =>
      then_do (live_loop fuel (items_of ar_on_startup router) (handler_step self $"startup") 0 h1) (fun h2 =>
      then_do (live_loop fuel (items_of ar_on_shutdown router) (handler_step self $"shutdown") 0 h2) (fun h3 =>
      match read_router h3 self, read_router h3 router with
      | Ok s, Ok r =>
          Some (write_router h3 self (Ok (with_lifespan s (MergedLifespan (ar_lifespan s) (ar_lifespan r)))))
      | Raise e, _ | _, Raise e => Some (h3, Raise e)
      end)))
  end.
End inclusion.

(** ** Lifespans *)

(** The state a lifespan yields. *)
Abbreviation lstate := (option (list (str * Z))).

Section lifespans.
Context (call_handler : Z -> result unit).
Context (enter_user : Z -> result lstate) (exit_user : Z -> option exn -> result bool).
Context (h : store).

Inductive lstep : Type := Ran (handler : Z) | Entered (cm : Z) | Left (cm : Z).

(** [_startup] and [_shutdown] *)
Fixpoint run_all (hs : list Z) : list lstep * result unit :=
  match hs with
  | [] => ([], Ok tt)
  | x :: hs' =>
      match call_handler x with
      | Ok _ => let '(tr, r) := run_all hs' in (Ran x :: tr, r)
      | Raise e => ([Ran x], Raise e)
      end
  end.

(** [{**(nested or {}), **(original or {})}], or [None] when both are. *)
Definition merge_state (original nested : lstate) : lstate :=
  match original, nested with
  | None, None => None
  | _, _ => Some (dict_update (get_or nested []) (get_or original []))
  end.

(** [__aexit__]: whether the exception was handled, or the exception raised. *)
Fixpoint leave (l : Lifespan) (exc : option exn) : list lstep * result bool :=
  match l with
  | DefaultLifespan id =>
      let '(tr, r) := run_all (items_of ar_on_shutdown id h) in
      (tr, match r with Ok _ => Ok false | Raise e => Raise e end)
  | UserLifespan cm => ([Left cm], exit_user cm exc)
  | MergedLifespan original nested =>
      let '(tr1, r1) := leave nested exc in
      let exc1 := match r1 with Raise e => Some e | Ok true => None | Ok false => exc end in
      let '(tr2, r2) := leave original exc1 in
      (tr1 ++ tr2,
       match r2, exc1 with
       | Raise e, _ => Raise e
       | Ok true, _ | Ok false, None => Ok (bool_decide (is_Some exc))
       | Ok false, Some e => if bool_decide (exc = Some e) then Ok false else Raise e
       end)
  end.

(** [__aenter__]: the state, or the exception raised. *)
Fixpoint enter (l : Lifespan) : list lstep * result lstate :=
  match l with
  | DefaultLifespan id =>
      let '(tr, r) := run_all (items_of ar_on_startup id h) in
      (tr, match r with Ok _ => Ok None | Raise e => Raise e end)
  | UserLifespan cm => ([Entered cm], enter_user cm)
  | MergedLifespan original nested =>
      let '(tr1, r1) := enter original in
      match r1 with
      | Raise e => (tr1, Raise e)
      | Ok st1 =>
          let '(tr2, r2) := enter nested in
          match r2 with
          | Ok st2 => (tr1 ++ tr2, Ok (merge_state st1 st2))
          | Raise e =>
              let '(tr3, r3) := leave original (Some e) in
              (tr1 ++ tr2 ++ tr3,
               match r3 with
               | Raise e' => Raise e'
               | Ok false => Raise e
               | Ok true => Raise (RuntimeError $"generator didn't yield")
               end)
          end
      end
  end.
End lifespans.

(** ** Serving

    A router of path operations is a [Router] whose routes match as the
    inherited classes do; [app_of] is the application of a path operation. *)
Section serving.
Context (app_of : APIRoute -> asgi_app) (ws_app_of : APIWebSocketRoute -> asgi_app).

Definition as_base (rt : any_route) : BaseRoute :=
  match rt with
  | ApiRoute r => HttpRoute (mkRoute (path r) (endpoint r) (name r) (app_of r) (Some (methods r)) (compiled r))
  | PlainRoute r _ _ => HttpRoute r
  | ApiWs r => WsRoute (mkWsRoute (aw_path r) (aw_endpoint r) (aw_name r) (ws_app_of r) (aw_compiled r))
  | PlainWs r _ => WsRoute r
  | Mounted p n id app cp sub => MountRoute p n id app cp sub
  end.

Definition as_router (r : APIRouter) : Router :=
  mkRouter (as_base <$> ar_routes r) (ar_redirect_slashes r) (ar_default r) (ar_on_startup r) (ar_on_shutdown r).
End serving.
