(* ===== verification/ApiRoutingThms.v ===== *)
(** * ApiRoutingThms: correctness of registration and inclusion *)

From S2P Require Import Prelude PyStr Asgi ExceptionHandler Convertors Routing RoutingFacts Annotations.
From S2P Require Import Dependants Solve ApiRouting.

(** ** Idempotence of what a route stores *)
Lemma upper_char_idemp c : upper_char c ≫= upper_char = upper_char c.
Proof.
  unfold upper_char, ascii_lower_letter.
  destruct (in_range 97 122 c) eqn:E1.
  { apply in_range_spec in E1. simpl. unfold upper_char, ascii_lower_letter.
    rewrite (proj2 (in_range_false 97 122 (c - 32))) by lia.
    rewrite !(proj2 (N.eqb_neq _ _)) by lia.
    by rewrite (proj2 (in_range_false 224 254 (c - 32))) by lia. }
  destruct (N.eqb_spec c 223); [by subst|]. destruct (N.eqb_spec c 181); [by subst|].
  destruct (N.eqb_spec c 255); [by subst|].
  destruct (in_range 224 254 c && negb (c =? 247)%N) eqn:E2; simpl.
  - apply andb_true_iff in E2 as [E2 E3]. apply in_range_spec in E2. apply negb_true_iff, N.eqb_neq in E3.
    unfold upper_char, ascii_lower_letter. rewrite (proj2 (in_range_false 97 122 (c - 32))) by lia.
    rewrite !(proj2 (N.eqb_neq _ _)) by lia.
    by rewrite (proj2 (in_range_false 224 254 (c - 32))) by lia.
  - unfold upper_char, ascii_lower_letter. rewrite E1, E2. by rewrite !(proj2 (N.eqb_neq _ _)) by lia.
Qed.

Lemma str_upper_idemp s : str_upper (str_upper s) = str_upper s.
Proof.
  unfold str_upper. induction s as [|c s IH]; [done|]. cbn [mbind list_bind].
  by rewrite bind_app, upper_char_idemp, IH.
Qed.

Lemma foldl_set_add_new l acc : NoDup (acc ++ l) -> foldl set_add acc l = acc ++ l.
Proof.
  revert acc. induction l as [|x l IH]; intros acc Hnd; simpl; [by rewrite app_nil_r|].
  unfold set_add at 2. rewrite bool_decide_false.
  - rewrite IH; rewrite <-app_assoc; done.
  - apply NoDup_app in Hnd as (_ & H & _). intros Hin. apply (H x Hin). set_solver.
Qed.

Lemma foldl_set_add_props (P : str -> Prop) l acc :
  NoDup acc -> Forall P acc -> Forall P l -> NoDup (foldl set_add acc l) ∧ Forall P (foldl set_add acc l).
Proof.
  revert acc. induction l as [|x l IH]; intros acc Hnd Ha Hl; simpl; [done|].
  inversion Hl; subst. apply IH; unfold set_add; try done; case_bool_decide; try done.
  - apply NoDup_app. split_and!; [done|set_solver|apply NoDup_singleton].
  - apply Forall_app_2; [done|]. by repeat constructor.
Qed.

Lemma upper_methods_idemp ms : upper_methods (upper_methods ms) = upper_methods ms.
Proof.
  unfold upper_methods. set (l := foldl set_add [] (str_upper <$> ms)).
  destruct (foldl_set_add_props (fun m => str_upper m = m) (str_upper <$> ms) []) as [Hnd Hf].
  - apply NoDup_nil_2.
  - done.
  - apply Forall_fmap, Forall_forall. intros m _. apply str_upper_idemp.
  - fold l in Hnd, Hf. assert (Hl : str_upper <$> l = l).
    { clear Hnd. clearbody l. induction Hf as [|m l' Hm _ IH]; [done|]. csimpl. by rewrite Hm, IH. }
    rewrite Hl. by rewrite (foldl_set_add_new l []).
Qed.

(** ** Stripping *)
Lemma lstrip_by_idemp p s : lstrip_by p (lstrip_by p s) = lstrip_by p s.
Proof. induction s as [|c s IH]; simpl; [done|]. destruct (p c) eqn:E; [done|]. simpl. by rewrite E. Qed.

Lemma lstrip_by_split p s : ∃ a, s = a ++ lstrip_by p s ∧ Forall (fun c => p c = true) a.
Proof.
  induction s as [|c s (a & Ha & Hp)]; simpl; [by exists []|].
  destruct (p c) eqn:E; [|by exists []]. exists (c :: a). simpl. rewrite <-Ha. split; [done|by constructor].
Qed.

Lemma lstrip_by_fixed p s : lstrip_by p s = s ↔ match s with [] => True | c :: _ => p c = false end.
Proof.
  destruct s as [|c s]; simpl; [done|]. destruct (p c) eqn:E; [|done]. split; [|done].
  intros H. exfalso. destruct (lstrip_by_split p s) as (a & Ha & _).
  apply (f_equal length) in H. rewrite Ha in H at 2. simpl in H. rewrite length_app in H. lia.
Qed.

Lemma rstrip_by_prefix p s : ∃ a, s = rstrip_by p s ++ a.
Proof.
  destruct (lstrip_by_split p (reverse s)) as (a & Ha & _). exists (reverse a).
  unfold rstrip_by. by rewrite <-reverse_app, <-Ha, reverse_involutive.
Qed.

Lemma strip_idemp s : strip (strip s) = strip s.
Proof.
  unfold strip. set (t := lstrip_by is_space s).
  assert (Hl : lstrip_by is_space (rstrip_by is_space t) = rstrip_by is_space t).
  { apply lstrip_by_fixed. destruct (rstrip_by_prefix is_space t) as (a & Ha).
    destruct (rstrip_by is_space t) as [|c u] eqn:E; [done|].
    assert (Ht : lstrip_by is_space t = t) by apply lstrip_by_idemp.
    apply lstrip_by_fixed in Ht. rewrite Ha in Ht. done. }
  rewrite Hl. unfold rstrip_by. rewrite reverse_involutive. by rewrite lstrip_by_idemp.
Qed.

Lemma strip_elem c s : c ∈ strip s -> c ∈ s.
Proof.
  unfold strip. intros H. destruct (lstrip_by_split is_space s) as (a & Ha & _).
  destruct (rstrip_by_prefix is_space (lstrip_by is_space s)) as (b & Hb).
  rewrite Ha, Hb. set_solver.
Qed.

Lemma split_head_clean c s : c ∉ split_head c s.
Proof. unfold split_head. destruct (partition c s) as [[a f] b] eqn:E. by apply partition_spec in E as [? _]. Qed.

Lemma split_head_none c s : c ∉ s -> split_head c s = s.
Proof. intros H. unfold split_head. by rewrite partition_none. Qed.

(** A stored description that is not empty is stored again unchanged. *)
Lemma clean_description_idemp o doc :
  clean_description o doc ≠ [] -> clean_description (Some (clean_description o doc)) doc = clean_description o doc.
Proof.
  unfold clean_description at 1 2. set (d := match o with None | Some [] => doc | Some d => d end). intros Hne.
  change (clean_description o doc) with (strip (split_head 12 d)) in *.
  destruct (strip (split_head 12 d)) as [|c u] eqn:E; [done|]. rewrite <-E.
  rewrite split_head_none; [by rewrite strip_idemp|].
  intros Hin%strip_elem. by eapply split_head_clean.
Qed.

(** ** Inclusion as declaration *)

(** The arguments with which an operation declared on [B] with [a] is declared
    on a router that includes [B] with [inc]. *)
Definition nested_args (B : APIRouter) (inc : RouterArgs) (a : RouteArgs) : RouteArgs :=
  mkArgs (a_response_model a) (a_status_code a)
    (Some (get_or (ra_tags inc) [] ++ ar_tags B ++ get_or (a_tags a) []))
    (Some (get_or (ra_dependencies inc) [] ++ ar_dependencies B ++ get_or (a_dependencies a) []))
    (a_summary a) (a_description a) (a_response_description a)
    (Some (dict_update (get_or (ra_responses inc) [])
             (dict_update (ar_responses B) (get_or (a_responses a) []))))
    (or_deprecated (or_deprecated (a_deprecated a) (ar_deprecated B)) (ra_deprecated inc))
    (a_methods a) (a_operation_id a) (a_options a)
    (a_include_in_schema a && ar_include_in_schema B && ra_include_in_schema inc)
    (get_value_or_default (a_response_class a) [ar_response_class B; ra_response_class inc])
    (a_name a)
    (Some (get_or (ra_callbacks inc) [] ++ ar_callbacks B ++ get_or (a_callbacks a) []))
    (a_openapi_extra a)
    (get_value_or_default (a_generate_unique_id a) [ar_generate_unique_id B; ra_generate_unique_id inc]).

Lemma given_nested {A} (a b i s : defaultable A) :
  get_value_or_default (get_value_or_default (get_value_or_default a [b]) [b; i; s]) [s]
  = get_value_or_default (get_value_or_default a [b; i]) [s].
Proof. by destruct a, b, i, s. Qed.

Lemma deprecated_nested a s : or_deprecated (or_deprecated a s) s = or_deprecated a s.
Proof. by destruct a as [[]|], s as [[]|]. Qed.

(** Two descriptions of an operation that [APIRoute] cannot tell apart: they
    differ in what has a default that the first route has already resolved. *)
Record same_operation (w : World) (ep : call) (a b : RouteArgs) : Prop := mkSame {
  so_model : a_response_model b = Given (
     match a_response_model a with
     | Given m => m
     | DefaultPlaceholder _ =>
         match return_annotation w ep with
         | Some r => if lenient_issubclass r [ResponseC] then None else Some r
         | None => None
         end
     end);
  so_status : a_status_code b = a_status_code a;
  so_tags : get_or (a_tags b) [] = get_or (a_tags a) [];
  so_deps : get_or (a_dependencies b) [] = get_or (a_dependencies a) [];
  so_summary : a_summary b = a_summary a;
  so_description : clean_description (a_description b) (cleaned_doc w ep)
                   = clean_description (a_description a) (cleaned_doc w ep);
  so_rdesc : a_response_description b = a_response_description a;
  so_responses : get_or (a_responses b) [] = get_or (a_responses a) [];
  so_deprecated : a_deprecated b = a_deprecated a;
  so_methods : upper_methods (get_or (a_methods b) [$"GET"]) = upper_methods (get_or (a_methods a) [$"GET"]);
  so_opid : a_operation_id b = a_operation_id a;
  so_options : a_options b = a_options a;
  so_schema : a_include_in_schema b = a_include_in_schema a;
  so_class : a_response_class b = a_response_class a;
  so_name : a_name b = Some (get_or (a_name a) (call_name (program w) ep));
  so_callbacks : a_callbacks b = a_callbacks a;
  so_extra : a_openapi_extra b = a_openapi_extra a;
  so_uid : a_generate_unique_id b = a_generate_unique_id a
}.

Lemma same_operation_init w p ep a b provider :
  same_operation w ep a b -> api_route_init w p ep b provider = api_route_init w p ep a provider.
Proof.
  intros [H1 H2 H3 H4 H5 H6 H7 H8 H9 H10 H11 H12 H13 H14 H15 H16 H17 H18]. unfold api_route_init.
  rewrite H1, H2, H3, H4, H5, H6, H7, H8, H9, H10, H11, H12, H13, H14, H15, H16, H17, H18. done.
Qed.

(** What a route built by [api_route_init] remembers of its arguments. *)
Lemma api_route_init_fields w p ep a provider rt :
  api_route_init w p ep a provider = Ok rt ->
  path rt = p ∧ endpoint rt = ep
  ∧ Given (response_model rt) = Given (
     match a_response_model a with
     | Given m => m
     | DefaultPlaceholder _ =>
         match return_annotation w ep with
         | Some r => if lenient_issubclass r [ResponseC] then None else Some r
         | None => None
         end
     end)
  ∧ status_code rt = a_status_code a ∧ tags rt = get_or (a_tags a) []
  ∧ route_dependencies rt = get_or (a_dependencies a) [] ∧ summary rt = a_summary a
  ∧ description rt = clean_description (a_description a) (cleaned_doc w ep)
  ∧ response_description rt = a_response_description a ∧ responses rt = get_or (a_responses a) []
  ∧ deprecated rt = a_deprecated a ∧ methods rt = upper_methods (get_or (a_methods a) [$"GET"])
  ∧ operation_id rt = a_operation_id a ∧ options rt = a_options a
  ∧ include_in_schema rt = a_include_in_schema a ∧ response_class rt = a_response_class a
  ∧ name rt = get_or (a_name a) (call_name (program w) ep) ∧ callbacks rt = a_callbacks a
  ∧ openapi_extra rt = a_openapi_extra a ∧ generate_unique_id_function rt = a_generate_unique_id a
  ∧ compile_path (convertors w) p = Ok (compiled rt).
Proof. unfold api_route_init. intros H. inv_ok. cbn. by split_and!. Qed.

(** One operation: the route is rebuilt as if it had been declared on the
    including router. *)
Lemma include_declared w hof A B inc p ep a rt :
  api_route_init w (ar_prefix B ++ p) ep (combined_args B a) (ar_provider B) = Ok rt ->
  (description rt = [] -> clean_description None (cleaned_doc w ep) = []) ->
  include_route w hof A B inc (ApiRoute rt)
  = add_api_route w A (ra_prefix inc ++ ar_prefix B ++ p) ep (nested_args B inc a).
Proof.
  intros Hrt Hd. destruct (api_route_init_fields _ _ _ _ _ _ Hrt)
    as (Hp & He & Hm & Hs & Ht & Hds & Hsu & Hde & Hr & Hrs & Hdp & Hme & Ho & Hop & Hi & Hrc & Hn & Hcb & Hx & Hu & _).
  unfold include_route, add_api_route. rewrite Hp, He. f_equal.
  apply same_operation_init. unfold included_args, nested_args, combined_args in *. cbn in *.
  rewrite Hm, Hs, Ht, Hds, Hsu, Hr, Hrs, Hdp, Hme, Ho, Hop, Hi, Hrc, Hn, Hcb, Hx, Hu. cbn.
  constructor; cbn; try done.
  - rewrite Hde. destruct (clean_description (a_description a) (cleaned_doc w ep)) as [|c u] eqn:E.
    + rewrite Hde in Hd. exact (Hd eq_refl).
    + rewrite <-E. apply clean_description_idemp. by rewrite E.
  - by rewrite !deprecated_nested.
  - apply upper_methods_idemp.
  - by destruct (a_include_in_schema a), (ar_include_in_schema A), (ar_include_in_schema B), (ra_include_in_schema inc).
  - apply given_nested.
  - apply given_nested.
Qed.

(** ** The loops of [include_router] *)

(** A loop that changes only [self] while it reads another router is a fold. *)
Lemma live_loop_fold {X} (proj : APIRouter -> list X) (f : APIRouter -> X -> result APIRouter)
    body self router B fuel i h A :
  self ≠ router -> h !! self = Some A -> h !! router = Some B ->
  (∀ x h s, h !! self = Some s -> h !! router = Some B -> body x h = write_router h self (f s x)) ->
  (length (proj B) - i <= fuel)%nat ->
  ∃ A', live_loop fuel (items_of proj router) body i h
        = Some (<[self := A']> h, match rfold f A (drop i (proj B)) with Ok _ => Ok tt | Raise e => Raise e end)
    ∧ ∀ A1, rfold f A (drop i (proj B)) = Ok A1 -> A' = A1.
Proof.
  intros Hne HA HB Hbody. revert i h A HA HB. induction fuel as [|fuel IH]; intros i h A HA HB Hlen;
    assert (Hit : items_of proj router h = proj B) by (unfold items_of; by rewrite HB).
  - exists A. simpl. rewrite Hit, (proj2 (lookup_ge_None (proj B) i)) by lia.
    rewrite drop_ge by lia. simpl. rewrite insert_id by done. split; [done|]. by intros A1 [= ->].
  - simpl. rewrite Hit. destruct (proj B !! i) as [x|] eqn:Ex.
    + rewrite (drop_S _ _ _ Ex). simpl. rewrite (Hbody x h A HA HB). unfold write_router.
      destruct (f A x) as [A1|e] eqn:Ef; simpl.
      * destruct (IH (S i) (<[self := A1]> h) A1) as (A' & Hl & HA').
        -- by rewrite lookup_insert_eq.
        -- by rewrite lookup_insert_ne.
        -- lia.
        -- exists A'. rewrite Hl, insert_insert_eq. done.
      * exists A. rewrite insert_id by done. done.
    + exists A. apply lookup_ge_None in Ex. rewrite drop_ge by lia. simpl.
      rewrite insert_id by done. split; [done|]. by intros A1 [= ->].
Qed.

Lemma add_startup r x :
  api_add_event_handler r $"startup" x = Ok (with_handlers r (ar_on_startup r ++ [x]) (ar_on_shutdown r)).
Proof. done. Qed.

Lemma add_shutdown r x :
  api_add_event_handler r $"shutdown" x = Ok (with_handlers r (ar_on_startup r) (ar_on_shutdown r ++ [x])).
Proof. done. Qed.

Lemma fold_startup hs r :
  rfold (fun s x => api_add_event_handler s $"startup" x) r hs
  = Ok (with_handlers r (ar_on_startup r ++ hs) (ar_on_shutdown r)).
Proof.
  revert r. induction hs as [|x hs IH]; intros r; cbn [rfold]; [rewrite app_nil_r; by destruct r|].
  rewrite add_startup. cbn [rbind]. rewrite IH. cbn. by rewrite <-app_assoc.
Qed.

Lemma fold_shutdown hs r :
  rfold (fun s x => api_add_event_handler s $"shutdown" x) r hs
  = Ok (with_handlers r (ar_on_startup r) (ar_on_shutdown r ++ hs)).
Proof.
  revert r. induction hs as [|x hs IH]; intros r; cbn [rfold]; [rewrite app_nil_r; by destruct r|].
  rewrite add_shutdown. cbn [rbind]. rewrite IH. cbn. by rewrite <-app_assoc.
Qed.

(** What is left of a router when it has taken over another's handlers and
    lifespan. *)
Definition absorb (A B : APIRouter) : APIRouter :=
  with_lifespan (with_handlers A (ar_on_startup A ++ ar_on_startup B) (ar_on_shutdown A ++ ar_on_shutdown B))
    (MergedLifespan (ar_lifespan A) (ar_lifespan B)).

Definition loop_fuel (B : APIRouter) : nat :=
  (length (ar_routes B) `max` length (ar_on_startup B)) `max` length (ar_on_shutdown B).

(** Inclusion of another router: the fold of its routes, then its handlers. *)
Lemma include_router_fold w hof fuel self router a h A B :
  self ≠ router -> h !! self = Some A -> h !! router = Some B ->
  (loop_fuel B <= fuel)%nat -> include_check a B = Ok tt ->
  match rfold (fun s rt => include_route w hof s B a rt) A (ar_routes B) with
  | Ok A1 => include_router w hof fuel self router a h = Some (<[self := absorb A1 B]> h, Ok tt)
  | Raise e => ∃ A1, include_router w hof fuel self router a h = Some (<[self := A1]> h, Raise e)
  end.
Proof.
  intros Hne HA HB Hfuel Hcheck. unfold loop_fuel in Hfuel. unfold include_router.
  assert (Hc : (let! r := read_router h router in include_check a r) = Ok tt).
  { unfold read_router. by rewrite HB. }
  rewrite Hc.
  destruct (live_loop_fold ar_routes (fun s rt => include_route w hof s B a rt)
    (include_step w hof self router a) self router B fuel 0 h A) as (A1 & -> & H1); [done..| |lia|].
  { intros x h' s Hs Hr. unfold include_step, read_router. by rewrite Hs, Hr. }
  rewrite drop_0 in *. destruct (rfold _ A (ar_routes B)) as [A1'|e]; [|by exists A1].
  rewrite (H1 A1' eq_refl). cbn [then_do]. clear A1 H1.
  destruct (live_loop_fold ar_on_startup (fun s x => api_add_event_handler s $"startup" x)
    (handler_step self $"startup") self router B fuel 0 (<[self := A1']> h) A1') as (A2 & -> & H2);
    [done|by rewrite lookup_insert_eq|by rewrite lookup_insert_ne| |lia|].
  { intros x h' s Hs Hr. unfold handler_step, read_router. by rewrite Hs. }
  rewrite drop_0, fold_startup in *. rewrite (H2 _ eq_refl), insert_insert_eq. cbn [then_do]. clear A2 H2.
  set (A2 := with_handlers A1' _ _).
  destruct (live_loop_fold ar_on_shutdown (fun s x => api_add_event_handler s $"shutdown" x)
    (handler_step self $"shutdown") self router B fuel 0 (<[self := A2]> h) A2) as (A3 & -> & H3);
    [done|by rewrite lookup_insert_eq|by rewrite lookup_insert_ne| |lia|].
  { intros x h' s Hs Hr. unfold handler_step, read_router. by rewrite Hs. }
  rewrite drop_0, fold_shutdown in *. rewrite (H3 _ eq_refl), insert_insert_eq. cbn [then_do].
  unfold read_router. rewrite lookup_insert_eq, lookup_insert_ne, HB by done. cbn [write_router].
  by rewrite insert_insert_eq.
Qed.

(** ** Routers built by declarations *)
Abbreviation operation := (str * call * RouteArgs)%type.

Definition declare (w : World) (r : APIRouter) (op : operation) : result APIRouter :=
  let '(p, ep, a) := op in add_api_route w r p ep a.

Definition builds (w : World) (B : APIRouter) (op : operation) (rt : APIRoute) : Prop :=
  let '(p, ep, a) := op in
  api_route_init w (ar_prefix B ++ p) ep (combined_args B a) (ar_provider B) = Ok rt.

Lemma with_api_routes_twice r l l' : with_api_routes (with_api_routes r l) l' = with_api_routes r l'.
Proof. done. Qed.

Lemma declare_routes w B0 ops B :
  rfold (declare w) B0 ops = Ok B ->
  ∃ rts, B = with_api_routes B0 (ar_routes B0 ++ (ApiRoute <$> rts)) ∧ Forall2 (builds w B0) ops rts.
Proof.
  revert B0 B. induction ops as [|[[p ep] a] ops IH]; intros B0 B; cbn [rfold].
  - intros [= <-]. exists []. rewrite app_nil_r. split; [by destruct B0|done].
  - intros (B1 & (rt & Hrt & [= <-])%rbind_Ok & H)%rbind_Ok.
    destruct (IH _ _ H) as (rts & -> & Hf). exists (rt :: rts). split.
    + rewrite with_api_routes_twice. cbn. by rewrite <-app_assoc.
    + constructor; [done|]. exact Hf.
Qed.

(** An operation of [B] as declared on a router that includes [B]. *)
Definition nested_op (B : APIRouter) (inc : RouterArgs) (op : operation) : operation :=
  let '(p, ep, a) := op in (ra_prefix inc ++ ar_prefix B ++ p, ep, nested_args B inc a).

Lemma include_route_static w hof A B l inc rt :
  include_route w hof A (with_api_routes B l) inc rt = include_route w hof A B inc rt.
Proof. by destruct rt. Qed.

Lemma include_declared_fold w hof B inc ops rts A :
  Forall2 (builds w B) ops rts ->
  Forall (fun rt => description rt = [] -> clean_description None (cleaned_doc w (endpoint rt)) = []) rts ->
  rfold (fun s rt => include_route w hof s B inc rt) A (ApiRoute <$> rts)
  = rfold (declare w) A (nested_op B inc <$> ops).
Proof.
  intros Hf. revert A. induction Hf as [|[[p ep] a] rt ops rts Hb _ IH]; intros A Hd; [done|].
  inversion Hd as [|?? Hd1 Hd2]; subst. rewrite !fmap_cons. cbn [rfold].
  unfold declare at 1. cbn [nested_op]. assert (He : endpoint rt = ep) by apply (api_route_init_fields _ _ _ _ _ _ Hb).
  rewrite He in Hd1. rewrite (include_declared w hof A B inc p ep a rt Hb Hd1).
  destruct (add_api_route w A _ ep _); cbn [rbind]; [by apply IH|done].
Qed.

(** ** Prefixes of compiled paths *)
Lemma finditer_text fuel s t text :
  finditer fuel s (t ++ text)
  = match finditer fuel s text with
    | ((x, n, ty) :: ms, tl) => ((t ++ x, n, ty) :: ms, tl)
    | ([], tl) => ([], t ++ tl)
    end.
Proof.
  revert s text. induction fuel as [|fuel IH]; intros s text; cbn [finditer]; [by rewrite <-app_assoc|].
  destruct s as [|c s]; [done|].
  destruct (if (c =? 123)%N then scan_param s else None) as [[[n ty] rest]|].
  - by destruct (finditer fuel rest []) as [ms tl].
  - rewrite <-app_assoc. apply IH.
Qed.

Lemma finditer_skip fuel lit s text :
  123%N ∉ lit -> finditer (length lit + fuel) (lit ++ s) text = finditer fuel s (text ++ lit).
Proof.
  revert text. induction lit as [|c lit IH]; intros text Hl; cbn [length app finditer]; [by rewrite app_nil_r|].
  cbn. rewrite (proj2 (N.eqb_neq c 123)) by set_solver. rewrite IH by set_solver. by rewrite <-app_assoc.
Qed.

Definition shift_state (sg : list seg) (f : str) (st : compile_state) : compile_state :=
  mkCS (sg ++ cs_segs st) (f ++ cs_format st) (cs_convertors st) (cs_duplicated st).

Lemma compile_fold_shift types sg f ms st :
  rfold (compile_step types) (shift_state sg f st) ms
  = rmap (shift_state sg f) (rfold (compile_step types) st ms).
Proof.
  revert st. induction ms as [|[[text n] ty] ms IH]; intros st; cbn [rfold]; [done|].
  unfold compile_step at 1 3. destruct (dict_get types ty) as [c|]; [|done]. cbn [rbind].
  rewrite <-IH. f_equal. unfold shift_state. cbn. by rewrite <-!app_assoc.
Qed.

Lemma startswith_app_cancel a s t : startswith (a ++ s) (a ++ t) = startswith s t.
Proof. induction a as [|c a IH]; [done|]. simpl. by rewrite N.eqb_refl, IH. Qed.

Lemma compile_path_prefix types pre p cp :
  123%N ∉ pre -> startswith p $"/" = true -> startswith pre $"/" = true ->
  compile_path types p = Ok cp ->
  ∃ cp', compile_path types (pre ++ p) = Ok cp'
    ∧ path_format cp' = pre ++ path_format cp ∧ param_convertors cp' = param_convertors cp
    ∧ ∀ s, path_regex_match cp' (pre ++ s) = path_regex_match cp s.
Proof.
  intros Hpre Hp Hs. unfold compile_path.
  assert (startswith (pre ++ p) $"/" = true) as ->.
  { apply startswith_spec. apply startswith_spec in Hs. by apply prefix_app_r. }
  rewrite Hp. cbn [negb]. unfold param_matches. rewrite length_app, finditer_skip by done.
  rewrite app_nil_l. pose proof (finditer_text (length p) p pre []) as Hft. rewrite app_nil_r in Hft. rewrite Hft. clear Hft.
  destruct (finditer (length p) p []) as [[|[[x n] ty] ms] tl]; cbn [rfold rbind].
  - intros [= <-]. eexists. split; [done|]. cbn. split_and!; try done.
    intros s. unfold path_regex_match. cbn. rewrite length_app, <-drop_drop, drop_app_length.
    by rewrite startswith_app_cancel.
  - unfold compile_step at 1 3. destruct (dict_get types ty) as [c|]; [|done]. cbn [rbind cs_segs cs_format cs_convertors cs_duplicated].
    set (cvs := dict_set [] n c). set (dup := if dict_mem [] n then _ else _).
    assert (Hsh : ∀ y, mkCS ([] ++ [Lit y; Param n c]) ([] ++ y ++ braced n) cvs dup
      = shift_state [Lit y; Param n c] (y ++ braced n) (mkCS [] [] cvs dup)).
    { intros y. unfold shift_state. cbn. by rewrite app_nil_r. }
    rewrite !Hsh, !compile_fold_shift.
    destruct (rfold (compile_step types) (mkCS [] [] cvs dup) ms) as [st|]; [|done]. cbn.
    destruct (cs_duplicated st); [|done]. intros [= <-]. eexists. split; [done|]. cbn.
    split_and!; [by rewrite <-!app_assoc|done|]. intros s. unfold path_regex_match. cbn.
    by rewrite startswith_app_cancel, length_app, <-drop_drop, drop_app_length.
Qed.

(** ** Lifespans *)
Lemma run_all_ok call hs :
  (∀ x, x ∈ hs -> call x = Ok tt) -> run_all call hs = (Ran <$> hs, Ok tt).
Proof.
  induction hs as [|x hs IH]; intros H; [done|]. csimpl. rewrite (H x) by set_solver.
  rewrite IH by set_solver. done.
Qed.

Lemma items_of_insert_eq {X} (f : APIRouter -> list X) id r (h : store) : items_of f id (<[id := r]> h) = f r.
Proof. unfold items_of. by rewrite lookup_insert_eq. Qed.

Lemma items_of_insert_ne {X} (f : APIRouter -> list X) id id' r (h : store) :
  id ≠ id' -> items_of f id' (<[id := r]> h) = items_of f id' h.
Proof. intros. unfold items_of. by rewrite lookup_insert_ne. Qed.

(** A router that is included in itself: its list of handlers grows as fast as
    it is read. *)
Lemma self_inclusion_grows fuel id i (h : store) R :
  h !! id = Some R -> (i < length (ar_on_startup R))%nat ->
  live_loop fuel (items_of ar_on_startup id) (handler_step id $"startup") i h = None.
Proof.
  revert i h R. induction fuel as [|fuel IH]; intros i h R HR Hi; cbn [live_loop];
    (assert (items_of ar_on_startup id h = ar_on_startup R) as -> by (unfold items_of; by rewrite HR));
    destruct (lookup_lt_is_Some_2 _ _ Hi) as [x ->]; [done|].
  unfold handler_step, read_router. rewrite HR, add_startup. cbn [write_router].
  eapply IH; [by rewrite lookup_insert_eq|]. cbn. rewrite length_app. simpl. lia.
Qed.

(** ** Properties *)

(** C7: including a router is declaring its operations on the including router.
    Let [B] be a router whose operations were all declared on it, and let [A]
    include it with [inc].  The inclusion succeeds exactly when declaring every
    operation on [A] succeeds, with the path prefixed by the prefixes of the
    inclusion and of [B], the tags, dependencies and callbacks of the inclusion,
    of [B] and of the operation concatenated in this order, the responses merged
    with the operation's taking precedence, the operation deprecated when any of
    them says so and in the schema when all do, and the response class and the id
    function the first one given from the operation outwards; [A] then has
    exactly the routes those declarations would have given it, built identically,
    and besides has taken over the handlers and the lifespan of [B].  When a
    declaration fails the inclusion fails with the same exception.  (The one
    exception: a description that is empty once cleaned is replaced by the
    docstring when the route is included.) *)
Theorem include_router_is_declaration w hof fuel self router inc (h : store) A B0 B ops :
  self ≠ router -> h !! self = Some A -> h !! router = Some B ->
  ar_routes B0 = [] -> rfold (declare w) B0 ops = Ok B ->
  include_check inc B = Ok tt -> (loop_fuel B <= fuel)%nat ->
  (∀ rt, ApiRoute rt ∈ ar_routes B -> description rt = [] ->
     clean_description None (cleaned_doc w (endpoint rt)) = []) ->
  match rfold (declare w) A (nested_op B inc <$> ops) with
  | Ok A1 => include_router w hof fuel self router inc h = Some (<[self := absorb A1 B]> h, Ok tt)
  | Raise e => ∃ A1, include_router w hof fuel self router inc h = Some (<[self := A1]> h, Raise e)
  end.
Proof.
  intros Hne HA HB Hnil Hops Hcheck Hfuel Hdesc.
  destruct (declare_routes w B0 ops B Hops) as (rts & HBeq & Hf). rewrite Hnil in HBeq. simpl in HBeq.
  pose proof (include_router_fold w hof fuel self router inc h A B Hne HA HB Hfuel Hcheck) as Hinc.
  assert (Hr : ar_routes B = ApiRoute <$> rts) by (by rewrite HBeq).
  rewrite Hr in Hinc. rewrite (include_declared_fold w hof B inc ops rts A) in Hinc; [done| |].
  - rewrite HBeq. exact Hf.
  - apply Forall_forall. intros rt Hin. apply Hdesc. rewrite Hr. by apply list_elem_of_fmap_2.
Qed.

(** C8: [include_router] terminates.  Including another router always returns:
    as many steps as its longest list has entries are enough, whatever the
    routes, the arguments and the prefix, and whether or not an exception is
    raised.  Only a router included in itself is not covered: the loops read a
    list that they extend, and with an event handler on the router the call
    never returns. *)
Theorem include_router_terminates w hof fuel self router inc (h : store) A B :
  h !! self = Some A -> h !! router = Some B -> (loop_fuel B <= fuel)%nat ->
  (self ≠ router -> ∃ h' r, include_router w hof fuel self router inc h = Some (h', r))
  ∧ (self = router -> include_check inc B = Ok tt -> ar_routes B = [] -> ar_on_startup B ≠ [] ->
     ∀ fuel', include_router w hof fuel' self router inc h = None).
Proof.
  intros HA HB Hfuel. split.
  - intros Hne. destruct (include_check inc B) as [[]|e] eqn:Hc.
    + pose proof (include_router_fold w hof fuel self router inc h A B Hne HA HB Hfuel Hc) as H.
      destruct (rfold _ A (ar_routes B)); [eauto|]. destruct H; eauto.
    + unfold include_router, read_router at 1. rewrite HB. cbn [rbind]. rewrite Hc. eauto.
  - intros -> Hc Hr Hs fuel'. unfold include_router, read_router at 1. rewrite HB. cbn [rbind]. rewrite Hc.
    assert (Hl : ∀ A (body : A -> store -> store * result unit) f, f h = [] -> live_loop fuel' f body 0 h = Some (h, Ok tt)).
    { intros X body f Hf. destruct fuel'; cbn [live_loop]; by rewrite Hf. }
    rewrite Hl by (unfold items_of; by rewrite HB). cbn [then_do].
    rewrite (self_inclusion_grows fuel' router 0 h B HB); [done|]. destruct (ar_on_startup B); simpl; [done|lia].
Qed.

(** C9: event handlers and inclusion.  Handlers given to the constructor of a
    router are lost: its lists are empty and entering its lifespan calls nothing.
    Handlers registered on a router that another one includes run twice: entering
    the merged lifespan calls the handlers of the including router, then the
    copied ones of the included router, then the included router's own again, and
    leaving it likewise. *)
Theorem event_handlers_lost_and_doubled w hof call eu xu id args up down r fuel self router inc (h h' : store) A B :
  (api_router_init id args None true None None up down None = Ok r ->
     ar_on_startup r = [] ∧ ar_on_shutdown r = []
     ∧ enter call eu xu (<[id := r]> h) (ar_lifespan r) = ([], Ok None))
  ∧ (self ≠ router -> h !! self = Some A -> h !! router = Some B ->
     ar_lifespan A = DefaultLifespan self -> ar_lifespan B = DefaultLifespan router ->
     ar_routes B = [] -> (loop_fuel B <= fuel)%nat ->
     (∀ x, x ∈ ar_on_startup A ++ ar_on_startup B ++ ar_on_shutdown A ++ ar_on_shutdown B -> call x = Ok tt) ->
     include_router w hof fuel self router inc h = Some (h', Ok tt) ->
     ∃ A', h' !! self = Some A'
       ∧ enter call eu xu h' (ar_lifespan A')
         = (Ran <$> ar_on_startup A ++ ar_on_startup B ++ ar_on_startup B, Ok None)
       ∧ leave call xu h' (ar_lifespan A') None
         = (Ran <$> ar_on_shutdown B ++ ar_on_shutdown A ++ ar_on_shutdown B, Ok false)).
Proof.
  split.
  - unfold api_router_init. intros H. inv_ok. cbn. split_and!; [done..|]. by rewrite items_of_insert_eq.
  - intros Hne HA HB HlA HlB Hr Hfuel Hcall Hinc.
    assert (Hc : include_check inc B = Ok tt).
    { destruct (include_check inc B) as [[]|e] eqn:Hc; [done|]. unfold include_router, read_router at 1 in Hinc.
      rewrite HB in Hinc. cbn [rbind] in Hinc. by rewrite Hc in Hinc. }
    pose proof (include_router_fold w hof fuel self router inc h A B Hne HA HB Hfuel Hc) as H.
    rewrite Hr in H. cbn [rfold] in H. rewrite Hinc in H. injection H as ->.
    exists (absorb A B). rewrite lookup_insert_eq. split; [done|]. unfold absorb. cbn [ar_lifespan with_lifespan].
    rewrite HlA, HlB. cbn [enter leave].
    rewrite !items_of_insert_eq, !items_of_insert_ne by done. unfold items_of. rewrite HB. cbn.
    rewrite !run_all_ok by set_solver. cbn. rewrite !fmap_app. split; [by rewrite <-!app_assoc|done].
Qed.

(** A prefix is transparent.  The route that inclusion creates for an
    operation has the prefix of the including router, the prefix given and the
    path of the operation, and for prefixes without parameters it matches a
    request path exactly when the rest of the path after the prefixes is matched
    by the included route, with the same outcome (no match, wrong method, full
    match), endpoint and path parameters. *)
Theorem included_route_matches w hof A B inc p ep a provider rt A' app wsapp :
  let pre := ar_prefix A ++ ra_prefix inc in
  api_route_init w p ep a provider = Ok rt ->
  123%N ∉ pre -> startswith pre $"/" = true -> startswith p $"/" = true ->
  include_route w hof A B inc (ApiRoute rt) = Ok A' ->
  ∃ rt', ar_routes A' = ar_routes A ++ [ApiRoute rt'] ∧ path rt' = pre ++ p
    ∧ ∀ sc s, sc_path sc = pre ++ s -> get_or (sc_root_path sc) [] = [] ->
        matches (as_base app wsapp (ApiRoute rt')) sc
        = matches (as_base app wsapp (ApiRoute rt)) (scope_with_path sc s).
Proof.
  intros pre Hrt Hbr Hpre Hslash. unfold include_route, add_api_route.
  destruct (api_route_init_fields _ _ _ _ _ _ Hrt)
    as (Hp0 & He0 & _ & _ & _ & _ & _ & _ & _ & _ & _ & Hme0 & _ & _ & _ & _ & _ & _ & _ & _ & Hcp).
  intros (rt' & Hrt' & [= <-])%rbind_Ok. exists rt'. split; [done|].
  destruct (api_route_init_fields _ _ _ _ _ _ Hrt')
    as (Hp & He & _ & _ & _ & _ & _ & _ & _ & _ & _ & Hme & _ & _ & _ & _ & _ & _ & _ & _ & Hc).
  change (methods rt' = upper_methods (methods rt)) in Hme. rewrite Hme0, upper_methods_idemp, <-Hme0 in Hme.
  rewrite Hp0, app_assoc in *. fold pre in Hp, Hc. split; [done|].
  destruct (compile_path_prefix _ _ _ _ Hbr Hslash Hpre Hcp) as (cp' & Hc' & _ & Hcv & Hmatch).
  rewrite Hc in Hc'. injection Hc' as Hc'.
  intros sc s Hpath Hroot. cbn [as_base matches]. unfold route_matches. cbn.
  assert (Hrp : get_route_path sc = sc_path sc) by (unfold get_route_path; by rewrite Hroot).
  assert (Hrp' : get_route_path (scope_with_path sc s) = s) by (unfold get_route_path; cbn; by rewrite Hroot).
  rewrite Hrp, Hrp', Hpath, Hc', Hmatch, He, Hme. unfold convert_params. by rewrite Hcv.
Qed.

(** ** Witnesses *)
Definition sample_world : World :=
  mkWorld (mkProgram (fun _ => Annotations.Function Sync) (fun _ => $"read_items") (fun _ => []) (fun _ => 0) (fun _ => []) true)
    CONVERTOR_TYPES 10 (fun _ => $"Items.") (fun _ => None) (fun _ => false) (fun _ => true)
    (fun _ _ => AnyA) (fun _ _ _ _ => Ok []) id (fun _ => false).

Definition no_handlers : Scope -> list (str * handler) * list (Z * handler) := fun _ => ([], []).

Definition plain_router (id : Z) (prefix : str) (tags : list str) (up : list Z) : APIRouter :=
  mkAPIRouter [] true None up [] (DefaultLifespan id) prefix tags [] None true [] [] None
    (DefaultPlaceholder 0) (DefaultPlaceholder 0).

Definition plain_args : RouteArgs :=
  mkArgs (DefaultPlaceholder None) None (Some [$"list"]) None None None $"Successful Response" None None
    None None (mkOptions None None true false false false) true (DefaultPlaceholder 0) None None None
    (DefaultPlaceholder 0).

Definition plain_include (prefix : str) : RouterArgs :=
  mkRouterArgs prefix (Some [$"v1"]) None (DefaultPlaceholder 0) None None None true (DefaultPlaceholder 0).

Definition from_ok {A} (d : A) (m : result A) : A := match m with Ok a => a | Raise _ => d end.

Lemma from_ok_is_ok {A} (d : A) m : is_ok m = true -> m = Ok (from_ok d m).
Proof. by destruct m. Qed.

Definition sample_ops : list operation := [($"/items/{id}", 7, plain_args)].
Definition sample_base : APIRouter := plain_router 2 $"/shop" [$"shop"] [5].
Definition sample_sub : APIRouter := from_ok sample_base (rfold (declare sample_world) sample_base sample_ops).
Definition sample_root : APIRouter := plain_router 1 [] [] [4].
Definition sample_store : store := <[1 := sample_root]> (<[2 := sample_sub]> ∅).
Definition sample_included : APIRouter :=
  from_ok sample_root
    (rfold (declare sample_world) sample_root (nested_op sample_sub (plain_include $"/api") <$> sample_ops)).

Lemma sample_declared : rfold (declare sample_world) sample_base sample_ops = Ok sample_sub.
Proof. apply from_ok_is_ok. vm_compute. reflexivity. Qed.

Lemma sample_nested :
  rfold (declare sample_world) sample_root (nested_op sample_sub (plain_include $"/api") <$> sample_ops)
  = Ok sample_included.
Proof. apply from_ok_is_ok. vm_compute. reflexivity. Qed.

Lemma include_router_is_declaration_witness :
  include_router sample_world no_handlers 3 1 2 (plain_include $"/api") sample_store
    = Some (<[1 := absorb sample_included sample_sub]> sample_store, Ok tt)
  ∧ route_path <$> ar_routes sample_included = [$"/api/shop/items/{id}"]
  ∧ match ar_routes sample_included with [ApiRoute r] => tags r | _ => [] end = [$"v1"; $"shop"; $"list"].
Proof.
  split; [|split; vm_compute; reflexivity].
  pose proof (include_router_is_declaration sample_world no_handlers 3 1 2 (plain_include $"/api") sample_store
    sample_root sample_base sample_sub sample_ops) as H.
  rewrite sample_nested in H. apply H; [discriminate|reflexivity|reflexivity|reflexivity|apply sample_declared
    |vm_compute; reflexivity|vm_compute; lia|].
  intros rt Hin Hdesc. exfalso.
  assert (Hall : forallb (fun r => match r with ApiRoute r => match description r with [] => false | _ => true end | _ => true end)
      (ar_routes sample_sub) = true) by (vm_compute; reflexivity).
  apply forallb_Forall in Hall. apply (proj1 (Forall_forall _ _) Hall) in Hin.
  cbv beta iota in Hin. rewrite Hdesc in Hin. discriminate Hin.
Defined.

Lemma include_router_terminates_witness :
  (∃ h' r, include_router sample_world no_handlers 3 1 2 (plain_include []) sample_store = Some (h', r))
  ∧ ∀ fuel, include_router sample_world no_handlers fuel 1 1 (plain_include []) sample_store = None.
Proof.
  split.
  - apply (include_router_terminates sample_world no_handlers 3 1 2 (plain_include []) sample_store
      sample_root sample_sub); [reflexivity|reflexivity|vm_compute; lia|discriminate].
  - apply (include_router_terminates sample_world no_handlers 3 1 1 (plain_include []) sample_store
      sample_root sample_root); [reflexivity|reflexivity|vm_compute; lia|reflexivity|reflexivity|reflexivity|discriminate].
Defined.

Definition handler_store : store := <[1 := sample_root]> (<[2 := sample_base]> ∅).

Lemma event_handlers_lost_and_doubled_witness :
  ∃ h' A', include_router sample_world no_handlers 1 1 2 (plain_include []) handler_store = Some (h', Ok tt)
    ∧ h' !! 1 = Some A'
    ∧ enter (fun _ => Ok tt) (fun _ => Ok None) (fun _ _ => Ok false) h' (ar_lifespan A')
      = ([Ran 4; Ran 5; Ran 5], Ok None).
Proof.
  eexists. edestruct (event_handlers_lost_and_doubled sample_world no_handlers (fun _ => Ok tt) (fun _ => Ok None)
    (fun _ _ => Ok false) 9 (plain_include []) None None sample_root 1 1 2 (plain_include []) handler_store)
    as [_ H]; [..|destruct H as (A' & HA & He & _)].
  - discriminate.
  - reflexivity.
  - reflexivity.
  - reflexivity.
  - reflexivity.
  - reflexivity.
  - vm_compute. lia.
  - done.
  - reflexivity.
  - exists A'. split; [reflexivity|]. split; [exact HA|]. exact He.
Defined.

Definition sample_route : result APIRoute := api_route_init sample_world $"/shop/items/{id}" 7 plain_args None.

Definition get_scope (p : str) : Scope :=
  mkScope Http p None None (Some $"GET") None None None None None None None false false.

Definition quiet {A} (_ : A) : asgi_app := fun _ => run_ok [].

Lemma included_route_matches_witness :
  ∃ rt A' rt', sample_route = Ok rt
    ∧ include_route sample_world no_handlers sample_root sample_base (plain_include $"/api") (ApiRoute rt) = Ok A'
    ∧ ar_routes A' = [ApiRoute rt'] ∧ path rt' = $"/api/shop/items/{id}"
    ∧ matches (as_base quiet quiet (ApiRoute rt')) (get_scope $"/api/shop/items/3")
      = matches (as_base quiet quiet (ApiRoute rt)) (get_scope $"/shop/items/3").
Proof.
  assert (Hok : is_ok (let! rt := sample_route in include_route sample_world no_handlers sample_root sample_base
    (plain_include $"/api") (ApiRoute rt)) = true) by (vm_compute; reflexivity).
  destruct sample_route as [rt|] eqn:Hrt; [|discriminate]. cbn [rbind] in Hok.
  destruct (include_route sample_world no_handlers sample_root sample_base (plain_include $"/api") (ApiRoute rt))
    as [A'|e] eqn:Hi; [|discriminate].
  destruct (included_route_matches sample_world no_handlers sample_root sample_base (plain_include $"/api")
    $"/shop/items/{id}" 7 plain_args None rt A' quiet quiet) as (rt' & H1 & H2 & H3);
    [exact Hrt|apply contains_char_false; reflexivity|reflexivity|reflexivity|exact Hi|].
  exists rt, A', rt'. split; [done|]. split; [exact Hi|]. split; [exact H1|]. split; [exact H2|].
  exact (H3 (get_scope $"/api/shop/items/3") $"/shop/items/3" eq_refl eq_refl).
Defined.
