(* ===== verification/OpenApi.v ===== *)
(** * OpenApi: the OpenAPI document of an application

    [openapi/utils.py] with [deep_dict_update] of [utils.py] and
    [get_schema_from_model_field] of [_compat/v2.py].  Documents are trees with
    string keys.  What Pydantic generates (the schemas of fields and the shared
    definitions), the documentation attributes of fields, the dictionaries given
    as additional responses and extra OpenAPI, the documentation of response
    classes and security schemes, and the reason phrases of the Python version
    are parameters.  Schemas are values here; the code keeps one object per
    field for all operations of a document. *)

From S2P Require Import Prelude PyStr Asgi ExceptionHandler Convertors Routing Annotations Dependants ApiRouting.

(** ** Documents *)
Inductive doc : Type :=
  | DNull
  | DBool (b : bool)
  | DInt (z : Z)
  | DStr (s : str)
  | DList (l : list doc)
  | DDict (d : list (str * doc)).

Abbreviation ddict := (list (str * doc)).

(** [bool(d)] *)
Definition truthy (d : doc) : bool :=
  match d with
  | DNull | DBool false | DInt 0 | DStr [] | DList [] | DDict [] => false
  | _ => true
  end.

(** The dictionary under a key that is set to an empty one if it is absent; a
    value that is no dictionary has no [setdefault]. *)
Definition sub_dict (d : ddict) (k : str) : result ddict :=
  match dict_get d k with
  | None => Ok []
  | Some (DDict d') => Ok d'
  | Some _ => Raise (AttributeError $"setdefault")
  end.

(** [deep_dict_update]: dictionaries are merged, lists appended, anything else
    replaced. *)
Section merge.
Context (rec : doc -> doc -> doc).
Fixpoint merge_items (main update : ddict) : ddict :=
  match update with
  | [] => main
  | (k, v) :: update' =>
      merge_items (dict_set main k (match dict_get main k with Some old => rec old v | None => v end)) update'
  end.
End merge.

Fixpoint merge_doc (old v : doc) {struct v} : doc :=
  match old, v with
  | DDict m, DDict u => DDict (merge_items merge_doc m u)
  | DList a, DList b => DList (a ++ b)
  | _, _ => v
  end.

Definition deep_dict_update (main update : ddict) : ddict := merge_items merge_doc main update.

(** ** Text *)

(** [str.title]: a letter is capital where no letter precedes it. *)
Definition cased (c : N) : bool :=
  ascii_upper_letter c || ascii_lower_letter c || existsb (N.eqb c) [170; 181; 186]%N
  || (in_range 192 255 c && negb (c =? 215)%N && negb (c =? 247)%N).

Definition title_char (c : N) : str := if (c =? 223)%N then [83; 115]%N else upper_char c.

Fixpoint title_from (after_letter : bool) (s : str) : str :=
  match s with
  | [] => []
  | c :: s' => (if after_letter then [lower_char c] else title_char c) ++ title_from (cased c) s'
  end.
Definition str_title (s : str) : str := title_from false s.

(** [_] read as a space. *)
Definition spaced (s : str) : str := replace_char 95 32 s.

(** [str.isdigit] of one Latin-1 character. *)
Definition py_isdigit (c : N) : bool := is_digit c || existsb (N.eqb c) [178; 179; 185]%N.

(** ** Constants *)
Definition REF_PREFIX : str := $"#/components/schemas/".
Definition METHODS_WITH_BODY : list str := [$"GET"; $"HEAD"; $"POST"; $"PUT"; $"DELETE"; $"PATCH"].

Definition titled (title type : str) : doc := DDict [($"title", DStr title); ($"type", DStr type)].

Definition validation_error_definition : doc := DDict [
  ($"title", DStr $"ValidationError"); ($"type", DStr $"object");
  ($"properties", DDict [
     ($"loc", DDict [($"title", DStr $"Location"); ($"type", DStr $"array");
        ($"items", DDict [($"anyOf", DList [DDict [($"type", DStr $"string")]; DDict [($"type", DStr $"integer")]])])]);
     ($"msg", titled $"Message" $"string"); ($"type", titled $"Error Type" $"string");
     ($"input", DDict [($"title", DStr $"Input")]); ($"ctx", titled $"Context" $"object")]);
  ($"required", DList [DStr $"loc"; DStr $"msg"; DStr $"type"])].

Definition validation_error_response_definition : doc := DDict [
  ($"title", DStr $"HTTPValidationError"); ($"type", DStr $"object");
  ($"properties", DDict [
     ($"detail", DDict [($"title", DStr $"Detail"); ($"type", DStr $"array");
        ($"items", DDict [($"$ref", DStr (REF_PREFIX ++ $"ValidationError"))])])])].

Definition status_code_ranges : list (str * str) :=
  [($"1XX", $"Information"); ($"2XX", $"Success"); ($"3XX", $"Redirection"); ($"4XX", $"Client Error");
   ($"5XX", $"Server Error"); ($"DEFAULT", $"Default Response")].

(** ** What is known beyond the routes *)

(** The documentation attributes of a field; [fd_example] is [None] for
    Pydantic's [Undefined], [fd_examples] is [None] where it is empty. *)
Record FieldDoc : Type := mkFieldDoc {
  fd_title : option str;
  fd_include_in_schema : bool;
  fd_description : option str;
  fd_examples : option doc;
  fd_example : option doc;
  fd_deprecated : bool;
  fd_media_type : str
}.

Record Docs : Type := mkDocs {
  field_doc : ModelField -> FieldDoc;
  (** [field_mapping], for the fields of requests and of responses *)
  field_schema : ModelField -> option ddict;
  response_schema : ResponseField -> option ddict;
  (** response classes: media type, default status, subclass of [JSONResponse] *)
  class_media_type : Z -> option str;
  class_status : Z -> option Z;
  class_is_json : Z -> bool;
  (** an additional response, without its model, and extra OpenAPI *)
  additional_doc : Z -> ddict;
  extra_doc : Z -> ddict;
  (** a callback that is an [APIRoute] *)
  callback_route : Z -> option APIRoute;
  (** security schemes *)
  scheme_name : call -> str;
  scheme_doc : call -> doc;
  (** [endpoint.__globals__["__file__"]] *)
  endpoint_file : call -> option str;
  (** [http.client.responses] *)
  http_phrase : Z -> option str
}.

Section openapi.
Context (w : World) (D : Docs).

(** [a or b] for a text that may be absent. *)
Definition or_else (o : option str) (b : str) : str := match o with Some ((_ :: _) as s) => s | _ => b end.

(** [get_schema_from_model_field] *)
Definition with_title (schema : ddict) (title : option str) (field_alias : str) : ddict :=
  if dict_mem schema $"$ref" then schema
  else dict_set schema $"title" (DStr (or_else title (spaced (str_title field_alias)))).

Definition schema_of_field (f : ModelField) : result ddict :=
  match field_schema D f with
  | Some s => Ok (with_title s (fd_title (field_doc D f)) (get_validation_alias f))
  | None => Raise (KeyError (field_name f))
  end.

Definition schema_of_response (f : ResponseField) : result ddict :=
  match response_schema D f with
  | Some s => Ok (with_title s None (rf_name f))
  | None => Raise (KeyError (rf_name f))
  end.

(** A default of [None] is left out. *)
Definition strip_null_default (schema : ddict) : ddict :=
  match dict_get schema $"default" with Some DNull => dict_del schema $"default" | _ => schema end.

(** ** Security *)
Definition add_scope (scopes : list str) (s : str) : list str :=
  if bool_decide (s ∈ scopes) then scopes else scopes ++ [s].

Definition security_step (acc : ddict * list (str * list str)) (d : Dependant) : ddict * list (str * list str) :=
  let c := dep_call (info d) in
  let name := scheme_name D c in
  (dict_set acc.1 name (scheme_doc D c),
   dict_set acc.2 name (foldl add_scope (dict_getdefault acc.2 name []) (oauth_scopes d))).

Definition get_openapi_security_definitions (flat : Dependant) : ddict * list doc :=
  let '(definitions, sets) :=
    foldl security_step ([], []) (filter (fun d => _is_security_scheme (program w) d = true) (dependencies flat)) in
  (definitions, (fun '(name, scopes) => DDict [(name, DList (DStr <$> scopes))]) <$> sets).

(** ** Parameters *)
Record parameter : Type := mkParameter { p_name : str; p_in : ParamTypes; p_required : bool; p_rest : ddict }.

Definition parameter_doc (p : parameter) : doc :=
  DDict ([($"name", DStr (p_name p)); ($"in", DStr (in_value (p_in p))); ($"required", DBool (p_required p))] ++ p_rest p).

Definition parameter_name (t : ParamTypes) (default_convert : bool) (f : ModelField) : str :=
  let name := get_validation_alias f in
  if bool_decide (t = header) && bool_decide (name = field_name f)
     && get_or (fi_convert_underscores (field_info f)) default_convert
  then replace_char 95 45 (field_name f) else name.

Definition make_parameter (t : ParamTypes) (default_convert : bool) (f : ModelField) : result parameter :=
  let fd := field_doc D f in
  let! schema := schema_of_field f in
  Ok (mkParameter (parameter_name t default_convert f) t (required f)
        ([($"schema", DDict (strip_null_default schema))]
         ++ (match fd_description fd with Some ((_ :: _) as s) => [($"description", DStr s)] | _ => [] end)
         ++ (match fd_examples fd, fd_example fd with
             | Some e, _ => [($"examples", e)]
             | None, Some DNull | None, None => []
             | None, Some e => [($"example", e)]
             end)
         ++ (if fd_deprecated fd then [($"deprecated", DBool true)] else []))).

Definition parameter_groups (d : Dependant) : list (ParamTypes * list ModelField) :=
  let flat := params (get_flat_dependant (program w) true None [] d).1 in
  [(Dependants.path, _get_flat_fields_from_params (program w) (path_params flat));
   (query, _get_flat_fields_from_params (program w) (query_params flat));
   (header, _get_flat_fields_from_params (program w) (header_params flat));
   (cookie, _get_flat_fields_from_params (program w) (cookie_params flat))].

(** Of the only header parameter, if it is a model. *)
Definition default_convert_underscores (d : Dependant) : bool :=
  match header_params (params (get_flat_dependant (program w) true None [] d).1) with
  | [f] => if is_model_field f then get_or (fi_convert_underscores (field_info f)) true else true
  | _ => true
  end.

Definition documented (g : ParamTypes * list ModelField) : list (ParamTypes * ModelField) :=
  (fun f => (g.1, f)) <$> filter (fun f => fd_include_in_schema (field_doc D f) = true) g.2.

Definition _get_openapi_operation_parameters (d : Dependant) : result (list parameter) :=
  rmapM (fun '(t, f) => make_parameter t (default_convert_underscores d) f) (concat (documented <$> parameter_groups d)).

(** Of several parameters of one name and place the last one stays, a required
    one before an optional one, where the first one was. *)
Definition param_key (p : parameter) : ParamTypes * str := (p_in p, p_name p).

Definition merge_parameters (ps : list parameter) : list parameter :=
  let by_key := fun acc p => dict_set acc (param_key p) p in
  let all_parameters := foldl by_key [] ps in
  let required_parameters := foldl by_key [] (filter (fun p => p_required p = true) ps) in
  (dict_update all_parameters required_parameters).*2.

(** ** Request bodies *)
Definition get_openapi_operation_request_body (body : option ModelField) : result (option ddict) :=
  match body with
  | None => Ok None
  | Some f =>
      let fd := field_doc D f in
      let! schema := schema_of_field f in
      let content := [($"schema", DDict (strip_null_default schema))]
        ++ (match fd_examples fd, fd_example fd with
            | Some e, _ => [($"examples", e)]
            | None, Some e => [($"example", e)]
            | None, None => []
            end) in
      Ok (Some ((if required f then [($"required", DBool true)] else [])
                ++ [($"content", DDict [(fd_media_type fd, DDict content)])]))
  end.

(** ** Operations *)
Definition generate_operation_summary (r : APIRoute) : str := or_else (summary r) (str_title (spaced (name r))).

(** The operation ids that were given, and the warnings. *)
Record doc_state : Type := mkDocState { operation_ids : list str; warned : list str }.

Definition operation_id_of (r : APIRoute) : str := or_else (operation_id r) (unique_id r).

Definition duplicate_warning (r : APIRoute) : str :=
  $"Duplicate Operation ID " ++ operation_id_of r ++ $" for function " ++ call_name (program w) (endpoint r)
  ++ (match endpoint_file D (endpoint r) with Some ((_ :: _) as f) => $" at " ++ f | _ => [] end).

Definition get_openapi_operation_metadata (r : APIRoute) (st : doc_state) : ddict * doc_state :=
  let id := operation_id_of r in
  (match tags r with [] => [] | ts => [($"tags", DList (DStr <$> ts))] end
   ++ [($"summary", DStr (generate_operation_summary r))]
   ++ (match description r with [] => [] | s => [($"description", DStr s)] end)
   ++ [($"operationId", DStr id)]
   ++ (match deprecated r with Some true => [($"deprecated", DBool true)] | _ => [] end),
   if bool_decide (id ∈ operation_ids st) then mkDocState (operation_ids st) (warned st ++ [duplicate_warning r])
   else mkDocState (operation_ids st ++ [id]) (warned st)).

(** ** Responses *)
Definition response_class_of (r : APIRoute) : Z := placeholder_value (response_class r).

Definition operation_status (r : APIRoute) : str :=
  match status_code r with
  | Some c => Z_to_str c
  | None => match class_status D (response_class_of r) with Some c => Z_to_str c | None => $"200" end
  end.

(** The response of the route itself. *)
Definition route_response (r : APIRoute) : result ddict :=
  let! allowed := _is_body_allowed_for_status_code (status_of (status_code r)) in
  let described := [($"description", DStr (response_description r))] in
  match class_media_type D (response_class_of r), allowed with
  | Some ((_ :: _) as mt), true =>
      let! schema :=
        if class_is_json D (response_class_of r) then
          match response_field r with Some f => schema_of_response f | None => Ok [] end
        else Ok [($"type", DStr $"string")] in
      Ok (described ++ [($"content", DDict [(mt, DDict [($"schema", DDict schema)])])])
  | _, _ => Ok described
  end.

(** [int(code)] *)
Definition int_of_key (k : status_key) : result Z :=
  match k with SInt z => Ok z | SStr s => py_int s | SNone => Raise (TypeError []) end.

(** [repr] of a text: in single quotes unless it has one and no double quote;
    characters outside ASCII are taken to be printable. *)
Definition repr_char (q c : N) : str :=
  if (c =? 92)%N || (c =? q)%N then [92%N; c]
  else if (c =? 10)%N then $"\n"
  else if (c =? 13)%N then $"\r"
  else if (c =? 9)%N then $"\t"
  else if (c <? 32)%N || (c =? 127)%N then $"\x" ++ [hex_digit_lower (c / 16); hex_digit_lower (c mod 16)]
  else [c].
Definition repr_str (s : str) : str :=
  let q := if bool_decide (39%N ∈ s) && negb (bool_decide (34%N ∈ s)) then 34%N else 39%N in
  [q] ++ concat (repr_char q <$> s) ++ [q].
Definition repr_key (k : status_key) : str := match k with SStr s => repr_str s | _ => key_str k end.

Definition invalid_status (k : status_key) : exn :=
  ValueError ($"Invalid status code " ++ repr_key k
              ++ $" in additional responses. Status codes must be integers, range codes (e.g. '4XX'), or 'default'.").

(** The key of an additional response: upper case, [default], and checked. *)
Definition response_key (k : status_key) : result str :=
  let s := str_upper (key_str k) in
  if bool_decide (s = $"DEFAULT") then Ok $"default"
  else
    match int_of_key k, s with
    | Ok _, _ => Ok s
    | Raise _, [c; 88%N; 88%N] => if py_isdigit c then Ok s else Raise (invalid_status k)
    | Raise _, _ => Raise (invalid_status k)
    end.

(** The schema of a response model, merged into the given dictionary. *)
Definition with_model_schema (r : APIRoute) (k : status_key) (process : ddict) : result ddict :=
  match dict_get (response_fields r) k with
  | None => Ok process
  | Some f =>
      let! schema := schema_of_response f in
      let schema :=
        if dict_mem schema $"title"
        then dict_set schema $"title"
               (DStr ($"Response " ++ key_str k ++ $" " ++ str_title (spaced (unique_id r))))
        else schema in
      let mt := or_else (class_media_type D (response_class_of r)) $"application/json" in
      let! content := sub_dict process $"content" in
      let! media := sub_dict content mt in
      let! old := sub_dict media $"schema" in
      Ok (dict_set process $"content"
            (DDict (dict_set content mt (DDict (dict_set media $"schema" (DDict (deep_dict_update old schema)))))))
  end.

Definition status_text (k : status_key) : result (option str) :=
  match dict_get status_code_ranges (str_upper (key_str k)) with
  | Some t => Ok (Some t)
  | None => let! code := int_of_key k in Ok (http_phrase D code)
  end.

(** The first description that is not empty. *)
Definition first_truthy (l : list (option doc)) (d : doc) : doc :=
  foldr (fun o d => match o with Some x => if truthy x then x else d | None => d end) d l.

Definition additional_response (r : APIRoute) (resps : ddict) (kr : status_key * AdditionalResponse) : result ddict :=
  let! key := response_key kr.1 in
  let! current := sub_dict resps key in
  let! process := with_model_schema r kr.1 (additional_doc D (ad_rest kr.2)) in
  let! text := status_text kr.1 in
  let desc := first_truthy [dict_get process $"description"; dict_get current $"description"; DStr <$> text]
                (DStr $"Additional Response") in
  Ok (dict_set resps key (DDict (dict_set (deep_dict_update current process) $"description" desc))).

(** The answer to a request that fails validation. *)
Definition validation_response : doc := DDict [
  ($"description", DStr $"Validation Error");
  ($"content", DDict [($"application/json",
     DDict [($"schema", DDict [($"$ref", DStr (REF_PREFIX ++ $"HTTPValidationError"))])])])].

Definition needs_validation_response (r : APIRoute) (resps : ddict) : bool :=
  (negb (bool_decide (get_flat_params (program w) (dependant r) = [])) || bool_decide (is_Some (body_field r)))
  && negb (existsb (dict_mem resps) [$"422"; $"4XX"; $"default"]).

Definition validation_definitions (defs : ddict) : ddict :=
  if dict_mem defs $"ValidationError" then defs
  else dict_update defs [($"ValidationError", validation_error_definition);
                         ($"HTTPValidationError", validation_error_response_definition)].

Definition operation_responses (r : APIRoute) : result (ddict * bool) :=
  let! first := route_response r in
  let! resps := rfold (additional_response r) [(operation_status r, DDict first)] (responses r) in
  if needs_validation_response r resps then Ok (dict_set resps $"422" validation_response, true)
  else Ok (resps, false).

(** ** Paths *)

(** What one route contributes: its operations, security schemes and
    definitions. *)
Record path_doc : Type := mkPathDoc { pd_path : ddict; pd_security : ddict; pd_definitions : ddict }.

Section path.
Context (rec : APIRoute -> doc_state -> result (path_doc * doc_state)).

Definition callback_step (acc : ddict * doc_state) (c : Z) : result (ddict * doc_state) :=
  match callback_route D c with
  | None => Ok acc
  | Some cb =>
      let! (pd, st) := rec cb acc.2 in
      Ok (dict_set acc.1 (name cb) (DDict [(ApiRouting.path cb, DDict (pd_path pd))]), st)
  end.

Definition operation_callbacks (r : APIRoute) (st : doc_state) : result (ddict * doc_state) :=
  match callbacks r with
  | Some ((_ :: _) as cs) =>
      let! (docs, st) := rfold callback_step ([], st) cs in Ok ([($"callbacks", DDict docs)], st)
  | _ => Ok ([], st)
  end.

(** The operation of one method. *)
Definition openapi_operation (r : APIRoute) (acc : path_doc * doc_state) (method : str)
    : result (path_doc * doc_state) :=
  let '(pd, st) := acc in
  let '(metadata, st) := get_openapi_operation_metadata r st in
  let flat := (get_flat_dependant (program w) true None [] (dependant r)).1 in
  let '(definitions, security) := get_openapi_security_definitions flat in
  let! ps := _get_openapi_operation_parameters (dependant r) in
  let! body :=
    if bool_decide (method ∈ METHODS_WITH_BODY) then get_openapi_operation_request_body (body_field r) else Ok None in
  let! (cbs, st) := operation_callbacks r st in
  let! (resps, invalid) := operation_responses r in
  let operation :=
    metadata
    ++ (match security with [] => [] | _ => [($"security", DList security)] end)
    ++ (match ps with [] => [] | _ => [($"parameters", DList (parameter_doc <$> merge_parameters ps))] end)
    ++ (match body with Some b => [($"requestBody", DDict b)] | None => [] end)
    ++ cbs ++ [($"responses", DDict resps)] in
  let operation :=
    match openapi_extra r with
    | Some x => deep_dict_update operation (extra_doc D x)
    | None => operation
    end in
  Ok (mkPathDoc (dict_set (pd_path pd) (str_lower method) (DDict operation))
        (dict_update (pd_security pd) definitions)
        (if invalid then validation_definitions (pd_definitions pd) else pd_definitions pd), st).
End path.

(** Callbacks are documented like routes, up to the depth Python allows. *)
Fixpoint get_openapi_path (depth : nat) (r : APIRoute) (st : doc_state) : result (path_doc * doc_state) :=
  match depth with
  | O => Raise RecursionError
  | S depth' =>
      if include_in_schema r then
        rfold (openapi_operation (get_openapi_path depth') r) (mkPathDoc [] [] [], st) (set_iter w (methods r))
      else Ok (mkPathDoc [] [] [], st)
  end.

(** ** The fields schemas are generated for *)
Inductive any_field : Type := RequestField (f : ModelField) | AnswerField (f : ResponseField).

(** [get_fields_from_routes]; callbacks that are no [APIRoute] are skipped. *)
Definition route_fields (rec : list APIRoute -> result (list any_field)) (r : APIRoute)
    : result (list any_field * list any_field * list any_field * list any_field) :=
  if include_in_schema r then
    let body := match body_field r with Some f => [RequestField f] | None => [] end in
    let answers := (match response_field r with Some f => [AnswerField f] | None => [] end)
                   ++ (AnswerField <$> (response_fields r).*2) in
    let! cbs :=
      match callbacks r with
      | Some ((_ :: _) as cs) => rec (omap (callback_route D) cs)
      | _ => Ok []
      end in
    Ok (cbs, body, answers, RequestField <$> get_flat_params (program w) (dependant r))
  else Ok ([], [], [], []).

Fixpoint get_fields_from_routes (depth : nat) (rs : list APIRoute) : result (list any_field) :=
  match depth with
  | O => Raise RecursionError
  | S depth' =>
      let! parts := rmapM (route_fields (get_fields_from_routes depth')) rs in
      Ok (concat ((fun p => p.1.1.1) <$> parts) ++ concat ((fun p => p.1.1.2) <$> parts)
          ++ concat ((fun p => p.1.2) <$> parts) ++ concat (snd <$> parts))
  end.

(** ** The document *)

(** The metadata of [get_openapi]; its lists and dictionaries are documents. *)
Record Info : Type := mkApiInfo {
  i_title : str;
  i_version : str;
  i_openapi_version : str;
  i_summary : option str;
  i_description : option str;
  i_terms_of_service : option str;
  i_contact : ddict;
  i_license_info : ddict;
  i_tags : list doc;
  i_servers : list doc;
  i_external_docs : ddict
}.

Definition text_entry (k : str) (o : option str) : ddict := match o with Some ((_ :: _) as s) => [(k, DStr s)] | _ => [] end.
Definition dict_entry (k : str) (d : ddict) : ddict := match d with [] => [] | _ => [(k, DDict d)] end.
Definition list_entry (k : str) (l : list doc) : ddict := match l with [] => [] | _ => [(k, DList l)] end.

Definition info_doc (i : Info) : ddict :=
  [($"title", DStr (i_title i)); ($"version", DStr (i_version i))] ++ text_entry $"summary" (i_summary i)
  ++ text_entry $"description" (i_description i) ++ text_entry $"termsOfService" (i_terms_of_service i)
  ++ dict_entry $"contact" (i_contact i) ++ dict_entry $"license" (i_license_info i).

(** What the loop over routes, or webhooks, has gathered. *)
Record gathered : Type := mkGathered {
  g_paths : list (str * ddict);
  g_security : ddict;
  g_definitions : ddict;
  g_state : doc_state
}.

(** [paths.setdefault(fmt, {}).update(path)], if the path has operations. *)
Definition add_path (paths : list (str * ddict)) (fmt : str) (p : ddict) : list (str * ddict) :=
  match p with [] => paths | _ => dict_set paths fmt (dict_update (dict_getdefault paths fmt []) p) end.

Definition gather (depth : nat) (g : gathered) (rt : any_route) : result gathered :=
  match rt with
  | ApiRoute r =>
      let! (pd, st) := get_openapi_path depth r (g_state g) in
      let fmt := path_format (compiled r) in
      Ok (mkGathered
            (add_path (g_paths g) fmt (pd_path pd))
            (dict_update (g_security g) (pd_security pd)) (dict_update (g_definitions g) (pd_definitions pd)) st)
  | _ => Ok g
  end.

(** [{k: definitions[k] for k in sorted(definitions)}] *)
Fixpoint insert_def (k : str) (v : doc) (d : ddict) : ddict :=
  match d with
  | [] => [(k, v)]
  | (k', v') :: d' => if str_leb k k' then (k, v) :: (k', v') :: d' else (k', v') :: insert_def k v d'
  end.
Definition sort_definitions (d : ddict) : ddict := foldr (fun kv acc => insert_def kv.1 kv.2 acc) [] d.

Definition api_routes (rs : list any_route) : list APIRoute :=
  omap (fun rt => match rt with ApiRoute r => Some r | _ => None end) rs.

(** The output, from what the routes and then the webhooks gave. *)
Definition openapi_output (i : Info) (g h : gathered) : ddict :=
  let components := dict_entry $"securitySchemes" (g_security h)
                    ++ dict_entry $"schemas" (sort_definitions (g_definitions h)) in
  let paths_doc (ps : list (str * ddict)) : ddict := (fun kv => (kv.1, DDict kv.2)) <$> ps in
  [($"openapi", DStr (i_openapi_version i)); ($"info", DDict (info_doc i))]
  ++ list_entry $"servers" (i_servers i) ++ dict_entry $"components" components
  ++ [($"paths", DDict (paths_doc (g_paths g)))] ++ dict_entry $"webhooks" (paths_doc (g_paths h))
  ++ list_entry $"tags" (i_tags i) ++ dict_entry $"externalDocs" (i_external_docs i).

(** [get_definitions] is what Pydantic generates for the fields of all routes. *)
Definition get_openapi (depth : nat) (i : Info) (get_definitions : list any_field -> ddict)
    (routes webhooks : list any_route) : result (ddict * list str) :=
  let! fields := get_fields_from_routes depth (api_routes (routes ++ webhooks)) in
  let! g := rfold (gather depth) (mkGathered [] [] (get_definitions fields) (mkDocState [] [])) routes in
  let! h := rfold (gather depth) (mkGathered [] (g_security g) (g_definitions g) (g_state g)) webhooks in
  Ok (openapi_output i g h, warned (g_state h)).
End openapi.
