(* ===== verification/OpenApiFacts.v ===== *)
(** * OpenApiFacts: what the OpenAPI document contains

    Every field whose schema is looked up was handed to Pydantic before; every
    documented route has an operation under its path, and nothing else has;
    an operation lists every parameter once. *)

From S2P Require Import Prelude PyStr Asgi ExceptionHandler Convertors Routing Annotations Dependants ApiRouting OpenApi.

(** ** Exceptions other than [KeyError] *)
Definition no_key_error {A} (r : result A) : Prop := ∀ k, r ≠ Raise (KeyError k).

Lemma nke_ok {A} (a : A) : no_key_error (Ok a).
Proof. by intros k. Qed.

Lemma nke_bind {A B} (m : result A) (f : A -> result B) :
  no_key_error m -> (∀ a, m = Ok a -> no_key_error (f a)) -> no_key_error (rbind m f).
Proof. intros Hm Hf. destruct m as [a|e]; simpl; [by apply Hf|]. intros k [= ->]. by apply (Hm k). Qed.

Lemma nke_rmapM {A B} (f : A -> result B) l : (∀ a, a ∈ l -> no_key_error (f a)) -> no_key_error (rmapM f l).
Proof.
  induction l as [|a l IH]; intros H; simpl; [apply nke_ok|].
  apply nke_bind; [apply H; set_solver|]. intros b _. apply nke_bind; [apply IH; set_solver|]. intros. apply nke_ok.
Qed.

Lemma nke_rfold {A S} (f : S -> A -> result S) s l :
  (∀ s a, a ∈ l -> no_key_error (f s a)) -> no_key_error (rfold f s l).
Proof.
  revert s. induction l as [|a l IH]; intros s H; simpl; [apply nke_ok|].
  apply nke_bind; [apply H; set_solver|]. intros s' _. apply IH. set_solver.
Qed.

Create HintDb nke.
#[export] Hint Resolve nke_ok nke_bind nke_rmapM nke_rfold : nke.

Lemma py_int_nke s : no_key_error (py_int s).
Proof. unfold py_int. destruct (int_sign _). by repeat case_match. Qed.

Lemma int_of_key_nke k : no_key_error (int_of_key k).
Proof. destruct k; [done|apply nke_ok|apply py_int_nke]. Qed.

Lemma body_allowed_nke k : no_key_error (_is_body_allowed_for_status_code k).
Proof.
  destruct k; simpl; auto with nke. case_match; auto with nke.
  apply nke_bind; [apply py_int_nke|]. auto with nke.
Qed.

Lemma sub_dict_nke d k : no_key_error (sub_dict d k).
Proof. unfold sub_dict. by repeat case_match. Qed.

Lemma response_key_nke k : no_key_error (response_key k).
Proof. unfold response_key. by repeat case_match. Qed.

#[export] Hint Resolve int_of_key_nke body_allowed_nke sub_dict_nke response_key_nke : nke.

(** A sequence of steps none of which raises a [KeyError]. *)
Ltac nke := repeat (apply nke_bind; [|intros]); auto with nke.

(** ** Schemas are found *)
Section found.
Context (w : World) (D : Docs).
Local Abbreviation pr := (program w).

Definition field_mapped (f : any_field) : Prop :=
  match f with
  | RequestField f => is_Some (field_schema D f)
  | AnswerField f => is_Some (response_schema D f)
  end.

(** The schemas of a route, and of its callbacks, are there. *)
Fixpoint schemas_there (depth : nat) (r : APIRoute) : Prop :=
  match depth with
  | O => True
  | S depth' =>
      include_in_schema r = true ->
      (∀ f, f ∈ get_flat_params pr (dependant r) -> field_mapped (RequestField f))
      ∧ (∀ f, body_field r = Some f -> field_mapped (RequestField f))
      ∧ (∀ f, response_field r = Some f -> field_mapped (AnswerField f))
      ∧ (∀ f, f ∈ (response_fields r).*2 -> field_mapped (AnswerField f))
      ∧ (∀ cs c cb, callbacks r = Some cs -> c ∈ cs -> callback_route D c = Some cb -> schemas_there depth' cb)
  end.

Lemma schema_of_field_nke f : field_mapped (RequestField f) -> no_key_error (schema_of_field D f).
Proof. intros [s Hs]. unfold schema_of_field. by rewrite Hs. Qed.

Lemma schema_of_response_nke f : field_mapped (AnswerField f) -> no_key_error (schema_of_response D f).
Proof. intros [s Hs]. unfold schema_of_response. by rewrite Hs. Qed.

Lemma documented_flat_param d t f :
  (t, f) ∈ concat (documented D <$> parameter_groups w d) -> f ∈ get_flat_params pr d.
Proof.
  intros (l & Hin & (g & -> & Hg)%list_elem_of_fmap)%elem_of_concat.
  apply list_elem_of_fmap in Hin as (f' & [= _ ->] & [_ Hf]%list_elem_of_filter).
  unfold get_flat_params. unfold parameter_groups in Hg. set_solver.
Qed.

Lemma parameters_nke d :
  (∀ f, f ∈ get_flat_params pr d -> field_mapped (RequestField f)) ->
  no_key_error (_get_openapi_operation_parameters w D d).
Proof.
  intros H. apply nke_rmapM. intros [t f] Hin. unfold make_parameter.
  apply nke_bind; [|auto with nke]. eapply schema_of_field_nke, H, documented_flat_param, Hin.
Qed.

Lemma body_nke b :
  (∀ f, b = Some f -> field_mapped (RequestField f)) -> no_key_error (get_openapi_operation_request_body D b).
Proof.
  intros H. destruct b as [f|]; simpl; [|auto with nke]. apply nke_bind; [by apply schema_of_field_nke, H|auto with nke].
Qed.

Lemma responses_nke r :
  (∀ f, response_field r = Some f -> field_mapped (AnswerField f)) ->
  (∀ f, f ∈ (response_fields r).*2 -> field_mapped (AnswerField f)) ->
  no_key_error (operation_responses w D r).
Proof.
  intros H1 H2. unfold operation_responses. apply nke_bind; [|intros first _; apply nke_bind; [|intros; case_match; auto with nke]].
  - unfold route_response. apply nke_bind; [auto with nke|]. intros allowed _.
    destruct (class_media_type _ _) as [[|c mt]|]; [auto with nke| |auto with nke]. destruct allowed; [|auto with nke].
    apply nke_bind; [|auto with nke]. case_match; [|auto with nke].
    destruct (response_field r) as [f|]; [by apply schema_of_response_nke, H1|auto with nke].
  - apply nke_rfold. intros resps [k ad] _. unfold additional_response. nke.
    + unfold with_model_schema. destruct (dict_get _ _) as [f|] eqn:Hf; [|auto with nke].
      apply nke_bind; [|intros; nke]. apply schema_of_response_nke, H2.
      apply dict_get_elem in Hf. apply list_elem_of_fmap. by exists (k, f).
    + unfold status_text. case_match; [auto with nke|]. nke.
Qed.

Lemma openapi_path_nke depth r st : schemas_there depth r -> no_key_error (get_openapi_path w D depth r st).
Proof.
  revert r st. induction depth as [|depth IH]; intros r st; simpl; [done|].
  destruct (include_in_schema r); [|auto with nke]. intros (Hp & Hb & Hr & Hrs & Hc); [done|].
  apply nke_rfold. intros [pd st0] m _. unfold openapi_operation.
  destruct (get_openapi_operation_metadata _ _ _ _) as [meta st1]. destruct (get_openapi_security_definitions _ _ _).
  apply nke_bind; [by apply parameters_nke|]. intros ps _.
  apply nke_bind; [case_match; [by apply body_nke|auto with nke]|]. intros body _.
  apply nke_bind.
  { unfold operation_callbacks. destruct (callbacks r) as [[|c cs]|] eqn:Ecs; [auto with nke| |auto with nke].
    apply nke_bind; [|intros [] _; auto with nke]. apply nke_rfold. intros [docs st2] c' Hin. unfold callback_step.
    destruct (callback_route D c') as [cb|] eqn:Ecb; [|auto with nke].
    apply nke_bind; [|intros [] _; auto with nke]. eapply IH, Hc; [done|exact Hin|done]. }
  intros [cbs st2] _. apply nke_bind; [by apply responses_nke|]. intros [] _. auto with nke.
Qed.

Lemma fields_nke depth rs : no_key_error (get_fields_from_routes w D depth rs).
Proof.
  revert rs. induction depth as [|depth IH]; intros rs; simpl; [done|]. apply nke_bind; [|auto with nke].
  apply nke_rmapM. intros r _. unfold route_fields. destruct (include_in_schema r); [|auto with nke].
  apply nke_bind; [|auto with nke]. destruct (callbacks r) as [[|c cs]|]; auto with nke.
Qed.

(** The fields of a route are among those that are collected. *)
Lemma collected_schemas depth rs fs :
  get_fields_from_routes w D depth rs = Ok fs -> (∀ f, f ∈ fs -> field_mapped f) -> ∀ r, r ∈ rs -> schemas_there depth r.
Proof.
  revert rs fs. induction depth as [|depth IH]; intros rs fs; simpl; [done|].
  destruct (rmapM _ rs) as [parts|] eqn:E; simpl; [|done]. intros [= <-] Hmap r Hr Hi.
  apply rmapM_Ok in E. apply list_elem_of_lookup in Hr as [i Hr].
  destruct (Forall2_lookup_l _ _ _ _ _ E Hr) as (p & Hp & Heq). apply list_elem_of_lookup_2 in Hp.
  unfold route_fields in Heq. rewrite Hi in Heq.
  destruct (match callbacks r with Some (_ :: _) => _ | _ => _ end) as [cbs|] eqn:Ecb; simpl in Heq; [|done].
  injection Heq as <-.
  assert (∀ f, f ∈ cbs ∨ f ∈ (match body_field r with Some f => [RequestField f] | None => [] end)
             ∨ f ∈ ((match response_field r with Some f => [AnswerField f] | None => [] end)
                   ++ (AnswerField <$> (response_fields r).*2))
             ∨ f ∈ (RequestField <$> get_flat_params pr (dependant r)) -> field_mapped f) as Hall.
  { intros f Hf. apply Hmap. rewrite !elem_of_app, !elem_of_concat.
    destruct Hf as [Hf|[Hf|[Hf|Hf]]]; [left|right;left|right;right;left|right;right;right];
      (eexists; split; [exact Hf|]; apply list_elem_of_fmap; eexists; split; [|exact Hp]; done). }
  split_and!.
  - intros f Hf. apply (Hall (RequestField f)). do 3 right. by apply list_elem_of_fmap_2.
  - intros f Hf. apply (Hall (RequestField f)). right; left. rewrite Hf. set_solver.
  - intros f Hf. apply (Hall (AnswerField f)). right; right; left. rewrite Hf. set_solver.
  - intros f Hf. apply (Hall (AnswerField f)). right; right; left. apply elem_of_app. right. by apply list_elem_of_fmap_2.
  - intros cs c cb Hcs Hc Hcb. rewrite Hcs in Ecb. destruct cs as [|c0 cs]; [set_solver|].
    eapply (IH _ _ Ecb); [intros f Hf; apply Hall; by left|]. apply list_elem_of_omap. by exists c.
Qed.
End found.

(** The OpenAPI document never misses a schema.  All fields whose schema is
    looked up for the parameters, bodies, responses and callbacks of documented
    routes and webhooks are among those collected before, so if Pydantic
    generated a schema for each collected field, [get_openapi] does not raise a
    [KeyError]. *)
Theorem openapi_schemas_found w D depth i get_definitions routes webhooks :
  (∀ fields f, get_fields_from_routes w D depth (api_routes (routes ++ webhooks)) = Ok fields ->
     f ∈ fields -> field_mapped D f) ->
  ∀ k, get_openapi w D depth i get_definitions routes webhooks ≠ Raise (KeyError k).
Proof.
  intros Hmap. change (no_key_error (get_openapi w D depth i get_definitions routes webhooks)). unfold get_openapi.
  apply nke_bind; [apply fields_nke|]. intros fields E.
  assert (∀ g rt, rt ∈ routes ++ webhooks -> no_key_error (gather w D depth g rt)) as Hg.
  { intros g rt Hin. destruct rt as [r| | | |]; simpl; auto with nke. apply nke_bind; [|intros [] _; auto with nke].
    apply openapi_path_nke. eapply collected_schemas; [exact E|eauto|]. apply list_elem_of_omap. by exists (ApiRoute r). }
  apply nke_bind; [apply nke_rfold; intros g rt Hin; apply Hg; set_solver|]. intros g _.
  apply nke_bind; [apply nke_rfold; intros h rt Hin; apply Hg; set_solver|]. auto with nke.
Qed.

(** ** Operations under their paths *)

Section operations.
Context (w : World) (D : Docs).

(** An operation of a route. *)
Definition operation_of (r : APIRoute) (v : doc) : Prop :=
  ∃ op, v = DDict op ∧ (openapi_extra r = None -> dict_get op $"operationId" = Some (DStr (operation_id_of r))).

Lemma metadata_id r st :
  dict_get (get_openapi_operation_metadata w D r st).1 $"operationId" = Some (DStr (operation_id_of r)).
Proof.
  unfold get_openapi_operation_metadata. simpl. rewrite !dict_get_app.
  destruct (tags r), (description r), (deprecated r) as [[]|]; reflexivity.
Qed.

Lemma operation_added rec r pd st m pd' st' :
  openapi_operation w D rec r (pd, st) m = Ok (pd', st') ->
  ∃ v, operation_of r v ∧ pd_path pd' = dict_set (pd_path pd) (str_lower m) v.
Proof.
  unfold openapi_operation. pose proof (metadata_id r st) as Hid.
  destruct (get_openapi_operation_metadata w D r st) as [meta st1]. simpl in Hid.
  destruct (get_openapi_security_definitions _ _ _) as [defs sec].
  destruct (_get_openapi_operation_parameters _ _ _) as [ps|]; simpl; [|done].
  destruct (if bool_decide _ then _ else _) as [body|]; simpl; [|done].
  destruct (operation_callbacks _ _ _ _) as [[cbs st2]|]; simpl; [|done].
  destruct (operation_responses _ _ _) as [[resps inv]|]; simpl; [|done]. intros [= <- <-]. simpl.
  eexists. split; [|done]. eexists. split; [done|]. intros ->. by rewrite dict_get_app, Hid.
Qed.

Lemma rfold_path rec r ms pd st pd' st' :
  rfold (openapi_operation w D rec r) (pd, st) ms = Ok (pd', st') ->
  ∀ k, match dict_get (pd_path pd') k with
       | Some v => (operation_of r v ∧ k ∈ str_lower <$> ms) ∨ dict_get (pd_path pd) k = Some v
       | None => dict_get (pd_path pd) k = None ∧ k ∉ str_lower <$> ms
       end.
Proof.
  revert pd st. induction ms as [|m ms IH]; intros pd st; cbn [rfold].
  { intros [= <- <-] k. destruct (dict_get _ _); [by right|]. split; [done|set_solver]. }
  intros ([pd1 st1] & E & H)%rbind_Ok k. destruct (operation_added _ _ _ _ _ _ _ E) as (v1 & Hv1 & Hpd1).
  specialize (IH _ _ H k). rewrite Hpd1, dict_get_set in IH. rewrite fmap_cons.
  destruct (dict_get (pd_path pd') k) as [v|]; case_decide; subst; [|set_solver|by destruct IH as [? ?]|set_solver].
  destruct IH as [[? ?]|[= <-]]; left; set_solver.
Qed.

(** What a route adds under its path. *)
Definition documents (r : APIRoute) (k : str) : Prop :=
  include_in_schema r = true ∧ k ∈ str_lower <$> set_iter w (methods r).

Lemma path_operations depth r st pd st' :
  get_openapi_path w D depth r st = Ok (pd, st') ->
  ∀ k, match dict_get (pd_path pd) k with
       | Some v => operation_of r v ∧ documents r k
       | None => ¬ documents r k
       end.
Proof.
  destruct depth as [|depth]; simpl; [done|]. unfold documents. destruct (include_in_schema r).
  - intros H k. pose proof (rfold_path _ _ _ _ _ _ _ H k) as Hk. simpl in Hk.
    destruct (dict_get _ k); [destruct Hk as [[? ?]|?]; [done|done]|]. intros [_ ?]. by destruct Hk.
  - intros [= <- <-] k. simpl. by intros [? ?].
Qed.

(** A path of the document lists operations of routes with this path only, and
    all of theirs. *)
Definition path_listing (rs : list any_route) (paths : list (str * ddict)) : Prop :=
  ∀ fmt k,
    match dict_get paths fmt ≫= (fun ops => dict_get ops k) with
    | Some v => ∃ r, ApiRoute r ∈ rs ∧ path_format (compiled r) = fmt ∧ documents r k ∧ operation_of r v
    | None => ∀ r, ApiRoute r ∈ rs -> path_format (compiled r) = fmt -> ¬ documents r k
    end.

Lemma path_wf depth r st pd st' : get_openapi_path w D depth r st = Ok (pd, st') -> dict_wf (pd_path pd).
Proof.
  destruct depth as [|depth]; simpl; [done|]. destruct (include_in_schema r); [|intros [= <- <-]; apply NoDup_nil_2].
  intros H. apply (rfold_invariant (fun _ s => dict_wf (pd_path s.1)) _ _ _ _) in H; [done|apply NoDup_nil_2|].
  intros _ [pd1 st1] m [pd2 st2] _ Hwf (v & _ & Hv)%operation_added. cbn [fst] in *. rewrite Hv.
  by apply dict_set_wf.
Qed.

Lemma path_listing_other rs rt paths :
  match rt with ApiRoute r => ∀ k, ¬ documents r k | _ => True end -> path_listing rs paths -> path_listing (rs ++ [rt]) paths.
Proof.
  intros Hrt Hl fmt k. specialize (Hl fmt k). destruct (_ ≫= _); [destruct Hl as (r & ? & ?); exists r; set_solver|].
  intros r [Hin|Hin%list_elem_of_singleton]%elem_of_app Hf; [by apply Hl|]. subst rt. apply Hrt.
Qed.

Lemma add_path_ne paths fmt p :
  p ≠ [] -> add_path paths fmt p = dict_set paths fmt (dict_update (dict_getdefault paths fmt []) p).
Proof. by destruct p. Qed.

Lemma gather_listing depth rs g rt g' :
  path_listing rs (g_paths g) -> gather w D depth g rt = Ok g' -> path_listing (rs ++ [rt]) (g_paths g').
Proof.
  intros Hl. destruct rt as [r| | | |]; cbn [gather]; try (intros [= <-]; by apply path_listing_other).
  intros ([pd st] & E & [= <-])%rbind_Ok.
  pose proof (path_operations _ _ _ _ _ E) as Hp. pose proof (path_wf _ _ _ _ _ E) as Hwf. cbn [g_paths].
  destruct (decide (pd_path pd = [])) as [Hnil|Hnil].
  { rewrite Hnil in *. apply path_listing_other; [|done]. intros k. exact (Hp k). }
  rewrite add_path_ne by done.
  intros fmt k. rewrite dict_get_set. specialize (Hl fmt k). specialize (Hp k).
  case_decide as Hfmt; cbn [mbind option_bind].
  - subst fmt. rewrite dict_get_update by done. unfold dict_getdefault.
    destruct (dict_get (pd_path pd) k) as [v|].
    { destruct Hp. exists r. set_solver. }
    assert (dict_get (match dict_get (g_paths g) (path_format (compiled r)) with Some v => v | None => [] end) k
            = dict_get (g_paths g) (path_format (compiled r)) ≫= (fun ops => dict_get ops k)) as ->
      by by destruct (dict_get (g_paths g) _).
    destruct (_ ≫= _) as [v|]; [destruct Hl as (r' & ? & ?); exists r'; set_solver|].
    intros r' [Hin|[= ->]%list_elem_of_singleton]%elem_of_app Hf; [by apply Hl|done].
  - destruct (_ ≫= _) as [v|]; [destruct Hl as (r' & ? & ?); exists r'; set_solver|].
    intros r' [Hin|[= ->]%list_elem_of_singleton]%elem_of_app Hf; [by apply Hl|congruence].
Qed.

Lemma gathered_listing depth sec defs st rs g :
  rfold (gather w D depth) (mkGathered [] sec defs st) rs = Ok g -> path_listing rs (g_paths g).
Proof.
  intros H. apply (rfold_invariant (fun rs g => path_listing rs (g_paths g)) _ _ _ _) in H; [done| |].
  - intros fmt k. simpl. set_solver.
  - intros seen g1 rt g2 _ Hl Hg. by eapply gather_listing.
Qed.
End operations.

Lemma output_paths i g h :
  dict_get (openapi_output i g h) $"paths" = Some (DDict ((fun kv => (kv.1, DDict kv.2)) <$> g_paths g)).
Proof.
  unfold openapi_output. generalize (dict_entry $"securitySchemes" (g_security h)
    ++ dict_entry $"schemas" (sort_definitions (g_definitions h))). intros components.
  rewrite !dict_get_app. by destruct (i_servers i), components.
Qed.

(** C38: what is under ["paths"].  If the document is generated, then for every
    path and method it contains an operation exactly if some documented route
    of the application has this path and method; the operation is one of such a
    route and has its operation id, unless extra OpenAPI was given. *)
Theorem openapi_documents_routes w D depth i get_definitions routes webhooks document warnings :
  get_openapi w D depth i get_definitions routes webhooks = Ok (document, warnings) ->
  ∃ paths, dict_get document $"paths" = Some (DDict ((fun kv => (kv.1, DDict kv.2)) <$> paths))
    ∧ ∀ fmt method,
        match dict_get paths fmt ≫= (fun ops => dict_get ops method) with
        | Some v => ∃ r, ApiRoute r ∈ routes ∧ path_format (compiled r) = fmt ∧ documents w r method ∧ operation_of r v
        | None => ∀ r, ApiRoute r ∈ routes -> path_format (compiled r) = fmt -> ¬ documents w r method
        end.
Proof.
  unfold get_openapi. intros (fields & _ & (g & Hg & (h & _ & [= <- _])%rbind_Ok)%rbind_Ok)%rbind_Ok.
  exists (g_paths g). split; [|exact (gathered_listing _ _ _ _ _ _ _ _ Hg)].
  apply output_paths.
Qed.

(** ** Parameters *)

Lemma by_key_get (ps : list parameter) acc key :
  dict_get (foldl (fun acc p => dict_set acc (param_key p) p) acc ps) key
  = match last (filter (fun p => param_key p = key) ps) with Some p => Some p | None => dict_get acc key end.
Proof.
  revert acc. induction ps as [|p ps IH]; intros acc; simpl; [done|]. rewrite IH, dict_get_set, filter_cons.
  destruct (decide (param_key p = key)); [|done]. rewrite last_cons. by destruct (last _).
Qed.

Lemma by_key_wf (ps : list parameter) acc :
  dict_wf acc -> dict_wf (foldl (fun acc p => dict_set acc (param_key p) p) acc ps).
Proof. revert acc. induction ps as [|p ps IH]; intros acc H; simpl; [done|]. apply IH. by apply dict_set_wf. Qed.

Definition of_key (key : ParamTypes * str) (ps : list parameter) : list parameter :=
  filter (fun p => param_key p = key) ps.

Definition merged_dict (ps : list parameter) : list ((ParamTypes * str) * parameter) :=
  let by_key := fun acc p => dict_set acc (param_key p) p in
  dict_update (foldl by_key [] ps) (foldl by_key [] (filter (fun p => p_required p = true) ps)).

Lemma merged_wf ps : dict_wf (merged_dict ps).
Proof. apply dict_update_wf, by_key_wf, NoDup_nil_2. Qed.

Lemma merged_get ps key :
  dict_get (merged_dict ps) key
  = match last (of_key key (filter (fun p => p_required p = true) ps)) with Some p => Some p | None => last (of_key key ps) end.
Proof.
  unfold merged_dict, of_key. rewrite dict_get_update by apply by_key_wf, NoDup_nil_2. rewrite !by_key_get. simpl.
  by destruct (last _); [|destruct (last _)].
Qed.

Lemma last_elem {A} (l : list A) x : last l = Some x -> x ∈ l.
Proof. intros (l' & ->)%last_Some. set_solver. Qed.

Lemma merged_elem ps key p : (key, p) ∈ merged_dict ps -> p ∈ ps ∧ param_key p = key.
Proof.
  intros H%(dict_elem_get _ _ _ (merged_wf ps)). rewrite merged_get in H. unfold of_key in H.
  destruct (last _) eqn:E; simplify_eq.
  - apply last_elem in E. rewrite !list_elem_of_filter in E. tauto.
  - apply last_elem in H. rewrite list_elem_of_filter in H. tauto.
Qed.

Lemma merged_keys ps : param_key <$> merge_parameters ps = (merged_dict ps).*1.
Proof.
  change (merge_parameters ps) with (merged_dict ps).*2. pose proof (merged_elem ps) as H. revert H.
  generalize (merged_dict ps). induction l as [|[k p] l IH]; intros H; csimpl; [done|].
  rewrite IH by (intros; apply H; set_solver). f_equal. apply (H k p). set_solver.
Qed.

Lemma merged_covers ps p :
  p ∈ ps -> ∃ q, q ∈ merge_parameters ps ∧ param_key q = param_key p ∧ (p_required p = true -> p_required q = true).
Proof.
  intros Hp. assert (∃ q, dict_get (merged_dict ps) (param_key p) = Some q ∧ (p_required p = true -> p_required q = true))
    as (q & Hq & Hr).
  { rewrite merged_get. unfold of_key. destruct (last (filter _ (filter _ _))) as [q|] eqn:E.
    - exists q. split; [done|]. intros _. apply last_elem in E. rewrite !list_elem_of_filter in E. tauto.
    - apply last_None in E. destruct (last (filter _ ps)) as [q|] eqn:E2.
      + exists q. split; [done|]. intros Hreq. assert (p ∈ []) as H; [|set_solver].
        rewrite <-E, !list_elem_of_filter. done.
      + apply last_None in E2. assert (p ∈ []) as H; [|set_solver]. rewrite <-E2, list_elem_of_filter. done. }
  apply dict_get_elem in Hq. exists q. split_and!; [|by apply (merged_elem ps)|done].
  apply list_elem_of_fmap. by exists (param_key p, q).
Qed.

(** The parameters of an operation.  Each name in each place is listed once;
    every parameter that is to be documented, of the endpoint or of any of its
    dependencies, is listed under its name, and as required if any of its
    declarations is. *)
Theorem openapi_parameters_unique w D d ps :
  _get_openapi_operation_parameters w D d = Ok ps ->
  NoDup (param_key <$> merge_parameters ps)
  ∧ (∀ q, q ∈ merge_parameters ps -> q ∈ ps)
  ∧ ∀ t f, (t, f) ∈ concat (documented D <$> parameter_groups w d) ->
      ∃ q, q ∈ merge_parameters ps ∧ param_key q = (t, parameter_name t (default_convert_underscores w d) f)
           ∧ (required f = true -> p_required q = true).
Proof.
  intros Hps. split_and!.
  - rewrite merged_keys. apply merged_wf.
  - intros q ([k q'] & -> & Hq)%list_elem_of_fmap. by apply (merged_elem ps k).
  - intros t f Hin. apply rmapM_Ok in Hps. apply list_elem_of_lookup in Hin as [j Hj].
    destruct (Forall2_lookup_l _ _ _ _ _ Hps Hj) as (p & Hp & Hmk). apply list_elem_of_lookup_2 in Hp.
    unfold make_parameter in Hmk. apply rbind_Ok in Hmk as (schema & _ & [= <-]).
    destruct (merged_covers ps _ Hp) as (q & Hq & Hk & Hr). by exists q.
Qed.

(** ** An application

    [read_item(item_id: str, limit: str, page = Depends(page))], where [page]
    has [limit: str = "10"] itself; [limit] is documented once, as required. *)
Module Shop.
Definition str_param : param_ann := Written (Plain (Cls StrC)).

Definition world : World :=
  mkWorld
    (mkProgram (fun _ => Annotations.Function Sync) (fun _ => $"read_item")
       (fun c => if (c =? 7)%Z
                 then [($"item_id", (str_param, EmptyD)); ($"limit", (str_param, EmptyD));
                       ($"page", (EmptyA, DDepends (mkDepends (Some 8) true None None)))]
                 else if (c =? 8)%Z then [($"limit", (str_param, DValue (VStr $"10")))] else [])
       (fun _ => 0) (fun _ => []) true)
    CONVERTOR_TYPES 10 (fun _ => $"Items.") (fun _ => None) (fun _ => false) (fun _ => true)
    (fun _ _ => AnyA) (fun _ _ _ _ => Ok []) id (fun _ => false).

Definition docs : Docs :=
  mkDocs (fun _ => mkFieldDoc None true None None None false $"application/json")
    (fun _ => Some [($"type", DStr $"string")]) (fun _ => Some [])
    (fun _ => Some $"application/json") (fun _ => Some 200) (fun _ => true) (fun _ => []) (fun _ => [])
    (fun _ => None) (fun _ => []) (fun _ => DNull) (fun _ => None) (fun _ => None).

Definition args : RouteArgs :=
  mkArgs (DefaultPlaceholder None) None None None None None $"Successful Response" None None
    None None (mkOptions None None true false false false) true (DefaultPlaceholder 0) None None None
    (DefaultPlaceholder 0).

Definition routes : list any_route :=
  match api_route_init world $"/items/{item_id}" 7 args None with Ok r => [ApiRoute r] | Raise _ => [] end.

Definition item_dependant : Dependant :=
  match routes with
  | [ApiRoute r] => dependant r
  | _ => mkDependant (mkDepInfo None 7 None None true [] None) no_params no_names []
  end.

Definition item_parameters : list parameter :=
  match _get_openapi_operation_parameters world docs item_dependant with Ok ps => ps | Raise _ => [] end.

Definition doc_length (o : option doc) : nat := match o with Some (DDict l) => length l | _ => 0%nat end.

Definition api_info : Info := mkApiInfo $"Shop" $"1" $"3.1.0" None None None [] [] [] [] [].
End Shop.

Lemma openapi_schemas_found_witness :
  is_ok (get_openapi Shop.world Shop.docs 3 Shop.api_info (fun _ => []) Shop.routes []) = true
  ∧ get_openapi Shop.world Shop.docs 3 Shop.api_info (fun _ => []) Shop.routes [] ≠ Raise (KeyError $"limit").
Proof.
  split; [vm_compute; reflexivity|].
  apply (openapi_schemas_found Shop.world Shop.docs 3 Shop.api_info (fun _ => []) Shop.routes []).
  intros fields f _ _. destruct f; vm_compute; eauto.
Defined.

Lemma openapi_documents_routes_witness :
  ∃ document,
    get_openapi Shop.world Shop.docs 3 Shop.api_info (fun _ => []) Shop.routes [] = Ok (document, [])
    ∧ ∃ paths, dict_get document $"paths" = Some (DDict ((fun kv => (kv.1, DDict kv.2)) <$> paths)) ∧ length paths = 1%nat.
Proof.
  eexists. split; [vm_compute; reflexivity|].
  destruct (openapi_documents_routes Shop.world Shop.docs 3 Shop.api_info (fun _ => []) Shop.routes [] _ _
    ltac:(vm_compute; reflexivity)) as (paths & Hp & _).
  exists paths. split; [exact Hp|]. apply (f_equal Shop.doc_length) in Hp. cbn [Shop.doc_length] in Hp.
  rewrite length_fmap in Hp. rewrite <-Hp. vm_compute. reflexivity.
Defined.

Lemma openapi_parameters_unique_witness :
  _get_openapi_operation_parameters Shop.world Shop.docs Shop.item_dependant = Ok Shop.item_parameters
  ∧ NoDup (param_key <$> merge_parameters Shop.item_parameters)
  ∧ map (fun p => (p_name p, p_required p)) Shop.item_parameters
    = [($"item_id", true); ($"limit", true); ($"limit", false)]
  ∧ map (fun p => (p_name p, p_required p)) (merge_parameters Shop.item_parameters)
    = [($"item_id", true); ($"limit", true)].
Proof.
  split; [vm_compute; reflexivity|]. split; [|split; vm_compute; reflexivity].
  apply (openapi_parameters_unique Shop.world Shop.docs Shop.item_dependant). vm_compute. reflexivity.
Defined.
