(* ===== verification/Applications.v ===== *)
(** * Applications: [AstraAPI] and [AppBase]

    The application object of [applications.py] on top of its router: the
    router is created on first use together with the documentation routes, and
    every registration is forwarded to it.  The endpoints of
    the documentation routes are parameters here ([DocsServer] models them);
    [SyncRoutes] models the registration with the compiled server. *)

From S2P Require Import Prelude PyStr Asgi ExceptionHandler Convertors Routing Annotations Dependants.
From S2P Require Import Solve ApiRouting ApiRoutingThms.

(** ** State *)

(** Exception handlers are registered by status code or class. *)
Abbreviation handler_key := ExcMiddleware.handler_key.

#[global] Instance handler_key_eq_dec : EqDecision handler_key.
Proof. solve_decision. Defined.

(** A middleware class with its arguments, identified by a number. *)
Record RouterParams : Type := mkRouterParams {
  rp_args : RouterArgs;
  rp_routes : option (list any_route);
  rp_redirect_slashes : bool;
  rp_on_startup : option (list Z);
  rp_on_shutdown : option (list Z);
  rp_lifespan : option Z
}.

(** [_router] and [_webhooks] are objects of the store of routers; [app_id] is
    the application itself, the provider of dependency overrides. *)
Record AstraAPI : Type := mkApp {
  app_id : Z;
  title : str;
  version : str;
  openapi_url : option str;
  docs_url : option str;
  redoc_url : option str;
  swagger_ui_oauth2_redirect_url : option str;
  root_path : str;
  dependency_overrides : list (call * call);
  _router_params : option RouterParams;
  _webhooks_arg : option Z;
  _router : option Z;
  _webhooks : option Z;
  _setup_done : bool;
  exception_handlers : list (handler_key * Z);
  user_middleware : list Z
}.

Definition truthy (o : option str) : bool := match o with None | Some [] => false | _ => true end.

(** The handlers [__init__] adds where the user gave none; numbers below zero
    are those of [exception_handlers.py]. *)
Definition default_handlers : list (handler_key * Z) :=
  [(ExcMiddleware.Class $"HTTPException", -1); (ExcMiddleware.Class $"RequestValidationError", -2);
   (ExcMiddleware.Class $"WebSocketRequestValidationError", -3)].

Definition set_defaults (d : list (handler_key * Z)) : list (handler_key * Z) :=
  foldl (fun d '(k, v) => dict_setdefault d k v) d default_handlers.

Definition app_init (id : Z) (title version : str) (openapi_url docs_url redoc_url oauth2_redirect : option str)
    (root_path openapi_prefix : str) (params : RouterParams) (webhooks : option Z)
    (handlers : option (list (handler_key * Z))) (middleware : option (list Z)) : result AstraAPI :=
  let openapi_url :=
    match openapi_url, docs_url, redoc_url with
    | None, None, None => None
    | None, _, _ => Some $"/openapi.json"
    | Some u, _, _ => Some u
    end in
  let! _ :=
    if truthy openapi_url then
      let! _ := py_assert (negb (bool_decide (title = []))) $"A title must be provided for OpenAPI, e.g.: 'My API'" in
      py_assert (negb (bool_decide (version = []))) $"A version must be provided for OpenAPI, e.g.: '2.1.0'"
    else Ok tt in
  Ok (mkApp id title version openapi_url docs_url redoc_url oauth2_redirect
        (match root_path with [] => openapi_prefix | _ => root_path end) []
        (Some params) webhooks None None false (set_defaults (get_or handlers [])) (get_or middleware [])).

(** ** The router *)
Inductive page : Type := OpenApiPage | SwaggerPage | SwaggerRedirectPage | RedocPage.

(** The routes of [setup], in order: the path and the page. *)
Definition docs_routes (app : AstraAPI) : list (str * page) :=
  if truthy (openapi_url app) then
    (get_or (openapi_url app) [], OpenApiPage)
    :: (if truthy (docs_url app) then
          (get_or (docs_url app) [], SwaggerPage)
          :: (if truthy (swagger_ui_oauth2_redirect_url app)
              then [(get_or (swagger_ui_oauth2_redirect_url app) [], SwaggerRedirectPage)] else [])
        else [])
    ++ (if truthy (redoc_url app) then [(get_or (redoc_url app) [], RedocPage)] else [])
  else [].

Definition empty_args : RouterArgs :=
  mkRouterArgs [] None None (DefaultPlaceholder 0) None None None true (DefaultPlaceholder 0).

(** The application and the store of routers, with the next object number. *)
Record world_state : Type := mkWS { ws_app : AstraAPI; ws_store : store; ws_next : Z }.

Definition with_router (app : AstraAPI) (router webhooks : option Z) (params : option RouterParams)
    (done : bool) : AstraAPI :=
  mkApp (app_id app) (title app) (version app) (openapi_url app) (docs_url app) (redoc_url app)
    (swagger_ui_oauth2_redirect_url app) (root_path app) (dependency_overrides app) params None
    router webhooks done (exception_handlers app) (user_middleware app).

Section app.
Context (w : World).
Context (handlers_of : Scope -> list (str * handler) * list (Z * handler)).
Context (docs_endpoint : page -> http_endpoint).

(** [setup]: the documentation routes, added to the router one by one. *)
Fixpoint add_pages (pages : list (str * page)) (r : APIRouter) : APIRouter * result unit :=
  match pages with
  | [] => (r, Ok tt)
  | (p, pg) :: pages' =>
      match api_add_route w handlers_of r p (docs_endpoint pg) None None false with
      | Ok r' => add_pages pages' r'
      | Raise e => (r, Raise e)
      end
  end.
Definition setup (app : AstraAPI) (r : APIRouter) : APIRouter * result unit := add_pages (docs_routes app) r.

(** The property [router]; an exception in [setup] leaves the router made but
    the application not set up. *)
Definition router (s : world_state) : world_state * result Z :=
  let app := ws_app s in
  match _router app with
  | Some id => (s, Ok id)
  | None =>
      let '(hooks, h1, n1) :=
        match _webhooks_arg app with
        | Some k => (k, ws_store s, ws_next s)
        | None =>
            (ws_next s,
             match api_router_init (ws_next s) empty_args None true None None None None None with
             | Ok r => <[ws_next s := r]> (ws_store s)
             | Raise _ => ws_store s
             end, ws_next s + 1)
        end in
      match _router_params app with
      | None => (s, Raise (TypeError $"argument after ** must be a mapping"))
      | Some rp =>
          match api_router_init n1 (rp_args rp) (rp_routes rp) (rp_redirect_slashes rp) None
                  (Some (app_id app)) (rp_on_startup rp) (rp_on_shutdown rp) (rp_lifespan rp) with
          | Raise e => (mkWS (with_router app None (Some hooks) (Some rp) (_setup_done app)) h1 n1, Raise e)
          | Ok r =>
              let done := with_router app (Some n1) (Some hooks) None in
              if _setup_done app then (mkWS (done true) (<[n1 := r]> h1) (n1 + 1), Ok n1)
              else
                match setup app r with
                | (r', Ok _) => (mkWS (done true) (<[n1 := r']> h1) (n1 + 1), Ok n1)
                | (r', Raise e) => (mkWS (done false) (<[n1 := r']> h1) (n1 + 1), Raise e)
                end
          end
      end
  end.

(** An operation forwarded to the router. *)
Definition on_router (f : APIRouter -> result APIRouter) (s : world_state) : world_state * result unit :=
  match router s with
  | (s', Raise e) => (s', Raise e)
  | (s', Ok id) =>
      match read_router (ws_store s') id with
      | Raise e => (s', Raise e)
      | Ok r =>
          let '(h, o) := write_router (ws_store s') id (f r) in
          (mkWS (ws_app s') h (ws_next s'), o)
      end
  end.

Definition app_add_api_route (p : str) (ep : call) (a : RouteArgs) := on_router (fun r => add_api_route w r p ep a).
Definition app_api_route (p : str) (a : RouteArgs) (func : call) := on_router (fun r => add_api_route w r p func a).
Definition app_get (p : str) (a : RouteArgs) (func : call) := on_router (fun r => get w r p a func).
Definition app_put (p : str) (a : RouteArgs) (func : call) := on_router (fun r => put w r p a func).
Definition app_post (p : str) (a : RouteArgs) (func : call) := on_router (fun r => post w r p a func).
Definition app_delete (p : str) (a : RouteArgs) (func : call) := on_router (fun r => delete w r p a func).
Definition app_options (p : str) (a : RouteArgs) (func : call) := on_router (fun r => options_ w r p a func).
Definition app_head (p : str) (a : RouteArgs) (func : call) := on_router (fun r => head_ w r p a func).
Definition app_patch (p : str) (a : RouteArgs) (func : call) := on_router (fun r => patch w r p a func).
Definition app_trace (p : str) (a : RouteArgs) (func : call) := on_router (fun r => trace w r p a func).
Definition app_add_api_websocket_route (p : str) (ep : call) (nm : option str) (deps : option (list Depends)) :=
  on_router (fun r => add_api_websocket_route w r p ep nm deps).
Definition app_websocket (p : str) (nm : option str) (deps : option (list Depends)) (func : call) :=
  app_add_api_websocket_route p func nm deps.
Definition app_add_route (p : str) (e : http_endpoint) (ms : option (list str)) (nm : option str) (in_schema : bool) :=
  on_router (fun r => api_add_route w handlers_of r p e ms nm in_schema).
Definition app_add_websocket_route (p : str) (e : ws_endpoint) (nm : option str) :=
  on_router (fun r => api_add_websocket_route w handlers_of r p e nm).
Definition app_add_event_handler (event_type : str) (x : Z) :=
  on_router (fun r => api_add_event_handler r event_type x).

(** [Router.mount] through the application. *)
Definition app_mount (p : str) (id : Z) (sub : asgi_app) (sub_routes : list BaseRoute) (nm : option str) :=
  on_router (fun r =>
    let! m := mount_init (convertors w) (fun _ => Ok tt) (fun _ => []) p id (MountApp sub sub_routes) nm None in
    match m with
    | MountRoute mp mn mid mapp cp sub => Ok (with_api_routes r (ar_routes r ++ [Mounted mp mn mid mapp cp sub]))
    | _ => Ok r
    end).

Definition app_include_router (fuel : nat) (sub : Z) (a : RouterArgs) (s : world_state)
    : option (world_state * result unit) :=
  match router s with
  | (s', Raise e) => Some (s', Raise e)
  | (s', Ok id) =>
      match include_router w handlers_of fuel id sub a (ws_store s') with
      | None => None
      | Some (h, o) => Some (mkWS (ws_app s') h (ws_next s'), o)
      end
  end.
End app.

(** [add_exception_handler], also behind [exception_handler]. *)
Definition app_add_exception_handler (app : AstraAPI) (k : handler_key) (x : Z) : AstraAPI :=
  mkApp (app_id app) (title app) (version app) (openapi_url app) (docs_url app) (redoc_url app)
    (swagger_ui_oauth2_redirect_url app) (root_path app) (dependency_overrides app) (_router_params app)
    (_webhooks_arg app) (_router app) (_webhooks app) (_setup_done app)
    (dict_set (exception_handlers app) k x) (user_middleware app).

(** [add_middleware], also behind [middleware]: the last one added is the
    outermost. *)
Definition app_add_middleware (app : AstraAPI) (m : Z) : AstraAPI :=
  mkApp (app_id app) (title app) (version app) (openapi_url app) (docs_url app) (redoc_url app)
    (swagger_ui_oauth2_redirect_url app) (root_path app) (dependency_overrides app) (_router_params app)
    (_webhooks_arg app) (_router app) (_webhooks app) (_setup_done app)
    (exception_handlers app) (m :: user_middleware app).

(** ** Properties *)
Lemma add_pages_routes w hof de pages r r' :
  add_pages w hof de pages r = (r', Ok tt) ->
  route_path <$> ar_routes r' = (route_path <$> ar_routes r) ++ pages.*1
  ∧ ar_on_startup r' = ar_on_startup r ∧ ar_on_shutdown r' = ar_on_shutdown r.
Proof.
  revert r. induction pages as [|[p pg] pages IH]; intros r; cbn [add_pages].
  - intros [= <-]. by rewrite app_nil_r.
  - destruct (api_add_route w hof r p (de pg) None None false) as [r1|] eqn:E; [|done]. intros H.
    destruct (IH _ H) as (-> & -> & ->). unfold api_add_route in E.
    apply rbind_Ok in E as (rt & Hrt & [= <-]). cbn [with_api_routes ar_routes ar_on_startup ar_on_shutdown].
    split; [|done]. rewrite fmap_app, fmap_cons, <-app_assoc. cbn. do 2 f_equal.
    unfold route_init in Hrt. destruct (ep_kind (de pg)); inv_ok; done.
Qed.

Lemma api_router_init_fields id a rs redirect dflt provider up down ls r :
  api_router_init id a rs redirect dflt provider up down ls = Ok r ->
  ar_routes r = get_or rs [] ∧ ar_on_startup r = [] ∧ ar_on_shutdown r = [].
Proof. unfold api_router_init. intros H. inv_ok. done. Qed.

(** The router of an application is created once.  On a fresh application
    the first use of [router] makes the router, with the routes given by the user
    followed by the documentation routes (the schema, the two pages of the
    interactive documentation, ReDoc, each when its URL is set); every later use
    returns the same object and changes nothing, and whatever is registered
    through the application changes that router and no other object.  The
    handlers given to the application's constructor are not on the router.  An
    application created with [openapi_url=None] still serves the schema and the
    documentation unless both documentation URLs are [None] too. *)
Theorem application_router_created_once w hof de id t v url docs redoc red rp pre prm hooks hs mws app h n s' rid :
  app_init id t v url docs redoc red rp pre prm hooks hs mws = Ok app ->
  router w hof de (mkWS app h n) = (s', Ok rid) ->
  (∃ r, ws_store s' !! rid = Some r
     ∧ route_path <$> ar_routes r = (route_path <$> get_or (rp_routes prm) []) ++ (docs_routes app).*1
     ∧ ar_on_startup r = [] ∧ ar_on_shutdown r = [])
  ∧ router w hof de s' = (s', Ok rid)
  ∧ (∀ f s1 o, on_router w hof de f s' = (s1, o) ->
       _router (ws_app s1) = Some rid ∧ ∀ k, k ≠ rid -> ws_store s1 !! k = ws_store s' !! k)
  ∧ (url = None -> docs_routes app = [] ↔ docs = None ∧ redoc = None).
Proof.
  intros Happ Hr. unfold app_init in Happ. apply rbind_Ok in Happ as (u & _ & [= <-]).
  assert (Hrid : _router (ws_app s') = Some rid ∧ ∃ r, ws_store s' !! rid = Some r
     ∧ route_path <$> ar_routes r = (route_path <$> get_or (rp_routes prm) []) ++ (docs_routes (ws_app (mkWS
          (mkApp id t v (match url, docs, redoc with None, None, None => None | None, _, _ => Some $"/openapi.json" | Some u, _, _ => Some u end)
             docs redoc red (match rp with [] => pre | _ => rp end) [] (Some prm) hooks None None false
             (set_defaults (get_or hs [])) (get_or mws [])) h n))).*1
     ∧ ar_on_startup r = [] ∧ ar_on_shutdown r = []).
  { unfold router in Hr. cbn [_router ws_app _webhooks_arg _router_params _setup_done ws_store ws_next] in Hr |- *.
    destruct (match hooks with Some k => _ | None => _ end) as [[k h1] n1].
    destruct (api_router_init n1 _ _ _ _ _ _ _ _) as [r|e] eqn:Ei; [|done].
    destruct (api_router_init_fields _ _ _ _ _ _ _ _ _ _ Ei) as (Hrs & Hup & Hdown).
    unfold setup in Hr. destruct (add_pages w hof de _ r) as [r' [[]|e]] eqn:Ep; [|done].
    injection Hr as <- <-. split; [done|]. exists r'. cbn [ws_store]. rewrite lookup_insert_eq. split; [done|].
    destruct (add_pages_routes _ _ _ _ _ _ Ep) as (-> & -> & ->). by rewrite Hrs, Hup, Hdown. }
  destruct Hrid as (Hid & Hex). split_and!.
  - exact Hex.
  - unfold router. by rewrite Hid.
  - intros f s1 o Hf. destruct Hex as (r & Hlk & _). unfold on_router, router in Hf. rewrite Hid in Hf.
    unfold read_router in Hf. rewrite Hlk in Hf.
    destruct (f r) as [r'|e]; cbn in Hf; injection Hf as <- <-; split; try done.
    intros k Hk. cbn. by rewrite lookup_insert_ne.
  - intros ->. unfold docs_routes. cbn. destruct docs, redoc; cbn; naive_solver.
Qed.

Definition sample_params : RouterParams := mkRouterParams empty_args None true (Some [1]) None None.
Definition sample_page (pg : page) : http_endpoint :=
  mkEndpoint 0 $"page" (Routing.Function (fun _ => Ok (quiet tt))).
Definition sample_app : result AstraAPI :=
  app_init 0 $"AstraAPI" $"0.1.0" None (Some $"/docs") (Some $"/redoc") (Some $"/docs/oauth2-redirect") [] []
    sample_params None None None.

Lemma application_router_created_once_witness :
  ∃ app s' r, sample_app = Ok app
    ∧ router sample_world no_handlers sample_page (mkWS app ∅ 1) = (s', Ok 2)
    ∧ ws_store s' !! 2 = Some r
    ∧ route_path <$> ar_routes r = [$"/openapi.json"; $"/docs"; $"/docs/oauth2-redirect"; $"/redoc"]
    ∧ ar_on_startup r = [].
Proof.
  destruct sample_app as [app|] eqn:Ea; [|discriminate].
  destruct (router sample_world no_handlers sample_page (mkWS app ∅ 1)) as [s' [rid|e]] eqn:Er.
  2: { exfalso. injection Ea as <-. discriminate. }
  unfold sample_app in Ea. destruct (application_router_created_once _ _ _ _ _ _ _ _ _ _ _ _ _ _ _ _ _ _ _ _ _ Ea Er)
    as ((r & Hr & Hp & Hu & _) & _).
  exists app, s', r. injection Ea as <-. injection Er as <- <-. split_and!; try done.
Defined.
