(* ===== verification/Docs.v ===== *)
(** * Documentation pages: [openapi/docs.py] and the endpoints of [setup]

    The pages of Swagger UI and ReDoc as texts, with [html.escape] and
    [json.dumps] of the standard library, and the endpoints that serve them with
    the OpenAPI document and its cache.  A tilde stands for the double quote in
    the literals.  Parameters: orjson, the serialisation of the document in the
    core, Pydantic. *)

From S2P Require Import Prelude PyStr Asgi MutableHeaders Responses Convertors ApiRouting OpenApi Encoders.

Definition quoted (s : string) : str := replace_char 126 34 (lit s).
Arguments quoted s%_string : simpl never.

(** ** The standard library *)

(** [html.escape(s)] *)
Definition html_escape (s : str) : str :=
  replace $"'" $"&#x27;"
    (replace (quoted "~") $"&quot;"
       (replace $">" $"&gt;"
          (replace $"<" $"&lt;"
             (replace $"&" $"&amp;" s)))).

(** The text of a string in JSON; [ascii] is [ensure_ascii]. *)
Definition hex_escape (c : N) : str := $"\u" ++ hex_fixed 4 c.

Definition json_char (ascii : bool) (c : N) : str :=
  if (c =? 34)%N then quoted "\~"
  else if (c =? 92)%N then $"\\"
  else if (c =? 10)%N then $"\n"
  else if (c =? 13)%N then $"\r"
  else if (c =? 9)%N then $"\t"
  else if (c =? 12)%N then $"\f"
  else if (c =? 8)%N then $"\b"
  else if (c <? 32)%N then hex_escape c
  else if ascii && negb (in_range 32 126 c) then
    if (c <? 65536)%N then hex_escape c
    else
      let n := (c - 65536)%N in
      hex_escape (55296 + n / 1024)%N ++ hex_escape (56320 + n mod 1024)%N
  else [c].

Definition json_string (ascii : bool) (s : str) : str := quoted "~" ++ (s ≫= json_char ascii) ++ quoted "~".

(** The arguments of [json.dumps]. *)
Record dump_args : Type := mkDump { ensure_ascii : bool; allow_nan : bool; item_separator : str; key_separator : str }.

Definition json_float (nan : bool) (f : float64) : result str :=
  match f with
  | Finite _ _ _ => Ok (float_repr f)
  | NaN => if nan then Ok $"NaN" else Raise (ValueError $"Out of range float values are not JSON compliant")
  | Infinite neg =>
      if nan then Ok (if neg then $"-Infinity" else $"Infinity")
      else Raise (ValueError $"Out of range float values are not JSON compliant")
  end.

Definition json_bool (b : bool) : str := if b then $"true" else $"false".

Section json.
(** What is written for an object that [jsonable_encoder] passed through. *)
Context (object_text : Z -> result str).

Definition json_key (a : dump_args) (k : json) : result str :=
  match k with
  | JStr s => Ok s
  | JFloat f => json_float (allow_nan a) f
  | JBool b => Ok (json_bool b)
  | JNull => Ok $"null"
  | JInt z => py_str_int z
  | _ => Raise (TypeError $"keys must be str, int, float, bool or None")
  end.

Fixpoint json_dumps (a : dump_args) (j : json) : result str :=
  match j with
  | JNull => Ok $"null"
  | JBool b => Ok (json_bool b)
  | JInt z => py_str_int z
  | JFloat f => json_float (allow_nan a) f
  | JStr s => Ok (json_string (ensure_ascii a) s)
  | JBytes _ => Raise (TypeError $"Object of type bytes is not JSON serializable")
  | JList l => let! ts := rmapM (json_dumps a) l in Ok ($"[" ++ join (item_separator a) ts ++ $"]")
  | JDict d =>
      let! ts := rmapM (fun kv =>
        let! k := json_key a kv.1 in
        let! v := json_dumps a kv.2 in
        Ok (json_string (ensure_ascii a) k ++ key_separator a ++ v)) d in
      Ok ($"{" ++ join (item_separator a) ts ++ $"}")
  | JObj id => object_text id
  end.

(** [json.dumps(x)], and [json_dumps_str] of [_json_utils.py] without orjson. *)
Definition default_dump : dump_args := mkDump true true $", " $": ".
Definition json_dumps_str : json -> result str := json_dumps (mkDump false false $"," $":").
End json.

(** ** Swagger UI *)
Definition swagger_ui_default_parameters : list (str * obj) :=
  [($"dom_id", OStr $"#swagger-ui"); ($"layout", OStr $"BaseLayout"); ($"deepLinking", OBool true);
   ($"showExtensions", OBool true); ($"showCommonExtensions", OBool true)].

Record SwaggerAssets : Type := mkAssets { swagger_js_url : str; swagger_css_url : str; swagger_favicon_url : str }.

Definition favicon : str := $"https://astraapi.tiangolo.com/img/favicon.png".
Definition default_assets : SwaggerAssets :=
  mkAssets $"https://cdn.jsdelivr.net/npm/swagger-ui-dist@5/swagger-ui-bundle.js"
    $"https://cdn.jsdelivr.net/npm/swagger-ui-dist@5/swagger-ui.css" favicon.

(** The page up to the title, between title and URL, and after the URL. *)
Definition swagger_head (a : SwaggerAssets) : str :=
  quoted "
    <!DOCTYPE html>
    <html>
    <head>
    <meta name=~viewport~ content=~width=device-width, initial-scale=1.0~>
    <link type=~text/css~ rel=~stylesheet~ href=~"
  ++ swagger_css_url a
  ++ quoted "~>
    <link rel=~shortcut icon~ href=~"
  ++ swagger_favicon_url a
  ++ quoted "~>
    <title>".

Definition swagger_middle (a : SwaggerAssets) : str :=
  quoted "</title>
    </head>
    <body>
    <div id=~swagger-ui~>
    </div>
    <script src=~"
  ++ swagger_js_url a
  ++ quoted "~></script>
    <!-- `SwaggerUIBundle` is now available on the page -->
    <script>
    const ui = SwaggerUIBundle({
        url: '".

Definition swagger_config : str :=
  quoted "',
    ".

Definition swagger_presets : str :=
  quoted "
    presets: [
        SwaggerUIBundle.presets.apis,
        SwaggerUIBundle.SwaggerUIStandalonePreset
        ],
    })".

Definition swagger_end : str :=
  quoted "
    </script>
    </body>
    </html>
    ".

Section pages.
Context (model_dump : Z -> options -> result json) (is_pydantic_v1 : Z -> bool) (h : heap) (limit : nat).
Context (object_text : Z -> result str).
(** [_json_dumps_str]: orjson, or [json_dumps_str]. *)
Context (dumps_str : json -> result str).

Definition encoded (x : obj) : result json := jsonable_encoder model_dump is_pydantic_v1 h limit [] default_options x.

(** [bool(init_oauth)] of a dictionary. *)
Definition nonempty_dict (id : Z) : bool :=
  match h !! id with
  | Some ob => match ob_node ob with NDict [] => false | _ => true end
  | None => false
  end.

Definition parameter_line (html : str) (kv : str * obj) : result str :=
  let! key := dumps_str (JStr kv.1) in
  let! v := encoded kv.2 in
  let! value := dumps_str v in
  Ok (html ++ key ++ $": " ++ value ++ $"," ++ [10%N]).

Definition oauth2_line (url : option str) : str :=
  match url with
  | None | Some [] => []
  | Some u => $"oauth2RedirectUrl: window.location.origin + '" ++ u ++ $"',"
  end.

Definition init_oauth_text (init_oauth : option Z) : result str :=
  match init_oauth with
  | Some id =>
      if nonempty_dict id then
        let! v := encoded (ORef id) in
        let! t := json_dumps object_text default_dump v in
        Ok (quoted "
        ui.initOAuth(" ++ t ++ quoted ")
        ")
      else Ok []
  | None => Ok []
  end.

(** The rest of the page after the URL. *)
Definition swagger_tail (oauth2_redirect_url : option str) (init_oauth : option Z)
    (swagger_ui_parameters : option (list (str * obj))) : result str :=
  let current := dict_update swagger_ui_default_parameters (get_or swagger_ui_parameters []) in
  let! html := rfold parameter_line swagger_config current in
  let! oauth := init_oauth_text init_oauth in
  Ok (html ++ oauth2_line oauth2_redirect_url ++ swagger_presets ++ oauth ++ swagger_end).

Definition swagger_html (a : SwaggerAssets) (openapi_url title : str) (oauth2_redirect_url : option str)
    (init_oauth : option Z) (swagger_ui_parameters : option (list (str * obj))) : result str :=
  let safe_title := html_escape title in
  let safe_openapi_url := html_escape openapi_url in
  let! tail := swagger_tail oauth2_redirect_url init_oauth swagger_ui_parameters in
  Ok (swagger_head a ++ safe_title ++ swagger_middle a ++ safe_openapi_url ++ tail).

Definition html_response (page : str) : result Response := HTMLResponse (CStr page) 200 [] None None.

Definition get_swagger_ui_html (a : SwaggerAssets) (openapi_url title : str) (oauth2_redirect_url : option str)
    (init_oauth : option Z) (swagger_ui_parameters : option (list (str * obj))) : result Response :=
  let! html := swagger_html a openapi_url title oauth2_redirect_url init_oauth swagger_ui_parameters in
  html_response html.
End pages.

(** ** ReDoc *)
Definition redoc_default_js : str := $"https://cdn.jsdelivr.net/npm/redoc@2/bundles/redoc.standalone.js".

Definition redoc_head : str :=
  quoted "
    <!DOCTYPE html>
    <html>
    <head>
    <title>".

Definition redoc_fonts (with_google_fonts : bool) : str :=
  if with_google_fonts then quoted "
    <link href=~https://fonts.googleapis.com/css?family=Montserrat:300,400,700|Roboto:300,400,700~ rel=~stylesheet~>
    "
  else [].

Definition redoc_middle (redoc_favicon_url : str) (with_google_fonts : bool) : str :=
  quoted "</title>
    <!-- needed for adaptive design -->
    <meta charset=~utf-8~/>
    <meta name=~viewport~ content=~width=device-width, initial-scale=1~>
    "
  ++ redoc_fonts with_google_fonts
  ++ quoted "
    <link rel=~shortcut icon~ href=~"
  ++ redoc_favicon_url
  ++ quoted "~>
    <!--
    ReDoc doesn't change outer page styles
    -->
    <style>
      body {
        margin: 0;
        padding: 0;
      }
    </style>
    </head>
    <body>
    <noscript>
        ReDoc requires Javascript to function. Please enable it to browse the documentation.
    </noscript>
    <redoc spec-url=~".

Definition redoc_end (redoc_js_url : str) : str :=
  quoted "~></redoc>
    <script src=~"
  ++ redoc_js_url
  ++ quoted "~> </script>
    </body>
    </html>
    ".

Definition redoc_html_text (openapi_url title redoc_js_url redoc_favicon_url : str) (with_google_fonts : bool) : str :=
  let safe_title := html_escape title in
  let safe_openapi_url := html_escape openapi_url in
  redoc_head ++ safe_title ++ redoc_middle redoc_favicon_url with_google_fonts ++ safe_openapi_url ++ redoc_end redoc_js_url.

Definition get_redoc_html (openapi_url title redoc_js_url redoc_favicon_url : str) (with_google_fonts : bool) : result Response :=
  html_response (redoc_html_text openapi_url title redoc_js_url redoc_favicon_url with_google_fonts).

(** ** The page OAuth2 providers redirect to *)
Definition oauth2_redirect_text : str :=
  quoted "
    <!doctype html>
    <html lang=~en-US~>
    <head>
        <title>Swagger UI: OAuth2 Redirect</title>
    </head>
    <body>
    <script>
        'use strict';
        function run () {
            var oauth2 = window.opener.swaggerUIRedirectOauth2;
            var sentState = oauth2.state;
            var redirectUrl = oauth2.redirectUrl;
            var isValid, qp, arr;

            if (/code|token|error/.test(window.location.hash)) {
                qp = window.location.hash.substring(1).replace('?', '&');
            } else {
                qp = location.search.substring(1);
            }

            arr = qp.split(~&~);
            arr.forEach(function (v,i,_arr) { _arr[i] = '~' + v.replace('=', '~:~') + '~';});
            qp = qp ? JSON.parse('{' + arr.join() + '}',
                    function (key, value) {
                        return key === ~~ ? value : decodeURIComponent(value);
                    }
            ) : {};

            isValid = qp.state === sentState;

            if ((
              oauth2.auth.schema.get(~flow~) === ~accessCode~ ||
              oauth2.auth.schema.get(~flow~) === ~authorizationCode~ ||
              oauth2.auth.schema.get(~flow~) === ~authorization_code~
            ) && !oauth2.auth.code) {
                if (!isValid) {
                    oauth2.errCb({
                        authId: oauth2.auth.name,
                        source: ~auth~,
                        level: ~warning~,
                        message: ~Authorization may be unsafe, passed state was changed in server. The passed state wasn't returned from auth server.~
                    });
                }

                if (qp.code) {
                    delete oauth2.state;
                    oauth2.auth.code = qp.code;
                    oauth2.callback({auth: oauth2.auth, redirectUrl: redirectUrl});
                } else {
                    let oauthErrorMsg;
                    if (qp.error) {
                        oauthErrorMsg = ~[~+qp.error+~]: ~ +
                            (qp.error_description ? qp.error_description+ ~. ~ : ~no accessCode received from the server. ~) +
                            (qp.error_uri ? ~More info: ~+qp.error_uri : ~~);
                    }

                    oauth2.errCb({
                        authId: oauth2.auth.name,
                        source: ~auth~,
                        level: ~error~,
                        message: oauthErrorMsg || ~[Authorization failed]: no accessCode received from the server.~
                    });
                }
            } else {
                oauth2.callback({auth: oauth2.auth, token: qp, isValid: isValid, redirectUrl: redirectUrl});
            }
            window.close();
        }

        if (document.readyState !== 'loading') {
            run();
        } else {
            document.addEventListener('DOMContentLoaded', function () {
                run();
            });
        }
    </script>
    </body>
    </html>
        ".

Definition get_swagger_ui_oauth2_redirect_html : result Response := html_response oauth2_redirect_text.

(** ** Facts about [html.escape] *)

(** Replacing a character by a text is a substitution. *)
Lemma replace_subst c t s : replace [c] t s = s ≫= (fun x => if (x =? c)%N then t else [x]).
Proof.
  induction s as [|x s IH]; [done|]. rewrite replace_cons by done. cbn [mbind list_bind].
  destruct (N.eqb_spec x c) as [->|Hx].
  - change (c :: s) with ([c] ++ s). rewrite startswith_app, drop_app_length. by rewrite IH.
  - rewrite startswith_head_ne by done. cbn [app]. by rewrite IH.
Qed.

(** The reference of a character. *)
Definition reference (c : N) : str :=
  if (c =? 38)%N then $"&amp;" else if (c =? 60)%N then $"&lt;" else if (c =? 62)%N then $"&gt;"
  else if (c =? 34)%N then $"&quot;" else if (c =? 39)%N then $"&#x27;" else [c].

Lemma bind_single {A B} (f : A -> list B) x : [x] ≫= f = f x.
Proof. apply app_nil_r. Qed.

(** The five replacements, each over the result of the one before, are a single
    pass: no replacement touches a reference that is already there. *)
Lemma html_escape_pass s : html_escape s = s ≫= reference.
Proof.
  unfold html_escape. change $"&" with [38%N]. change $"<" with [60%N]. change $">" with [62%N].
  change (quoted "~") with [34%N]. change $"'" with [39%N]. rewrite !replace_subst.
  induction s as [|c s IH]; [done|]. cbn [mbind list_bind]. rewrite !bind_app, IH. f_equal.
  unfold reference. destruct (N.eqb_spec c 38) as [->|H1]; [done|]. rewrite bind_single.
  destruct (N.eqb_spec c 60) as [->|H2]; [done|]. rewrite bind_single.
  destruct (N.eqb_spec c 62) as [->|H3]; [done|]. rewrite bind_single.
  destruct (N.eqb_spec c 34) as [->|H4]; [done|]. rewrite bind_single.
  by destruct (N.eqb_spec c 39) as [->|H5].
Qed.

(** The characters that open or close elements, attributes and strings. *)
Definition markup : list N := [60; 62; 34; 39]%N.

Lemma contains_char_single c x : contains_char c [x] = (c =? x)%N.
Proof. apply orb_false_r. Qed.

Lemma reference_clean c x : c ∈ markup -> c ∉ reference x.
Proof.
  intros Hc. unfold reference. apply contains_char_false.
  unfold markup in Hc. rewrite !elem_of_cons, elem_of_nil in Hc.
  repeat case_match; destruct_or! Hc; subst; try done; by rewrite contains_char_single, N.eqb_sym.
Qed.

Lemma html_escape_clean c s : c ∈ markup -> c ∉ html_escape s.
Proof.
  intros Hc. rewrite html_escape_pass. rewrite list_elem_of_bind.
  intros (x & Hx & _). by eapply reference_clean.
Qed.

(** Reading character references, as far as [html.escape] writes them. *)
Definition references : list (str * N) :=
  [($"&amp;", 38%N); ($"&lt;", 60%N); ($"&gt;", 62%N); ($"&quot;", 34%N); ($"&#x27;", 39%N)].

Fixpoint decode_fuel (fuel : nat) (s : str) : str :=
  match fuel, s with
  | S fuel', c :: s' =>
      match list_find (fun r => startswith s r.1 = true) references with
      | Some (_, (r, x)) => x :: decode_fuel fuel' (drop (length r) s)
      | None => c :: decode_fuel fuel' s'
      end
  | _, _ => []
  end.
Definition decode_references (s : str) : str := decode_fuel (length s) s.

Lemma decode_reference fuel c s : (0 < fuel)%nat -> decode_fuel fuel (reference c ++ s) = c :: decode_fuel (pred fuel) s.
Proof.
  intros Hf. destruct fuel as [|fuel]; [lia|]. unfold reference.
  destruct (N.eqb_spec c 38) as [->|H1]; [by destruct s|]. destruct (N.eqb_spec c 60) as [->|H2]; [by destruct s|].
  destruct (N.eqb_spec c 62) as [->|H3]; [by destruct s|]. destruct (N.eqb_spec c 34) as [->|H4]; [by destruct s|].
  destruct (N.eqb_spec c 39) as [->|H5]; [by destruct s|]. cbn [app decode_fuel].
  assert (list_find (fun r => startswith (c :: s) r.1 = true) references = None) as ->; [|done].
  apply list_find_None, Forall_forall. intros [r x] Hr. cbn [fst]. unfold references in Hr.
  rewrite !elem_of_cons, elem_of_nil in Hr.
  assert (∃ r', r = 38%N :: r') as [r' ->] by (destruct_or! Hr; simplify_eq; by eexists).
  by rewrite startswith_head_ne.
Qed.

Lemma reference_length c : (1 <= length (reference c))%nat.
Proof. unfold reference. repeat case_match; vm_compute; lia. Qed.

Lemma bind_reference_length s : (length s <= length (s ≫= reference))%nat.
Proof.
  induction s as [|c s IH]; [done|]. change ((c :: s) ≫= reference) with (reference c ++ (s ≫= reference)).
  rewrite length_app. pose proof (reference_length c). cbn [length]. lia.
Qed.

Lemma decode_escaped s : decode_references (html_escape s) = s.
Proof.
  unfold decode_references. rewrite html_escape_pass.
  assert (∀ fuel, (length s <= fuel)%nat -> decode_fuel fuel (s ≫= reference) = s) as H.
  { induction s as [|c s IH]; intros fuel Hf; [by destruct fuel|]. cbn [length mbind list_bind] in *.
    rewrite decode_reference by lia. f_equal. apply IH. lia. }
  apply H, bind_reference_length.
Qed.

(** ** What title and URL can do to a page *)
Definition count (c : N) (s : str) : nat := length (filter (eq c) s).

Lemma count_app c a b : count c (a ++ b) = (count c a + count c b)%nat.
Proof. unfold count. by rewrite filter_app, length_app. Qed.

Lemma count_escaped c s : c ∈ markup -> count c (html_escape s) = O.
Proof.
  intros Hc. unfold count. destruct (filter (eq c) _) as [|x l] eqn:E; [done|].
  assert (x ∈ filter (eq c) (html_escape s)) as [<- Hx]%list_elem_of_filter by (rewrite E; by left).
  by apply html_escape_clean in Hx.
Qed.

(** The text from a position on, up to a character. *)
Definition text_at (n : nat) (c : N) (page : str) : str := split_head c (drop n page).

Lemma text_at_app n c pre s post :
  n = length pre -> c ∉ s -> text_at n c (pre ++ s ++ c :: post) = s.
Proof. intros -> Hs. unfold text_at, split_head. by rewrite drop_app_length, partition_app. Qed.

(** A page in which title and URL are filled in. *)
Definition filled (head middle tail title url : str) : str :=
  head ++ html_escape title ++ middle ++ html_escape url ++ tail.

(** Whatever they are, filling in a title and a URL opens and closes nothing,
    and both read back: the title up to the next tag, the URL up to the
    delimiter that follows it. *)
Lemma filled_reads_back head middle tail title url t d u :
  middle = 60%N :: t -> tail = d :: u -> d ∈ markup ->
  let page := filled head middle tail title url in
  (∀ c, c ∈ markup -> count c page = count c (filled head middle tail [] []))
  ∧ decode_references (text_at (length head) 60 page) = title
  ∧ text_at (length head + length (html_escape title) + length middle) d page = html_escape url
  ∧ decode_references (text_at (length head + length (html_escape title) + length middle) d page) = url.
Proof.
  intros Hm Ht Hd page.
  assert (text_at (length head + length (html_escape title) + length middle) d page = html_escape url) as Hu.
  { unfold page, filled. rewrite Ht, (app_assoc head), (app_assoc (head ++ _)).
    apply text_at_app; [by rewrite !length_app|by apply html_escape_clean]. }
  split_and!.
  - intros c Hc. unfold page, filled. rewrite !count_app, !count_escaped by done. done.
  - unfold page, filled. rewrite Hm. cbn [app]. rewrite text_at_app; [apply decode_escaped|done|].
    apply html_escape_clean. by left.
  - exact Hu.
  - rewrite Hu. apply decode_escaped.
Qed.

(** A URL is kept by [html.escape] exactly if it has none of the five characters. *)
Lemma html_escape_fixed s : html_escape s = s ↔ Forall (fun c => reference c = [c]) s.
Proof.
  rewrite html_escape_pass. split.
  - induction s as [|c s IH]; [constructor|].
    change ((c :: s) ≫= reference) with (reference c ++ (s ≫= reference)). intros H.
    pose proof (f_equal length H) as HL. rewrite length_app in HL. cbn [length] in HL.
    pose proof (bind_reference_length s). pose proof (reference_length c).
    destruct (reference c) as [|y [|z l]] eqn:Ey; cbn [length] in *; try lia.
    injection H as -> H. constructor; auto.
  - induction 1 as [|c s Hc _ IH]; [done|]. cbn [mbind list_bind]. by rewrite Hc, IH.
Qed.
