(* ===== verification/DocsServer.v ===== *)
(** * Documentation endpoints: the endpoints of [setup] in [applications.py]

    The OpenAPI document with its cache and the servers added for the root
    paths it is requested under, the pages of [Docs], and what the start of the
    server does to the list of servers.  [openapi_dict_to_json_bytes] of the core
    is a parameter. *)

From S2P Require Import Prelude PyStr Asgi MutableHeaders Responses Convertors ApiRouting OpenApi OpenApiFacts Encoders Docs.

(** What of the application the endpoints read and write, with the set
    [server_urls] that the endpoint of the document closes over. *)
Record docs_state : Type := mkDS {
  servers : list ddict;
  root_path : str;
  openapi_schema : option ddict;
  _openapi_bytes : option bytes;
  server_urls : list str
}.

(** What does not change. *)
Record docs_app : Type := mkDocsApp {
  app_title : str;
  openapi_url : str;
  swagger_ui_oauth2_redirect_url : option str;
  swagger_ui_init_oauth : option Z;
  swagger_ui_parameters : option (list (str * obj));
  root_path_in_servers : bool
}.

(** [server.get("url")], if it is a non-empty text. *)
Definition url_of (server : ddict) : option str :=
  match dict_get server $"url" with
  | Some (DStr ((_ :: _) as u)) => Some u
  | _ => None
  end.

(** [server_urls] at the time of [setup]. *)
Definition setup_urls (servers : list ddict) : list str := omap url_of servers.

(** The first text that is not empty. *)
Definition or_text (a b : str) : str := match a with [] => b | _ => a end.

(** The root path of a request: [scope_root] is that of its scope, if the
    endpoint was given a request. *)
Definition request_root (scope_root : option str) (current server : str) : str :=
  rstrip 47 (or_text (get_or scope_root []) (or_text current server)).

Definition server_entry (url : str) : ddict := [($"url", DStr url)].

Section endpoints.
Context (w : World) (D : Docs) (depth : nat) (info : Info) (get_definitions : list any_field -> ddict).
Context (routes webhooks : list any_route).
Context (to_json_bytes : ddict -> result bytes).

(** [get_openapi] with the arguments of the application. *)
Definition generate (servers : list ddict) : result ddict :=
  rmap fst (get_openapi w D depth
    (mkApiInfo (i_title info) (i_version info) (i_openapi_version info) (i_summary info) (i_description info)
       (i_terms_of_service info) (i_contact info) (i_license_info info) (i_tags info) (DDict <$> servers)
       (i_external_docs info))
    get_definitions routes webhooks).

Definition with_schema (s : docs_state) (schema : option ddict) (b : option bytes) : docs_state :=
  mkDS (servers s) (root_path s) schema b (server_urls s).

(** The method [openapi]. *)
Definition openapi (s : docs_state) : docs_state * result ddict :=
  match openapi_schema s with
  | Some ((_ :: _) as schema) => (s, Ok schema)
  | _ =>
      match generate (servers s) with
      | Raise e => (s, Raise e)
      | Ok schema =>
          match to_json_bytes schema with
          | Ok b => (with_schema s (Some schema) (Some b), Ok schema)
          | Raise e => (with_schema s (Some schema) (_openapi_bytes s), Raise e)
          end
      end
  end.

(** The endpoint of the document. *)
Definition add_server (in_servers : bool) (root : str) (s : docs_state) : docs_state :=
  if bool_decide (root ∈ server_urls s) then s
  else if bool_decide (root ≠ []) && in_servers then
    mkDS (server_entry root :: servers s) (root_path s) None None (root :: server_urls s)
  else s.

Definition openapi_endpoint (a : docs_app) (scope_root : option str) (current server : str) (s : docs_state)
    : docs_state * result Response :=
  let s1 := add_server (root_path_in_servers a) (request_root scope_root current server) s in
  let '(s2, r) := openapi s1 in
  (s2, let! _ := r in
       response (match _openapi_bytes s2 with Some b => CBytes b | None => CNone end) 200 []
         (Some $"application/json") None).

(** The start of the server: [root] is the argument of [_create_server]; the
    result is the application and the root path of the server. *)
Definition start_server (a : docs_app) (root : str) (s : docs_state) : docs_state * str :=
  let server_root := or_text root (root_path s) in
  let s1 := mkDS (servers s) (or_text (root_path s) server_root) (openapi_schema s) (_openapi_bytes s) (server_urls s) in
  if bool_decide (server_root ≠ []) && root_path_in_servers a then
    let rp := rstrip 47 server_root in
    if bool_decide (rp ≠ []) && bool_decide (servers s = [])
    then (mkDS [server_entry rp] (root_path s1) None None (server_urls s1), server_root)
    else (s1, server_root)
  else (s1, server_root).
End endpoints.

(** ** The pages *)
Section page_endpoints.
Context (model_dump : Z -> options -> result json) (is_pydantic_v1 : Z -> bool) (h : heap) (limit : nat).
Context (object_text : Z -> result str) (dumps_str : json -> result str).

Definition swagger_redirect (a : docs_app) (root : str) : option str :=
  match swagger_ui_oauth2_redirect_url a with
  | Some ((_ :: _) as u) => Some (root ++ u)
  | o => o
  end.

Definition swagger_ui_html (a : docs_app) (scope_root : option str) (current server : str) : result Response :=
  let root := request_root scope_root current server in
  get_swagger_ui_html model_dump is_pydantic_v1 h limit object_text dumps_str default_assets (root ++ openapi_url a)
    (app_title a ++ $" - Swagger UI") (swagger_redirect a root) (swagger_ui_init_oauth a) (swagger_ui_parameters a).

Definition redoc_html (a : docs_app) (scope_root : option str) (current server : str) : result Response :=
  let root := request_root scope_root current server in
  get_redoc_html (root ++ openapi_url a) (app_title a ++ $" - ReDoc") redoc_default_js favicon true.
End page_endpoints.

Definition swagger_ui_redirect : result Response := get_swagger_ui_oauth2_redirect_html.

(** ** The document and its cache *)
Section served.
Context (w : World) (D : Docs) (depth : nat) (info : Info) (get_definitions : list any_field -> ddict).
Context (webhooks : list any_route) (to_json_bytes : ddict -> result bytes) (a : docs_app).
#[local] Abbreviation generate rs := (generate w D depth info get_definitions rs webhooks).
#[local] Abbreviation openapi rs := (openapi w D depth info get_definitions rs webhooks to_json_bytes).
#[local] Abbreviation openapi_endpoint rs := (openapi_endpoint w D depth info get_definitions rs webhooks to_json_bytes a).

(** The routes the document at hand was made from, if the next call of
    [openapi] is in state [s]: the present ones if nothing is cached. *)
Definition made_from (routes gen : list any_route) (s : docs_state) : list any_route :=
  match openapi_schema s with Some (_ :: _) => gen | _ => routes end.

(** What happens after [setup], in any order: requests for the document under
    any root paths, direct calls of [openapi], changes of the routes, and the
    start of a server with any root path.  The state comes with the present
    routes and those the cached document, if there is one, was made from. *)
Inductive reached (s0 : docs_state) : list any_route -> list any_route -> docs_state -> Prop :=
  | reached_start routes gen : reached s0 routes gen s0
  | reached_request routes gen s scope_root current server :
      reached s0 routes gen s ->
      reached s0 routes (made_from routes gen (add_server (root_path_in_servers a) (request_root scope_root current server) s))
        (openapi_endpoint routes scope_root current server s).1
  | reached_openapi routes gen s :
      reached s0 routes gen s -> reached s0 routes (made_from routes gen s) (openapi routes s).1
  | reached_declare routes routes' gen s : reached s0 routes gen s -> reached s0 routes' gen s
  | reached_server routes gen s root : reached s0 routes gen s -> reached s0 routes gen (start_server a root s).1.

(** The cache holds the document of the present servers and of the routes
    [gen], and its bytes unless they could not be made. *)
Definition cached (gen : list any_route) (s : docs_state) : Prop :=
  match openapi_schema s with
  | None => _openapi_bytes s = None
  | Some d => generate gen (servers s) = Ok d
              ∧ _openapi_bytes s = match to_json_bytes d with Ok b => Some b | Raise _ => None end
  end.

(** The servers are those of the start, or the root path of a started server
    if there were none, behind one for each of some root paths. *)
Definition base_servers (s0 : docs_state) (base : list ddict) : Prop :=
  base = servers s0 ∨ servers s0 = [] ∧ ∃ rp, rp ≠ [] ∧ base = [server_entry rp].

Definition grown (s0 s : docs_state) : Prop :=
  ∃ added base, servers s = (server_entry <$> added) ++ base ∧ base_servers s0 base
    ∧ server_urls s = added ++ server_urls s0
    ∧ NoDup added ∧ (∀ u, u ∈ added -> u ≠ [] ∧ u ∉ server_urls s0).

Lemma generated_nonempty rs ss d : generate rs ss = Ok d -> d ≠ [].
Proof.
  unfold DocsServer.generate, get_openapi, rmap. intros ([d' ws] & Hd & [= <-])%rbind_Ok. cbn [fst].
  apply rbind_Ok in Hd as (f & _ & Hd). apply rbind_Ok in Hd as (g & _ & Hd). by apply rbind_Ok in Hd as (k & _ & [= <- _]).
Qed.

Lemma generated_servers rs ss d : generate rs ss = Ok d -> ss ≠ [] -> dict_get d $"servers" = Some (DList (DDict <$> ss)).
Proof.
  unfold DocsServer.generate, get_openapi, rmap. intros ([d' ws] & Hd & [= <-])%rbind_Ok Hss. cbn [fst].
  apply rbind_Ok in Hd as (f & _ & Hd). apply rbind_Ok in Hd as (g & _ & Hd). apply rbind_Ok in Hd as (k & _ & [= <- _]).
  by destruct ss.
Qed.

Lemma openapi_cached routes gen s :
  cached gen s ->
  let gen' := made_from routes gen s in
  cached gen' (openapi routes s).1 ∧ servers (openapi routes s).1 = servers s
  ∧ server_urls (openapi routes s).1 = server_urls s
  ∧ match generate gen' (servers s) with
    | Raise e => (openapi routes s).2 = Raise e
    | Ok d => ∀ b, to_json_bytes d = Ok b -> (openapi routes s).2 = Ok d ∧ _openapi_bytes (openapi routes s).1 = Some b
    end.
Proof.
  intros Hc gen'. subst gen'. unfold DocsServer.openapi, made_from. destruct (openapi_schema s) as [d|] eqn:Es.
  - pose proof Hc as H. unfold cached in H. rewrite Es in H. destruct H as [Hg Hb].
    destruct d as [|kv d]; [by apply generated_nonempty in Hg|]. cbn [fst snd]. rewrite Hg. split_and!; try done.
    intros b Hj. by rewrite Hj in Hb.
  - unfold cached in Hc. rewrite Es in Hc. destruct (generate routes (servers s)) as [d|e] eqn:Hg; cbn [fst snd].
    + destruct (to_json_bytes d) as [b|e] eqn:Hj; cbn [fst snd]; unfold cached; cbn; rewrite Hj; split_and!; try done.
      naive_solver.
    + split_and!; try done. unfold cached. by rewrite Es.
Qed.

Lemma add_server_cached gen b root s : cached gen s -> cached gen (add_server b root s).
Proof. intros Hc. unfold add_server. by repeat case_match. Qed.

Lemma add_server_grown b root s0 s : grown s0 s -> grown s0 (add_server b root s).
Proof.
  intros (added & base & Hs & Hb & Hu & Hnd & Hin). unfold add_server.
  case_bool_decide as Hroot; [by exists added, base|].
  destruct (bool_decide (root ≠ []) && b) eqn:E; [|by exists added, base].
  apply andb_true_iff in E as [Hne%bool_decide_eq_true _]. exists (root :: added), base. cbn. rewrite Hs, Hu.
  rewrite Hu in Hroot. split_and!; try done; [by constructor; [set_solver|]|]. set_solver.
Qed.

Lemma start_server_inv gen root s0 s :
  cached gen s -> grown s0 s -> cached gen (start_server a root s).1 ∧ grown s0 (start_server a root s).1.
Proof.
  intros Hc (added & base & Hs & Hb & Hu & Hnd & Hin). unfold start_server.
  destruct (bool_decide (or_text root (root_path s) ≠ []) && root_path_in_servers a); [|split; [done|by exists added, base]].
  destruct (bool_decide (rstrip 47 _ ≠ []) && bool_decide (servers s = [])) eqn:E;
    [|split; [done|by exists added, base]].
  apply andb_true_iff in E as [Hrp%bool_decide_eq_true He%bool_decide_eq_true]. rewrite He in Hs.
  destruct added as [|u added]; [|done]. simpl in Hs. subst base. split; [done|]. cbn.
  exists [], [server_entry (rstrip 47 (or_text root (root_path s)))]. split_and!; try done.
  right. split; [|by eexists]. by destruct Hb as [->|[_ (rp & _ & ?)]].
Qed.

Lemma added_server root s0 s :
  server_urls s0 = setup_urls (servers s0) -> grown s0 (add_server true root s) -> root ≠ [] ->
  root ∈ server_urls (add_server true root s) -> root ∈ setup_urls (servers (add_server true root s)).
Proof.
  intros H0 (added & base & Hs & Hb & Hu & _ & Hin) Hne Hr. rewrite Hs. unfold setup_urls. rewrite Hu, H0 in Hr.
  rewrite omap_app. apply elem_of_app in Hr as [Hr|Hr]; apply elem_of_app; [left|right].
  - apply list_elem_of_omap. exists (server_entry root). split; [by apply list_elem_of_fmap_2|]. by destruct root.
  - destruct Hb as [->|[Hn _]]; [done|]. rewrite Hn in Hr. by apply elem_of_nil in Hr.
Qed.

Lemma add_server_known root s : root ≠ [] -> root ∈ server_urls (add_server true root s).
Proof.
  intros Hne. unfold add_server. case_bool_decide as H; [done|]. rewrite bool_decide_true by done. by left.
Qed.

Lemma openapi_grown routes gen s0 s : cached gen s -> grown s0 s -> grown s0 (openapi routes s).1.
Proof.
  intros Hc (added & base & ?). destruct (openapi_cached routes gen s Hc) as (_ & Hs & Hu & _).
  exists added, base. by rewrite Hs, Hu.
Qed.

Lemma reached_inv s0 routes gen s :
  openapi_schema s0 = None -> _openapi_bytes s0 = None -> reached s0 routes gen s -> cached gen s ∧ grown s0 s.
Proof.
  intros H1 H2. induction 1 as [routes gen|routes gen s sc cur srv _ [Hc Hg]|routes gen s _ [Hc Hg]|routes routes' gen s _ IH
    |routes gen s root _ [Hc Hg]].
  - split; [by unfold cached; rewrite H1|]. exists [], (servers s0). split_and!; try done; [by left|constructor|set_solver].
  - unfold DocsServer.openapi_endpoint. set (s1 := add_server _ _ s).
    assert (Hc1 : cached gen s1) by (by apply add_server_cached).
    assert (Hg1 : grown s0 s1) by (by apply add_server_grown).
    pose proof (proj1 (openapi_cached routes gen s1 Hc1)) as Hc2. pose proof (openapi_grown routes gen s0 s1 Hc1 Hg1).
    by destruct (openapi routes s1) as [s2 r].
  - split; [by apply openapi_cached|by eapply openapi_grown].
  - done.
  - by apply start_server_inv.
Qed.
End served.

(** C39: the OpenAPI document of the Python endpoint ([setup] in
    [applications.py]), after any sequence of requests for it under any root
    paths, calls of [openapi], changes of the routes and starts of a server.
    (A request the compiled core answers itself gets the copy that was made when
    the server started, and does not reach this endpoint.)  The answer is the
    JSON of the document for the present list of servers, or the exception of
    its generation.  Its routes are the present ones if no document is cached or
    the request adds its root path to the servers; otherwise they are those of
    the time the cached document was generated, for declaring a route does not
    discard it.  The list of servers is the one the application was set up with,
    or the root path of a started server where there was none, behind one entry
    for each root path it was requested under, none of these twice; a root path
    of the server itself may therefore be listed twice.  With
    [root_path_in_servers] the root path of the request is in the list, and the
    list is the one in the document. *)
Theorem openapi_served w D depth info gd webhooks to_json a s0 routes gen s scope_root current server s' r :
  openapi_schema s0 = None -> _openapi_bytes s0 = None -> server_urls s0 = setup_urls (servers s0) ->
  reached w D depth info gd webhooks to_json a s0 routes gen s ->
  openapi_endpoint w D depth info gd routes webhooks to_json a scope_root current server s = (s', r) ->
  let root := request_root scope_root current server in
  let new := root_path_in_servers a && bool_decide (root ≠ []) && negb (bool_decide (root ∈ server_urls s)) in
  let made := if new || bool_decide (openapi_schema s = None) then routes else gen in
  (∃ added base, servers s' = (server_entry <$> added) ++ base
     ∧ (base = servers s0 ∨ servers s0 = [] ∧ ∃ rp, rp ≠ [] ∧ base = [server_entry rp])
     ∧ NoDup added ∧ ∀ u, u ∈ added -> u ∉ setup_urls (servers s0))
  ∧ servers s' = (if new then [server_entry root] else []) ++ servers s
  ∧ (root_path_in_servers a = true -> root ≠ [] -> root ∈ setup_urls (servers s'))
  ∧ match generate w D depth info gd made webhooks (servers s') with
    | Raise e => r = Raise e
    | Ok d => (servers s' ≠ [] -> dict_get d $"servers" = Some (DList (DDict <$> servers s')))
              ∧ ∀ b, to_json d = Ok b -> r = response (CBytes b) 200 [] (Some $"application/json") None
    end.
Proof.
  intros H1 H2 H3 Hr He root new made. destruct (reached_inv _ _ _ _ _ _ _ _ _ _ _ _ H1 H2 Hr) as [Hc Hg].
  unfold openapi_endpoint in He. fold root in He. set (s1 := add_server _ _ s) in He.
  pose proof (add_server_grown (root_path_in_servers a) root s0 s Hg) as Hg1. fold s1 in Hg1.
  assert (Hc1 : cached w D depth info gd webhooks to_json gen s1) by (by apply add_server_cached).
  assert (Hmade : made_from routes gen s1 = made).
  { unfold cached in Hc. unfold made, made_from, s1, add_server, new.
    destruct (bool_decide (root ∈ server_urls s)), (bool_decide (root ≠ [])), (root_path_in_servers a); simpl; try done.
    all: destruct (openapi_schema s) as [[|]|]; try done;
      by destruct Hc as [?%generated_nonempty _]. }
  assert (Hsrv : servers s1 = (if new then [server_entry root] else []) ++ servers s).
  { unfold s1, add_server, new.
    by destruct (bool_decide (root ∈ server_urls s)), (bool_decide (root ≠ [])), (root_path_in_servers a). }
  destruct (openapi_cached w D depth info gd webhooks to_json routes gen s1 Hc1) as (_ & Hs & _ & Ha).
  rewrite Hmade in Ha. destruct (openapi _ _ _ _ _ _ _ _ s1) as [s2 r2]. cbn [fst snd] in *. injection He as <- <-.
  rewrite Hs. split_and!.
  - destruct Hg1 as (added & base & Hs1 & Hb & _ & Hnd & Hin). exists added, base. rewrite H3 in Hin.
    split_and!; [done|exact Hb|done|naive_solver].
  - done.
  - intros Hb Hne. subst s1. rewrite Hb in *. eapply added_server; eauto using add_server_known.
  - destruct (generate _ _ _ _ _ _ _ (servers s1)) as [d|e] eqn:Hgen; [|by rewrite Ha].
    split; [by eapply generated_servers|]. intros b Hj. by destruct (Ha b Hj) as [-> ->].
Qed.

(** The application of [OpenApiFacts.Shop] behind two proxies. *)
Module Proxied.
Definition app : docs_app := mkDocsApp $"Shop" $"/openapi.json" (Some $"/docs/oauth2-redirect") None None true.
Definition start : docs_state := mkDS [] [] None None [].
Definition size_byte (d : ddict) : result bytes := Ok [N.of_nat (length d)].
Definition request (root : str) (s : docs_state) : docs_state * result Response :=
  openapi_endpoint Shop.world Shop.docs 3 Shop.api_info (fun _ => []) Shop.routes [] size_byte app (Some root) [] [] s.
Definition after_api : docs_state := (request $"/api/" start).1.
Definition after_both : docs_state := (request $"/v2" after_api).1.
End Proxied.

Lemma openapi_served_witness :
  ∃ added base, servers Proxied.after_both = (server_entry <$> added) ++ base ∧ NoDup added
    ∧ (base = [] ∨ ∃ rp, base = [server_entry rp])
    ∧ (Proxied.request $"/v2" Proxied.after_api).2 = response (CBytes [5%N]) 200 [] (Some $"application/json") None.
Proof.
  destruct (openapi_served Shop.world Shop.docs 3 Shop.api_info (fun _ => []) [] Proxied.size_byte Proxied.app
    Proxied.start Shop.routes Shop.routes Proxied.after_api (Some $"/v2") [] [] Proxied.after_both
    (Proxied.request $"/v2" Proxied.after_api).2)
    as ((added & base & Hs & Hb & Hnd & _) & _ & _ & Hgen); try reflexivity.
  - exact (reached_request Shop.world Shop.docs 3 Shop.api_info (fun _ => []) [] Proxied.size_byte Proxied.app
      Proxied.start Shop.routes [] Proxied.start (Some $"/api/") [] [] (reached_start _ _ _ _ _ _ _ _ _ _ _)).
  - exists added, base. split; [exact Hs|]. split; [exact Hnd|].
    split; [destruct Hb as [Hb|[_ (rp & _ & Hb)]]; [left; exact Hb|right; exists rp; exact Hb]|].
    clear Hs Hb Hnd. destruct (generate _ _ _ _ _ _ _ _) as [d|e] eqn:Ed in Hgen.
    + apply Hgen. revert Ed. vm_compute. intros [= <-]. reflexivity.
    + revert Ed. vm_compute. discriminate.
Defined.

(** The set of known URLs is made when the routes of the documentation are
    added, normally at the first declared route; a server started later with a
    root path puts it in the list of servers but not in the set, so a request
    that reaches the endpoint, and not the copy the core serves, adds it again. *)
Example started_server_listed_twice :
  let '(s, server) := start_server Proxied.app $"/api" Proxied.start in
  servers (openapi_endpoint Shop.world Shop.docs 3 Shop.api_info (fun _ => []) Shop.routes [] Proxied.size_byte Proxied.app
             None [] server s).1
  = [server_entry $"/api"; server_entry $"/api"].
Proof. vm_compute. reflexivity. Qed.

(** The document made before a route was declared is served after it: its paths
    are none. *)
Example declared_route_not_documented :
  let paths d := Ok [match dict_get d $"paths" with Some (DDict ps) => N.of_nat (length ps) | _ => 0%N end] in
  let endpoint rs := openapi_endpoint Shop.world Shop.docs 3 Shop.api_info (fun _ => []) rs [] paths Proxied.app
                       (Some []) [] [] in
  let s := (endpoint [] Proxied.start).1 in
  _openapi_bytes (endpoint Shop.routes s).1 = Some [0%N]
  ∧ _openapi_bytes (endpoint Shop.routes Proxied.start).1 = Some [1%N].
Proof. split; vm_compute; reflexivity. Qed.

(** A document the user has put in [openapi_schema], as a replaced [openapi]
    does, is served with an empty body: only the generated one has bytes. *)
Theorem custom_document_not_served w D depth info gd routes webhooks to_json a s kv d :
  openapi_schema s = Some (kv :: d) -> _openapi_bytes s = None ->
  (openapi_endpoint w D depth info gd routes webhooks to_json a (Some []) [] [] s).2
  = response CNone 200 [] (Some $"application/json") None.
Proof.
  intros Hs Hb. unfold openapi_endpoint, request_root, add_server. cbn [get_or or_text].
  change (rstrip 47 []) with (@nil N). rewrite (bool_decide_false ([] ≠ [])) by naive_solver. cbn [andb].
  replace (if bool_decide _ then s else s) with s by (by case_match).
  unfold openapi. rewrite Hs. cbn. by rewrite Hb.
Qed.

(** ** The pages *)

Lemma parameter_lines_head md v1 h limit dumps l html html' :
  rfold (parameter_line md v1 h limit dumps) html l = Ok html' -> ∃ t, html' = html ++ t.
Proof.
  revert html. induction l as [|kv l IH]; intros html; cbn [rfold]; [intros [= <-]; exists []; by rewrite app_nil_r|].
  intros (t & Ht & Hl)%rbind_Ok. destruct (IH _ Hl) as [u ->]. unfold parameter_line in Ht.
  apply rbind_Ok in Ht as (k & _ & Ht). apply rbind_Ok in Ht as (j & _ & Ht). apply rbind_Ok in Ht as (v & _ & [= <-]).
  eexists. by rewrite <-!app_assoc.
Qed.

Lemma swagger_tail_head md v1 h limit object_text dumps redirect init params tail :
  swagger_tail md v1 h limit object_text dumps redirect init params = Ok tail -> ∃ u, tail = 39%N :: u.
Proof.
  unfold swagger_tail. intros (html & Hl & Ht)%rbind_Ok. apply rbind_Ok in Ht as (o & _ & [= <-]).
  apply parameter_lines_head in Hl as [t ->]. by eexists.
Qed.

Lemma swagger_middle_head assets : ∃ m, swagger_middle assets = 60%N :: m.
Proof. by eexists. Qed.

Lemma redoc_middle_head icon fonts : ∃ m, redoc_middle icon fonts = 60%N :: m.
Proof. by eexists. Qed.

Lemma redoc_end_head js : ∃ u, redoc_end js = 34%N :: u.
Proof. by eexists. Qed.

(** The documentation pages.  A title, a root path and an address of the
    document, whatever they are, open and close no element, attribute or string
    of either page.  A browser reads back the title of both and the attribute
    with the address of the ReDoc page; the string of the script of Swagger UI
    holds the escaped address, which is the address exactly if it has none of
    the five characters that [html.escape] replaces. *)
Theorem docs_pages_safe model_dump v1 h limit object_text dumps url title redirect init params assets js icon fonts page :
  swagger_html model_dump v1 h limit object_text dumps assets url title redirect init params = Ok page ->
  let redoc := redoc_html_text url title js icon fonts in
  let address n middle q p := text_at (n + length (html_escape title) + length middle) q p in
  (∃ page0, swagger_html model_dump v1 h limit object_text dumps assets [] [] redirect init params = Ok page0
            ∧ ∀ c, c ∈ markup -> count c page = count c page0)
  ∧ (∀ c, c ∈ markup -> count c redoc = count c (redoc_html_text [] [] js icon fonts))
  ∧ decode_references (text_at (length (swagger_head assets)) 60 page) = title
  ∧ decode_references (text_at (length redoc_head) 60 redoc) = title
  ∧ decode_references (address (length redoc_head) (redoc_middle icon fonts) 34%N redoc) = url
  ∧ address (length (swagger_head assets)) (swagger_middle assets) 39%N page = html_escape url
  ∧ (html_escape url = url ↔ Forall (fun c => reference c = [c]) url).
Proof.
  intros Hp redoc address. unfold swagger_html in *. apply rbind_Ok in Hp as (tail & Ht & [= <-]). rewrite Ht.
  destruct (swagger_tail_head _ _ _ _ _ _ _ _ _ _ Ht) as [u Hu].
  destruct (swagger_middle_head assets) as [m Hm], (redoc_middle_head icon fonts) as [m' Hm'], (redoc_end_head js) as [u' Hu'].
  destruct (filled_reads_back (swagger_head assets) (swagger_middle assets) tail title url m 39 u) as (Hn & Hd & Ha & _);
    [done|done|set_solver|].
  destruct (filled_reads_back redoc_head (redoc_middle icon fonts) (redoc_end js) title url m' 34 u') as (Hn' & Hd' & _ & Ha'); [done|done|set_solver|].
  split; [by eexists|]. repeat split; try done; apply html_escape_fixed.
Qed.

(** What [html.escape] is not applied to: the OAuth2 redirect address and the
    parameters of Swagger UI are written into the script as they are, so a value
    can end the script. *)
Definition no_models (id : Z) (o : options) : result json := Ok JNull.
Definition no_objects (id : Z) : result str := Raise (TypeError $"not JSON serializable").

Example parameters_end_script :
  match swagger_html no_models (fun _ => false) ∅ 9 no_objects (json_dumps_str no_objects) default_assets $"/openapi.json" $"Shop"
          (Some $"/x'+y+'") None (Some [($"filter", OStr $"</script><b>")]) with
  | Ok page => contains $"</script><b>" page && contains $"origin + '/x'+y+''" page
  | Raise _ => false
  end = true.
Proof. vm_compute. reflexivity. Qed.

(** An address with an ampersand is not the address Swagger UI loads. *)
Example swagger_address_escaped : html_escape $"/openapi.json?a=1&b=2" = $"/openapi.json?a=1&amp;b=2".
Proof. vm_compute. reflexivity. Qed.

Lemma docs_pages_safe_witness :
  ∃ page,
    swagger_html no_models (fun _ => false) ∅ 9 no_objects (json_dumps_str no_objects) default_assets $"/openapi.json"
      $"<b>" None None None = Ok page
    ∧ decode_references (text_at (length (swagger_head default_assets)) 60 page) = $"<b>".
Proof.
  eexists. split; [vm_compute; reflexivity|].
  apply (docs_pages_safe no_models (fun _ => false) ∅ 9 no_objects (json_dumps_str no_objects) $"/openapi.json" $"<b>" None None
    None default_assets redoc_default_js favicon true). vm_compute. reflexivity.
Defined.
