(* ===== verification/SyncRoutes.v ===== *)
(** * SyncRoutes: registering the routes with the compiled server

    [_sync_routes_to_core] of [applications.py] tells the core about every
    route once: routes that share a path become one entry with a dispatcher by
    method, the others get the wrapper their features need; mounts, plain
    routes and WebSocket routes follow.  The test for the short path is that of
    [APIRoute.__init__] in [routing.py].  The core is represented by the table
    of its entries; what it refuses is a parameter. *)

From S2P Require Import Prelude PyStr Asgi DataStructures ExceptionHandler Convertors HttpWire Routing Annotations Dependants ParamArgs.
From S2P Require Import Solve FastDeps ParamValidator ApiRouting Applications.

(** ** The short path *)
Definition any_special (n : DepNames) : bool :=
  existsb Applications.truthy
    [request_param_name n; response_param_name n; background_tasks_param_name n; http_connection_param_name n;
     websocket_param_name n; security_scopes_param_name n].

(** The loop over a stack visits the tree. *)
Fixpoint _dep_tree_has_special_params (d : Dependant) : bool :=
  let '(mkDependant _ _ n deps) := d in any_special n || existsb _dep_tree_has_special_params deps.

(** [alias not in (None, name)] *)
Definition renamed (o : option str) (f : ModelField) : bool :=
  match o with Some a => negb (bool_decide (a = field_name f)) | None => false end.

Definition aliased_body (fs : list ModelField) : bool :=
  existsb (fun f => renamed (fi_alias (field_info f)) f || renamed (fi_validation_alias (field_info f)) f) fs.

Definition body_methods : list str := [$"POST"; $"PUT"; $"PATCH"; $"DELETE"].
Definition takes_body (ms : list str) : bool := existsb (fun m => bool_decide (m ∈ body_methods)) ms.

(** [route.body_field and isinstance(route.body_field.field_info, Form)] *)
Definition is_form (r : APIRoute) : bool :=
  match body_field r with Some f => is_Form (fi_class (field_info f)) | None => false end.

(** What is known of the program beyond the routes: its callables, the response
    classes that are JSON responses, route classes of the user, the iteration
    of sets, the paths the core refuses, and the object that each position of
    the list of API routes holds. *)
Record Facts : Type := mkFacts {
  fx_program : Program;
  fx_json_class : Z -> bool;
  fx_custom_class : APIRoute -> bool;
  fx_middleware_name : Z -> str;
  fx_refused : str -> bool;
  fx_object : nat -> Z
}.

Section sync.
Context (fx : Facts).

Definition class_of (d : defaultable Z) : Z := match d with Given a | DefaultPlaceholder a => a end.

Definition _fast_path_eligible (r : APIRoute) : bool :=
  let d := dependant r in
  let p := params d in
  let c := callable (fx_program fx) (dep_call (info d)) in
  negb (is_gen_callable c) && negb (is_async_gen_callable c) && negb (_dep_tree_has_special_params d) && negb (is_form r)
  && fx_json_class fx (class_of (ApiRouting.response_class r))
  && negb (existsb is_model_field (header_params p ++ query_params p ++ cookie_params p))
  && negb (aliased_body (body_params p))
  && negb (match body_params p, methods r with _ :: _, _ :: _ => negb (takes_body (methods r)) | _, _ => false end).

Definition _batch_specs (r : APIRoute) : list field_spec := _build_field_specs (flat_dependant r) (Some (dependant r)).

(** A solver is made where there are dependencies. *)
Definition has_solver (r : APIRoute) : bool := match dependencies (dependant r) with [] => false | _ => true end.

Fixpoint tree_has_generator (d : Dependant) : bool :=
  let '(mkDependant _ _ _ deps) := d in
  existsb (fun sub =>
    let c := callable (fx_program fx) (dep_call (info sub)) in
    is_gen_callable c || is_async_gen_callable c || tree_has_generator sub) deps.

(** ** Wrappers *)
Inductive shim : Type :=
  | Direct
  | AsgiRoute
  | FormEndpoint
  | ResponseClass
  | ResponseModelShim
  | FastDep
  | ParamValidation
  | StoreException.

Context (app : AstraAPI).

Definition has_handler (cls : str) : bool := dict_mem (exception_handlers app) (ExcMiddleware.Class cls).

Definition known_middleware : list str :=
  [$"BaseHTTPMiddleware"; $"HTTPSRedirectMiddleware"; $"TrustedHostMiddleware"; $"CORSMiddleware"].

Definition _has_asgi_middleware : bool :=
  existsb (fun m => negb (bool_decide (fx_middleware_name fx m ∈ known_middleware))) (user_middleware app).

(** [_make_form_endpoint_shim] returns the endpoint itself without files and
    aliases, [_make_param_validation_shim] without parameters. *)
Definition form_unchanged (r : APIRoute) : bool :=
  forallb (fun f => negb (bool_decide (fi_class (field_info f) = FileI)) && bool_decide (get_validation_alias f = field_name f))
    (body_params (params (dependant r))).

Definition choose_shim (r : APIRoute) : shim :=
  if fx_custom_class fx r then AsgiRoute
  else if is_form r then
    if has_solver r then ResponseClass else if form_unchanged r then Direct else FormEndpoint
  else if negb (_fast_path_eligible r) then ResponseClass
  else if match response_field r with Some _ => true | None => false end then
    if has_solver r || _has_asgi_middleware || has_handler $"ResponseValidationError" then ResponseClass else ResponseModelShim
  else if has_solver r || _has_asgi_middleware then
    if has_solver r && negb _has_asgi_middleware && negb (tree_has_generator (dependant r)) then FastDep else ResponseClass
  else
    match located (params (flat_dependant r)) with
    | _ :: _ => ParamValidation
    | [] => if has_handler $"Exception" then StoreException else Direct
    end.

(** ** Methods *)
Fixpoint lex_le (a b : str) : bool :=
  match a, b with
  | [], _ => true
  | _, [] => false
  | x :: a', y :: b' => if (x =? y)%N then lex_le a' b' else (x <? y)%N
  end.

Fixpoint insert_sorted (m : str) (l : list str) : list str :=
  match l with
  | [] => [m]
  | x :: l' => if bool_decide (m = x) then l else if lex_le m x then m :: l else x :: insert_sorted m l'
  end.

(** [sorted(set(...))] *)
Definition sorted_set (l : list str) : list str := foldr insert_sorted [] l.

Definition own_methods (r : APIRoute) : list str := match methods r with [] => [$"GET"] | ms => sorted_set ms end.

(** HEAD goes with GET. *)
Definition with_head (ms : list str) : list str := if bool_decide ($"GET" ∈ ms) then sorted_set (ms ++ [$"HEAD"]) else ms.

Definition group_methods (group : list APIRoute) : list str := sorted_set (group ≫= fun r => with_head (own_methods r)).

(** ** Routes that share a path *)
Definition add_methods {A} (d : list (str * A)) (ms : list str) (a : A) : list (str * A) :=
  foldl (fun d m => dict_setdefault d (str_upper m) a) d ms.

(** The wrapper for each method: routes in order, then HEAD for GET. *)
Definition _method_shim_map (group : list APIRoute) : list (str * APIRoute) :=
  let d := foldl (fun d r => add_methods d (own_methods r) r) [] group in
  match dict_get d $"GET" with Some r => dict_setdefault d $"HEAD" r | None => d end.

(** The route whose parameters and body are read: HEAD follows the first route
    with GET. *)
Definition _route_map (group : list APIRoute) : list (str * APIRoute) :=
  foldl (fun d r =>
    let d := add_methods d (own_methods r) r in
    if bool_decide ($"GET" ∈ own_methods r) then dict_setdefault d $"HEAD" r else d) [] group.

Definition known_names (r : APIRoute) : list str :=
  let p := params (flat_dependant r) in
  (query_params p ++ path_params p ++ header_params p ++ cookie_params p) ≫= fun f => [field_name f; get_validation_alias f].

Definition _INTERNAL : list str :=
  [$"__method__"; $"__raw_headers__"; $"__path__"; $"__auth_scheme__"; $"__auth_credentials__"; $"__body__"; $"__content_type__"].

Section dispatcher.
Context {R : Type} (py : Pydantic) (json_loads : bytes -> result value).
(** the wrapper of a route, and the two responses of the dispatcher *)
Context (call : APIRoute -> kwargs -> R + exn) (not_allowed : R) (invalid : list error -> R).

(** The body of the method's route: [except (ValueError, KeyError): pass]. *)
Definition group_body (r : APIRoute) (raw : value) : result (option (list error) * kwargs) :=
  match raw, body_params (params (dependant r)) with
  | VBytes ((_ :: _) as b), (_ :: _) as bp =>
      match
        let! v := json_loads b in
        match v with
        | VDict _ =>
            let! (vs, errors, _) := request_body_to_args py (fx_program fx) bp (JsonBody v) (embed_body_fields r) ∅ in
            Ok (match errors with [] => (None, vs) | _ => (Some errors, []) end)
        | _ => Ok (None, [])
        end
      with
      | Ok o => Ok o
      | Raise e => if isinstance e $"ValueError" || isinstance e $"KeyError" then Ok (None, []) else Raise e
      end
  | _, _ => Ok (None, [])
  end.

Definition _group_dispatcher (group : list APIRoute) (kw : kwargs) : R + exn :=
  let m := str_upper (match dict_get kw $"__method__" with Some (VStr s) => s | _ => $"GET" end) in
  match dict_get (_method_shim_map group) m with
  | None => inl not_allowed
  | Some target =>
      let known := match dict_get (_route_map group) m with Some r => known_names r | None => [] end in
      let kw := filter (fun kv => kv.1 ∈ _INTERNAL ∨ kv.1 ∈ known) kw in
      let raw := opt_value (dict_get kw $"__body__") in
      let kw := pop_keys [$"__body__"; $"__content_type__"] kw in
      match dict_get (_route_map group) m with
      | None => call target kw
      | Some r =>
          match group_body r raw with
          | Raise e => inr e
          | Ok (Some errors, _) => inl (invalid errors)
          | Ok (None, vs) => call target (dict_update kw vs)
          end
      end
  end.
End dispatcher.

(** ** The table of the core *)
Inductive target : Type :=
  | OneRoute (s : shim) (r : APIRoute)
  | Group (rs : list APIRoute)
  | MountApp (mount_path : str) (id : Z)
  | Plain (r : Route)
  | WebSocketEndpoint (ws_path : str).

(** The solver given to the core; [BodyInjector] resolves nothing and makes the
    core pass the body. *)
Inductive solver_kind : Type := NoSolver | BodyInjector | RouteSolver.
Inductive validator_kind : Type := NoValidator | RouteValidator | OverrideValidator.

Record fast_spec : Type := mkFastSpec {
  sp_body_param : option str;
  sp_fields : list core_spec;
  sp_body_params : list ModelField;
  sp_embed : bool;
  sp_dependant : bool;
  sp_solver : solver_kind;
  sp_validator : validator_kind;
  sp_inject_mask : Z
}.

Record entry : Type := mkEntry {
  en_path : str;
  en_methods : list str;
  en_target : target;
  en_status : Z;
  en_has_body : bool;
  en_form : bool;
  en_multi : bool;
  en_spec : option fast_spec
}.

Definition no_spec : fast_spec := mkFastSpec None [] [] false false NoSolver NoValidator 0.

Definition status_or_200 (r : APIRoute) : Z := match ApiRouting.status_code r with Some 0 | None => 200 | Some z => z end.

Definition has_body (r : APIRoute) (ms : list str) : bool :=
  takes_body ms || match body_params (params (dependant r)) with [] => false | _ => true end.

(** Specifications of a group: the first with each name. *)
Definition group_specs (group : list APIRoute) : list field_spec :=
  foldl (fun acc s => if bool_decide (fs_name s ∈ fs_name <$> acc) then acc else acc ++ [s]) [] (group ≫= _batch_specs).

(** Body parameters of the route and then of its dependencies, by name. *)
Definition add_body_params (acc fs : list ModelField) : list ModelField :=
  foldl (fun acc f => if bool_decide (field_name f ∈ field_name <$> acc) then acc else acc ++ [f]) acc fs.

Fixpoint _collect_dep_body_params (d : Dependant) (acc : list ModelField) : list ModelField :=
  let '(mkDependant _ _ _ deps) := d in
  foldl (fun acc sub => _collect_dep_body_params sub (add_body_params acc (body_params (params sub)))) acc deps.

Definition not_required (s : core_spec) : core_spec :=
  mkCoreSpec (cs_field_name s) (cs_alias s) (cs_header_key s) (cs_location s) (cs_type_tag s) false (cs_default s) (cs_convert s)
    (cs_sequence s).

(** The default handler of validation errors has the number -2. *)
Definition custom_validation_handler : bool :=
  match dict_get (exception_handlers app) (ExcMiddleware.Class $"RequestValidationError") with
  | Some h => negb (h =? -2)
  | None => false
  end.

Definition fast_path_spec (r : APIRoute) : fast_spec :=
  let d := dependant r in
  let fields := _convert_batch_specs (_batch_specs r) in
  let bp := _collect_dep_body_params d (body_params (params d)) in
  let validates := match located (params (flat_dependant r)) with [] => false | _ => true end in
  mkFastSpec (field_name <$> head (body_params (params d)))
    (if has_solver r then not_required <$> fields else fields) bp (embed_body_fields r) (has_solver r)
    (if has_solver r then RouteSolver else NoSolver)
    (if negb validates || custom_validation_handler then NoValidator else if has_solver r then OverrideValidator else RouteValidator) 0.

Definition form_spec (r : APIRoute) : fast_spec :=
  let wrapped := match choose_shim r with Direct => false | _ => true end in
  mkFastSpec None (_convert_batch_specs (_batch_specs r)) (if wrapped then [] else body_params (params (dependant r)))
    (embed_body_fields r) (has_solver r) (if has_solver r then RouteSolver else NoSolver) NoValidator 0.

Definition slow_path_spec (r : APIRoute) : fast_spec :=
  let alias := aliased_body (body_params (params (dependant r))) in
  mkFastSpec None (_convert_batch_specs (_batch_specs r)) [] false (has_solver r || alias)
    (if has_solver r then RouteSolver else if alias then BodyInjector else NoSolver) NoValidator 0.

Definition spec_of (r : APIRoute) : fast_spec :=
  if fx_custom_class fx r then mkFastSpec None [] [] false true BodyInjector NoValidator 7
  else if _fast_path_eligible r then fast_path_spec r
  else if is_form r then form_spec r
  else slow_path_spec r.

Definition route_entry (r : APIRoute) : entry :=
  let ms := with_head (own_methods r) in
  let custom := fx_custom_class fx r in
  mkEntry (path r) ms (OneRoute (choose_shim r) r) (status_or_200 r) (negb custom && has_body r ms) (negb custom && is_form r) false
    (Some (spec_of r)).

Definition group_entry (r : APIRoute) (group : list APIRoute) : entry :=
  let ms := group_methods group in
  mkEntry (path r) ms (Group group) (status_or_200 r) (has_body r ms) false true
    (Some (mkFastSpec None (_convert_batch_specs (group_specs group)) [] false false NoSolver NoValidator 0)).

Definition api_routes (routes : list any_route) : list APIRoute :=
  omap (fun rt => match rt with ApiRoute r => Some r | _ => None end) routes.

Definition _path_group (rs : list APIRoute) (p : str) : list APIRoute := filter (fun r => path r = p) rs.

(** The API routes as objects. *)
Definition route_objects (rs : list APIRoute) : list (Z * APIRoute) := imap (fun i r => (fx_object fx i, r)) rs.

(** The loop: of the routes that share a path, only the object that comes first
    is registered ([route is not _path_group[0]]). *)
Fixpoint register_routes (all todo : list (Z * APIRoute)) : list entry :=
  match todo with
  | [] => []
  | (id, r) :: todo' =>
      let objects := filter (fun x => path x.2 = path r) all in
      let group := objects.*2 in
      if (1 <? length group)%nat && negb (bool_decide (head objects.*1 = Some id)) then register_routes all todo'
      else (if (1 <? length group)%nat then group_entry r group else route_entry r) :: register_routes all todo'
  end.

Definition all_methods : list str := [$"GET"; $"POST"; $"PUT"; $"PATCH"; $"DELETE"; $"HEAD"; $"OPTIONS"].

(** [rstrip('/')] with the wildcard, and the mount path itself. *)
Definition mount_entries (p : str) (id : Z) : list entry :=
  let one q := mkEntry q all_methods (MountApp p id) 200 true false false (Some no_spec) in
  let stripped := rstrip 47 p in
  [one (stripped ++ $"/{__mount_path__:path}"); one (match stripped with [] => $"/" | _ => stripped end)].

Definition plain_entry (r : Route) : entry :=
  mkEntry (r_path r) (match r_methods r with None | Some [] => all_methods | Some ms => ms end) (Plain r) 200 true false false (Some no_spec).

Definition ws_entry (p : str) : entry := mkEntry p [$"GET"] (WebSocketEndpoint p) 0 false false false None.

Definition other_entries (routes : list any_route) : list entry :=
  (routes ≫= fun rt => match rt with Mounted p _ id _ _ _ => mount_entries p id | _ => [] end)
  ++ (routes ≫= fun rt => match rt with PlainRoute r _ _ => [plain_entry r] | _ => [] end)
  ++ (routes ≫= fun rt => match rt with ApiWs r => [ws_entry (aw_path r)] | PlainWs r _ => [ws_entry (w_path r)] | _ => [] end).

(** An entry the core refuses is logged and left out. *)
Definition _sync_routes_to_core_body (routes : list any_route) : list entry :=
  filter (fun e => fx_refused fx (en_path e) = false)
    (register_routes (route_objects (api_routes routes)) (route_objects (api_routes routes)) ++ other_entries routes).

(** *** Request context *)

(** Does the tree need the variables of the request? *)
Fixpoint _dep_needs_ctx (d : Dependant) : bool :=
  let '(mkDependant _ p n deps) := d in
  Applications.truthy (request_param_name n) || Applications.truthy (http_connection_param_name n)
  || existsb is_model_field (header_params p ++ cookie_params p ++ query_params p)
  || existsb _dep_needs_ctx deps.

Definition route_needs_ctx (r : APIRoute) : bool :=
  fx_custom_class fx r || _dep_needs_ctx (dependant r)
  || negb (_fast_path_eligible r) && match body_params (params (dependant r)) with [] => false | _ => true end.

(** Endpoints of a group that want a request set the flag in their wrapper. *)
Definition wants_request (r : APIRoute) : bool :=
  let n := names (dependant r) in Applications.truthy (request_param_name n) || Applications.truthy (http_connection_param_name n).

Definition internal_paths : list str :=
  (fun o => get_or o []) <$> [openapi_url app; docs_url app; redoc_url app; swagger_ui_oauth2_redirect_url app].

Definition _needs_request_context (routes : list any_route) : bool :=
  let rs := api_routes routes in
  _has_asgi_middleware
  || existsb (fun r => if (1 <? length (_path_group rs (path r)))%nat then wants_request r else route_needs_ctx r) rs
  || existsb (fun rt => match rt with
                        | Mounted _ _ _ _ _ _ => true
                        | PlainRoute r _ _ => negb (bool_decide (r_path r ∈ internal_paths))
                        | _ => false
                        end) routes.

(** *** Once *)
Record sync_state : Type := mkSync { _routes_synced : bool; core_table : list entry }.

Definition _sync_routes_to_core (routes : list any_route) (s : sync_state) : sync_state :=
  if _routes_synced s then s else mkSync true (core_table s ++ _sync_routes_to_core_body routes).
End sync.

(** ** Validation with overridden dependencies *)
Section overrides.
(** [app.dependency_overrides], and [get_dependant(path='/', call=override)]. *)
Context (overrides : list (call * call)) (dependant_of : call -> Dependant).

(** The names in the arguments and in the query string. *)
Definition available (kw : kwargs) (query : bytes) : list str := kw.*1 ++ (_parse_qs_python (decode_latin1 query)).*1.

(** Calls are visited once; the fuel bounds the depth of the trees. *)
Fixpoint _collect_required (fuel : nat) (names : list str) (d : Dependant) (st : list error * list call) : list error * list call :=
  match fuel with
  | O => st
  | S fuel' =>
      let t := match dict_get overrides (dep_call (info d)) with Some c => dependant_of c | None => d end in
      let errors := st.1 ++ (missing $"query" <$> filter (fun n => n ∉ names) (field_name <$> List.filter required (query_params (params t)))) in
      foldl (fun st sub =>
        if bool_decide (dep_call (info sub) ∈ st.2) then st
        else _collect_required fuel' names sub (st.1, st.2 ++ [dep_call (info sub)])) (errors, st.2) (dependencies t)
  end.

Definition required_of_overrides (fuel : nat) (names : list str) (d : Dependant) : list error :=
  (foldl (fun st sub =>
     if bool_decide (dep_call (info sub) ∈ st.2) then st
     else _collect_required fuel names sub (st.1, st.2 ++ [dep_call (info sub)])) ([], []) (dependencies d)).1.

(** Without overrides the validator runs and missing parameters are left to the
    solver; with overrides only the required query parameters of the tree with
    the overrides are looked for. *)
Definition _pv_with_override_check (fuel : nat) (validator : kwargs -> result validated) (d : Dependant) (query : bytes) (kw : kwargs)
    : result (kwargs * list error) :=
  match overrides with
  | [] => let! v := validator kw in Ok (vd_values v, filter (fun e => err_type e ≠ $"missing") (vd_errors v))
  | _ => Ok ([], required_of_overrides fuel (available kw query) d)
  end.
End overrides.

(** ** What the table serves *)

(** The specification: the first declared route with the path and the method;
    HEAD falls back to GET. *)
Definition declared (rs : list APIRoute) (p m : str) : option APIRoute :=
  head (filter (fun r => m ∈ own_methods r ∧ path r = p) rs).

Definition served (rs : list APIRoute) (p m : str) : option APIRoute :=
  match declared rs p m with
  | Some r => Some r
  | None => if bool_decide (m = $"HEAD") then declared rs p $"GET" else None
  end.

(** The route whose parameters and body are read: the same, except that HEAD
    reads those of the first route with HEAD or GET. *)
Definition read_from (rs : list APIRoute) (p m : str) : option APIRoute :=
  if bool_decide (m = $"HEAD")
  then head (filter (fun r => ($"HEAD" ∈ own_methods r ∨ $"GET" ∈ own_methods r) ∧ path r = p) rs)
  else declared rs p m.

(** The route an entry of the table leads to. *)
Definition entry_serves (e : entry) (m : str) : option APIRoute :=
  if bool_decide (m ∈ en_methods e) then
    match en_target e with
    | OneRoute _ r => Some r
    | Group rs => dict_get (_method_shim_map rs) m
    | _ => None
    end
  else None.

Lemma elem_of_insert_sorted m x l : x ∈ insert_sorted m l ↔ x = m ∨ x ∈ l.
Proof.
  induction l as [|y l IH]; simpl; [set_solver|]. case_bool_decide; [set_solver|]. destruct (lex_le m y); set_solver.
Qed.

Lemma elem_of_sorted_set x l : x ∈ sorted_set l ↔ x ∈ l.
Proof.
  unfold sorted_set. induction l as [|y l IH]; simpl; [set_solver|]. rewrite elem_of_insert_sorted. set_solver.
Qed.

Lemma elem_of_with_head x ms : x ∈ with_head ms ↔ x ∈ ms ∨ (x = $"HEAD" ∧ $"GET" ∈ ms).
Proof.
  unfold with_head. case_bool_decide; [|set_solver]. rewrite elem_of_sorted_set. set_solver.
Qed.

(** Methods are in upper case, as the constructor of routes leaves them. *)
Definition upper_methods (r : APIRoute) : Prop := ∀ m, m ∈ methods r -> str_upper m = m.

Lemma own_methods_upper r m : upper_methods r -> m ∈ own_methods r -> str_upper m = m.
Proof.
  unfold upper_methods, own_methods. destruct (methods r); intros Hu Hm.
  - apply list_elem_of_singleton in Hm as ->. reflexivity.
  - by apply Hu, elem_of_sorted_set.
Qed.

Lemma add_methods_get {A} (d : list (str * A)) ms a m :
  dict_get (add_methods d ms a) m
  = match dict_get d m with Some x => Some x | None => if bool_decide (m ∈ str_upper <$> ms) then Some a else None end.
Proof.
  unfold add_methods. revert d. induction ms as [|x ms IH]; intros d; csimpl.
  { by destruct (dict_get d m). }
  rewrite IH, dict_get_setdefault. destruct (decide (str_upper x = m)) as [E|E]; simpl.
  - subst. unfold dict_getdefault. destruct (dict_get d (str_upper x)); [done|].
    by rewrite bool_decide_true by set_solver.
  - destruct (dict_get d m); [done|]. apply (f_equal (fun b : bool => if b then Some a else None)).
    apply bool_decide_ext. set_solver.
Qed.

Lemma first_with_method group m :
  Forall upper_methods group ->
  dict_get (foldl (fun d r => add_methods d (own_methods r) r) [] group) m = head (filter (fun r => m ∈ own_methods r) group).
Proof.
  intros Hu.
  assert (Hg : ∀ d, dict_get (foldl (fun d r => add_methods d (own_methods r) r) d group) m
    = match dict_get d m with Some x => Some x | None => head (filter (fun r => m ∈ own_methods r) group) end).
  { induction Hu as [|r group Hr _ IH]; intros d; simpl; [by destruct (dict_get d m)|].
    rewrite IH, add_methods_get. destruct (dict_get d m); [done|].
    assert (Hiff : m ∈ str_upper <$> own_methods r ↔ m ∈ own_methods r).
    { rewrite list_elem_of_fmap. split; [intros (y & -> & Hy); by rewrite (own_methods_upper r y)|].
      intros Hm. exists m. by rewrite (own_methods_upper r m). }
    rewrite filter_cons. case_bool_decide as Hb; case_decide as Hd; try tauto. }
  apply Hg.
Qed.

Lemma method_shim_map_get group m :
  Forall upper_methods group ->
  dict_get (_method_shim_map group) m
  = match head (filter (fun r => m ∈ own_methods r) group) with
    | Some r => Some r
    | None => if bool_decide (m = $"HEAD") then head (filter (fun r => $"GET" ∈ own_methods r) group) else None
    end.
Proof.
  intros Hu. unfold _method_shim_map. rewrite first_with_method by done.
  set (d := foldl _ _ _). pose proof (first_with_method group m Hu) as Hm. fold d in Hm. rewrite <-Hm.
  destruct (head (filter (fun r => $"GET" ∈ own_methods r) group)) as [g|].
  - rewrite dict_get_setdefault. case_decide as E.
    + subst. unfold dict_getdefault. by destruct (dict_get d $"HEAD").
    + rewrite bool_decide_false by done. by destruct (dict_get d m).
  - by destruct (dict_get d m), (bool_decide (m = $"HEAD")).
Qed.

Section table.
Context (fx : Facts) (app : AstraAPI).

Definition path_entry (all : list APIRoute) (r : APIRoute) : entry :=
  let group := _path_group all (path r) in
  if (1 <? length group)%nat then group_entry r group else route_entry fx app r.

Lemma path_entry_path all r : en_path (path_entry all r) = path r.
Proof. unfold path_entry. by destruct (1 <? _)%nat. Qed.

(** With distinct objects the loop registers every path once, with its first
    route. *)
Fixpoint register_first (all todo : list APIRoute) (seen : list str) : list entry :=
  match todo with
  | [] => []
  | r :: todo' =>
      if bool_decide (path r ∈ seen) then register_first all todo' seen
      else path_entry all r :: register_first all todo' (path r :: seen)
  end.

Lemma register_first_ext all todo seen seen' :
  (∀ p, p ∈ seen ↔ p ∈ seen') -> register_first all todo seen = register_first all todo seen'.
Proof.
  revert seen seen'. induction todo as [|r todo IH]; intros seen seen' Hs; simpl; [done|].
  rewrite (bool_decide_ext (path r ∈ seen) (path r ∈ seen')) by done.
  case_bool_decide; [by apply IH|]. f_equal. apply IH. set_solver.
Qed.

Lemma group_objects (all : list (Z * APIRoute)) p :
  (filter (fun x => path x.2 = p) all).*2 = _path_group all.*2 p.
Proof.
  unfold _path_group. induction all as [|x all IH]; [done|]. rewrite fmap_cons, !filter_cons.
  case_decide; [rewrite fmap_cons|]; by rewrite IH.
Qed.

Lemma register_routes_first pre todo :
  NoDup (pre ++ todo).*1 ->
  register_routes fx app (pre ++ todo) todo = register_first (pre ++ todo).*2 todo.*2 (path <$> pre.*2).
Proof.
  revert pre. induction todo as [|[id r] todo IH]; intros pre Hnd; [done|]. cbn [register_routes].
  rewrite group_objects, fmap_cons. cbn [register_first].
  assert (Hrest : register_routes fx app (pre ++ (id, r) :: todo) todo
    = register_first (pre ++ (id, r) :: todo).*2 todo.*2 (path <$> pre.*2 ++ [r])).
  { rewrite (cons_middle (id, r) pre todo), app_assoc in Hnd |- *. rewrite (IH (pre ++ [(id, r)]) Hnd).
    by rewrite (fmap_app snd pre). }
  rewrite Hrest. clear Hrest IH. destruct (decide (path r ∈ path <$> pre.*2)) as [Hp|Hp].
  - rewrite (bool_decide_true (path r ∈ _)) by done.
    apply list_elem_of_fmap in Hp as (r0 & Hp & ([id0 r1] & -> & Hin)%list_elem_of_fmap). simpl in Hp.
    apply list_elem_of_split in Hin as (l1 & l2 & Hl).
    destruct (filter (fun x => path x.2 = path r) pre) as [|y ys] eqn:Ef.
    { exfalso. assert ((id0, r1) ∈ filter (fun x => path x.2 = path r) pre) as Hx.
      { apply list_elem_of_filter. subst pre. set_solver. }
      rewrite Ef in Hx. by apply elem_of_nil in Hx. }
    assert (Hy : y ∈ pre) by (eapply list_elem_of_filter; rewrite Ef; set_solver).
    assert (Hne : y.1 ≠ id).
    { intros <-. rewrite fmap_app in Hnd. apply NoDup_app in Hnd as (_ & Hd & _). apply (Hd y.1); [|set_solver].
      by apply list_elem_of_fmap_2. }
    rewrite filter_app, Ef. rewrite bool_decide_false by (simpl; congruence).
    assert (Hlen : (1 <? length (_path_group (pre ++ (id, r) :: todo).*2 (path r)))%nat = true).
    { apply Nat.ltb_lt. rewrite <-group_objects, length_fmap, filter_app, Ef, filter_cons, decide_True by done.
      rewrite length_app. simpl. lia. }
    rewrite Hlen. simpl. apply register_first_ext. intros p. rewrite fmap_app, elem_of_app.
    change (path <$> [r]) with [path r]. rewrite list_elem_of_singleton. split; [|by left].
    intros [Hq|Hq]; [done|]. rewrite Hq, Hp. subst pre. rewrite !fmap_app. set_solver.
  - rewrite (bool_decide_false (path r ∈ _)) by done.
    rewrite filter_app. assert (Ef : filter (fun x => path x.2 = path r) pre = []).
    { destruct (filter _ pre) as [|y ys] eqn:Ef; [done|]. exfalso. apply Hp.
      assert (Hy : y ∈ filter (fun x => path x.2 = path r) pre) by (rewrite Ef; set_solver).
      apply list_elem_of_filter in Hy as [<- Hy]. apply list_elem_of_fmap_2, list_elem_of_fmap_2, Hy. }
    rewrite Ef, filter_cons, decide_True by done. rewrite (bool_decide_true (_ = Some id)) by done.
    rewrite andb_false_r. f_equal. apply register_first_ext. intros p. rewrite fmap_app. set_solver.
Qed.

(** One entry per path, where its first route is. *)
Lemma register_filter all todo seen p :
  filter (fun e => en_path e = p) (register_first all todo seen)
  = if decide (p ∈ seen) then [] else path_entry all <$> option_list (head (filter (fun r => path r = p) todo)).
Proof.
  revert seen. induction todo as [|r todo IH]; intros seen; simpl; [by case_decide|].
  rewrite (filter_cons _ r todo). case_bool_decide as Hs.
  - rewrite IH. case_decide; [done|]. by rewrite decide_False by congruence.
  - rewrite filter_cons, IH, path_entry_path.
    destruct (decide (path r = p)) as [<-|Hne]; simpl.
    + rewrite decide_True by set_solver. by rewrite decide_False.
    + destruct (decide (p ∈ seen)); [by rewrite decide_True by set_solver|]. by rewrite decide_False by set_solver.
Qed.

Lemma served_group rs p m :
  served rs p m
  = match head (filter (fun r => m ∈ own_methods r) (_path_group rs p)) with
    | Some r => Some r
    | None => if bool_decide (m = $"HEAD") then head (filter (fun r => $"GET" ∈ own_methods r) (_path_group rs p)) else None
    end.
Proof. unfold served, declared, _path_group. by rewrite !list_filter_filter. Qed.

Lemma head_filter_elem {A} (P : A -> Prop) `{∀ x, Decision (P x)} (l : list A) x : head (filter P l) = Some x -> P x ∧ x ∈ l.
Proof.
  intros Hh. apply (list_elem_of_filter P). destruct (filter P l); simplify_eq/=. set_solver.
Qed.

Lemma head_filter_none {A} (P : A -> Prop) `{∀ x, Decision (P x)} (l : list A) x : head (filter P l) = None -> x ∈ l -> ~ P x.
Proof.
  intros Hh Hx HP. assert (Hin : x ∈ filter P l) by (by apply list_elem_of_filter).
  destruct (filter P l); [by apply not_elem_of_nil in Hin|done].
Qed.

(** An entry leads where the declarations say. *)
Lemma path_entry_serves rs r m :
  Forall upper_methods rs -> r ∈ rs -> head (_path_group rs (path r)) = Some r ->
  entry_serves (path_entry rs r) m = served rs (path r) m.
Proof.
  intros Hu Hr Hh. rewrite served_group. unfold path_entry.
  assert (Hg : Forall upper_methods (_path_group rs (path r))) by (apply Forall_forall; intros x [_ Hx]%list_elem_of_filter; by eapply Forall_forall in Hu).
  destruct (1 <? length (_path_group rs (path r)))%nat eqn:El; unfold entry_serves; simpl.
  - rewrite method_shim_map_get by done. case_bool_decide as Hm; [done|].
    assert (Hno : ∀ x, x ∈ _path_group rs (path r) -> m ∉ with_head (own_methods x)).
    { intros x Hx Hmx. apply Hm. unfold group_methods. apply elem_of_sorted_set, list_elem_of_bind. eauto. }
    destruct (head (filter _ _)) as [x|] eqn:Ex.
    { apply head_filter_elem in Ex as [Hx Hin]. exfalso. apply (Hno x Hin), elem_of_with_head. auto. }
    case_bool_decide as Eh; [|done]. subst m.
    destruct (head (filter (fun r => $"GET" ∈ own_methods r) _)) as [x|] eqn:Eg; [|done].
    apply head_filter_elem in Eg as [Hx Hin]. exfalso. apply (Hno x Hin), elem_of_with_head. auto.
  - assert (_path_group rs (path r) = [r]) as ->.
    { apply Nat.ltb_ge in El. destruct (_path_group rs (path r)) as [|x [|y l]]; simplify_eq/=; [done|lia]. }
    rewrite !filter_cons. case_bool_decide as Hm; rewrite elem_of_with_head in Hm.
    + destruct (decide (m ∈ own_methods r)); [done|]. simpl. destruct Hm as [|[-> Hget]]; [done|].
      rewrite bool_decide_true by done. by rewrite decide_True.
    + rewrite decide_False by tauto. simpl. case_bool_decide; [|done]. rewrite decide_False; [done|]. tauto.
Qed.

Definition api_entry (e : entry) : bool := match en_target e with OneRoute _ _ | Group _ => true | _ => false end.

Lemma register_elem all todo seen e :
  e ∈ register_first all todo seen -> ∃ r, r ∈ todo ∧ e = path_entry all r ∧ head (filter (fun x => path x = path r) todo) = Some r.
Proof.
  intros He. assert (Hin : e ∈ filter (fun x => en_path x = en_path e) (register_first all todo seen)).
  { by apply list_elem_of_filter. }
  rewrite register_filter in Hin. case_decide; [by apply not_elem_of_nil in Hin|].
  destruct (head _) as [r|] eqn:Eh; simpl in Hin; [|by apply not_elem_of_nil in Hin].
  apply list_elem_of_singleton in Hin as ->. rewrite path_entry_path in Eh.
  apply head_filter_elem in Eh as Hr. destruct Hr as [_ Hr]. eauto.
Qed.

Lemma other_not_api routes e : e ∈ other_entries routes -> api_entry e = false.
Proof.
  unfold other_entries. rewrite !elem_of_app, !list_elem_of_bind.
  intros [(rt & He & _)|[(rt & He & _)|(rt & He & _)]]; destruct rt; simpl in He;
    try (by apply not_elem_of_nil in He); apply list_elem_of_In in He; simpl in He; intuition; by subst.
Qed.

Lemma path_entry_api all r : api_entry (path_entry all r) = true.
Proof. unfold path_entry. by destruct (1 <? _)%nat. Qed.

(** The entries of API routes are those of the first route of each path. *)
Definition distinct_objects (rs : list APIRoute) : Prop := NoDup (route_objects fx rs).*1.

Lemma route_objects_routes rs : (route_objects fx rs).*2 = rs.
Proof.
  unfold route_objects. apply list_eq. intros i. rewrite list_lookup_fmap, list_lookup_imap. by destruct (rs !! i).
Qed.

Lemma body_api_entry routes e :
  distinct_objects (api_routes routes) -> api_entry e = true ->
  e ∈ _sync_routes_to_core_body fx app routes
  ↔ fx_refused fx (en_path e) = false
    ∧ ∃ r, e = path_entry (api_routes routes) r ∧ head (_path_group (api_routes routes) (path r)) = Some r.
Proof.
  intros Hd Ha. unfold _sync_routes_to_core_body. rewrite list_elem_of_filter, elem_of_app.
  pose proof (register_routes_first [] (route_objects fx (api_routes routes)) Hd) as Hf.
  rewrite app_nil_l, route_objects_routes in Hf. rewrite Hf. clear Hf. set (rs := api_routes routes). split.
  - intros [Hr [He|He]]; [|apply other_not_api in He; congruence]. split; [done|].
    apply register_elem in He as (r & _ & -> & Hh). eauto.
  - intros [Hr (r & -> & Hh)]. split; [done|]. left.
    assert (Hin : path_entry rs r ∈ filter (fun e => en_path e = path r) (register_first rs rs [])).
    { rewrite register_filter, decide_False by apply not_elem_of_nil. unfold _path_group in Hh. rewrite Hh. set_solver. }
    by apply list_elem_of_filter in Hin as [_ Hin].
Qed.

(** The parameters are those of the route that is called, HEAD apart. *)
Lemma route_map_get group m :
  Forall upper_methods group ->
  dict_get (_route_map group) m
  = head (filter (fun r => m ∈ own_methods r ∨ m = $"HEAD" ∧ $"GET" ∈ own_methods r) group).
Proof.
  intros Hu. unfold _route_map.
  assert (Hg : ∀ d : list (str * APIRoute),
    dict_get (foldl (fun d r => let d := add_methods d (own_methods r) r in
                                if bool_decide ($"GET" ∈ own_methods r) then dict_setdefault d $"HEAD" r else d) d group) m
    = match dict_get d m with
      | Some x => Some x
      | None => head (filter (fun r => m ∈ own_methods r ∨ m = $"HEAD" ∧ $"GET" ∈ own_methods r) group)
      end).
  { induction Hu as [|r group Hr _ IH]; intros d; [simpl; by destruct (dict_get d m)|]. cbn [foldl].
    rewrite IH, filter_cons.
    assert (Hiff : m ∈ str_upper <$> own_methods r ↔ m ∈ own_methods r).
    { rewrite list_elem_of_fmap. split; [intros (y & -> & Hy); by rewrite (own_methods_upper r y)|].
      intros Hm. exists m. by rewrite (own_methods_upper r m). }
    assert (Hadd : dict_get (add_methods d (own_methods r) r) m
      = match dict_get d m with Some x => Some x | None => if decide (m ∈ own_methods r) then Some r else None end).
    { rewrite add_methods_get. destruct (dict_get d m); [done|].
      destruct (decide (m ∈ own_methods r)); [rewrite bool_decide_true by (by apply Hiff)|rewrite bool_decide_false by (by rewrite Hiff)]; done. }
    assert (Hstep : dict_get (if bool_decide ($"GET" ∈ own_methods r)
        then dict_setdefault (add_methods d (own_methods r) r) $"HEAD" r else add_methods d (own_methods r) r) m
      = match dict_get d m with
        | Some x => Some x
        | None => if decide (m ∈ own_methods r ∨ m = $"HEAD" ∧ $"GET" ∈ own_methods r) then Some r else None
        end).
    { case_bool_decide as Hget; [rewrite dict_get_setdefault; unfold dict_getdefault|].
      - destruct (decide ($"HEAD" = m)) as [<-|Hne]; rewrite Hadd; destruct (dict_get d _); try done.
        + rewrite (decide_True (P := _ ∨ _)) by tauto. by destruct (decide _).
        + assert (m ≠ $"HEAD") by congruence. destruct (decide (m ∈ own_methods r)); [by rewrite decide_True by tauto|by rewrite decide_False by tauto].
      - rewrite Hadd. destruct (dict_get d m); [done|].
        destruct (decide (m ∈ own_methods r)); [by rewrite decide_True by tauto|by rewrite decide_False by tauto]. }
    cbn zeta. rewrite Hstep. destruct (dict_get d m); [done|]. by repeat case_decide. }
  apply (Hg []).
Qed.

Lemma read_from_group rs p m :
  Forall upper_methods rs -> dict_get (_route_map (_path_group rs p)) m = read_from rs p m.
Proof.
  intros Hu. rewrite route_map_get.
  2: { apply Forall_forall. intros x [_ Hx]%list_elem_of_filter. by eapply Forall_forall in Hu. }
  unfold read_from, declared, _path_group. rewrite list_filter_filter. case_bool_decide; f_equal; apply list_filter_iff;
    intros r; naive_solver.
Qed.

(** A route that is called has one whose parameters are read. *)
Lemma served_read_from rs p m r : served rs p m = Some r -> is_Some (read_from rs p m).
Proof.
  unfold served, read_from. case_bool_decide as Hm; [subst m|by destruct (declared rs p m)].
  intros Hs. assert (Hr : ($"HEAD" ∈ own_methods r ∨ $"GET" ∈ own_methods r) ∧ path r = p ∧ r ∈ rs).
  { destruct (declared rs p $"HEAD") as [r'|] eqn:E; unfold declared in E, Hs; simplify_eq.
    - apply head_filter_elem in E. naive_solver.
    - apply head_filter_elem in Hs. naive_solver. }
  destruct (head (filter _ rs)) eqn:E; [done|]. exfalso. eapply (head_filter_none _ rs r E); tauto.
Qed.
End table.

(** C35: The table of the core serves the routes as they are declared, provided
    that no route object is listed twice.  Registration happens once: a second
    synchronisation changes nothing.  Every path of an API route that the core
    accepts has exactly one entry, and for every method the entry leads to the
    first declared route with this path and method, HEAD to the first route with
    GET where none declares it, although routes that share a path are registered
    together.  The dispatcher of such a group answers methods nobody declared with
    405, and calls the wrapper of the route found with the arguments of that route
    only and its validated body; for HEAD, with the arguments and body of the first
    route that has HEAD or GET, which is another one where a route declares HEAD
    after a route with GET. *)
Theorem sync_serves_declared fx app routes :
  Forall upper_methods (api_routes routes) -> distinct_objects fx (api_routes routes) ->
  let rs := api_routes routes in
  let s := _sync_routes_to_core fx app routes (mkSync false []) in
  _sync_routes_to_core fx app routes s = s
  ∧ (∀ e m, e ∈ core_table s -> api_entry e = true -> entry_serves e m = served rs (en_path e) m)
  ∧ (∀ r, r ∈ rs -> fx_refused fx (path r) = false ->
       ∃ e, ∀ e', e' ∈ core_table s ∧ api_entry e' = true ∧ en_path e' = path r ↔ e' = e)
  ∧ (∀ R py json_loads (call : APIRoute -> kwargs -> R + exn) not_allowed invalid p kw m,
       dict_get kw $"__method__" = Some (VStr m) ->
       let kept r := filter (fun kv => kv.1 ∈ _INTERNAL ∨ kv.1 ∈ known_names r) kw in
       let answer := _group_dispatcher fx py json_loads call not_allowed invalid (_path_group rs p) kw in
       match served rs p (str_upper m) with
       | None => answer = inl not_allowed
       | Some r =>
           ∃ r', read_from rs p (str_upper m) = Some r' ∧ (str_upper m ≠ $"HEAD" -> r' = r)
           ∧ answer = match group_body fx py json_loads r' (opt_value (dict_get (kept r') $"__body__")) with
                      | Raise e => inr e
                      | Ok (Some errors, _) => inl (invalid errors)
                      | Ok (None, vs) => call r (dict_update (pop_keys [$"__body__"; $"__content_type__"] (kept r')) vs)
                      end
       end).
Proof.
  intros Hu Hd rs s. split_and!.
  - reflexivity.
  - intros e m He Ha. apply (body_api_entry fx app routes e Hd Ha) in He as (_ & r & -> & Hh).
    rewrite path_entry_path. apply path_entry_serves; [done| |done].
    apply head_filter_elem in Hh. tauto.
  - intros r Hr Hok. destruct (head (_path_group rs (path r))) as [r0|] eqn:Eh.
    2: { exfalso. by apply (head_filter_none _ _ r Eh Hr). }
    pose proof (head_filter_elem _ _ _ Eh) as [Hp0 _]. simpl in Hp0.
    exists (path_entry fx app rs r0). intros e'. split.
    + intros (He & Ha & Hp). apply (body_api_entry fx app routes e' Hd Ha) in He as (_ & r1 & -> & Hh).
      rewrite path_entry_path in Hp. fold rs in Hh. rewrite Hp, Eh in Hh. by simplify_eq.
    + intros ->. split_and!; [|apply path_entry_api|by rewrite path_entry_path].
      apply body_api_entry; [done|apply path_entry_api|]. rewrite path_entry_path. split; [congruence|].
      exists r0. split; [done|]. rewrite Hp0. done.
  - intros R py json_loads call na inv p kw m Hm kept answer.
    assert (Hg : Forall upper_methods (_path_group rs p)).
    { apply Forall_forall. intros x [_ Hx]%list_elem_of_filter. by eapply Forall_forall in Hu. }
    subst answer. unfold _group_dispatcher. rewrite Hm, method_shim_map_get, read_from_group, <-served_group by done.
    destruct (served rs p (str_upper m)) as [r|] eqn:Es; [|done].
    destruct (served_read_from _ _ _ _ Es) as [r' Hr']. rewrite Hr'. exists r'. split_and!; [done| |done].
    intros Hh. unfold read_from in Hr'. unfold served in Es. rewrite bool_decide_false in Hr' by done.
    rewrite Hr' in Es. congruence.
Qed.

(** ** Concrete routes *)
Module SampleSync.
Definition program : Program :=
  mkProgram (fun _ => Function Sync) (fun _ => []) (fun _ => []) (fun _ => 0) (fun _ => []) true.

Definition facts : Facts := mkFacts program (fun _ => true) (fun _ => false) (fun _ => []) (fun _ => false) Z.of_nat.

Definition application : AstraAPI :=
  mkApp 1 [] [] None None None None [] [] None None None None false default_handlers [].

Definition field (c : info_class) (a : ann) (name : string) : ModelField := mkField (mkInfo c None a None None None None None false) ($name).

Definition sample (ep : Z) (p : str) (ms : list str) (query body : list ModelField) : APIRoute :=
  let d := mkDependant (mkDepInfo None ep None None true p None) (mkParams [] query [] [] body) no_names [] in
  mkAPIRoute p ep None None [] None None (mkOptions None None true false false false) true (DefaultPlaceholder 0) None None None
    (DefaultPlaceholder 0) [] [] [] (mkCompiled [] p p []) ms [] None None [] [] [] d d false (head body).

Definition q : ModelField := field QueryI (Cls IntC) "q".
Definition verbose : ModelField := field QueryI (Cls BoolC) "verbose".
Definition items : ModelField := field BodyI (Generic ListC [Cls IntC]) "items".

Definition read : APIRoute := sample 1 $"/items" [$"GET"] [q] [].
Definition create : APIRoute := sample 2 $"/items" [$"POST"] [] [items].
Definition probe : APIRoute := sample 3 $"/items" [$"HEAD"] [verbose] [].
Definition other : APIRoute := sample 4 $"/other" [$"GET"] [] [].

Definition routes : list any_route := ApiRoute <$> [read; other; create].

(** The endpoint called and the names of its arguments, the errors, or 405. *)
Inductive answer : Type := Called (ep : Z) (names : list str) | Refused (errors : list error) | NotAllowed.

Definition pydantic : Pydantic := mkPydantic (fun _ v => Valid v) (fun _ => None).

(** JSON: a list, a dictionary, or no JSON. *)
Definition loads (b : bytes) : result value :=
  if bool_decide (b = $"[1]") then Ok (VSeq KList [VInt 1])
  else if bool_decide (b = $"{}") then Ok (VDict []) else Raise (ValueError $"no JSON").

Definition dispatch (group : list APIRoute) (kw : kwargs) : answer + exn :=
  _group_dispatcher facts pydantic loads (fun r kw => inl (Called (endpoint r) kw.*1)) NotAllowed Refused group kw.
End SampleSync.

Import SampleSync.

Lemma sync_serves_declared_witness :
  let s := _sync_routes_to_core facts application routes (mkSync false []) in
  (en_path <$> core_table s) = [$"/items"; $"/other"]
  ∧ (∀ e, e ∈ core_table s -> api_entry e = true -> entry_serves e $"POST" = served [read; other; create] (en_path e) $"POST")
  ∧ served [read; other; create] $"/items" $"POST" = Some create.
Proof.
  intros s. split_and!; [vm_compute; reflexivity| |vm_compute; reflexivity].
  destruct (sync_serves_declared facts application routes) as (_ & H & _); [|repeat constructor; set_solver|].
  - apply Forall_forall. intros r Hr m Hm.
    apply list_elem_of_In in Hr as [<-|[<-|[<-|[]]]]; apply list_elem_of_In in Hm as [<-|[]]; reflexivity.
  - intros e. apply H.
Defined.

(** Where a route of the group declares HEAD after one with GET, its endpoint
    is called with the parameters of the other. *)
Example head_gets_other_parameters :
  dispatch [read; probe] [($"__method__", VStr $"HEAD"); ($"verbose", VStr $"1"); ($"q", VStr $"5")]
  = inl (Called 3 [$"__method__"; $"q"]).
Proof. vm_compute. reflexivity. Qed.

(** A route object that is listed twice is registered twice. *)
Example object_listed_twice :
  let facts := mkFacts program (fun _ => true) (fun _ => false) (fun _ => []) (fun _ => false) (fun _ => 0) in
  (en_path <$> _sync_routes_to_core_body facts application (ApiRoute <$> [read; read])) = [$"/items"; $"/items"].
Proof. vm_compute. reflexivity. Qed.

(** A body that is a list, or no JSON at all, is dropped, and the endpoint is
    called without it. *)
Example group_body_dropped :
  dispatch [read; create] [($"__method__", VStr $"POST"); ($"__body__", VBytes $"[1]")] = inl (Called 2 [$"__method__"])
  ∧ dispatch [read; create] [($"__method__", VStr $"POST"); ($"__body__", VBytes $"oops")] = inl (Called 2 [$"__method__"]).
Proof. split; vm_compute; reflexivity. Qed.
