(* ===== verification/ServerStart.v ===== *)
(** * ServerStart: the two ways the compiled server is started

    [_create_server] and the start of [run_server] in [_cpp_server.py]: what
    they tell the core and the module about an application (body limit,
    exception handlers, middleware, URLs, the OpenAPI document), and the
    functions they register for it.  The core is represented by the list of the
    calls it accepted; what it has and refuses is a parameter.  Not kept: the
    map of WebSocket applications, the state a lifespan yields, the flag of the
    rate limiter, sockets, process limits and garbage collection. *)

From S2P Require Import Prelude PyStr Asgi MutableHeaders Responses DataStructures ExceptionHandler Convertors HttpWire Routing Annotations Dependants.
From S2P Require Import Middleware ExceptionHandler Handler ApiRouting OpenApi OpenApiFacts Applications Encoders Docs DocsServer SyncRoutes.
Import ExceptionHandler.Exceptions.

(** ** Middleware descriptors *)

(** The values of keyword arguments. *)
Inductive kwarg : Type :=
  | KNone
  | KBool (b : bool)
  | KInt (z : Z)
  | KStr (s : str)
  | KStrs (l : list str)
  | KFun (f : Z).

#[global] Instance kwarg_eq_dec : EqDecision kwarg.
Proof. solve_decision. Defined.

(** What is registered for [@app.middleware("http")] and for [GZipMiddleware]. *)
Inductive dispatcher : Type :=
  | UserDispatch (f : kwarg)
  | GzipDispatch (minimum level : kwarg).

(** A handler, or the handler of validation errors that adds the endpoint. *)
Inductive handler_ref : Type := Registered (h : Z) | WithContext (h : Z).

(** The arguments of [configure_cors]. *)
Record cors_args : Type := mkCorsArgs {
  ca_origins : kwarg;
  ca_origin_regex : kwarg;
  ca_methods : kwarg;
  ca_headers : kwarg;
  ca_credentials : kwarg;
  ca_expose_headers : kwarg;
  ca_max_age : kwarg
}.

(** ** The core *)
Inductive core_call : Type :=
  | SetMaxBodySize (n : Z)
  | SetTypeExceptionHandlers (hs : list (str * handler_ref))
  | SetHasHttpMiddleware (b : bool)
  | SetHttpsRedirect
  | ConfigureTrustedHosts (hosts : kwarg)
  | ConfigureCors (a : cors_args)
  | ConfigureRateLimit (max_requests window : kwarg)
  | SetPostResponseHook
  | FreezeRoutes
  | Warmup
  | SetSwaggerUiParameters (text : str)
  | SetUrls (openapi docs redoc oauth2 : str)
  | SetOpenapiSchema (text : str).

(** The state of the module and of the application: the calls the core
    accepted, the handlers and middleware of the asynchronous paths, the flags
    that make the server read the request (that of the module and that of the
    application, which connections go by), the registered routes, and the
    documentation. *)
Record server : Type := mkServer {
  core : list core_call;
  _app_exc_handlers : list (handler_key * handler_ref);
  _app_status_handlers : list (Z * handler_ref);
  _http_middleware_dispatchers : list dispatcher;
  needs_request_context : bool;
  core_app_needs_req_ctx : bool;
  sync : sync_state;
  docs : docs_state;
  _server_root_path : str
}.

Definition with_core (s : server) (l : list core_call) : server :=
  mkServer l (_app_exc_handlers s) (_app_status_handlers s) (_http_middleware_dispatchers s) (needs_request_context s)
    (core_app_needs_req_ctx s) (sync s) (docs s) (_server_root_path s).
Definition with_docs (s : server) (d : docs_state) (root : str) : server :=
  mkServer (core s) (_app_exc_handlers s) (_app_status_handlers s) (_http_middleware_dispatchers s)
    (needs_request_context s) (core_app_needs_req_ctx s) (sync s) d root.
Definition with_sync (s : server) (y : sync_state) (needs app_needs : bool) : server :=
  mkServer (core s) (_app_exc_handlers s) (_app_status_handlers s) (_http_middleware_dispatchers s)
    needs app_needs y (docs s) (_server_root_path s).
Definition _set_app_exception_handlers (excs : list (handler_key * handler_ref)) (codes : list (Z * handler_ref))
    (s : server) : server :=
  mkServer (core s) excs codes (_http_middleware_dispatchers s) (needs_request_context s) (core_app_needs_req_ctx s)
    (sync s) (docs s) (_server_root_path s).
Definition _set_http_middleware_dispatchers (ds : list dispatcher) (s : server) : server :=
  mkServer (core s) (_app_exc_handlers s) (_app_status_handlers s) ds
    (match ds with [] => needs_request_context s | _ => true end) (core_app_needs_req_ctx s)
    (sync s) (docs s) (_server_root_path s).

Definition default_http_handler : Z := -1.
Definition default_validation_handler : Z := -2.

Section start.
(** The core: the methods it has, and the exceptions of its calls. *)
Context (has : str -> bool) (core_raises : core_call -> option exn).
Context (fx : Facts) (mw_kwargs : Z -> list (str * kwarg)).
Context (app : AstraAPI) (dapp : docs_app) (routes webhooks : list any_route).
(** The document and its text, the heap of the parameters of Swagger UI. *)
Context (w : World) (D : Docs) (depth : nat) (info : Info) (get_definitions : list any_field -> ddict).
Context (to_json_bytes : ddict -> result bytes) (doc_text : ddict -> result str).
Context (h : heap) (object_text : Z -> result str) (limit : nat).

(** A call that may raise, one inside [try], and a sequence of them. *)
Definition call_core (name : str) (c : core_call) (s : server) : result server :=
  if has name then
    match core_raises c with
    | None => Ok (with_core s (core s ++ [c]))
    | Some e => Raise e
    end
  else Ok s.

Definition try_core (name : str) (c : core_call) (s : server) : server :=
  match call_core name c s with Ok s' => s' | Raise _ => s end.

(** [_sync_routes_to_core]; the flags are set with the routes. *)
Definition sync_routes (s : server) : server :=
  if _routes_synced (sync s) then s
  else
    let needs := _needs_request_context fx app routes in
    with_sync s (_sync_routes_to_core fx app routes (sync s)) needs needs.

(** ** What both starts read from the middleware *)
Definition cls_name (m : Z) : str := fx_middleware_name fx m.
Definition kw (m : Z) (key : str) (dflt : kwarg) : kwarg := get_or (dict_get (mw_kwargs m) key) dflt.

(** The loops stop at the first middleware of the class. *)
Definition first_middleware (name : str) : option Z :=
  snd <$> list_find (fun m => cls_name m = name) (user_middleware app).

Definition cors_args_of (m : Z) : cors_args :=
  mkCorsArgs (kw m $"allow_origins" (KStrs [])) (kw m $"allow_origin_regex" KNone)
    (kw m $"allow_methods" (KStrs [$"GET"])) (kw m $"allow_headers" (KStrs [])) (kw m $"allow_credentials" (KBool false))
    (kw m $"expose_headers" (KStrs [])) (kw m $"max_age" (KInt 600)).

Definition sync_cors (s : server) : server :=
  match first_middleware $"CORSMiddleware" with
  | Some m => try_core $"configure_cors" (ConfigureCors (cors_args_of m)) s
  | None => s
  end.

(** ** [_create_server] *)

(** The body limit: the argument or the environment variable. *)
Definition set_body_limit (max_body_size : Z) (env_max : option str) (s : server) : result server :=
  let! env_limit := py_int (get_or env_max $"0") in
  let limit := if (max_body_size =? 0)%Z then env_limit else max_body_size in
  if (0 <? limit)%Z then call_core $"set_max_body_size" (SetMaxBodySize limit) s else Ok s.

(** Exception handlers: all of them for the asynchronous paths; those for
    classes, less the default ones, for the core. *)
Definition all_handlers : list (handler_key * handler_ref) :=
  (fun kv => (kv.1, Registered kv.2)) <$> exception_handlers app.
Definition status_handlers : list (Z * handler_ref) :=
  omap (fun kv => match kv.1 with ExcMiddleware.Status c => Some (c, Registered kv.2) | ExcMiddleware.Class _ => None end)
    (exception_handlers app).
Definition is_default_handler (v : Z) : bool :=
  (v =? default_http_handler)%Z || (v =? default_validation_handler)%Z.
Definition type_handlers : list (str * Z) :=
  omap (fun kv => match kv.1 with
                  | ExcMiddleware.Class c => if is_default_handler kv.2 then None else Some (c, kv.2)
                  | ExcMiddleware.Status _ => None
                  end) (exception_handlers app).

Definition RVE : str := $"RequestValidationError".

Definition register_handlers (s : server) : result server :=
  let s := _set_app_exception_handlers all_handlers status_handlers s in
  match type_handlers with
  | [] => Ok s
  | _ =>
      if has $"set_type_exception_handlers" then
        let refs := (fun kv => (kv.1, Registered kv.2)) <$> type_handlers in
        match dict_get type_handlers RVE with
        | Some orig =>
            let s := _set_app_exception_handlers
                       (dict_set (_app_exc_handlers s) (ExcMiddleware.Class RVE) (WithContext orig))
                       (_app_status_handlers s) s in
            call_core $"set_type_exception_handlers"
              (SetTypeExceptionHandlers (dict_set refs RVE (WithContext orig))) s
        | None => call_core $"set_type_exception_handlers" (SetTypeExceptionHandlers refs) s
        end
      else Ok s
  end.

(** The functions run after the endpoint, in the order of the middleware. *)
Definition dispatcher_of (m : Z) : option dispatcher :=
  if bool_decide (cls_name m = $"BaseHTTPMiddleware") then
    match kw m $"dispatch" KNone with KNone => None | f => Some (UserDispatch f) end
  else if bool_decide (cls_name m = $"GZipMiddleware") then
    Some (GzipDispatch (kw m $"minimum_size" (KInt 500)) (kw m $"compresslevel" (KInt 9)))
  else None.
Definition http_dispatchers : list dispatcher := omap dispatcher_of (user_middleware app).

Definition register_dispatchers (s : server) : result server :=
  call_core $"set_has_http_middleware" (SetHasHttpMiddleware (negb (bool_decide (length http_dispatchers = 0%nat))))
    (_set_http_middleware_dispatchers http_dispatchers s).

Definition sync_https (s : server) : server :=
  match first_middleware $"HTTPSRedirectMiddleware" with
  | Some _ => try_core $"set_https_redirect" SetHttpsRedirect s
  | None => s
  end.

Definition sync_hosts (s : server) : server :=
  match first_middleware $"TrustedHostMiddleware" with
  | Some m => try_core $"configure_trusted_hosts" (ConfigureTrustedHosts (kw m $"allowed_hosts" (KStrs [$"*"]))) s
  | None => s
  end.

(** [json.dumps] of a value as it is: dictionaries, lists and tuples of
    scalars; anything else is left to [object_text]. *)
Fixpoint raw_json (depth : nat) (x : obj) : json :=
  match depth, x with
  | S depth', ORef id =>
      match h !! id with
      | Some ob =>
          match ob_node ob with
          | NDict items => JDict ((fun kv => (raw_json depth' kv.1, raw_json depth' kv.2)) <$> items)
          | NSeq items => if is_instance (ob_mro ob) [$"list"; $"tuple"] then JList (raw_json depth' <$> items) else JObj id
          | _ => JObj id
          end
      | None => JObj id
      end
  | _, _ => of_obj x
  end.

Definition core_default_parameters : list (str * obj) :=
  [($"layout", OStr $"BaseLayout"); ($"deepLinking", OBool true); ($"showExtensions", OBool true);
   ($"showCommonExtensions", OBool true)].

(** The parameters of Swagger UI as the core writes them into its page. *)
Definition core_parameter_line (kv : str * obj) : result str :=
  let! v := json_dumps object_text default_dump (raw_json limit kv.2) in
  Ok (quoted "~" ++ kv.1 ++ quoted "~: " ++ v ++ $",").

Definition core_parameters : result str :=
  let merged := dict_update core_default_parameters (get_or (DocsServer.swagger_ui_parameters dapp) []) in
  let! parts := rmapM core_parameter_line merged in
  Ok (match parts with [] => [] | _ => join [10%N] parts ++ [10%N] end).

Definition set_swagger_parameters (s : server) : result server :=
  if has $"set_swagger_ui_parameters" then
    let! text := core_parameters in
    Ok (try_core $"set_swagger_ui_parameters" (SetSwaggerUiParameters text) s)
  else Ok s.

(** Without a redirect address, or with [init_oauth], the page is left to the
    Python route. *)
Definition docs_by_python : bool :=
  match swagger_ui_init_oauth dapp with Some id => nonempty_dict h id | None => false end
  || negb (Applications.truthy (Applications.swagger_ui_oauth2_redirect_url app)).

Definition set_urls (s : server) : server :=
  let or_empty (o : option str) := get_or o [] in
  try_core $"set_urls"
    (SetUrls (or_text (or_empty (Applications.openapi_url app)) $"/openapi.json")
       (if docs_by_python then [] else or_empty (docs_url app))
       (or_empty (redoc_url app)) (or_empty (Applications.swagger_ui_oauth2_redirect_url app))) s.

(** The document is generated at the start; only a [ValueError] stops it. *)
Definition is_value_error (e : exn) : bool :=
  match e with
  | ValueError _ | UnicodeEncodeError | UnicodeDecodeError => true
  | UserException mro _ => bool_decide ($"ValueError" ∈ mro)
  | _ => false
  end.

Definition generate_schema (s : server) : server * result unit :=
  let '(d, r) := openapi w D depth info get_definitions routes webhooks to_json_bytes (docs s) in
  let s := with_docs s d (_server_root_path s) in
  match r with
  | Raise e => (s, Raise e)
  | Ok [] => (s, Ok tt)
  | Ok schema =>
      match doc_text schema with
      | Raise e => (s, Raise e)
      | Ok t =>
          match call_core $"set_openapi_schema" (SetOpenapiSchema t) s with
          | Ok s' => (s', Ok tt)
          | Raise e => (s, Raise e)
          end
      end
  end.

Definition set_schema (s : server) : result server :=
  if Applications.truthy (Applications.openapi_url app) && has $"set_openapi_schema" then
    match generate_schema s with
    | (s', Ok _) => Ok s'
    | (s', Raise e) => if is_value_error e then Raise e else Ok s'
    end
  else Ok s.

Definition _create_server (root : str) (max_body_size : Z) (env_max : option str) (s : server) : result server :=
  let '(d, server_root) := start_server dapp root (docs s) in
  let s := sync_routes (with_docs s d server_root) in
  let! s := set_body_limit max_body_size env_max s in
  let! s := register_handlers s in
  let! s := register_dispatchers s in
  let s := sync_cors (sync_hosts (sync_https s)) in
  let! s := call_core $"freeze_routes" FreezeRoutes s in
  let! s := call_core $"warmup" Warmup s in
  let! s := set_swagger_parameters s in
  set_schema (set_urls s).

(** ** [run_server] *)

(** Does a route need the request, by the test of [run_server]? *)
Definition run_route_needs_ctx (rt : any_route) : bool :=
  match rt with
  | ApiRoute r => _dep_needs_ctx (dependant r) || fx_custom_class fx r && include_in_schema r
  | PlainRoute _ _ in_schema => in_schema
  | ApiWs _ | PlainWs _ _ | Mounted _ _ _ _ _ _ => false
  end.

Definition run_needs_ctx (s : server) : bool :=
  match _http_middleware_dispatchers s with [] => false | _ => true end
  || _has_asgi_middleware fx app || existsb run_route_needs_ctx routes.

Definition set_needs_ctx (s : server) : server :=
  let needs := run_needs_ctx s in with_sync s (sync s) needs needs.

Definition run_middleware (s : server) (m : Z) : result server :=
  if bool_decide (cls_name m = $"RateLimitMiddleware") then
    call_core $"configure_rate_limit" (ConfigureRateLimit (kw m $"max_requests" (KInt 100)) (kw m $"window_seconds" (KInt 60))) s
  else if bool_decide (cls_name m = $"LoggingMiddleware") then call_core $"set_post_response_hook" SetPostResponseHook s
  else Ok s.

(** The task that generates the document; its exceptions are logged. *)
Definition _deferred_openapi (s : server) : server := (generate_schema s).1.

(** What a lifespan context is entered with: an exception, or the state it
    yields.  The first worker generates the document in a task of its own. *)
Definition run_server_start (is_worker first_worker : bool) (max_body_size : Z) (lifespan : result unit) (s : server)
    : result server :=
  let s := set_needs_ctx (sync_routes s) in
  let! s := rfold run_middleware (sync_cors s) (user_middleware app) in
  let! s := if is_worker then Ok s else call_core $"freeze_routes" FreezeRoutes s in
  let! s := call_core $"warmup" Warmup s in
  let! _ := lifespan in
  Ok (if first_worker && Applications.truthy (Applications.openapi_url app) && has $"set_openapi_schema"
      then _deferred_openapi s else s).

(** The end of [run_server]: middleware is forgotten, then the lifespan ends. *)
Definition run_server_stop (lifespan_exit : result unit) (s : server) : server * result unit :=
  (_set_http_middleware_dispatchers [] s, lifespan_exit).
End start.

(** ** Functions registered for the application *)

(** The function for [GZipMiddleware]: a response that is asked for compressed
    and large enough is replaced in place. *)
Record answer : Type := mkAnswer { an_body : option bytes; an_headers : MH.MutableHeaders }.

Definition _gzip_dispatch (compress : Z -> bytes -> bytes) (minimum level : Z) (accept_encoding : str) (a : answer)
    : result answer :=
  if negb (contains $"gzip" accept_encoding) then Ok a
  else
    let body := get_or (an_body a) [] in
    if (Z.of_nat (length body) <? minimum)%Z then Ok a
    else
      let compressed := compress level body in
      let! hs := MH.setitem (an_headers a) $"content-encoding" $"gzip" in
      let! hs := MH.setitem hs $"content-length" (N_to_str (N.of_nat (length compressed))) in
      Ok (mkAnswer (Some compressed) hs).

(** The endpoint of a request: the first route that matches fully; a mount has
    no endpoint, and what matches partially has no routes of its own. *)
Section context.
Context (app_of : APIRoute -> asgi_app) (ws_app_of : APIWebSocketRoute -> asgi_app).
Context (introspect : Z -> Introspection).

Definition lookup_scope (method path : str) : Scope :=
  mkScope Http path None None (Some method) None None None None None (Some []) None false false.

Definition endpoint_of (rt : any_route) : result (option Z) :=
  match rt with
  | ApiRoute r => Ok (Some (dep_call (info (dependant r))))
  | PlainRoute r _ _ => Ok (Some (r_endpoint r))
  | ApiWs r => Ok (Some (aw_endpoint r))
  | PlainWs r _ => Ok (Some (w_endpoint r))
  | Mounted _ _ _ _ _ _ => Raise (AttributeError $"endpoint")
  end.

Fixpoint _find_fn (rs : list any_route) (path method : str) : result (option Z) :=
  match rs with
  | [] => Ok None
  | rt :: rs' =>
      let! (m, _) := matches (as_base app_of ws_app_of rt) (lookup_scope method path) in
      match m with
      | Full => endpoint_of rt
      | _ => _find_fn rs' path method
      end
  end.

(** [_rv_handler_with_ctx]: the endpoint is added to an error that has none,
    and the handler is called.  [full_app_routes] are the routes of the whole
    application, none if middleware is wrapped around it. *)
Definition add_endpoint {E} (full_app_routes : list any_route) (path method : str) (c : ctx_cache)
    (exc : @ValidationException E) : ctx_cache * @ValidationException E :=
  match endpoint_function exc with
  | Some (_ :: _) => (c, exc)
  | _ =>
      match path, _find_fn full_app_routes path (or_text method $"GET") with
      | _ :: _, Ok (Some fn) =>
          let '(c', ctx) := _extract_endpoint_context c fn (introspect fn) in
          match ctx_function ctx with
          | Some ((_ :: _) as f) =>
              (c', mkValidation (_errors exc) (Some f) (Some (or_text method $"GET" ++ $" " ++ path)) (ctx_file ctx) (ctx_line ctx))
          | _ => (c', exc)
          end
      | _, _ => (c, exc)
      end
  end.

(** The outcome with the exception that is kept for the test client. *)
Definition _rv_handler_with_ctx {E A} (full_app_routes : list any_route) (path method : str) (c : ctx_cache)
    (orig : @ValidationException E -> result A) (exc : @ValidationException E)
    : ctx_cache * option (@ValidationException E) * result A :=
  let '(c', exc') := add_endpoint full_app_routes path method c exc in
  match orig exc' with
  | Ok a => (c', None, Ok a)
  | Raise e => (c', Some exc', Raise e)
  end.
End context.

(** ** Facts *)
Section facts.
Context (has : str -> bool) (core_raises : core_call -> option exn).
Context (fx : Facts) (mw_kwargs : Z -> list (str * kwarg)).
Context (app : AstraAPI) (dapp : docs_app) (routes webhooks : list any_route).
Context (w : World) (D : Docs) (depth : nat) (info : Info) (get_definitions : list any_field -> ddict).
Context (to_json_bytes : ddict -> result bytes) (doc_text : ddict -> result str).
Context (h : heap) (object_text : Z -> result str) (limit : nat).
#[local] Abbreviation call_core := (call_core has core_raises).
#[local] Abbreviation try_core := (try_core has core_raises).

(** The core knows more: the accepted calls were extended by some of a kind. *)
Definition extends (P : core_call -> Prop) (s s' : server) : Prop :=
  ∃ l, core s' = core s ++ l ∧ Forall P l.

(** Everything else the start sets is as it was. *)
Definition same_module (s s' : server) : Prop :=
  _app_exc_handlers s' = _app_exc_handlers s ∧ _app_status_handlers s' = _app_status_handlers s
  ∧ _http_middleware_dispatchers s' = _http_middleware_dispatchers s.

Definition same_flags (s s' : server) : Prop :=
  needs_request_context s' = needs_request_context s ∧ core_app_needs_req_ctx s' = core_app_needs_req_ctx s.

(** A step that only talks to the core. *)
Definition core_only (P : core_call -> Prop) (s s' : server) : Prop :=
  extends P s s' ∧ same_module s s' ∧ same_flags s s'.

Lemma core_only_refl P s : core_only P s s.
Proof. repeat split; try done. exists []. by rewrite app_nil_r. Qed.

Lemma core_only_trans P a b c : core_only P a b -> core_only P b c -> core_only P a c.
Proof.
  intros ((l & Hl & Fl) & (? & ? & ?) & (? & ?)) ((k & Hk & Fk) & (? & ? & ?) & (? & ?)).
  repeat split; try congruence. exists (l ++ k). split; [by rewrite Hk, Hl, app_assoc|by apply Forall_app].
Qed.

Lemma core_only_call (P : core_call -> Prop) name c s s' : P c -> call_core name c s = Ok s' -> core_only P s s'.
Proof.
  unfold ServerStart.call_core. intros Hc. destruct (has name); [|intros [= <-]; apply core_only_refl].
  destruct (core_raises c); [done|]. intros [= <-]. repeat split; try done. exists [c]. by repeat constructor.
Qed.

Lemma core_only_try (P : core_call -> Prop) name c s : P c -> core_only P s (try_core name c s).
Proof.
  intros Hc. unfold ServerStart.try_core. destruct (call_core name c s) eqn:E; [by eapply core_only_call|apply core_only_refl].
Qed.

Lemma core_only_docs P s d root : core_only P s (with_docs s d root).
Proof. repeat split; try done. exists []. by rewrite app_nil_r. Qed.

Lemma core_only_schema (P : core_call -> Prop) s :
  (∀ t, P (SetOpenapiSchema t)) ->
  core_only P s (generate_schema has core_raises routes webhooks w D depth info get_definitions to_json_bytes doc_text s).1.
Proof.
  intros HP. unfold generate_schema. destruct (openapi _ _ _ _ _ _ _ _ (docs s)) as [d [[|kv schema]|e]]; [apply core_only_docs| |apply core_only_docs].
  destruct (doc_text _) as [t|e]; [|apply core_only_docs].
  destruct (call_core _ _ _) eqn:E; [|apply core_only_docs].
  eapply core_only_trans; [apply core_only_docs|]. by eapply core_only_call.
Qed.

Lemma core_only_fold (P : core_call -> Prop) (l : list Z) (f : server -> Z -> result server) s s' :
  (∀ s m s', f s m = Ok s' -> core_only P s s') -> rfold f s l = Ok s' -> core_only P s s'.
Proof.
  intros Hf. revert s. induction l as [|m l IH]; intros s; cbn [rfold]; [intros [= <-]; apply core_only_refl|].
  intros (s1 & H1 & H2)%rbind_Ok. eapply core_only_trans; eauto.
Qed.

(** What [run_server] tells the core. *)
Definition run_server_call (c : core_call) : Prop :=
  match c with
  | ConfigureCors _ | ConfigureRateLimit _ _ | SetPostResponseHook | FreezeRoutes | Warmup | SetOpenapiSchema _ => True
  | _ => False
  end.

End facts.

(** The effect of a call the hypotheses give the result of. *)
Ltac core_only_step := eapply core_only_call; [|eassumption]; exact I.

(** A handler as the asynchronous paths use it. *)
Definition served_handler (has : str -> bool) (k : handler_key) (v : Z) : handler_ref :=
  if bool_decide (k = ExcMiddleware.Class RVE) && has $"set_type_exception_handlers" && negb (is_default_handler v)
  then WithContext v else Registered v.

Lemma type_handlers_elem app c v :
  (c, v) ∈ type_handlers app ↔ (ExcMiddleware.Class c, v) ∈ exception_handlers app ∧ is_default_handler v = false.
Proof.
  unfold type_handlers. rewrite list_elem_of_omap. split.
  - intros ([[c'|c'] v'] & Hin & Hx); cbn in Hx; [done|]. destruct (is_default_handler v') eqn:E; [done|]. by simplify_eq.
  - intros [Hin Hd]. exists (ExcMiddleware.Class c, v). cbn. by rewrite Hd.
Qed.

Lemma registered_get app k v :
  dict_get (exception_handlers app) k = Some v -> dict_get (all_handlers app) k = Some (Registered v).
Proof.
  unfold all_handlers. induction (exception_handlers app) as [|[k' v'] d IH]; [done|]. cbn. case_decide; [|done].
  by intros [= ->].
Qed.

Lemma type_handlers_get app c v :
  dict_get (exception_handlers app) (ExcMiddleware.Class c) = Some v -> is_default_handler v = false ->
  dict_get (type_handlers app) c = Some v.
Proof.
  unfold type_handlers. induction (exception_handlers app) as [|[[n|c'] v'] d IH]; [done| |]; simpl.
  - done.
  - destruct (decide (ExcMiddleware.Class c = ExcMiddleware.Class c')) as [E|E]; intros Hv Hd; simplify_eq.
    + rewrite Hd. simpl. by rewrite decide_True.
    + destruct (is_default_handler v'); [by apply IH|]. simpl. rewrite decide_False by congruence. by apply IH.
Qed.

Lemma status_handlers_get app c v :
  dict_get (exception_handlers app) (ExcMiddleware.Status c) = Some v ↔ dict_get (status_handlers app) c = Some (Registered v).
Proof.
  unfold status_handlers. induction (exception_handlers app) as [|[[n|c'] v'] d IH]; [done| |]; simpl.
  - repeat case_decide; simplify_eq; naive_solver.
  - done.
Qed.

Lemma registered_values {K} `{EqDecision K} (l : list (K * Z)) k v :
  dict_get l k = Some v -> dict_get ((fun kv => (kv.1, Registered kv.2)) <$> l) k = Some (Registered v).
Proof. induction l as [|[k' v'] l IH]; [done|]. cbn. case_decide; [by intros [= ->]|done]. Qed.

Lemma registered_keys {K} (l : list (K * Z)) : ((fun kv => (kv.1, Registered kv.2)) <$> l).*1 = l.*1.
Proof. by rewrite <-list_fmap_compose. Qed.

Lemma extends_same P s : extends P s s.
Proof. exists []. by rewrite app_nil_r. Qed.

Lemma call_core_told has core_raises name c s s' :
  has name = true -> call_core has core_raises name c s = Ok s' -> s' = with_core s (core s ++ [c]).
Proof. unfold call_core. intros ->. by destruct (core_raises c); intros [= <-]. Qed.

(** Handlers of classes are known to the core, all handlers to the rest. *)
Lemma handlers_registered has core_raises app s s' :
  dict_wf (exception_handlers app) -> register_handlers has core_raises app s = Ok s' ->
  extends (fun _ => True) s s' ∧ _app_status_handlers s' = status_handlers app
  ∧ (∀ k v, dict_get (exception_handlers app) k = Some v -> dict_get (_app_exc_handlers s') k = Some (served_handler has k v))
  ∧ (∀ c v, dict_get (exception_handlers app) (ExcMiddleware.Class c) = Some v -> is_default_handler v = false ->
       has $"set_type_exception_handlers" = true ->
       ∃ hs, SetTypeExceptionHandlers hs ∈ core s'
             ∧ dict_get hs c = Some (if bool_decide (c = RVE) then WithContext v else Registered v)).
Proof.
  intros Hwf. unfold register_handlers. set (s1 := _set_app_exception_handlers _ _ s).
  assert (∀ c v, dict_get (exception_handlers app) (ExcMiddleware.Class c) = Some v -> is_default_handler v = false ->
            c ∈ (type_handlers app).*1) as Hin.
  { intros c v Hc Hd. apply list_elem_of_fmap. exists (c, v). split; [done|]. apply type_handlers_elem. eauto using dict_get_elem. }
  assert ((∀ v, dict_get (exception_handlers app) (ExcMiddleware.Class RVE) = Some v ->
             has $"set_type_exception_handlers" && negb (is_default_handler v) = false) ->
          ∀ k v, dict_get (exception_handlers app) k = Some v ->
            dict_get (all_handlers app) k = Some (served_handler has k v)) as Hplain.
  { intros Hno k v Hk. rewrite (registered_get _ _ _ Hk). unfold served_handler.
    case_bool_decide as Hr; [subst|done]. cbn [andb]. by rewrite (Hno _ Hk). }
  destruct (type_handlers app) as [|kv0 l0] eqn:Et.
  { intros [= <-]. split_and!; [apply (extends_same _ s)|done| |].
    - apply Hplain. intros v Hv. destruct (is_default_handler v) eqn:Hd; [apply andb_false_r|]. by apply (Hin _ _ Hv), elem_of_nil in Hd.
    - intros c v Hc Hd. by apply (Hin _ _ Hc), elem_of_nil in Hd. }
  rewrite <-Et in *. clear kv0 l0 Et. destruct (has $"set_type_exception_handlers") eqn:Hhas.
  2: { intros [= <-]. split_and!; [apply (extends_same _ s)|done|by apply Hplain|done]. }
  destruct (dict_get (type_handlers app) RVE) as [orig|] eqn:Er.
  - intros ->%call_core_told; [|done]. split_and!; [by eexists; repeat constructor|done| |].
    + intros k v Hk. cbn [_app_exc_handlers with_core _set_app_exception_handlers]. rewrite dict_get_set. unfold served_handler. rewrite Hhas.
      apply dict_get_elem, type_handlers_elem in Er as [Er Hd]. apply (dict_elem_get _ _ _ Hwf) in Er.
      case_decide as Hr; [subst; rewrite bool_decide_true by done|rewrite bool_decide_false by naive_solver].
      * rewrite Er in Hk. simplify_eq. by rewrite Hd.
      * by apply registered_get.
    + intros c v Hv Hd _. eexists. split; [apply elem_of_app; right; by left|]. rewrite dict_get_set.
      pose proof (type_handlers_get _ _ _ Hv Hd) as Hg. case_decide as Hr; [|by rewrite bool_decide_false, registered_values with (v := v) by naive_solver].
      rewrite bool_decide_true by done. subst c. congruence.
  - intros ->%call_core_told; [|done]. split_and!; [by eexists; repeat constructor|done| |].
    + apply Hplain. intros v Hv. destruct (is_default_handler v) eqn:Hd; [done|]. apply (Hin _ _ Hv) in Hd.
      by apply dict_get_None in Er.
    + intros c v Hv Hd _. eexists. split; [apply elem_of_app; right; by left|].
      pose proof (type_handlers_get _ _ _ Hv Hd) as Hg. rewrite (registered_values _ _ _ Hg).
      by rewrite bool_decide_false by congruence.
Qed.

Lemma told_mono P s s' c : extends P s s' -> c ∈ core s -> c ∈ core s'.
Proof. intros (l & -> & _) Hc. apply elem_of_app. by left. Qed.

Lemma try_told has core_raises name c s :
  has name = true -> core_raises c = None -> c ∈ core (try_core has core_raises name c s).
Proof. intros Hn Hc. unfold try_core, call_core. rewrite Hn, Hc. apply elem_of_app. right. by left. Qed.

Lemma dispatchers_registered has core_raises fx mw_kwargs app s s' :
  register_dispatchers has core_raises fx mw_kwargs app s = Ok s' ->
  extends (fun _ => True) s s' ∧ _app_exc_handlers s' = _app_exc_handlers s ∧ _app_status_handlers s' = _app_status_handlers s
  ∧ _http_middleware_dispatchers s' = http_dispatchers fx mw_kwargs app.
Proof. intros H. by destruct (core_only_call _ _ (fun _ => True) _ _ _ _ I H) as (X & (E1 & E2 & E3) & _). Qed.

Lemma body_limit_told has core_raises n env s s' :
  set_body_limit has core_raises n env s = Ok s' -> 0 < n -> has $"set_max_body_size" = true -> SetMaxBodySize n ∈ core s'.
Proof.
  unfold set_body_limit. intros (e & _ & H)%rbind_Ok Hn Hhas. destruct (Z.eqb_spec n 0); [lia|].
  destruct (Z.ltb_spec 0 n); [|lia]. apply call_core_told in H as ->; [|done]. apply elem_of_app. right. by left.
Qed.

Section starts.
Context (has : str -> bool) (core_raises : core_call -> option exn).
Context (fx : Facts) (mw_kwargs : Z -> list (str * kwarg)).
Context (app : AstraAPI) (dapp : docs_app) (routes webhooks : list any_route).
Context (w : World) (D : Docs) (depth : nat) (info : Info) (get_definitions : list any_field -> ddict).
Context (to_json_bytes : ddict -> result bytes) (doc_text : ddict -> result str).
Context (h : heap) (object_text : Z -> result str) (limit : nat).
#[local] Abbreviation create := (_create_server has core_raises fx mw_kwargs app dapp routes webhooks w D depth info
  get_definitions to_json_bytes doc_text h object_text limit).
#[local] Abbreviation run_start := (run_server_start has core_raises fx mw_kwargs app routes webhooks w D depth info
  get_definitions to_json_bytes doc_text).
#[local] Abbreviation hosts := (sync_hosts has core_raises fx mw_kwargs app).
#[local] Abbreviation https := (sync_https has core_raises fx app).
#[local] Abbreviation cors := (sync_cors has core_raises fx mw_kwargs app).
#[local] Abbreviation any := (fun _ : core_call => True).

Lemma core_only_https s : core_only any s (https s).
Proof. unfold sync_https. destruct (first_middleware _ _ _); [by apply core_only_try|apply core_only_refl]. Qed.

Lemma core_only_hosts s : core_only any s (hosts s).
Proof. unfold sync_hosts. destruct (first_middleware _ _ _); [by apply core_only_try|apply core_only_refl]. Qed.

Lemma core_only_cors s : core_only any s (cors s).
Proof. unfold sync_cors. destruct (first_middleware _ _ _); [by apply core_only_try|apply core_only_refl]. Qed.

Lemma core_only_set_schema s s' :
  set_schema has core_raises app routes webhooks w D depth info get_definitions to_json_bytes doc_text s = Ok s' -> core_only any s s'.
Proof.
  unfold set_schema. destruct (_ && _); [|intros [= <-]; apply core_only_refl].
  pose proof (core_only_schema has core_raises routes webhooks w D depth info get_definitions to_json_bytes doc_text any s (fun _ => I)) as Q.
  destruct (generate_schema _ _ _ _ _ _ _ _ _ _ _ s) as [s1 [?|e]]; cbn [fst] in Q; [by intros [= <-]|].
  destruct (is_value_error e); [done|]. by intros [= <-].
Qed.

Lemma run_server_quiet is_worker first_worker n lifespan s s' :
  run_server_start has core_raises fx mw_kwargs app routes webhooks w D depth info get_definitions to_json_bytes doc_text
    is_worker first_worker n lifespan s = Ok s' ->
  core_only run_server_call (set_needs_ctx fx app routes (sync_routes fx app routes s)) s'.
Proof.
  unfold run_server_start. set (s0 := set_needs_ctx _ _ _ _). intros (s1 & H1 & H)%rbind_Ok.
  apply rbind_Ok in H as (s2 & H2 & H). apply rbind_Ok in H as (s3 & H3 & H). apply rbind_Ok in H as (? & _ & [= <-]).
  assert (core_only run_server_call s0 s1) as Q1.
  { apply core_only_trans with (sync_cors has core_raises fx mw_kwargs app s0); [|eapply core_only_fold; [|exact H1]].
    - unfold sync_cors. destruct (first_middleware _ _ _); [by apply core_only_try|apply core_only_refl].
    - intros a m b Hm. unfold run_middleware in Hm. case_bool_decide; [core_only_step|].
      case_bool_decide; [core_only_step|]. injection Hm as <-. apply core_only_refl. }
  assert (core_only run_server_call s1 s2) as Q2.
  { destruct is_worker; [simplify_eq; apply core_only_refl|core_only_step]. }
  assert (core_only run_server_call s2 s3) as Q3 by core_only_step.
  apply core_only_trans with s3; [by eauto using core_only_trans|].
  destruct (_ && _); [by apply core_only_schema|apply core_only_refl].
Qed.

(** The start as its four steps; after the third only the core changes. *)
Lemma create_steps root n env s s' :
  create root n env s = Ok s' ->
  ∃ s0 s1 s2 s3, set_body_limit has core_raises n env s0 = Ok s1
    ∧ register_handlers has core_raises app s1 = Ok s2
    ∧ register_dispatchers has core_raises fx mw_kwargs app s2 = Ok s3
    ∧ core_only any (cors (hosts (https s3))) s'.
Proof.
  unfold _create_server. destruct (start_server dapp root (docs s)) as [d r].
  intros (s1 & H1 & H)%rbind_Ok. apply rbind_Ok in H as (s2 & H2 & H). apply rbind_Ok in H as (s3 & H3 & H).
  apply rbind_Ok in H as (s4 & H4 & H). apply rbind_Ok in H as (s5 & H5 & H). apply rbind_Ok in H as (s6 & H6 & H).
  eexists _, s1, s2, s3. split_and!; [exact H1|done|done|].
  apply core_only_trans with s4; [core_only_step|]. apply core_only_trans with s5; [core_only_step|].
  assert (core_only any s5 s6) as Q.
  { unfold set_swagger_parameters in H6. destruct (has _); [|simplify_eq; apply core_only_refl].
    apply rbind_Ok in H6 as (t & _ & [= <-]). by apply core_only_try. }
  eapply core_only_trans; [exact Q|]. eapply core_only_trans; [|by apply core_only_set_schema]. by apply core_only_try.
Qed.
End starts.

(** ** What the descriptors say *)
Section descriptors.
Context (fx : Facts) (mw_kwargs : Z -> list (str * kwarg)) (app : AstraAPI).

(** The value of a keyword argument, or its default where it is not given. *)
Definition keyword (m : Z) (key : str) (dflt v : kwarg) : Prop :=
  dict_get (mw_kwargs m) key = Some v ∨ dict_get (mw_kwargs m) key = None ∧ v = dflt.

(** [m] is the first middleware of the class. *)
Definition first_of (name : str) (m : Z) : Prop :=
  ∃ pre post, user_middleware app = pre ++ m :: post ∧ fx_middleware_name fx m = name
              ∧ ∀ x, x ∈ pre -> fx_middleware_name fx x ≠ name.

(** The functions a list of middleware stands for: one for every middleware
    made by [@app.middleware("http")] and for every [GZipMiddleware], in the
    order of the list, and none for the others. *)
Inductive installs : list Z -> list dispatcher -> Prop :=
  | installs_nil : installs [] []
  | installs_function m ms f ds :
      fx_middleware_name fx m = $"BaseHTTPMiddleware" -> dict_get (mw_kwargs m) $"dispatch" = Some f -> f ≠ KNone ->
      installs ms ds -> installs (m :: ms) (UserDispatch f :: ds)
  | installs_gzip m ms minimum level ds :
      fx_middleware_name fx m = $"GZipMiddleware" ->
      keyword m $"minimum_size" (KInt 500) minimum -> keyword m $"compresslevel" (KInt 9) level ->
      installs ms ds -> installs (m :: ms) (GzipDispatch minimum level :: ds)
  | installs_nothing m ms ds :
      (fx_middleware_name fx m = $"BaseHTTPMiddleware" ->
         dict_get (mw_kwargs m) $"dispatch" = None ∨ dict_get (mw_kwargs m) $"dispatch" = Some KNone) ->
      fx_middleware_name fx m ≠ $"GZipMiddleware" -> installs ms ds -> installs (m :: ms) ds.

(** The arguments of the first CORS middleware. *)
Definition cors_keywords (m : Z) (a : cors_args) : Prop :=
  keyword m $"allow_origins" (KStrs []) (ca_origins a)
  ∧ keyword m $"allow_origin_regex" KNone (ca_origin_regex a)
  ∧ keyword m $"allow_methods" (KStrs [$"GET"]) (ca_methods a)
  ∧ keyword m $"allow_headers" (KStrs []) (ca_headers a)
  ∧ keyword m $"allow_credentials" (KBool false) (ca_credentials a)
  ∧ keyword m $"expose_headers" (KStrs []) (ca_expose_headers a)
  ∧ keyword m $"max_age" (KInt 600) (ca_max_age a).

(** What makes [run_server] read the requests. *)
Definition asks_for_request (dispatchers : list dispatcher) (routes : list any_route) : Prop :=
  dispatchers ≠ []
  ∨ (∃ m, m ∈ user_middleware app ∧ fx_middleware_name fx m ∉
       [$"BaseHTTPMiddleware"; $"HTTPSRedirectMiddleware"; $"TrustedHostMiddleware"; $"CORSMiddleware"])
  ∨ ∃ rt, rt ∈ routes ∧
      match rt with
      | ApiRoute r => _dep_needs_ctx (dependant r) = true ∨ fx_custom_class fx r = true ∧ include_in_schema r = true
      | PlainRoute _ _ in_schema => in_schema = true
      | _ => False
      end.

Lemma keyword_kw m key dflt v : keyword m key dflt v ↔ kw mw_kwargs m key dflt = v.
Proof. unfold keyword, kw. destruct (dict_get _ _); simpl; naive_solver. Qed.

Lemma http_dispatchers_install : installs (user_middleware app) (http_dispatchers fx mw_kwargs app).
Proof.
  unfold http_dispatchers. induction (user_middleware app) as [|m ms IH]; [constructor|]. cbn [omap list_omap].
  unfold dispatcher_of at 1, cls_name. case_bool_decide as Hb.
  - destruct (kw mw_kwargs m $"dispatch" KNone) as [| | | | |] eqn:Ek;
      [apply keyword_kw in Ek; apply installs_nothing; [by destruct Ek as [?|[? _]]; auto|by rewrite Hb|done]
      |apply keyword_kw in Ek as [Ek|[_ ?]]; [by apply installs_function|done]..].
  - case_bool_decide as Hg; [by apply installs_gzip; [|apply keyword_kw|apply keyword_kw|]|by apply installs_nothing].
Qed.

Lemma first_of_middleware name m : first_of name m -> first_middleware fx app name = Some m.
Proof.
  intros (pre & post & Ha & Hn & Hpre). unfold first_middleware. rewrite Ha, list_find_app_r.
  - simpl. by rewrite decide_True.
  - apply list_find_None, Forall_forall. done.
Qed.

Lemma cors_keywords_args m a : cors_keywords m a -> cors_args_of mw_kwargs m = a.
Proof.
  unfold cors_keywords, cors_args_of. rewrite !keyword_kw. destruct a. cbn.
  intros (-> & -> & -> & -> & -> & -> & ->). done.
Qed.

Lemma run_needs_asks routes s :
  run_needs_ctx fx app routes s = true ↔ asks_for_request (_http_middleware_dispatchers s) routes.
Proof.
  assert (Hm : ∀ m, negb (bool_decide (fx_middleware_name fx m ∈ known_middleware)) = true ↔
                 fx_middleware_name fx m ∉ known_middleware) by (intros m; by rewrite negb_true_iff, bool_decide_eq_false).
  assert (Hr : ∀ rt, run_route_needs_ctx fx rt = true ↔
    match rt with
    | ApiRoute r => _dep_needs_ctx (dependant r) = true ∨ fx_custom_class fx r = true ∧ include_in_schema r = true
    | PlainRoute _ _ in_schema => in_schema = true
    | _ => False
    end) by (intros []; simpl; rewrite ?orb_true_iff, ?andb_true_iff; done).
  assert (Hd : match _http_middleware_dispatchers s with [] => false | _ => true end = true ↔
                 _http_middleware_dispatchers s ≠ []) by (by destruct (_http_middleware_dispatchers s)).
  unfold run_needs_ctx, asks_for_request, _has_asgi_middleware. rewrite !orb_true_iff, !existsb_exists, Hd.
  setoid_rewrite Hm. setoid_rewrite Hr. setoid_rewrite list_elem_of_In. unfold known_middleware. tauto.
Qed.
End descriptors.

(** C36: what an application gets from either start.  A server made by
    [_create_server] runs the functions of [@app.middleware("http")] and of
    [GZipMiddleware] in the order of the middleware, has every exception handler
    of the application where the asynchronous paths look for it, and the handlers
    of classes, the two default ones apart, where the core does; the handler of
    validation errors is the one wrapped to add the endpoint, every other the
    registered one.  Its core applies the arguments of the first trusted-host,
    HTTPS and CORS middleware, as written or their defaults, and the given body
    limit, unless it refuses them.  A server started by [run_server] gets none of
    these but CORS (against the documentation of [_create_server], which says that
    [run_server] uses it): handlers and functions stay what they were, the core is
    told only of CORS, rate limits, logging and the document, and requests are
    read exactly if a function is registered, or some middleware is of another
    class than the four known ones, or an API or a plain route asks for it,
    whatever mounts there are. *)
Theorem server_starts has core_raises fx mw_kwargs app dapp routes webhooks w D depth info gd to_json doc_text h object_text limit :
  dict_wf (exception_handlers app) ->
  (∀ root n env s s',
     _create_server has core_raises fx mw_kwargs app dapp routes webhooks w D depth info gd to_json doc_text h object_text limit
       root n env s = Ok s' ->
     let told name c := has name = true -> core_raises c = None -> c ∈ core s' in
     installs fx mw_kwargs (user_middleware app) (_http_middleware_dispatchers s')
     ∧ (∀ c v, dict_get (exception_handlers app) (ExcMiddleware.Status c) = Some v ↔
          dict_get (_app_status_handlers s') c = Some (Registered v))
     ∧ (∀ k v, dict_get (exception_handlers app) k = Some v ->
          dict_get (_app_exc_handlers s') k
          = Some (if bool_decide (k = ExcMiddleware.Class $"RequestValidationError")
                     && has $"set_type_exception_handlers" && negb (is_default_handler v)
                  then WithContext v else Registered v))
     ∧ (∀ c v, dict_get (exception_handlers app) (ExcMiddleware.Class c) = Some v ->
          v ≠ default_http_handler -> v ≠ default_validation_handler ->
          has $"set_type_exception_handlers" = true ->
          ∃ hs, SetTypeExceptionHandlers hs ∈ core s'
                ∧ dict_get hs c = Some (if bool_decide (c = $"RequestValidationError") then WithContext v else Registered v))
     ∧ (∀ m hosts, first_of fx app $"TrustedHostMiddleware" m -> keyword mw_kwargs m $"allowed_hosts" (KStrs [$"*"]) hosts ->
          told $"configure_trusted_hosts" (ConfigureTrustedHosts hosts))
     ∧ (∀ m, first_of fx app $"HTTPSRedirectMiddleware" m -> told $"set_https_redirect" SetHttpsRedirect)
     ∧ (∀ m a, first_of fx app $"CORSMiddleware" m -> cors_keywords mw_kwargs m a -> told $"configure_cors" (ConfigureCors a))
     ∧ (0 < n -> told $"set_max_body_size" (SetMaxBodySize n)))
  ∧ (∀ is_worker first_worker n lifespan s s',
     run_server_start has core_raises fx mw_kwargs app routes webhooks w D depth info gd to_json doc_text
       is_worker first_worker n lifespan s = Ok s' ->
     same_module s s' ∧ extends run_server_call s s'
     ∧ (core_app_needs_req_ctx s' = true ↔ asks_for_request fx app (_http_middleware_dispatchers s) routes)).
Proof.
  intros Hwf. split.
  - intros root n env s s' Hc told.
    apply create_steps in Hc as (s0 & s1 & s2 & s3 & H1 & H2 & H3 & Hl & (He & Hst & Hd) & _).
    destruct (handlers_registered _ _ _ _ _ Hwf H2) as (X2 & Hs2 & Hh2 & Ht2).
    destruct (dispatchers_registered _ _ _ _ _ _ _ H3) as (X3 & He3 & Hs3 & Hd3).
    destruct (core_only_https has core_raises fx app s3) as (X4 & (E4 & S4 & D4) & _).
    destruct (core_only_hosts has core_raises fx mw_kwargs app (sync_https has core_raises fx app s3)) as (X5 & (E5 & S5 & D5) & _).
    destruct (core_only_cors has core_raises fx mw_kwargs app (sync_hosts has core_raises fx mw_kwargs app (sync_https has core_raises fx app s3)))
      as (X6 & (E6 & S6 & D6) & _).
    split_and!.
    + rewrite Hd, D6, D5, D4, Hd3. apply http_dispatchers_install.
    + intros c v. rewrite Hst, S6, S5, S4, Hs3, Hs2. apply status_handlers_get.
    + intros k v Hk. rewrite He, E6, E5, E4, He3. by apply Hh2.
    + intros c v Hc Hd1 Hd2 Hhas. assert (Hdef : is_default_handler v = false).
      { unfold is_default_handler. by rewrite !(proj2 (Z.eqb_neq _ _)). }
      destruct (Ht2 c v Hc Hdef Hhas) as (hs & Hin & Hk). exists hs. eauto 9 using told_mono.
    + intros m hosts Hm%first_of_middleware Hkw%keyword_kw Hhas Hok. eapply told_mono, told_mono; eauto.
      unfold sync_hosts. rewrite Hm, Hkw. by apply try_told.
    + intros m Hm%first_of_middleware Hhas Hok. eapply told_mono, told_mono, told_mono; eauto. unfold sync_https.
      rewrite Hm. by apply try_told.
    + intros m a Hm%first_of_middleware Ha%cors_keywords_args Hhas Hok. eapply told_mono; eauto. unfold sync_cors.
      rewrite Hm, Ha. by apply try_told.
    + intros Hn Hhas Hok. do 6 (eapply told_mono; [eassumption|]). by eapply body_limit_told.
  - intros iw fw n lifespan s s' H. apply run_server_quiet in H as (X & (E1 & E2 & E3) & _ & F).
    assert (core (set_needs_ctx fx app routes (sync_routes fx app routes s)) = core s
            ∧ same_module s (set_needs_ctx fx app routes (sync_routes fx app routes s))) as [Hcore (M1 & M2 & M3)].
    { unfold set_needs_ctx, sync_routes. by destruct (_routes_synced _). }
    unfold extends in *. rewrite Hcore in X. split; [unfold same_module; split_and!; congruence|]. split; [done|].
    rewrite <-run_needs_asks, F. unfold set_needs_ctx, run_needs_ctx, sync_routes. by destruct (_routes_synced _).
Qed.

(** A mounted application on a server of [run_server]: unless some other route
    or middleware asks for it, the request is not kept, so the wrapper of the
    mount reads an empty [GET /]; the registration of the same routes had asked
    for the request. *)
Theorem mounts_without_request has core_raises fx mw_kwargs app routes webhooks w D depth info gd to_json doc_text
    is_worker first_worker n lifespan s s' :
  run_server_start has core_raises fx mw_kwargs app routes webhooks w D depth info gd to_json doc_text
    is_worker first_worker n lifespan s = Ok s' ->
  _http_middleware_dispatchers s = [] -> _has_asgi_middleware fx app = false ->
  Forall (fun rt => match rt with Mounted _ _ _ _ _ _ => True | PlainRoute _ _ in_schema => in_schema = false | _ => False end) routes ->
  Exists (fun rt => match rt with Mounted _ _ _ _ _ _ => True | _ => False end) routes ->
  core_app_needs_req_ctx s' = false ∧ _needs_request_context fx app routes = true.
Proof.
  intros H Hd Hm Hr He. split.
  - apply run_server_quiet in H as (_ & _ & _ & ->).
    assert (_http_middleware_dispatchers (sync_routes fx app routes s) = []) as Hd'.
    { unfold sync_routes. by destruct (_routes_synced _). }
    unfold set_needs_ctx, run_needs_ctx. cbn [core_app_needs_req_ctx with_sync]. rewrite Hd', Hm. cbn [orb].
    clear -Hr. induction Hr as [|rt rs Hrt _ IH]; [done|]. cbn [existsb]. rewrite IH, orb_false_r. by destruct rt.
  - unfold _needs_request_context. rewrite orb_true_iff. right. clear -He.
    induction He as [rt rs Hrt|rt rs _ IH]; cbn [existsb]; [by destruct rt|]. rewrite IH. apply orb_true_r.
Qed.

(** The function for [GZipMiddleware] keeps the response: it is returned as it
    is, or it was asked for compressed, is large enough, decompresses to what it
    was and says so, with the length of what is sent. *)
Theorem gzip_dispatch_keeps (compress : Z -> bytes -> bytes) (gunzip : bytes -> option bytes) minimum level accept a a' :
  (∀ l b, gunzip (compress l b) = Some b) -> MH.index_ok (an_headers a) ->
  _gzip_dispatch compress minimum level accept a = Ok a' ->
  a' = a ∨
  (contains $"gzip" accept = true ∧ minimum <= Z.of_nat (length (get_or (an_body a) []))
   ∧ ∃ c, an_body a' = Some c ∧ gunzip c = Some (get_or (an_body a) [])
          ∧ MH.get (an_headers a') $"content-encoding" None = Ok (Some $"gzip")
          ∧ MH.get (an_headers a') $"content-length" None = Ok (Some (N_to_str (N.of_nat (length c))))).
Proof.
  intros Hz Hok. unfold _gzip_dispatch. destruct (contains $"gzip" accept) eqn:Ea; cbn [negb]; [|intros [= <-]; by left].
  destruct (Z.ltb_spec (Z.of_nat (length (get_or (an_body a) []))) minimum); [intros [= <-]; by left|].
  intros (h1 & H1 & Hr)%rbind_Ok. apply rbind_Ok in Hr as (h2 & H2 & [= <-]). right. split_and!; [done|done|].
  destruct (MH.setitem_ok _ _ _ _ Hok H1) as [Hok1 _]. eexists. split_and!; [done|apply Hz| |]; cbn [an_headers].
  - destruct (MH.mutable_headers_set_get h1 _ _ h2 $"content-encoding" None Hok1 H2) as (_ & Hne & _).
    rewrite Hne by done. by destruct (MH.mutable_headers_set_get _ _ _ _ $"content-encoding" None Hok H1) as (-> & _).
  - by destruct (MH.mutable_headers_set_get h1 _ _ h2 $"content-length" None Hok1 H2) as (-> & _).
Qed.

(** The wrapper of the handler of validation errors calls it once, with the
    same errors, and an endpoint already there is kept; the exception is kept
    for the test client exactly if the handler raises. *)
Theorem rv_handler_calls app_of ws_app_of introspect {E A} rs path method c (orig : @ValidationException E -> result A) exc :
  ∃ exc', _errors exc' = _errors exc
    ∧ (∀ f, endpoint_function exc = Some f -> f ≠ [] -> exc' = exc)
    ∧ (_rv_handler_with_ctx app_of ws_app_of introspect rs path method c orig exc).2 = orig exc'
    ∧ (_rv_handler_with_ctx app_of ws_app_of introspect rs path method c orig exc).1.2
      = (if is_ok (orig exc') then None else Some exc').
Proof.
  unfold _rv_handler_with_ctx. destruct (add_endpoint _ _ _ _ _ _ _ exc) as [c' exc'] eqn:Ea. exists exc'.
  split_and!; [| |by destruct (orig exc')|by destruct (orig exc')]; revert Ea; unfold add_endpoint.
  - repeat case_match; intros; by simplify_eq.
  - intros Ea f Hf Hne. rewrite Hf in Ea. destruct f; [done|]. by simplify_eq.
Qed.

(** A request into a mounted application never gets its endpoint added. *)
Theorem mounted_endpoint_not_found app_of ws_app_of introspect {E} p n id a cp sub rs path method child c
    (exc : @ValidationException E) :
  mount_matches id cp (lookup_scope (or_text method $"GET") path) = Ok (Full, child) ->
  (add_endpoint app_of ws_app_of introspect (Mounted p n id a cp sub :: rs) path method c exc).2 = exc.
Proof.
  intros Hm. unfold add_endpoint. destruct (endpoint_function exc) as [[|]|], path; try done;
    cbn [_find_fn as_base matches]; by rewrite Hm.
Qed.

(** ** An application with middleware

    A trusted-host middleware, one function of [@app.middleware("http")], and a
    handler of validation errors; the core refuses nothing. *)
Module Guarded.
Definition names (m : Z) : str := if (m =? 1)%Z then $"TrustedHostMiddleware" else $"BaseHTTPMiddleware".
Definition kwargs (m : Z) : list (str * kwarg) :=
  if (m =? 1)%Z then [($"allowed_hosts", KStrs [$"example.org"])] else [($"dispatch", KFun 5)].
Definition facts : Facts :=
  mkFacts (program Shop.world) (fun _ => true) (fun _ => false) names (fun _ => false) Z.of_nat.
Definition app : AstraAPI :=
  mkApp 0 $"Shop" $"1" None None None None [] [] None None None None true
    [(ExcMiddleware.Class RVE, 7)] [1; 2].
Definition fresh : server := mkServer [] [] [] [] true true (mkSync false []) Proxied.start [].
Definition created : result server :=
  _create_server (fun _ => true) (fun _ => None) facts kwargs app Proxied.app [] [] Shop.world Shop.docs 3 Shop.api_info
    (fun _ => []) Proxied.size_byte (fun _ => Ok $"{}") ∅ no_objects 9 [] 1024 None fresh.
Definition running : result server :=
  run_server_start (fun _ => true) (fun _ => None) facts kwargs app [] [] Shop.world Shop.docs 3 Shop.api_info
    (fun _ => []) Proxied.size_byte (fun _ => Ok $"{}") false true 1024 (Ok tt) fresh.
Definition get_server (r : result server) : server := match r with Ok s => s | Raise _ => fresh end.
End Guarded.

Lemma server_starts_witness :
  installs Guarded.facts Guarded.kwargs [1; 2] [UserDispatch (KFun 5)]
  ∧ ConfigureTrustedHosts (KStrs [$"example.org"]) ∈ core (Guarded.get_server Guarded.created)
  ∧ SetMaxBodySize 1024 ∈ core (Guarded.get_server Guarded.created)
  ∧ _http_middleware_dispatchers (Guarded.get_server Guarded.running) = []
  ∧ extends run_server_call Guarded.fresh (Guarded.get_server Guarded.running).
Proof.
  destruct (server_starts (fun _ => true) (fun _ => None) Guarded.facts Guarded.kwargs Guarded.app Proxied.app [] [] Shop.world
    Shop.docs 3 Shop.api_info (fun _ => []) Proxied.size_byte (fun _ => Ok $"{}") ∅ no_objects 9) as [Hc Hr].
  { repeat constructor. set_solver. }
  destruct (Hc [] 1024 None Guarded.fresh (Guarded.get_server Guarded.created)) as (Hd & _ & _ & _ & Hh & _ & _ & Hn);
    [vm_compute; reflexivity|].
  destruct (Hr false true 1024 (Ok tt) Guarded.fresh (Guarded.get_server Guarded.running)) as ((_ & _ & Hd') & Hx & _);
    [vm_compute; reflexivity|].
  split_and!; [exact Hd| |by apply Hn|exact Hd'|exact Hx].
  apply (Hh 1); [|by left|done|done]. exists [], [2]. split_and!; try done. intros x Hx'. by apply elem_of_nil in Hx'.
Defined.

(** A parameter of Swagger UI that [json.dumps] does not take stops the start,
    though the page of the application writes it with [jsonable_encoder]. *)
Example unencodable_parameter_stops_start :
  let h : heap := {[ 1 := mkObject [$"Path"; $"PurePath"; $"object"] $"/theme.css" LNone (NOther None None) ]} in
  let dapp := mkDocsApp $"Shop" $"/openapi.json" None None (Some [($"theme", ORef 1)]) true in
  core_parameters dapp h no_objects 9 = Raise (TypeError $"not JSON serializable")
  ∧ is_ok (swagger_html no_models (fun _ => false) h 9 no_objects (json_dumps_str no_objects) default_assets $"/openapi.json" $"Shop"
             None None (DocsServer.swagger_ui_parameters dapp)) = true.
Proof. split; vm_compute; reflexivity. Qed.
